(* ===== verification/_CoqProject ===== *)
-Q . S2P
Prelude.v
Hoare.v
Buf.v
Varint.v
Utf8.v
Frames.v
Errors.v
Config.v
Limits.v
Flow.v
Tokio.v
ConnState.v
Inbound.v
InboundSpec.v
Writer.v
WriterSpec.v
Scheduler.v
Connection.v
ErrorText.v
Streams.v
Tasks.v
ReceiveSpec.v
ReadSpec.v
ReceiveSystem.v
Receive.v
ConnectionSpec.v
Ledger.v
SendSpec.v
SendInv.v
SendOps.v
Halves.v
SendHalf.v
SendPeer.v
Duplex.v
DuplexOps.v
StreamsSpec.v
SendDuplex.v
System.v
SystemInv.v
SystemSpec.v
Shutdown.v
Fuzz.v
Fade.v
Delivery.v
DeliveryReader.v
Events.v
Books.v
BooksSpec.v
Pair.v
Credit.v
Registry.v
Progress.v
Arrivals.v
Echo.v
Endpoint.v
EndpointSpec.v
Conformance.v
Findings.v
