(* ===== verification/Prelude.v ===== *)
(** * muxtls: stream multiplexing over TLS

    A verification of the two crates of the repository: [muxtls-proto], the wire format,
    and [muxtls], the connection runtime on top of it.

    ** The program

    A connection carries many bidirectional byte streams over one TLS byte stream.  Peers
    exchange length-delimited frames: SETTINGS, OPEN_STREAM, STREAM (data, with a FIN
    flag), RESET_STREAM, STOP_SENDING, MAX_DATA, MAX_STREAM_DATA, PING and
    CONNECTION_CLOSE.  A connection runs a reader task, which decodes and handles frames,
    a writer task, which asks the scheduler for the next frame and sends it, a cleanup
    task, a keepalive task and a supervisor.  They share one state
    ([ConnectionShared]) with the application's handles ([SendStream], [RecvStream],
    [Connection]).  Flow control is credit based, per connection and per stream;
    memory is bounded by counting semaphores whose permits travel with the data.

    ** The files

    The wire format (src/muxtls-proto/src):
    - [Varint]: [varint.rs].  [VarInt.encode], [VarInt.decode], [VarInt.encoded_len].
    - [Frames]: [frame.rs] and [error.rs].  [Frame.encode], [Frame.decode],
      [Frame.encoded_len] for every frame type, with every error.
    - [Buf], [Utf8]: the [bytes] traits the codec is generic in, as a class with
      laws and a list instance; UTF-8 validation of the standard library.

    The runtime (src/muxtls/src):
    - [Errors], [Limits], [Flow]: [error.rs], [limits.rs], [flow.rs].  [Flow] has the
      receive window twice: [ReceiveWindow], operation by operation, and
      [Interleaved], a step relation over its single atomic loads and stores.
    - [Tokio]: semaphores and permits of [tokio] as a class with laws, and the counting
      instance that shows the laws can hold.
    - [ConnState]: the data of [connection.rs].  [Arc<StreamState>] is a location in a heap,
      so that sharing is visible; a mutex or an atomic is a plain field; a [Notify] is a
      log of notifications.
    - [Inbound], [Writer], [Connection]: the operations of [connection.rs] on it: receiving
      and buffering, queueing and scheduling, and opening, accepting, resetting, retiring,
      closing and handling frames.
    - [Streams]: the sending path of [connection.rs] and [stream.rs].  A send is a future
      that can wait at each await point with the permits it holds ([SendStage]);
      [poll_read], [poll_write], [poll_flush] and [poll_shutdown] are single polls.
    - [Tasks]: what each task of [spawn_connection_tasks] does between two waits.
    - [System]: the whole connection.  A [World] has the shared state, the handles and
      waiting calls of the application, the tasks and where they wait, and the frames the
      sink took; an [Event] is a call of the application, a frame of the peer or a turn of a
      task; [exec] runs one, and [runs] are the executions.
    - [Pair]: a client and a server over one transport.  A [Pair] has two worlds, each
      with what its reader handled and its application read ([Receipt], in [Delivery]) and
      how far it is in the frames of the other; a [PairEvent] is an event of one end or
      the arrival of the next frame ([arriving]), and [joined] are the executions.
    - [Config], [Endpoint]: [config.rs] and [endpoint.rs], the TLS configurations and the
      establishment of connections.
    - [Fuzz]: the targets of src/fuzz/fuzz_targets and [fuzz_connection_state].
    - [Conformance]: the test of src/muxtls-proto/tests/conformance_vectors.rs and its vectors.
    - [Echo]: [run_echo] of src/muxtls/examples/echo_server.rs, a task at one end of a [Pair].

    An operation is a function of the monad [M] of this file: it takes the state and
    returns a [Result], which is a value, an error or a panic, and the new state.  An
    [await] that has to wait returns [Pending].  Every arithmetic operation that can
    wrap, saturate or panic does so here.

    ** What is shown

    - The codec ([Varint], [Frames]): round trips through any lawful buffers; decoding
      is total, accounts for every byte and yields only well-formed frames;
      [encoded_len] is exact and minimal.
    - Configuration ([Limits], [StreamsSpec]): [validate] accepts exactly the sound
      limits; the smallest frame size is right; the search for the chunk size ends at the
      optimum.
    - The window ([Flow]): credit and buffered bytes stay within the window, also when
      reader, writer and consumers interleave; updates are due when they are needed.
    - The scheduler ([WriterSpec], [Scheduler]): [next_frame] keeps [writer_inv], never
      panics and returns in two turns; every frame fits the peer's frame size and credit;
      emitting a frame and enqueueing a chunk refine an abstract queue of bytes per stream;
      it waits only when nothing can be sent; control frames wait for at most one data
      frame; CLOSE follows the drained queues.
    - The receiver ([InboundSpec], [ReceiveSpec], [ReadSpec], [ReceiveSystem], [Receive]):
      a step relation closes received frames, accepted streams, readers and window
      updates under any order.  In every reachable state data is accepted by
      credit alone, readers get the bytes of their stream in order and once, the credit
      owed is exactly what is buffered, and the memory behind a queue is bounded.
      [SendHalf]: the operations of the sending half are steps of that system, at
      whatever stage a send is resumed or cancelled.
    - The sender ([Ledger], [SendSpec], [SendInv], [SendOps], [Halves], [SendPeer]): permits
      are accounted for by a ledger of what queued chunks and waiting sends hold; [duplex]
      ([Duplex], [DuplexOps], [SendDuplex]) is the invariant of both directions with the
      history of what each stream accepted and what the writer emitted, and every
      operation keeps it.
    - The connection ([SystemInv], [SystemSpec]): in every execution nothing panics; the
      wire starts with SETTINGS and carries of each stream a prefix of what its writers
      were told was accepted, all of it when it carries FIN; free permits are the limits
      less what is held; a send queues all of its chunk or nothing; waiting sends cannot
      deadlock.  [Shutdown]: a closed connection comes to its end by its own tasks.
    - Delivery ([Fade], [Delivery], [DeliveryReader]): in every execution, the bytes read of a
      stream and those still queued are, in order, those of the frames the reader handled.
      [Fade] is the relation between two states of a stream that operations keep, [Events]
      has what an event can do to the wire, the reader and the history.
    - Two ends ([Pair], [Books], [BooksSpec], [Credit], [Registry], [Progress]): what one end
      reads of a stream is what the other end's writers wrote, and all of it when the end
      of the stream is reported.  The books say that the credit each end has is a function
      of the frames it handled, and the credit it gave one of the frames it wrote; so data
      of a known stream is never refused, and two ends that exchanged all frames and read all data
      have none queued: credit cannot run out for good.  [Registry]: a stream
      leaves the map only when both of its halves are over.  [Arrivals]: nothing
      was done with a stream before it is accepted.  [Echo]: what a client of the echo
      server gets back is what it sent.
    - The edge ([Config], [EndpointSpec]): every configuration offers [muxtls/1] only and
      verifies its peers as its constructor says; an endpoint hands out exactly the
      checked connections, each the start of an execution.  [Fuzz]: what the fuzz targets
      assert holds for every input.  [Conformance]: the codec agrees with every vector.
    - [ConnectionSpec] and [ErrorText] have the specifications of closing and of the reasons
      it sends; [Findings] has runs from a new connection in which the code departs from
      its protocol documents.

    [Hoare] has the total weakest preconditions these proofs are written in.

    ** Bounds and fuel

    The loop of [next_frame] has fuel two, of the data queue the length of the ready list,
    of [poll_read] two turns for each queued chunk and three; running out is a panic, and
    the theorems show that there is none.  The binary search of the chunk size has fuel
    33, one more than the bits of its range.  [wind_down], the schedule that ends a closed
    connection, has at most nine events.

    ** What is a parameter

    [Tokio] (semaphores), [HashIter] (the order in which a [HashMap] is iterated), [Buf]
    and [BufMut] (the buffers of [bytes]), [Rustls] (certificates, verifiers, PEM files) and
    [Net] (sockets, handshakes, the clock).  Each has a concrete instance, and the
    theorems that need its laws are applied to it.  What the transport makes of the
    written frames, and the order of the tasks, are arguments of [fuzz_connection_state].

    ** What is not modelled

    An operation runs as one atomic step, between two waits; the interleaving of single
    memory accesses is modelled for the receive window only, and an operation is not
    cancelled while it waits for a mutex.  Wakers are not modelled: an event that could
    happen is not shown to be scheduled.  A timer is an event that may happen at any
    time.  The length-delimited framing of the transport is that of [tokio_util].  The
    crate roots only re-export; the other example, the accept loops of the echo server, the
    benchmark and the integration tests are clients of the crates.

    ** Next

    - Two ends: no other frame is refused either, with the exceptions in [Findings].
    - [open_bi]: the OPEN frame, the stream and its window appear together or not at all,
      also when it is cancelled at a lock. *)

From stdpp Require Export base tactics numbers list gmap strings.
From Stdlib Require Export ZArith Lia.
From Stdlib Require Export Strings.Byte.

#[global] Open Scope Z_scope.

Declare Scope mux_scope.
#[global] Open Scope mux_scope.

(** * Machine integers

    A [u8], [u32], [u64] or [usize] is a [Z] in its range.  [usize] is the
    64-bit one.  The operations below are the ones of the Rust standard library
    that the crates call, with their behaviour at the edge of the range. *)

Definition u8_max : Z := 2 ^ 8 - 1.
Definition u16_max : Z := 2 ^ 16 - 1.
Definition u32_max : Z := 2 ^ 32 - 1.
Definition u64_max : Z := 2 ^ 64 - 1.
Definition usize_max : Z := u64_max.

(** [as u8], [as u16], [as u32], [as u64]: truncation. *)
Definition as_u8 (z : Z) : Z := z mod 2 ^ 8.
Definition as_u16 (z : Z) : Z := z mod 2 ^ 16.
Definition as_u32 (z : Z) : Z := z mod 2 ^ 32.
Definition as_u64 (z : Z) : Z := z mod 2 ^ 64.

(** [<<] on [u64] drops the bits shifted out. *)
Definition u64_shl (z n : Z) : Z := as_u64 (Z.shiftl z n).

Definition checked_add (a b : Z) : option Z :=
  if a + b <=? u64_max then Some (a + b) else None.
Definition checked_mul (a b : Z) : option Z :=
  if a * b <=? u64_max then Some (a * b) else None.
Definition saturating_add (a b : Z) : Z := Z.min (a + b) u64_max.
Definition saturating_sub (a b : Z) : Z := Z.max (a - b) 0.
(** [AtomicU64::fetch_add] wraps around. *)
Definition wrapping_add (a b : Z) : Z := as_u64 (a + b).
Definition div_ceil (a b : Z) : Z := (a + b - 1) / b.

(** * Results

    A call returns [Ok], returns [Err] or panics ([expect] on [None], a slice
    or [Buf] read past its end, an integer underflow). *)

Inductive Result (E A : Type) : Type :=
| Ok (a : A)
| Err (e : E)
| Panic.
Arguments Ok {E A} a.
Arguments Err {E A} e.
Arguments Panic {E A}.

#[global] Instance Result_ret E : MRet (Result E) := fun A a => Ok a.
#[global] Instance Result_bind E : MBind (Result E) := fun A B f r =>
  match r with Ok a => f a | Err e => Err e | Panic => Panic end.

(** [Result::map_err] *)
Definition map_err {E E' A} (f : E -> E') (r : Result E A) : Result E' A :=
  match r with Ok a => Ok a | Err e => Err (f e) | Panic => Panic end.

(** [Result::is_ok] *)
Definition is_ok {E A} (r : Result E A) : bool :=
  match r with Ok _ => true | _ => false end.

(** [Result::ok] *)
Definition ok {E A} (r : Result E A) : option A :=
  match r with Ok a => Some a | _ => None end.

(** [Option::ok_or] *)
Definition ok_or {E A} (e : E) (o : option A) : Result E A :=
  match o with Some a => Ok a | None => Err e end.

(** [Option::expect] and [Result::expect] *)
Definition expect {E A} (o : option A) : Result E A :=
  match o with Some a => Ok a | None => Panic end.

(** * Stateful fallible code

    [M S E A] threads a mutable state of type [S]; what was written before an
    early return stays written. *)

Definition M (S E A : Type) : Type := S -> Result E A * S.

#[global] Instance M_ret S E : MRet (M S E) := fun A a s => (Ok a, s).
#[global] Instance M_bind S E : MBind (M S E) := fun A B f m s =>
  match m s with
  | (Ok a, s') => f a s'
  | (Err e, s') => (Err e, s')
  | (Panic, s') => (Panic, s')
  end.

Definition fail {S E A} (e : E) : M S E A := fun s => (Err e, s).
Definition panic {S E A} : M S E A := fun s => (Panic, s).
Definition lift {S E A} (r : Result E A) : M S E A := fun s => (r, s).
Definition gets {S E A} (f : S -> A) : M S E A := fun s => (Ok (f s), s).
Definition modify {S E} (f : S -> S) : M S E unit := fun s => (Ok tt, f s).
(** [if b { return Err(e) }] *)
Definition bail_if {S E} (b : bool) (e : E) : M S E unit :=
  if b then fail e else mret tt.
Definition when {S E} (b : bool) (m : M S E unit) : M S E unit :=
  if b then m else mret tt.
(** The [?] operator on a call whose error converts with [From]. *)
Definition map_err_m {S E E' A} (f : E -> E') (m : M S E A) : M S E' A :=
  fun s => (map_err f (m s).1, (m s).2).
(** A state function of a part of the state that may panic ([None]). *)
Definition or_panic {S E A} (f : S -> option (A * S)) : M S E A := fun s =>
  match f s with Some (a, s') => (Ok a, s') | None => (Panic, s) end.

(** * Bytes *)

Abbreviation bytes := (list byte).

Definition b2z (b : byte) : Z := Z.of_N (Byte.to_N b).
Definition z2b (z : Z) : byte := default x00 (Byte.of_N (Z.to_N (as_u8 z))).
(** [len()] of a slice, a [Vec], a [VecDeque] or a [Bytes]. *)
Definition zlen {A} (l : list A) : Z := Z.of_nat (length l).

(** The [n] low bytes of [z], most significant first. *)
Fixpoint be_bytes (n : nat) (z : Z) : bytes :=
  match n with
  | O => []
  | S n' => z2b (Z.shiftr z (8 * Z.of_nat n')) :: be_bytes n' z
  end.

#[global] Instance byte_eq_dec : EqDecision byte := Byte.byte_eq_dec.

(** * Record update

    [x <| field := v |>] and [x <| field ::= f |>], for records with an instance of
    [Settable] that lists the fields. *)

Class Settable (R : Type) := settable : R -> R.
Class Setter {R T : Type} (proj : R -> T) := set : (T -> T) -> R -> R.
Arguments set {R T} proj {_} f x /.

Ltac build_setter :=
  lazymatch goal with
  | |- @Setter ?R ?T ?proj =>
      exact (fun (f : T -> T) (x : R) =>
        ltac:(let e := eval hnf in (@settable R _ x) in
              let p := eval pattern (proj x) in e in
              lazymatch p with ?g _ =>
                let r := eval cbv beta in (g (f (proj x))) in exact r
              end))
  end.
#[export] Hint Extern 0 (Setter _) => build_setter : typeclass_instances.

Notation "x <| proj ::= f |>" := (set proj f x)
  (at level 1, left associativity) : mux_scope.
Notation "x <| proj := v |>" := (set proj (fun _ => v) x)
  (at level 1, left associativity) : mux_scope.

(** * Automation *)

Create HintDb mux.
Create Rewrite HintDb zlen.
Create Rewrite HintDb written.

(** Unfold the monad and reduce the result. *)
Ltac unfold_m :=
  unfold mbind, mret, M_bind, M_ret, Result_bind, Result_ret, fail, panic, lift,
    gets, modify, bail_if, when, map_err_m, or_panic in *; cbn [fst snd] in *.

(** [lia] with quotients and remainders by constants. *)
Ltac dlia := Z.to_euclidean_division_equations; lia.

(** Turn boolean comparisons in hypotheses into propositions. *)
Ltac bool_to_prop :=
  repeat match goal with
  | H : (_ && _)%bool = true |- _ => apply andb_true_iff in H as [? ?]
  | H : (_ || _)%bool = false |- _ => apply orb_false_iff in H as [? ?]
  | H : negb _ = true |- _ => apply negb_true_iff in H
  | H : negb _ = false |- _ => apply negb_false_iff in H
  | H : (_ <=? _) = true |- _ => apply Z.leb_le in H
  | H : (_ <=? _) = false |- _ => apply Z.leb_gt in H
  | H : (_ <? _) = true |- _ => apply Z.ltb_lt in H
  | H : (_ <? _) = false |- _ => apply Z.ltb_ge in H
  | H : (_ =? _) = true |- _ => apply Z.eqb_eq in H
  | H : (_ =? _) = false |- _ => apply Z.eqb_neq in H
  end.

(** Open existentials and conjunctions of the context. *)
Ltac deex :=
  repeat match goal with
  | H : exists _, _ |- _ => destruct H
  | H : _ /\ _ |- _ => destruct H
  end.

(** Split on the first condition or match of the goal. *)
Ltac split_if :=
  match goal with
  | |- context [if ?b then _ else _] => let E := fresh "E" in destruct b eqn:E
  | H : context [if ?b then _ else _] |- _ => let E := fresh "E" in destruct b eqn:E
  end; bool_to_prop.

(** * Running the monad *)

Lemma bind_ok {S E A C} (m : M S E A) (k : A -> M S E C) s a s' :
  m s = (Ok a, s') -> (m ≫= k) s = k a s'.
Proof. intros H. unfold mbind, M_bind. by rewrite H. Qed.

Lemma bind_err {S E A C} (m : M S E A) (k : A -> M S E C) s e s' :
  m s = (Err e, s') -> (m ≫= k) s = (Err e, s').
Proof. intros H. unfold mbind, M_bind. by rewrite H. Qed.

Lemma bind_inv {S E A C} (m : M S E A) (k : A -> M S E C) s c s'' :
  (m ≫= k) s = (Ok c, s'') -> exists a s', m s = (Ok a, s') /\ k a s' = (Ok c, s'').
Proof. unfold mbind, M_bind. destruct (m s) as [[] ?]; naive_solver. Qed.

(** * Lemmas on integers and bytes *)

Lemma lor_add (k x y : Z) :
  0 <= k -> x mod 2 ^ k = 0 -> 0 <= y < 2 ^ k -> Z.lor x y = x + y.
Proof.
  intros Hk Hx Hy. rewrite <- Z.lxor_lor, <- Z.add_nocarry_lxor; try done.
  all: apply Z.bits_inj'; intros i Hi; rewrite Z.land_spec, Z.bits_0.
  all: destruct (decide (i < k)).
  1, 3: rewrite <- (Z.mod_pow2_bits_low x k i) by lia; by rewrite Hx, Z.bits_0.
  all: rewrite <- (Z.mod_small y (2 ^ k)) by done;
    rewrite (Z.mod_pow2_bits_high y k i) by lia; apply andb_false_r.
Qed.

Lemma checked_add_Some a b c : checked_add a b = Some c <-> c = a + b /\ a + b <= u64_max.
Proof. unfold checked_add. destruct (Z.leb_spec (a + b) u64_max); naive_solver lia. Qed.

Lemma b2z_range b : 0 <= b2z b < 256.
Proof. unfold b2z. pose proof (Byte.to_N_bounded b). lia. Qed.

Lemma b2z_z2b z : b2z (z2b z) = as_u8 z.
Proof.
  unfold b2z, z2b, as_u8. pose proof (Z.mod_pos_bound z (2 ^ 8) ltac:(lia)) as H.
  destruct (Byte.of_N (Z.to_N (z mod 2 ^ 8))) as [b|] eqn:E; simpl.
  - apply Byte.to_of_N in E. rewrite E. lia.
  - apply Byte.of_N_None_iff in E. lia.
Qed.

Lemma z2b_b2z b : z2b (b2z b) = b.
Proof.
  unfold z2b, as_u8. rewrite Z.mod_small by (pose proof (b2z_range b); lia).
  unfold b2z. by rewrite N2Z.id, Byte.of_to_N.
Qed.

#[global] Instance b2z_inj : Inj (=) (=) b2z.
Proof. intros x y H. by rewrite <- (z2b_b2z x), H, z2b_b2z. Qed.

Lemma length_be_bytes n z : length (be_bytes n z) = n.
Proof. induction n; simpl; congruence. Qed.

Lemma zlen_nonneg {A} (l : list A) : 0 <= zlen l.
Proof. unfold zlen. lia. Qed.

Lemma zlen_app {A} (l k : list A) : zlen (l ++ k) = zlen l + zlen k.
Proof. unfold zlen. rewrite length_app. lia. Qed.

Lemma zlen_nil {A} : zlen (@nil A) = 0.
Proof. done. Qed.

Lemma zlen_cons {A} (x : A) l : zlen (x :: l) = 1 + zlen l.
Proof. unfold zlen. simpl. lia. Qed.

Lemma zlen_be_bytes n z : zlen (be_bytes n z) = Z.of_nat n.
Proof. unfold zlen. by rewrite length_be_bytes. Qed.

Lemma zlen_0_nil {A} (l : list A) : zlen l = 0 -> l = [].
Proof. destruct l; [done|]. unfold zlen. simpl. lia. Qed.

#[export] Hint Rewrite @zlen_app @zlen_nil @zlen_cons zlen_be_bytes : zlen.
#[export] Hint Resolve zlen_nonneg b2z_range : mux.

(** * Updating one entry of a map *)

Section alter.
Context `{Countable K} {A : Type}.
Implicit Types m : gmap K A.

Lemma alter_alter_eq m k f g h :
  (forall a, m !! k = Some a -> g (f a) = h a) -> alter g k (alter f k m) = alter h k m.
Proof.
  intros Hm. apply map_eq. intros i. destruct (decide (k = i)) as [->|]; simplify_map_eq; [|done].
  destruct (m !! i) as [a|]; simpl; [|done]. f_equal. by apply Hm.
Qed.

Lemma alter_ext_eq m k f h :
  (forall a, m !! k = Some a -> f a = h a) -> alter f k m = alter h k m.
Proof.
  intros Hm. apply map_eq. intros i. destruct (decide (k = i)) as [->|]; simplify_map_eq; [|done].
  destruct (m !! i) as [a|]; simpl; [|done]. f_equal. by apply Hm.
Qed.

Lemma alter_is_Some m f k i : is_Some (m !! i) -> is_Some (alter f k m !! i).
Proof. intros [a Ha]. destruct (decide (k = i)) as [->|]; simplify_map_eq; eauto. Qed.

(** An update that [g] does not see. *)
Lemma fmap_alter_same {B} (g : A -> B) f m i : (forall a, g (f a) = g a) -> g <$> alter f i m = g <$> m.
Proof.
  intros Hg. apply map_eq. intros j. rewrite !lookup_fmap.
  destruct (decide (i = j)) as [<-|]; [rewrite lookup_alter_eq|by rewrite lookup_alter_ne].
  destruct (m !! i); simpl; [by rewrite Hg|done].
Qed.

End alter.

(** * Sums over lists and maps *)

Definition zsum {A} (f : A -> Z) (l : list A) : Z := foldr (fun a n => f a + n) 0 l.
Definition msum `{Countable K} {A} (f : A -> Z) (m : gmap K A) : Z := zsum (f ∘ snd) (map_to_list m).

#[global] Instance zsum_perm {A} (f : A -> Z) : Proper ((≡ₚ) ==> eq) (zsum f).
Proof. induction 1; simpl; lia. Qed.

Lemma zsum_app {A} (f : A -> Z) l k : zsum f (l ++ k) = zsum f l + zsum f k.
Proof. induction l; simpl; lia. Qed.

Lemma zsum_nonneg {A} (f : A -> Z) l : (forall a, a ∈ l -> 0 <= f a) -> 0 <= zsum f l.
Proof.
  induction l as [|a l IH]; intros H; simpl; [lia|].
  assert (0 <= f a) by (apply H; set_solver). assert (0 <= zsum f l); [|lia].
  apply IH. intros b Hb. apply H. set_solver.
Qed.

Section msum.
Context `{Countable K} {A : Type} (f : A -> Z).
Implicit Types m : gmap K A.

Lemma msum_empty : msum f (∅ : gmap K A) = 0.
Proof. unfold msum. by rewrite map_to_list_empty. Qed.

Lemma msum_insert m k a : m !! k = None -> msum f (<[k := a]> m) = f a + msum f m.
Proof. intros Hk. unfold msum. by rewrite map_to_list_insert. Qed.

Lemma msum_ext (f' : A -> Z) m m' : f <$> m = f' <$> m' -> msum f m = msum f' m'.
Proof.
  assert (Hz : forall (g : A -> Z) (h : gmap K A), msum g h = zsum snd (map_to_list (g <$> h))).
  { intros g h. unfold msum. rewrite map_to_list_fmap. induction (map_to_list h) as [|[] l IH]; [done|]. simpl.
    f_equal. apply IH. }
  intros Hm. by rewrite !Hz, Hm.
Qed.

Lemma msum_delete m k a : m !! k = Some a -> msum f (delete k m) = msum f m - f a.
Proof.
  intros Hk. rewrite <- (insert_delete_id m k a) at 2 by done.
  rewrite msum_insert by apply lookup_delete_eq. lia.
Qed.

Lemma msum_alter m k a g : m !! k = Some a -> msum f (alter g k m) = msum f m - f a + f (g a).
Proof.
  intros Hk. rewrite <- (insert_delete_id m k a) at 1 by done.
  rewrite alter_insert_eq, !msum_insert, (msum_delete m k a) by (done || apply lookup_delete_eq). lia.
Qed.

Lemma msum_nonneg m : (forall k a, m !! k = Some a -> 0 <= f a) -> 0 <= msum f m.
Proof.
  intros Hm. apply zsum_nonneg. intros [k a] Hin%elem_of_map_to_list. simpl. by eapply Hm.
Qed.

Lemma msum_zero m : (forall k a, m !! k = Some a -> f a = 0) -> msum f m = 0.
Proof.
  induction m as [|k a m Hk IH] using map_ind; [intros _; apply msum_empty|]. intros Hm. rewrite msum_insert by done.
  rewrite (Hm k a) by apply lookup_insert_eq. apply IH. intros i b Hi. apply (Hm i). rewrite lookup_insert_ne; [done|congruence].
Qed.

Lemma msum_lookup_le m k a : (forall k a, m !! k = Some a -> 0 <= f a) -> m !! k = Some a ->
  f a <= msum f m.
Proof.
  intros Hm Hk. rewrite <- (insert_delete_id m k a) by done.
  rewrite msum_insert by apply lookup_delete_eq.
  assert (0 <= msum f (delete k m)); [|lia]. apply msum_nonneg. intros i b Hi.
  apply lookup_delete_Some in Hi as [_ Hi]. by eapply Hm.
Qed.

End msum.

Lemma list_delete_insert {A} (l : list A) i x : delete i (<[i := x]> l) = delete i l.
Proof. revert i. induction l as [|y l IH]; intros [|i]; simpl; [done..|]. by rewrite IH. Qed.

(** A [Result] block succeeds exactly when its steps do. *)
Lemma bind_ok_iff {E A C} (r : Result E A) (k : A -> Result E C) c :
  (r ≫= k) = Ok c <-> exists a, r = Ok a /\ k a = Ok c.
Proof. destruct r; unfold mbind, Result_bind; naive_solver. Qed.

Lemma map_err_ok {E F A} (f : E -> F) (r : Result E A) a : map_err f r = Ok a <-> r = Ok a.
Proof. destruct r; simpl; split; congruence. Qed.
