(* ===== verification/Hoare.v ===== *)
(** Total weakest preconditions for the state-and-error monad of [Prelude]: the
    program does not panic, and its result satisfies one of two postconditions. *)

From S2P Require Import Prelude.

Definition wp {S E A} (m : M S E A) (s : S) (Q : A -> S -> Prop) (R : E -> S -> Prop) : Prop :=
  match m s with
  | (Ok a, s') => Q a s'
  | (Err e, s') => R e s'
  | (Panic, _) => False
  end.

Section wp.
Context {S E : Type}.
Implicit Types (s : S).

Lemma wp_ret {A} (a : A) s (Q : A -> S -> Prop) (R : E -> S -> Prop) :
  Q a s -> wp (mret a) s Q R.
Proof. done. Qed.

Lemma wp_bind {A B} (m : M S E A) (k : A -> M S E B) s Q R :
  wp m s (fun a s' => wp (k a) s' Q R) R -> wp (m ≫= k) s Q R.
Proof. unfold wp, mbind, M_bind. by destruct (m s) as [[] ?]. Qed.

Lemma wp_gets {A} (f : S -> A) s (Q : A -> S -> Prop) (R : E -> S -> Prop) :
  Q (f s) s -> wp (gets f) s Q R.
Proof. done. Qed.

Lemma wp_modify (f : S -> S) s (Q : unit -> S -> Prop) (R : E -> S -> Prop) :
  Q tt (f s) -> wp (modify f) s Q R.
Proof. done. Qed.

Lemma wp_fail {A} (e : E) s (Q : A -> S -> Prop) (R : E -> S -> Prop) :
  R e s -> wp (fail e) s Q R.
Proof. done. Qed.

Lemma wp_lift_ok {A} (a : A) s (Q : A -> S -> Prop) (R : E -> S -> Prop) :
  Q a s -> wp (lift (Ok a)) s Q R.
Proof. done. Qed.

Lemma wp_lift_err {A} (e : E) s (Q : A -> S -> Prop) (R : E -> S -> Prop) :
  R e s -> wp (lift (Err e)) s Q R.
Proof. done. Qed.

Lemma wp_when (b : bool) (m : M S E unit) s Q R :
  (b = true -> wp m s Q R) -> (b = false -> Q tt s) -> wp (when b m) s Q R.
Proof. destruct b; intros H1 H2; [by apply H1|by apply H2]. Qed.

Lemma wp_bail_if (b : bool) (e : E) s (Q : unit -> S -> Prop) R :
  (b = true -> R e s) -> (b = false -> Q tt s) -> wp (bail_if b e) s Q R.
Proof. destruct b; intros H1 H2; [by apply H1|by apply H2]. Qed.

(** The rule of consequence. *)
Lemma wp_mono {A} (m : M S E A) s Q R (Q' : A -> S -> Prop) (R' : E -> S -> Prop) :
  wp m s Q R -> (forall a s', Q a s' -> Q' a s') -> (forall e s', R e s' -> R' e s') ->
  wp m s Q' R'.
Proof. unfold wp. destruct (m s) as [[] ?]; auto. Qed.

Lemma wp_conj {A} (m : M S E A) s Q R (Q' : A -> S -> Prop) (R' : E -> S -> Prop) :
  wp m s Q R -> wp m s Q' R' ->
  wp m s (fun a s' => Q a s' /\ Q' a s') (fun e s' => R e s' /\ R' e s').
Proof. unfold wp. destruct (m s) as [[] ?]; auto. Qed.

(** Reading a specification off a run, and a run off a specification. *)
Lemma wp_run {A} (m : M S E A) s Q R r s' :
  m s = (r, s') -> wp m s Q R ->
  match r with Ok a => Q a s' | Err e => R e s' | Panic => False end.
Proof. unfold wp. by intros ->. Qed.

Lemma wp_with_run {A} (m : M S E A) s Q (R : E -> S -> Prop) :
  wp m s Q R -> wp m s (fun a s' => m s = (Ok a, s') /\ Q a s') R.
Proof. unfold wp. by destruct (m s) as [[] ?]. Qed.

Lemma wp_ok {A} (m : M S E A) s Q :
  wp m s Q (fun _ _ => False) -> exists a s', m s = (Ok a, s') /\ Q a s'.
Proof. unfold wp. destruct (m s) as [[] ?]; naive_solver. Qed.

Lemma wp_exact {A} (m : M S E A) s a s' Q (R : E -> S -> Prop) :
  m s = (Ok a, s') -> Q a s' -> wp m s Q R.
Proof. unfold wp. by intros ->. Qed.

(** Operations that keep an invariant, whatever they return. *)
Definition keeps {A} (I : S -> Prop) (m : M S E A) : Prop :=
  forall s, I s -> wp m s (fun _ s' => I s') (fun _ s' => I s').

Lemma keeps_bind {A B} I (m : M S E A) (k : A -> M S E B) :
  keeps I m -> (forall a, keeps I (k a)) -> keeps I (m ≫= k).
Proof. intros Hm Hk s Hs. apply wp_bind. eapply wp_mono; [by apply Hm|..]; simpl; auto. Qed.

Lemma keeps_ret {A} I (a : A) : keeps I (mret a : M S E A).
Proof. by intros s Hs. Qed.
Lemma keeps_gets {A} I (f : S -> A) : keeps I (gets f : M S E A).
Proof. by intros s Hs. Qed.
Lemma keeps_fail {A} I (e : E) : keeps I (fail e : M S E A).
Proof. by intros s Hs. Qed.
Lemma keeps_when I (b : bool) (m : M S E unit) : keeps I m -> keeps I (when b m).
Proof. destruct b; [done|]. intros _. apply keeps_ret. Qed.
Lemma keeps_modify I (f : S -> S) : (forall s, I s -> I (f s)) -> keeps I (modify f : M S E unit).
Proof. intros H s Hs. by apply H. Qed.

(** A relation between the states before and after every run, panics included. *)
Definition respects {A} (R : S -> S -> Prop) (m : M S E A) : Prop :=
  forall s r s', m s = (r, s') -> R s s'.

Section respects.
Context (R : S -> S -> Prop) `{!PreOrder R}.

Lemma respects_bind {A B} (m : M S E A) (k : A -> M S E B) :
  respects R m -> (forall a, respects R (k a)) -> respects R (m ≫= k).
Proof.
  intros Hm Hk s r s'. unfold mbind, M_bind. destruct (m s) as [[a|e|] s1] eqn:E1; intros Hrun.
  - etransitivity; [by eapply Hm|by eapply Hk].
  - simplify_eq. by eapply Hm.
  - simplify_eq. by eapply Hm.
Qed.
Lemma respects_ret {A} (a : A) : respects R (mret a : M S E A).
Proof. intros s r s' [= _ <-]. done. Qed.
Lemma respects_gets {A} (f : S -> A) : respects R (gets f : M S E A).
Proof. intros s r s' [= _ <-]. done. Qed.
Lemma respects_fail {A} (e : E) : respects R (fail e : M S E A).
Proof. intros s r s' [= _ <-]. done. Qed.
Lemma respects_lift {A} (x : Result E A) : respects R (lift x : M S E A).
Proof. intros s r s' [= _ <-]. done. Qed.
Lemma respects_when (b : bool) (m : M S E unit) : respects R m -> respects R (when b m).
Proof. destruct b; [done|]. intros _. apply respects_ret. Qed.
Lemma respects_bail_if (b : bool) (e : E) : respects R (bail_if b e : M S E unit).
Proof. destruct b; [apply respects_fail|apply respects_ret]. Qed.
Lemma respects_modify (f : S -> S) : (forall s, R s (f s)) -> respects R (modify f : M S E unit).
Proof. intros H s r s' [= _ <-]. apply H. Qed.

End respects.

Lemma wp_respects {A} (R : S -> S -> Prop) (m : M S E A) s Q (T : E -> S -> Prop) : respects R m -> wp m s Q T ->
  wp m s (fun a s' => R s s' /\ Q a s') (fun e s' => R s s' /\ T e s').
Proof. intros HR. specialize (HR s). unfold wp. destruct (m s) as [[] s']; naive_solver. Qed.

(** What every error of an operation satisfies. *)
Definition errs {A} (P : E -> Prop) (m : M S E A) : Prop := forall s e s', m s = (Err e, s') -> P e.

Lemma errs_bind {A B} P (m : M S E A) (k : A -> M S E B) : errs P m -> (forall a, errs P (k a)) -> errs P (m ≫= k).
Proof.
  intros Hm Hk s e s'. unfold mbind, M_bind. destruct (m s) as [[a|e'|] s1] eqn:E1; intros Hrun; [by eapply Hk|by simplify_eq; eapply Hm|done].
Qed.
Lemma errs_ret {A} P (a : A) : errs P (mret a : M S E A).
Proof. done. Qed.
Lemma errs_gets {A} P (f : S -> A) : errs P (gets f : M S E A).
Proof. done. Qed.
Lemma errs_modify P (f : S -> S) : errs P (modify f : M S E unit).
Proof. done. Qed.
Lemma errs_fail {A} (P : E -> Prop) e : P e -> errs P (fail e : M S E A).
Proof. intros He s e' s' [= <- _]. done. Qed.
Lemma errs_lift {A} (P : E -> Prop) (r : Result E A) : (forall e, r = Err e -> P e) -> errs P (lift r : M S E A).
Proof. intros He s e' s'. unfold lift. intros [= -> _]. by apply He. Qed.
Lemma errs_when P (b : bool) (m : M S E unit) : errs P m -> errs P (when b m).
Proof. by destruct b. Qed.
Lemma errs_bail_if (P : E -> Prop) (b : bool) e : P e -> errs P (bail_if b e : M S E unit).
Proof. destruct b; [apply errs_fail|done]. Qed.

Lemma wp_errs {A} (P : E -> Prop) (m : M S E A) s Q (R : E -> S -> Prop) : errs P m -> wp m s Q R ->
  wp m s Q (fun e s' => P e /\ R e s').
Proof. intros He. specialize (He s). unfold wp. destruct (m s) as [[] s']; naive_solver. Qed.

End wp.

#[export] Hint Resolve keeps_bind keeps_ret keeps_gets keeps_fail keeps_when keeps_modify : mux.

(** One step of symbolic execution. *)
Ltac wp_step :=
  lazymatch goal with
  | |- wp (_ ≫= _) _ _ _ => apply wp_bind
  | |- wp (mret _) _ _ _ => apply wp_ret
  | |- wp (gets _) _ _ _ => apply wp_gets
  | |- wp (modify _) _ _ _ => apply wp_modify
  | |- wp (fail _) _ _ _ => apply wp_fail
  | |- wp (lift (Ok _)) _ _ _ => apply wp_lift_ok
  | |- wp (lift (Err _)) _ _ _ => apply wp_lift_err
  | |- wp (when _ _) _ _ _ => let E := fresh "E" in apply wp_when; intros E; bool_to_prop
  | |- wp (bail_if _ _) _ _ _ => let E := fresh "E" in apply wp_bail_if; intros E; bool_to_prop
  | |- wp (if true then ?m else _) ?s ?Q ?R => change (wp m s Q R)
  | |- wp (if false then _ else ?m) ?s ?Q ?R => change (wp m s Q R)
  | |- wp (if ?b then _ else _) _ _ _ => let E := fresh "E" in destruct b eqn:E; bool_to_prop
  end; cbv beta.
Ltac wp_steps := repeat wp_step.
