(* ===== verification/Buf.v ===== *)
(** The byte-buffer traits [Buf] and [BufMut] of the [bytes] crate, which the
    codec of [muxtls-proto] is generic over.  The crate is not part of the
    repository: its operations are the fields of a class, and the behaviour its
    documentation states is a class of laws over the bytes a buffer stands for.
    The codec's theorems hold for every lawful buffer; contiguous byte lists
    are one. *)

From S2P Require Import Prelude.

(** A readable cursor.  [None] is a panic: reading past the end. *)
Class Buf (B : Type) := {
  view : B -> bytes;
  remaining : B -> Z;
  get_u8 : B -> option (byte * B);
  copy_to_bytes : Z -> B -> option (bytes * B)
}.

(** [Buf::has_remaining] *)
Definition has_remaining {B} `{Buf B} (b : B) : bool := 0 <? remaining b.

Class BufLaws (B : Type) `{Buf B} : Prop := {
  remaining_view : forall b, remaining b = zlen (view b);
  get_u8_nil : forall b, view b = [] -> get_u8 b = None;
  get_u8_cons : forall b x r, view b = x :: r ->
    exists b', get_u8 b = Some (x, b') /\ view b' = r;
  copy_to_bytes_view : forall n b, 0 <= n <= zlen (view b) ->
    exists b', copy_to_bytes n b = Some (take (Z.to_nat n) (view b), b') /\
               view b' = drop (Z.to_nat n) (view b);
  copy_to_bytes_panics : forall n b, zlen (view b) < n -> copy_to_bytes n b = None
}.

(** A growable output buffer ([BytesMut] is the one the crate writes to). *)
Class BufMut (O : Type) := {
  written : O -> bytes;
  put_u8 : Z -> O -> O;
  put_u16 : Z -> O -> O;
  put_u32 : Z -> O -> O;
  put_u64 : Z -> O -> O;
  put_slice : bytes -> O -> O
}.

Class BufMutLaws (O : Type) `{BufMut O} : Prop := {
  put_u8_written : forall z o, written (put_u8 z o) = written o ++ be_bytes 1 z;
  put_u16_written : forall z o, written (put_u16 z o) = written o ++ be_bytes 2 z;
  put_u32_written : forall z o, written (put_u32 z o) = written o ++ be_bytes 4 z;
  put_u64_written : forall z o, written (put_u64 z o) = written o ++ be_bytes 8 z;
  put_slice_written : forall l o, written (put_slice l o) = written o ++ l
}.

#[export] Hint Rewrite @put_u8_written @put_u16_written @put_u32_written
  @put_u64_written @put_slice_written using typeclasses eauto : written.

(** Contiguous bytes. *)
#[global] Instance list_buf : Buf bytes := {
  view b := b;
  remaining b := zlen b;
  get_u8 b := match b with [] => None | x :: r => Some (x, r) end;
  copy_to_bytes n b :=
    if n <=? zlen b then Some (take (Z.to_nat n) b, drop (Z.to_nat n) b) else None
}.

#[global] Instance list_buf_laws : BufLaws bytes.
Proof.
  split; simpl; [done|by intros b ->|intros b x r ->; eauto|..].
  - intros n b Hn. rewrite (proj2 (Z.leb_le _ _)) by lia. eauto.
  - intros n b Hn. by rewrite (proj2 (Z.leb_gt _ _)) by lia.
Qed.

#[global] Instance list_buf_mut : BufMut bytes := {
  written o := o;
  put_u8 z o := o ++ be_bytes 1 z;
  put_u16 z o := o ++ be_bytes 2 z;
  put_u32 z o := o ++ be_bytes 4 z;
  put_u64 z o := o ++ be_bytes 8 z;
  put_slice l o := o ++ l
}.

#[global] Instance list_buf_mut_laws : BufMutLaws bytes.
Proof. by split. Qed.

(** * Reading through any buffer is reading through its bytes

    [m] on a buffer [B] and [m'] on a byte list return the same result and
    leave the same bytes unread.  The relation is compositional, so a decoder
    written once over [Buf] is related to its own instance at byte lists, and
    the theorems are proved there. *)

Section reads.
Context {B : Type} `{BufLaws B}.

Definition reads_same {E A} (m : M B E A) (m' : M bytes E A) : Prop :=
  forall b, (m b).1 = (m' (view b)).1 /\ view (m b).2 = (m' (view b)).2.

Lemma reads_ret {E A} (a : A) : reads_same (E:=E) (mret a) (mret a).
Proof. by intros b. Qed.

Lemma reads_fail {E A} (e : E) : reads_same (A:=A) (fail e) (fail e).
Proof. by intros b. Qed.

Lemma reads_lift {E A} (r : Result E A) : reads_same (lift r) (lift r).
Proof. by intros b. Qed.

Lemma reads_remaining {E} : reads_same (E:=E) (gets remaining) (gets remaining).
Proof. intros b. unfold gets; simpl. by rewrite remaining_view. Qed.

Lemma reads_has_remaining {E} :
  reads_same (E:=E) (gets has_remaining) (gets has_remaining).
Proof. intros b. unfold gets, has_remaining; simpl. by rewrite remaining_view. Qed.

Lemma reads_get_u8 {E} : reads_same (E:=E) (or_panic get_u8) (or_panic get_u8).
Proof.
  intros b. unfold or_panic; simpl. destruct (view b) as [|x r] eqn:E1.
  - by rewrite get_u8_nil.
  - destruct (get_u8_cons b x r E1) as (b' & -> & <-). done.
Qed.

Lemma reads_copy {E} n : 0 <= n ->
  reads_same (E:=E) (or_panic (copy_to_bytes n)) (or_panic (copy_to_bytes n)).
Proof.
  intros Hn b. unfold or_panic; simpl. destruct (Z.leb_spec n (zlen (view b))).
  - by destruct (copy_to_bytes_view n b) as (b' & -> & <-).
  - by rewrite copy_to_bytes_panics.
Qed.

Lemma reads_bind {E A C} (m : M B E A) m' (k : A -> M B E C) k' :
  reads_same m m' -> (forall a, reads_same (k a) (k' a)) ->
  reads_same (m ≫= k) (m' ≫= k').
Proof.
  intros Hm Hk b. unfold mbind, M_bind. destruct (Hm b) as [H1 H2].
  destruct (m b) as [r b1], (m' (view b)) as [r' l1]; simpl in *; subst.
  destruct r'; [apply Hk|done|done].
Qed.

Lemma reads_map_err {E E' A} (f : E -> E') (m : M B E A) m' :
  reads_same m m' -> reads_same (map_err_m f m) (map_err_m f m').
Proof. intros Hm b. unfold map_err_m; simpl. destruct (Hm b) as [-> ?]. done. Qed.

Lemma reads_bail_if {E} b (e : E) : reads_same (bail_if b e) (bail_if b e).
Proof. destruct b; by intros ?. Qed.
End reads.

#[export] Hint Resolve @reads_ret @reads_fail @reads_lift @reads_remaining
  @reads_has_remaining @reads_get_u8 @reads_copy @reads_map_err @reads_bail_if : mux.
