(* ===== verification/Varint.v ===== *)
(** [muxtls-proto/src/varint.rs]: QUIC-style variable-length integers. *)

From S2P Require Import Prelude Buf.

(** [struct VarInt(u64)].  The field is private; [VarInt.wf] is the invariant its
    constructors establish. *)
Record VarInt := mkVarInt { inner : Z }.

Inductive VarIntError :=
| ValueTooLarge (v : Z)
| VarIntUnexpectedEof.

#[global] Instance VarInt_eq_dec : EqDecision VarInt.
Proof. solve_decision. Defined.
#[global] Instance VarIntError_eq_dec : EqDecision VarIntError.
Proof. solve_decision. Defined.

Module VarInt.

Definition MAX : Z := Z.shiftl 1 62 - 1.

Definition from_u64 (v : Z) : Result VarIntError VarInt :=
  if MAX <? v then Err (ValueTooLarge v) else Ok (mkVarInt v).

Definition into_inner (v : VarInt) : Z := inner v.

Definition encoded_len (v : VarInt) : Z :=
  if inner v <=? 0x3f then 1
  else if inner v <=? 0x3fff then 2
  else if inner v <=? 0x3fffffff then 4
  else 8.

Definition encode {O} `{BufMut O} (self : VarInt) (out : O) : O :=
  let v := inner self in
  if v <=? 0x3f then put_u8 (as_u8 v) out
  else if v <=? 0x3fff then put_u16 (Z.lor 0x4000 (as_u16 v)) out
  else if v <=? 0x3fffffff then put_u32 (Z.lor 0x80000000 (as_u32 v)) out
  else put_u64 (Z.lor 0xc000000000000000 v) out.

(** [src.get_u8() as u64] *)
Definition read_u8 {B E} `{Buf B} : M B E Z :=
  b ← or_panic get_u8; mret (b2z b).

(** [if src.remaining() < n { return Err(UnexpectedEof) }] *)
Definition need {B} `{Buf B} (n : Z) : M B VarIntError unit :=
  rem ← gets remaining; bail_if (rem <? n) VarIntUnexpectedEof.

Definition decode {B} `{Buf B} : M B VarIntError VarInt :=
  some ← gets has_remaining;
  _ ← bail_if (negb some) VarIntUnexpectedEof;
  first ← read_u8;
  let tag := Z.shiftr first 6 in
  let low := Z.land first 0x3f in
  value ←
    (if tag =? 0 then mret low
     else if tag =? 1 then
       _ ← need 1;
       b0 ← read_u8;
       mret (Z.lor (u64_shl low 8) b0)
     else if tag =? 2 then
       _ ← need 3;
       b2 ← read_u8; b1 ← read_u8; b0 ← read_u8;
       mret (Z.lor (Z.lor (Z.lor (u64_shl low 24) (u64_shl b2 16)) (u64_shl b1 8)) b0)
     else
       _ ← need 7;
       b6 ← read_u8; b5 ← read_u8; b4 ← read_u8; b3 ← read_u8;
       b2 ← read_u8; b1 ← read_u8; b0 ← read_u8;
       mret (Z.lor (Z.lor (Z.lor (Z.lor (Z.lor (Z.lor (Z.lor
               (u64_shl low 56) (u64_shl b6 48)) (u64_shl b5 40)) (u64_shl b4 32))
               (u64_shl b3 24)) (u64_shl b2 16)) (u64_shl b1 8)) b0));
  lift (from_u64 value).

(** The values a [VarInt] can hold. *)
Definition wf (v : VarInt) : Prop := 0 <= inner v <= MAX.

(** The canonical encoding as bytes. *)
Definition enc (v : VarInt) : bytes := encode v [].

(** The number of bytes after the first, by the two top bits of the first. *)
Definition tail_len (first : Z) : Z := 2 ^ (first / 64) - 1.

(** Big-endian accumulation. *)
Definition be_value (acc : Z) (l : bytes) : Z := foldl (fun a b => a * 256 + b2z b) acc l.

(** ** Facts *)

Lemma MAX_eq : MAX = 4611686018427387903.
Proof. reflexivity. Qed.

Lemma from_u64_ok v : 0 <= v <= MAX -> from_u64 v = Ok (mkVarInt v).
Proof. intros H. unfold from_u64. by rewrite (proj2 (Z.ltb_ge _ _)) by lia. Qed.

Lemma from_u64_Ok v w : from_u64 v = Ok w -> inner w = v /\ v <= MAX.
Proof.
  unfold from_u64. destruct (Z.ltb_spec MAX v); [done|]. intros [= <-]. simpl. lia.
Qed.

Lemma be_value_app acc l k : be_value acc (l ++ k) = be_value (be_value acc l) k.
Proof. unfold be_value. by rewrite foldl_app. Qed.

Lemma be_value_be_bytes n acc z :
  be_value acc (be_bytes n z) = acc * 256 ^ Z.of_nat n + z mod 256 ^ Z.of_nat n.
Proof.
  revert acc. induction n as [|n IH]; intros acc.
  { simpl. rewrite Z.mod_1_r. lia. }
  change (be_bytes (S n) z) with (z2b (Z.shiftr z (8 * Z.of_nat n)) :: be_bytes n z).
  change (be_value acc (?x :: ?l)) with (be_value (acc * 256 + b2z x) l).
  rewrite IH, b2z_z2b, Z.shiftr_div_pow2 by lia. unfold as_u8.
  rewrite Z.pow_mul_r by lia. change (2 ^ 8) with 256.
  rewrite Nat2Z.inj_succ, Z.pow_succ_r by lia.
  rewrite (Z.mul_comm 256 (256 ^ _)), (Z.rem_mul_r z (256 ^ _) 256) by lia. lia.
Qed.

Lemma be_value_bound acc l b :
  0 <= acc < b -> 0 <= be_value acc l < b * 256 ^ zlen l.
Proof.
  revert acc b. induction l as [|x l IH]; intros acc b Hb.
  { unfold zlen; simpl; lia. }
  change (be_value acc (x :: l)) with (be_value (acc * 256 + b2z x) l).
  rewrite zlen_cons, Z.pow_add_r by (pose proof (zlen_nonneg l); lia).
  pose proof (b2z_range x). specialize (IH (acc * 256 + b2z x) (b * 256)). lia.
Qed.

Lemma reads_read_u8 {B E} `{BufLaws B} : reads_same (E:=E) read_u8 read_u8.
Proof. apply reads_bind; auto with mux. Qed.

Lemma reads_need {B} `{BufLaws B} n : reads_same (need n) (need n).
Proof. apply reads_bind; auto with mux. Qed.

Lemma reads_decode {B} `{BufLaws B} : reads_same decode decode.
Proof.
  unfold decode.
  repeat first [ apply reads_bind; [|intros ?] | apply reads_read_u8 | apply reads_need
               | solve [auto with mux] | case_match ].
Qed.

(** ** The decoder on bytes *)

Lemma first_bits x : 0 <= x < 256 ->
  Z.shiftr x 6 = x / 64 /\ Z.land x 0x3f = x mod 64.
Proof.
  intros Hx. rewrite Z.shiftr_div_pow2 by lia.
  change 0x3f with (Z.ones 6). by rewrite Z.land_ones by lia.
Qed.

Lemma u64_shl_small x n : 0 <= n -> 0 <= x -> x * 2 ^ n < 2 ^ 64 -> u64_shl x n = x * 2 ^ n.
Proof.
  intros. unfold u64_shl, as_u64. rewrite Z.shiftl_mul_pow2 by lia. apply Z.mod_small. lia.
Qed.

(** Fold the shifts and ors of a big-endian read into arithmetic. *)
Ltac fold_be :=
  rewrite ?u64_shl_small by lia; change (2 ^ 8) with 256;
  repeat match goal with
  | |- context [Z.lor ?x (?y * 2 ^ ?k)] => rewrite (lor_add (k + 8) x (y * 2 ^ k)) by dlia
  | |- context [Z.lor ?x (?y * 256)] => rewrite (lor_add 16 x (y * 256)) by dlia
  | |- context [Z.lor ?x ?y] => rewrite (lor_add 8 x y) by dlia
  end.

(** One length class of the decoder: [n] more bytes, present or not. *)
Tactic Notation "tail_case" ident(r) constr(n) integer(m) :=
  change (2 ^ _ - 1) with n; unfold need, gets, bail_if, mbind, M_bind; simpl;
  destruct (Z.ltb_spec (zlen r) n); [reflexivity|];
  do m (destruct r as [|? r]; [unfold zlen in *; simpl in *; lia|]); simpl;
  repeat match goal with b : byte |- _ =>
    lazymatch goal with
    | H : 0 <= b2z b < 256 |- _ => fail
    | _ => pose proof (b2z_range b)
    end end;
  fold_be; unfold lift; rewrite from_u64_ok by (rewrite MAX_eq; lia);
  unfold be_value; simpl; do 3 f_equal; lia.

Lemma decode_nil : decode (B:=bytes) [] = (Err VarIntUnexpectedEof, []).
Proof. reflexivity. Qed.

Lemma decode_cons (x : byte) (r : bytes) :
  let n := tail_len (b2z x) in
  decode (x :: r) =
    if zlen r <? n then (Err VarIntUnexpectedEof, r)
    else (Ok (mkVarInt (be_value (b2z x mod 64) (take (Z.to_nat n) r))),
          drop (Z.to_nat n) r).
Proof.
  intros n. subst n. unfold decode.
  assert (Hsome : has_remaining (x :: r) = true).
  { unfold has_remaining; simpl. rewrite zlen_cons. pose proof (zlen_nonneg r). lia. }
  pose proof (b2z_range x) as Hx. destruct (first_bits _ Hx) as [Htag Hlow].
  unfold mbind, M_bind, gets at 1. rewrite Hsome. simpl. rewrite Htag, Hlow.
  assert (Hc : b2z x / 64 = 0 \/ b2z x / 64 = 1 \/ b2z x / 64 = 2 \/ b2z x / 64 = 3) by dlia.
  pose proof (Z.mod_pos_bound (b2z x) 64 ltac:(lia)) as Hm.
  unfold tail_len. destruct Hc as [Hc|[Hc|[Hc|Hc]]]; rewrite Hc; simpl.
  - change (2 ^ 0 - 1) with 0. pose proof (zlen_nonneg r).
    rewrite (proj2 (Z.ltb_ge _ _)), from_u64_ok by (rewrite ?MAX_eq; lia). done.
  - tail_case r 1 1.
  - tail_case r 3 3.
  - tail_case r 7 7.
Qed.

(** ** The encoder on bytes *)

Lemma enc_eq v : wf v ->
  enc v =
    if inner v <=? 0x3f then be_bytes 1 (inner v)
    else if inner v <=? 0x3fff then be_bytes 2 (1 * 2 ^ 14 + inner v)
    else if inner v <=? 0x3fffffff then be_bytes 4 (2 * 2 ^ 30 + inner v)
    else be_bytes 8 (3 * 2 ^ 62 + inner v).
Proof.
  unfold wf, enc, encode; simpl. rewrite MAX_eq. intros Hv. repeat split_if.
  - unfold as_u8. by rewrite Z.mod_small by lia.
  - unfold as_u16. rewrite Z.mod_small, (lor_add 14) by dlia. done.
  - unfold as_u32. rewrite Z.mod_small, (lor_add 30) by dlia. done.
  - by rewrite (lor_add 62) by dlia.
Qed.

Lemma encode_written {O} `{BufMutLaws O} v (o : O) :
  written (encode v o) = written o ++ enc v.
Proof.
  unfold enc, encode; simpl.
  repeat case_match; by autorewrite with written.
Qed.

Lemma length_enc v : wf v -> zlen (enc v) = encoded_len v.
Proof.
  intros Hv. rewrite enc_eq by done. unfold encoded_len.
  repeat case_match; by rewrite zlen_be_bytes.
Qed.

Lemma encoded_len_range v : 1 <= encoded_len v <= 8.
Proof. unfold encoded_len. repeat case_match; lia. Qed.

Lemma encoded_len_mono v w : inner v <= inner w -> encoded_len v <= encoded_len w.
Proof. intros H. unfold encoded_len. repeat split_if; lia. Qed.

(** A tagged big-endian integer decodes to its low bits. *)
Lemma decode_tagged n t v rest :
  0 <= t <= 3 -> Z.of_nat n = 2 ^ t - 1 -> 0 <= v < 2 ^ (8 * Z.of_nat n + 6) ->
  decode (be_bytes (S n) (t * 2 ^ (8 * Z.of_nat n + 6) + v) ++ rest)
  = (Ok (mkVarInt v), rest).
Proof.
  intros Ht Hn Hv. set (z := t * 2 ^ (8 * Z.of_nat n + 6) + v).
  assert (Hp : 2 ^ (8 * Z.of_nat n + 6) = 64 * 256 ^ Z.of_nat n).
  { rewrite Z.pow_add_r, Z.pow_mul_r by lia. change (2 ^ 8) with 256. lia. }
  assert (H0 : 0 < 256 ^ Z.of_nat n) by lia.
  assert (Hd : z / 256 ^ Z.of_nat n = t * 64 + v / 256 ^ Z.of_nat n).
  { subst z. rewrite Hp, Z.mul_assoc, Z.div_add_l by lia. done. }
  assert (Hq : 0 <= v / 256 ^ Z.of_nat n < 64).
  { split; [apply Z.div_pos; lia|apply Z.div_lt_upper_bound; lia]. }
  assert (Hb : b2z (z2b (Z.shiftr z (8 * Z.of_nat n))) = t * 64 + v / 256 ^ Z.of_nat n).
  { rewrite b2z_z2b, Z.shiftr_div_pow2, Z.pow_mul_r by lia. change (2 ^ 8) with 256.
    rewrite Hd. unfold as_u8. apply Z.mod_small. lia. }
  change (be_bytes (S n) z) with (z2b (Z.shiftr z (8 * Z.of_nat n)) :: be_bytes n z).
  rewrite <- app_comm_cons, decode_cons, Hb.
  assert (Ht' : tail_len (t * 64 + v / 256 ^ Z.of_nat n) = Z.of_nat n).
  { unfold tail_len. rewrite Z.div_add_l, (Z.div_small (_ / _) 64), Z.add_0_r by lia. lia. }
  rewrite Ht', Nat2Z.id, zlen_app, zlen_be_bytes.
  pose proof (zlen_nonneg rest). rewrite (proj2 (Z.ltb_ge _ _)) by lia.
  rewrite take_app_length' , drop_app_length' by (by rewrite length_be_bytes).
  rewrite be_value_be_bytes. do 3 f_equal.
  rewrite (Z.add_comm (t * 64)), Z.mod_add, (Z.mod_small (_ / _) 64) by lia.
  subst z. rewrite Hp, Z.mul_assoc, (Z.add_comm (t * 64 * _) v), Z.mod_add by lia.
  pose proof (Z.div_mod v (256 ^ Z.of_nat n)). lia.
Qed.

Lemma decode_enc v rest : wf v -> decode (enc v ++ rest) = (Ok v, rest).
Proof.
  intros Hv. rewrite enc_eq by done. destruct v as [v]. unfold wf in Hv.
  rewrite MAX_eq in Hv. simpl in *. repeat split_if.
  - apply (decode_tagged 0 0 v rest); lia.
  - apply (decode_tagged 1 1 v rest); lia.
  - apply (decode_tagged 3 2 v rest); lia.
  - apply (decode_tagged 7 3 v rest); lia.
Qed.

Lemma decode_bytes_cases (l : bytes) :
  (exists l', decode l = (Err VarIntUnexpectedEof, l')) \/
  (exists p v l', l = p ++ l' /\ decode l = (Ok v, l') /\ wf v /\
                  encoded_len v <= zlen p).
Proof.
  destruct l as [|x r]; [left; eauto|]. rewrite decode_cons.
  pose proof (b2z_range x) as Hx. set (n := tail_len (b2z x)).
  assert (Hn : n = 0 \/ n = 1 \/ n = 3 \/ n = 7).
  { subst n. unfold tail_len.
    assert (Hc : b2z x / 64 = 0 \/ b2z x / 64 = 1 \/ b2z x / 64 = 2 \/ b2z x / 64 = 3) by dlia.
    destruct Hc as [->|[->|[->| ->]]]; simpl; lia. }
  destruct (Z.ltb_spec (zlen r) n); [left; eauto|right].
  assert (Hl : zlen (take (Z.to_nat n) r) = n).
  { unfold zlen in *. rewrite length_take. lia. }
  pose proof (be_value_bound (b2z x mod 64) (take (Z.to_nat n) r) 64 ltac:(dlia)) as Hv.
  rewrite Hl in Hv. set (v := be_value _ _) in *.
  exists (x :: take (Z.to_nat n) r), (mkVarInt v), (drop (Z.to_nat n) r).
  split; [by rewrite <- app_comm_cons, take_drop|]. split; [done|].
  rewrite zlen_cons, Hl. unfold wf, encoded_len; simpl. rewrite MAX_eq. clearbody v n.
  destruct Hn as [Hn|[Hn|[Hn|Hn]]]; subst n; simpl in Hv; repeat split_if; lia.
Qed.

(** ** Properties *)

(** C34: encoding a [VarInt] appends its canonical encoding to whatever was written,
    and decoding that encoding, whatever follows it, from any lawful buffer
    returns the same [VarInt] and leaves exactly what followed. *)
Theorem varint_roundtrip {B O} `{BufLaws B} `{BufMutLaws O} (v : VarInt) (o : O)
    (b : B) (rest : bytes) :
  wf v ->
  written (encode v o) = written o ++ enc v /\
  (view b = enc v ++ rest -> exists b', decode b = (Ok v, b') /\ view b' = rest).
Proof.
  intros Hv. split; [apply encode_written|]. intros Hb.
  destruct (reads_decode b) as [Hres Hrest]. rewrite Hb, decode_enc in Hres, Hrest by done.
  destruct (decode b) as [r b']. simpl in *. subst. eauto.
Qed.

Lemma varint_roundtrip_witness :
  written (encode (mkVarInt 15293) ([] : bytes)) = [x7b; xbd] /\
  exists b', decode ([x7b; xbd; x00] : bytes) = (Ok (mkVarInt 15293), b') /\ view b' = [x00].
Proof.
  split; [reflexivity|].
  apply (varint_roundtrip (mkVarInt 15293) ([] : bytes) ([x7b; xbd; x00] : bytes) [x00]);
    [vm_compute; split; discriminate | reflexivity].
Defined.

(** On every input the decoder returns: it never reads past the end and its
    only error is the end of the input.  A value it returns is in the range of
    [VarInt], took at least as many bytes as its canonical encoding has, and
    the bytes after it are untouched. *)
Theorem varint_decode_total {B} `{BufLaws B} (b : B) :
  (exists b', decode b = (Err VarIntUnexpectedEof, b')) \/
  (exists p v b', view b = p ++ view b' /\ decode b = (Ok v, b') /\ wf v /\
                  encoded_len v <= zlen p).
Proof.
  destruct (reads_decode b) as [Hres Hrest]. destruct (decode b) as [r b'] eqn:E.
  destruct (decode_bytes_cases (view b)) as [(l' & Hd)|(p & v & l' & Hp & Hd & Hw & Hl)];
    rewrite Hd in Hres, Hrest; simpl in *; subst; [left; eauto|].
  right. exists p, v, b'. by rewrite Hp.
Qed.

(** [encoded_len] is the length of what [encode] writes, and it is at most
    the length of any encoding the decoder accepts for that value: senders use the
    shortest form. *)
Theorem varint_shortest (v : VarInt) :
  wf v ->
  zlen (enc v) = encoded_len v /\
  (forall l rest : bytes, decode l = (Ok v, rest) -> encoded_len v <= zlen l - zlen rest).
Proof.
  intros Hv. split; [by apply length_enc|]. intros l rest Hd.
  destruct (decode_bytes_cases l) as [(l' & Hd')|(p & w & l' & -> & Hd' & _ & Hl)];
    rewrite Hd in Hd'; [done|]. injection Hd' as <- <-. rewrite zlen_app. lia.
Qed.

End VarInt.
