(* ===== verification/Utf8.v ===== *)
(** UTF-8 as the Rust standard library checks it: [str::from_utf8] validates
    well-formed sequences (no overlong form, no surrogate, at most U+10FFFF), a
    [String] is a byte sequence that passes, and [str::is_char_boundary] tells
    the offsets at which a character starts or the string ends. *)

From S2P Require Import Prelude.

(** A continuation byte [0b10xxxxxx]. *)
Definition is_cont (b : byte) : bool := (0x80 <=? b2z b) && (b2z b <=? 0xbf).

(** The accepted second bytes of a three-byte and of a four-byte sequence. *)
Definition second_of_3 (x : Z) (b : byte) : bool :=
  is_cont b &&
  (if x =? 0xe0 then 0xa0 <=? b2z b else if x =? 0xed then b2z b <=? 0x9f else true).
Definition second_of_4 (x : Z) (b : byte) : bool :=
  is_cont b &&
  (if x =? 0xf0 then 0x90 <=? b2z b else if x =? 0xf4 then b2z b <=? 0x8f else true).

Fixpoint utf8_valid (s : bytes) : bool :=
  match s with
  | [] => true
  | a :: s1 =>
      let x := b2z a in
      if x <? 0x80 then utf8_valid s1
      else if (0xc2 <=? x) && (x <=? 0xdf) then
        match s1 with b :: s2 => is_cont b && utf8_valid s2 | _ => false end
      else if (0xe0 <=? x) && (x <=? 0xef) then
        match s1 with
        | b :: c :: s3 => second_of_3 x b && is_cont c && utf8_valid s3
        | _ => false
        end
      else if (0xf0 <=? x) && (x <=? 0xf4) then
        match s1 with
        | b :: c :: d :: s4 => second_of_4 x b && is_cont c && is_cont d && utf8_valid s4
        | _ => false
        end
      else false
  end.

(** [str::is_char_boundary] *)
Definition is_char_boundary (s : bytes) (index : nat) : bool :=
  (Nat.eqb index 0) || (Nat.eqb index (length s)) ||
  match s !! index with Some b => negb (is_cont b) | None => false end.

Lemma boundary_0 s : is_char_boundary s 0 = true.
Proof. done. Qed.

(** A boundary past the first byte is a boundary of the rest. *)
Lemma boundary_cons a s n :
  is_char_boundary (a :: s) (S n) = true -> is_char_boundary s n = true.
Proof.
  destruct n as [|n]; [done|]. unfold is_char_boundary. simpl.
  by destruct (length s).
Qed.

Lemma boundary_not_cont s n b :
  is_char_boundary s (S n) = true -> s !! S n = Some b -> is_cont b = false.
Proof.
  unfold is_char_boundary. intros Hb Hs. rewrite Hs in Hb.
  apply lookup_lt_Some in Hs. assert (Hl : Nat.eqb (S n) (length s) = false).
  { apply Nat.eqb_neq. lia. }
  rewrite Hl in Hb. simpl in Hb. by apply negb_true_iff.
Qed.

(** A continuation byte right after the first [S n] bytes: no boundary there. *)
Ltac no_boundary :=
  match goal with
  | Hb : is_char_boundary ?s (S ?n) = true |- _ =>
      pose proof (boundary_not_cont s n _ Hb eq_refl); unfold second_of_3, second_of_4 in *;
      bool_to_prop; congruence
  end.

(** Cutting a valid string at a character boundary leaves a valid string. *)
Lemma utf8_take s n :
  utf8_valid s = true -> is_char_boundary s n = true -> utf8_valid (take n s) = true.
Proof.
  revert n. induction s as [s IH] using (induction_ltof1 _ (@length byte)).
  unfold ltof in IH. intros n Hv Hb.
  destruct s as [|a s]; [by destruct n|]. destruct n as [|n]; [done|].
  simpl in Hv |- *. split_if.
  { apply IH; [simpl; lia|done|]. by eapply boundary_cons. }
  split_if.
  { destruct s as [|b s]; [done|]. destruct n as [|n]; [no_boundary|].
    simpl. apply andb_true_iff in Hv as [-> Hv]. apply IH; [simpl; lia|done|].
    by do 2 eapply boundary_cons. }
  split_if.
  { destruct s as [|b [|c s]]; [done..|]. destruct n as [|[|n]]; [no_boundary..|].
    simpl. apply andb_true_iff in Hv as [-> Hv]. apply IH; [simpl; lia|done|].
    by do 3 eapply boundary_cons. }
  split_if; [|done].
  destruct s as [|b [|c [|d s]]]; [done..|]. destruct n as [|[|[|n]]]; [no_boundary..|].
  simpl. apply andb_true_iff in Hv as [-> Hv]. apply IH; [simpl; lia|done|].
  by do 4 eapply boundary_cons.
Qed.

(** [String::from_utf8_lossy]: U+FFFD for every maximal part of a sequence that cannot be
    completed. *)
Definition REPLACEMENT : bytes := [xef; xbf; xbd].

Fixpoint from_utf8_lossy (s : bytes) : bytes :=
  match s with
  | [] => []
  | a :: s1 =>
      let x := b2z a in
      if x <? 0x80 then a :: from_utf8_lossy s1
      else if (0xc2 <=? x) && (x <=? 0xdf) then
        match s1 with
        | b :: s2 => if is_cont b then a :: b :: from_utf8_lossy s2 else REPLACEMENT ++ from_utf8_lossy s1
        | [] => REPLACEMENT
        end
      else if (0xe0 <=? x) && (x <=? 0xef) then
        match s1 with
        | b :: s2 =>
            if second_of_3 x b then
              match s2 with
              | c :: s3 => if is_cont c then a :: b :: c :: from_utf8_lossy s3 else REPLACEMENT ++ from_utf8_lossy s2
              | [] => REPLACEMENT
              end
            else REPLACEMENT ++ from_utf8_lossy s1
        | [] => REPLACEMENT
        end
      else if (0xf0 <=? x) && (x <=? 0xf4) then
        match s1 with
        | b :: s2 =>
            if second_of_4 x b then
              match s2 with
              | c :: s3 =>
                  if is_cont c then
                    match s3 with
                    | d :: s4 => if is_cont d then a :: b :: c :: d :: from_utf8_lossy s4 else REPLACEMENT ++ from_utf8_lossy s3
                    | [] => REPLACEMENT
                    end
                  else REPLACEMENT ++ from_utf8_lossy s2
              | [] => REPLACEMENT
              end
            else REPLACEMENT ++ from_utf8_lossy s1
        | [] => REPLACEMENT
        end
      else REPLACEMENT ++ from_utf8_lossy s1
  end.

Lemma valid_replacement s : utf8_valid (REPLACEMENT ++ s) = utf8_valid s.
Proof. done. Qed.

(** The result is a [String], and its length is at most three times that of the input. *)
Definition lossy_ok (s r : bytes) : Prop := utf8_valid r = true /\ (length r <= 3 * length s)%nat.

Lemma lossy_string s : lossy_ok s (from_utf8_lossy s).
Proof.
  remember (length s) as n eqn:Hn. revert s Hn. induction (lt_wf n) as [n _ IH]. intros s ->.
  assert (Hrep : forall t, (length t < length s)%nat -> lossy_ok s (REPLACEMENT ++ from_utf8_lossy t)).
  { intros t Ht. destruct (IH _ Ht t eq_refl) as [Hv Hl]. split; [by rewrite valid_replacement|]. simpl. lia. }
  assert (Hend : (0 < length s)%nat -> lossy_ok s REPLACEMENT) by (split; [done|simpl; lia]).
  assert (Hkeep : forall p t, (length p + length t <= length s)%nat -> p <> [] -> (forall r, utf8_valid (p ++ r) = utf8_valid r) ->
    lossy_ok s (p ++ from_utf8_lossy t)).
  { intros p t Hp Hne Hval. assert (length p <> 0%nat) by (by destruct p). destruct (IH (length t)) with (s := t) as [Hv Hl]; [lia|done|].
    split; [by rewrite Hval|]. rewrite length_app. lia. }
  destruct s as [|a s1]; [done|]. cbn [from_utf8_lossy].
  destruct (b2z a <? 128) eqn:E1; [apply (Hkeep [a] s1); [done..|]; intros r; simpl; by rewrite E1|].
  destruct ((0xc2 <=? b2z a) && (b2z a <=? 0xdf)) eqn:E2.
  { destruct s1 as [|b s2]; [apply Hend; simpl; lia|]. destruct (is_cont b) eqn:Eb; [|apply Hrep; simpl; lia].
    apply (Hkeep [a; b] s2); [done..|]. intros r. simpl. by rewrite E1, E2, Eb. }
  destruct ((0xe0 <=? b2z a) && (b2z a <=? 0xef)) eqn:E3.
  { destruct s1 as [|b s2]; [apply Hend; simpl; lia|]. destruct (second_of_3 (b2z a) b) eqn:Eb; [|apply Hrep; simpl; lia].
    destruct s2 as [|c s3]; [apply Hend; simpl; lia|]. destruct (is_cont c) eqn:Ec; [|apply Hrep; simpl; lia].
    apply (Hkeep [a; b; c] s3); [done..|]. intros r. simpl. by rewrite E1, E2, E3, Eb, Ec. }
  destruct ((0xf0 <=? b2z a) && (b2z a <=? 0xf4)) eqn:E4; [|apply Hrep; simpl; lia].
  destruct s1 as [|b s2]; [apply Hend; simpl; lia|]. destruct (second_of_4 (b2z a) b) eqn:Eb; [|apply Hrep; simpl; lia].
  destruct s2 as [|c s3]; [apply Hend; simpl; lia|]. destruct (is_cont c) eqn:Ec; [|apply Hrep; simpl; lia].
  destruct s3 as [|d s4]; [apply Hend; simpl; lia|]. destruct (is_cont d) eqn:Ed; [|apply Hrep; simpl; lia].
  apply (Hkeep [a; b; c; d] s4); [done..|]. intros r. simpl. by rewrite E1, E2, E3, E4, Eb, Ec, Ed.
Qed.
