(* ===== verification/Frames.v ===== *)
(** [muxtls-proto/src/frame.rs] and [muxtls-proto/src/error.rs]: the frames of the
    wire protocol, their encoder and their decoder. *)

From S2P Require Import Prelude Buf Varint Utf8.

(** [enum ProtoError] *)
Inductive ProtoError :=
| ProtoVarInt (e : VarIntError)
| UnexpectedEof
| UnknownFrameType (t : Z)
| UnsupportedFlags (frame_type flags : Z)
| InvalidUtf8
| TrailingBytes (remaining : Z)
| LengthOverflow (n : Z).

(** [struct ErrorCode(pub VarInt)] *)
Record ErrorCode := mkErrorCode { code : VarInt }.

Module ErrorCode.
Definition from_u64 (value : Z) : Result ProtoError ErrorCode :=
  v ← map_err ProtoVarInt (VarInt.from_u64 value); Ok (mkErrorCode v).
Definition into_inner (c : ErrorCode) : Z := VarInt.into_inner (code c).
Definition encoded_len (c : ErrorCode) : Z := VarInt.encoded_len (code c).
End ErrorCode.

(** [enum Frame].  [Bytes] and [String] are byte lists; a [String] is valid UTF-8. *)
Inductive Frame :=
| Stream (stream_id : VarInt) (fin : bool) (payload : bytes)
| ResetStream (stream_id : VarInt) (error_code : ErrorCode)
| OpenStream (stream_id : VarInt)
| Settings (max_data max_stream_data max_frame_size : VarInt)
| MaxData (maximum : VarInt)
| MaxStreamData (stream_id maximum : VarInt)
| StopSending (stream_id : VarInt)
| Ping
| ConnectionClose (error_code : ErrorCode) (reason : bytes).

#[global] Instance ErrorCode_eq_dec : EqDecision ErrorCode.
Proof. solve_decision. Defined.
#[global] Instance ProtoError_eq_dec : EqDecision ProtoError.
Proof. solve_decision. Defined.
#[global] Instance Frame_eq_dec : EqDecision Frame.
Proof. solve_decision. Defined.

Definition STREAM_FIN_FLAG : Z := 0x01.

(** [usize] to [u64] and back; the bounds are those of the source type's target. *)
Definition try_u64 (n : Z) : Result ProtoError Z :=
  if (0 <=? n) && (n <=? u64_max) then Ok n else Err (LengthOverflow u64_max).
Definition try_usize (n : Z) : Result ProtoError Z :=
  if (0 <=? n) && (n <=? usize_max) then Ok n else Err (LengthOverflow n).

Module Frame.

Definition encoded_len (self : Frame) : Result ProtoError Z :=
  match self with
  | Stream stream_id _ payload =>
      n ← try_u64 (zlen payload);
      payload_len ← map_err ProtoVarInt (VarInt.from_u64 n);
      Ok (1 + VarInt.encoded_len stream_id + 1 + VarInt.encoded_len payload_len
          + zlen payload)
  | ResetStream stream_id error_code =>
      Ok (1 + VarInt.encoded_len stream_id + ErrorCode.encoded_len error_code)
  | OpenStream stream_id => Ok (1 + VarInt.encoded_len stream_id)
  | Settings max_data max_stream_data max_frame_size =>
      Ok (1 + VarInt.encoded_len max_data + VarInt.encoded_len max_stream_data
          + VarInt.encoded_len max_frame_size)
  | MaxData maximum => Ok (1 + VarInt.encoded_len maximum)
  | MaxStreamData stream_id maximum =>
      Ok (1 + VarInt.encoded_len stream_id + VarInt.encoded_len maximum)
  | StopSending stream_id => Ok (1 + VarInt.encoded_len stream_id)
  | Ping => Ok 1
  | ConnectionClose error_code reason =>
      n ← try_u64 (zlen reason);
      reason_len ← map_err ProtoVarInt (VarInt.from_u64 n);
      Ok (1 + ErrorCode.encoded_len error_code + VarInt.encoded_len reason_len
          + zlen reason)
  end.

Definition put_varint {O} `{BufMut O} (v : VarInt) : M O ProtoError unit :=
  modify (VarInt.encode v).

Definition encode {O} `{BufMut O} (self : Frame) : M O ProtoError unit :=
  match self with
  | Stream stream_id fin payload =>
      _ ← modify (put_u8 0x00);
      _ ← put_varint stream_id;
      _ ← modify (put_u8 (if fin then STREAM_FIN_FLAG else 0));
      len ← lift (map_err ProtoVarInt (VarInt.from_u64 (as_u64 (zlen payload))));
      _ ← put_varint len;
      modify (put_slice payload)
  | ResetStream stream_id error_code =>
      _ ← modify (put_u8 0x01);
      _ ← put_varint stream_id;
      put_varint (code error_code)
  | OpenStream stream_id =>
      _ ← modify (put_u8 0x04);
      put_varint stream_id
  | Settings max_data max_stream_data max_frame_size =>
      _ ← modify (put_u8 0x05);
      _ ← put_varint max_data;
      _ ← put_varint max_stream_data;
      put_varint max_frame_size
  | MaxData maximum =>
      _ ← modify (put_u8 0x06);
      put_varint maximum
  | MaxStreamData stream_id maximum =>
      _ ← modify (put_u8 0x07);
      _ ← put_varint stream_id;
      put_varint maximum
  | StopSending stream_id =>
      _ ← modify (put_u8 0x08);
      put_varint stream_id
  | Ping => modify (put_u8 0x02)
  | ConnectionClose error_code reason =>
      _ ← modify (put_u8 0x03);
      _ ← put_varint (code error_code);
      len ← lift (map_err ProtoVarInt (VarInt.from_u64 (as_u64 (zlen reason))));
      _ ← put_varint len;
      modify (put_slice reason)
  end.

(** [VarInt::decode(src)?] *)
Definition get_varint {B} `{Buf B} : M B ProtoError VarInt :=
  map_err_m ProtoVarInt VarInt.decode.

(** A length prefix and that many bytes. *)
Definition get_prefixed {B} `{Buf B} : M B ProtoError bytes :=
  len ← get_varint;
  len ← lift (try_usize (VarInt.into_inner len));
  rem ← gets remaining;
  _ ← bail_if (rem <? len) UnexpectedEof;
  or_panic (copy_to_bytes len).

(** The fields after the frame type. *)
Definition decode_fields {B} `{Buf B} (frame_type : Z) : M B ProtoError Frame :=
  if frame_type =? 0x00 then
    stream_id ← get_varint;
    some ← gets has_remaining;
    _ ← bail_if (negb some) UnexpectedEof;
    flags ← VarInt.read_u8;
    _ ← bail_if (negb (Z.land flags (Z.lxor 0xff STREAM_FIN_FLAG) =? 0))
          (UnsupportedFlags frame_type flags);
    payload ← get_prefixed;
    mret (Stream stream_id (negb (Z.land flags STREAM_FIN_FLAG =? 0)) payload)
  else if frame_type =? 0x01 then
    stream_id ← get_varint;
    error_code ← get_varint;
    mret (ResetStream stream_id (mkErrorCode error_code))
  else if frame_type =? 0x02 then mret Ping
  else if frame_type =? 0x03 then
    error_code ← get_varint;
    reason ← get_prefixed;
    _ ← bail_if (negb (utf8_valid reason)) InvalidUtf8;
    mret (ConnectionClose (mkErrorCode error_code) reason)
  else if frame_type =? 0x04 then
    stream_id ← get_varint;
    mret (OpenStream stream_id)
  else if frame_type =? 0x05 then
    max_data ← get_varint;
    max_stream_data ← get_varint;
    max_frame_size ← get_varint;
    mret (Settings max_data max_stream_data max_frame_size)
  else if frame_type =? 0x06 then
    maximum ← get_varint;
    mret (MaxData maximum)
  else if frame_type =? 0x07 then
    stream_id ← get_varint;
    maximum ← get_varint;
    mret (MaxStreamData stream_id maximum)
  else if frame_type =? 0x08 then
    stream_id ← get_varint;
    mret (StopSending stream_id)
  else fail (UnknownFrameType frame_type).

Definition decode {B} `{Buf B} : M B ProtoError Frame :=
  some ← gets has_remaining;
  _ ← bail_if (negb some) UnexpectedEof;
  frame_type ← VarInt.read_u8;
  frame ← decode_fields frame_type;
  some ← gets has_remaining;
  rem ← gets remaining;
  _ ← bail_if some (TrailingBytes rem);
  mret frame.

(** What the types of the Rust fields guarantee of a [Frame] value. *)
Definition wf (f : Frame) : Prop :=
  match f with
  | Stream id _ _ => VarInt.wf id
  | ResetStream id c => VarInt.wf id /\ VarInt.wf (code c)
  | OpenStream id | StopSending id => VarInt.wf id
  | Settings a b c => VarInt.wf a /\ VarInt.wf b /\ VarInt.wf c
  | MaxData a => VarInt.wf a
  | MaxStreamData id a => VarInt.wf id /\ VarInt.wf a
  | Ping => True
  | ConnectionClose c r => VarInt.wf (code c) /\ utf8_valid r = true
  end.

(** The variable-length part has a length that fits in a [VarInt]. *)
Definition fits (f : Frame) : Prop :=
  match f with
  | Stream _ _ p => zlen p <= VarInt.MAX
  | ConnectionClose _ r => zlen r <= VarInt.MAX
  | _ => True
  end.

(** The bytes of an encoded frame: the type byte and the fields. *)
Definition frame_type (f : Frame) : Z :=
  match f with
  | Stream _ _ _ => 0 | ResetStream _ _ => 1 | Ping => 2 | ConnectionClose _ _ => 3
  | OpenStream _ => 4 | Settings _ _ _ => 5 | MaxData _ => 6 | MaxStreamData _ _ => 7
  | StopSending _ => 8
  end.
Definition enc_prefixed (l : bytes) : bytes := VarInt.enc (mkVarInt (zlen l)) ++ l.
Definition enc_fields (f : Frame) : bytes :=
  match f with
  | Stream id fin p =>
      VarInt.enc id ++ z2b (if fin then 1 else 0) :: enc_prefixed p
  | ResetStream id c => VarInt.enc id ++ VarInt.enc (code c)
  | OpenStream id | StopSending id => VarInt.enc id
  | Settings a b c => VarInt.enc a ++ VarInt.enc b ++ VarInt.enc c
  | MaxData a => VarInt.enc a
  | MaxStreamData id a => VarInt.enc id ++ VarInt.enc a
  | Ping => []
  | ConnectionClose c r => VarInt.enc (code c) ++ enc_prefixed r
  end.
Definition enc (f : Frame) : bytes := z2b (frame_type f) :: enc_fields f.

(** ** Encoding *)

Lemma u64_len (l : bytes) : zlen l <= VarInt.MAX ->
  as_u64 (zlen l) = zlen l /\ VarInt.from_u64 (zlen l) = Ok (mkVarInt (zlen l)).
Proof.
  intros H. pose proof (zlen_nonneg l). split.
  - unfold as_u64. apply Z.mod_small. rewrite VarInt.MAX_eq in H. lia.
  - apply VarInt.from_u64_ok. lia.
Qed.

Lemma wf_len (l : bytes) : zlen l <= VarInt.MAX -> VarInt.wf (mkVarInt (zlen l)).
Proof. intros H. split; simpl; [apply zlen_nonneg|done]. Qed.

Lemma be_bytes_1 z : be_bytes 1 z = [z2b z].
Proof. simpl. by rewrite Z.shiftr_0_r. Qed.

Lemma frame_encode_written {O} `{BufMutLaws O} f (o : O) : fits f ->
  exists o', encode f o = (Ok tt, o') /\ written o' = written o ++ enc f.
Proof.
  intros Hf. destruct f; unfold encode, put_varint, enc, enc_fields; unfold_m.
  1, 9: destruct (u64_len _ Hf) as [-> ->]; simpl.
  all: eexists; split; [reflexivity|].
  all: rewrite ?put_slice_written, ?VarInt.encode_written, ?put_u8_written, ?be_bytes_1;
    unfold enc_prefixed; simpl; rewrite <- ?app_assoc; simpl; rewrite <- ?app_assoc;
    try done.
  all: by rewrite ?VarInt.encode_written, ?put_u8_written, ?be_bytes_1, <- ?app_assoc.
Qed.

Lemma encoded_len_enc f : wf f -> fits f -> encoded_len f = Ok (zlen (enc f)).
Proof.
  intros Hw Hf. destruct f; simpl in Hw, Hf; destruct_and?;
    unfold encoded_len, enc, enc_fields, enc_prefixed, ErrorCode.encoded_len, try_u64.
  1, 9: match goal with |- context [zlen ?l <=? u64_max] =>
          pose proof (zlen_nonneg l); destruct (u64_len l) as [_ Hl]; [done|];
          rewrite (proj2 (Z.leb_le 0 (zlen l))), (proj2 (Z.leb_le (zlen l) u64_max))
            by (rewrite ?VarInt.MAX_eq in *; unfold u64_max; lia)
        end; unfold mbind, Result_bind; simpl; rewrite Hl; simpl; f_equal.
  all: try f_equal; autorewrite with zlen; rewrite ?VarInt.length_enc by auto using wf_len; lia.
Qed.

Lemma encoded_len_fits f n : encoded_len f = Ok n -> fits f.
Proof.
  destruct f; simpl; try done; unfold mbind, Result_bind, try_u64; case_match; simpl; try done.
  all: destruct (VarInt.from_u64 _) as [v| |] eqn:E; simpl; [intros _|done..].
  all: repeat case_match; simplify_eq; by apply VarInt.from_u64_Ok in E as [_ ?].
Qed.

(** ** Decoding what was encoded *)

Lemma get_varint_enc v (r : bytes) :
  VarInt.wf v -> get_varint (VarInt.enc v ++ r) = (Ok v, r).
Proof. intros Hv. unfold get_varint, map_err_m. by rewrite VarInt.decode_enc. Qed.

Lemma get_prefixed_enc (l r : bytes) :
  zlen l <= VarInt.MAX -> get_prefixed (enc_prefixed l ++ r) = (Ok l, r).
Proof.
  intros Hl. unfold get_prefixed, enc_prefixed. rewrite <- app_assoc.
  rewrite (bind_ok _ _ _ _ _ (get_varint_enc _ _ (wf_len l Hl))).
  pose proof (zlen_nonneg l). rewrite VarInt.MAX_eq in Hl. pose proof (zlen_nonneg r).
  unfold lift, try_usize, VarInt.into_inner, usize_max, u64_max; simpl.
  rewrite (proj2 (Z.leb_le 0 (zlen l))), (proj2 (Z.leb_le (zlen l) _)) by lia.
  unfold_m. simpl. rewrite zlen_app, (proj2 (Z.ltb_ge _ _)) by lia. simpl.
  rewrite zlen_app, (proj2 (Z.leb_le _ _)) by lia.
  unfold zlen. by rewrite Nat2Z.id, take_app_length, drop_app_length.
Qed.

Lemma read_u8_cons {E} x (r : bytes) : VarInt.read_u8 (E:=E) (x :: r) = (Ok (b2z x), r).
Proof. done. Qed.

Lemma has_remaining_cons x (r : bytes) : has_remaining (x :: r) = true.
Proof. unfold has_remaining; simpl. rewrite zlen_cons. pose proof (zlen_nonneg r). lia. Qed.

Lemma decode_fields_enc f (r : bytes) : wf f -> fits f ->
  decode_fields (frame_type f) (enc_fields f ++ r) = (Ok f, r).
Proof.
  intros Hw Hf.
  destruct f as [|? []| | | | | | |[]]; simpl in Hw, Hf; destruct_and?;
    unfold decode_fields; simpl; rewrite <- ?app_assoc; simpl.
  all: repeat match goal with
    | |- mbind _ get_varint (VarInt.enc ?v ++ ?t) = _ =>
        rewrite (bind_ok _ _ _ _ _ (get_varint_enc v t ltac:(assumption)))
    | |- mbind _ get_prefixed (enc_prefixed ?l ++ ?t) = _ =>
        rewrite (bind_ok _ _ _ _ _ (get_prefixed_enc l t ltac:(assumption)))
    end.
  { unfold gets at 1, bail_if, mbind, M_bind. rewrite has_remaining_cons.
    destruct fin; simpl; by rewrite get_prefixed_enc. }
  1-7: done.
  unfold bail_if, mbind, M_bind.
  match goal with H : utf8_valid _ = true |- _ => by rewrite H end.
Qed.

Lemma b2z_frame_type f : b2z (z2b (frame_type f)) = frame_type f.
Proof. by destruct f. Qed.

Lemma frame_decode_cons x (r : bytes) :
  decode (x :: r) =
    match decode_fields (b2z x) r with
    | (Ok f, []) => (Ok f, [])
    | (Ok f, rest) => (Err (TrailingBytes (zlen rest)), rest)
    | (Err e, rest) => (Err e, rest)
    | (Panic, rest) => (Panic, rest)
    end.
Proof.
  unfold decode. unfold gets, bail_if, mbind, M_bind. rewrite has_remaining_cons. simpl.
  destruct (decode_fields (b2z x) r) as [[f|e|] rest]; [|done..].
  destruct rest; [done|]. by rewrite has_remaining_cons.
Qed.

Lemma frame_decode_enc f : wf f -> fits f -> decode (enc f) = (Ok f, []).
Proof.
  intros Hw Hf. unfold enc. rewrite frame_decode_cons, b2z_frame_type.
  by rewrite <- (app_nil_r (enc_fields f)), decode_fields_enc.
Qed.

(** ** Decoding any bytes

    [parses m P]: on every input [m] either returns a value [a] from a prefix
    [p] with [P a p], and more input behind changes nothing; or it fails for lack of
    input; or it fails whatever follows.  It never panics. *)

Definition is_eof (e : ProtoError) : bool :=
  match e with
  | UnexpectedEof | ProtoVarInt VarIntUnexpectedEof => true
  | _ => false
  end.

Definition parses {A} (m : M bytes ProtoError A) (P : A -> bytes -> Prop) : Prop :=
  forall l, match m l with
  | (Ok a, r) => (exists p, l = p ++ r /\ P a p) /\ (forall q, m (l ++ q) = (Ok a, r ++ q))
  | (Err e, _) => is_eof e = true \/ (forall q, exists r', m (l ++ q) = (Err e, r'))
  | (Panic, _) => False
  end.

Lemma parses_ret {A} (a : A) : parses (mret a) (fun a' p => a' = a /\ p = []).
Proof. intros l. simpl. split; [by exists []|done]. Qed.

Lemma parses_fail {A} e (P : A -> bytes -> Prop) : parses (fail e) P.
Proof. intros l. simpl. right. intros q. by eexists. Qed.

Lemma parses_weaken {A} (m : M bytes ProtoError A) (P Q : A -> bytes -> Prop) :
  parses m P -> (forall a p, P a p -> Q a p) -> parses m Q.
Proof.
  intros Hm Hpq l. specialize (Hm l). destruct (m l) as [[a|e|] r]; [|done..].
  destruct Hm as [(p & -> & Hp) Hq]. split; [|done]. exists p. auto.
Qed.

Lemma parses_bind {A C} (m : M bytes ProtoError A) (k : A -> M bytes ProtoError C)
    (P : A -> bytes -> Prop) (Q : A -> C -> bytes -> Prop) :
  parses m P -> (forall a p, P a p -> parses (k a) (Q a)) ->
  parses (m ≫= k) (fun c l => exists a p1 p2, l = p1 ++ p2 /\ P a p1 /\ Q a c p2).
Proof.
  intros Hm Hk l. specialize (Hm l). unfold mbind, M_bind.
  destruct (m l) as [[a|e|] r].
  - destruct Hm as [(p & -> & Hp) Hq]. specialize (Hk a p Hp r).
    destruct (k a r) as [[c|e|] r'].
    + destruct Hk as [(p' & -> & Hp') Hq']. split.
      { exists (p ++ p'). rewrite app_assoc. eauto 10. }
      intros q. by rewrite Hq.
    + destruct Hk as [|Hk]; [by left|right]. intros q. by rewrite Hq.
    + done.
  - destruct Hm as [|Hm]; [by left|right]. intros q. destruct (Hm q) as [r' ->]. eauto.
  - done.
Qed.

Lemma parses_bail_if b e :
  parses (bail_if b e) (fun _ p => b = false /\ p = []).
Proof. destruct b; [apply parses_fail|]. intros l. simpl. split; [by exists []|done]. Qed.

Lemma parses_varint :
  parses get_varint (fun v p => VarInt.wf v /\ VarInt.encoded_len v <= zlen p).
Proof.
  intros l. unfold get_varint, map_err_m.
  destruct (VarInt.decode_bytes_cases l) as [(l' & ->)|(p & v & l' & Hl & Hd & Hw & Hp)];
    simpl; [by left|].
  rewrite Hd. simpl. split; [by exists p|]. intros q.
  destruct l as [|x r]; [by rewrite VarInt.decode_nil in Hd|].
  rewrite <- app_comm_cons. rewrite VarInt.decode_cons in *.
  destruct (Z.ltb_spec (zlen r) (VarInt.tail_len (b2z x))) as [|Hle]; [done|].
  injection Hd as <- <-. pose proof (zlen_nonneg q).
  rewrite (proj2 (Z.ltb_ge _ _)) by (rewrite zlen_app; lia). simpl.
  unfold zlen in *.
  rewrite take_app_le, drop_app_le by lia. done.
Qed.

Lemma parses_prefixed :
  parses get_prefixed (fun l p => zlen l <= VarInt.MAX /\ zlen (enc_prefixed l) <= zlen p).
Proof.
  eapply parses_weaken; [eapply (parses_bind _ _ _ (fun v l p => p = l /\ zlen l = inner v))|].
  - apply parses_varint.
  - intros v p [[Hv Hv'] _] l. unfold VarInt.into_inner, try_usize, lift; unfold_m.
    rewrite VarInt.MAX_eq in Hv'.
    rewrite (proj2 (Z.leb_le 0 (inner v))), (proj2 (Z.leb_le (inner v) usize_max))
      by (unfold usize_max, u64_max; lia). simpl.
    destruct (Z.ltb_spec (zlen l) (inner v)); simpl; [by left|].
    rewrite (proj2 (Z.leb_le _ _)) by done. split.
    + exists (take (Z.to_nat (inner v)) l). rewrite take_drop. split; [done|].
      split; [done|]. unfold zlen in *. rewrite length_take. lia.
    + intros q. pose proof (zlen_nonneg q).
      rewrite (proj2 (Z.ltb_ge _ _)) by (rewrite zlen_app; lia). simpl.
      rewrite (proj2 (Z.leb_le _ _)) by (rewrite zlen_app; lia).
      unfold zlen in *. by rewrite take_app_le, drop_app_le by lia.
  - intros l p (v & p1 & p2 & -> & [Hw Hl] & -> & Hlen).
    destruct v as [n]; simpl in *. subst n. destruct Hw as [_ Hw]. simpl in Hw.
    split; [done|]. unfold enc_prefixed. rewrite !zlen_app, VarInt.length_enc by (by apply wf_len).
    lia.
Qed.

(** [if !src.has_remaining() { return Err(UnexpectedEof) }] and one byte. *)
Lemma parses_next_u8 {C} (k : Z -> M bytes ProtoError C) (Q : Z -> C -> bytes -> Prop) :
  (forall x, 0 <= x < 256 -> parses (k x) (Q x)) ->
  parses (some ← gets has_remaining; _ ← bail_if (negb some) UnexpectedEof;
          x ← VarInt.read_u8; k x)
         (fun c l => exists x p, l = x :: p /\ Q (b2z x) c p).
Proof.
  intros Hk l. unfold gets, bail_if, mbind, M_bind.
  destruct l as [|x r]; [by left|]. rewrite has_remaining_cons. simpl.
  specialize (Hk (b2z x) (b2z_range x) r). destruct (k (b2z x) r) as [[c|e|] r'].
  - destruct Hk as [(p & -> & Hp) Hq]. split; [exists (x :: p); eauto|].
    intros q. apply Hq.
  - destruct Hk as [|Hk]; [by left|right]. intros q. apply Hk.
  - done.
Qed.

(** What a decoded frame satisfies, with the bytes of its fields. *)
Definition decoded (t : Z) (f : Frame) (p : bytes) : Prop :=
  wf f /\ fits f /\ frame_type f = t /\ zlen (enc_fields f) <= zlen p.

(** Run the decoder of one frame shape. *)
Ltac parse_fields :=
  repeat match goal with
  | |- parses (mbind _ get_varint) _ => eapply parses_bind; [apply parses_varint|intros ? ? [? ?]]
  | |- parses (mbind _ get_prefixed) _ => eapply parses_bind; [apply parses_prefixed|intros ? ? [? ?]]
  | |- parses (mbind _ (bail_if _ _)) _ => eapply parses_bind; [apply parses_bail_if|intros ? ? [? ?]]
  | |- parses (mret _) _ => apply parses_ret
  end.

(** Conclude from the pieces. *)
Ltac decoded_done :=
  intros; cbv beta in *; deex; subst;
  unfold decoded; simpl in *; destruct_and?; autorewrite with zlen in *;
  rewrite ?VarInt.length_enc by auto using wf_len; split_and!;
  solve [done | lia | by apply negb_false_iff].

Lemma parses_fields t : parses (decode_fields t) (decoded t).
Proof.
  unfold decode_fields.
  repeat match goal with |- context [if ?a =? ?b then _ else _] => destruct (Z.eqb_spec a b) as [->|] end.
  2-9: eapply parses_weaken; [parse_fields|decoded_done].
  2: apply parses_fail.
  { eapply parses_weaken.
    - eapply parses_bind; [apply parses_varint|intros ? ? [? ?]].
      eapply parses_next_u8. intros x Hx. parse_fields.
    - decoded_done. }
Qed.

Lemma reads_get_varint {B} `{BufLaws B} : reads_same get_varint get_varint.
Proof. apply reads_map_err, VarInt.reads_decode. Qed.

Lemma reads_prefixed {B} `{BufLaws B} : reads_same get_prefixed get_prefixed.
Proof.
  unfold get_prefixed. apply reads_bind; [apply reads_get_varint|intros v].
  unfold try_usize. destruct (Z.leb_spec 0 (VarInt.into_inner v)); simpl; [|by intros ?].
  case_match; [|by intros ?].
  apply (reads_bind _ _ _ _ (reads_remaining)). intros rem.
  apply reads_bind; [auto with mux|intros _]. by apply reads_copy.
Qed.

Lemma reads_fields {B} `{BufLaws B} t : reads_same (decode_fields t) (decode_fields t).
Proof.
  unfold decode_fields.
  repeat first [ apply reads_get_varint | apply reads_prefixed | apply VarInt.reads_read_u8
               | solve [auto with mux] | apply reads_bind; [|intros ?] | case_match ].
Qed.

Lemma reads_frame {B} `{BufLaws B} : reads_same decode decode.
Proof.
  unfold decode.
  repeat first [ apply reads_fields | apply VarInt.reads_read_u8 | solve [auto with mux]
               | apply reads_bind; [|intros ?] ].
Qed.

(** ** Properties *)

Lemma decode_cases (l : bytes) :
  (exists e r, decode l = (Err e, r)) \/
  (exists f, decode l = (Ok f, []) /\ wf f /\ fits f /\ zlen (enc f) <= zlen l).
Proof.
  destruct l as [|x r]; [left; by eexists _, _|]. rewrite frame_decode_cons.
  pose proof (parses_fields (b2z x) r) as H.
  destruct (decode_fields (b2z x) r) as [[f|e|] rest]; [|left; eauto|done].
  destruct H as [(p & -> & Hw & Hf & _ & Hl) _].
  destruct rest; [right|left; eauto]. exists f. split_and!; [done..|].
  unfold enc. rewrite !zlen_cons, app_nil_r. lia.
Qed.

(** C29: a frame whose payload or reason has an encodable length is written in full,
    after whatever the buffer held, and decoding the written bytes from any
    lawful buffer returns the frame and consumes them all. *)
Theorem frame_roundtrip {B O} `{BufLaws B} `{BufMutLaws O} (f : Frame) (o : O) :
  wf f -> fits f ->
  exists o' w, encode f o = (Ok tt, o') /\ written o' = written o ++ w /\
    (forall b : B, view b = w -> exists b', decode b = (Ok f, b') /\ view b' = []).
Proof.
  intros Hw Hf. destruct (frame_encode_written f o Hf) as (o' & He & Ho).
  exists o', (enc f). split_and!; [done..|]. intros b Hb.
  destruct (reads_frame b) as [Hres Hrest]. rewrite Hb, frame_decode_enc in Hres, Hrest by done.
  destruct (decode b) as [r b']. simpl in *. subst. eauto.
Qed.

Lemma frame_roundtrip_witness :
  let f := Stream (mkVarInt 4) true [x68; x65; x6c; x6c; x6f] in
  exists o' w, encode f ([] : bytes) = (Ok tt, o') /\ written o' = written ([] : bytes) ++ w /\
    (forall b : bytes, view b = w -> exists b', decode b = (Ok f, b') /\ view b' = []).
Proof.
  intros f. apply (frame_roundtrip (B:=bytes) (O:=bytes) f []);
    vm_compute; [split; discriminate|discriminate].
Defined.

(** A value that fits in memory: [isize::MAX] bounds every allocation. *)
Definition allocatable (f : Frame) : Prop :=
  match f with
  | Stream _ _ p => zlen p < 2 ^ 63
  | ConnectionClose _ r => zlen r < 2 ^ 63
  | _ => True
  end.

(** C32: [encoded_len] predicts [encode] exactly: when it returns [n], encoding
    succeeds and appends [n] bytes; when it returns an error, encoding fails with
    the same error. *)
Theorem frame_encoded_len {O} `{BufMutLaws O} (f : Frame) (o : O) :
  wf f -> allocatable f ->
  match encoded_len f with
  | Ok n => exists o', encode f o = (Ok tt, o') /\ zlen (written o') = zlen (written o) + n
  | Err e => exists o', encode f o = (Err e, o')
  | Panic => False
  end.
Proof.
  intros Hw Ha. assert (Hd : fits f \/ ~ fits f).
  { destruct f; simpl; auto; lia. }
  destruct Hd as [Hf|Hf].
  - rewrite encoded_len_enc by done. destruct (frame_encode_written f o Hf) as (o' & He & Ho).
    exists o'. rewrite Ho, zlen_app. done.
  - destruct f as [id fin p| | | | | | | |c p]; simpl in Ha, Hf; try by destruct Hf.
    all: pose proof (zlen_nonneg p); unfold encoded_len, try_u64, encode, put_varint.
    all: rewrite (proj2 (Z.leb_le 0 (zlen p))), (proj2 (Z.leb_le (zlen p) u64_max))
           by (unfold u64_max; lia); unfold_m; simpl.
    all: unfold as_u64; rewrite Z.mod_small by lia; unfold VarInt.from_u64.
    all: rewrite (proj2 (Z.ltb_lt _ _)) by lia; simpl; eauto.
Qed.

Lemma frame_encoded_len_witness :
  exists o', encode (ResetStream (mkVarInt 16384) (mkErrorCode (mkVarInt 64))) ([] : bytes)
             = (Ok tt, o') /\ zlen (written o') = 0 + 7.
Proof.
  refine (frame_encoded_len (ResetStream (mkVarInt 16384) (mkErrorCode (mkVarInt 64)))
            ([] : bytes) _ _); vm_compute; [split; split; discriminate|done].
Defined.

(** C31: the decoder returns on every input: hostile bytes make it fail, never
    panic.  A frame it returns satisfies the type invariants, used the whole
    input, and its canonical encoding is no longer than that input. *)
Theorem frame_decode_total {B} `{BufLaws B} (b : B) :
  (exists e b', decode b = (Err e, b')) \/
  (exists f b', decode b = (Ok f, b') /\ view b' = [] /\ wf f /\ fits f /\
                zlen (enc f) <= zlen (view b)).
Proof.
  destruct (reads_frame b) as [Hres Hrest]. destruct (decode b) as [r b'] eqn:Eb.
  destruct (decode_cases (view b)) as [(e & r' & Hd)|(f & Hd & Hf)];
    rewrite Hd in Hres, Hrest; simpl in *; subst; [left; eauto|].
  right. exists f, b'. done.
Qed.

Lemma frame_decode_total_witness :
  (exists e b', decode ([x02; xff] : bytes) = (Err e, b')) \/
  (exists f b', decode ([x02; xff] : bytes) = (Ok f, b') /\ view b' = [] /\ wf f /\ fits f /\
                zlen (enc f) <= zlen (view ([x02; xff] : bytes))).
Proof. exact (frame_decode_total ([x02; xff] : bytes)). Defined.



End Frame.
