(* ===== verification/Errors.v ===== *)
(** [muxtls/src/error.rs]: the error type of the runtime, with the messages its
    [Display] prints (they become the reason of a CONNECTION_CLOSE). *)

From stdpp Require Import pretty.
From Stdlib Require Import HexadecimalString.
From S2P Require Import Prelude Varint Frames.

#[local] Open Scope string_scope.

(** [enum Error].  An error of another crate or of the operating system is the text
    it displays. *)
Inductive Error :=
| Io (e : string)
| Tls (e : string)
| TlsHandshake (m : string)
| InvalidDnsName (m : string)
| Config (m : string)
| Protocol (m : string)
| Wire (e : ProtoError)
| LimitExceeded (m : string)
| InvalidLimit (field reason : string)
| Timeout (what : string)
| StreamIdExhausted
| ConnectionClosed
| StreamReset (code : Z)
| EndpointRole (m : string).

#[global] Instance Error_eq_dec : EqDecision Error.
Proof. solve_decision. Defined.

(** [{}] of an unsigned integer, and [{:#x}] of a [u8]. *)
Definition dec (n : Z) : string := pretty n.
Definition hex (n : Z) : string := "0x" +:+ NilZero.string_of_uint (N.to_hex_uint (Z.to_N n)).

(** [Display for VarIntError] *)
Definition show_varint_error (e : VarIntError) : string :=
  match e with
  | ValueTooLarge v => "varint value too large: " +:+ dec v
  | VarIntUnexpectedEof => "unexpected end of input while decoding varint"
  end.

(** [Display for ProtoError] *)
Definition show_proto_error (e : ProtoError) : string :=
  match e with
  | ProtoVarInt e => "varint error: " +:+ show_varint_error e
  | UnexpectedEof => "unexpected end of input"
  | UnknownFrameType t => "unknown frame type: " +:+ hex t
  | UnsupportedFlags frame_type flags =>
      "unsupported flags " +:+ hex flags +:+ " for frame type " +:+ hex frame_type
  | InvalidUtf8 => "invalid UTF-8 in close reason"
  | TrailingBytes remaining => "trailing bytes in frame: " +:+ dec remaining
  | LengthOverflow n => "payload length too large for platform: " +:+ dec n
  end.

(** [Display for Error] *)
Definition show_error (e : Error) : string :=
  match e with
  | Io e => "io error: " +:+ e
  | Tls e => "tls error: " +:+ e
  | TlsHandshake m => "TLS handshake failed: " +:+ m
  | InvalidDnsName m => "invalid dns name: " +:+ m
  | Config m => "configuration error: " +:+ m
  | Protocol m => "protocol error: " +:+ m
  | Wire e => "wire protocol error: " +:+ show_proto_error e
  | LimitExceeded m => "limit exceeded: " +:+ m
  | InvalidLimit field reason => "invalid limit `" +:+ field +:+ "`: " +:+ reason
  | Timeout what => what +:+ " timed out"
  | StreamIdExhausted => "stream identifier space exhausted"
  | ConnectionClosed => "connection closed"
  | StreamReset code => "stream reset with code " +:+ dec code
  | EndpointRole m => "endpoint role mismatch: " +:+ m
  end.

Example show_wire_error :
  show_error (Wire (UnsupportedFlags 0 0xfe))
  = "wire protocol error: unsupported flags 0xfe for frame type 0x0".
Proof. reflexivity. Qed.

Example show_limit_error :
  show_error (Protocol ("data for unknown stream id " +:+ dec 4611686018427387902))
  = "protocol error: data for unknown stream id 4611686018427387902".
Proof. vm_compute. reflexivity. Qed.
