(* ===== verification/Config.v ===== *)
(** [muxtls/src/config.rs]: the TLS configurations of clients and servers.

    What [rustls], [rcgen] and the platform do is the class [Rustls]; a [rustls]
    configuration is the record of what the code gave its builder. *)

From S2P Require Import Prelude Errors.

#[local] Open Scope string_scope.
#[local] Open Scope list_scope.
#[local] Open Scope Z_scope.

(** The calls of other crates.  An error is the text it displays. *)
Class Rustls := {
  CertificateDer : Type;
  PrivateKeyDer : Type;
  RootCertStore : Type;
  ServerName : Type;
  ClientVerifier : Type;
  PlatformVerifier : Type;
  File : Type;
  (** whether [builder()] finds a process-wide crypto provider; it panics otherwise *)
  default_provider : bool;
  (** [RootCertStore::empty], [add], [is_empty] *)
  roots_new : RootCertStore;
  roots_add : CertificateDer -> RootCertStore -> Result string RootCertStore;
  roots_is_empty : RootCertStore -> bool;
  (** [ServerName::try_from] *)
  server_name_try_from : string -> option ServerName;
  (** the checks of [with_client_auth_cert] and [with_single_cert] *)
  check_client_auth_cert : list CertificateDer -> PrivateKeyDer -> Result string unit;
  check_single_cert : list CertificateDer -> PrivateKeyDer -> Result string unit;
  (** [WebPkiClientVerifier::builder(roots).build()] *)
  client_verifier_build : RootCertStore -> Result string ClientVerifier;
  (** [rustls_platform_verifier::Verifier::new] *)
  platform_verifier_new : Result string PlatformVerifier;
  (** [rustls_native_certs::load_native_certs]: certificates and errors *)
  load_native_certs : list CertificateDer * list string;
  (** [File::open], and [pem_reader_iter] and [from_pem_reader] on an opened file *)
  file_open : string -> Result string File;
  pem_certs : File -> Result string (list CertificateDer);
  pem_key : File -> Result string PrivateKeyDer;
  (** [rcgen::generate_simple_self_signed]: the certificate and the serialized key *)
  generate_simple_self_signed : list string -> Result string (CertificateDer * bytes);
  (** [PrivateKeyDer::try_from] *)
  private_key_try_from : bytes -> Result string PrivateKeyDer
}.

(** What is documented of the root store. *)
Class RustlsLaws (RU : Rustls) : Prop := {
  roots_new_empty : roots_is_empty roots_new = true;
  roots_add_nonempty : forall c r r', roots_add c r = Ok r' -> roots_is_empty r' = false
}.

(** [b"muxtls/1"] *)
Definition ALPN_PROTOCOL : bytes := String.list_byte_of_string "muxtls/1".

(** [enum SignatureScheme], the variants that are named. *)
Inductive SignatureScheme :=
| ECDSA_NISTP256_SHA256
| ECDSA_NISTP384_SHA384
| ED25519
| RSA_PSS_SHA256
| RSA_PSS_SHA384
| RSA_PSS_SHA512
| RSA_PKCS1_SHA256
| RSA_PKCS1_SHA384
| RSA_PKCS1_SHA512.

Section config.
Context {RU : Rustls}.

(** How a client checks the certificate of a server: against roots, with the
    platform's verifier, or with [InsecureNoVerify]. *)
Inductive ServerVerifier :=
| RootsVerifier (roots : RootCertStore)
| PlatformServerVerifier (v : PlatformVerifier)
| InsecureNoVerify.

(** [rustls::ClientConfig] and [rustls::ServerConfig] *)
Record RustlsClientConfig := mkRustlsClient {
  server_verifier : ServerVerifier;
  client_auth : option (list CertificateDer * PrivateKeyDer);
  client_alpn : list bytes
}.
Record RustlsServerConfig := mkRustlsServer {
  client_verifier : option ClientVerifier;
  server_cert : list CertificateDer * PrivateKeyDer;
  server_alpn : list bytes
}.

#[global] Instance eta_RustlsClientConfig : Settable RustlsClientConfig := fun x =>
  mkRustlsClient (server_verifier x) (client_auth x) (client_alpn x).
#[global] Instance eta_RustlsServerConfig : Settable RustlsServerConfig := fun x =>
  mkRustlsServer (client_verifier x) (server_cert x) (server_alpn x).

(** [ClientConfig::builder()], [ServerConfig::builder()] and
    [WebPkiClientVerifier::builder()] *)
Definition builder : Result Error unit := if default_provider then Ok tt else Panic.

(** The last stage of the builders; a new configuration offers no protocol. *)
Definition with_no_client_auth (v : ServerVerifier) : RustlsClientConfig := mkRustlsClient v None [].
Definition with_client_auth_cert (v : ServerVerifier) (certs : list CertificateDer)
    (key : PrivateKeyDer) : Result string RustlsClientConfig :=
  _ ← check_client_auth_cert certs key;
  Ok (mkRustlsClient v (Some (certs, key)) []).
Definition with_single_cert (v : option ClientVerifier) (certs : list CertificateDer)
    (key : PrivateKeyDer) : Result string RustlsServerConfig :=
  _ ← check_single_cert certs key;
  Ok (mkRustlsServer v (certs, key) []).

(** [struct ClientConfig] and [struct ServerConfig] *)
Record ClientConfig := mkClientConfig { client_inner : RustlsClientConfig }.
Record ServerConfig := mkServerConfig { server_inner : RustlsServerConfig }.

(** ** Roots *)

(** [for cert in certs { roots.add(cert).map_err(..)?; }] *)
Fixpoint add_roots (certs : list CertificateDer) (roots : RootCertStore) : Result Error RootCertStore :=
  match certs with
  | [] => Ok roots
  | c :: certs => roots ← map_err Config (roots_add c roots); add_roots certs roots
  end.

Definition native_roots : Result Error RootCertStore :=
  let '(certs, errors) := load_native_certs in
  roots ← add_roots certs roots_new;
  if roots_is_empty roots then
    let details := default "the platform returned no certificates" (head errors) in
    Err (Config ("no usable native root certificates: " +:+ details))
  else Ok roots.

Definition root_store (certs : list CertificateDer) (certificate_kind : string) :
    Result Error RootCertStore :=
  match certs with
  | [] => Err (Config ("at least one " +:+ certificate_kind +:+ " certificate is required"))
  | _ => add_roots certs roots_new
  end.

(** ** [impl ClientConfig] *)

(** [config.alpn_protocols = vec![ALPN_PROTOCOL.to_vec()]] and the wrapper. *)
Definition finish_client (config : RustlsClientConfig) : ClientConfig :=
  mkClientConfig (config <| client_alpn := [ALPN_PROTOCOL] |>).

Definition no_client_cert : Error := Config "at least one client certificate is required".

Definition with_native_roots : Result Error ClientConfig :=
  roots ← native_roots;
  _ ← builder;
  Ok (finish_client (with_no_client_auth (RootsVerifier roots))).

Definition with_platform_verifier : Result Error ClientConfig :=
  verifier ← map_err Tls platform_verifier_new;
  _ ← builder;
  Ok (finish_client (with_no_client_auth (PlatformServerVerifier verifier))).

Definition with_platform_verifier_and_client_auth (client_certs : list CertificateDer)
    (client_key : PrivateKeyDer) : Result Error ClientConfig :=
  match client_certs with
  | [] => Err no_client_cert
  | _ =>
      verifier ← map_err Tls platform_verifier_new;
      _ ← builder;
      config ← map_err Config
        (with_client_auth_cert (PlatformServerVerifier verifier) client_certs client_key);
      Ok (finish_client config)
  end.

Definition dangerous_insecure_no_verify_for_testing : Result Error ClientConfig :=
  _ ← builder;
  Ok (finish_client (with_no_client_auth InsecureNoVerify)).

Definition with_custom_roots (certs : list CertificateDer) : Result Error ClientConfig :=
  roots ← root_store certs "custom root";
  _ ← builder;
  Ok (finish_client (with_no_client_auth (RootsVerifier roots))).

Definition with_roots_and_client_auth (roots : RootCertStore) (client_certs : list CertificateDer)
    (client_key : PrivateKeyDer) : Result Error ClientConfig :=
  match client_certs with
  | [] => Err no_client_cert
  | _ =>
      _ ← builder;
      config ← map_err Config (with_client_auth_cert (RootsVerifier roots) client_certs client_key);
      Ok (finish_client config)
  end.

Definition with_native_roots_and_client_auth (client_certs : list CertificateDer)
    (client_key : PrivateKeyDer) : Result Error ClientConfig :=
  roots ← native_roots;
  with_roots_and_client_auth roots client_certs client_key.

Definition with_custom_roots_and_client_auth (roots client_certs : list CertificateDer)
    (client_key : PrivateKeyDer) : Result Error ClientConfig :=
  roots ← root_store roots "custom root";
  with_roots_and_client_auth roots client_certs client_key.

Definition server_name (name : string) : Result Error ServerName :=
  ok_or (InvalidDnsName name) (server_name_try_from name).

(** ** [impl ServerConfig] *)

Definition finish_server (config : RustlsServerConfig) : ServerConfig :=
  mkServerConfig (config <| server_alpn := [ALPN_PROTOCOL] |>).

Definition no_server_cert : Error := Config "at least one server certificate is required".

Definition from_der (certs : list CertificateDer) (key : PrivateKeyDer) : Result Error ServerConfig :=
  match certs with
  | [] => Err no_server_cert
  | _ =>
      _ ← builder;
      config ← map_err Config (with_single_cert None certs key);
      Ok (finish_server config)
  end.

Definition from_pem_files (cert_path key_path : string) : Result Error ServerConfig :=
  cert_file ← map_err Io (file_open cert_path);
  certs ← map_err Config (pem_certs cert_file);
  match certs with
  | [] => Err (Config "no certificates found in PEM file")
  | _ =>
      key_file ← map_err Io (file_open key_path);
      key ← map_err Config (pem_key key_file);
      from_der certs key
  end.

Definition from_der_with_client_auth (certs : list CertificateDer) (key : PrivateKeyDer)
    (client_roots : list CertificateDer) : Result Error ServerConfig :=
  match certs with
  | [] => Err no_server_cert
  | _ =>
      client_roots ← root_store client_roots "client root";
      _ ← builder;
      verifier ← map_err Config (client_verifier_build client_roots);
      _ ← builder;
      config ← map_err Config (with_single_cert (Some verifier) certs key);
      Ok (finish_server config)
  end.

Definition self_signed_for_localhost : Result Error (ServerConfig * CertificateDer) :=
  cert ← map_err Config (generate_simple_self_signed ["localhost"; "127.0.0.1"]);
  let '(cert_der, serialized_key) := cert in
  key_der ← map_err Config (private_key_try_from serialized_key);
  cfg ← from_der [cert_der] key_der;
  Ok (cfg, cert_der).

End config.

(** ** [impl ServerCertVerifier for InsecureNoVerify] *)

Module NoVerify.
Section verifier.
Context {RU : Rustls}.

Definition verify_server_cert (end_entity : CertificateDer) (intermediates : list CertificateDer)
    (name : ServerName) (ocsp_response : bytes) (now : Z) : Result string unit := Ok tt.
Definition verify_tls12_signature (message : bytes) (cert : CertificateDer) (dss : bytes) :
    Result string unit := Ok tt.
Definition verify_tls13_signature (message : bytes) (cert : CertificateDer) (dss : bytes) :
    Result string unit := Ok tt.
Definition supported_verify_schemes : list SignatureScheme :=
  [ECDSA_NISTP256_SHA256; ECDSA_NISTP384_SHA384; ED25519; RSA_PSS_SHA256; RSA_PSS_SHA384;
   RSA_PSS_SHA512; RSA_PKCS1_SHA256; RSA_PKCS1_SHA384; RSA_PKCS1_SHA512].
End verifier.
End NoVerify.

(** ** Every configuration is well formed *)

Section wellformed.
Context {RU : Rustls} {RL : RustlsLaws RU}.

(** The configurations a program can obtain: [inner] is private to the crate. *)
Inductive client_config : ClientConfig -> Prop :=
| cc_native c : with_native_roots = Ok c -> client_config c
| cc_platform c : with_platform_verifier = Ok c -> client_config c
| cc_platform_auth certs key c :
    with_platform_verifier_and_client_auth certs key = Ok c -> client_config c
| cc_insecure c : dangerous_insecure_no_verify_for_testing = Ok c -> client_config c
| cc_custom certs c : with_custom_roots certs = Ok c -> client_config c
| cc_native_auth certs key c : with_native_roots_and_client_auth certs key = Ok c -> client_config c
| cc_custom_auth roots certs key c :
    with_custom_roots_and_client_auth roots certs key = Ok c -> client_config c.

(** With the certificates whose owners a server admits, if it asks for any. *)
Inductive server_config : ServerConfig -> option (list CertificateDer) -> Prop :=
| sc_pem cert_path key_path c : from_pem_files cert_path key_path = Ok c -> server_config c None
| sc_der certs key c : from_der certs key = Ok c -> server_config c None
| sc_auth certs key roots c :
    from_der_with_client_auth certs key roots = Ok c -> server_config c (Some roots)
| sc_self c cert : self_signed_for_localhost = Ok (c, cert) -> server_config c None.

(** A client offers [muxtls/1] only; it checks servers against a non-empty root store
    or with the platform's verifier, unless it is the insecure configuration; a
    certificate of its own is not empty and was accepted. *)
Definition client_ok (c : ClientConfig) : Prop :=
  let r := client_inner c in
  client_alpn r = [ALPN_PROTOCOL] /\
  match server_verifier r with
  | RootsVerifier roots => roots_is_empty roots = false
  | PlatformServerVerifier v => platform_verifier_new = Ok v
  | InsecureNoVerify => dangerous_insecure_no_verify_for_testing = Ok c
  end /\
  match client_auth r with
  | Some (certs, key) => certs <> [] /\ is_ok (check_client_auth_cert certs key) = true
  | None => True
  end.

(** A server offers [muxtls/1] only and has an accepted certificate; it admits exactly
    clients of the given roots, or does not ask for a certificate. *)
Definition server_ok (c : ServerConfig) (clients : option (list CertificateDer)) : Prop :=
  let r := server_inner c in
  server_alpn r = [ALPN_PROTOCOL] /\
  (server_cert r).1 <> [] /\
  is_ok (check_single_cert (server_cert r).1 (server_cert r).2) = true /\
  match clients with
  | None => client_verifier r = None
  | Some certs => exists roots v, add_roots certs roots_new = Ok roots /\
      roots_is_empty roots = false /\ client_verifier_build roots = Ok v /\
      client_verifier r = Some v
  end.

(** The steps of a [Result] block that succeeded. *)
#[local] Ltac result_steps :=
  repeat match goal with
  | H : mbind _ _ = Ok _ |- _ => apply bind_ok_iff in H as (? & ? & H)
  | H : map_err _ _ = Ok _ |- _ => apply map_err_ok in H
  | H : Ok _ = Ok _ |- _ => injection H as H; subst
  | H : Err _ = Ok _ |- _ => discriminate H
  end.

Lemma add_roots_nonempty certs : forall r r',
  add_roots certs r = Ok r' -> certs <> [] \/ roots_is_empty r = false -> roots_is_empty r' = false.
Proof.
  induction certs as [|c certs IH]; simpl; intros r r' H Hne; [naive_solver|].
  result_steps. eapply IH; [done|]. right. by eapply roots_add_nonempty.
Qed.

Lemma root_store_nonempty certs kind r :
  root_store certs kind = Ok r -> add_roots certs roots_new = Ok r /\ roots_is_empty r = false.
Proof.
  unfold root_store. destruct certs; [done|]. intros H. split; [done|].
  eapply add_roots_nonempty; [done|]. by left.
Qed.

Lemma native_roots_nonempty r : native_roots = Ok r -> roots_is_empty r = false.
Proof.
  unfold native_roots. destruct load_native_certs. intros H. result_steps.
  destruct (roots_is_empty _) eqn:?; by result_steps.
Qed.

Lemma auth_ok roots certs key c : roots_is_empty roots = false ->
  with_roots_and_client_auth roots certs key = Ok c -> client_ok c.
Proof.
  unfold with_roots_and_client_auth, with_client_auth_cert. intros Hr H.
  destruct certs; [done|]. result_steps. unfold client_ok; simpl.
  match goal with H : check_client_auth_cert _ _ = _ |- _ => by rewrite H end.
Qed.

Lemma der_ok certs key c : from_der certs key = Ok c -> server_ok c None.
Proof.
  unfold from_der, with_single_cert. intros H.
  destruct certs; [done|]. result_steps. unfold server_ok; simpl.
  match goal with H : check_single_cert _ _ = _ |- _ => by rewrite H end.
Qed.

Lemma client_config_ok c : client_config c -> client_ok c.
Proof.
  intros H. destruct H as [c H|c H|certs key c H|c H|certs c H|certs key c H|roots certs key c H].
  - apply bind_ok_iff in H as (? & ?%native_roots_nonempty & H). by result_steps.
  - unfold with_platform_verifier in H. by result_steps.
  - unfold with_platform_verifier_and_client_auth, with_client_auth_cert in H.
    destruct certs; [done|]. result_steps. unfold client_ok; simpl.
    match goal with H : check_client_auth_cert _ _ = _ |- _ => by rewrite H end.
  - pose proof H as Hd. unfold dangerous_insecure_no_verify_for_testing in H. by result_steps.
  - apply bind_ok_iff in H as (? & [Ha Hn]%root_store_nonempty & H). by result_steps.
  - apply bind_ok_iff in H as (? & ?%native_roots_nonempty & H). by eapply auth_ok.
  - apply bind_ok_iff in H as (? & [Ha Hn]%root_store_nonempty & H). by eapply auth_ok.
Qed.

Lemma server_config_ok c clients : server_config c clients -> server_ok c clients.
Proof.
  intros H. destruct H as [cert_path key_path c H|certs key c H|certs key roots c H|c cert H].
  - unfold from_pem_files in H. result_steps. case_match; [done|]. result_steps. by eapply der_ok.
  - by eapply der_ok.
  - unfold from_der_with_client_auth, with_single_cert in H. destruct certs; [done|].
    apply bind_ok_iff in H as (r & [Ha Hn]%root_store_nonempty & H). result_steps.
    split; [done|]. split; [done|]. simpl.
    match goal with H : check_single_cert _ _ = _ |- _ => rewrite H end. naive_solver.
  - unfold self_signed_for_localhost in H. result_steps. case_match. result_steps. by eapply der_ok.
Qed.

(** C18: every configuration a program can build is well formed.  It offers exactly the
    protocol [muxtls/1].  A client checks servers against a non-empty set of roots or with
    the platform's verifier, and skips the check only in the configuration named as
    insecure; client certificates are never an empty chain.  A server has a non-empty
    chain, and one that was given client roots asks for certificates of these roots. *)
Theorem configs_wellformed :
  (forall c, client_config c -> client_ok c) /\
  (forall c clients, server_config c clients -> server_ok c clients).
Proof. split; [apply client_config_ok | apply server_config_ok]. Qed.

End wellformed.

(** ** An instance: certificates are numbers, every certificate and key is accepted *)

#[global] Instance toy_rustls : Rustls := {|
  CertificateDer := nat;
  PrivateKeyDer := nat;
  RootCertStore := list nat;
  ServerName := string;
  ClientVerifier := list nat;
  PlatformVerifier := unit;
  File := list nat;
  default_provider := true;
  roots_new := [];
  roots_add c r := Ok (r ++ [c]);
  roots_is_empty r := match r with [] => true | _ => false end;
  server_name_try_from n := if decide (n = EmptyString) then None else Some n;
  check_client_auth_cert _ _ := Ok tt;
  check_single_cert _ _ := Ok tt;
  client_verifier_build r := Ok r;
  platform_verifier_new := Err "no platform verifier";
  load_native_certs := ([], ["permission denied"]);
  file_open p := if decide (p = "cert.pem") then Ok [7]%nat else Err "no such file";
  pem_certs f := Ok f;
  pem_key f := ok_or "no key found" (head f);
  generate_simple_self_signed _ := Ok (42%nat, []);
  private_key_try_from _ := Ok 43%nat
|}.

#[global] Instance toy_rustls_laws : RustlsLaws toy_rustls.
Proof. split; [done|]. intros c r r' [= <-]. by destruct r. Qed.

Lemma configs_wellformed_witness :
  (exists c, with_custom_roots_and_client_auth (RU := toy_rustls) [1]%nat [2]%nat 3%nat = Ok c /\
             client_ok c) /\
  (exists c, from_der_with_client_auth (RU := toy_rustls) [1]%nat 2%nat [3; 4]%nat = Ok c /\
             server_ok c (Some [3; 4]%nat : option (list (CertificateDer (Rustls := toy_rustls))))).
Proof.
  split; (eexists; split; [reflexivity|]).
  - apply (proj1 (configs_wellformed (RU := toy_rustls))).
    by apply (cc_custom_auth (RU := toy_rustls) [1]%nat [2]%nat 3%nat).
  - apply (proj2 (configs_wellformed (RU := toy_rustls))).
    by apply (sc_auth (RU := toy_rustls) [1]%nat 2%nat).
Defined.

Example native_roots_error :
  with_native_roots (RU := toy_rustls)
  = Err (Config "no usable native root certificates: permission denied").
Proof. reflexivity. Qed.

Example pem_key_missing : from_pem_files (RU := toy_rustls) "cert.pem" "key.pem" = Err (Io "no such file").
Proof. reflexivity. Qed.

Example empty_roots_error :
  with_custom_roots (RU := toy_rustls) []
  = Err (Config "at least one custom root certificate is required").
Proof. reflexivity. Qed.
