(* ===== verification/Limits.v ===== *)
(** [muxtls/src/limits.rs]: the resource limits of a connection and their
    validation. *)

From S2P Require Import Prelude Varint Frames Errors.

#[local] Open Scope string_scope.
#[local] Open Scope Z_scope.

(** [struct Limits]; a [Duration] is its length in nanoseconds. *)
Record Limits := mkLimits {
  drain_timeout : Z;
  max_queued_outbound_frames : Z;
  max_control_frames : Z;
  max_frame_size : Z;
  max_open_streams : Z;
  max_inbound_connection_bytes : Z;
  max_outbound_connection_bytes : Z;
  max_inbound_stream_bytes : Z;
  max_outbound_stream_bytes : Z
}.

#[global] Instance eta_Limits : Settable Limits := fun x =>
  mkLimits (drain_timeout x) (max_queued_outbound_frames x) (max_control_frames x) (max_frame_size x)
    (max_open_streams x) (max_inbound_connection_bytes x) (max_outbound_connection_bytes x)
    (max_inbound_stream_bytes x) (max_outbound_stream_bytes x).

(** [Duration::from_secs] *)
Definition from_secs (s : Z) : Z := s * 10 ^ 9.

Module Limits.

Definition default : Limits := {|
  drain_timeout := from_secs 5;
  max_queued_outbound_frames := 1024;
  max_control_frames := 512;
  max_frame_size := 64 * 1024;
  max_open_streams := 128;
  max_inbound_connection_bytes := 4 * 1024 * 1024;
  max_outbound_connection_bytes := 4 * 1024 * 1024;
  max_inbound_stream_bytes := 256 * 1024;
  max_outbound_stream_bytes := 256 * 1024
|}.

Definition MIN_FRAME_SIZE : Z := 25.

Definition invalid (field reason : string) : Error := InvalidLimit field reason.

Definition validate_nonzero (field : string) (value : Z) : Result Error unit :=
  if value =? 0 then Err (invalid field "must be greater than zero") else Ok tt.

Section validate.
(** [tokio::sync::Semaphore::MAX_PERMITS] *)
Variable MAX_PERMITS : Z.

Definition validate_semaphore (field : string) (value : Z) : Result Error unit :=
  _ ← validate_nonzero field value;
  if MAX_PERMITS <? value
  then Err (invalid field ("must be at most " +:+ dec MAX_PERMITS)) else Ok tt.

Definition validate_byte_limit (field : string) (value : Z) : Result Error unit :=
  _ ← validate_semaphore field value;
  if u32_max <? value
  then Err (invalid field ("must be at most " +:+ dec u32_max)) else Ok tt.

Definition err_if (b : bool) (e : Error) : Result Error unit := if b then Err e else Ok tt.

Definition validate (self : Limits) : Result Error unit :=
  _ ← err_if ((drain_timeout self =? 0) || (from_secs 3600 <? drain_timeout self))
        (invalid "drain_timeout" "must be greater than zero and at most one hour");
  _ ← err_if (max_frame_size self <? MIN_FRAME_SIZE)
        (invalid "max_frame_size" ("must be at least " +:+ dec MIN_FRAME_SIZE));
  _ ← err_if (u32_max <? max_frame_size self)
        (invalid "max_frame_size" ("must be at most " +:+ dec u32_max));
  _ ← validate_semaphore "max_open_streams" (max_open_streams self);
  _ ← validate_semaphore "max_queued_outbound_frames" (max_queued_outbound_frames self);
  _ ← validate_semaphore "max_control_frames" (max_control_frames self);
  _ ← err_if (max_queued_outbound_frames self <? max_open_streams self)
        (invalid "max_queued_outbound_frames"
           "must allow at least one frame per admitted stream");
  minimum_controls ← ok_or (invalid "max_open_streams" "control capacity overflow")
        (n ← checked_mul (max_open_streams self) 3; checked_add n 2);
  _ ← err_if (max_control_frames self <? minimum_controls)
        (invalid "max_control_frames" "must be at least 3 * max_open_streams + 2");
  _ ← validate_byte_limit "max_inbound_connection_bytes" (max_inbound_connection_bytes self);
  _ ← validate_byte_limit "max_outbound_connection_bytes" (max_outbound_connection_bytes self);
  _ ← validate_byte_limit "max_inbound_stream_bytes" (max_inbound_stream_bytes self);
  _ ← validate_byte_limit "max_outbound_stream_bytes" (max_outbound_stream_bytes self);
  _ ← err_if (max_inbound_connection_bytes self <? max_inbound_stream_bytes self)
        (invalid "max_inbound_stream_bytes" "must not exceed max_inbound_connection_bytes");
  err_if (max_outbound_connection_bytes self <? max_outbound_stream_bytes self)
    (invalid "max_outbound_stream_bytes" "must not exceed max_outbound_connection_bytes").

(** What a validated configuration satisfies. *)
Record Valid (l : Limits) : Prop := {
  valid_drain : 0 < drain_timeout l <= from_secs 3600;
  valid_frame : MIN_FRAME_SIZE <= max_frame_size l <= u32_max;
  valid_open : 0 < max_open_streams l;
  valid_queued : max_open_streams l <= max_queued_outbound_frames l <= MAX_PERMITS;
  valid_control : 3 * max_open_streams l + 2 <= max_control_frames l <= MAX_PERMITS;
  valid_in_stream : 0 < max_inbound_stream_bytes l <= max_inbound_connection_bytes l;
  valid_in_conn : max_inbound_connection_bytes l <= Z.min u32_max MAX_PERMITS;
  valid_out_stream : 0 < max_outbound_stream_bytes l <= max_outbound_connection_bytes l;
  valid_out_conn : max_outbound_connection_bytes l <= Z.min u32_max MAX_PERMITS
}.

(** The fields of a [Limits] value are unsigned. *)
Definition unsigned (l : Limits) : Prop :=
  0 <= drain_timeout l /\ 0 <= max_queued_outbound_frames l /\ 0 <= max_control_frames l /\
  0 <= max_frame_size l /\ 0 <= max_open_streams l /\ 0 <= max_inbound_connection_bytes l /\
  0 <= max_outbound_connection_bytes l /\ 0 <= max_inbound_stream_bytes l /\
  0 <= max_outbound_stream_bytes l.

Lemma err_if_ok b e : err_if b e = Ok tt <-> b = false.
Proof. by destruct b. Qed.

Lemma validate_semaphore_ok f v : 0 <= v ->
  validate_semaphore f v = Ok tt <-> 0 < v <= MAX_PERMITS.
Proof.
  intros Hv. unfold validate_semaphore, validate_nonzero, mbind, Result_bind.
  destruct (Z.eqb_spec v 0), (Z.ltb_spec MAX_PERMITS v); split; (done || lia).
Qed.

Lemma validate_byte_limit_ok f v : 0 <= v ->
  validate_byte_limit f v = Ok tt <-> 0 < v <= Z.min u32_max MAX_PERMITS.
Proof.
  intros Hv. unfold validate_byte_limit. rewrite bind_ok_iff.
  split.
  - intros ([] & H & H'). apply validate_semaphore_ok in H; [|done].
    destruct (Z.ltb_spec u32_max v); [done|lia].
  - intros H. exists tt. rewrite validate_semaphore_ok by done.
    destruct (Z.ltb_spec u32_max v); [lia|]. split; [lia|done].
Qed.

Lemma control_minimum n m e : 0 <= n ->
  ok_or (E:=Error) e (n' ← checked_mul n 3; checked_add n' 2) = Ok m <->
  m = 3 * n + 2 /\ m <= u64_max.
Proof.
  intros Hn. unfold checked_mul, checked_add, mbind, option_bind.
  destruct (Z.leb_spec (n * 3) u64_max); [|naive_solver lia].
  destruct (Z.leb_spec (n * 3 + 2) u64_max); simpl; [|naive_solver lia].
  split; [intros [= <-]; lia|intros [-> _]; f_equal; lia].
Qed.

Lemma validate_valid (l : Limits) : unsigned l -> validate l = Ok tt -> Valid l.
Proof.
  intros (?&?&?&?&?&?&?&?&?) Hv. unfold validate in Hv.
  repeat (apply bind_ok_iff in Hv as (? & ? & Hv)).
  repeat match goal with
  | u : unit |- _ => destruct u
  | H : err_if _ _ = Ok tt |- _ => apply err_if_ok in H
  | H : validate_semaphore _ _ = Ok tt |- _ => apply validate_semaphore_ok in H; [|done]
  | H : validate_byte_limit _ _ = Ok tt |- _ => apply validate_byte_limit_ok in H; [|done]
  | H : ok_or _ _ = Ok _ |- _ => apply control_minimum in H as [-> ?]; [|done]
  end. bool_to_prop. split; lia.
Qed.

Lemma valid_validate (l : Limits) : MAX_PERMITS <= usize_max -> unsigned l -> Valid l -> validate l = Ok tt.
Proof.
  intros HM (?&?&?&?&?&?&?&?&?). unfold validate.
  intros []. unfold usize_max in HM.
  repeat match goal with
  | |- mbind _ (err_if _ _) = _ => apply bind_ok_iff; exists tt; split; [apply err_if_ok; lia|]
  | |- mbind _ (validate_semaphore _ _) = _ =>
      apply bind_ok_iff; exists tt; split; [apply validate_semaphore_ok; lia|]
  | |- mbind _ (validate_byte_limit _ _) = _ =>
      apply bind_ok_iff; exists tt; split; [apply validate_byte_limit_ok; lia|]
  | |- mbind _ (ok_or _ _) = _ =>
      apply bind_ok_iff; exists (3 * max_open_streams l + 2); split; [apply control_minimum; lia|]
  end. apply err_if_ok. lia.
Qed.

(** C35: [validate] accepts exactly the limits in range: a drain timeout in (0, one
    hour], a frame size in [25, u32::MAX], at least one stream, a data queue
    slot per stream, three control slots per stream plus two, and byte budgets
    that are positive, representable and per-stream within per-connection. *)
Theorem validate_iff (l : Limits) :
  MAX_PERMITS <= usize_max -> unsigned l ->
  validate l = Ok tt <-> Valid l.
Proof. intros HM Hu. split; [by apply validate_valid|by apply valid_validate]. Qed.
End validate.

(** [usize::MAX >> 3], the value [tokio] documents. *)
Definition tokio_max_permits : Z := Z.shiftr usize_max 3.

Lemma validate_iff_witness :
  validate tokio_max_permits default = Ok tt <-> Valid tokio_max_permits default.
Proof.
  apply (validate_iff tokio_max_permits default);
    [vm_compute; discriminate|unfold unsigned, default, from_secs; simpl; lia].
Defined.

Lemma default_valid : Valid tokio_max_permits default.
Proof. split; vm_compute; repeat split; (reflexivity || discriminate). Qed.

(** Every frame but STREAM and CONNECTION_CLOSE, whose size depends on their
    contents. *)
Definition is_control (f : Frame) : bool :=
  match f with Stream _ _ _ | ConnectionClose _ _ => false | _ => true end.

Lemma control_encoded_len f : is_control f = true ->
  exists n, Frame.encoded_len f = Ok n /\ 1 <= n <= MIN_FRAME_SIZE.
Proof.
  intros Hc. destruct f; try done; simpl; eexists; (split; [reflexivity|]);
    unfold ErrorCode.encoded_len, MIN_FRAME_SIZE;
    repeat match goal with |- context [VarInt.encoded_len ?v] =>
      pose proof (VarInt.encoded_len_range v); generalize dependent (VarInt.encoded_len v); intros
    end; lia.
Qed.

(** [MIN_FRAME_SIZE] is the smallest frame limit that can encode every control
    frame: all of them take at most 25 bytes, and SETTINGS can take all 25. *)
Theorem min_frame_size_exact :
  (forall f, is_control f = true -> Frame.wf f ->
     exists n, Frame.encoded_len f = Ok n /\ 1 <= n <= MIN_FRAME_SIZE) /\
  (exists f, is_control f = true /\ Frame.wf f /\ Frame.encoded_len f = Ok MIN_FRAME_SIZE).
Proof.
  split.
  - intros f Hc _. by apply control_encoded_len.
  - exists (Settings (mkVarInt VarInt.MAX) (mkVarInt VarInt.MAX) (mkVarInt VarInt.MAX)).
    split_and!; try done; unfold VarInt.wf; simpl; rewrite VarInt.MAX_eq; lia.
Qed.

End Limits.
