(* ===== verification/Flow.v ===== *)
(** [muxtls/src/flow.rs]: the receive window of a connection or of a stream, first
    as operations that run one at a time, then at the granularity of the atomic
    loads and stores they are made of, interleaved. *)

From S2P Require Import Prelude Varint Frames Errors Limits.

#[local] Open Scope Z_scope.

(** [struct ReceiveWindow]: lifetime byte totals. *)
Record ReceiveWindow := mkWindow {
  received : Z;
  consumed : Z;
  advertised : Z;
  window : Z
}.

Module ReceiveWindow.

Definition new (window : Z) : ReceiveWindow := {|
  received := 0;
  consumed := 0;
  advertised := as_u64 window;
  window := as_u64 window
|}.

Definition credit_error : Error := Protocol "peer exceeded advertised receive credit".

(** [fetch_update] either stores the new total or leaves the old one. *)
Definition receive (self : ReceiveWindow) (size : Z) : Result Error unit * ReceiveWindow :=
  match checked_add (received self) (as_u64 size) with
  | Some next =>
      if next <=? advertised self
      then (Ok tt, mkWindow next (consumed self) (advertised self) (window self))
      else (Err credit_error, self)
  | None => (Err credit_error, self)
  end.

(** The limit that the bytes consumed so far allow to advertise. *)
Definition next_limit (self : ReceiveWindow) : Z :=
  Z.min (saturating_add (consumed self) (window self)) VarInt.MAX.

Definition needs_update (self : ReceiveWindow) : bool :=
  let next := next_limit self in
  let old := advertised self in
  (old <? next) &&
  ((div_ceil (window self) 2 <=? next - old) || (received self =? old)
   || (next =? VarInt.MAX)).

Definition consume (self : ReceiveWindow) (size : Z) : bool * ReceiveWindow :=
  if size =? 0 then (false, self)
  else
    let self' := mkWindow (received self) (wrapping_add (consumed self) (as_u64 size))
                          (advertised self) (window self) in
    (needs_update self', self').

(** [Panic] is the [expect] on [VarInt::from_u64]. *)
Definition update (self : ReceiveWindow) : Result Error (option VarInt) * ReceiveWindow :=
  let next := next_limit self in
  if needs_update self then
    let self' := mkWindow (received self) (consumed self) next (window self) in
    match VarInt.from_u64 next with
    | Ok maximum => (Ok (Some maximum), self')
    | _ => (Panic, self')
    end
  else (Ok None, self).

(** The invariant: what was consumed was received, what was received was
    advertised, and no more is advertised than the freed capacity, nor than a
    [VarInt] can say. *)
Record inv (w : ReceiveWindow) : Prop := {
  inv_window : 0 < window w <= VarInt.MAX;
  inv_consumed : 0 <= consumed w <= received w;
  inv_received : received w <= advertised w;
  inv_advertised : window w <= advertised w <= next_limit w
}.

(** Bytes received and not yet given back. *)
Definition buffered (w : ReceiveWindow) : Z := received w - consumed w.
(** Bytes the peer may still send. *)
Definition credit (w : ReceiveWindow) : Z := advertised w - received w.

(** The sequences of operations of one window: a frame arrives, bytes that are
    buffered are given back, the writer asks for an update. *)
Inductive op := OReceive (size : Z) | OConsume (size : Z) | OUpdate.

Definition run_op (o : op) (w : ReceiveWindow) : ReceiveWindow :=
  match o with
  | OReceive n => (receive w n).2
  | OConsume n => (consume w n).2
  | OUpdate => (update w).2
  end.

(** Sizes are lengths; only buffered bytes are given back. *)
Definition op_ok (o : op) (w : ReceiveWindow) : Prop :=
  match o with
  | OReceive n => 0 <= n <= u64_max
  | OConsume n => 0 <= n <= buffered w
  | OUpdate => True
  end.

Inductive reachable (n : Z) : ReceiveWindow -> Prop :=
| reach_new : reachable n (new n)
| reach_step w o : reachable n w -> op_ok o w -> reachable n (run_op o w).

(** ** Preservation *)

Lemma next_limit_le w : inv w -> next_limit w = Z.min (consumed w + window w) VarInt.MAX.
Proof.
  intros [Hw Hc Hr Ha]. unfold next_limit, saturating_add. rewrite VarInt.MAX_eq in *.
  unfold u64_max. lia.
Qed.

Lemma inv_new n : 0 < n <= VarInt.MAX -> inv (new n).
Proof.
  intros Hn. unfold new, as_u64. rewrite VarInt.MAX_eq in Hn.
  rewrite Z.mod_small by lia. split; simpl; rewrite ?VarInt.MAX_eq; try lia.
  unfold next_limit, saturating_add, u64_max; simpl. rewrite VarInt.MAX_eq. lia.
Qed.

Lemma as_u64_small n : 0 <= n <= u64_max -> as_u64 n = n.
Proof. intros H. unfold as_u64, u64_max in *. apply Z.mod_small. lia. Qed.

(** Acceptance is decided by the credit alone. *)
Lemma receive_eq w n : inv w -> 0 <= n <= u64_max ->
  receive w n = if n <=? credit w
                then (Ok tt, mkWindow (received w + n) (consumed w) (advertised w) (window w))
                else (Err credit_error, w).
Proof.
  intros [Hw Hc Hr Ha] Hn. unfold receive, checked_add, credit.
  rewrite as_u64_small by done. unfold next_limit in Ha. rewrite VarInt.MAX_eq in *.
  destruct (Z.leb_spec (received w + n) u64_max) as [H1|H1].
  - destruct (Z.leb_spec (received w + n) (advertised w)),
             (Z.leb_spec n (advertised w - received w)); (done || lia).
  - unfold u64_max in *.
    destruct (Z.leb_spec n (advertised w - received w)); (done || lia).
Qed.

Lemma consume_eq w n : inv w -> 0 <= n <= buffered w ->
  (consume w n).2 = mkWindow (received w) (consumed w + n) (advertised w) (window w).
Proof.
  intros [Hw Hc Hr Ha] Hn. unfold consume, buffered in *.
  destruct (Z.eqb_spec n 0) as [->|]; simpl.
  - rewrite Z.add_0_r. by destruct w.
  - unfold next_limit in Ha. rewrite VarInt.MAX_eq in *.
    unfold wrapping_add. rewrite (as_u64_small n), as_u64_small by (unfold u64_max; lia). done.
Qed.

Lemma inv_op o w : inv w -> op_ok o w -> inv (run_op o w).
Proof.
  intros Hi Ho. pose proof (next_limit_le w Hi) as Hl. pose proof Hi as [Hw Hc Hr Ha].
  rewrite Hl in Ha. rewrite VarInt.MAX_eq in *.
  destruct o as [n|n|]; simpl in *.
  - rewrite receive_eq by done. split_if; [|done]. unfold credit in *.
    split; simpl; rewrite ?VarInt.MAX_eq; try lia.
    unfold next_limit, saturating_add, u64_max in *; simpl. rewrite VarInt.MAX_eq in *. lia.
  - rewrite consume_eq by done. unfold buffered in *.
    split; simpl; rewrite ?VarInt.MAX_eq; try lia.
    unfold next_limit, saturating_add, u64_max in *; simpl. rewrite VarInt.MAX_eq in *. lia.
  - unfold update. destruct (needs_update w) eqn:E; [|done].
    unfold needs_update in E. bool_to_prop.
    rewrite VarInt.from_u64_ok by (rewrite Hl, VarInt.MAX_eq; lia).
    split; simpl; rewrite ?Hl, ?VarInt.MAX_eq; try lia.
    unfold next_limit, saturating_add, u64_max in *; simpl. rewrite VarInt.MAX_eq in *. lia.
Qed.

Lemma reachable_inv n w : 0 < n <= VarInt.MAX -> reachable n w -> inv w /\ window w = n.
Proof.
  intros Hn. induction 1 as [|w o Hr [IH Hw] Ho].
  - split; [by apply inv_new|]. simpl. apply as_u64_small. unfold u64_max.
    rewrite VarInt.MAX_eq in Hn. lia.
  - split; [by apply inv_op|]. rewrite <- Hw. destruct o; simpl.
    + rewrite receive_eq by done. by case_match.
    + by rewrite consume_eq.
    + unfold update. repeat case_match; done.
Qed.

(** The window after its limit was raised. *)
Definition raised (w : ReceiveWindow) : ReceiveWindow :=
  mkWindow (received w) (consumed w) (next_limit w) (window w).

Lemma update_eq w : inv w ->
  update w = if needs_update w then (Ok (Some (mkVarInt (next_limit w))), raised w) else (Ok None, w).
Proof.
  intros Hi. pose proof (next_limit_le w Hi) as Hl. pose proof Hi as [].
  unfold update. destruct (needs_update w); [|done]. rewrite VarInt.from_u64_ok by lia. done.
Qed.

Lemma raised_inv w : inv w -> needs_update w = true ->
  inv (raised w) /\ VarInt.wf (mkVarInt (next_limit w)).
Proof.
  intros Hi Hn. pose proof (inv_op OUpdate w Hi I) as Hi'. simpl in Hi'.
  rewrite update_eq, Hn in Hi' by done. split; [done|].
  pose proof (next_limit_le w Hi). pose proof Hi as []. unfold VarInt.wf. simpl. lia.
Qed.

(** ** Properties *)

(** C27: whatever frames arrive, are consumed and are acknowledged, the window
    keeps its invariant: bytes are consumed only once received, received only
    within the advertised limit, and what is buffered plus what the peer may still
    send never exceeds the configured capacity. *)
Theorem window_bounded (n : Z) (w : ReceiveWindow) :
  0 < n <= VarInt.MAX -> reachable n w ->
  inv w /\ 0 <= buffered w /\ 0 <= credit w /\ buffered w + credit w <= n /\
  advertised w <= VarInt.MAX.
Proof.
  intros Hn Hr. destruct (reachable_inv n w Hn Hr) as [Hi Hw].
  pose proof (next_limit_le w Hi). pose proof Hi as []. unfold buffered, credit.
  split_and!; (done || lia).
Qed.

Lemma window_bounded_witness :
  let w := run_op OUpdate (run_op (OConsume 16) (run_op (OReceive 31) (new 32))) in
  inv w /\ 0 <= buffered w /\ 0 <= credit w /\ buffered w + credit w <= 32 /\
  advertised w <= VarInt.MAX.
Proof.
  intros w. apply (window_bounded 32 w); [vm_compute; split; [reflexivity|discriminate]|].
  subst w. repeat constructor; vm_compute; discriminate.
Defined.

(** A frame is accepted exactly when its payload fits in the credit, and then
    uses up that much of it; a rejected frame leaves the totals unchanged. *)
Theorem receive_exact (n size : Z) (w : ReceiveWindow) :
  0 < n <= VarInt.MAX -> reachable n w -> 0 <= size <= u64_max ->
  match receive w size with
  | (Ok _, w') => size <= credit w /\ credit w' = credit w - size /\
                  buffered w' = buffered w + size
  | (Err e, w') => credit w < size /\ e = credit_error /\ w' = w
  | (Panic, _) => False
  end.
Proof.
  intros Hn Hr Hs. destruct (reachable_inv n w Hn Hr) as [Hi _].
  rewrite receive_eq by done. split_if; simpl; [|done].
  unfold credit, buffered in *; simpl. lia.
Qed.

Lemma receive_exact_witness :
  let w := run_op (OReceive 31) (new 32) in
  credit w < 2 /\ credit_error = credit_error /\ w = w.
Proof.
  intros w. apply (receive_exact 32 2 w);
    [vm_compute; split; [reflexivity|discriminate]| |vm_compute; split; discriminate].
  subst w. repeat constructor; vm_compute; discriminate.
Defined.

(** An update never panics and never shrinks the limit: when one is due it
    advertises exactly the consumed total plus the window, saturated at the largest
    [VarInt], which is strictly more than before; otherwise nothing changes. *)
Theorem update_grows (n : Z) (w : ReceiveWindow) :
  0 < n <= VarInt.MAX -> reachable n w ->
  match update w with
  | (Ok (Some m), w') =>
      inner m = Z.min (consumed w + n) VarInt.MAX /\ advertised w < inner m /\
      advertised w' = inner m /\ received w' = received w /\ consumed w' = consumed w
  | (Ok None, w') => w' = w
  | _ => False
  end.
Proof.
  intros Hn Hr. destruct (reachable_inv n w Hn Hr) as [Hi <-].
  pose proof (next_limit_le w Hi) as Hl. pose proof Hi as []. unfold update.
  destruct (needs_update w) eqn:E; [|done]. unfold needs_update in E. bool_to_prop.
  rewrite VarInt.from_u64_ok by lia. simpl. lia.
Qed.

Lemma update_grows_witness :
  let w := run_op (OConsume 16) (run_op (OReceive 31) (new 32)) in
  match update w with
  | (Ok (Some m), w') =>
      inner m = Z.min (consumed w + 32) VarInt.MAX /\ advertised w < inner m /\
      advertised w' = inner m /\ received w' = received w /\ consumed w' = consumed w
  | (Ok None, w') => w' = w
  | _ => False
  end.
Proof.
  intros w. apply (update_grows 32 w); [vm_compute; split; [reflexivity|discriminate]|].
  subst w. repeat constructor; vm_compute; discriminate.
Defined.

(** Credit that is used up comes back once the bytes are given back. *)
Lemma update_due w : inv w -> credit w = 0 -> buffered w = 0 -> advertised w < VarInt.MAX -> needs_update w = true.
Proof.
  intros Hi. pose proof (next_limit_le w Hi) as Hl. pose proof Hi as []. unfold credit, buffered, needs_update. intros.
  rewrite !andb_true_iff, !orb_true_iff, Z.ltb_lt, !Z.eqb_eq. lia.
Qed.

(** Credit updates cannot deadlock and are coalesced.  When the peer has used
    up its credit and some capacity is free (and the lifetime limit is not reached),
    an update is due.  Conversely an update that is due either answers an exhausted
    peer, or reaches the lifetime limit, or returns at least half a window. *)
Theorem update_progress (n : Z) (w : ReceiveWindow) :
  0 < n <= VarInt.MAX -> reachable n w ->
  (credit w = 0 -> buffered w < n -> advertised w < VarInt.MAX -> needs_update w = true) /\
  (needs_update w = true ->
     credit w = 0 \/ next_limit w = VarInt.MAX \/ n <= 2 * (next_limit w - advertised w)).
Proof.
  intros Hn Hr. destruct (reachable_inv n w Hn Hr) as [Hi Hw].
  pose proof (next_limit_le w Hi) as Hl. pose proof Hi as [].
  unfold credit, buffered, needs_update. split.
  - intros. rewrite !andb_true_iff, !orb_true_iff, Z.ltb_lt, !Z.eqb_eq. lia.
  - intros H. rewrite !andb_true_iff, !orb_true_iff, Z.ltb_lt, !Z.eqb_eq, Z.leb_le in H.
    unfold div_ceil in H. destruct H as [H [[H'|H']|H']]; dlia.
Qed.

Lemma update_progress_witness :
  let w := run_op (OConsume 1) (run_op (OReceive 32) (new 32)) in
  (credit w = 0 -> buffered w < 32 -> advertised w < VarInt.MAX -> needs_update w = true) /\
  (needs_update w = true ->
     credit w = 0 \/ next_limit w = VarInt.MAX \/ 32 <= 2 * (next_limit w - advertised w)).
Proof.
  intros w. apply (update_progress 32 w); [vm_compute; split; [reflexivity|discriminate]|].
  subst w. repeat constructor; vm_compute; discriminate.
Defined.

End ReceiveWindow.

(** * Interleaved atomics

    The reader task runs [receive], application tasks run [consume] (one
    [fetch_add]) and the writer task runs [update], each as the sequence of atomic
    loads, compare-exchanges and stores of the source, in any interleaving. *)

Module Interleaved.
Import ReceiveWindow.

(** [receive]: [fetch_update] loads [received], the closure loads [advertised], and
    the compare-exchange stores or reloads. *)
Inductive reader_pc :=
| RIdle
| RLoaded (size value : Z)
| RChecked (size value next : Z).

(** [update]: load [consumed]; then [needs_update] loads [consumed], [advertised]
    and [received]; then store [advertised]. *)
Inductive writer_pc :=
| WIdle
| WNext (next : Z)
| WNext2 (next next2 : Z)
| WOld (next next2 old : Z)
| WStore (next : Z).

Record state := mkState { win : ReceiveWindow; rpc : reader_pc; wpc : writer_pc }.

Inductive step : state -> state -> Prop :=
| step_receive w q size : 0 <= size <= u64_max ->
    step (mkState w RIdle q) (mkState w (RLoaded size (received w)) q)
| step_check w q size v next : checked_add v size = Some next -> next <= advertised w ->
    step (mkState w (RLoaded size v) q) (mkState w (RChecked size v next) q)
| step_reject w q size v :
    (forall next, checked_add v size = Some next -> advertised w < next) ->
    step (mkState w (RLoaded size v) q) (mkState w RIdle q)
| step_commit w q size next :
    step (mkState w (RChecked size (received w) next) q)
         (mkState (mkWindow next (consumed w) (advertised w) (window w)) RIdle q)
| step_retry w q size v next : v <> received w ->
    step (mkState w (RChecked size v next) q) (mkState w (RLoaded size (received w)) q)
| step_consume w r q size : 0 <= size <= buffered w ->
    step (mkState w r q)
         (mkState (mkWindow (received w) (wrapping_add (consumed w) size)
                            (advertised w) (window w)) r q)
| step_update w r : step (mkState w r WIdle) (mkState w r (WNext (next_limit w)))
| step_needs w r next : step (mkState w r (WNext next)) (mkState w r (WNext2 next (next_limit w)))
| step_old w r next next2 :
    step (mkState w r (WNext2 next next2)) (mkState w r (WOld next next2 (advertised w)))
| step_decide w r next next2 old :
    (old <? next2) && ((div_ceil (window w) 2 <=? next2 - old) || (received w =? old)
                       || (next2 =? VarInt.MAX)) = true ->
    step (mkState w r (WOld next next2 old)) (mkState w r (WStore next))
| step_skip w r next next2 old :
    (old <? next2) && ((div_ceil (window w) 2 <=? next2 - old) || (received w =? old)
                       || (next2 =? VarInt.MAX)) = false ->
    step (mkState w r (WOld next next2 old)) (mkState w r WIdle)
| step_store w r next :
    step (mkState w r (WStore next))
         (mkState (mkWindow (received w) (consumed w) next (window w)) r WIdle).

Inductive reachable (n : Z) : state -> Prop :=
| reach_new : reachable n (mkState (new n) RIdle WIdle)
| reach_step s s' : reachable n s -> step s s' -> reachable n s'.

(** What a task knows at each program point, and keeps knowing while others run. *)
Definition reader_ok (w : ReceiveWindow) (r : reader_pc) : Prop :=
  match r with
  | RIdle => True
  | RLoaded size v => 0 <= size /\ 0 <= v <= received w
  | RChecked size v next => 0 <= size /\ v <= next /\ 0 <= v <= received w /\ next <= advertised w
  end.
Definition writer_ok (w : ReceiveWindow) (q : writer_pc) : Prop :=
  match q with
  | WIdle => True
  | WNext next | WNext2 next _ | WOld next _ _ | WStore next =>
      advertised w <= next <= next_limit w
  end.
Definition ok_state (s : state) : Prop :=
  inv (win s) /\ reader_ok (win s) (rpc s) /\ writer_ok (win s) (wpc s).

Lemma inv_eq w :
  inv w <-> 0 < window w <= VarInt.MAX /\ 0 <= consumed w <= received w /\
            received w <= advertised w /\
            window w <= advertised w <= Z.min (consumed w + window w) VarInt.MAX.
Proof.
  split.
  - intros H. pose proof (next_limit_le w H). destruct H. lia.
  - intros (?&?&?&?). split; try lia. unfold next_limit, saturating_add, u64_max.
    rewrite VarInt.MAX_eq in *. lia.
Qed.

Lemma step_ok s s' : ok_state s -> step s s' ->
  ok_state s' /\ advertised (win s) <= advertised (win s') /\ window (win s') = window (win s).
Proof.
  intros (Hi & Hr & Hq) Hs. pose proof (next_limit_le _ Hi) as Hl.
  pose proof (proj1 (inv_eq _) Hi) as Hi'. rewrite VarInt.MAX_eq in *.
  assert (Hn : forall w', next_limit w' = Z.min (Z.min (consumed w' + window w') u64_max) VarInt.MAX)
    by done.
  destruct Hs as [| |w q size v Hrej| | |w r q size Hsz| | | | | |]; simpl in *;
    unfold ok_state; simpl; rewrite inv_eq; simpl.
  (* only bytes received so far are consumed: the total does not wrap *)
  6: unfold buffered, wrapping_add in *;
     rewrite as_u64_small by (unfold u64_max; lia).
  2: match goal with H : checked_add _ _ = Some _ |- _ => apply checked_add_Some in H as [-> ?] end.
  all: repeat match goal with
       | r : reader_pc |- _ => destruct r | q : writer_pc |- _ => destruct q end; simpl in *.
  all: rewrite ?Hn in *; simpl in *; rewrite ?VarInt.MAX_eq; unfold u64_max in *;
       split_and!; (done || lia).
Qed.

Lemma reachable_ok n s : 0 < n <= VarInt.MAX -> reachable n s ->
  ok_state s /\ window (win s) = n.
Proof.
  intros Hn. induction 1 as [|s s' _ [IH Hw] Hs].
  - split; [|simpl; apply as_u64_small; unfold u64_max; rewrite VarInt.MAX_eq in Hn; lia].
    split; [by apply inv_new|done].
  - destruct (step_ok s s' IH Hs) as (H1 & _ & H3). split; [done|]. lia.
Qed.

(** C28: the window is safe under every interleaving of the atomic steps of the
    reader, the writer and any number of consumers: the invariant of the
    sequential window holds in every state, no step shrinks the advertised
    limit, and the pending store of a half-finished update already respects
    both. *)
Theorem interleaved_safe (n : Z) (s : state) :
  0 < n <= VarInt.MAX -> reachable n s ->
  inv (win s) /\ buffered (win s) + credit (win s) <= n /\
  (forall s', step s s' -> advertised (win s) <= advertised (win s')) /\
  (forall next, wpc s = WStore next -> advertised (win s) <= next <= VarInt.MAX).
Proof.
  intros Hn Hr. destruct (reachable_ok n s Hn Hr) as [Hok Hw].
  pose proof Hok as (Hi & _ & Hq). pose proof (proj1 (inv_eq _) Hi).
  unfold buffered, credit. split_and!; [done|lia| |].
  - intros s' Hs. apply (step_ok s s' Hok Hs).
  - intros next Hp. rewrite Hp in Hq. simpl in Hq.
    rewrite (next_limit_le _ Hi) in Hq. lia.
Qed.

Lemma interleaved_safe_witness :
  let w := mkWindow 32 16 32 32 in
  let s := mkState w RIdle (WStore 48) in
  inv (win s) /\ buffered (win s) + credit (win s) <= 32 /\
  (forall s', step s s' -> advertised (win s) <= advertised (win s')) /\
  (forall next, wpc s = WStore next -> advertised (win s) <= next <= VarInt.MAX).
Proof.
  intros w s. apply (interleaved_safe 32 s);
    [vm_compute; split; [reflexivity|discriminate]|].
  eapply reach_step; [|apply (step_decide w RIdle 48 48 32); reflexivity].
  eapply reach_step; [|apply (step_old w RIdle 48 48)].
  eapply reach_step; [|apply (step_needs w RIdle 48)].
  eapply reach_step; [|apply (step_update w RIdle)].
  eapply reach_step; [|apply (step_consume (mkWindow 32 0 32 32) RIdle WIdle 16);
                       vm_compute; split; discriminate].
  eapply reach_step; [|apply (step_commit (mkWindow 0 0 32 32) WIdle 32 32)].
  eapply reach_step; [|apply (step_check (mkWindow 0 0 32 32) WIdle 32 0 32);
                       vm_compute; (reflexivity || discriminate)].
  eapply reach_step; [|apply (step_receive (mkWindow 0 0 32 32) WIdle 32);
                       vm_compute; split; discriminate].
  apply reach_new.
Defined.

End Interleaved.
