(* ===== verification/Tokio.v ===== *)
(** The synchronisation primitives of the [tokio] crate that the runtime is built on.
    The crate is not part of the repository: its counting semaphore is a class of
    operations, and the documented behaviour is a class of laws. *)

From S2P Require Import Prelude.

Class Tokio := {
  (** [Semaphore] and [OwnedSemaphorePermit] *)
  Sem : Type;
  Permit : Type;
  (** [Semaphore::MAX_PERMITS] *)
  MAX_PERMITS : Z;
  sem_new : Z -> Sem;
  available_permits : Sem -> Z;
  is_closed : Sem -> bool;
  sem_close : Sem -> Sem;
  (** [try_acquire_many_owned]; [None] when closed or short of permits *)
  try_acquire_many : Z -> Sem -> option (Permit * Sem);
  num_permits : Permit -> Z;
  (** [OwnedSemaphorePermit::split]: what is left and what was split off *)
  permit_split : Z -> Permit -> option (Permit * Permit);
  permit_merge : Permit -> Permit -> Permit;
  (** dropping a permit gives it back to its semaphore *)
  permit_drop : Permit -> Sem -> Sem
}.

Class TokioLaws (TK : Tokio) : Prop := {
  max_permits_usize : 0 < MAX_PERMITS <= usize_max;
  new_available : forall n, available_permits (sem_new n) = n;
  new_open : forall n, is_closed (sem_new n) = false;
  close_available : forall s, available_permits (sem_close s) = available_permits s;
  close_closed : forall s, is_closed (sem_close s) = true;
  acquire_some : forall n s p s', try_acquire_many n s = Some (p, s') ->
    is_closed s = false /\ is_closed s' = false /\ n <= available_permits s /\
    num_permits p = n /\ available_permits s' = available_permits s - n;
  acquire_ok : forall n s, is_closed s = false -> 0 <= n <= available_permits s ->
    is_Some (try_acquire_many n s);
  split_some : forall n p q r, permit_split n p = Some (q, r) ->
    num_permits r = n /\ num_permits q = num_permits p - n;
  split_ok : forall n p, 0 <= n <= num_permits p -> is_Some (permit_split n p);
  merge_num : forall p q, num_permits (permit_merge p q) = num_permits p + num_permits q;
  drop_available : forall p s,
    available_permits (permit_drop p s) = available_permits s + num_permits p;
  drop_closed : forall p s, is_closed (permit_drop p s) = is_closed s
}.

(** The permits behind an [Option<OwnedSemaphorePermit>]. *)
Definition permits `{Tokio} (o : option Permit) : Z := match o with Some p => num_permits p | None => 0 end.

(** [acquire_many_owned(n).await] polled once. *)
Inductive Poll (A : Type) := Ready (a : A) | Pending.
Arguments Ready {A} a.
Arguments Pending {A}.

Inductive Acquired `{Tokio} :=
| AClosed
| AWait
| AGot (p : Permit) (s : Sem).

Definition acquire_many `{Tokio} (n : Z) (s : Sem) : Acquired :=
  if is_closed s then AClosed
  else match try_acquire_many n s with Some (p, s') => AGot p s' | None => AWait end.

(** A counting semaphore: the permits left and whether it is closed. *)
Definition counting : Tokio := {|
  Sem := Z * bool;
  Permit := Z;
  MAX_PERMITS := Z.shiftr usize_max 3;
  sem_new n := (n, false);
  available_permits := fst;
  is_closed := snd;
  sem_close s := (s.1, true);
  try_acquire_many n s :=
    if s.2 then None else if n <=? s.1 then Some (n, (s.1 - n, s.2)) else None;
  num_permits p := p;
  permit_split n p := if n <=? p then Some (p - n, n) else None;
  permit_merge := Z.add;
  permit_drop p s := (s.1 + p, s.2)
|}.

Lemma counting_laws : TokioLaws counting.
Proof.
  split; simpl; try done.
  - intros n [a []] p s'; simpl; [done|]. destruct (Z.leb_spec n a); [|done].
    intros [= <- <-]. simpl. lia.
  - intros n [a []]; simpl; [done|]. intros _ Hn. by rewrite (proj2 (Z.leb_le _ _)) by lia.
  - intros n p q r. destruct (Z.leb_spec n p); [|done]. intros [= <- <-]. lia.
  - intros n p Hn. by rewrite (proj2 (Z.leb_le _ _)) by lia.
Qed.
