(* ===== verification/ConnState.v ===== *)
(** The data of [muxtls/src/connection.rs]: the shared state of a connection, the state
    of a stream, inbound and outbound chunks and the writer's queues.

    [Arc<StreamState>] is shared between the stream map, the accept queue, the
    queued chunks and the application's handles: stream states live in a heap and are
    referred to by location.  The [Mutex]es and atomics of the source are plain
    fields: an operation of the model is one atomic step.  A [Notify] is the log of
    the notifications issued. *)

From S2P Require Import Prelude Varint Frames Errors Limits Flow Tokio.

#[local] Open Scope Z_scope.

Abbreviation loc := nat.

(** [enum ReceiveBuffer]: a whole frame's payload, or a page of small ones. *)
Inductive ReceiveBuffer := Shared (data : bytes) | Page (data : bytes).

Module ReceiveBuffer.
(** [impl Deref] *)
Definition deref (b : ReceiveBuffer) : bytes :=
  match b with Shared data | Page data => data end.
Definition default : ReceiveBuffer := Shared [].
(** [Buf::advance] panics past the end. *)
Definition advance (count : Z) (b : ReceiveBuffer) : option ReceiveBuffer :=
  if count <=? zlen (deref b) then
    Some (match b with
          | Shared data => Shared (drop (Z.to_nat count) data)
          | Page data => Page (drop (Z.to_nat count) data)
          end)
  else None.
Definition into_bytes (b : ReceiveBuffer) : bytes := deref b.
End ReceiveBuffer.

(** The [Notify] objects. *)
Inductive Wake :=
| WakeWriter
| WakeIncoming
| WakeClose
| WakeDrop
| WakeInbound (l : loc)
| WakeSend (l : loc).

(** [struct ConnectionStats] *)
Record ConnectionStats := mkStats {
  opened_streams : Z;
  frames_sent : Z;
  frames_received : Z;
  bytes_sent : Z;
  bytes_received : Z
}.

#[global] Instance eta_ConnectionStats : Settable ConnectionStats := fun x =>
  mkStats (opened_streams x) (frames_sent x) (frames_received x) (bytes_sent x)
          (bytes_received x).

Section state.
Context {TK : Tokio}.

(** [struct InboundChunk].  [stream_window] is the window of the stream state at
    [owner]; [connection_window] and [writer] are the connection's. *)
Record InboundChunk := mkInboundChunk {
  data : ReceiveBuffer;
  owner : loc;
  in_conn_permit : option Permit;
  in_stream_permit : option Permit
}.

(** [struct InboundState] *)
Record InboundState := mkInboundState {
  chunks : list InboundChunk;
  reset_error : option Z;
  fin_received : bool;
  connection_closed : bool
}.

(** [struct StreamState].  [send_locked] is whether a send future holds
    [send_lock]. *)
Record StreamState := mkStreamState {
  inbound : InboundState;
  st_window : ReceiveWindow;
  st_peer_limit : Z;
  st_sent : Z;
  inbound_stream_bytes : Sem;
  outbound_stream_bytes : Sem;
  outbound_stream_frames : Sem;
  send_locked : bool;
  send_terminal : bool;
  send_dropped : bool;
  recv_dropped : bool;
  send_complete : bool;
  send_dispatched : bool;
  reset_queued : bool;
  recv_terminal : bool;
  recv_discarded : bool;
  send_handles : Z;
  send_mode : Z;
  recv_mode : Z;
  recv_handles : Z;
  open_permit : option Permit
}.

(** [struct OutboundChunk]; [oc_state] is its [Arc<StreamState>]. *)
Record OutboundChunk := mkOutboundChunk {
  oc_state : loc;
  oc_frame_permit : Permit;
  oc_stream_frame_permit : Permit;
  oc_stream_id : VarInt;
  oc_payload : bytes;
  oc_fin : bool;
  oc_conn_permit : option Permit;
  oc_stream_permit : option Permit
}.

(** [struct WriterQueues] *)
Record WriterQueues := mkQueues {
  by_stream : gmap Z (list OutboundChunk);
  ready : list Z;
  control : list Frame;
  close_frame : option Frame;
  graceful_close : bool;
  closing : bool;
  peer_settings : bool;
  peer_max_frame : Z;
  peer_initial_stream_limit : Z;
  peer_limit : Z;
  sent : Z;
  control_turn : bool;
  receive_windows : gmap Z loc
}.

(** [struct ConnectionShared], with the [WriterState] it owns and the heap. *)
Record ConnectionShared := mkShared {
  limits : Limits;
  local_parity : Z;
  next_local_stream_id : Z;
  next_remote_stream_id : Z;
  streams : gmap Z loc;
  incoming_streams : list (Z * loc);
  writer_max_control_frames : Z;
  queues : WriterQueues;
  closed : bool;
  terminated : bool;
  open_streams : Sem;
  inbound_conn_bytes : Sem;
  outbound_conn_bytes : Sem;
  outbound_frames : Sem;
  stats : ConnectionStats;
  connection_handles : Z;
  receive_window : ReceiveWindow;
  joined : bool;
  cleanup_started : bool;
  heap : gmap loc StreamState;
  next_loc : loc;
  wakes : list Wake
}.

#[global] Instance eta_InboundChunk : Settable InboundChunk := fun x =>
  mkInboundChunk (data x) (owner x) (in_conn_permit x) (in_stream_permit x).
#[global] Instance eta_InboundState : Settable InboundState := fun x =>
  mkInboundState (chunks x) (reset_error x) (fin_received x) (connection_closed x).
#[global] Instance eta_StreamState : Settable StreamState := fun x =>
  mkStreamState (inbound x) (st_window x) (st_peer_limit x) (st_sent x)
    (inbound_stream_bytes x) (outbound_stream_bytes x) (outbound_stream_frames x)
    (send_locked x) (send_terminal x) (send_dropped x) (recv_dropped x)
    (send_complete x) (send_dispatched x) (reset_queued x) (recv_terminal x)
    (recv_discarded x) (send_handles x) (send_mode x) (recv_mode x) (recv_handles x)
    (open_permit x).
#[global] Instance eta_OutboundChunk : Settable OutboundChunk := fun x =>
  mkOutboundChunk (oc_state x) (oc_frame_permit x) (oc_stream_frame_permit x)
    (oc_stream_id x) (oc_payload x) (oc_fin x) (oc_conn_permit x) (oc_stream_permit x).
#[global] Instance eta_WriterQueues : Settable WriterQueues := fun x =>
  mkQueues (by_stream x) (ready x) (control x) (close_frame x) (graceful_close x)
    (closing x) (peer_settings x) (peer_max_frame x) (peer_initial_stream_limit x)
    (peer_limit x) (sent x) (control_turn x) (receive_windows x).
#[global] Instance eta_ConnectionShared : Settable ConnectionShared := fun x =>
  mkShared (limits x) (local_parity x) (next_local_stream_id x) (next_remote_stream_id x)
    (streams x) (incoming_streams x) (writer_max_control_frames x) (queues x) (closed x)
    (terminated x) (open_streams x) (inbound_conn_bytes x) (outbound_conn_bytes x)
    (outbound_frames x) (stats x) (connection_handles x) (receive_window x) (joined x)
    (cleanup_started x) (heap x) (next_loc x) (wakes x).

(** Operations on a connection. *)
Definition Conn : Type -> Type := M ConnectionShared Error.

Definition notify (w : Wake) : Conn unit := modify (fun s => s <| wakes ::= cons w |>).

(** The stream state behind an [Arc]; a dangling location does not occur. *)
Definition get_state (l : loc) : Conn StreamState := fun s =>
  match heap s !! l with Some st => (Ok st, s) | None => (Panic, s) end.
Definition upd_state (l : loc) (f : StreamState -> StreamState) : Conn unit :=
  modify (fun s => s <| heap ::= alter f l |>).
Definition get_queues : Conn WriterQueues := gets queues.
Definition upd_queues (f : WriterQueues -> WriterQueues) : Conn unit :=
  modify (fun s => s <| queues ::= f |>).

(** [WriterState::new]: the queues of a new connection. *)
Definition queues_new : WriterQueues := {|
  by_stream := ∅;
  ready := [];
  control := [];
  close_frame := None;
  graceful_close := false;
  closing := false;
  peer_settings := false;
  peer_max_frame := Limits.MIN_FRAME_SIZE;
  peer_initial_stream_limit := 0;
  peer_limit := 0;
  sent := 0;
  control_turn := true;
  receive_windows := ∅
|}.

(** [StreamState::new] *)
Definition stream_state_new (max_inbound_stream_bytes max_outbound_stream_bytes : Z)
    (permit : Permit) (max_outbound_frames : Z) : StreamState := {|
  inbound := mkInboundState [] None false false;
  st_window := ReceiveWindow.new max_inbound_stream_bytes;
  st_peer_limit := 0;
  st_sent := 0;
  inbound_stream_bytes := sem_new max_inbound_stream_bytes;
  outbound_stream_bytes := sem_new max_outbound_stream_bytes;
  outbound_stream_frames := sem_new max_outbound_frames;
  send_locked := false;
  send_terminal := false;
  send_dropped := false;
  recv_dropped := false;
  send_complete := false;
  send_dispatched := false;
  reset_queued := false;
  recv_terminal := false;
  recv_discarded := false;
  send_handles := 0;
  send_mode := 0;
  recv_mode := 0;
  recv_handles := 0;
  open_permit := Some permit
|}.

(** The part of [Connection::new] that builds the shared state: SETTINGS is the
    first control frame. *)
Definition connection_new (l : Limits) (is_client : bool) : Result Error ConnectionShared :=
  _ ← Limits.validate MAX_PERMITS l;
  max_data ← expect (ok (VarInt.from_u64 (as_u64 (max_inbound_connection_bytes l))));
  max_stream_data ← expect (ok (VarInt.from_u64 (as_u64 (max_inbound_stream_bytes l))));
  max_frame ← expect (ok (VarInt.from_u64 (as_u64 (max_frame_size l))));
  let parity := if is_client then 0 else 1 in
  Ok {|
    limits := l;
    local_parity := parity;
    next_local_stream_id := parity;
    next_remote_stream_id := 1 - parity;
    streams := ∅;
    incoming_streams := [];
    writer_max_control_frames := max_control_frames l;
    queues := queues_new <| control := [Settings max_data max_stream_data max_frame] |>;
    closed := false;
    terminated := false;
    open_streams := sem_new (max_open_streams l);
    inbound_conn_bytes := sem_new (max_inbound_connection_bytes l);
    outbound_conn_bytes := sem_new (max_outbound_connection_bytes l);
    outbound_frames := sem_new (max_queued_outbound_frames l);
    stats := mkStats 0 0 0 0 0;
    connection_handles := 1;
    receive_window := ReceiveWindow.new (max_inbound_connection_bytes l);
    joined := false;
    cleanup_started := false;
    heap := ∅;
    next_loc := 0%nat;
    wakes := []
  |}.

End state.
