(* ===== verification/Inbound.v ===== *)
(** The receiving half of [muxtls/src/connection.rs]: inbound chunks and the permits and
    window bytes they hold, buffering of received payloads, and reading. *)

From S2P Require Import Prelude Varint Frames Errors Limits Flow Tokio ConnState.

#[local] Open Scope Z_scope.

Section inbound.
Context {TK : Tokio}.

(** ** Windows *)

Definition conn_window_receive (size : Z) : Conn unit := fun s =>
  let '(r, w) := ReceiveWindow.receive (receive_window s) size in
  (r, s <| receive_window := w |>).
Definition conn_window_consume (size : Z) : Conn bool := fun s =>
  let '(b, w) := ReceiveWindow.consume (receive_window s) size in
  (Ok b, s <| receive_window := w |>).
Definition stream_window_receive (l : loc) (size : Z) : Conn unit :=
  st ← get_state l;
  let '(r, w) := ReceiveWindow.receive (st_window st) size in
  _ ← upd_state l (fun st => st <| st_window := w |>);
  lift r.
Definition stream_window_consume (l : loc) (size : Z) : Conn bool :=
  st ← get_state l;
  let '(b, w) := ReceiveWindow.consume (st_window st) size in
  _ ← upd_state l (fun st => st <| st_window := w |>);
  mret b.

(** ** Permits *)

Definition give_back_conn (p : Permit) : Conn unit :=
  modify (fun s => s <| inbound_conn_bytes ::= permit_drop p |>).
Definition give_back_stream (l : loc) (p : Permit) : Conn unit :=
  upd_state l (fun st => st <| inbound_stream_bytes ::= permit_drop p |>).
Definition when_some {A} (o : option A) (f : A -> Conn unit) : Conn unit :=
  match o with Some a => f a | None => mret tt end.

(** ** [impl InboundChunk] *)

Definition chunk_consume (c : InboundChunk) (count : Z) : Conn InboundChunk :=
  c ← (match in_conn_permit c ≫= permit_split count with
       | Some (rest, off) =>
           _ ← give_back_conn off;
           mret (c <| in_conn_permit := Some rest |>)
       | None => mret c
       end);
  c ← (match in_stream_permit c ≫= permit_split count with
       | Some (rest, off) =>
           _ ← give_back_stream (owner c) off;
           mret (c <| in_stream_permit := Some rest |>)
       | None => mret c
       end);
  conn_update ← conn_window_consume count;
  stream_update ← stream_window_consume (owner c) count;
  _ ← when (conn_update || stream_update) (notify WakeWriter);
  mret c.

(** [Drop for InboundChunk], then the drop of its fields. *)
Definition chunk_drop (c : InboundChunk) : Conn unit :=
  c ← chunk_consume c (zlen (ReceiveBuffer.deref (data c)));
  _ ← when_some (in_conn_permit c) give_back_conn;
  when_some (in_stream_permit c) (give_back_stream (owner c)).

Definition chunk_into_bytes (c : InboundChunk) : Conn bytes :=
  let count := zlen (ReceiveBuffer.deref (data c)) in
  c ← chunk_consume c count;
  let taken := data c in
  _ ← chunk_drop (c <| data := ReceiveBuffer.default |>);
  mret (ReceiveBuffer.into_bytes taken).

Fixpoint drop_chunks (cs : list InboundChunk) : Conn unit :=
  match cs with
  | [] => mret tt
  | c :: cs => _ ← chunk_drop c; drop_chunks cs
  end.

(** ** [impl StreamState] *)

Definition upd_inbound (l : loc) (f : InboundState -> InboundState) : Conn unit :=
  upd_state l (fun st => st <| inbound ::= f |>).

(** [try_acquire_many_owned(payload_len as u32)] on the inbound budgets; an empty
    payload takes no permit. *)
Definition take_conn_permit (payload_len : Z) : Conn (option Permit) := fun s =>
  if payload_len =? 0 then (Ok None, s)
  else match try_acquire_many (as_u32 payload_len) (inbound_conn_bytes s) with
  | Some (p, sem) => (Ok (Some p), s <| inbound_conn_bytes := sem |>)
  | None => (Err (LimitExceeded "maximum buffered inbound connection bytes reached"), s)
  end.
(** On failure the connection permit, a local of the caller, is dropped. *)
Definition take_stream_permit (l : loc) (payload_len : Z) (conn_permit : option Permit) :
    Conn (option Permit) :=
  if payload_len =? 0 then mret None
  else
    st ← get_state l;
    match try_acquire_many (as_u32 payload_len) (inbound_stream_bytes st) with
    | Some (p, sem) =>
        _ ← upd_state l (fun st => st <| inbound_stream_bytes := sem |>);
        mret (Some p)
    | None =>
        _ ← when_some conn_permit give_back_conn;
        fail (LimitExceeded "maximum buffered inbound stream bytes reached")
    end.

(** Discarded payload only returns connection credit. *)
Definition discard_payload (payload : bytes) : Conn unit :=
  _ ← conn_window_consume (zlen payload);
  notify WakeWriter.

(** The page size of a connection: small frames share a page. *)
Definition page_size (l : Limits) : Z := Z.min (max_inbound_stream_bytes l) (16 * 1024).

(** Where a payload goes: at the end of the tail page, or in a new chunk. *)
Definition append_payload (page : Z) (l : loc) (cs : list InboundChunk) (payload : bytes)
    (conn_permit stream_permit : option Permit) : Result Error (list InboundChunk) :=
  let new :=
    let d := if zlen payload <? div_ceil page 2 then Page payload else Shared payload in
    cs ++ [mkInboundChunk d l conn_permit stream_permit] in
  match last cs with
  | Some tail =>
      match data tail with
      | Page p =>
          if zlen p + zlen payload <=? page then
            tail_conn ← expect (in_conn_permit tail);
            conn ← expect conn_permit;
            tail_stream ← expect (in_stream_permit tail);
            stream ← expect stream_permit;
            Ok (take (length cs - 1)%nat cs ++
                [tail <| data := Page (p ++ payload) |>
                      <| in_conn_permit := Some (permit_merge tail_conn conn) |>
                      <| in_stream_permit := Some (permit_merge tail_stream stream) |>])
          else Ok new
      | Shared _ => Ok new
      end
  | None => Ok new
  end.

(** [StreamState::push_inbound] *)
Definition push_inbound (l : loc) (payload : bytes) : Conn unit :=
  st ← get_state l;
  if recv_discarded st then discard_payload payload
  else
    conn_permit ← take_conn_permit (zlen payload);
    stream_permit ← take_stream_permit l (zlen payload) conn_permit;
    st ← get_state l;
    let give_back :=
      _ ← when_some conn_permit give_back_conn;
      when_some stream_permit (give_back_stream l) in
    if recv_discarded st then _ ← give_back; discard_payload payload
    else if fin_received (inbound st) then
      _ ← give_back; fail (Protocol "received stream data after FIN")
    else
      page ← gets (fun s => page_size (limits s));
      cs ← lift (append_payload page l (chunks (inbound st)) payload conn_permit stream_permit);
      _ ← upd_inbound l (fun i => i <| chunks := cs |>);
      notify (WakeInbound l).

Definition mark_reset (l : loc) (error_code : Z) : Conn unit :=
  st ← get_state l;
  _ ← upd_inbound l (fun i => i <| reset_error := Some error_code |> <| chunks := [] |>);
  _ ← drop_chunks (chunks (inbound st));
  notify (WakeInbound l).

Definition mark_recv_terminal (l : loc) : Conn unit :=
  _ ← upd_inbound l (fun i => i <| fin_received := true |>);
  _ ← upd_state l (fun st => st <| recv_terminal := true |>);
  notify (WakeInbound l).

Definition mark_connection_closed (l : loc) : Conn unit :=
  _ ← upd_inbound l (fun i => i <| connection_closed := true |>);
  _ ← upd_state l (fun st =>
        st <| inbound_stream_bytes ::= sem_close |>
           <| outbound_stream_bytes ::= sem_close |>
           <| outbound_stream_frames ::= sem_close |>);
  notify (WakeInbound l).

(** [*permit = None] drops the admission permit. *)
Definition release_open_permit (l : loc) : Conn unit :=
  st ← get_state l;
  _ ← when_some (open_permit st)
        (fun p => modify (fun s => s <| open_streams ::= permit_drop p |>));
  upd_state l (fun st => st <| open_permit := None |>).

Definition discard_inbound (l : loc) : Conn unit :=
  _ ← upd_state l (fun st => st <| recv_discarded := true |>);
  st ← get_state l;
  _ ← upd_inbound l (fun i => i <| chunks := [] |>);
  drop_chunks (chunks (inbound st)).

(** [StreamState::read_chunk] polled once; [Pending] waits on [inbound_notify]. *)
Definition read_chunk (l : loc) : Conn (Poll (option InboundChunk)) :=
  st ← get_state l;
  match reset_error (inbound st) with
  | Some error_code => fail (StreamReset error_code)
  | None =>
      match chunks (inbound st) with
      | c :: cs =>
          _ ← upd_inbound l (fun i => i <| chunks := cs |>);
          mret (Ready (Some c))
      | [] =>
          if fin_received (inbound st) || recv_terminal st then
            _ ← upd_inbound l (fun i => i <| fin_received := true |>);
            mret (Ready None)
          else if connection_closed (inbound st) then fail ConnectionClosed
          else mret Pending
      end
  end.

End inbound.
