(* ===== verification/InboundSpec.v ===== *)
(** The receiving side: every byte that was accepted within the advertised credit is
    backed by a permit and is given back exactly once, so that buffer space never runs
    out before credit does; and a stream delivers the bytes it received, in order. *)

From S2P Require Import Prelude Hoare Varint Frames Errors Limits Flow Tokio ConnState Inbound.

#[local] Open Scope Z_scope.

Section inbound.
Context {TK : Tokio} {TKL : TokioLaws TK}.
Implicit Types (s : ConnectionShared) (c : InboundChunk) (st : StreamState) (hs : list InboundChunk).

(** ** Accounting

    [hs] are the chunks that are not in a queue: the ones an application reads from,
    and the one an operation is working on. *)

Definition held c : Z := permits (in_conn_permit c).
Definition len c : Z := zlen (ReceiveBuffer.deref (data c)).

(** Both permits are there and count the same bytes. *)
Record chunk_held c : Prop := {
  ch_conn : is_Some (in_conn_permit c);
  ch_stream : is_Some (in_stream_permit c);
  ch_same : permits (in_stream_permit c) = held c;
  ch_len : 0 <= held c
}.
(** A chunk at rest holds a permit for each of its bytes. *)
Record chunk_full (l : loc) c : Prop := {
  cf_owner : owner c = l;
  cf_held : chunk_held c;
  cf_len : held c = len c
}.

Definition queued st : Z := zsum held (chunks (inbound st)).
Definition in_hand (l : loc) hs : Z := zsum (fun c => if decide (owner c = l) then held c else 0) hs.

(** Bytes that were accepted and are on their way to a queue: how many, and of which stream. *)
Definition idle : loc * Z := (0%nat, 0).
Definition in_flight (fl : loc * Z) (l : loc) : Z := if decide (fl.1 = l) then fl.2 else 0.

(** A stream that discards its input no longer returns credit. *)
Definition covers (discarded : bool) (total buffered : Z) : Prop :=
  if discarded then total <= buffered else total = buffered.

Record stream_acct (fl : loc * Z) hs (l : loc) st : Prop := {
  sa_window : ReceiveWindow.inv (st_window st);
  sa_small : window (st_window st) <= u32_max;
  sa_chunks : Forall (chunk_full l) (chunks (inbound st));
  sa_bytes : covers (recv_discarded st) (queued st + in_hand l hs + in_flight fl l)
                    (ReceiveWindow.buffered (st_window st));
  sa_permits : available_permits (inbound_stream_bytes st) + queued st + in_hand l hs
               = window (st_window st)
}.

Record acct (fl : loc * Z) s hs : Prop := {
  ac_window : ReceiveWindow.inv (receive_window s);
  ac_small : window (receive_window s) <= u32_max;
  ac_streams : forall l st, heap s !! l = Some st -> stream_acct fl hs l st;
  ac_hands : Forall (fun c => is_Some (heap s !! owner c) /\ chunk_held c) hs;
  ac_flight : 0 <= fl.2;
  ac_bytes : msum queued (heap s) + zsum held hs + fl.2 = ReceiveWindow.buffered (receive_window s);
  ac_permits : available_permits (inbound_conn_bytes s) + msum queued (heap s) + zsum held hs
               = window (receive_window s)
}.

Lemma covers_le b x y : covers b x y -> x <= y.
Proof. destruct b; simpl; lia. Qed.
Lemma covers_shift b x y x' y' : covers b x y -> x' - y' = x - y -> covers b x' y'.
Proof. destruct b; simpl; lia. Qed.
Lemma covers_more b b' x y : covers b x y -> (b = true -> b' = true) -> covers b' x y.
Proof. destruct b, b'; simpl; intros; (lia || naive_solver). Qed.

Lemma in_flight_idle l : in_flight idle l = 0.
Proof. unfold in_flight. by case_decide. Qed.
Lemma in_flight_nonneg fl l : 0 <= fl.2 -> 0 <= in_flight fl l.
Proof. unfold in_flight. case_decide; lia. Qed.

(** The window after [n] bytes were given back. *)
Definition used (n : Z) (w : ReceiveWindow) : ReceiveWindow :=
  mkWindow (received w) (consumed w + n) (advertised w) (window w).

Lemma used_inv w n : ReceiveWindow.inv w -> 0 <= n <= ReceiveWindow.buffered w ->
  ReceiveWindow.inv (used n w) /\
  ReceiveWindow.buffered (used n w) = ReceiveWindow.buffered w - n.
Proof.
  intros Hi Hn. split.
  - pose proof (ReceiveWindow.inv_op (ReceiveWindow.OConsume n) w Hi Hn) as Hi'. simpl in Hi'.
    by rewrite ReceiveWindow.consume_eq in Hi'.
  - unfold ReceiveWindow.buffered, used. simpl. lia.
Qed.

(** ** What giving bytes back leaves alone

    A state without what it changes: the bytes used of each window, the number of
    permits, and the notifications. *)

Definition erase_sem (m : Sem) : Sem := if is_closed m then sem_close (sem_new 0) else sem_new 0.
Definition erase_window (w : ReceiveWindow) : ReceiveWindow :=
  mkWindow (received w) 0 (advertised w) (window w).
Definition erase_stream st : StreamState :=
  st <| st_window ::= erase_window |> <| inbound_stream_bytes ::= erase_sem |>.
Definition erase s : ConnectionShared :=
  s <| heap ::= fmap erase_stream |> <| receive_window ::= erase_window |>
    <| inbound_conn_bytes ::= erase_sem |> <| wakes := [] |>.

Lemma erase_drop p m : erase_sem (permit_drop p m) = erase_sem m.
Proof. unfold erase_sem. by rewrite drop_closed. Qed.

Lemma erase_closed m m' : erase_sem m = erase_sem m' -> is_closed m = is_closed m'.
Proof.
  unfold erase_sem. intros H%(f_equal is_closed).
  destruct (is_closed m), (is_closed m'); rewrite ?close_closed, ?new_open in H; done.
Qed.

(** Looking a stream up in a state that agrees up to credit. *)
Lemma erase_lookup s s' l st : erase s' = erase s -> heap s !! l = Some st ->
  exists st', heap s' !! l = Some st' /\ erase_stream st' = erase_stream st.
Proof.
  intros H%(f_equal heap) Hl. simpl in H. apply (f_equal (lookup l)) in H.
  rewrite !lookup_fmap, Hl in H. destruct (heap s' !! l) as [st'|]; [|done].
  exists st'. split; [done|]. by apply (inj Some) in H.
Qed.

(** ** Giving bytes back *)

Lemma split_permit n p : 0 <= n <= num_permits p ->
  exists q r, permit_split n p = Some (q, r) /\ num_permits r = n /\ num_permits q = num_permits p - n.
Proof.
  intros Hn. destruct (split_ok n p Hn) as [[q r] Hs]. exists q, r. split; [done|].
  by apply split_some.
Qed.

(** The state after [n] bytes of stream [l] were given back with both permits. *)
Definition gave_back (l : loc) (n : Z) (r r' : Permit) s : ConnectionShared :=
  s <| inbound_conn_bytes ::= permit_drop r |>
    <| receive_window ::= used n |>
    <| heap ::= alter (fun st => st <| inbound_stream_bytes ::= permit_drop r' |>
                                    <| st_window ::= used n |>) l |>.

Lemma wp_get_state l st s (Q : StreamState -> ConnectionShared -> Prop) (R : Error -> ConnectionShared -> Prop) :
  heap s !! l = Some st -> Q st s -> wp (get_state l) s Q R.
Proof. intros H HQ. unfold wp, get_state. by rewrite H. Qed.

Lemma wp_conn_window_consume n s (Q : bool -> ConnectionShared -> Prop) (R : Error -> ConnectionShared -> Prop) :
  ReceiveWindow.inv (receive_window s) -> 0 <= n <= ReceiveWindow.buffered (receive_window s) ->
  (forall b, Q b (s <| receive_window ::= used n |>)) -> wp (conn_window_consume n) s Q R.
Proof.
  intros Hw Hn HQ. unfold wp, conn_window_consume.
  rewrite (surjective_pairing (ReceiveWindow.consume _ _)), ReceiveWindow.consume_eq by done. apply HQ.
Qed.

Lemma wp_stream_window_consume l n st s (Q : bool -> ConnectionShared -> Prop) (R : Error -> ConnectionShared -> Prop) :
  heap s !! l = Some st -> ReceiveWindow.inv (st_window st) ->
  0 <= n <= ReceiveWindow.buffered (st_window st) ->
  (forall b, Q b (s <| heap ::= alter (fun st => st <| st_window ::= used n |>) l |>)) ->
  wp (stream_window_consume l n) s Q R.
Proof.
  intros Hst Hw Hn HQ. unfold stream_window_consume. wp_step. apply (wp_get_state l st); [done|].
  rewrite (surjective_pairing (ReceiveWindow.consume _ _)), ReceiveWindow.consume_eq by done.
  unfold upd_state. wp_steps.
  replace (s <| heap ::= _ |>) with (s <| heap ::= alter (fun st => st <| st_window ::= used n |>) l |>);
    [apply HQ|].
  simpl. f_equal. apply alter_ext_eq. intros st' ?. simplify_eq. done.
Qed.

Lemma wp_chunk_consume c n s (Q : InboundChunk -> ConnectionShared -> Prop) (R : Error -> ConnectionShared -> Prop) :
  ReceiveWindow.inv (receive_window s) ->
  (exists st, heap s !! owner c = Some st /\ ReceiveWindow.inv (st_window st) /\
              n <= ReceiveWindow.buffered (st_window st)) ->
  n <= ReceiveWindow.buffered (receive_window s) -> chunk_held c -> 0 <= n <= held c ->
  (forall q q' r r' ws, num_permits r = n -> num_permits r' = n ->
     num_permits q = held c - n -> num_permits q' = held c - n ->
     Q (c <| in_conn_permit := Some q |> <| in_stream_permit := Some q' |>)
       ((gave_back (owner c) n r r' s) <| wakes := ws |>)) ->
  wp (chunk_consume c n) s Q R.
Proof.
  intros Hw (st & Hst & Hsw & Hsb) Hcb Hc Hn HQ. destruct Hc as [[p Hp] [p' Hp'] Hsame _].
  unfold held in *. rewrite Hp, Hp' in *. cbn [permits] in *.
  destruct (split_permit n p) as (q & r & Hs & Hr & Hq); [lia|].
  destruct (split_permit n p') as (q' & r' & Hs' & Hr' & Hq'); [lia|].
  unfold chunk_consume. rewrite Hp. cbn [mbind option_bind]. rewrite Hs. wp_step.
  unfold give_back_conn. wp_step. wp_step. wp_step.
  replace (in_stream_permit (c <| in_conn_permit := Some q |>)) with (Some p') by done.
  cbn [mbind option_bind]. rewrite Hs'.
  wp_step. unfold give_back_stream, upd_state. wp_step. wp_step. wp_step. wp_step.
  apply wp_conn_window_consume; [done|split; [lia|done]|]. intros b. wp_step.
  apply (wp_stream_window_consume _ _ (st <| inbound_stream_bytes ::= permit_drop r' |>)).
  { simpl. by rewrite lookup_alter_eq, Hst. }
  { done. }
  { split; [lia|done]. }
  intros b'. match goal with |- wp _ ?x _ _ => set (s' := x) end.
  assert (Hfin : forall ws, Q (c <| in_conn_permit := Some q |> <| in_stream_permit := Some q' |>)
    (s' <| wakes := ws |>)).
  { intros ws. specialize (HQ q q' r r' ws Hr Hr' Hq ltac:(lia)). unfold gave_back in HQ.
    simpl in HQ |- *. by erewrite alter_alter_eq by done. }
  clearbody s'. unfold notify. wp_steps; [apply (Hfin (WakeWriter :: wakes s'))|].
  specialize (Hfin (wakes s')). by destruct s'.
Qed.

Lemma erase_gave_back l n r r' s ws : erase ((gave_back l n r r' s) <| wakes := ws |>) = erase s.
Proof.
  unfold erase, gave_back. simpl. rewrite erase_drop, fmap_alter_same; [done|].
  intros st. unfold erase_stream. simpl. by rewrite erase_drop.
Qed.

Lemma in_hand_cons l c hs : in_hand l (c :: hs) = (if decide (owner c = l) then held c else 0) + in_hand l hs.
Proof. done. Qed.

Lemma in_hand_nonneg s l hs : Forall (fun c => is_Some (heap s !! owner c) /\ chunk_held c) hs ->
  0 <= in_hand l hs.
Proof.
  intros Hh. apply zsum_nonneg. intros c Hc. rewrite Forall_forall in Hh.
  destruct (Hh c Hc) as [_ []]. case_decide; lia.
Qed.

Lemma queued_nonneg l st : Forall (chunk_full l) (chunks (inbound st)) -> 0 <= queued st.
Proof.
  intros Hf. apply zsum_nonneg. intros c Hc. rewrite Forall_forall in Hf. by destruct (Hf c Hc) as [_ [] _].
Qed.

(** A heap in which every stream state keeps its queue. *)
Lemma msum_queued_alter (h : gmap loc StreamState) l f :
  (forall st, queued (f st) = queued st) -> msum queued (alter f l h) = msum queued h.
Proof.
  intros Hf. destruct (h !! l) as [st|] eqn:E; [rewrite (msum_alter _ _ _ _ _ E), Hf; lia|].
  rewrite alter_id; [done|]. intros st. by rewrite E.
Qed.

Lemma zsum_held_nonneg s hs : Forall (fun c => is_Some (heap s !! owner c) /\ chunk_held c) hs ->
  0 <= zsum held hs.
Proof.
  intros Hh. apply zsum_nonneg. intros c Hc. rewrite Forall_forall in Hh. by destruct (Hh c Hc) as [_ []].
Qed.

(** A chunk in hand is within the windows of its stream and of the connection. *)
Lemma acct_hand fl s c hs : acct fl s (c :: hs) ->
  chunk_held c /\ held c <= ReceiveWindow.buffered (receive_window s) /\
  exists st, heap s !! owner c = Some st /\ ReceiveWindow.inv (st_window st) /\
             held c <= ReceiveWindow.buffered (st_window st).
Proof.
  intros [Hw _ Hst Hh Hfl Hb _]. pose proof Hh as [[[st Hl] Hc] Hh']%Forall_cons.
  destruct (Hst _ _ Hl) as [? _ Hch Hsb%covers_le _]. pose proof (in_flight_nonneg fl (owner c) Hfl).
  split; [done|].
  assert (0 <= msum queued (heap s)).
  { apply msum_nonneg. intros k st' Hk. destruct (Hst _ _ Hk). by eapply queued_nonneg. }
  pose proof (zsum_held_nonneg s hs Hh'). pose proof (in_hand_nonneg s (owner c) hs Hh').
  pose proof (queued_nonneg _ _ Hch). simpl in Hb. rewrite in_hand_cons, decide_True in Hsb by done.
  split; [lia|]. exists st. split_and!; [done|done|lia].
Qed.

Lemma acct_gave_back fl s c c' n r r' ws hs : acct fl s (c :: hs) -> 0 <= n <= held c ->
  num_permits r = n -> num_permits r' = n ->
  owner c' = owner c -> held c' = held c - n -> chunk_held c' ->
  acct fl ((gave_back (owner c) n r r' s) <| wakes := ws |>) (c' :: hs).
Proof.
  intros Ha Hn Hr Hr' Hown Hheld Hc'.
  destruct (acct_hand _ _ _ _ Ha) as (Hc & Hcb & st0 & Hst0 & Hw0 & Hb0).
  destruct Ha as [Hw Hsm Hst Hh Hfl Hb Hp].
  destruct (used_inv (receive_window s) n Hw ltac:(lia)) as [Hw' Hbuf'].
  split; simpl; rewrite ?Hheld, ?msum_queued_alter, ?drop_available by done; simpl in Hb, Hp; try (done || lia).
  - intros l st Hl. destruct (decide (owner c = l)) as [<-|Hne].
    + rewrite lookup_alter_eq, Hst0 in Hl. simpl in Hl. apply (inj Some) in Hl. subst st.
      destruct (Hst _ _ Hst0) as [Hsw Hss Hsc Hsb Hsp].
      rewrite in_hand_cons, decide_True in Hsb, Hsp by done.
      destruct (used_inv (st_window st0) n Hsw ltac:(lia)) as [Hsw' Hsbuf'].
      split; try done; rewrite in_hand_cons, Hown, decide_True by done; simpl;
        rewrite ?drop_available; unfold queued in *; simpl; [|lia].
      eapply covers_shift; [exact Hsb|]. lia.
    + rewrite lookup_alter_ne in Hl by done. destruct (Hst _ _ Hl) as [? ? ? Hsb Hsp].
      rewrite in_hand_cons, decide_False in Hsb, Hsp by done.
      split; try done; by rewrite in_hand_cons, Hown, decide_False.
  - apply Forall_cons in Hh as [[Hv _] Hh]. constructor.
    + split; [rewrite Hown; by apply alter_is_Some|done].
    + eapply Forall_impl; [exact Hh|]. intros d [? ?]. split; [by apply alter_is_Some|done].
Qed.

(** Using up part of a chunk in hand. *)
Lemma wp_consume_acct fl c n s hs (Q : InboundChunk -> ConnectionShared -> Prop) (R : Error -> ConnectionShared -> Prop) :
  acct fl s (c :: hs) -> 0 <= n <= held c ->
  (forall c' s', acct fl s' (c' :: hs) -> owner c' = owner c -> data c' = data c -> held c' = held c - n ->
     chunk_held c' -> erase s' = erase s -> Q c' s') ->
  wp (chunk_consume c n) s Q R.
Proof.
  intros Ha Hn HQ. destruct (acct_hand _ _ _ _ Ha) as (Hc & Hcb & st & Hst & Hw & Hb).
  apply wp_chunk_consume; [apply Ha|exists st; split_and!; [done|done|lia]|lia|done|done|].
  intros q q' r r' ws Hr Hr' Hq Hq'.
  set (c' := c <| in_conn_permit := Some q |> <| in_stream_permit := Some q' |>).
  assert (Hc' : chunk_held c').
  { split; [by eexists|by eexists|unfold c', held; simpl; lia|unfold c', held; simpl; lia]. }
  apply HQ; try done; [by apply acct_gave_back|apply erase_gave_back].
Qed.

Lemma acct_drop_permits fl s c p p' hs : acct fl s (c :: hs) -> held c = 0 ->
  in_conn_permit c = Some p -> in_stream_permit c = Some p' ->
  acct fl (s <| inbound_conn_bytes ::= permit_drop p |>
          <| heap ::= alter (fun st => st <| inbound_stream_bytes ::= permit_drop p' |>) (owner c) |>) hs.
Proof.
  intros Ha Hz Hp Hp'. destruct (acct_hand _ _ _ _ Ha) as (Hc & Hcb & st0 & Hst0 & Hw0 & Hb0).
  destruct Ha as [Hw Hsm Hst Hh Hfl Hb Hpm]. destruct Hc as [_ _ Hsame Hlen].
  assert (Hn : num_permits p = held c) by (unfold held; by rewrite Hp).
  assert (Hn' : num_permits p' = held c) by (rewrite Hp' in Hsame; done).
  split; simpl; rewrite ?msum_queued_alter, ?drop_available by done; simpl in Hb, Hpm; try (done || lia).
  - intros l st Hl. destruct (decide (owner c = l)) as [<-|Hne].
    + rewrite lookup_alter_eq, Hst0 in Hl. simpl in Hl. apply (inj Some) in Hl. subst st.
      destruct (Hst _ _ Hst0) as [Hsw Hss Hsc Hsb Hsp].
      rewrite in_hand_cons, decide_True in Hsb, Hsp by done.
      split; try done; simpl; rewrite ?drop_available; unfold queued in *; simpl; [|lia].
      eapply covers_shift; [exact Hsb|]. lia.
    + rewrite lookup_alter_ne in Hl by done. destruct (Hst _ _ Hl) as [? ? ? Hsb Hsp].
      rewrite in_hand_cons, decide_False in Hsb, Hsp by done. by split.
  - apply Forall_cons in Hh as [_ Hh]. eapply Forall_impl; [exact Hh|]. intros d [? ?].
    split; [by apply alter_is_Some|done].
Qed.

Lemma len_nonneg c : 0 <= len c.
Proof. apply zlen_nonneg. Qed.

(** Dropping a chunk in hand gives back everything it holds. *)
Lemma wp_chunk_drop fl c s hs (Q : unit -> ConnectionShared -> Prop) (R : Error -> ConnectionShared -> Prop) :
  acct fl s (c :: hs) -> held c = len c -> (forall s', acct fl s' hs -> erase s' = erase s -> Q tt s') ->
  wp (chunk_drop c) s Q R.
Proof.
  intros Ha Hl HQ. unfold chunk_drop. wp_step. fold (len c).
  eapply wp_consume_acct; [exact Ha|pose proof (len_nonneg c); lia|].
  intros c' s' Ha' Hown _ Hh' Hc' He. pose proof Hc' as [[p Hp] [p' Hp'] _ _]. rewrite Hp, Hp'.
  unfold when_some, give_back_conn, give_back_stream, upd_state. wp_steps.
  apply HQ; [apply acct_drop_permits; (done || lia)|].
  rewrite <- He. unfold erase. simpl. rewrite erase_drop, fmap_alter_same; [done|].
  intros st. unfold erase_stream. simpl. by rewrite erase_drop.
Qed.

Lemma wp_drop_chunks fl cs s hs (Q : unit -> ConnectionShared -> Prop) (R : Error -> ConnectionShared -> Prop) :
  acct fl s (cs ++ hs) -> Forall (fun c => held c = len c) cs ->
  (forall s', acct fl s' hs -> erase s' = erase s -> Q tt s') ->
  wp (drop_chunks cs) s Q R.
Proof.
  intros Ha Hl. revert s Ha. induction Hl as [|c cs Hc Hl IH]; intros s Ha HQ; simpl; [by apply HQ|].
  wp_step. eapply wp_chunk_drop; [exact Ha|done|]. intros s' Ha' He.
  apply IH; [done|]. intros s'' Ha'' He'. apply HQ; congruence.
Qed.

(** Only what a chunk holds counts. *)
Lemma acct_hands_eq fl s hs hs' : acct fl s hs ->
  zsum held hs' = zsum held hs -> (forall l, in_hand l hs' = in_hand l hs) ->
  Forall (fun c => is_Some (heap s !! owner c) /\ chunk_held c) hs' -> acct fl s hs'.
Proof.
  intros [Hw Hsm Hst Hh Hfl Hb Hp] Hz Hl Hh'. split; rewrite ?Hz; try done.
  intros l st Hs. destruct (Hst l st Hs). split; by rewrite ?Hl.
Qed.

Lemma acct_replace fl s c c' hs : acct fl s (c :: hs) -> owner c' = owner c -> held c' = held c ->
  chunk_held c' -> acct fl s (c' :: hs).
Proof.
  intros Ha Ho Hh Hc. eapply acct_hands_eq; [exact Ha|..].
  - simpl. by rewrite Hh.
  - intros l. by rewrite !in_hand_cons, Ho, Hh.
  - pose proof (ac_hands _ _ _ Ha) as [[Hv _] Hrest]%Forall_cons. constructor; [|done]. by rewrite Ho.
Qed.

(** [into_bytes] returns the bytes of the chunk and gives back what it holds. *)
Lemma wp_chunk_into_bytes fl c s hs (Q : bytes -> ConnectionShared -> Prop) (R : Error -> ConnectionShared -> Prop) :
  acct fl s (c :: hs) -> held c = len c ->
  (forall s', acct fl s' hs -> erase s' = erase s -> Q (ReceiveBuffer.deref (data c)) s') ->
  wp (chunk_into_bytes c) s Q R.
Proof.
  intros Ha Hl HQ. unfold chunk_into_bytes. wp_step. fold (len c).
  eapply wp_consume_acct; [exact Ha|pose proof (len_nonneg c); lia|].
  intros c' s' Ha' Hown Hd Hh' Hc' He. wp_step.
  eapply wp_chunk_drop.
  - apply (acct_replace _ _ c'); try done. by destruct Hc'.
  - change (held c' = 0). lia.
  - intros s'' Ha'' He'. wp_step. unfold ReceiveBuffer.into_bytes. rewrite Hd. apply HQ; congruence.
Qed.

(** ** Queues and hands *)

(** An update that leaves windows and permits alone; a stream may start to discard. *)
Definition keeps_credit (f : StreamState -> StreamState) : Prop := forall st,
  st_window (f st) = st_window st /\ inbound_stream_bytes (f st) = inbound_stream_bytes st /\
  (recv_discarded st = true -> recv_discarded (f st) = true).

(** Moving chunks between the queue of a stream and the hands. *)
Lemma acct_move fl s l st cs hs hs' f : acct fl s hs -> heap s !! l = Some st ->
  keeps_credit f ->
  chunks (inbound (f st)) = cs -> Forall (chunk_full l) cs ->
  Forall (fun c => is_Some (heap s !! owner c) /\ chunk_held c) hs' ->
  zsum held cs + zsum held hs' = queued st + zsum held hs ->
  zsum held cs + in_hand l hs' = queued st + in_hand l hs ->
  (forall k, k <> l -> in_hand k hs' = in_hand k hs) ->
  acct fl (s <| heap ::= alter f l |>) hs'.
Proof.
  intros [Hw Hsm Hst Hh Hfl Hb Hp] Hl Hf Hcs Hfull Hh' Hz Hil Hik.
  assert (Hq : queued (f st) = zsum held cs) by (unfold queued; by rewrite Hcs).
  assert (Hm : msum queued (alter f l (heap s)) + zsum held hs' = msum queued (heap s) + zsum held hs).
  { rewrite (msum_alter _ _ _ _ _ Hl), Hq. lia. }
  split; simpl; try (done || lia).
  - intros k st' Hk. destruct (decide (l = k)) as [<-|Hne].
    + rewrite lookup_alter_eq, Hl in Hk. simpl in Hk. apply (inj Some) in Hk. subst st'.
      destruct (Hst _ _ Hl) as [? ? ? Hsb Hsp]. destruct (Hf st) as (Hfw & Hfp & Hfd).
      split; rewrite ?Hfw, ?Hfp, ?Hcs, ?Hq; try (done || lia).
      eapply covers_more; [eapply covers_shift; [exact Hsb|]; lia|done].
    + rewrite lookup_alter_ne in Hk by done. destruct (Hst _ _ Hk). split; rewrite ?Hik by done; done.
  - eapply Forall_impl; [exact Hh'|]. intros d [? ?]. split; [by apply alter_is_Some|done].
Qed.

(** An update that touches neither queues, windows nor inbound permits. *)
Lemma acct_upd fl s l f hs :
  acct fl s hs -> keeps_credit f -> (forall st, chunks (inbound (f st)) = chunks (inbound st)) ->
  acct fl (s <| heap ::= alter f l |>) hs.
Proof.
  intros Ha Hf Hch. destruct (heap s !! l) as [st|] eqn:Hl.
  - destruct (ac_streams _ _ _ Ha l st Hl). pose proof (ac_hands _ _ _ Ha).
    by apply (acct_move fl s l st (chunks (inbound st)) hs hs).
  - replace (s <| heap ::= alter f l |>) with s; [done|]. destruct s. simpl in *. f_equal.
    rewrite alter_id; [done|]. intros x Hx. congruence.
Qed.

(** The bytes a reader of the stream has not taken yet. *)
Definition chunk_bytes (cs : list InboundChunk) : bytes :=
  concat (map (fun c => ReceiveBuffer.deref (data c)) cs).
Definition content st : bytes := chunk_bytes (chunks (inbound st)).

Lemma chunks_in_hand fl s l st hs : acct fl s hs -> heap s !! l = Some st ->
  Forall (fun c => is_Some (heap s !! owner c) /\ chunk_held c) (chunks (inbound st)) /\
  (forall k, in_hand k (chunks (inbound st)) = if decide (k = l) then queued st else 0).
Proof.
  intros Ha Hl. pose proof (sa_chunks _ _ _ _ (ac_streams _ _ _ Ha l st Hl)) as Hf.
  unfold queued. split.
  - eapply Forall_impl; [exact Hf|]. intros c [-> ? _]. by rewrite Hl.
  - intros k. induction Hf as [|c cs [Ho _ _] _ IH]; [by case_decide|].
    rewrite in_hand_cons, IH, Ho. destruct (decide (k = l)) as [->|]; [by rewrite decide_True|].
    by rewrite decide_False by congruence.
Qed.

Lemma in_hand_app l hs hs' : in_hand l (hs ++ hs') = in_hand l hs + in_hand l hs'.
Proof. apply zsum_app. Qed.

(** Emptying the queue of a stream puts its chunks in hand. *)
Lemma acct_empty fl s l st hs f : acct fl s hs -> heap s !! l = Some st ->
  keeps_credit f ->
  chunks (inbound (f st)) = [] ->
  acct fl (s <| heap ::= alter f l |>) (chunks (inbound st) ++ hs).
Proof.
  intros Ha Hl Hf Hcs. destruct (chunks_in_hand _ _ _ _ _ Ha Hl) as [Hh Hin].
  apply (acct_move fl s l st [] hs); try done.
  - apply Forall_app. split; [done|]. apply (ac_hands _ _ _ Ha).
  - rewrite zsum_app. unfold queued. simpl. lia.
  - rewrite in_hand_app, Hin, decide_True by done. simpl. lia.
  - intros k Hk. rewrite in_hand_app, Hin, decide_False by done. lia.
Qed.

Lemma queue_full fl s l st hs : acct fl s hs -> heap s !! l = Some st ->
  Forall (fun c => held c = len c) (chunks (inbound st)).
Proof.
  intros Ha Hl. eapply Forall_impl; [exact (sa_chunks _ _ _ _ (ac_streams _ _ _ Ha l st Hl))|].
  intros c [_ _ ->]. done.
Qed.

(** ** The operations on a stream *)

Lemma wp_drop_queue fl l st s hs f (Q : unit -> ConnectionShared -> Prop) (R : Error -> ConnectionShared -> Prop) :
  acct fl s hs -> heap s !! l = Some st ->
  keeps_credit f ->
  chunks (inbound (f st)) = [] ->
  (forall s', acct fl s' hs -> erase s' = erase (s <| heap ::= alter f l |>) -> Q tt s') ->
  wp (drop_chunks (chunks (inbound st))) (s <| heap ::= alter f l |>) Q R.
Proof.
  intros Ha Hl Hf Hcs HQ. eapply wp_drop_chunks; [by apply acct_empty|by eapply queue_full|done].
Qed.

Lemma wp_read_chunk fl l st s hs :
  acct fl s hs -> heap s !! l = Some st ->
  wp (read_chunk l) s
    (fun r s' => match r with
       | Ready (Some c) =>
           exists cs, chunks (inbound st) = c :: cs /\ chunk_full l c /\ acct fl s' (c :: hs) /\
           s' = s <| heap ::= alter (fun st => st <| inbound ::= (fun i => i <| chunks := cs |>) |>) l |>
       | Ready None =>
           chunks (inbound st) = [] /\ (fin_received (inbound st) = true \/ recv_terminal st = true) /\
           acct fl s' hs /\
           s' = s <| heap ::= alter (fun st => st <| inbound ::= (fun i => i <| fin_received := true |>) |>) l |>
       | Pending => chunks (inbound st) = [] /\ s' = s
       end)
    (fun e s' => s' = s /\
       ((exists code, reset_error (inbound st) = Some code /\ e = StreamReset code) \/
        chunks (inbound st) = [] /\ connection_closed (inbound st) = true /\ e = ConnectionClosed)).
Proof.
  intros Ha Hl. unfold read_chunk. wp_step. apply (wp_get_state l st); [done|].
  destruct (reset_error (inbound st)) as [code|] eqn:Hr; [wp_step; eauto|].
  pose proof (sa_chunks _ _ _ _ (ac_streams _ _ _ Ha l st Hl)) as Hf.
  destruct (chunks (inbound st)) as [|c cs] eqn:Hcs.
  - unfold upd_inbound, upd_state. wp_steps; auto.
    split_and!; [done| |by apply acct_upd|done]. by apply orb_true_iff.
  - apply Forall_cons in Hf as [Hc Hf]. unfold upd_inbound, upd_state. wp_steps.
    exists cs. split_and!; [done|done| |done].
    destruct Hc as [Ho Hch Hlen]. apply (acct_move fl s l st cs hs); try done.
    + constructor; [by rewrite Ho, Hl|apply (ac_hands _ _ _ Ha)].
    + unfold queued. rewrite Hcs. simpl. lia.
    + unfold queued. rewrite Hcs, in_hand_cons, decide_True by done. simpl. lia.
    + intros k Hk. rewrite in_hand_cons, decide_False by congruence. lia.
Qed.

(** ** Buffering a payload *)

Definition is_page c : bool := match data c with Page _ => true | Shared _ => false end.
(** A page is left for a new chunk only when the payload does not fit; a payload of
    its own is half a page or more. *)
Definition after (page : Z) c d : Prop :=
  if is_page c then page < len c + len d else div_ceil page 2 <= len c.
Fixpoint dense (page : Z) (cs : list InboundChunk) : Prop :=
  match cs with
  | c :: cs' => (match cs' with d :: _ => after page c d | [] => True end) /\ dense page cs'
  | [] => True
  end.
Definition page_ok (page : Z) c : Prop :=
  if is_page c then 0 < len c <= page else div_ceil page 2 <= len c.
Definition queue_dense (page : Z) (cs : list InboundChunk) : Prop := dense page cs /\ Forall (page_ok page) cs.

(** The memory behind a chunk: a page is allocated whole. *)
Definition capacity (page : Z) c : Z := if is_page c then page else len c.

Lemma dense_snoc page cs c d : dense page (cs ++ [c]) -> len c <= len d -> dense page (cs ++ [d]).
Proof.
  intros Hd Hle. induction cs as [|a [|b cs] IH]; simpl in *; [done| |naive_solver].
  split; [|done]. destruct Hd as [Ha _]. unfold after in *. destruct (is_page a); lia.
Qed.

Lemma dense_snoc_new page cs c d : dense page (cs ++ [c]) -> after page c d ->
  dense page ((cs ++ [c]) ++ [d]).
Proof. intros Hd Ha. induction cs as [|a [|b cs] IH]; simpl in *; naive_solver. Qed.

(** Queue metadata is bounded by pages, not by the number of frames. *)
Lemma dense_count page cs : 0 < page -> queue_dense page cs ->
  page * (zlen cs - 1) <= 4 * zsum len cs.
Proof.
  intros Hp [Hd Hf]. assert (Hh : 0 < page <= 2 * div_ceil page 2) by (unfold div_ceil; dlia).
  enough (Hi : forall n cs, (length cs <= n)%nat -> dense page cs -> Forall (page_ok page) cs ->
    page * (zlen cs - 1) <= 4 * zsum len cs) by (by eapply Hi).
  clear Hd Hf cs. induction n as [|n IH]; intros [|c [|d cs]] Hn Hd Hf; simpl in Hn; try lia.
  - rewrite zlen_nil. simpl. lia.
  - rewrite zlen_nil. simpl. lia.
  - pose proof (len_nonneg c). change (zlen [c]) with 1. simpl. lia.
  - destruct Hd as [Hcd [_ Hd]]. apply Forall_cons in Hf as [_ [_ Hf]%Forall_cons].
    specialize (IH cs ltac:(lia) Hd Hf). rewrite !zlen_cons. simpl in *.
    pose proof (len_nonneg c). pose proof (len_nonneg d).
    assert (page <= 2 * (len c + len d)) by (unfold after in Hcd; destruct (is_page c); lia). lia.
Qed.

(** The memory behind a queue is at most twice its content and a page. *)
Lemma dense_capacity page cs : 0 < page -> queue_dense page cs ->
  zsum (capacity page) cs <= 2 * zsum len cs + page.
Proof.
  intros Hp [Hd Hf].
  enough (zsum (capacity page) cs <= 2 * zsum len cs - match cs with c :: _ => len c | [] => 0 end + page)
    by (destruct cs as [|c cs]; [done|]; pose proof (len_nonneg c); lia).
  induction cs as [|c cs IH]; simpl in *; [lia|]. destruct Hd as [Hcd Hd].
  apply Forall_cons in Hf as [Hc Hf]. specialize (IH Hd Hf). unfold capacity at 1. unfold page_ok in Hc.
  pose proof (len_nonneg c).
  destruct cs as [|d cs]; [|pose proof (len_nonneg d)]; simpl in *; unfold after in *;
    destruct (is_page c); lia.
Qed.

Lemma chunk_bytes_app cs cs' : chunk_bytes (cs ++ cs') = chunk_bytes cs ++ chunk_bytes cs'.
Proof. unfold chunk_bytes. by rewrite map_app, concat_app. Qed.

(** The queue [cs'] is [cs] with a payload at its end. *)
Record appended (page : Z) (l : loc) (payload : bytes) (cs cs' : list InboundChunk) : Prop := {
  ap_full : Forall (chunk_full l) cs';
  ap_held : zsum held cs' = zsum held cs + zlen payload;
  ap_bytes : chunk_bytes cs' = chunk_bytes cs ++ payload;
  ap_dense : queue_dense page cs -> queue_dense page cs'
}.

Definition new_chunk (page : Z) (l : loc) (payload : bytes) (p p' : Permit) : InboundChunk :=
  mkInboundChunk (if zlen payload <? div_ceil page 2 then Page payload else Shared payload) l (Some p) (Some p').

Lemma new_chunk_ok page l payload p p' : 0 < page -> 0 < zlen payload ->
  num_permits p = zlen payload -> num_permits p' = zlen payload ->
  chunk_full l (new_chunk page l payload p p') /\ page_ok page (new_chunk page l payload p p') /\
  ReceiveBuffer.deref (data (new_chunk page l payload p p')) = payload.
Proof.
  intros Hpage Hpos Hp Hp'.
  assert (Hd : ReceiveBuffer.deref (data (new_chunk page l payload p p')) = payload)
    by (simpl; by destruct (_ <? _)).
  split_and!; [|unfold page_ok, len; rewrite Hd|done].
  - split; [done|split|unfold held, len; by rewrite Hd]; unfold held; simpl; eauto; lia.
  - unfold is_page, new_chunk, div_ceil; simpl.
    destruct (Z.ltb_spec (zlen payload) ((page + 2 - 1) / 2)); simpl; dlia.
Qed.

Lemma appended_new page l payload cs d : chunk_full l d -> page_ok page d ->
  ReceiveBuffer.deref (data d) = payload -> Forall (chunk_full l) cs ->
  (forall c, last cs = Some c -> page_ok page c -> after page c d) ->
  appended page l payload cs (cs ++ [d]).
Proof.
  intros Hd Hpd Hb Hf Haft. split.
  - apply Forall_app. by rewrite Forall_singleton.
  - rewrite zsum_app. simpl. rewrite (cf_len _ _ Hd). unfold len. rewrite Hb. lia.
  - rewrite chunk_bytes_app. unfold chunk_bytes at 2. simpl. by rewrite app_nil_r, Hb.
  - intros [Hds Hok]. split; [|apply Forall_app; by rewrite Forall_singleton].
    destruct cs as [|c cs _] using rev_ind; [done|]. apply dense_snoc_new; [done|].
    apply Haft; [by rewrite last_snoc|]. apply Forall_app in Hok as [_ Hok]. by rewrite Forall_singleton in Hok.
Qed.

Lemma appended_merge page l payload cs c pg d : data c = Page pg -> data d = Page (pg ++ payload) ->
  Forall (chunk_full l) (cs ++ [c]) -> chunk_full l d -> zlen pg + zlen payload <= page ->
  appended page l payload (cs ++ [c]) (cs ++ [d]).
Proof.
  intros Hc Hd [Hf Hfc]%Forall_app Hfd Hle. rewrite Forall_singleton in Hfc.
  assert (Hl : len c = zlen pg) by (unfold len; by rewrite Hc).
  assert (Hld : len d = zlen pg + zlen payload) by (unfold len; rewrite Hd; apply zlen_app).
  pose proof (zlen_nonneg payload). split.
  - apply Forall_app. by rewrite Forall_singleton.
  - rewrite !zsum_app. simpl. rewrite (cf_len _ _ Hfd), (cf_len _ _ Hfc). lia.
  - rewrite !chunk_bytes_app. unfold chunk_bytes at 2 4. simpl. rewrite Hc, Hd. simpl.
    by rewrite !app_nil_r, app_assoc.
  - intros [Hds [Hok Hokc]%Forall_app]. split; [by eapply dense_snoc; [exact Hds|lia]|].
    apply Forall_app. split; [done|]. rewrite Forall_singleton in *.
    unfold page_ok, is_page in *. rewrite Hc in Hokc. rewrite Hd. lia.
Qed.

Lemma append_payload_ok page l cs payload p p' : 0 < page -> 0 < zlen payload ->
  num_permits p = zlen payload -> num_permits p' = zlen payload -> Forall (chunk_full l) cs ->
  exists cs', append_payload page l cs payload (Some p) (Some p') = Ok cs' /\
    appended page l payload cs cs'.
Proof.
  intros Hpage Hpos Hp Hp' Hf. unfold append_payload. fold (new_chunk page l payload p p').
  destruct (new_chunk_ok page l payload p p') as (Hd & Hpd & Hb); [done..|].
  set (d := new_chunk page l payload p p') in *. clearbody d.
  destruct cs as [|c cs _] using rev_ind; [eexists; split; [done|by apply appended_new]|].
  rewrite last_snoc. destruct (data c) as [pg|pg] eqn:Hc.
  - eexists; split; [done|]. apply appended_new; try done. rewrite last_snoc. intros ? [= <-].
    unfold page_ok, after, is_page. by rewrite Hc.
  - destruct (Z.leb_spec (zlen pg + zlen payload) page).
    + apply Forall_app in Hf as Hfc. rewrite Forall_singleton in Hfc.
      destruct Hfc as [_ [Ho [[q Hq] [q' Hq'] Hs Hh] Hlen]].
      rewrite Hq, Hq'. simpl. eexists; split; [done|].
      rewrite length_app, take_app_le by (simpl; lia). rewrite take_ge by (simpl; lia).
      apply (appended_merge _ _ _ _ _ pg); try done.
      unfold held, len in *. rewrite Hq, Hq', Hc in *. simpl in *.
      split; [done|split|]; unfold held, len; simpl; rewrite ?merge_num, ?zlen_app; eauto; lia.
    + eexists; split; [done|]. apply appended_new; try done. rewrite last_snoc. intros ? [= <-].
      unfold after, is_page, len. rewrite Hc, Hb. simpl. lia.
Qed.

Lemma buffered_le w : ReceiveWindow.inv w -> ReceiveWindow.buffered w <= window w.
Proof.
  intros Hi. pose proof (ReceiveWindow.next_limit_le w Hi) as Hn. destruct Hi as [? ? ? Ha].
  unfold ReceiveWindow.buffered. lia.
Qed.

Lemma as_u32_small n : 0 <= n <= u32_max -> as_u32 n = n.
Proof. intros H. unfold as_u32, u32_max in *. apply Z.mod_small. lia. Qed.

(** The state and the chunk after both permits of a payload were taken. *)
Lemma acct_take s hs l st n p p' sem sem' d : acct (l, n) s hs -> heap s !! l = Some st ->
  try_acquire_many n (inbound_conn_bytes s) = Some (p, sem) ->
  try_acquire_many n (inbound_stream_bytes st) = Some (p', sem') ->
  acct idle (s <| inbound_conn_bytes := sem |>
          <| heap ::= alter (fun st => st <| inbound_stream_bytes := sem' |>) l |>)
       (mkInboundChunk d l (Some p) (Some p') :: hs).
Proof.
  intros [Hw Hsm Hst Hh Hn Hb Hpm] Hl (_ & _ & _ & Hp & Hav)%acquire_some
    (_ & _ & _ & Hp' & Hav')%acquire_some. simpl in Hn, Hb.
  set (c := mkInboundChunk d l (Some p) (Some p')).
  assert (Hc : chunk_held c) by (split; unfold held; simpl; eauto; lia).
  assert (Hheld : held c = n) by done. assert (Hown : owner c = l) by done. clearbody c.
  split; simpl; rewrite ?msum_queued_alter, ?Hheld by done; try (done || lia).
  - intros k st' Hk. destruct (decide (l = k)) as [<-|Hne].
    + rewrite lookup_alter_eq, Hl in Hk. apply (inj Some) in Hk. subst st'.
      destruct (Hst _ _ Hl) as [? ? ? Hsb Hsp]. unfold in_flight in Hsb. rewrite decide_True in Hsb by done.
      split; try done; rewrite in_hand_cons, decide_True, Hheld by done; unfold queued in *; simpl in *; [|lia].
      rewrite in_flight_idle. eapply covers_shift; [exact Hsb|]. lia.
    + rewrite lookup_alter_ne in Hk by done. destruct (Hst _ _ Hk) as [? ? ? Hsb ?].
      unfold in_flight in Hsb. rewrite decide_False in Hsb by done.
      split; try done; rewrite in_hand_cons, decide_False by congruence; [|done].
      by rewrite in_flight_idle.
  - constructor; [split; [|done]; apply alter_is_Some; by rewrite Hown, Hl|].
    eapply Forall_impl; [exact Hh|]. intros e [? ?]. split; [by apply alter_is_Some|done].
Qed.

Lemma erase_take s l st n p p' sem sem' f : heap s !! l = Some st ->
  try_acquire_many n (inbound_conn_bytes s) = Some (p, sem) ->
  try_acquire_many n (inbound_stream_bytes st) = Some (p', sem') ->
  (forall st, inbound_stream_bytes (f st) = inbound_stream_bytes st) ->
  (forall st, f (st <| inbound_stream_bytes := sem' |>) = (f st) <| inbound_stream_bytes := sem' |>) ->
  erase (s <| inbound_conn_bytes := sem |>
          <| heap ::= alter (fun st => st <| inbound_stream_bytes := sem' |>) l |>
          <| heap ::= alter f l |>) = erase (s <| heap ::= alter f l |>).
Proof.
  intros Hl (Hc & Hc' & _)%acquire_some (Hs & Hs' & _)%acquire_some Hf Hf'.
  assert (He : forall m m', is_closed m = false -> is_closed m' = false -> erase_sem m = erase_sem m').
  { intros m m' Hm Hm'. unfold erase_sem. by rewrite Hm, Hm'. }
  assert (Hh : erase_stream <$> alter f l (alter (fun st => st <| inbound_stream_bytes := sem' |>) l (heap s))
               = erase_stream <$> alter f l (heap s)).
  { apply map_eq. intros k. rewrite !lookup_fmap. destruct (decide (l = k)) as [<-|].
    - rewrite !lookup_alter_eq, Hl. cbn [fmap option_fmap option_map]. rewrite Hf'. f_equal.
      unfold erase_stream. simpl. rewrite (He sem' (inbound_stream_bytes (f st))); [done|done|by rewrite Hf].
    - by rewrite !lookup_alter_ne. }
  transitivity ((erase s) <| inbound_conn_bytes := erase_sem sem |>
    <| heap := erase_stream <$> alter f l (alter (fun st => st <| inbound_stream_bytes := sem' |>) l (heap s)) |>);
    [done|]. by rewrite Hh, (He sem (inbound_conn_bytes s)).
Qed.

(** Within the accepted credit there are permits. *)
Lemma permits_there s hs l st n : acct (l, n) s hs -> heap s !! l = Some st -> 0 < n ->
  is_closed (inbound_conn_bytes s) = false -> is_closed (inbound_stream_bytes st) = false ->
  n <= u32_max /\ is_Some (try_acquire_many n (inbound_conn_bytes s)) /\
  is_Some (try_acquire_many n (inbound_stream_bytes st)).
Proof.
  intros [Hw Hsm Hst Hh _ Hb Hpm] Hl Hn Hc Hcs. simpl in Hb.
  destruct (Hst _ _ Hl) as [Hsw Hss Hch Hsb%covers_le Hsp].
  unfold in_flight in Hsb. rewrite decide_True in Hsb by done. simpl in Hsb.
  pose proof (buffered_le _ Hw). pose proof (buffered_le _ Hsw).
  assert (0 <= msum queued (heap s)).
  { apply msum_nonneg. intros k st' Hk. destruct (Hst _ _ Hk). by eapply queued_nonneg. }
  pose proof (zsum_held_nonneg s hs Hh).
  split; [lia|]. split; apply acquire_ok; try done; lia.
Qed.

Lemma acct_wakes fl s hs ws : acct fl s hs -> acct fl (s <| wakes := ws |>) hs.
Proof. by intros []. Qed.

(** What buffering a payload does to the rest of the state. *)
Definition pushed (l : loc) st (payload : bytes) s s' : Prop :=
  if recv_discarded st then erase s' = erase s
  else exists cs, appended (page_size (limits s)) l payload (chunks (inbound st)) cs /\
    erase s' = erase (s <| heap ::= alter (fun st => st <| inbound ::= (fun i => i <| chunks := cs |>) |>) l |>).

Lemma totals_nonneg fl s hs : acct fl s hs -> 0 <= msum queued (heap s) /\ 0 <= zsum held hs.
Proof.
  intros [Hw Hsm Hst Hh _ Hb Hpm]. split; [|by eapply zsum_held_nonneg].
  apply msum_nonneg. intros k st' Hk. destruct (Hst _ _ Hk). by eapply queued_nonneg.
Qed.

(** A payload on its way to a stream that discards its input is given back to the connection. *)
Lemma acct_discarded s hs l st n : acct (l, n) s hs -> heap s !! l = Some st -> recv_discarded st = true ->
  acct idle (s <| receive_window ::= used n |>) hs.
Proof.
  intros Ha Hl Hd. destruct (totals_nonneg _ _ _ Ha). destruct Ha as [Hw Hsm Hst Hh Hfl Hb Hpm]. simpl in *.
  destruct (used_inv (receive_window s) n) as [Hi Hu]; [done|lia|].
  split; simpl; try (done || lia). intros k st' Hk. destruct (Hst _ _ Hk) as [? ? ? Hsb ?]. split; try done.
  rewrite in_flight_idle. unfold in_flight in Hsb. simpl in Hsb.
  destruct (decide (l = k)) as [<-|]; [|done]. rewrite Hl in Hk. apply (inj Some) in Hk. subst st'.
  rewrite Hd in *. simpl in *. lia.
Qed.

Lemma wp_discard_payload l st payload s hs (Q : unit -> ConnectionShared -> Prop) (R : Error -> ConnectionShared -> Prop) :
  acct (l, zlen payload) s hs -> heap s !! l = Some st -> recv_discarded st = true ->
  (forall s', acct idle s' hs -> erase s' = erase s -> Q tt s') ->
  wp (discard_payload payload) s Q R.
Proof.
  intros Ha Hl Hd HQ. destruct (totals_nonneg _ _ _ Ha). pose proof (ac_bytes _ _ _ Ha) as Hb. simpl in Hb.
  pose proof (zlen_nonneg payload). unfold discard_payload. wp_step.
  apply wp_conn_window_consume; [apply Ha|lia|]. intros _. unfold notify. wp_steps. apply HQ; [|done].
  apply (acct_wakes _ _ hs (_ :: wakes s)). by eapply acct_discarded.
Qed.

(** A chunk in hand becomes part of the queue of its stream. *)
Lemma acct_queue fl s l st c cs hs page payload :
  acct fl s (c :: hs) -> heap s !! l = Some st -> owner c = l -> held c = zlen payload ->
  appended page l payload (chunks (inbound st)) cs ->
  acct fl (s <| heap ::= alter (fun st => st <| inbound ::= (fun i => i <| chunks := cs |>) |>) l |>) hs.
Proof.
  intros Ha Hl Ho Hh [Hf Hz _ _]. apply (acct_move fl s l st cs (c :: hs)); try done.
  - by pose proof (ac_hands _ _ _ Ha) as [_ ?]%Forall_cons.
  - unfold queued. simpl. lia.
  - rewrite in_hand_cons, decide_True by done. unfold queued. lia.
  - intros k Hk. rewrite in_hand_cons, decide_False by congruence. lia.
Qed.

Lemma wp_push_inbound l st s hs payload (Q : unit -> ConnectionShared -> Prop) (R : Error -> ConnectionShared -> Prop) :
  acct (l, zlen payload) s hs -> heap s !! l = Some st -> 0 < zlen payload ->
  is_closed (inbound_conn_bytes s) = false -> is_closed (inbound_stream_bytes st) = false ->
  fin_received (inbound st) = false -> 0 < max_inbound_stream_bytes (limits s) ->
  (forall s', acct idle s' hs -> pushed l st payload s s' -> Q tt s') ->
  wp (push_inbound l payload) s Q R.
Proof.
  intros Ha Hl Hpos Hc Hcs Hfin Hlim HQ. unfold push_inbound, pushed in *.
  wp_step. apply (wp_get_state l st); [done|]. destruct (recv_discarded st) eqn:Hdis.
  { by eapply wp_discard_payload. }
  destruct (permits_there s hs l st (zlen payload)) as (Hu & [[p sem] Hp] & [[p' sem'] Hp']); [done..|].
  wp_step. unfold take_conn_permit, wp at 1. rewrite (proj2 (Z.eqb_neq _ _)), as_u32_small, Hp by lia.
  wp_step. unfold take_stream_permit. rewrite (proj2 (Z.eqb_neq _ _)), as_u32_small by lia.
  wp_step. apply (wp_get_state l st); [done|]. rewrite Hp'. unfold upd_state. wp_step. wp_step. wp_step. wp_step.
  pose proof (acct_take s hs l st _ p p' sem sem' (Shared payload) Ha Hl Hp Hp') as Ht.
  assert (Hl' : heap (s <| inbound_conn_bytes := sem |>
      <| heap ::= alter (fun st => st <| inbound_stream_bytes := sem' |>) l |>) !! l
    = Some (st <| inbound_stream_bytes := sem' |>)) by (simpl; by rewrite lookup_alter_eq, Hl).
  eapply wp_get_state; [exact Hl'|]. change (recv_discarded (st <| _ := _ |>)) with (recv_discarded st).
  change (inbound (st <| _ := _ |>)) with (inbound st). rewrite Hdis, Hfin. wp_step. wp_step.
  destruct (append_payload_ok (page_size (limits s)) l (chunks (inbound st)) payload p p') as (cs & Hcs' & Hap);
    [unfold page_size; lia|done|by apply acquire_some in Hp as (_ & _ & _ & ? & _)|
     by apply acquire_some in Hp' as (_ & _ & _ & ? & _)|by apply (ac_streams _ _ _ Ha)|].
  change (limits (s <| _ := _ |> <| _ ::= _ |>)) with (limits s). rewrite Hcs'.
  wp_step. wp_step. unfold upd_inbound, upd_state, notify. wp_steps.
  apply HQ.
  - apply (acct_wakes _ _ hs (_ :: wakes s)). eapply acct_queue; [exact Ht|exact Hl'|done|..].
    + by apply acquire_some in Hp as (_ & _ & _ & ? & _).
    + exact Hap.
  - exists cs. split; [done|]. by rewrite <- (erase_take s l st _ p p' sem sem' _ Hl Hp Hp').
Qed.

(** ** How the receiving side of a connection evolves

    What an operation on an open connection may do to a stream: an ended stream
    gets nothing more, and the queue stays dense. *)
Record evolves (page : Z) st st' : Prop := {
  ev_window : window (st_window st') = window (st_window st);
  ev_closed : is_closed (inbound_stream_bytes st') = is_closed (inbound_stream_bytes st);
  ev_terminal : recv_terminal st = true -> recv_terminal st' = true;
  ev_fin : (fin_received (inbound st) = true -> recv_terminal st = true) ->
           fin_received (inbound st') = true -> recv_terminal st' = true;
  ev_content : recv_terminal st = true -> content st = [] -> content st' = [];
  ev_dense : queue_dense page (chunks (inbound st)) -> queue_dense page (chunks (inbound st'))
}.

#[export] Instance evolves_preorder page : PreOrder (evolves page).
Proof. split; [done|]. intros x y z [] []. split; naive_solver congruence. Qed.

Record evolve s s' : Prop := {
  eo_limits : limits s' = limits s;
  eo_streams : streams s' ⊆ streams s;
  eo_incoming : incoming_streams s' ⊆ incoming_streams s;
  eo_next : next_loc s' = next_loc s;
  eo_cleanup : cleanup_started s' = cleanup_started s;
  eo_window : window (receive_window s') = window (receive_window s);
  eo_closed : is_closed (inbound_conn_bytes s') = is_closed (inbound_conn_bytes s);
  eo_heap : forall l, option_Forall2 (evolves (page_size (limits s))) (heap s !! l) (heap s' !! l)
}.

#[export] Instance evolve_preorder : PreOrder evolve.
Proof.
  split.
  - intros s. by split.
  - intros x y z [Hl Hs Hi Hn Hc Hw Hcl Hh] [Hl' Hs' Hi' Hn' Hc' Hw' Hcl' Hh'].
    split; try congruence; [by transitivity (streams y)|by transitivity (incoming_streams y)|]. intros l. specialize (Hh l). specialize (Hh' l).
    rewrite Hl in Hh'. destruct Hh; inversion Hh'; constructor. by etransitivity.
Qed.

Lemma evolve_upd s l f : (forall st, heap s !! l = Some st -> evolves (page_size (limits s)) st (f st)) ->
  evolve s (s <| heap ::= alter f l |>).
Proof.
  intros Hf. split; try done. intros k. simpl. destruct (decide (l = k)) as [<-|].
  - rewrite lookup_alter_eq. destruct (heap s !! l); constructor. by apply Hf.
  - rewrite lookup_alter_ne by done. destruct (heap s !! k); by constructor.
Qed.

(** The fields that matter. *)
Definition receive_fields s :=
  (limits s, streams s, incoming_streams s, next_loc s, cleanup_started s, receive_window s, inbound_conn_bytes s, heap s).
Lemma evolve_fields s s1 s' : evolve s s1 -> receive_fields s' = receive_fields s1 -> evolve s s'.
Proof.
  unfold receive_fields. intros [Hl Hs Hi Hn Hc Hw Hcl Hh] [= H1 H2 H3 H4 H5 H6 H7 H8].
  split; rewrite ?H1, ?H2, ?H3, ?H4, ?H5, ?H6, ?H7, ?H8; done.
Qed.

(** Giving bytes back changes nothing of it. *)
Lemma evolve_erase s s' : erase s' = erase s -> evolve s s'.
Proof.
  intros He. split.
  - apply (f_equal limits He).
  - by rewrite (f_equal streams He : streams s' = streams s).
  - by rewrite (f_equal incoming_streams He : incoming_streams s' = incoming_streams s).
  - apply (f_equal next_loc He).
  - apply (f_equal cleanup_started He).
  - apply (f_equal (fun s => window (receive_window s)) He).
  - apply erase_closed, (f_equal inbound_conn_bytes He).
  - intros l. pose proof (f_equal (lookup l) (f_equal heap He)) as Hl. simpl in Hl. rewrite !lookup_fmap in Hl.
    destruct (heap s !! l) as [st|], (heap s' !! l) as [st'|]; try done; constructor. apply (inj Some) in Hl.
    assert (Hi : inbound st' = inbound st) by apply (f_equal inbound Hl).
    assert (Ht : recv_terminal st' = recv_terminal st) by apply (f_equal recv_terminal Hl).
    unfold content. split; unfold content; rewrite ?Hi, ?Ht; try done.
    + apply (f_equal (fun st => window (st_window st)) Hl).
    + apply erase_closed, (f_equal inbound_stream_bytes Hl).
Qed.

End inbound.
