(* ===== verification/Writer.v ===== *)
(** The sending half of [muxtls/src/connection.rs]: the writer's queues and the
    scheduler [next_frame] that alternates control frames, credit updates and stream
    data under the peer's credit. *)

From S2P Require Import Prelude Hoare Varint Utf8 Frames Errors Limits Flow Tokio.
From S2P Require Import ConnState.

#[local] Open Scope Z_scope.

(** [HashMap] iteration visits every entry once, in an unspecified order. *)
Class HashIter := hash_iter : forall {A}, gmap Z A -> list (Z * A).
Class HashIterLaws (HI : HashIter) : Prop :=
  hash_iter_perm : forall A (m : gmap Z A), hash_iter m ≡ₚ map_to_list m.

Definition hash_list : HashIter := fun A m => map_to_list m.
Lemma hash_list_laws : HashIterLaws hash_list.
Proof. by intros A m. Qed.

Section writer.
Context {TK : Tokio} {HI : HashIter}.

(** Dropping a queued chunk gives back its permits. *)
Definition drop_outbound (c : OutboundChunk) : Conn unit :=
  _ ← modify (fun s => s <| outbound_frames ::= permit_drop (oc_frame_permit c) |>);
  _ ← upd_state (oc_state c) (fun st =>
        st <| outbound_stream_frames ::= permit_drop (oc_stream_frame_permit c) |>);
  _ ← match oc_conn_permit c with
      | Some p => modify (fun s => s <| outbound_conn_bytes ::= permit_drop p |>)
      | None => mret tt
      end;
  match oc_stream_permit c with
  | Some p => upd_state (oc_state c) (fun st => st <| outbound_stream_bytes ::= permit_drop p |>)
  | None => mret tt
  end.

Fixpoint drop_outbounds (cs : list OutboundChunk) : Conn unit :=
  match cs with
  | [] => mret tt
  | c :: cs => _ ← drop_outbound c; drop_outbounds cs
  end.

(** [by_stream.remove(&id)] and [by_stream.clear()] drop the chunks. *)
Definition remove_queue (id : Z) : Conn unit :=
  q ← get_queues;
  _ ← upd_queues (fun q => q <| by_stream ::= delete id |>);
  drop_outbounds (default [] (by_stream q !! id)).
Definition clear_queues : Conn unit :=
  q ← get_queues;
  _ ← upd_queues (fun q => q <| by_stream := ∅ |>);
  drop_outbounds (concat (map snd (hash_iter (by_stream q)))).

(** [WriterState::enqueue_data]: [false] drops the chunk. *)
Definition enqueue_data (stream_id : Z) (chunk : OutboundChunk) : Conn bool :=
  q ← get_queues;
  st ← get_state (oc_state chunk);
  if closing q || send_terminal st then
    _ ← drop_outbound chunk;
    mret false
  else
    let chunks := default [] (by_stream q !! stream_id) in
    let was_empty := match chunks with [] => true | _ => false end in
    _ ← upd_queues (fun q => q <| by_stream ::= insert stream_id (chunks ++ [chunk]) |>);
    _ ← when was_empty (upd_queues (fun q => q <| ready ::= (fun r => r ++ [stream_id]) |>));
    _ ← notify WakeWriter;
    mret true.

Definition is_ping (f : Frame) : bool := match f with Ping => true | _ => false end.

(** [WriterState::enqueue_control] *)
Definition enqueue_control (frame : Frame) : Conn bool :=
  q ← get_queues;
  max ← gets writer_max_control_frames;
  if closing q then mret false
  else if is_ping frame && existsb is_ping (control q) then mret true
  else if max <=? zlen (control q) then mret false
  else
    _ ← upd_queues (fun q => q <| control ::= (fun c => c ++ [frame]) |>);
    _ ← notify WakeWriter;
    mret true.

(** [WriterState::shutdown] *)
Definition shutdown : Conn unit :=
  _ ← clear_queues;
  _ ← upd_queues (fun q =>
        q <| ready := [] |> <| control := [] |> <| receive_windows := ∅ |>
          <| close_frame := None |> <| graceful_close := false |> <| closing := true |>);
  notify WakeWriter.

(** [while !reason.is_char_boundary(end) { end -= 1; }] *)
Fixpoint back_to_boundary (reason : bytes) (end_ : nat) : nat :=
  match end_ with
  | O => O
  | S e => if is_char_boundary reason (S e) then S e else back_to_boundary reason e
  end.

(** [take_close_frame]: the reason is cut to what the peer accepts. *)
Definition take_close_frame : Conn (option Frame) :=
  q ← get_queues;
  match close_frame q with
  | None => mret None
  | Some frame =>
      _ ← upd_queues (fun q => q <| close_frame := None |>);
      match frame with
      | ConnectionClose error_code reason =>
          let maximum :=
            saturating_sub (peer_max_frame q) (1 + ErrorCode.encoded_len error_code + 8) in
          if maximum <? zlen reason then
            let end_ := back_to_boundary reason (Z.to_nat maximum) in
            mret (Some (ConnectionClose error_code (take end_ reason)))
          else mret (Some frame)
      | _ => mret (Some frame)
      end
  end.

(** SETTINGS and OPEN_STREAM jump the alternation. *)
Definition is_urgent (f : Frame) : bool :=
  match f with Settings _ _ _ | OpenStream _ => true | _ => false end.

(** [self.receive_window.update()] *)
Definition conn_window_update : Conn (option VarInt) := fun s =>
  let '(r, w) := ReceiveWindow.update (receive_window s) in
  (r, s <| receive_window := w |>).

(** [receive_windows.iter().find_map(..)]: the first stream that owes an update. *)
Fixpoint find_stream_update (windows : list (Z * loc)) : Conn (option Frame) :=
  match windows with
  | [] => mret None
  | (id, l) :: rest =>
      s ← gets (fun s => heap s !! l);
      match s with
      | None => find_stream_update rest
      | Some st =>
          if recv_terminal st || recv_discarded st then find_stream_update rest
          else
            let '(r, w) := ReceiveWindow.update (st_window st) in
            _ ← upd_state l (fun st => st <| st_window := w |>);
            maximum ← lift r;
            match maximum with
            | None => find_stream_update rest
            | Some maximum =>
                stream_id ← lift (expect (ok (VarInt.from_u64 id)));
                mret (Some (MaxStreamData stream_id maximum))
            end
      end
  end.

(** [usize] subtraction. *)
Definition usize_sub (a b : Z) : Result Error Z := if a <? b then Panic else Ok (a - b).

(** What one chunk may send now. *)
Definition sendable (conn_credit initial_stream_limit max_frame : Z) (st : StreamState)
    (chunk : OutboundChunk) : Result Error Z :=
  let stream_credit :=
    saturating_sub (Z.max (st_peer_limit st) initial_stream_limit) (st_sent st) in
  capacity ← (c ← usize_sub max_frame 2; usize_sub c (VarInt.encoded_len (oc_stream_id chunk)));
  header ← expect (ok (VarInt.from_u64 (as_u64 capacity)));
  room ← usize_sub capacity (VarInt.encoded_len header);
  Ok (Z.min (zlen (oc_payload chunk)) (Z.min (Z.min conn_credit stream_credit) room)).

(** The queue of stream [id] after a frame of [count] bytes left it: it goes to the
    back of the ready queue, or away when it is empty. *)
Definition put_back (id : Z) (q : list OutboundChunk) (count : Z) : Conn unit :=
  _ ← upd_queues (fun qs =>
        match q with
        | [] => qs <| by_stream ::= delete id |>
        | _ => qs <| by_stream ::= insert id q |> <| ready ::= (fun r => r ++ [id]) |>
        end);
  qs ← get_queues;
  total ← lift (expect (checked_add (sent qs) (as_u64 count)));
  upd_queues (fun qs => qs <| sent := total |> <| control_turn := true |>).

(** Send [count] bytes of the first chunk of stream [id]. *)
Definition send_data (id : Z) (chunk : OutboundChunk) (rest : list OutboundChunk)
    (count : Z) : Conn Frame :=
  let payload := take (Z.to_nat count) (oc_payload chunk) in
  let left := drop (Z.to_nat count) (oc_payload chunk) in
  let fin := oc_fin chunk && (zlen left =? 0) in
  _ ← upd_state (oc_state chunk) (fun st =>
        st <| st_sent ::= (fun n => wrapping_add n (as_u64 count)) |>);
  _ ← when fin (upd_state (oc_state chunk) (fun st => st <| send_dispatched := true |>));
  _ ← when (zlen left =? 0) (drop_outbound chunk);
  _ ← put_back id (if zlen left =? 0 then rest else chunk <| oc_payload := left |> :: rest) count;
  mret (Stream (oc_stream_id chunk) fin payload).

(** [for _ in 0..queues.ready.len()]: rotate the ready queue to the first stream that
    can send. *)
Fixpoint data_loop (n : nat) (conn_credit initial_stream_limit max_frame : Z)
    (settings : bool) : Conn (option Frame) :=
  match n with
  | O => mret None
  | S n =>
      q ← get_queues;
      id ← lift (expect (head (ready q)));
      _ ← upd_queues (fun q => q <| ready ::= tail |>);
      chunks ← lift (expect (by_stream q !! id));
      chunk ← lift (expect (head chunks));
      st ← get_state (oc_state chunk);
      count ← lift (sendable conn_credit initial_stream_limit max_frame st chunk);
      if negb settings || ((count =? 0) && negb (zlen (oc_payload chunk) =? 0)) then
        _ ← upd_queues (fun q => q <| ready ::= (fun r => r ++ [id]) |>);
        data_loop n conn_credit initial_stream_limit max_frame settings
      else
        frame ← send_data id chunk (tail chunks) count;
        mret (Some frame)
  end.

(** Control work: a queued frame, else connection credit, else stream credit. *)
Definition control_work : Conn (option Frame) :=
  q ← get_queues;
  match control q with
  | frame :: rest =>
      _ ← upd_queues (fun q => q <| control := rest |> <| control_turn := false |>);
      mret (Some frame)
  | [] =>
      update ← conn_window_update;
      match update with
      | Some maximum =>
          _ ← upd_queues (fun q => q <| control_turn := false |>);
          mret (Some (MaxData maximum))
      | None =>
          update ← find_stream_update (hash_iter (receive_windows q));
          match update with
          | Some frame =>
              _ ← upd_queues (fun q => q <| control_turn := false |>);
              mret (Some frame)
          | None => mret None
          end
      end
  end.

(** One turn of the loop of [next_frame]. *)
Inductive Turn :=
| Return (f : option Frame)
| Continue
| Await.

(** The second half of a turn: a data frame, else another turn for control work,
    else the CLOSE frame of a drained connection, else wait. *)
Definition data_turn : Conn Turn :=
  q ← get_queues;
  data ← data_loop (length (ready q)) (saturating_sub (peer_limit q) (sent q))
           (peer_initial_stream_limit q) (peer_max_frame q) (peer_settings q);
  match data with
  | Some frame => mret (Return (Some frame))
  | None =>
      q ← get_queues;
      if negb (control_turn q) then
        _ ← upd_queues (fun q => q <| control_turn := true |>);
        mret Continue
      else if closing q && bool_decide (by_stream q = ∅) then
        f ← take_close_frame; mret (Return f)
      else mret Await
  end.

Definition next_frame_turn : Conn Turn :=
  q ← get_queues;
  if closing q && negb (graceful_close q) then
    f ← take_close_frame; mret (Return f)
  else
    let urgent := match head (control q) with Some f => is_urgent f | None => false end in
    control ← (if control_turn q || urgent then control_work else mret None);
    match control with
    | Some frame => mret (Return (Some frame))
    | None => data_turn
    end.

(** [WriterState::next_frame] up to its next suspension.  A turn that continues is
    followed by one that does not, so two turns of fuel are enough
    ([next_frame_turns]); running out is a [Panic]. *)
Fixpoint next_frame_fuel (fuel : nat) : Conn (Poll (option Frame)) :=
  match fuel with
  | O => panic
  | S fuel =>
      turn ← next_frame_turn;
      match turn with
      | Return f => mret (Ready f)
      | Continue => next_frame_fuel fuel
      | Await => mret Pending
      end
  end.
Definition next_frame : Conn (Poll (option Frame)) := next_frame_fuel 2.

End writer.
