(* ===== verification/WriterSpec.v ===== *)
(** What the writer of [Writer] guarantees: it never panics, it emits only frames the
    peer accepts and has given credit for, it keeps the order of the bytes of a
    stream, and it waits only when nothing can be sent. *)

From S2P Require Import Prelude Hoare Varint Utf8 Frames Errors Limits Flow Tokio.
From S2P Require Import ConnState Writer.

#[local] Open Scope Z_scope.

Section spec.
Context {TK : Tokio} {HI : HashIter}.

(** ** States up to permits

    Dropping a sent chunk only gives permits back; the scheduler does not look at
    them, nor at the locks of the senders and the notifications issued. *)

Definition core_stream (st : StreamState) : StreamState :=
  st <| outbound_stream_bytes := sem_new 0 |> <| outbound_stream_frames := sem_new 0 |>
     <| send_locked := false |>.
Definition core (s : ConnectionShared) : ConnectionShared :=
  s <| heap ::= fmap core_stream |> <| outbound_frames := sem_new 0 |>
    <| outbound_conn_bytes := sem_new 0 |> <| open_streams := sem_new 0 |> <| wakes := [] |>.
Definition core_eq (s s' : ConnectionShared) : Prop := core s = core s'.
Infix "≈" := core_eq (at level 70).

#[export] Instance core_eq_equivalence : Equivalence core_eq.
Proof. split; unfold core_eq; [intros ?|intros ???|intros ???]; congruence. Qed.

Lemma core_eq_queues s s' : s ≈ s' -> queues s = queues s'.
Proof. intros H. exact (f_equal queues H). Qed.
Lemma core_eq_window s s' : s ≈ s' -> receive_window s = receive_window s'.
Proof. intros H. exact (f_equal receive_window H). Qed.
Lemma core_eq_heap s s' l st : s ≈ s' -> heap s !! l = Some st ->
  exists st', heap s' !! l = Some st' /\ core_stream st = core_stream st'.
Proof.
  intros H Hl. apply (f_equal (fun x => heap x !! l)) in H. simpl in H.
  rewrite !lookup_fmap, Hl in H. destruct (heap s' !! l) as [st'|]; [|done].
  apply (inj Some) in H. by exists st'.
Qed.

Lemma core_eq_alter s l f : (forall st, core_stream (f st) = core_stream st) ->
  s <| heap ::= alter f l |> ≈ s.
Proof.
  intros Hf. unfold core_eq, core. simpl. f_equal.
  apply map_eq. intros i. rewrite !lookup_fmap.
  destruct (decide (l = i)) as [->|]; simplify_map_eq; [|done].
  destruct (heap s !! i) as [st|] eqn:E; simpl; by rewrite ?Hf.
Qed.

Lemma wp_upd_core l f s (Q : unit -> ConnectionShared -> Prop) (R : Error -> ConnectionShared -> Prop) :
  (forall st, core_stream (f st) = core_stream st) ->
  (forall s', s' ≈ s -> Q tt s') -> wp (upd_state l f) s Q R.
Proof. intros Hf H. apply H. by apply core_eq_alter. Qed.

Lemma wp_drop_outbound c s (Q : unit -> ConnectionShared -> Prop) R :
  (forall s', s' ≈ s -> Q tt s') -> wp (drop_outbound c) s Q R.
Proof.
  intros H. unfold drop_outbound. wp_steps. apply wp_upd_core; [done|].
  intros s1 Hs1. wp_steps.
  assert (Hs : s1 ≈ s) by (rewrite Hs1; done).
  destruct (oc_conn_permit c) as [p|]; wp_steps.
  all: destruct (oc_stream_permit c) as [p'|]; wp_steps; [|apply H; try (etrans; [|done]); done].
  all: apply wp_upd_core; [done|]; intros s2 Hs2; apply H; rewrite Hs2; (done || rewrite <- Hs; done).
Qed.

Lemma wp_drop_outbounds cs s (Q : unit -> ConnectionShared -> Prop) R :
  (forall s', s' ≈ s -> Q tt s') -> wp (drop_outbounds cs) s Q R.
Proof.
  revert s. induction cs as [|c cs IH]; intros s H; simpl; [by apply H|].
  wp_steps. apply wp_drop_outbound. intros s1 Hs1. apply IH. intros s2 Hs2.
  apply H. by rewrite Hs2.
Qed.

(** ** The invariant of the writer *)

(** A FIN is on the last chunk of a stream. *)
Fixpoint fin_last (cs : list OutboundChunk) : Prop :=
  match cs with
  | [] => True
  | c :: cs => (oc_fin c = true -> cs = []) /\ fin_last cs
  end.

Record chunk_ok (h : gmap loc StreamState) (id : Z) (c : OutboundChunk) : Prop := {
  co_id : inner (oc_stream_id c) = id;
  co_wf : VarInt.wf (oc_stream_id c);
  co_state : is_Some (h !! oc_state c);
  co_payload : oc_payload c = [] -> oc_fin c = true;
  co_bytes : zlen (oc_payload c) <= permits (oc_conn_permit c) /\
    zlen (oc_payload c) <= permits (oc_stream_permit c);
  co_slots : num_permits (oc_frame_permit c) = 1 /\ num_permits (oc_stream_frame_permit c) = 1
}.

Record queue_ok (h : gmap loc StreamState) (id : Z) (cs : list OutboundChunk) : Prop := {
  qo_nonempty : cs <> [];
  qo_chunks : Forall (chunk_ok h id) cs;
  qo_fin : fin_last cs
}.

Record stream_ok (initial : Z) (st : StreamState) : Prop := {
  so_sent : 0 <= st_sent st <= Z.max (st_peer_limit st) initial;
  so_limit : 0 <= st_peer_limit st <= VarInt.MAX;
  so_window : ReceiveWindow.inv (st_window st)
}.

Definition control_ok (f : Frame) : Prop := Limits.is_control f = true /\ Frame.wf f.

Definition close_ok (f : Frame) : Prop :=
  exists c r, f = ConnectionClose c r /\ Frame.wf f /\ zlen r <= u32_max.

Record writer_inv (s : ConnectionShared) : Prop := {
  wi_ready : NoDup (ready (queues s));
  wi_dom : forall id, id ∈ ready (queues s) <-> is_Some (by_stream (queues s) !! id);
  wi_queues : map_Forall (queue_ok (heap s)) (by_stream (queues s));
  wi_heap : map_Forall (fun _ => stream_ok (peer_initial_stream_limit (queues s))) (heap s);
  wi_frame : Limits.MIN_FRAME_SIZE <= peer_max_frame (queues s) <= u32_max;
  wi_initial : 0 <= peer_initial_stream_limit (queues s) <= VarInt.MAX;
  wi_credit : 0 <= sent (queues s) <= peer_limit (queues s);
  wi_limit : peer_limit (queues s) <= VarInt.MAX;
  wi_control : Forall control_ok (control (queues s));
  wi_close : forall f, close_frame (queues s) = Some f -> close_ok f;
  wi_windows : map_Forall (fun id l => 0 <= id <= VarInt.MAX) (receive_windows (queues s));
  wi_window : ReceiveWindow.inv (receive_window s)
}.

#[export] Instance writer_inv_proper : Proper (core_eq ==> iff) writer_inv.
Proof.
  assert (Himp : forall s s', s ≈ s' -> writer_inv s -> writer_inv s').
  { intros s s' Hs []. pose proof (core_eq_queues _ _ Hs) as Hq.
    pose proof (core_eq_window _ _ Hs) as Hw. split; rewrite <- ?Hq, <- ?Hw; try done.
    - intros id cs Hcs. destruct (wi_queues0 id cs Hcs) as [? Hc ?]. split; try done.
      eapply Forall_impl; [exact Hc|]. intros c [? ? [st Hst] ?]. split; try done.
      destruct (core_eq_heap _ _ _ _ Hs Hst) as (st' & -> & _). by eexists.
    - intros l st Hst. symmetry in Hs. destruct (core_eq_heap _ _ _ _ Hs Hst) as (st' & Hst' & Hc).
      destruct (wi_heap0 l st' Hst').
      pose proof (f_equal st_sent Hc). pose proof (f_equal st_peer_limit Hc).
      pose proof (f_equal st_window Hc). simpl in *.
      split; congruence. }
  intros s s' Hs. split; apply Himp; [done|by symmetry].
Qed.

(** ** Which streams can send *)

(** The bytes of payload that a STREAM frame of this stream can carry. *)
Definition frame_room (max_frame : Z) (id : VarInt) : Z :=
  let capacity := max_frame - 2 - VarInt.encoded_len id in
  capacity - VarInt.encoded_len (mkVarInt capacity).

(** The credit of the stream and of the connection. *)
Definition stream_credit (q : WriterQueues) (st : StreamState) : Z :=
  Z.max (st_peer_limit st) (peer_initial_stream_limit q) - st_sent st.
Definition conn_credit (q : WriterQueues) : Z := peer_limit q - sent q.

Definition send_count (q : WriterQueues) (st : StreamState) (c : OutboundChunk) : Z :=
  Z.min (zlen (oc_payload c))
    (Z.min (Z.min (conn_credit q) (stream_credit q st)) (frame_room (peer_max_frame q) (oc_stream_id c))).

Lemma frame_room_pos mf id : Limits.MIN_FRAME_SIZE <= mf <= u32_max ->
  0 < frame_room mf id <= u32_max /\
  2 + VarInt.encoded_len id <= mf /\
  forall n, 0 <= n <= frame_room mf id ->
    1 + VarInt.encoded_len id + 1 + VarInt.encoded_len (mkVarInt n) + n <= mf.
Proof.
  unfold Limits.MIN_FRAME_SIZE, u32_max, frame_room. intros Hmf.
  pose proof (VarInt.encoded_len_range id).
  pose proof (VarInt.encoded_len_range (mkVarInt (mf - 2 - VarInt.encoded_len id))).
  split_and!; try lia. intros n Hn.
  assert (VarInt.encoded_len (mkVarInt n) <= VarInt.encoded_len (mkVarInt (mf - 2 - VarInt.encoded_len id))).
  { apply VarInt.encoded_len_mono. simpl. lia. }
  lia.
Qed.

Lemma sendable_eq s st c l : writer_inv s -> heap s !! l = Some st ->
  sendable (saturating_sub (peer_limit (queues s)) (sent (queues s)))
    (peer_initial_stream_limit (queues s)) (peer_max_frame (queues s)) st c
  = Ok (send_count (queues s) st c).
Proof.
  intros Hi Hst. destruct Hi as [_ _ _ Hh Hf Hin Hcr Hl _ _ _ _]. destruct (Hh l st Hst) as [Hs Hp _].
  unfold sendable, send_count, conn_credit, stream_credit, saturating_sub, usize_sub.
  destruct (frame_room_pos _ (oc_stream_id c) Hf) as (Hr & Hmf & _).
  unfold frame_room, u32_max in *. set (el := VarInt.encoded_len (oc_stream_id c)) in *.
  pose proof (VarInt.encoded_len_range (oc_stream_id c)) as Hel. fold el in Hel.
  rewrite (Z.max_l (_ - _) 0), (Z.max_l (_ - _) 0) by lia.
  unfold mbind, Result_bind. rewrite (proj2 (Z.ltb_ge _ 2)) by lia.
  rewrite (proj2 (Z.ltb_ge _ el)) by lia.
  rewrite ReceiveWindow.as_u64_small, VarInt.from_u64_ok
    by (rewrite ?VarInt.MAX_eq; unfold u64_max; lia). simpl.
  rewrite (proj2 (Z.ltb_ge _ _)) by lia. done.
Qed.

(** A stream that waits: for SETTINGS, or for credit. *)
Definition blocked (q : WriterQueues) (h : gmap loc StreamState) (id : Z) : Prop :=
  exists c cs st, by_stream q !! id = Some (c :: cs) /\ h !! oc_state c = Some st /\
    (peer_settings q = false \/ (send_count q st c = 0 /\ oc_payload c <> [])).
Definition eligible (q : WriterQueues) (h : gmap loc StreamState) (id : Z) : Prop :=
  exists c cs st, by_stream q !! id = Some (c :: cs) /\ h !! oc_state c = Some st /\
    peer_settings q = true /\ (send_count q st c = 0 -> oc_payload c = []).

Lemma blocked_or_eligible s id : writer_inv s -> id ∈ ready (queues s) ->
  blocked (queues s) (heap s) id \/ eligible (queues s) (heap s) id.
Proof.
  intros Hi Hid. apply (wi_dom _ Hi) in Hid as [cs Hcs].
  destruct (wi_queues _ Hi id cs Hcs) as [Hne Hcks _].
  destruct cs as [|c cs]; [done|]. inv Hcks. destruct H1 as [_ _ [st Hst] _].
  destruct (peer_settings (queues s)) eqn:E; [|by left; exists c, cs, st; auto].
  destruct (decide (send_count (queues s) st c = 0)) as [|], (decide (oc_payload c = [])) as [|].
  2: by left; exists c, cs, st; auto.
  all: by right; exists c, cs, st.
Qed.

Lemma zlen_eqb_nil {A} (l : list A) : (zlen l =? 0) = true <-> l = [].
Proof. rewrite Z.eqb_eq. split; [apply zlen_0_nil|by intros ->]. Qed.

(** The ready queue is all that the rotation changes. *)
Definition with_ready (s : ConnectionShared) (r : list Z) : ConnectionShared :=
  s <| queues ::= (fun q => q <| ready := r |>) |>.
Definition run_data (n : nat) (s0 s : ConnectionShared) : Result Error (option Frame) * ConnectionShared :=
  data_loop n (saturating_sub (peer_limit (queues s0)) (sent (queues s0)))
    (peer_initial_stream_limit (queues s0)) (peer_max_frame (queues s0))
    (peer_settings (queues s0)) s.

(** A blocked stream goes to the back. *)
Lemma data_loop_blocked s n id post : writer_inv s -> blocked (queues s) (heap s) id ->
  run_data (S n) s (with_ready s (id :: post)) = run_data n s (with_ready s (post ++ [id])).
Proof.
  intros Hi (c & cs & st & Hcs & Hst & Hb). unfold run_data. simpl.
  unfold mbind, M_bind, get_queues, upd_queues, gets, modify, lift, expect, get_state. simpl.
  rewrite Hcs. simpl. rewrite Hst. simpl. rewrite (sendable_eq s st c _ Hi Hst).
  replace (_ || _) with true; [done|]. symmetry. apply orb_true_iff.
  destruct Hb as [->|[-> Hp]]; [by left|right]. apply andb_true_iff. split; [done|].
  apply negb_true_iff. apply not_true_iff_false. by rewrite zlen_eqb_nil.
Qed.

Lemma data_loop_rotate s n pre post : writer_inv s -> Forall (blocked (queues s) (heap s)) pre ->
  run_data (length pre + n) s (with_ready s (pre ++ post)) = run_data n s (with_ready s (post ++ pre)).
Proof.
  intros Hi Hpre. revert post. induction Hpre as [|id pre Hid _ IH]; intros post; simpl.
  - by rewrite app_nil_r.
  - change (S (length pre + n)) with (S (length pre + n)%nat).
    rewrite (data_loop_blocked s _ id (pre ++ post) Hi Hid), <- app_assoc, IH.
    by rewrite <- app_assoc.
Qed.

Lemma data_loop_eligible s n id post c cs st : writer_inv s ->
  by_stream (queues s) !! id = Some (c :: cs) -> heap s !! oc_state c = Some st ->
  peer_settings (queues s) = true -> (send_count (queues s) st c = 0 -> oc_payload c = []) ->
  run_data (S n) s (with_ready s (id :: post))
  = (send_data id c cs (send_count (queues s) st c) ≫= fun f => mret (Some f)) (with_ready s post).
Proof.
  intros Hi Hcs Hst Hset Hz. unfold run_data. simpl.
  unfold mbind, M_bind, get_queues, upd_queues, gets, modify, lift, expect, get_state. simpl.
  rewrite Hcs. simpl. rewrite Hst. simpl. rewrite (sendable_eq s st c _ Hi Hst).
  replace (_ || _) with false; [done|]. symmetry. apply orb_false_iff. rewrite Hset. split; [done|].
  destruct (Z.eqb_spec (send_count (queues s) st c) 0) as [Hc|]; [|done].
  simpl. apply negb_false_iff, zlen_eqb_nil. auto.
Qed.

(** ** What sending does *)

Definition payload_left (c : OutboundChunk) (count : Z) : bytes := drop (Z.to_nat count) (oc_payload c).
Definition sent_payload (c : OutboundChunk) (count : Z) : bytes := take (Z.to_nat count) (oc_payload c).
Definition sent_fin (c : OutboundChunk) (count : Z) : bool :=
  oc_fin c && (zlen (payload_left c count) =? 0).
Definition queue_left (c : OutboundChunk) (rest : list OutboundChunk) (count : Z) : list OutboundChunk :=
  if zlen (payload_left c count) =? 0 then rest
  else c <| oc_payload := payload_left c count |> :: rest.

Definition sent_stream (c : OutboundChunk) (count : Z) (st : StreamState) : StreamState :=
  st <| st_sent ::= Z.add count |>
     <| send_dispatched := send_dispatched st || sent_fin c count |>.
Definition sent_queues (id : Z) (c : OutboundChunk) (rest : list OutboundChunk) (count : Z)
    (q : WriterQueues) : WriterQueues :=
  q <| by_stream ::= match queue_left c rest count with
                     | [] => delete id
                     | remaining => insert id remaining
                     end |>
    <| ready ::= (fun r => r ++ match queue_left c rest count with [] => [] | _ => [id] end) |>
    <| sent ::= Z.add count |> <| control_turn := true |>.
Definition sent_state (id : Z) (c : OutboundChunk) (rest : list OutboundChunk) (count : Z)
    (s : ConnectionShared) : ConnectionShared :=
  s <| queues ::= sent_queues id c rest count |>
    <| heap ::= alter (sent_stream c count) (oc_state c) |>.

#[local] Arguments sent_stream : simpl never.

(** Two updates of the queues and of one stream state, up to permits. *)
Lemma core_eq_trans_upd s s' (q : WriterQueues -> WriterQueues) :
  s ≈ s' -> s <| queues ::= q |> ≈ s' <| queues ::= q |>.
Proof.
  intros H. change ((core s) <| queues ::= q |> = (core s') <| queues ::= q |>). by rewrite H.
Qed.

Lemma wp_put_back id q count s (Q : unit -> ConnectionShared -> Prop) R :
  0 <= count -> 0 <= sent (queues s) -> sent (queues s) + count <= u64_max ->
  Q tt (s <| queues ::= (fun qs =>
     match q with
     | [] => qs <| by_stream ::= delete id |>
     | _ => qs <| by_stream ::= insert id q |> <| ready ::= (fun r => r ++ [id]) |>
     end <| sent ::= Z.add count |> <| control_turn := true |>) |>) ->
  wp (put_back id q count) s Q R.
Proof.
  intros Hc Hs Hb HQ. unfold put_back. wp_steps.
  unfold upd_queues, get_queues. wp_steps.
  match goal with |- context [checked_add ?x ?y] =>
    assert (Hx : checked_add x y = Some (count + sent (queues s)))
  end.
  { rewrite ReceiveWindow.as_u64_small by lia. destruct q; simpl; apply checked_add_Some; lia. }
  rewrite Hx. simpl expect. wp_steps. by destruct q.
Qed.

Lemma wp_send_data id c rest count s (Q : Frame -> ConnectionShared -> Prop) R :
  0 <= count -> 0 <= sent (queues s) -> sent (queues s) + count <= u64_max ->
  (forall st, heap s !! oc_state c = Some st -> 0 <= st_sent st /\ st_sent st + count <= u64_max) ->
  (forall s', s' ≈ sent_state id c rest count s ->
     Q (Stream (oc_stream_id c) (sent_fin c count) (sent_payload c count)) s') ->
  wp (send_data id c rest count) s Q R.
Proof.
  intros Hc Hs0 Hsent Hst HQ. unfold send_data.
  assert (Htail : forall s1, s1 ≈ s <| heap ::= alter (sent_stream c count) (oc_state c) |> ->
    wp (put_back id (queue_left c rest count) count) s1
       (fun _ s' => Q (Stream (oc_stream_id c) (sent_fin c count) (sent_payload c count)) s') R).
  { intros s1 Hs1. pose proof (core_eq_queues _ _ Hs1) as Hq. simpl in Hq.
    apply wp_put_back; rewrite ?Hq; try done. apply HQ.
    etrans; [apply core_eq_trans_upd; exact Hs1|].
    unfold sent_state, sent_queues, core_eq, core. simpl.
    destruct (queue_left c rest count); by rewrite ?app_nil_r. }
  assert (Hw : forall st, heap s !! oc_state c = Some st ->
    wrapping_add (st_sent st) (as_u64 count) = count + st_sent st).
  { intros st Hl. destruct (Hst st Hl). unfold wrapping_add.
    rewrite !ReceiveWindow.as_u64_small; try lia. rewrite ReceiveWindow.as_u64_small; lia. }
  wp_steps. apply wp_modify.
  set (s1 := s <| heap ::= _ |>).
  assert (Hfin : wp (when (sent_fin c count)
      (upd_state (oc_state c) (fun st => st <| send_dispatched := true |>))) s1
      (fun _ s2 => s2 = s <| heap ::= alter (sent_stream c count) (oc_state c) |>) (fun _ _ => False)).
  { wp_step; [apply wp_modify|]; subst s1; unfold sent_stream; simpl; f_equal.
    - apply alter_alter_eq. intros st Hl. simpl. by rewrite (Hw st Hl), E, orb_true_r.
    - apply alter_ext_eq. intros st Hl. simpl. by rewrite (Hw st Hl), E, orb_false_r. }
  wp_step. eapply wp_mono; [exact Hfin| |done]. intros _ s2 ->. cbv beta.
  wp_step. apply wp_when; intros E.
  - apply wp_drop_outbound. intros s3 Hs3. wp_step. exact (Htail s3 Hs3).
  - wp_step. apply Htail. reflexivity.
Qed.

Lemma with_ready_id s : with_ready s (ready (queues s)) = s.
Proof. unfold with_ready. destruct s as [? ? ? ? ? ? ? q]. by destruct q. Qed.

(** The ready queue up to the first stream that can send. *)
Lemma split_ready s r : writer_inv s -> (forall id, id ∈ r -> id ∈ ready (queues s)) ->
  Forall (blocked (queues s) (heap s)) r \/
  exists pre id post, r = pre ++ id :: post /\ Forall (blocked (queues s) (heap s)) pre /\
    eligible (queues s) (heap s) id.
Proof.
  intros Hi. induction r as [|id r IH]; intros Hr; [by left|].
  destruct (blocked_or_eligible s id Hi) as [Hb|He]; [apply Hr; set_solver| |].
  - destruct IH as [IH|(pre & i & post & -> & Hpre & He)]; [set_solver|by left; constructor|].
    right. exists (id :: pre), i, post. split_and!; [done|by constructor|done].
  - right. by exists [], id, r.
Qed.

(** The frame that stream [id] sends next. *)
Record sends (s : ConnectionShared) (pre : list Z) (id : Z) (post : list Z) (c : OutboundChunk)
    (rest : list OutboundChunk) (st : StreamState) : Prop := {
  sd_ready : ready (queues s) = pre ++ id :: post;
  sd_blocked : Forall (blocked (queues s) (heap s)) pre;
  sd_queue : by_stream (queues s) !! id = Some (c :: rest);
  sd_state : heap s !! oc_state c = Some st;
  sd_settings : peer_settings (queues s) = true;
  sd_count : send_count (queues s) st c = 0 -> oc_payload c = []
}.

Lemma send_count_bounds s pre id post c rest st : writer_inv s -> sends s pre id post c rest st ->
  let n := send_count (queues s) st c in
  0 <= n <= zlen (oc_payload c) /\ n <= frame_room (peer_max_frame (queues s)) (oc_stream_id c) /\
  n <= conn_credit (queues s) /\ n <= stream_credit (queues s) st.
Proof.
  intros Hi []. pose proof (zlen_nonneg (oc_payload c)).
  destruct (frame_room_pos _ (oc_stream_id c) (wi_frame _ Hi)) as (? & _).
  destruct (wi_heap _ Hi _ _ sd_state0) as [? ? _]. pose proof (wi_credit _ Hi).
  unfold send_count, conn_credit, stream_credit. lia.
Qed.

Lemma wp_data s (Q : option Frame -> ConnectionShared -> Prop) R : writer_inv s ->
  (Forall (blocked (queues s) (heap s)) (ready (queues s)) -> Q None s) ->
  (forall pre id post c rest st s', sends s pre id post c rest st ->
     let n := send_count (queues s) st c in
     s' ≈ sent_state id c rest n (with_ready s (post ++ pre)) ->
     send_data id c rest n (with_ready s (post ++ pre))
       = (Ok (Stream (oc_stream_id c) (sent_fin c n) (sent_payload c n)), s') ->
     Q (Some (Stream (oc_stream_id c) (sent_fin c n) (sent_payload c n))) s') ->
  wp (data_loop (length (ready (queues s))) (saturating_sub (peer_limit (queues s)) (sent (queues s)))
       (peer_initial_stream_limit (queues s)) (peer_max_frame (queues s)) (peer_settings (queues s)))
     s Q R.
Proof.
  intros Hi Hnone Hsome. destruct (split_ready s (ready (queues s)) Hi) as [Hb|Hs]; [done|..].
  - eapply wp_exact; [|by apply Hnone].
    pose proof (data_loop_rotate s 0 _ [] Hi Hb) as Hrun.
    rewrite app_nil_r, Nat.add_0_r, with_ready_id in Hrun. unfold run_data in Hrun.
    rewrite Hrun. simpl. by rewrite with_ready_id.
  - destruct Hs as (pre & id & post & Hr & Hpre & (c & rest & st & Hq & Hst & Hset & Hc)).
    assert (Hsd : sends s pre id post c rest st) by done.
    pose proof (data_loop_rotate s (S (length post)) pre (id :: post) Hi Hpre) as Hrun.
    rewrite <- Hr, with_ready_id in Hrun. simpl app in Hrun.
    rewrite (data_loop_eligible s (length post) id (post ++ pre) c rest st) in Hrun by done.
    unfold run_data in Hrun. unfold wp.
    replace (length (ready (queues s))) with (length pre + S (length post))%nat
      by (rewrite Hr, length_app; done). rewrite Hrun. destruct (send_count_bounds _ _ _ _ _ _ _ Hi Hsd) as (Hn & _ & Hcc & Hsc).
    destruct (wi_heap _ Hi _ _ Hst) as [? ? _].
    pose proof (wi_credit _ Hi). pose proof (wi_limit _ Hi). pose proof (wi_initial _ Hi).
    unfold conn_credit, stream_credit in *. rewrite VarInt.MAX_eq in *.
    fold (wp (send_data id c rest (send_count (queues s) st c) ≫= fun f => mret (Some f))
            (with_ready s (post ++ pre)) Q R).
    assert (Hw : wp (send_data id c rest (send_count (queues s) st c)) (with_ready s (post ++ pre))
      (fun g s' => g = Stream (oc_stream_id c) (sent_fin c (send_count (queues s) st c)) (sent_payload c (send_count (queues s) st c)) /\
         s' ≈ sent_state id c rest (send_count (queues s) st c) (with_ready s (post ++ pre))) R).
    { apply wp_send_data; simpl; unfold u64_max; try lia; [|done]. intros st' Hst'. simplify_eq. lia. }
    apply wp_bind. eapply wp_mono; [apply wp_with_run, Hw| |done]. intros g s' (Hrun' & -> & Hs'). apply wp_ret.
    by apply (Hsome pre id post c rest st).
Qed.

(** ** Sending keeps the invariant *)

Lemma queue_left_ok h id c rest n : queue_ok h id (c :: rest) ->
  queue_left c rest n = [] \/ queue_ok h id (queue_left c rest n).
Proof.
  intros [_ Hc [Hf Hl]]. inv Hc. unfold queue_left.
  destruct (zlen (payload_left c n) =? 0) eqn:E.
  - destruct rest; [by left|right]. by split.
  - right. apply not_true_iff_false in E. rewrite zlen_eqb_nil in E. split; [done| |done].
    constructor; [|done]. destruct H1. split; try done. simpl.
    assert (zlen (payload_left c n) <= zlen (oc_payload c)); [|lia]. unfold payload_left, zlen. rewrite length_drop. lia.
Qed.

(** The bookkeeping of the ready queue and of the map of queues. *)
Lemma ready_put_back (m : gmap Z (list OutboundChunk)) pre id post q :
  NoDup (pre ++ id :: post) ->
  (forall i, i ∈ pre ++ id :: post <-> is_Some (m !! i)) ->
  let m' := (match q with [] => delete id | remaining => insert id remaining end) m in
  let r' := (post ++ pre) ++ match q with [] => [] | _ => [id] end in
  NoDup r' /\ forall i, i ∈ r' <-> is_Some (m' !! i).
Proof.
  intros Hnd Hd m' r'.
  assert (Hp : pre ++ id :: post ≡ₚ id :: post ++ pre) by (rewrite Permutation_app_comm; done).
  rewrite Hp in Hnd. apply NoDup_cons in Hnd as [Hid Hnd].
  assert (Hd' : forall i, i ∈ id :: post ++ pre <-> is_Some (m !! i)) by (intros i; by rewrite <- Hd, Hp).
  subst m' r'. destruct q as [|c q].
  - rewrite app_nil_r. split; [done|]. intros i. destruct (decide (i = id)) as [->|].
    + rewrite lookup_delete_eq. split; [done|by intros [? ?]].
    + rewrite lookup_delete_ne, <- Hd' by done. set_solver.
  - split.
    + rewrite (Permutation_app_comm (post ++ pre)). by constructor.
    + intros i. destruct (decide (i = id)) as [->|].
      * rewrite lookup_insert_eq. split; [by eexists|]. intros _. set_solver.
      * rewrite lookup_insert_ne, <- Hd' by done. set_solver.
Qed.

Lemma queue_ok_heap h h' id cs : (forall l, is_Some (h !! l) -> is_Some (h' !! l)) ->
  queue_ok h id cs -> queue_ok h' id cs.
Proof.
  intros Hh [? Hc ?]. split; [done| |done]. eapply Forall_impl; [exact Hc|].
  intros c []. split; auto.
Qed.

Lemma writer_inv_sent s pre id post c rest st : writer_inv s -> sends s pre id post c rest st ->
  writer_inv (sent_state id c rest (send_count (queues s) st c) (with_ready s (post ++ pre))).
Proof.
  intros Hi Hsd. pose proof (send_count_bounds _ _ _ _ _ _ _ Hi Hsd) as (Hn & _ & Hcc & Hsc).
  destruct Hi, Hsd. rewrite sd_ready0 in wi_ready0, wi_dom0.
  destruct (ready_put_back (by_stream (queues s)) pre id post
              (queue_left c rest (send_count (queues s) st c))) as [Hnd Hd]; [done..|].
  unfold sent_state. split; simpl; try (exact Hnd || exact Hd || done).
  - intros i. specialize (Hd i). by destruct (queue_left c rest _).
  - intros i q Hq.
    assert (Hok : queue_ok (heap s) i q).
    { destruct (queue_left_ok _ _ _ _ (send_count (queues s) st c) (wi_queues0 _ _ sd_queue0)) as [E|E].
      - rewrite E in Hq. apply lookup_delete_Some in Hq as [_ Hq]. by apply wi_queues0.
      - destruct (queue_left _ _ _); [by destruct E|].
        apply lookup_insert_Some in Hq as [[<- <-]|[_ Hq]]; [done|by apply wi_queues0]. }
    eapply queue_ok_heap; [|exact Hok]. intros l. apply alter_is_Some.
  - intros l st' Hl. destruct (decide (oc_state c = l)) as [<-|]; simplify_map_eq.
    + destruct (wi_heap0 _ _ sd_state0). unfold stream_credit in Hsc. split; unfold sent_stream; simpl; (done || lia).
    + by apply wi_heap0 in Hl.
  - unfold conn_credit in Hcc. lia.
Qed.

(** ** Control work *)

(** A stream that still hands out credit. *)
Definition receiving (st : StreamState) : bool := negb (recv_terminal st || recv_discarded st).
Definition raise_window (st : StreamState) : StreamState := st <| st_window ::= ReceiveWindow.raised |>.

Lemma upd_window_id s l st : heap s !! l = Some st ->
  s <| heap ::= alter (fun st' => st' <| st_window := st_window st |>) l |> = s.
Proof.
  intros Hl. destruct s; simpl in *. f_equal. apply alter_id. intros st' Hst'.
  simplify_eq. by destruct st.
Qed.

Lemma wp_find_stream_update ws s (Q : option Frame -> ConnectionShared -> Prop) R :
  (forall id l, (id, l) ∈ ws -> 0 <= id <= VarInt.MAX) ->
  (forall l st, heap s !! l = Some st -> ReceiveWindow.inv (st_window st)) ->
  ((forall id l st, (id, l) ∈ ws -> heap s !! l = Some st -> receiving st = true ->
      ReceiveWindow.needs_update (st_window st) = false) -> Q None s) ->
  (forall id l st, (id, l) ∈ ws -> heap s !! l = Some st -> receiving st = true ->
     ReceiveWindow.needs_update (st_window st) = true ->
     Q (Some (MaxStreamData (mkVarInt id) (mkVarInt (ReceiveWindow.next_limit (st_window st)))))
       (s <| heap ::= alter raise_window l |>)) ->
  wp (find_stream_update ws) s Q R.
Proof.
  induction ws as [|[id l] ws IH]; intros Hid Hinv Hnone Hsome; cbn [find_stream_update].
  { apply wp_ret, Hnone. set_solver. }
  assert (Hskip : (forall st, heap s !! l = Some st -> receiving st = true ->
      ReceiveWindow.needs_update (st_window st) = false) -> wp (find_stream_update ws) s Q R).
  { intros Hl. apply IH; [set_solver|done| |].
    - intros Hall. apply Hnone. intros i k st Hin. apply elem_of_cons in Hin as [[= -> ->]|Hin]; [auto|].
      by apply (Hall i).
    - intros i k st Hin. apply Hsome. set_solver. }
  wp_steps. destruct (heap s !! l) as [st|] eqn:Hl; [|apply Hskip; by intros ?].
  destruct (receiving st) eqn:Hrec; unfold receiving in Hrec.
  2: { apply negb_false_iff in Hrec. rewrite Hrec. apply Hskip. intros st' ?. simplify_eq.
       unfold receiving. by rewrite Hrec. }
  apply negb_true_iff in Hrec. rewrite Hrec.
  rewrite ReceiveWindow.update_eq by eauto.
  destruct (ReceiveWindow.needs_update (st_window st)) eqn:Hn.
  - unfold upd_state. wp_steps. rewrite VarInt.from_u64_ok by (apply (Hid id l); set_solver).
    cbn [ok expect]. wp_steps. replace (s <| heap ::= _ |>) with (s <| heap ::= alter raise_window l |>).
    + apply (Hsome id); [set_solver|done| |done]. unfold receiving. by rewrite Hrec.
    + simpl. f_equal. apply alter_ext_eq. intros st' ?. by simplify_eq.
  - unfold upd_state. wp_steps. rewrite upd_window_id by done. apply Hskip.
    intros st' ?. by simplify_eq.
Qed.

Lemma elem_hash_iter `{!HashIterLaws HI} {A} (m : gmap Z A) id a :
  (id, a) ∈ hash_iter m <-> m !! id = Some a.
Proof. by rewrite hash_iter_perm, elem_of_map_to_list. Qed.

(** ** The outcomes of [next_frame] *)

(** No stream can send. *)
Definition no_data (s : ConnectionShared) : Prop :=
  Forall (blocked (queues s) (heap s)) (ready (queues s)).
(** No control frame is queued and no credit update is due. *)
Record no_control (s : ConnectionShared) : Prop := {
  nc_control : control (queues s) = [];
  nc_window : ReceiveWindow.needs_update (receive_window s) = false;
  nc_windows : forall id l st, receive_windows (queues s) !! id = Some l -> heap s !! l = Some st ->
    receiving st = true -> ReceiveWindow.needs_update (st_window st) = false
}.
(** The connection was closed with an error: only CLOSE may follow. *)
Definition abortive (q : WriterQueues) : bool := closing q && negb (graceful_close q).
(** The writer has sent everything it may and only CLOSE is left. *)
Record drained (s : ConnectionShared) : Prop := {
  dr_closing : closing (queues s) = true;
  dr_data : by_stream (queues s) = ∅;
  dr_control : no_control s
}.

(** The CLOSE frame with the reason cut to what the peer accepts. *)
Definition fit_close (q : WriterQueues) (f : Frame) : Frame :=
  match f with
  | ConnectionClose c r =>
      let maximum := saturating_sub (peer_max_frame q) (1 + ErrorCode.encoded_len c + 8) in
      if maximum <? zlen r then ConnectionClose c (take (back_to_boundary r (Z.to_nat maximum)) r) else f
  | _ => f
  end.

Inductive outcome (s : ConnectionShared) : Poll (option Frame) -> ConnectionShared -> Prop :=
| out_control f rest :
    abortive (queues s) = false -> control (queues s) = f :: rest ->
    control_turn (queues s) = true \/ is_urgent f = true \/ no_data s ->
    outcome s (Ready (Some f))
      (s <| queues ::= (fun q => q <| control := rest |> <| control_turn := false |>) |>)
| out_max_data :
    abortive (queues s) = false -> control (queues s) = [] ->
    control_turn (queues s) = true \/ no_data s ->
    ReceiveWindow.needs_update (receive_window s) = true ->
    outcome s (Ready (Some (MaxData (mkVarInt (ReceiveWindow.next_limit (receive_window s))))))
      (s <| receive_window ::= ReceiveWindow.raised |>
         <| queues ::= (fun q => q <| control_turn := false |>) |>)
| out_max_stream_data id l st :
    abortive (queues s) = false -> control (queues s) = [] ->
    control_turn (queues s) = true \/ no_data s ->
    ReceiveWindow.needs_update (receive_window s) = false ->
    receive_windows (queues s) !! id = Some l -> heap s !! l = Some st -> receiving st = true ->
    ReceiveWindow.needs_update (st_window st) = true ->
    outcome s
      (Ready (Some (MaxStreamData (mkVarInt id)
                      (mkVarInt (ReceiveWindow.next_limit (st_window st))))))
      (s <| heap ::= alter raise_window l |>
         <| queues ::= (fun q => q <| control_turn := false |>) |>)
| out_data pre id post c rest st s' :
    abortive (queues s) = false ->
    (control_turn (queues s) = true -> no_control s) ->
    (forall f, head (control (queues s)) = Some f -> is_urgent f = false) ->
    sends s pre id post c rest st ->
    let n := send_count (queues s) st c in
    s' ≈ sent_state id c rest n (with_ready s (post ++ pre)) ->
    send_data id c rest n (with_ready s (post ++ pre))
      = (Ok (Stream (oc_stream_id c) (sent_fin c n) (sent_payload c n)), s') ->
    outcome s (Ready (Some (Stream (oc_stream_id c) (sent_fin c n) (sent_payload c n)))) s'
| out_close turn :
    abortive (queues s) = true \/ drained s ->
    outcome s (Ready (fit_close (queues s) <$> close_frame (queues s)))
      (s <| queues ::= (fun q => q <| close_frame := None |> <| control_turn := turn |>) |>)
| out_wait :
    no_control s -> no_data s -> abortive (queues s) = false -> ~ drained s ->
    outcome s Pending (s <| queues ::= (fun q => q <| control_turn := true |>) |>).

Lemma wp_take_close_frame s (Q : option Frame -> ConnectionShared -> Prop) R :
  Q (fit_close (queues s) <$> close_frame (queues s))
    (s <| queues ::= (fun q => q <| close_frame := None |>) |>) ->
  wp take_close_frame s Q R.
Proof.
  intros HQ. unfold take_close_frame, get_queues, upd_queues. wp_steps.
  destruct (close_frame (queues s)) as [f|] eqn:E.
  - wp_steps. simpl in HQ. destruct f; wp_steps; try exact HQ.
    all: simpl in HQ; by rewrite ?(proj2 (Z.ltb_lt _ _)), ?(proj2 (Z.ltb_ge _ _)) in HQ by done.
  - apply wp_ret. simpl in HQ.
    destruct s as [? ? ? ? ? ? ? q]. destruct q. simpl in *. by subst.
Qed.

Lemma wp_control_work `{!HashIterLaws HI} s (Q : option Frame -> ConnectionShared -> Prop) R :
  writer_inv s -> abortive (queues s) = false ->
  (control_turn (queues s) = true \/
     (exists f, head (control (queues s)) = Some f /\ is_urgent f = true) \/ no_data s) ->
  (no_control s -> Q None s) ->
  (forall f s', outcome s (Ready (Some f)) s' -> Q (Some f) s') ->
  wp control_work s Q R.
Proof.
  intros Hi Hab Hturn Hnone Hsome. unfold control_work, get_queues, upd_queues. wp_steps.
  destruct (control (queues s)) as [|f rest] eqn:Hc.
  2: { wp_steps. apply Hsome, out_control; try done.
       destruct Hturn as [?|[(? & [= ->] & ?)|?]]; auto. }
  assert (Ht : control_turn (queues s) = true \/ no_data s).
  { destruct Hturn as [?|[(? & ? & ?)|?]]; [by left|done|by right]. }
  wp_step. unfold conn_window_update, wp at 1. rewrite ReceiveWindow.update_eq by apply Hi.
  destruct (ReceiveWindow.needs_update (receive_window s)) eqn:Hn.
  { wp_steps. by apply Hsome, out_max_data. }
  replace (s <| receive_window := receive_window s |>) with s by (by destruct s).
  wp_steps. apply wp_find_stream_update.
  - intros id l Hin%elem_hash_iter. by apply (wi_windows _ Hi id l).
  - intros l st Hl. by destruct (wi_heap _ Hi _ _ Hl).
  - intros Hall. wp_steps. apply Hnone. split; [done..|].
    intros id l st Hr. apply Hall with id. by apply elem_hash_iter.
  - intros id l st Hin%elem_hash_iter Hl Hrec Hup. wp_steps.
    apply Hsome. by eapply out_max_stream_data.
Qed.

(** Giving the turn to the control queue. *)
Definition flip (s : ConnectionShared) : ConnectionShared :=
  s <| queues ::= (fun q => q <| control_turn := true |>) |>.

Lemma flip_id s : control_turn (queues s) = true -> flip s = s.
Proof. unfold flip. destruct s as [? ? ? ? ? ? ? q]. destruct q. simpl. by intros ->. Qed.

Lemma out_wait_flip s : control_turn (queues s) = true ->
  no_control s -> no_data s -> abortive (queues s) = false -> ~ drained s -> outcome s Pending s.
Proof.
  intros Hct Hc Hd Ha Hdr. pose proof (out_wait s Hc Hd Ha Hdr) as Ho.
  fold (flip s) in Ho. by rewrite flip_id in Ho.
Qed.

(** What one turn of the loop leaves. *)
Definition turn_post (s : ConnectionShared) (t : Turn) (s' : ConnectionShared) : Prop :=
  match t with
  | Return f => outcome s (Ready f) s'
  | Continue => control_turn (queues s) = false /\ no_data s /\ s' = flip s /\
                abortive (queues s) = false
  | Await => outcome s Pending s'
  end.

Lemma wp_data_turn s : writer_inv s -> abortive (queues s) = false ->
  (control_turn (queues s) = true -> no_control s) ->
  (forall f, head (control (queues s)) = Some f -> is_urgent f = false) ->
  wp data_turn s (turn_post s) (fun _ _ => False).
Proof.
  intros Hi Hab Hnc Hu. unfold data_turn, get_queues, upd_queues. wp_step. wp_step. wp_step.
  apply wp_data; [done| |].
  - intros Hnd. wp_step. wp_step. destruct (control_turn (queues s)) eqn:Hct; simpl negb.
    2: by wp_steps.
    wp_step.
    specialize (Hnc eq_refl). destruct (closing (queues s)) eqn:Hcl; simpl andb.
    + case_bool_decide as Hbs.
      * wp_steps. apply wp_take_close_frame. wp_step.
        apply (out_close s (control_turn (queues s))). by right.
      * wp_steps. apply out_wait_flip; try done. by intros [].
    + wp_steps. apply out_wait_flip; try done. intros []. congruence.
  - intros pre id post c rest st s' Hsd n Hs' Hrun. wp_step. by eapply out_data.
Qed.

Lemma wp_next_frame_turn `{!HashIterLaws HI} s : writer_inv s ->
  wp next_frame_turn s (turn_post s) (fun _ _ => False).
Proof.
  intros Hi. unfold next_frame_turn, get_queues. wp_step. wp_step.
  fold (abortive (queues s)). destruct (abortive (queues s)) eqn:Hab.
  { wp_step. apply wp_take_close_frame. wp_step.
    apply (out_close s (control_turn (queues s))). by left. }
  set (urgent := match head (control (queues s)) with Some f => is_urgent f | None => false end).
  wp_step. destruct (control_turn (queues s) || urgent) eqn:Hcu.
  - apply wp_control_work; [done..| | |].
    + apply orb_true_iff in Hcu as [?|Hu]; [by left|right; left]. subst urgent.
      destruct (head (control (queues s))); [by eexists|done].
    + intros Hnc. apply wp_data_turn; try done. by rewrite (nc_control _ Hnc).
    + intros f s' Hout. by wp_step.
  - apply orb_false_iff in Hcu as [Hct Hu]. wp_step. apply wp_data_turn; try done.
    + by rewrite Hct.
    + intros f Hf. subst urgent. by rewrite Hf in Hu.
Qed.

Lemma blocked_not_sends s pre id post c rest st : no_data s -> ~ sends s pre id post c rest st.
Proof.
  intros Hnd []. assert (Hb : blocked (queues s) (heap s) id).
  { eapply Forall_forall; [exact Hnd|]. rewrite sd_ready0. set_solver. }
  destruct Hb as (c' & cs' & st' & ? & ? & Hb). simplify_eq. destruct Hb as [|[? ?]]; [congruence|auto].
Qed.

Lemma outcome_flip s p s' : no_data s -> abortive (queues s) = false ->
  outcome (flip s) p s' -> outcome s p s'.
Proof.
  intros Hnd Hab Ho. destruct Ho as [f rest|  |id l st|pre id post c rest st s' ? ? ? Hsd|turn Hcl|].
  - refine (out_control s f rest _ _ _); auto.
  - refine (out_max_data s _ _ _ _); auto.
  - refine (out_max_stream_data s id l st _ _ _ _ _ _ _ _); auto.
  - by apply blocked_not_sends in Hsd.
  - apply (out_close s turn). destruct Hcl as [Hcl|[? ? [? ? ?]]]; [by left|right]. by repeat split.
  - apply (out_wait s); try done.
    + match goal with H : no_control _ |- _ => by destruct H end.
    + intros [? ? []]. match goal with H : ~ drained _ |- _ => apply H end. by repeat split.
Qed.

Lemma writer_inv_flip s : writer_inv s -> writer_inv (flip s).
Proof. intros []. by split. Qed.

(** Two turns of the loop are enough. *)
Lemma wp_next_frame `{!HashIterLaws HI} s : writer_inv s ->
  wp next_frame s (outcome s) (fun _ _ => False).
Proof.
  intros Hi. unfold next_frame. cbn [next_frame_fuel]. wp_step.
  eapply wp_mono; [by apply wp_next_frame_turn| |done].
  intros [f| |] s1 Ht; cbn [turn_post] in Ht; [by wp_step| |by wp_step].
  destruct Ht as (Hct & Hnd & -> & Hab). wp_step.
  eapply wp_mono; [apply wp_next_frame_turn, writer_inv_flip, Hi| |done].
  intros [f| |] s2 Ht; cbn [turn_post] in Ht; [wp_step| |wp_step].
  - by apply outcome_flip.
  - by destruct Ht.
  - by apply outcome_flip.
Qed.

Lemma raise_window_ok i st : stream_ok i st -> ReceiveWindow.needs_update (st_window st) = true ->
  stream_ok i (raise_window st).
Proof. intros [] H. split; simpl; try done. by apply ReceiveWindow.raised_inv. Qed.

Lemma outcome_inv s p s' : writer_inv s -> outcome s p s' -> writer_inv s'.
Proof.
  intros Hi Ho. destruct Ho as [f rest ? Hc|  |id l st ? ? ? ? ? Hl ? Hn|pre id post c rest st s' ? ? ? ? ? Hs' ?| |].
  - destruct Hi. rewrite Hc in wi_control0. inv wi_control0. by split.
  - destruct Hi. split; try done. by apply ReceiveWindow.raised_inv.
  - destruct Hi. split; try done; simpl.
    + intros i cs Hcs. eapply queue_ok_heap; [|by apply wi_queues0]. intros k. apply alter_is_Some.
    + intros k st' Hk. destruct (decide (l = k)) as [<-|]; simplify_map_eq.
      * apply raise_window_ok; [|done]. by apply (wi_heap0 l).
      * by apply wi_heap0 in Hk.
  - rewrite Hs'. by apply (writer_inv_sent s pre id post c rest st).
  - destruct Hi. by split.
  - destruct Hi. by split.
Qed.

(** ** The abstract queues

    Abstractly the writer holds, for each stream, the bytes that are still to be
    sent and whether a FIN follows them. *)

Definition pending (cs : list OutboundChunk) : bytes * bool :=
  (concat (map oc_payload cs), existsb oc_fin cs).
Definition view (q : WriterQueues) : gmap Z (bytes * bool) := pending <$> by_stream q.

(** Sending a frame takes a prefix of one stream; a FIN is sent with the last
    byte, and no frame is sent for nothing. *)
Inductive abs_send (m : gmap Z (bytes * bool)) : Frame -> gmap Z (bytes * bool) -> Prop :=
| abs_stream id fin payload rest fin_queued :
    m !! id = Some (payload ++ rest, fin_queued) ->
    (fin = true -> rest = [] /\ fin_queued = true) ->
    (payload = [] -> fin = true) ->
    abs_send m (Stream (mkVarInt id) fin payload)
      (if fin || (bool_decide (rest = []) && negb fin_queued) then delete id m
       else <[id := (rest, fin_queued)]> m)
| abs_other f : (forall id fin payload, f <> Stream id fin payload) -> abs_send m f m.

Lemma pending_nonempty h id cs : queue_ok h id cs -> pending cs <> ([], false).
Proof.
  intros [Hne Hc _]. destruct cs as [|c cs]; [done|]. inv Hc. destruct H1.
  unfold pending. simpl. intros [= Hp Hf]. apply app_eq_nil in Hp as [Hp _].
  apply orb_false_iff in Hf as [Hf _]. rewrite co_payload0 in Hf; done.
Qed.

(** What is left of a queue, abstractly. *)
Lemma pending_left h id c rest n : queue_ok h id (c :: rest) ->
  let bytes_left := payload_left c n ++ concat (map oc_payload rest) in
  let gone := sent_fin c n || (bool_decide (bytes_left = []) && negb (existsb oc_fin (c :: rest))) in
  if gone then queue_left c rest n = []
  else queue_left c rest n <> [] /\
       pending (queue_left c rest n) = (bytes_left, existsb oc_fin (c :: rest)).
Proof.
  intros Hok bytes_left gone. pose proof (queue_left_ok _ _ _ _ n Hok) as Hleft.
  pose proof Hok as [_ _ [Hfin _]]. subst bytes_left gone.
  unfold queue_left, sent_fin in *. simpl.
  destruct (zlen (payload_left c n) =? 0) eqn:El.
  - apply zlen_eqb_nil in El. rewrite El. simpl.
    destruct (oc_fin c); simpl; [by rewrite Hfin|].
    destruct Hleft as [->|Hl]; [done|]. pose proof (pending_nonempty _ _ _ Hl) as Hp.
    unfold pending in *. destruct rest; [by destruct Hl|].
    case_bool_decide as Hb; [|by split]. simpl in *. rewrite Hb in *.
    by destruct (oc_fin o || existsb oc_fin rest).
  - apply not_true_iff_false in El. rewrite zlen_eqb_nil in El.
    rewrite andb_false_r, bool_decide_false by (by intros [? ?]%app_eq_nil). by split.
Qed.

Lemma send_view s pre id post c rest st : writer_inv s -> sends s pre id post c rest st ->
  let n := send_count (queues s) st c in
  abs_send (view (queues s)) (Stream (oc_stream_id c) (sent_fin c n) (sent_payload c n))
    (view (sent_queues id c rest n (queues s))).
Proof.
  intros Hi Hsd n. destruct Hsd. pose proof (wi_queues _ Hi _ _ sd_queue0) as Hok.
  pose proof Hok as [_ Hc [Hfin _]]. inv Hc. destruct H1.
  replace (oc_stream_id c) with (mkVarInt id) by (rewrite <- co_id0; by destruct (oc_stream_id c)).
  pose proof (abs_stream (view (queues s)) id (sent_fin c n) (sent_payload c n)
    (payload_left c n ++ concat (map oc_payload rest)) (existsb oc_fin (c :: rest))) as Hstep.
  match type of Hstep with _ -> _ -> _ -> abs_send _ _ ?m =>
    assert (Hm : view (sent_queues id c rest n (queues s)) = m) end.
  { pose proof (pending_left _ _ _ _ n Hok) as Hp. unfold view, sent_queues. simpl in *.
    case_match.
    - rewrite Hp. apply fmap_delete.
    - destruct Hp as [Hne Hp]. destruct (queue_left c rest n) eqn:E; [done|].
      by rewrite fmap_insert, Hp. }
  rewrite Hm. apply Hstep.
  - unfold view. rewrite lookup_fmap, sd_queue0. unfold pending, sent_payload, payload_left. simpl.
    by rewrite app_assoc, take_drop.
  - unfold sent_fin. intros [Hf Hl]%andb_true_iff. apply zlen_eqb_nil in Hl.
    rewrite Hl, (Hfin Hf). simpl. by rewrite Hf.
  - intros Hp. unfold sent_payload, sent_fin, payload_left in *.
    pose proof (send_count_bounds s pre _ post c rest st Hi ltac:(done)) as ((? & ?) & _). fold n in H, H0.
    assert (Hpl : oc_payload c = []).
    { apply sd_count0. fold n. apply (f_equal zlen) in Hp. unfold zlen in *. rewrite length_take in Hp.
      simpl in Hp. destruct (decide (oc_payload c = [])) as [Hz|]; [rewrite Hz in *; simpl in *; lia|].
      lia. }
    rewrite co_payload0, Hpl by done. by rewrite drop_nil.
Qed.

(** ** Queueing *)

Lemma fin_last_app cs c : fin_last cs -> existsb oc_fin cs = false -> fin_last (cs ++ [c]).
Proof.
  induction cs as [|d cs IH]; simpl; [done|]. intros [_ Hl] [Hd Hf]%orb_false_iff.
  split; [congruence|auto].
Qed.

Definition set_queue (id : Z) (cs : list OutboundChunk) (was_empty : bool) (s : ConnectionShared) :=
  s <| queues ::= (fun q => q <| by_stream ::= insert id cs |>
                              <| ready ::= (fun r => if was_empty then r ++ [id] else r) |>) |>
    <| wakes ::= cons WakeWriter |>.

Lemma wp_enqueue_data id c st s (Q : bool -> ConnectionShared -> Prop) R :
  heap s !! oc_state c = Some st ->
  (closing (queues s) || send_terminal st = true -> forall s', s' ≈ s -> Q false s') ->
  (closing (queues s) || send_terminal st = false ->
     let cs := default [] (by_stream (queues s) !! id) in
     Q true (set_queue id (cs ++ [c]) (match cs with [] => true | _ => false end) s)) ->
  wp (enqueue_data id c) s Q R.
Proof.
  intros Hst Hno Hyes. unfold enqueue_data, get_queues, upd_queues, notify, get_state.
  wp_step. wp_step. wp_step. unfold wp at 1. rewrite Hst.
  destruct (closing (queues s) || send_terminal st) eqn:E.
  - wp_steps. apply wp_drop_outbound. intros s' Hs'. wp_step. by apply Hno.
  - specialize (Hyes eq_refl). cbv zeta in Hyes. unfold set_queue in Hyes.
    destruct (default [] (by_stream (queues s) !! id)); unfold when; wp_steps; exact Hyes.
Qed.

Lemma writer_inv_enqueue id c s : writer_inv s -> chunk_ok (heap s) id c ->
  let cs := default [] (by_stream (queues s) !! id) in
  existsb oc_fin cs = false ->
  writer_inv (set_queue id (cs ++ [c]) (match cs with [] => true | _ => false end) s).
Proof.
  intros Hi Hc cs Hf. pose proof Hi as [].
  assert (Hcs : match cs with [] => by_stream (queues s) !! id = None
                | _ => by_stream (queues s) !! id = Some cs end).
  { subst cs. destruct (by_stream (queues s) !! id) as [[|d cs]|] eqn:E; simpl; try done.
    by destruct (wi_queues0 _ _ E). }
  assert (Hok : queue_ok (heap s) id (cs ++ [c])).
  { split; [by destruct cs|..].
    - apply Forall_app. split; [|by constructor]. destruct cs; [done|]. by destruct (wi_queues0 _ _ Hcs).
    - apply fin_last_app; [|done]. destruct cs; [done|]. by destruct (wi_queues0 _ _ Hcs). }
  split; try done; simpl.
  - destruct cs; [|done]. apply NoDup_app. split_and!; [done| |apply NoDup_singleton].
    intros i Hi' Hin. assert (i = id) as -> by set_solver. apply wi_dom0 in Hi' as [? ?]. congruence.
  - intros i. destruct (decide (i = id)) as [->|].
    + rewrite lookup_insert_eq. split; [by eexists|]. intros _.
      destruct cs; [set_solver|]. apply wi_dom0. by eexists.
    + rewrite lookup_insert_ne, <- wi_dom0 by done. destruct cs; set_solver.
  - apply map_Forall_insert_2; [done|]. done.
Qed.

(** Abstractly a chunk is appended to its stream. *)
Definition abs_enqueue (id : Z) (payload : bytes) (fin : bool) (m : gmap Z (bytes * bool)) :=
  <[id := ((default ([], false) (m !! id)).1 ++ payload, fin)]> m.

Lemma enqueue_view id c s :
  let cs := default [] (by_stream (queues s) !! id) in
  existsb oc_fin cs = false ->
  view (queues (set_queue id (cs ++ [c]) (match cs with [] => true | _ => false end) s))
  = abs_enqueue id (oc_payload c) (oc_fin c) (view (queues s)).
Proof.
  intros cs Hf. unfold view, abs_enqueue, set_queue. simpl. rewrite fmap_insert, lookup_fmap.
  f_equal. unfold pending. rewrite map_app, concat_app, existsb_app, Hf. simpl.
  rewrite app_nil_r, orb_false_r. subst cs. by destruct (by_stream (queues s) !! id).
Qed.

End spec.
