(* ===== verification/Scheduler.v ===== *)
(** Properties of the writer's scheduler [next_frame] and of its queues, from the
    outcomes of [WriterSpec]. *)

From S2P Require Import Prelude Hoare Varint Utf8 Frames Errors Limits Flow Tokio.
From S2P Require Import ConnState Writer WriterSpec.

#[local] Open Scope Z_scope.

Section properties.
Context {TK : Tokio} {HI : HashIter}.
Implicit Types s : ConnectionShared.
Infix "≈" := core_eq (at level 70).

(** ** Lemmas *)

Lemma next_frame_outcome `{!HashIterLaws HI} s p s' : writer_inv s ->
  next_frame s = (Ok p, s') -> outcome s p s' /\ writer_inv s'.
Proof.
  intros Hi Hrun. pose proof (wp_run _ _ _ _ _ _ Hrun (wp_next_frame s Hi)) as Ho. simpl in Ho.
  split; [done|]. by eapply outcome_inv.
Qed.

Lemma back_to_boundary_spec r n :
  let k := back_to_boundary r n in
  (k <= n)%nat /\ is_char_boundary r k = true /\
  forall j, (k < j <= n)%nat -> is_char_boundary r j = false.
Proof.
  induction n as [|n IH]; simpl.
  - split_and!; [lia|done|lia].
  - destruct (is_char_boundary r (S n)) eqn:E.
    + split_and!; [lia|done|lia].
    + destruct IH as (? & ? & Hj). split_and!; [lia|done|]. intros j Hj'.
      destruct (decide (j = S n)) as [->|]; [done|]. apply Hj. lia.
Qed.

(** The room for the reason of a CLOSE frame. *)
Definition reason_room (q : WriterQueues) (c : ErrorCode) : Z :=
  peer_max_frame q - (1 + ErrorCode.encoded_len c + 8).

(** [r] is [r0] cut at the last character boundary that fits in [room]. *)
Record cut_reason (room : Z) (r0 r : bytes) : Prop := {
  cr_prefix : r `prefix_of` r0;
  cr_utf8 : utf8_valid r = true;
  cr_fits : zlen r <= room;
  cr_whole : zlen r0 <= room -> r = r0;
  cr_longest : forall j, zlen r < Z.of_nat j <= room -> room < zlen r0 -> is_char_boundary r0 j = false
}.

Lemma fit_close_cut s f : writer_inv s -> close_frame (queues s) = Some f ->
  exists c r0 r, f = ConnectionClose c r0 /\ fit_close (queues s) f = ConnectionClose c r /\
    VarInt.wf (code c) /\ cut_reason (reason_room (queues s) c) r0 r.
Proof.
  intros Hi Hf. destruct (wi_close _ Hi f Hf) as (c & r & -> & [Hc Hu] & Hr).
  pose proof (wi_frame _ Hi) as Hmf. unfold Limits.MIN_FRAME_SIZE in Hmf.
  pose proof (VarInt.encoded_len_range (code c)) as Hel. fold (ErrorCode.encoded_len c) in Hel.
  exists c, r. unfold fit_close. fold (reason_room (queues s) c).
  assert (Hroom : saturating_sub (peer_max_frame (queues s)) (1 + ErrorCode.encoded_len c + 8)
                  = reason_room (queues s) c) by (unfold saturating_sub, reason_room; lia).
  rewrite Hroom. assert (0 <= reason_room (queues s) c) by (unfold reason_room; lia).
  destruct (Z.ltb_spec (reason_room (queues s) c) (zlen r)) as [Hlt|Hge].
  - destruct (back_to_boundary_spec r (Z.to_nat (reason_room (queues s) c))) as (Hk & Hb & Hj).
    eexists. split_and!; [done..|].
    assert (Hlen : length (take (back_to_boundary r (Z.to_nat (reason_room (queues s) c))) r)
                   = back_to_boundary r (Z.to_nat (reason_room (queues s) c))).
    { rewrite length_take. unfold zlen in Hlt. lia. }
    split; try lia; unfold zlen; rewrite ?Hlen.
    + apply prefix_take.
    + by apply utf8_take.
    + lia.
    + intros j Hj' _. apply Hj. lia.
  - eexists. split_and!; [done..|]. split; try done. lia.
Qed.

Lemma control_fits q f : Limits.MIN_FRAME_SIZE <= peer_max_frame q -> Limits.is_control f = true ->
  exists n, Frame.encoded_len f = Ok n /\ n <= peer_max_frame q.
Proof.
  intros Hq Hf. destruct (Limits.control_encoded_len f Hf) as (n & -> & Hn). exists n. split; [done|lia].
Qed.

Lemma len_u32 (l : bytes) : zlen l <= u32_max ->
  try_u64 (zlen l) = Ok (zlen l) /\ VarInt.from_u64 (zlen l) = Ok (mkVarInt (zlen l)).
Proof.
  intros Hl. pose proof (zlen_nonneg l). unfold try_u64, u32_max, u64_max in *.
  rewrite (proj2 (Z.leb_le 0 _)), (proj2 (Z.leb_le _ (2 ^ 64 - 1))) by lia.
  split; [done|]. apply VarInt.from_u64_ok. rewrite VarInt.MAX_eq. lia.
Qed.

Lemma stream_len id fin p : zlen p <= u32_max ->
  Frame.encoded_len (Stream id fin p)
  = Ok (1 + VarInt.encoded_len id + 1 + VarInt.encoded_len (mkVarInt (zlen p)) + zlen p).
Proof.
  intros Hp. destruct (len_u32 p Hp) as [H1 H2]. unfold Frame.encoded_len, mbind, Result_bind.
  by rewrite H1, H2.
Qed.

Lemma close_len c r : zlen r <= u32_max ->
  Frame.encoded_len (ConnectionClose c r)
  = Ok (1 + ErrorCode.encoded_len c + VarInt.encoded_len (mkVarInt (zlen r)) + zlen r).
Proof.
  intros Hp. destruct (len_u32 r Hp) as [H1 H2]. unfold Frame.encoded_len, mbind, Result_bind.
  by rewrite H1, H2.
Qed.

Lemma zlen_take (l : bytes) n : 0 <= n <= zlen l -> zlen (take (Z.to_nat n) l) = n.
Proof. intros H. unfold zlen in *. rewrite length_take. lia. Qed.

(** The stream frame fits, because its payload fits in the room. *)
Lemma send_fits s pre id post c rest st : writer_inv s -> sends s pre id post c rest st ->
  let n := send_count (queues s) st c in
  let f := Stream (oc_stream_id c) (sent_fin c n) (sent_payload c n) in
  zlen (sent_payload c n) = n /\ Frame.wf f /\
  exists k, Frame.encoded_len f = Ok k /\ k <= peer_max_frame (queues s).
Proof.
  intros Hi Hsd n f. destruct (send_count_bounds _ _ _ _ _ _ _ Hi Hsd) as (Hn & Hroom & _). fold n in Hn, Hroom.
  destruct (frame_room_pos _ (oc_stream_id c) (wi_frame _ Hi)) as (Hr & _ & Hfit).
  destruct Hsd. destruct (wi_queues _ Hi _ _ sd_queue) as [_ Hc _]. inv Hc. destruct H1.
  assert (Hlen : zlen (sent_payload c n) = n) by (by apply zlen_take).
  split_and!; [done..|]. subst f. rewrite stream_len, Hlen by lia.
  eexists. split; [done|]. apply Hfit. lia.
Qed.

(** ** Properties *)

(** C20: the writer never panics and never spins: in any state that satisfies its
    invariant, [next_frame] returns within two turns of its loop, with a frame, with
    the end of the connection, or waiting; and the invariant holds again. *)
Theorem next_frame_total `{!HashIterLaws HI} s : writer_inv s ->
  exists p s', next_frame s = (Ok p, s') /\ writer_inv s'.
Proof.
  intros Hi. destruct (wp_ok _ _ _ (wp_next_frame s Hi)) as (p & s' & Hrun & Ho).
  exists p, s'. split; [done|]. by eapply outcome_inv.
Qed.

(** The frame of an outcome is well formed and fits. *)
Lemma outcome_fits s f s' : writer_inv s -> outcome s (Ready (Some f)) s' ->
  Frame.wf f /\ exists n, Frame.encoded_len f = Ok n /\ n <= peer_max_frame (queues s).
Proof.
  intros Hi Ho.
  pose proof (wi_frame _ Hi) as [Hmf _].
  remember (Ready (Some f)) as p eqn:Hp. destruct Ho as [g rest ? Hc| |id l st ? ? ? ? Hr Hl ? Hn| | |];
    simplify_eq.
  - pose proof (wi_control _ Hi) as Hco. rewrite Hc in Hco.
    apply Forall_cons in Hco as [[Hic Hwf] _].
    split; [done|]. by apply control_fits.
  - split; [|by apply control_fits]. apply ReceiveWindow.raised_inv; [apply Hi|done].
  - split; [|by apply control_fits]. split; [by apply (wi_windows _ Hi id l)|].
    apply ReceiveWindow.raised_inv; [|done]. by destruct (wi_heap _ Hi _ _ Hl).
  - by eapply send_fits.
  - destruct (close_frame (queues s)) as [g|] eqn:Hg; [|done]. simplify_eq/=.
    destruct (fit_close_cut s g Hi Hg) as (c & r0 & r & -> & -> & Hwf & [_ Hu Hfit _ _]).
    split; [done|]. unfold reason_room in Hfit. pose proof (wi_frame _ Hi).
    pose proof (VarInt.encoded_len_range (code c)). pose proof (VarInt.encoded_len_range (mkVarInt (zlen r))).
    unfold ErrorCode.encoded_len in *. rewrite close_len by lia.
    eexists. split; [done|]. unfold ErrorCode.encoded_len. lia.
Qed.

(** C19: every frame the writer emits is well formed and its encoding is within the
    frame size the peer accepts, [MIN_FRAME_SIZE] until its SETTINGS arrive. *)
Theorem next_frame_fits `{!HashIterLaws HI} s f s' : writer_inv s ->
  next_frame s = (Ok (Ready (Some f)), s') ->
  Frame.wf f /\ exists n, Frame.encoded_len f = Ok n /\ n <= peer_max_frame (queues s).
Proof.
  intros Hi Hrun. destruct (next_frame_outcome s _ s' Hi Hrun) as [Ho _].
  by eapply outcome_fits.
Qed.

(** The bytes of a stream frame that count against credit; other frames are free. *)
Definition data_len (f : Frame) : Z := match f with Stream _ _ p => zlen p | _ => 0 end.

(** The lifetime total of the stream state at [l]. *)
Definition total_sent (s : ConnectionShared) (l : loc) : Z :=
  match heap s !! l with Some st => st_sent st | None => 0 end.

Lemma total_sent_core s s' l : s ≈ s' -> total_sent s l = total_sent s' l.
Proof.
  intros H. unfold total_sent. destruct (heap s !! l) as [st|] eqn:E.
  - destruct (core_eq_heap _ _ _ _ H E) as (st' & -> & Hc). exact (f_equal st_sent Hc).
  - destruct (heap s' !! l) as [st'|] eqn:E'; [|done]. symmetry in H.
    destruct (core_eq_heap _ _ _ _ H E') as (? & ? & _). congruence.
Qed.

Lemma total_sent_alter s l f k : (forall st, st_sent (f st) = st_sent st) ->
  total_sent (s <| heap ::= alter f l |>) k = total_sent s k.
Proof.
  intros Hf. unfold total_sent. simpl. destruct (decide (l = k)) as [->|]; simplify_map_eq; [|done].
  destruct (heap s !! k); simpl; by rewrite ?Hf.
Qed.

Lemma data_len_control f : Limits.is_control f = true -> data_len f = 0.
Proof. by destruct f. Qed.

(** C10: the writer honours credit.  A frame adds its data bytes to the connection's
    total, which stays within the peer's limit, and to the total of exactly the
    stream it belongs to, which stays within the larger of that stream's limit and the
    initial one; and data is sent only after the peer's SETTINGS. *)
Theorem next_frame_credit `{!HashIterLaws HI} s f s' : writer_inv s ->
  next_frame s = (Ok (Ready (Some f)), s') ->
  sent (queues s') = sent (queues s) + data_len f /\ sent (queues s') <= peer_limit (queues s) /\
  match f with
  | Stream id fin p =>
      peer_settings (queues s) = true /\
      exists c rest st, by_stream (queues s) !! inner id = Some (c :: rest) /\
        heap s !! oc_state c = Some st /\
        st_sent st + zlen p <= Z.max (st_peer_limit st) (peer_initial_stream_limit (queues s)) /\
        forall l, total_sent s' l = total_sent s l + if decide (l = oc_state c) then zlen p else 0
  | _ => forall l, total_sent s' l = total_sent s l
  end.
Proof.
  intros Hi Hrun. destruct (next_frame_outcome s _ s' Hi Hrun) as [Ho _].
  pose proof (wi_credit _ Hi) as [Hc0 Hcl].
  remember (Ready (Some f)) as p eqn:Hp.
  destruct Ho as [g rest ? Hc| |id l st|pre id post c rest st s' ? ? ? Hsd n Hs'|turn|]; simplify_eq.
  - pose proof (wi_control _ Hi) as Hco. rewrite Hc in Hco. apply Forall_cons in Hco as [[Hic _] _].
    rewrite data_len_control by done. simpl. split_and!; [lia|done|]. by destruct f.
  - simpl. split_and!; [lia|done|done].
  - simpl. split_and!; [lia|done|]. intros k.
    change (total_sent (s <| heap ::= alter raise_window l |>) k = total_sent s k).
    by apply total_sent_alter.
  - destruct (send_fits _ _ _ _ _ _ _ Hi Hsd) as (Hlen & _). fold n in Hlen.
    destruct (send_count_bounds _ _ _ _ _ _ _ Hi Hsd) as (? & _ & ? & ?). fold n in H2, H3, H4.
    pose proof (core_eq_queues _ _ Hs') as Hq. rewrite Hq. simpl. rewrite Hlen.
    unfold conn_credit, stream_credit in *. split_and!; [lia|lia|apply Hsd|].
    destruct Hsd. exists c, rest, st. destruct (wi_queues _ Hi _ _ sd_queue) as [_ Hcs _].
    apply Forall_cons in Hcs as [[-> _ _ _] _]. split_and!; [done|done|lia|]. intros l.
    rewrite (total_sent_core _ _ _ Hs'). unfold total_sent. simpl.
    destruct (decide (l = oc_state c)) as [->|]; simplify_map_eq; [simpl; lia|]. lia.
  - destruct (close_frame (queues s)) as [g|] eqn:Hg; [|done]. simplify_eq/=.
    destruct (fit_close_cut s g Hi Hg) as (c & r0 & r & -> & -> & _). simpl.
    split_and!; [lia|done|done].
Qed.

(** C9: refinement.  On the abstract queues (the bytes still to be sent of each
    stream and whether a FIN follows) emitting a frame removes exactly its payload from
    the front of its stream and nothing else: bytes are neither lost, duplicated nor
    reordered, a FIN leaves with the last byte, and no empty frame is sent without
    one. *)
Theorem next_frame_refines `{!HashIterLaws HI} s f s' : writer_inv s ->
  next_frame s = (Ok (Ready (Some f)), s') ->
  abs_send (view (queues s)) f (view (queues s')).
Proof.
  intros Hi Hrun. destruct (next_frame_outcome s _ s' Hi Hrun) as [Ho _].
  remember (Ready (Some f)) as p eqn:Hp.
  destruct Ho as [g rest ? Hc| |id l st|pre id post c rest st s' ? ? ? Hsd n Hs'|turn|]; simplify_eq.
  - pose proof (wi_control _ Hi) as Hco. rewrite Hc in Hco. apply Forall_cons in Hco as [[Hic _] _].
    apply abs_other. intros ? ? ? ->. done.
  - by apply abs_other.
  - by apply abs_other.
  - rewrite (core_eq_queues _ _ Hs'). by apply (send_view s pre id post c rest st).
  - destruct (close_frame (queues s)) as [g|] eqn:Hg; [|done]. simplify_eq/=.
    destruct (fit_close_cut s g Hi Hg) as (c & r0 & r & -> & -> & _). by apply abs_other.
Qed.

(** A stream with queued data that cannot send lacks SETTINGS or credit. *)
Lemma blocked_credit s id c rest st : writer_inv s -> no_data s -> by_stream (queues s) !! id = Some (c :: rest) ->
  heap s !! oc_state c = Some st -> peer_settings (queues s) = false \/
  (oc_payload c <> [] /\ (conn_credit (queues s) = 0 \/ stream_credit (queues s) st = 0)).
Proof.
  intros Hi Hnd Hq Hst. assert (Hb : blocked (queues s) (heap s) id).
  { eapply Forall_forall; [exact Hnd|]. apply (wi_dom _ Hi). by eexists. }
  destruct Hb as (c' & rest' & st' & ? & ? & [?|[Hz Hne]]); simplify_eq; [by left|right].
  split; [done|]. unfold send_count in Hz.
  destruct (frame_room_pos _ (oc_stream_id c) (wi_frame _ Hi)) as (Hr & _).
  destruct (wi_heap _ Hi _ _ Hst). pose proof (wi_credit _ Hi).
  assert (zlen (oc_payload c) <> 0) by (intros ?%zlen_0_nil; done).
  unfold conn_credit, stream_credit in *. pose proof (zlen_nonneg (oc_payload c)). lia.
Qed.

(** C21: the writer waits only when it has to.  Then no control frame is queued, no
    credit update is due for the connection or for a stream that still receives,
    every stream with queued data lacks SETTINGS, connection credit or stream
    credit, and the connection is not one that closes with nothing left to send. *)
Theorem next_frame_waits `{!HashIterLaws HI} s s' : writer_inv s ->
  next_frame s = (Ok Pending, s') ->
  no_control s /\
  (forall id c rest st, by_stream (queues s) !! id = Some (c :: rest) ->
     heap s !! oc_state c = Some st ->
     peer_settings (queues s) = false \/
     (oc_payload c <> [] /\ (conn_credit (queues s) = 0 \/ stream_credit (queues s) st = 0))) /\
  (closing (queues s) = true -> graceful_close (queues s) = true /\ by_stream (queues s) <> ∅).
Proof.
  intros Hi Hrun. destruct (next_frame_outcome s _ s' Hi Hrun) as [Ho _].
  remember Pending as p eqn:Hp. destruct Ho as [| | | | |Hnc Hnd Hab Hdr]; try done.
  split_and!; [done|..].
  - intros id c rest st Hq Hst. by eapply blocked_credit.
  - intros Hc. unfold abortive in Hab. rewrite Hc in Hab. simpl in Hab.
    split; [by apply negb_false_iff|]. intros Hempty. by apply Hdr.
Qed.



(** Queueing data refines appending to the abstract queue of its stream.  When
    the connection closes or the stream is terminal the chunk is refused, and the
    queues are as before. *)
Theorem enqueue_data_refines (id : Z) (c : OutboundChunk) (st : StreamState) s : writer_inv s ->
  chunk_ok (heap s) id c -> heap s !! oc_state c = Some st ->
  (default ([], false) (view (queues s) !! id)).2 = false ->
  exists s', enqueue_data id c s = (Ok (negb (closing (queues s) || send_terminal st)), s') /\
    writer_inv s' /\
    view (queues s') = if closing (queues s) || send_terminal st then view (queues s)
                       else abs_enqueue id (oc_payload c) (oc_fin c) (view (queues s)).
Proof.
  intros Hi Hc Hst Hf.
  assert (Hf' : existsb oc_fin (default [] (by_stream (queues s) !! id)) = false).
  { unfold view in Hf. rewrite lookup_fmap in Hf. by destruct (by_stream (queues s) !! id). }
  set (b := closing (queues s) || send_terminal st).
  assert (Hwp : wp (enqueue_data id c) s (fun b' s' => b' = negb b /\ writer_inv s' /\
    view (queues s') = if b then view (queues s)
                       else abs_enqueue id (oc_payload c) (oc_fin c) (view (queues s)))
    (fun _ _ => False)).
  { apply (wp_enqueue_data id c st); [done|..]; fold b; intros ->.
    - intros s' Hs'. split_and!; [done| |by rewrite (core_eq_queues _ _ Hs')]. by rewrite Hs'.
    - split_and!; [done|by apply writer_inv_enqueue|by apply enqueue_view]. }
  destruct (wp_ok _ _ _ Hwp) as (b' & s' & Hrun & -> & ? & ?). by exists s'.
Qed.

End properties.

(** * Witnesses

    A client with one open stream, five queued bytes on it and a FIN, and the
    counting semaphore for the permits. *)

Section demo.
#[local] Existing Instance counting.
#[local] Existing Instance hash_list.
#[local] Existing Instance hash_list_laws.

Definition demo_payload : bytes := [x68; x65; x6c; x6c; x6f].
Definition demo_chunk : OutboundChunk := {|
  oc_state := 0%nat; oc_frame_permit := 1; oc_stream_frame_permit := 1;
  oc_stream_id := mkVarInt 4; oc_payload := demo_payload; oc_fin := true;
  oc_conn_permit := Some 5; oc_stream_permit := Some 5
|}.
Definition demo_queues (ctrl : list Frame) (close : option Frame) (limit : Z) : WriterQueues := {|
  by_stream := {[4 := [demo_chunk]]};
  ready := [4];
  control := ctrl;
  close_frame := close;
  graceful_close := false;
  closing := match close with Some _ => true | None => false end;
  peer_settings := true;
  peer_max_frame := 25;
  peer_initial_stream_limit := 50;
  peer_limit := limit;
  sent := 0;
  control_turn := true;
  receive_windows := {[4 := 0%nat]}
|}.
Definition demo (ctrl : list Frame) (close : option Frame) (limit : Z) : ConnectionShared := {|
  limits := Limits.default;
  local_parity := 0;
  next_local_stream_id := 6;
  next_remote_stream_id := 1;
  streams := {[4 := 0%nat]};
  incoming_streams := [];
  writer_max_control_frames := 386;
  queues := demo_queues ctrl close limit;
  closed := false;
  terminated := false;
  open_streams := (127, false);
  inbound_conn_bytes := (1024, false);
  outbound_conn_bytes := (1024, false);
  outbound_frames := (1024, false);
  stats := mkStats 1 0 0 0 0;
  connection_handles := 1;
  receive_window := ReceiveWindow.new 1024;
  joined := false;
  cleanup_started := false;
  heap := {[0%nat := stream_state_new 1024 1024 1 8]};
  next_loc := 1%nat;
  wakes := []
|}.

Lemma demo_chunk_ok h : is_Some (h !! 0%nat) -> chunk_ok h 4 demo_chunk.
Proof. intros H. by split. Qed.

Lemma demo_inv ctrl close limit : Forall control_ok ctrl ->
  (forall f, close = Some f -> close_ok f) -> 0 <= limit <= VarInt.MAX ->
  writer_inv (demo ctrl close limit).
Proof.
  intros Hc Hf Hl. split; simpl; try done.
  - apply NoDup_singleton.
  - intros id. rewrite lookup_singleton_is_Some. set_solver.
  - apply map_Forall_singleton. split; [done| |done].
    constructor; [|done]. by apply demo_chunk_ok.
  - apply map_Forall_singleton. split; [done|done|]. by apply ReceiveWindow.inv_new.
  - lia.
  - lia.
  - by apply map_Forall_singleton.
Qed.

Lemma demo_ping_ok : Forall control_ok [Ping].
Proof. by constructor. Qed.
Lemma demo_none_ok : forall f, None = Some f -> close_ok f.
Proof. done. Qed.
Lemma demo_close_ok f : Some (ConnectionClose (mkErrorCode (mkVarInt 1)) (repeat x61 40)) = Some f ->
  close_ok f.
Proof. intros [= <-]. eexists _, _. split; [done|]. split; [split|]; vm_compute; try done; split; discriminate. Qed.

(** The three states: a PING is queued; only data is queued; the credit is used up. *)
Definition demo_ping := demo [Ping] None 100.
Definition demo_data := demo [] None 100.
Definition demo_stuck := demo [] None 0.
Definition demo_close :=
  demo [] (Some (ConnectionClose (mkErrorCode (mkVarInt 1)) (repeat x61 40))) 100.

Lemma demo_ping_inv : writer_inv demo_ping.
Proof. apply demo_inv; [apply demo_ping_ok|apply demo_none_ok|by vm_compute; split]. Qed.
Lemma demo_data_inv : writer_inv demo_data.
Proof. apply demo_inv; [done|apply demo_none_ok|by vm_compute; split]. Qed.
Lemma demo_stuck_inv : writer_inv demo_stuck.
Proof. apply demo_inv; [done|apply demo_none_ok|by vm_compute; split]. Qed.
Lemma demo_close_inv : writer_inv demo_close.
Proof. apply demo_inv; [done|apply demo_close_ok|by vm_compute; split]. Qed.

Definition demo_frame : Frame := Stream (mkVarInt 4) true demo_payload.

Lemma next_frame_total_witness :
  exists p s', next_frame demo_ping = (Ok p, s') /\ writer_inv s'.
Proof. exact (next_frame_total demo_ping demo_ping_inv). Defined.

Lemma next_frame_fits_witness :
  Frame.wf demo_frame /\ exists n, Frame.encoded_len demo_frame = Ok n /\ n <= 25.
Proof.
  refine (next_frame_fits demo_data demo_frame (next_frame demo_data).2 demo_data_inv _).
  vm_compute. reflexivity.
Defined.

Lemma next_frame_credit_witness :
  let s' := (next_frame demo_data).2 in
  sent (queues s') = sent (queues demo_data) + 5 /\ sent (queues s') <= 100 /\
  peer_settings (queues demo_data) = true /\
  exists c rest st, by_stream (queues demo_data) !! 4 = Some (c :: rest) /\
    heap demo_data !! oc_state c = Some st /\
    st_sent st + 5 <= Z.max (st_peer_limit st) 50 /\
    forall l, total_sent s' l = total_sent demo_data l + if decide (l = oc_state c) then 5 else 0.
Proof.
  refine (next_frame_credit demo_data demo_frame (next_frame demo_data).2 demo_data_inv _).
  vm_compute. reflexivity.
Defined.

Lemma next_frame_refines_witness :
  abs_send (view (queues demo_data)) demo_frame (view (queues (next_frame demo_data).2)).
Proof.
  refine (next_frame_refines demo_data demo_frame (next_frame demo_data).2 demo_data_inv _).
  vm_compute. reflexivity.
Defined.

Lemma next_frame_waits_witness : no_control demo_stuck.
Proof.
  refine (proj1 (next_frame_waits demo_stuck (next_frame demo_stuck).2 demo_stuck_inv _)).
  vm_compute. reflexivity.
Defined.



Lemma enqueue_data_refines_witness :
  let c := demo_chunk <| oc_state := 0%nat |> <| oc_stream_id := mkVarInt 6 |> in
  exists s', enqueue_data 6 c demo_data = (Ok true, s') /\ writer_inv s' /\
    view (queues s') = abs_enqueue 6 demo_payload true (view (queues demo_data)).
Proof.
  intros c.
  refine (enqueue_data_refines 6 c (stream_state_new 1024 1024 1 8) demo_data demo_data_inv _ _ _).
  - by split.
  - vm_compute. reflexivity.
  - vm_compute. reflexivity.
Defined.

End demo.
