(* ===== verification/Connection.v ===== *)
(** The operations of a connection in [muxtls/src/connection.rs]: opening, accepting,
    resetting, retiring and closing, and the handling of received frames. *)

From S2P Require Import Prelude Buf Varint Utf8 Frames Errors Limits Flow Tokio.
From S2P Require Import ConnState Inbound Writer.

#[local] Open Scope string_scope.
#[local] Open Scope list_scope.
#[local] Open Scope Z_scope.

(** The bytes of a [str]. *)
Definition utf8 (s : string) : bytes := String.list_byte_of_string s.

Section connection.
Context {TK : Tokio} {HI : HashIter}.

(** ** Guards *)

Definition ensure_open : Conn unit :=
  c ← gets closed; bail_if c ConnectionClosed.

(** [take_stream_id]: [fetch_update] returns the previous value. *)
Definition take_stream_id : Conn Z :=
  id ← gets next_local_stream_id;
  if id <=? VarInt.MAX then
    _ ← modify (fun s => s <| next_local_stream_id := id + 2 |>);
    mret id
  else fail StreamIdExhausted.

Definition ensure_peer_send_open (st : StreamState) (stream_id : Z) (frame : string) :
    Result Error unit :=
  if recv_terminal st then
    Err (Protocol (frame +:+ " after peer send side closed for stream id " +:+ dec stream_id))
  else Ok tt.

(** [VarInt::from_u64(..).map_err(|e| Error::Protocol(e.to_string()))] *)
Definition proto_stream_id (stream_id : Z) : Result Error VarInt :=
  map_err (fun e => Protocol (show_varint_error e)) (VarInt.from_u64 stream_id).

(** ** Closing *)

(** [for (_, stream) in streams { stream.mark_connection_closed().await; }] *)
Fixpoint mark_streams_closed (ls : list (Z * loc)) : Conn unit :=
  match ls with
  | [] => mret tt
  | (_, l) :: ls => _ ← mark_connection_closed l; mark_streams_closed ls
  end.

Definition mark_closed : Conn unit :=
  _ ← modify (fun s => s <| closed := true |> <| terminated := true |>);
  _ ← notify WakeClose;
  started ← gets cleanup_started;
  _ ← modify (fun s => s <| cleanup_started := true |>);
  when (negb started) (
    _ ← modify (fun s => s <| open_streams ::= sem_close |> <| inbound_conn_bytes ::= sem_close |>
                          <| outbound_conn_bytes ::= sem_close |> <| outbound_frames ::= sem_close |>);
    _ ← shutdown;
    _ ← notify WakeClose;
    taken ← gets streams;
    _ ← modify (fun s => s <| streams := ∅ |>);
    mark_streams_closed (hash_iter taken)).

Definition validate_close_reason (max_frame_size error_code : Z) (reason : bytes) :
    Result Error unit :=
  error_code ← map_err Wire (ErrorCode.from_u64 error_code);
  reason_len ← ok_or (LimitExceeded "close reason is too large")
                 (n ← ok (try_u64 (zlen reason)); ok (VarInt.from_u64 n));
  let encoded_len :=
    1 + ErrorCode.encoded_len error_code + VarInt.encoded_len reason_len + zlen reason in
  if max_frame_size <? encoded_len then
    Err (LimitExceeded ("encoded close frame size " +:+ dec encoded_len +:+
                        " exceeds max frame size " +:+ dec max_frame_size))
  else Ok tt.

Definition fit_close_reason (max_frame_size error_code : Z) (reason : bytes) :
    Result Error bytes :=
  if is_ok (validate_close_reason max_frame_size error_code reason) then Ok reason
  else
    let fallback := utf8 "connection error" in
    if is_ok (validate_close_reason max_frame_size error_code fallback) then Ok fallback
    else
      _ ← validate_close_reason max_frame_size error_code [];
      Ok [].

Definition initiate_close (error_code : Z) (reason : bytes) : Conn unit :=
  max ← gets (fun s => max_frame_size (limits s));
  reason ← lift (fit_close_reason max error_code reason);
  code ← lift (map_err Wire (ErrorCode.from_u64 error_code));
  let frame := ConnectionClose code reason in
  was_closed ← gets closed;
  _ ← modify (fun s => s <| closed := true |>);
  when (negb was_closed) (
    _ ← when (negb (error_code =? 0))
          (_ ← clear_queues; upd_queues (fun q => q <| ready := [] |> <| control := [] |>));
    _ ← upd_queues (fun q => q <| close_frame := Some frame |>
                               <| graceful_close := (error_code =? 0) |> <| closing := true |>);
    _ ← modify (fun s => s <| open_streams ::= sem_close |>
                          <| outbound_conn_bytes ::= sem_close |> <| outbound_frames ::= sem_close |>);
    _ ← notify WakeClose;
    notify WakeWriter).

(** [Connection::close] *)
Definition close (reason : bytes) : Conn unit :=
  max ← gets (fun s => max_frame_size (limits s));
  _ ← lift (validate_close_reason max 0 reason);
  initiate_close 0 reason.

(** [Connection::abort] *)
Definition abort : Conn unit :=
  _ ← modify (fun s => s <| closed := true |> <| terminated := true |>);
  _ ← notify WakeClose;
  notify WakeWriter.

(** [Connection::is_closed] and [Connection::stats] *)
Definition connection_is_closed : Conn bool := gets closed.
Definition connection_stats : Conn ConnectionStats := gets stats.

(** [Connection::wait_closed] and [ConnectionShared::wait_terminated], polled once. *)
Definition wait_closed : Conn (Poll unit) :=
  j ← gets joined; mret (if (j : bool) then Ready tt else Pending).
Definition wait_terminated : Conn (Poll unit) :=
  t ← gets terminated; mret (if (t : bool) then Ready tt else Pending).

(** ** Stream handles *)

(** [add_send_handle] and [add_recv_handle], called by [SendStream::new] and
    [RecvStream::new]. *)
Definition add_handles (l : loc) : Conn unit :=
  upd_state l (fun st => st <| send_handles ::= (fun n => wrapping_add n 1) |>
                            <| recv_handles ::= (fun n => wrapping_add n 1) |>).

(** [release_handle]: the last release returns [true]; the compare-exchange loop
    retries until it wins. *)
Definition release_send_handle (l : loc) : Conn bool :=
  st ← get_state l;
  if send_handles st =? 0 then mret false
  else
    _ ← upd_state l (fun st => st <| send_handles ::= (fun n => n - 1) |>);
    mret (send_handles st =? 1).
Definition release_recv_handle (l : loc) : Conn bool :=
  st ← get_state l;
  if recv_handles st =? 0 then mret false
  else
    _ ← upd_state l (fun st => st <| recv_handles ::= (fun n => n - 1) |>);
    mret (recv_handles st =? 1).

(** [Drop for SendStream] and [Drop for RecvStream] *)
Definition drop_send_stream (l : loc) : Conn unit :=
  last ← release_send_handle l;
  when last (
    _ ← upd_state l (fun st => st <| send_dropped := true |>);
    notify WakeDrop).
Definition drop_recv_stream (l : loc) : Conn unit :=
  last ← release_recv_handle l;
  when last (
    _ ← upd_state l (fun st => st <| recv_dropped := true |>);
    notify WakeDrop).

(** ** Opening and accepting *)

(** [Arc::new(StreamState::new(..))] with the budgets of the connection. *)
Definition new_stream (permit : Permit) : Conn loc := fun s =>
  let l := next_loc s in
  let lim := limits s in
  let st := stream_state_new (max_inbound_stream_bytes lim) (max_outbound_stream_bytes lim) permit
              (max_queued_outbound_frames lim / max_open_streams lim) in
  (Ok l, s <| heap ::= insert l st |> <| next_loc := S l |>).

Definition drop_open_permit (p : Permit) : Conn unit :=
  modify (fun s => s <| open_streams ::= permit_drop p |>).

(** An early return drops what the caller holds. *)
Definition on_err {A} (release : Conn unit) (m : Conn A) : Conn A := fun s =>
  match m s with
  | (Err e, s') => (_ ← release; fail e) s'
  | r => r
  end.
Definition or_drop_permit {A} (p : Permit) : Conn A -> Conn A := on_err (drop_open_permit p).

(** The body of [open_bi] from the wait for an admission permit on; a pending call
    resumes here. *)
Definition open_bi_admitted : Conn (Poll (Z * loc)) :=
  sem ← gets open_streams;
  match acquire_many 1 sem with
  | AClosed => fail ConnectionClosed
  | AWait => mret Pending
  | AGot permit sem =>
      _ ← modify (fun s => s <| open_streams := sem |>);
      _ ← or_drop_permit permit ensure_open;
      q ← get_queues;
      max ← gets writer_max_control_frames;
      if closing q || (max <=? zlen (control q)) then
        _ ← mark_closed;
        _ ← drop_open_permit permit;
        fail ConnectionClosed
      else
        stream_id ← or_drop_permit permit take_stream_id;
        l ← new_stream permit;
        id ← or_drop_permit permit (lift (proto_stream_id stream_id));
        _ ← upd_queues (fun q => q <| control ::= (fun c => c ++ [OpenStream id]) |>
                                   <| receive_windows ::= insert stream_id l |>);
        _ ← modify (fun s => s <| streams ::= insert stream_id l |>);
        _ ← notify WakeWriter;
        _ ← modify (fun s => s <| stats ::= (fun c =>
              c <| opened_streams ::= (fun n => wrapping_add n 1) |>) |>);
        _ ← add_handles l;
        mret (Ready (stream_id, l))
  end.

(** [Connection::open_bi], first poll. *)
Definition open_bi : Conn (Poll (Z * loc)) :=
  _ ← ensure_open;
  open_bi_admitted.

(** [Connection::accept_bi] polled once. *)
Definition accept_bi : Conn (Poll (Z * loc)) :=
  _ ← ensure_open;
  incoming ← gets incoming_streams;
  match incoming with
  | (stream_id, l) :: rest =>
      _ ← modify (fun s => s <| incoming_streams := rest |>);
      _ ← add_handles l;
      mret (Ready (stream_id, l))
  | [] => mret Pending
  end.

(** ** Retiring and resetting *)

Definition try_retire_stream (stream_id : Z) : Conn unit :=
  ss ← gets streams;
  match ss !! stream_id with
  | None => mret tt
  | Some l =>
      st ← get_state l;
      when (send_complete st && recv_terminal st) (
        _ ← release_open_permit l;
        ss ← gets streams;
        st ← get_state l;
        when (bool_decide (ss !! stream_id = Some l) && send_terminal st && recv_terminal st) (
          _ ← modify (fun s => s <| streams ::= delete stream_id |>);
          upd_queues (fun q => q <| receive_windows ::= delete stream_id |>)))
  end.

(** [ConnectionShared::reset_stream] *)
Definition reset_stream (stream_id : Z) (l : loc) (error_code : Z) : Conn unit :=
  _ ← ensure_open;
  id ← lift (proto_stream_id stream_id);
  code ← lift (map_err Wire (ErrorCode.from_u64 error_code));
  st ← get_state l;
  when (negb (send_dispatched st || reset_queued st)) (
    q ← get_queues;
    max ← gets writer_max_control_frames;
    _ ← bail_if (closing q || (max <=? zlen (control q))) ConnectionClosed;
    _ ← upd_state l (fun st => st <| reset_queued := true |>);
    _ ← remove_queue stream_id;
    _ ← upd_queues (fun q => q <| ready ::= filter (fun id => id <> stream_id) |>
                               <| control ::= (fun c => c ++ [ResetStream id code]) |>);
    _ ← upd_state l (fun st => st <| send_terminal := true |>
                                  <| outbound_stream_bytes ::= sem_close |>);
    _ ← notify (WakeSend l);
    notify WakeWriter).

(** [let _ = call;] *)
Definition ignore {A} (m : Conn A) : Conn unit := fun s =>
  match m s with
  | (Panic, s') => (Panic, s')
  | (_, s') => (Ok tt, s')
  end.

Definition handle_last_send_drop (stream_id : Z) (l : loc) : Conn unit :=
  st ← get_state l;
  _ ← when (negb (send_terminal st)) (ignore (reset_stream stream_id l 0));
  try_retire_stream stream_id.

Definition handle_last_recv_drop (stream_id : Z) (l : loc) : Conn unit :=
  _ ← discard_inbound l;
  st ← get_state l;
  was_closed ← gets closed;
  _ ← when (negb (recv_terminal st) && negb was_closed) (
        id ← lift (expect (ok (VarInt.from_u64 stream_id)));
        queued ← enqueue_control (StopSending id);
        now_closed ← gets closed;
        when (negb queued && negb now_closed) mark_closed);
  try_retire_stream stream_id.

(** ** Received frames *)

(** The stream of a received frame, or a protocol error. *)
Definition find_stream (stream_id : Z) (what : string) : Conn loc :=
  ss ← gets streams;
  lift (ok_or (Protocol (what +:+ " for unknown stream id " +:+ dec stream_id)) (ss !! stream_id)).

Definition on_remote_stream_frame (stream_id : Z) (payload : bytes) (fin : bool) : Conn unit :=
  l ← find_stream stream_id "data";
  st ← get_state l;
  _ ← lift (ensure_peer_send_open st stream_id "stream frame");
  _ ← conn_window_receive (zlen payload);
  _ ← stream_window_receive l (zlen payload);
  w ← gets receive_window;
  st ← get_state l;
  _ ← when (ReceiveWindow.needs_update w || ReceiveWindow.needs_update (st_window st))
        (notify WakeWriter);
  _ ← when (negb (zlen payload =? 0)) (push_inbound l payload);
  when fin (
    _ ← mark_recv_terminal l;
    try_retire_stream stream_id).

Definition on_remote_reset (stream_id error_code : Z) : Conn unit :=
  l ← find_stream stream_id "reset";
  st ← get_state l;
  _ ← lift (ensure_peer_send_open st stream_id "reset");
  _ ← mark_reset l error_code;
  _ ← mark_recv_terminal l;
  try_retire_stream stream_id.

Definition on_remote_open (stream_id : Z) : Conn unit :=
  parity ← gets local_parity;
  _ ← bail_if (stream_id mod 2 =? parity)
        (Protocol ("peer opened stream with invalid parity: " +:+ dec stream_id));
  next_expected ← gets next_remote_stream_id;
  _ ← bail_if (negb (stream_id =? next_expected))
        (Protocol ("expected peer stream id " +:+ dec next_expected +:+ ", received " +:+
                   dec stream_id));
  next ← lift (expect (checked_add stream_id 2));
  sem ← gets open_streams;
  match try_acquire_many 1 sem with
  | None => fail (LimitExceeded "max open streams reached")
  | Some (permit, sem) =>
      _ ← modify (fun s => s <| open_streams := sem |>);
      l ← new_stream permit;
      ss ← gets streams;
      _ ← or_drop_permit permit (bail_if (bool_decide (is_Some (ss !! stream_id)))
            (Protocol ("peer reused active stream id " +:+ dec stream_id)));
      _ ← upd_queues (fun q => q <| receive_windows ::= insert stream_id l |>);
      _ ← modify (fun s => s <| streams ::= insert stream_id l |>);
      _ ← modify (fun s => s <| next_remote_stream_id := next |>);
      _ ← modify (fun s => s <| stats ::= (fun c =>
            c <| opened_streams ::= (fun n => wrapping_add n 1) |>) |>);
      incoming ← gets incoming_streams;
      max ← gets (fun s => max_open_streams (limits s));
      _ ← bail_if (max <=? zlen incoming) (LimitExceeded "incoming stream queue is full");
      _ ← modify (fun s => s <| incoming_streams ::= (fun i => i ++ [(stream_id, l)]) |>);
      notify WakeIncoming
  end.

(** Whether a stream id was issued: the next id of its parity is larger. *)
Definition ensure_issued (id : Z) (e : Error) : Conn unit :=
  parity ← gets local_parity;
  next ← (if id mod 2 =? parity then gets next_local_stream_id else gets next_remote_stream_id);
  bail_if (next <=? id) e.

Definition on_settings (max_data max_stream_data max_frame : VarInt) : Conn unit :=
  q ← get_queues;
  _ ← bail_if (peer_settings q || (VarInt.into_inner max_frame <? as_u64 Limits.MIN_FRAME_SIZE)
               || (u32_max <? VarInt.into_inner max_frame))
        (Protocol "invalid or repeated SETTINGS");
  _ ← upd_queues (fun q => q <| peer_settings := true |>
        <| peer_limit := VarInt.into_inner max_data |>
        <| peer_initial_stream_limit := VarInt.into_inner max_stream_data |>
        <| peer_max_frame := VarInt.into_inner max_frame |>);
  notify WakeWriter.

Definition on_max_stream_data (id maximum : Z) : Conn unit :=
  ss ← gets streams;
  _ ← match ss !! id with
      | Some l => upd_state l (fun st => st <| st_peer_limit ::= Z.max maximum |>)
      | None => ensure_issued id (Protocol "credit for unopened stream")
      end;
  notify WakeWriter.

Definition on_stop_sending (id : Z) : Conn unit :=
  ss ← gets streams;
  match ss !! id with
  | Some l => reset_stream id l 0
  | None => ensure_issued id (Protocol "STOP_SENDING for unopened stream")
  end.

Definition is_settings (f : Frame) : bool :=
  match f with Settings _ _ _ => true | _ => false end.

(** [handle_incoming_frame] after decoding. *)
Definition handle_frame (frame : Frame) : Conn bool :=
  q ← get_queues;
  _ ← bail_if (negb (is_settings frame) && negb (peer_settings q))
        (Protocol "SETTINGS must be the first frame");
  match frame with
  | Settings max_data max_stream_data max_frame =>
      _ ← on_settings max_data max_stream_data max_frame; mret true
  | MaxData maximum =>
      _ ← upd_queues (fun q => q <| peer_limit ::= Z.max (VarInt.into_inner maximum) |>);
      _ ← notify WakeWriter;
      mret true
  | MaxStreamData stream_id maximum =>
      _ ← on_max_stream_data (VarInt.into_inner stream_id) (VarInt.into_inner maximum); mret true
  | Stream stream_id fin payload =>
      _ ← on_remote_stream_frame (VarInt.into_inner stream_id) payload fin; mret true
  | ResetStream stream_id error_code =>
      _ ← on_remote_reset (VarInt.into_inner stream_id) (ErrorCode.into_inner error_code);
      mret true
  | OpenStream stream_id =>
      _ ← on_remote_open (VarInt.into_inner stream_id); mret true
  | StopSending stream_id =>
      _ ← on_stop_sending (VarInt.into_inner stream_id); mret true
  | Ping => mret true
  | ConnectionClose error_code reason =>
      _ ← mark_closed; mret false
  end.

Definition handle_incoming_frame (b : bytes) : Conn bool :=
  frame ← lift (map_err Wire (Frame.decode b).1);
  handle_frame frame.

End connection.
