(* ===== verification/ErrorText.v ===== *)
(** The errors the reader reports are ASCII text, so the reason it closes the connection
    with is a valid [String]: every literal, number and nested error is. *)

From stdpp Require Import pretty.
From Stdlib Require Import HexadecimalString.
From S2P Require Import Prelude Hoare Buf Varint Utf8 Frames Errors Limits Flow Tokio.
From S2P Require Import ConnState Inbound Writer Connection.

#[local] Open Scope string_scope.
#[local] Open Scope Z_scope.

(** ** ASCII *)

Definition ascii_byte (b : byte) : bool := b2z b <? 128.
Definition plain (s : string) : bool := forallb ascii_byte (utf8 s).

Lemma plain_string c s : plain (String c s) = ascii_byte (Ascii.byte_of_ascii c) && plain s.
Proof. done. Qed.

Lemma plain_app s t : plain (s +:+ t) = plain s && plain t.
Proof. induction s as [|c s IH]; [done|]. change (String c s +:+ t) with (String c (s +:+ t)). by rewrite !plain_string, IH, andb_assoc. Qed.

Lemma plain_utf8 s : plain s = true -> utf8_valid (utf8 s) = true.
Proof.
  unfold plain. induction (utf8 s) as [|b l IH]; [done|]. cbn [forallb utf8_valid].
  intros [Hb Hl]%andb_true_iff. unfold ascii_byte in Hb. change 128 with 0x80 in Hb. rewrite Hb. auto.
Qed.

Lemma plain_digit n : ascii_byte (Ascii.byte_of_ascii (pretty_N_char n)) = true.
Proof. unfold pretty_N_char. by repeat case_match. Qed.

Lemma plain_go n s : plain s = true -> plain (pretty_N_go n s) = true.
Proof.
  revert s. induction (N.lt_wf_0 n) as [n _ IH]. intros s Hs. destruct (decide (0 < n)%N) as [Hn|Hn].
  - rewrite pretty_N_go_step by done. apply IH; [by apply N.div_lt|]. by rewrite plain_string, plain_digit.
  - assert (n = 0%N) as -> by lia. by rewrite pretty_N_go_0.
Qed.

Lemma plain_N (n : N) : plain (pretty n) = true.
Proof. unfold pretty, pretty_N. case_decide; [done|]. by apply plain_go. Qed.

Lemma plain_dec n : plain (dec n) = true.
Proof. unfold dec. destruct n as [|p|p]; [done|apply (plain_N (N.pos p))|]. change (pretty (Z.neg p)) with ("-" +:+ pretty (N.pos p)). by rewrite plain_app, plain_N. Qed.

Lemma plain_uint d : plain (NilEmpty.string_of_uint d) = true.
Proof. by induction d; simpl; rewrite ?plain_string. Qed.

Lemma plain_hex n : plain (hex n) = true.
Proof. unfold hex. rewrite plain_app. unfold NilZero.string_of_uint. case_match; try done; apply plain_uint. Qed.


(** An error with an ASCII message. *)
Definition plain_error (e : Error) : Prop := plain (show_error e) = true.

Lemma plain_varint e : plain (show_varint_error e) = true.
Proof. destruct e; [|done]. simpl. by rewrite plain_app, plain_dec. Qed.
Lemma plain_proto e : plain (show_proto_error e) = true.
Proof. destruct e; simpl; rewrite ?plain_app, ?plain_varint, ?plain_hex, ?plain_dec; done. Qed.
Lemma plain_protocol m : plain m = true -> plain_error (Protocol m).
Proof. intros Hm. unfold plain_error. simpl. by rewrite plain_app, Hm. Qed.
Lemma plain_wire e : plain_error (Wire e).
Proof. unfold plain_error. simpl. by rewrite plain_app, plain_proto. Qed.

(** A message built of literals and numbers. *)
Ltac plain_parts :=
  lazymatch goal with
  | |- plain (_ +:+ _) = true => rewrite plain_app; apply andb_true_intro; split; plain_parts
  | |- plain (dec _) = true => apply plain_dec
  | |- plain (show_varint_error _) = true => apply plain_varint
  | |- _ => first [assumption | vm_compute; reflexivity]
  end.
Ltac plain_text :=
  lazymatch goal with
  | |- plain_error (Wire _) => apply plain_wire
  | |- plain_error (Protocol _) => apply plain_protocol; plain_parts
  | |- plain_error _ => vm_compute; reflexivity
  end.

(** ** The errors of received frames *)

Create HintDb err.

Section generic.
Context {TK : Tokio}.

Lemma errs_get_state P l : errs P (get_state l).
Proof. intros s e s'. unfold get_state. by destruct (heap s !! l). Qed.
Lemma errs_when_some {A} P (o : option A) (k : A -> Conn unit) : (forall a, errs P (k a)) -> errs P (when_some o k).
Proof. intros H. destruct o; [apply H|apply errs_ret]. Qed.

End generic.

Ltac err_steps :=
  repeat lazymatch goal with
  | |- errs _ (_ ≫= _) => apply errs_bind; [|intros ?]
  | |- errs _ (mret _) => apply errs_ret
  | |- errs _ (gets _) => apply errs_gets
  | |- errs _ (modify _) => apply errs_modify
  | |- errs _ (upd_state _ _) => apply errs_modify
  | |- errs _ (upd_inbound _ _) => apply errs_modify
  | |- errs _ (upd_queues _) => apply errs_modify
  | |- errs _ (notify _) => apply errs_modify
  | |- errs _ (get_state _) => apply errs_get_state
  | |- errs _ get_queues => apply errs_gets
  | |- errs _ (fail _) => apply errs_fail; plain_text
  | |- errs _ (bail_if _ _) => apply errs_bail_if; plain_text
  | |- errs _ (when _ _) => apply errs_when
  | |- errs _ (when_some _ _) => apply errs_when_some; intros ?
  | |- errs _ (if ?b then _ else _) => destruct b
  | |- errs _ (match ?x with _ => _ end) => destruct x
  | |- errs _ _ => solve [eauto with err]
  end.

Section errors.
Context {TK : Tokio} {HI : HashIter}.

Abbreviation plainly := (errs plain_error).

Lemma plain_window_receive w n e : (ReceiveWindow.receive w n).1 = Err e -> plain_error e.
Proof. unfold ReceiveWindow.receive. repeat case_match; simpl; intros [= <-]; done. Qed.
Lemma errs_conn_receive n : plainly (conn_window_receive n).
Proof.
  intros s e s'. unfold conn_window_receive. destruct (ReceiveWindow.receive (receive_window s) n) as [r w] eqn:E.
  intros [= -> _]. apply (plain_window_receive (receive_window s) n). by rewrite E.
Qed.
Lemma errs_stream_receive l n : plainly (stream_window_receive l n).
Proof.
  unfold stream_window_receive. apply errs_bind; [apply errs_get_state|]. intros st.
  destruct (ReceiveWindow.receive (st_window st) n) as [r w] eqn:E. apply errs_bind; [apply errs_modify|]. intros _.
  apply errs_lift. intros e ->. apply (plain_window_receive (st_window st) n). by rewrite E.
Qed.
Lemma errs_conn_consume n : plainly (conn_window_consume n).
Proof. intros s e s'. unfold conn_window_consume. by destruct (ReceiveWindow.consume _ _). Qed.
Lemma errs_stream_consume l n : plainly (stream_window_consume l n).
Proof. unfold stream_window_consume. err_steps. Qed.
#[local] Hint Resolve errs_conn_receive errs_stream_receive errs_conn_consume errs_stream_consume : err.

Lemma errs_chunk_consume c n : plainly (chunk_consume c n).
Proof. unfold chunk_consume, give_back_conn, give_back_stream. err_steps. Qed.
#[local] Hint Resolve errs_chunk_consume : err.
Lemma errs_chunk_drop c : plainly (chunk_drop c).
Proof. unfold chunk_drop, give_back_conn, give_back_stream. err_steps. Qed.
#[local] Hint Resolve errs_chunk_drop : err.
Lemma errs_drop_chunks cs : plainly (drop_chunks cs).
Proof. induction cs; simpl; err_steps. Qed.
#[local] Hint Resolve errs_drop_chunks : err.

Lemma errs_take_conn n : plainly (take_conn_permit n).
Proof. intros s e s'. unfold take_conn_permit. case_match; [done|]. case_match; [by case_match|]. by intros [= <- _]. Qed.
Lemma errs_take_stream l n p : plainly (take_stream_permit l n p).
Proof. unfold take_stream_permit, give_back_conn. err_steps. Qed.
#[local] Hint Resolve errs_take_conn errs_take_stream : err.

Lemma append_no_err page l cs b p1 p2 e : append_payload page l cs b p1 p2 <> Err e.
Proof. unfold append_payload, mbind, Result_bind, expect. repeat case_match; congruence. Qed.

Lemma errs_push l b : plainly (push_inbound l b).
Proof.
  unfold push_inbound, discard_payload, give_back_conn, give_back_stream. err_steps.
  apply errs_lift. intros e He. by apply append_no_err in He.
Qed.
Lemma errs_retire id : plainly (try_retire_stream id).
Proof. unfold try_retire_stream, release_open_permit. err_steps. Qed.
#[local] Hint Resolve errs_push errs_retire : err.

Lemma errs_find id what : plain what = true -> plainly (find_stream id what).
Proof.
  intros Hw. unfold find_stream. apply errs_bind; [apply errs_gets|]. intros m. apply errs_lift. intros e.
  destruct (m !! id); [done|]. intros [= <-]. plain_text.
Qed.
Lemma errs_peer_open st id what : plain what = true -> plainly (lift (ensure_peer_send_open st id what) : Conn unit).
Proof.
  intros Hw. apply errs_lift. intros e. unfold ensure_peer_send_open. case_match; [|done]. intros [= <-].
  plain_text.
Qed.
#[local] Hint Resolve errs_find errs_peer_open : err.

Lemma errs_data id b fin : plainly (on_remote_stream_frame id b fin).
Proof. unfold on_remote_stream_frame, mark_recv_terminal. err_steps. Qed.
Lemma errs_reset id code : plainly (on_remote_reset id code).
Proof. unfold on_remote_reset, mark_reset, mark_recv_terminal. err_steps. Qed.

Lemma errs_new_stream p : plainly (new_stream p).
Proof. done. Qed.
Lemma errs_or_drop {A} p (m : Conn A) : plainly m -> plainly (or_drop_permit p m).
Proof.
  intros Hm s e s'. unfold or_drop_permit, on_err, drop_open_permit. destruct (m s) as [[a|e'|] s1] eqn:E; try done.
  unfold mbind, M_bind, modify, fail. intros [= <- _]. by eapply Hm.
Qed.
Lemma errs_expect {A} (o : option A) : plainly (lift (expect o) : Conn A).
Proof. apply errs_lift. intros e. by destruct o. Qed.
#[local] Hint Resolve errs_new_stream errs_or_drop errs_expect : err.

Lemma errs_open id : plainly (on_remote_open id).
Proof.
  unfold on_remote_open. err_steps. apply errs_or_drop. err_steps.
Qed.
Lemma errs_issued id e : plain_error e -> plainly (ensure_issued id e).
Proof. intros He. unfold ensure_issued. err_steps. by apply errs_bail_if. Qed.
#[local] Hint Resolve errs_issued : err.
Lemma errs_settings a b c : plainly (on_settings a b c).
Proof. unfold on_settings. err_steps. Qed.
Lemma errs_max_stream_data id n : plainly (on_max_stream_data id n).
Proof. unfold on_max_stream_data. err_steps. apply errs_issued. plain_text. Qed.

Lemma errs_drop_outbounds cs : plainly (drop_outbounds cs).
Proof. induction cs; simpl; unfold drop_outbound; err_steps. Qed.
#[local] Hint Resolve errs_drop_outbounds : err.
Lemma errs_reset_stream id l : plainly (reset_stream id l 0).
Proof.
  unfold reset_stream, ensure_open, remove_queue. err_steps; apply errs_lift; intros e.
  - unfold proto_stream_id. destruct (VarInt.from_u64 id); simpl; try done. intros [= <-]. plain_text.
  - destruct (ErrorCode.from_u64 0); simpl; try done. intros [= <-]. plain_text.
Qed.
#[local] Hint Resolve errs_reset_stream : err.
Lemma errs_stop_sending id : plainly (on_stop_sending id).
Proof. unfold on_stop_sending. err_steps. apply errs_issued. plain_text. Qed.

Lemma errs_mark_streams ls : plainly (mark_streams_closed ls).
Proof. induction ls as [|[id l] ls IH]; simpl; unfold mark_connection_closed; err_steps. Qed.
#[local] Hint Resolve errs_mark_streams : err.
Lemma errs_mark_closed : plainly mark_closed.
Proof. unfold mark_closed, shutdown, clear_queues. err_steps. Qed.

#[local] Hint Resolve errs_data errs_reset errs_open errs_settings errs_max_stream_data errs_stop_sending errs_mark_closed : err.

(** Whatever the peer sends, the error has a valid text. *)
Lemma errs_handle_incoming b : plainly (handle_incoming_frame b).
Proof.
  unfold handle_incoming_frame. apply errs_bind.
  - apply errs_lift. intros e. destruct (Frame.decode b).1; simpl; try done. intros [= <-]. plain_text.
  - intros f. unfold handle_frame. err_steps.
Qed.

End errors.
