(* ===== verification/Streams.v ===== *)
(** [muxtls/src/stream.rs] and the sending path of [muxtls/src/connection.rs]: a send is
    a future that waits for a lock and up to four permits, may be polled many times and
    may be cancelled between polls; the stream halves build chunk and [AsyncRead] /
    [AsyncWrite] operations on it. *)

From S2P Require Import Prelude Buf Varint Utf8 Frames Errors Limits Flow Tokio.
From S2P Require Import ConnState Inbound Writer Connection.

#[local] Open Scope string_scope.
#[local] Open Scope list_scope.
#[local] Open Scope Z_scope.

(** ** [max_stream_payload]: the largest payload of one frame, by binary search *)

Definition payload_fits (l : Limits) (stream_id middle : Z) : bool :=
  match ok (VarInt.from_u64 stream_id) with
  | None => false
  | Some stream_id =>
      match (n ← ok (try_u64 middle); ok (VarInt.from_u64 n)) with
      | None => false
      | Some payload_len =>
          1 + VarInt.encoded_len stream_id + 1 + VarInt.encoded_len payload_len + middle
          <=? max_frame_size l
      end
  end.

(** [while low < high]; [None] is out of fuel. *)
Fixpoint search_payload (fuel : nat) (l : Limits) (stream_id low high : Z) : option Z :=
  if low <? high then
    match fuel with
    | O => None
    | S fuel =>
        let middle := low + div_ceil (high - low) 2 in
        if payload_fits l stream_id middle then search_payload fuel l stream_id middle high
        else search_payload fuel l stream_id low (middle - 1)
    end
  else Some low.

(** The range is at most 32 bits wide and halves each time. *)
Definition max_stream_payload (l : Limits) (stream_id : Z) : option Z :=
  low ← search_payload 33 l stream_id 0 (Z.min (max_frame_size l) u32_max);
  Some (Z.min low (max_outbound_stream_bytes l)).

Section streams.
Context {TK : Tokio} {HI : HashIter}.

(** ** [send_stream_chunk] and [queue_stream_chunk] as a future *)

(** Where a send waits, with the permits it holds there.  Past [SLock] it also
    holds the send lock of the stream. *)
Inductive SendStage :=
| SStart
| SLock
| SStreamFrame
| SStreamBytes (stream_frame : Permit)
| SFrame (stream_frame : Permit) (stream_bytes : option Permit)
| SConnBytes (stream_frame : Permit) (stream_bytes : option Permit) (frame : Permit).

Record SendFuture := mkSend {
  sf_stream_id : Z;
  sf_state : loc;
  sf_payload : bytes;
  sf_fin : bool;
  sf_stage : SendStage
}.

#[global] Instance eta_SendFuture : Settable SendFuture := fun x =>
  mkSend (sf_stream_id x) (sf_state x) (sf_payload x) (sf_fin x) (sf_stage x).

(** [Ready(Ok(()))], or pending at a stage; errors are those of [Conn]. *)
Inductive SendPoll := SDone | SPending (stage : SendStage).

(** Dropping the locals of the future: permits and lock. *)
Definition unlock (l : loc) : Conn unit := upd_state l (fun st => st <| send_locked := false |>).
Definition drop_stream_frame (l : loc) (p : Permit) : Conn unit :=
  upd_state l (fun st => st <| outbound_stream_frames ::= permit_drop p |>).
Definition drop_stream_bytes (l : loc) (p : Permit) : Conn unit :=
  upd_state l (fun st => st <| outbound_stream_bytes ::= permit_drop p |>).
Definition drop_frame (p : Permit) : Conn unit :=
  modify (fun s => s <| outbound_frames ::= permit_drop p |>).
Definition drop_conn_bytes (p : Permit) : Conn unit :=
  modify (fun s => s <| outbound_conn_bytes ::= permit_drop p |>).

Definition release_stage (l : loc) (stage : SendStage) : Conn unit :=
  match stage with
  | SStart | SLock => mret tt
  | SStreamFrame => unlock l
  | SStreamBytes fp => _ ← drop_stream_frame l fp; unlock l
  | SFrame fp sp =>
      _ ← when_some sp (drop_stream_bytes l);
      _ ← drop_stream_frame l fp; unlock l
  | SConnBytes fp sp frp =>
      _ ← drop_frame frp;
      _ ← when_some sp (drop_stream_bytes l);
      _ ← drop_stream_frame l fp; unlock l
  end.

(** [acquire_many_owned(n).await] on one of the semaphores: [None] waits. *)
Definition acquire_from (n : Z) (get : ConnectionShared -> option Sem)
    (put : Sem -> ConnectionShared -> ConnectionShared) : Conn (option Permit) := fun s =>
  match get s with
  | None => (Panic, s)
  | Some sem =>
      match acquire_many n sem with
      | AClosed => (Err ConnectionClosed, s)
      | AWait => (Ok None, s)
      | AGot p sem => (Ok (Some p), put sem s)
      end
  end.
Definition acquire_stream_frame (l : loc) : Conn (option Permit) :=
  acquire_from 1 (fun s => outbound_stream_frames <$> heap s !! l)
    (fun sem s => s <| heap ::= alter (fun st => st <| outbound_stream_frames := sem |>) l |>).
Definition acquire_stream_bytes (l : loc) (n : Z) : Conn (option Permit) :=
  acquire_from (as_u32 n) (fun s => outbound_stream_bytes <$> heap s !! l)
    (fun sem s => s <| heap ::= alter (fun st => st <| outbound_stream_bytes := sem |>) l |>).
Definition acquire_frame : Conn (option Permit) :=
  acquire_from 1 (fun s => Some (outbound_frames s)) (fun sem s => s <| outbound_frames := sem |>).
Definition acquire_conn_bytes (n : Z) : Conn (option Permit) :=
  acquire_from (as_u32 n) (fun s => Some (outbound_conn_bytes s))
    (fun sem s => s <| outbound_conn_bytes := sem |>).

(** All permits held: queue the chunk, which takes them. *)
Definition send_enqueue (f : SendFuture) (id : VarInt) (fp : Permit) (sp : option Permit)
    (frp : Permit) (cp : option Permit) : Conn SendPoll :=
  let l := sf_state f in
  let release :=
    _ ← when_some cp drop_conn_bytes; release_stage l (SConnBytes fp sp frp) in
  _ ← on_err release ensure_open;
  enqueued ← enqueue_data (sf_stream_id f) (mkOutboundChunk l frp fp id (sf_payload f) (sf_fin f) cp sp);
  if (enqueued : bool) then
    _ ← when (sf_fin f) (
          _ ← upd_state l (fun st => st <| send_terminal := true |>);
          notify (WakeSend l));
    _ ← unlock l;
    mret SDone
  else
    _ ← unlock l;
    fail (Protocol "stream or connection closed before enqueue").

Definition send_conn_bytes (f : SendFuture) (id : VarInt) (fp : Permit) (sp : option Permit)
    (frp : Permit) : Conn SendPoll :=
  let l := sf_state f in
  if zlen (sf_payload f) =? 0 then send_enqueue f id fp sp frp None
  else
    cp ← on_err (release_stage l (SConnBytes fp sp frp)) (acquire_conn_bytes (zlen (sf_payload f)));
    match cp with
    | None => mret (SPending (SConnBytes fp sp frp))
    | Some cp => send_enqueue f id fp sp frp (Some cp)
    end.

Definition send_frame (f : SendFuture) (id : VarInt) (fp : Permit) (sp : option Permit) :
    Conn SendPoll :=
  frp ← on_err (release_stage (sf_state f) (SFrame fp sp)) acquire_frame;
  match frp with
  | None => mret (SPending (SFrame fp sp))
  | Some frp => send_conn_bytes f id fp sp frp
  end.

Definition send_stream_bytes (f : SendFuture) (id : VarInt) (fp : Permit) : Conn SendPoll :=
  let l := sf_state f in
  if zlen (sf_payload f) =? 0 then send_frame f id fp None
  else
    sp ← on_err (release_stage l (SStreamBytes fp)) (acquire_stream_bytes l (zlen (sf_payload f)));
    match sp with
    | None => mret (SPending (SStreamBytes fp))
    | Some sp => send_frame f id fp (Some sp)
    end.

Definition send_stream_frame (f : SendFuture) (id : VarInt) : Conn SendPoll :=
  fp ← on_err (release_stage (sf_state f) SStreamFrame) (acquire_stream_frame (sf_state f));
  match fp with
  | None => mret (SPending SStreamFrame)
  | Some fp => send_stream_bytes f id fp
  end.

(** The checks made under the lock; [None] is an empty write, which is done. *)
Definition send_checks (f : SendFuture) : Conn (option VarInt) :=
  _ ← ensure_open;
  st ← get_state (sf_state f);
  _ ← bail_if (send_terminal st) (Protocol "stream send side already closed");
  id ← lift (proto_stream_id (sf_stream_id f));
  encoded_len ← lift (map_err Wire (Frame.encoded_len (Stream id (sf_fin f) (sf_payload f))));
  lim ← gets limits;
  _ ← bail_if (max_frame_size lim <? encoded_len)
        (LimitExceeded ("encoded stream frame size " +:+ dec encoded_len +:+
                        " exceeds max frame size " +:+ dec (max_frame_size lim)));
  _ ← bail_if (max_outbound_stream_bytes lim <? zlen (sf_payload f))
        (LimitExceeded "chunk exceeds the outbound stream byte budget");
  mret (if (zlen (sf_payload f) =? 0) && negb (sf_fin f) then None else Some id).

Definition send_lock (f : SendFuture) : Conn SendPoll :=
  let l := sf_state f in
  st ← get_state l;
  if send_locked st then mret (SPending SLock)
  else
    _ ← upd_state l (fun st => st <| send_locked := true |>);
    id ← on_err (unlock l) (send_checks f);
    match id with
    | None => _ ← unlock l; mret SDone
    | Some id => send_stream_frame f id
    end.

(** [queue_stream_chunk] polled once. *)
Definition queue_stream_chunk (f : SendFuture) : Conn SendPoll :=
  match sf_stage f with
  | SStart => _ ← ensure_open; send_lock f
  | SLock => send_lock f
  | stage =>
      id ← lift (proto_stream_id (sf_stream_id f));
      match stage with
      | SStreamBytes fp => send_stream_bytes f id fp
      | SFrame fp sp => send_frame f id fp sp
      | SConnBytes fp sp frp => send_conn_bytes f id fp sp frp
      | _ => send_stream_frame f id
      end
  end.

(** [send_stream_chunk] polled once: a terminal stream cancels the send. *)
Definition send_stream_chunk (f : SendFuture) : Conn SendPoll :=
  st ← get_state (sf_state f);
  if send_terminal st then
    _ ← release_stage (sf_state f) (sf_stage f);
    fail (Protocol "stream send side closed")
  else queue_stream_chunk f.

(** Dropping a future that was not completed. *)
Definition cancel_send (f : SendFuture) : Conn unit := release_stage (sf_state f) (sf_stage f).

(** ** [SendStream] and [RecvStream] *)

(** [select_mode]: compare-exchange from 0. *)
Definition select_mode (mode requested : Z) : Result Error Z :=
  if mode =? 0 then Ok requested
  else if mode =? requested then Ok mode
  else Err (Protocol "cannot mix chunk and AsyncRead/AsyncWrite APIs on a stream direction").
Definition select_send_mode (l : loc) (requested : Z) : Conn unit :=
  st ← get_state l;
  mode ← lift (select_mode (send_mode st) requested);
  upd_state l (fun st => st <| send_mode := mode |>).
Definition select_recv_mode (l : loc) (requested : Z) : Conn unit :=
  st ← get_state l;
  mode ← lift (select_mode (recv_mode st) requested);
  upd_state l (fun st => st <| recv_mode := mode |>).

(** [struct SendStream] and [struct RecvStream] *)
Record SendStream := mkSendStream {
  ss_stream_id : Z;
  ss_state : loc;
  write_fut : option SendFuture;
  shutdown_fut : option SendFuture;
  shutdown_complete : bool
}.
Record RecvStream := mkRecvStream {
  rs_stream_id : Z;
  rs_state : loc;
  read_fut : bool;
  read_buf : option InboundChunk;
  eof : bool
}.

#[global] Instance eta_SendStream : Settable SendStream := fun x =>
  mkSendStream (ss_stream_id x) (ss_state x) (write_fut x) (shutdown_fut x) (shutdown_complete x).
#[global] Instance eta_RecvStream : Settable RecvStream := fun x =>
  mkRecvStream (rs_stream_id x) (rs_state x) (read_fut x) (read_buf x) (eof x).

(** [write_chunk] and [finish], first poll; a pending future is polled with
    [send_stream_chunk]. *)
Definition write_chunk (h : SendStream) (chunk : bytes) : Conn SendPoll :=
  _ ← select_send_mode (ss_state h) 1;
  send_stream_chunk (mkSend (ss_stream_id h) (ss_state h) chunk false SStart).
Definition finish (h : SendStream) : Conn SendPoll :=
  _ ← select_send_mode (ss_state h) 1;
  send_stream_chunk (mkSend (ss_stream_id h) (ss_state h) [] true SStart).
Definition reset (h : SendStream) (error_code : Z) : Conn unit :=
  reset_stream (ss_stream_id h) (ss_state h) error_code.

(** Dropping a half: its [Drop], then the drop of its fields. *)
Definition drop_sender (h : SendStream) : Conn unit :=
  _ ← drop_send_stream (ss_state h);
  _ ← when_some (write_fut h) cancel_send;
  when_some (shutdown_fut h) cancel_send.
Definition drop_reader (h : RecvStream) : Conn unit :=
  _ ← drop_recv_stream (rs_state h);
  when_some (read_buf h) chunk_drop.

(** [RecvStream::read_chunk] polled once. *)
Definition recv_read_chunk (h : RecvStream) : Conn (Poll (option bytes)) :=
  _ ← select_recv_mode (rs_state h) 1;
  p ← read_chunk (rs_state h);
  match p with
  | Pending => mret Pending
  | Ready None => mret (Ready None)
  | Ready (Some c) => b ← chunk_into_bytes c; mret (Ready (Some b))
  end.

(** [io::Result] of the poll functions: [to_io_error] wraps an [Error]. *)
Inductive IoError := IoOther (e : Error) | IoBrokenPipe (m : string) | IoInvalidInput (m : string).
Inductive IoResult (A : Type) := IoOk (a : A) | IoErr (e : IoError).
#[global] Arguments IoOk {A} a.
#[global] Arguments IoErr {A} e.

(** Running a [Conn] call whose error goes to the caller through [to_io_error]. *)
Definition try_io {A} (m : Conn A) : Conn (IoResult A) := fun s =>
  match m s with
  | (Ok a, s') => (Ok (IoOk a), s')
  | (Err e, s') => (Ok (IoErr (IoOther e)), s')
  | (Panic, s') => (Panic, s')
  end.

(** Polling a stored future; it is dropped when it is ready. *)
Definition poll_fut (o : option SendFuture) : Conn (option SendFuture * Poll (IoResult unit)) :=
  match o with
  | None => mret (None, Ready (IoOk tt))
  | Some f =>
      r ← try_io (send_stream_chunk f);
      mret (match r with
            | IoOk SDone => (None, Ready (IoOk tt))
            | IoOk (SPending stage) => (Some (f <| sf_stage := stage |>), Pending)
            | IoErr e => (None, Ready (IoErr e))
            end)
  end.

(** [poll_flush] *)
Definition poll_flush (h : SendStream) : Conn (SendStream * Poll (IoResult unit)) :=
  m ← try_io (select_send_mode (ss_state h) 2);
  match m with
  | IoErr e => mret (h, Ready (IoErr e))
  | IoOk _ =>
      r ← poll_fut (write_fut h);
      mret (h <| write_fut := r.1 |>, r.2)
  end.

(** [poll_write]: drain the chunk accepted before, then accept one frame's worth. *)
Definition poll_write (h : SendStream) (buf : bytes) : Conn (SendStream * Poll (IoResult Z)) :=
  m ← try_io (select_send_mode (ss_state h) 2);
  match m with
  | IoErr e => mret (h, Ready (IoErr e))
  | IoOk _ =>
      if zlen buf =? 0 then mret (h, Ready (IoOk 0))
      else
        is_closed ← gets closed;
        st ← get_state (ss_state h);
        if is_closed || send_terminal st || bool_decide (is_Some (shutdown_fut h))
           || shutdown_complete h
        then mret (h, Ready (IoErr (IoBrokenPipe "stream already shut down")))
        else
          r ← poll_flush h;
          let '(h, flushed) := r in
          match flushed with
          | Pending => mret (h, Pending)
          | Ready (IoErr e) => mret (h, Ready (IoErr e))
          | Ready (IoOk _) =>
              lim ← gets limits;
              max_payload ← lift (expect (max_stream_payload lim (ss_stream_id h)));
              if max_payload =? 0 then
                mret (h, Ready (IoErr (IoInvalidInput "max frame size cannot encode stream data")))
              else
                let chunk := take (Z.to_nat (Z.min (zlen buf) max_payload)) buf in
                let f := mkSend (ss_stream_id h) (ss_state h) chunk false SStart in
                mret (h <| write_fut := Some f |>, Ready (IoOk (zlen chunk)))
          end
  end.

(** [poll_shutdown]: drain the accepted chunk, then send FIN. *)
Definition poll_shutdown (h : SendStream) : Conn (SendStream * Poll (IoResult unit)) :=
  m ← try_io (select_send_mode (ss_state h) 2);
  match m with
  | IoErr e => mret (h, Ready (IoErr e))
  | IoOk _ =>
      if shutdown_complete h then mret (h, Ready (IoOk tt))
      else
        r ← poll_fut (write_fut h);
        let h := h <| write_fut := r.1 |> in
        match r.2 with
        | Pending => mret (h, Pending)
        | Ready (IoErr e) => mret (h, Ready (IoErr e))
        | Ready (IoOk _) =>
            let f := default (mkSend (ss_stream_id h) (ss_state h) [] true SStart) (shutdown_fut h) in
            r ← poll_fut (Some f);
            let h := h <| shutdown_fut := r.1 |> in
            match r.2 with
            | Ready (IoOk _) => mret (h <| shutdown_complete := true |>, Ready (IoOk tt))
            | p => mret (h, p)
            end
        end
  end.

(** The loop of [poll_read] into a buffer with room for [remaining] bytes; an empty
    chunk is skipped, so one turn per buffered chunk is enough.  The field [read_pos]
    is never read and is left out. *)
Fixpoint poll_read_fuel (fuel : nat) (h : RecvStream) (remaining : Z) :
    Conn (RecvStream * Poll (IoResult bytes)) :=
  match fuel with
  | O => panic
  | S fuel =>
      match read_buf h with
      | Some c =>
          let b := ReceiveBuffer.deref (data c) in
          let count := Z.min (zlen b) remaining in
          if count =? 0 then
            _ ← chunk_drop c;
            poll_read_fuel fuel (h <| read_buf := None |>) remaining
          else
            rest ← lift (expect (ReceiveBuffer.advance count (data c)));
            c ← chunk_consume (c <| data := rest |>) count;
            let out := take (Z.to_nat count) b in
            if zlen (ReceiveBuffer.deref (data c)) =? 0 then
              _ ← chunk_drop c;
              mret (h <| read_buf := None |>, Ready (IoOk out))
            else mret (h <| read_buf := Some c |>, Ready (IoOk out))
      | None =>
          if eof h then mret (h, Ready (IoOk []))
          else
            r ← try_io (read_chunk (rs_state h));
            match r with
            | IoOk Pending => mret (h <| read_fut := true |>, Pending)
            | IoOk (Ready (Some c)) =>
                poll_read_fuel fuel (h <| read_fut := false |> <| read_buf := Some c |>) remaining
            | IoOk (Ready None) =>
                mret (h <| read_fut := false |> <| eof := true |>, Ready (IoOk []))
            | IoErr e => mret (h <| read_fut := false |>, Ready (IoErr e))
            end
      end
  end.

Definition poll_read (h : RecvStream) (remaining : Z) : Conn (RecvStream * Poll (IoResult bytes)) :=
  m ← try_io (select_recv_mode (rs_state h) 2);
  match m with
  | IoErr e => mret (h, Ready (IoErr e))
  | IoOk _ =>
      if remaining =? 0 then mret (h, Ready (IoOk []))
      else
        st ← get_state (rs_state h);
        poll_read_fuel (2 * length (chunks (inbound st)) + 3) h remaining
  end.

End streams.
