(* ===== verification/Tasks.v ===== *)
(** [spawn_connection_tasks] of [muxtls/src/connection.rs]: what the reader, writer,
    keepalive, stream-cleanup and supervisor tasks do between two waits.  The transport,
    its length-delimited framing and the timers are outside: an item is what the framed
    transport delivers. *)

From S2P Require Import Prelude Buf Varint Utf8 Frames Errors Limits Flow Tokio.
From S2P Require Import ConnState Inbound Writer Connection Streams.

#[local] Open Scope string_scope.
#[local] Open Scope list_scope.
#[local] Open Scope Z_scope.

Section tasks.
Context {TK : Tokio} {HI : HashIter}.

(** [record_received] and [record_sent] *)
Definition record_received (len : Z) : Conn unit :=
  modify (fun s => s <| stats ::= (fun c =>
    c <| frames_received ::= (fun n => wrapping_add n 1) |>
      <| bytes_received ::= (fun n => wrapping_add n (as_u64 len)) |>) |>).
Definition record_sent (len : Z) : Conn unit :=
  modify (fun s => s <| stats ::= (fun c =>
    c <| frames_sent ::= (fun n => wrapping_add n 1) |>
      <| bytes_sent ::= (fun n => wrapping_add n (as_u64 len)) |>) |>).

(** ** The reader task *)

(** What the reader's [select!] yields: a frame, a decoding error of the transport,
    the end of the transport, the idle timeout, or the termination signal. *)
Inductive ReaderItem :=
| RFrame (b : bytes)
| RDecodeError
| REof
| RIdleTimeout
| RTerminated.

(** A call whose error the reader handles. *)
Definition catch {A} (m : Conn A) (handler : Error -> Conn A) : Conn A := fun s =>
  match m s with
  | (Err e, s') => handler e s'
  | r => r
  end.

(** One item; [false] leaves the loop, and the task marks the connection closed. *)
Definition reader_item (item : ReaderItem) : Conn bool :=
  match item with
  | RFrame b =>
      _ ← record_received (zlen b);
      catch (handle_incoming_frame b) (fun error =>
        _ ← ignore (initiate_close 1 (utf8 ("protocol/runtime error: " +:+ show_error error)));
        mret false)
  | RIdleTimeout =>
      _ ← ignore (initiate_close 1 (utf8 "connection idle timeout elapsed"));
      mret false
  | RDecodeError | REof | RTerminated => mret false
  end.

Definition reader_step (item : ReaderItem) : Conn bool :=
  continue ← reader_item item;
  _ ← when (negb continue) mark_closed;
  mret continue.

(** ** The writer task *)

(** The bytes of a frame, as handed to the sink. *)
Definition encode_frame (f : Frame) : option bytes :=
  match Frame.encode f [] with
  | (Ok _, b) => Some b
  | _ => None
  end.

(** The stream whose sending side a frame ends. *)
Definition terminal_id (f : Frame) : option Z :=
  match f with
  | Stream stream_id true _ => Some (VarInt.into_inner stream_id)
  | ResetStream stream_id _ => Some (VarInt.into_inner stream_id)
  | _ => None
  end.

(** After the sink took an encoded frame; [false] leaves the loop. *)
Definition writer_sent (frame : Frame) (encoded_len : Z) : Conn bool :=
  _ ← record_sent encoded_len;
  _ ← match terminal_id frame with
      | Some id =>
          ss ← gets streams;
          _ ← match ss !! id with
              | Some l => upd_state l (fun st => st <| send_complete := true |>)
              | None => mret tt
              end;
          try_retire_stream id
      | None => mret tt
      end;
  mret (match frame with ConnectionClose _ _ => false | _ => true end).

(** Where the writer task waits: for a frame, for the sink to take an encoded frame, or
    for the sink to close. *)
Inductive WriterTask :=
| WriterIdle
| WriterSending (frame : Frame) (encoded : bytes)
| WriterClosing
| WriterEnded.

(** The task up to its next wait.  [sink_ok] is the result of [sink.send]; a terminated
    connection does not wait for it.  The end of the task closes the connection. *)
Definition writer_turn (sink_ok : bool) (t : WriterTask) : Conn WriterTask :=
  match t with
  | WriterIdle =>
      p ← next_frame;
      mret (match p with
            | Pending => WriterIdle
            | Ready None => WriterClosing
            | Ready (Some frame) =>
                match encode_frame frame with
                | Some b => WriterSending frame b
                | None => WriterClosing
                end
            end)
  | WriterSending frame b =>
      stop ← gets terminated;
      if (stop : bool) || negb sink_ok then mret WriterClosing
      else
        continue ← writer_sent frame (zlen b);
        mret (if (continue : bool) then WriterIdle else WriterClosing)
  | WriterClosing => _ ← mark_closed; mret WriterEnded
  | WriterEnded => mret WriterEnded
  end.

(** ** The keepalive, cleanup and supervisor tasks *)

(** A keepalive tick; [false] ends the task. *)
Definition keepalive_tick : Conn bool :=
  was_closed ← gets closed;
  if (was_closed : bool) then mret false
  else
    queued ← enqueue_control Ping;
    now_closed ← gets closed;
    _ ← when (negb queued && negb now_closed) mark_closed;
    mret queued.

(** A pass of the cleanup task over the streams of the map. *)
Definition cleanup_stream (id : Z) (l : loc) : Conn unit :=
  st ← get_state l;
  _ ← upd_state l (fun st => st <| send_dropped := false |>);
  _ ← when (send_dropped st) (handle_last_send_drop id l);
  st ← get_state l;
  _ ← upd_state l (fun st => st <| recv_dropped := false |>);
  when (recv_dropped st) (handle_last_recv_drop id l).
Fixpoint cleanup_streams (ls : list (Z * loc)) : Conn unit :=
  match ls with
  | [] => mret tt
  | (id, l) :: ls => _ ← cleanup_stream id l; cleanup_streams ls
  end.
Definition cleanup_pass : Conn unit :=
  ss ← gets streams;
  cleanup_streams (hash_iter ss).

(** [Drop for Connection] and [Clone for Connection] *)
Definition clone_connection : Conn unit :=
  modify (fun s => s <| connection_handles ::= (fun n => wrapping_add n 1) |>).
Definition drop_connection : Conn unit :=
  n ← gets connection_handles;
  _ ← modify (fun s => s <| connection_handles ::= (fun n => (n - 1) mod 2 ^ 64) |>);
  when (n =? 1) (notify WakeClose).

(** The supervisor's watch: closes when the last handle is gone; [true] starts the
    drain deadline. *)
Definition supervisor_watch : Conn bool :=
  c ← gets closed;
  if (c : bool) then mret true
  else
    n ← gets connection_handles;
    if n =? 0 then
      _ ← ignore (initiate_close 0 (utf8 "last connection handle dropped"));
      mret true
    else mret false.

(** The drain deadline, or a task that panicked. *)
Definition supervisor_deadline : Conn unit := mark_closed.

(** All tasks have ended. *)
Definition supervisor_joined : Conn unit :=
  _ ← mark_closed;
  _ ← modify (fun s => s <| incoming_streams := [] |> <| joined := true |>);
  notify WakeClose.

End tasks.
