(* ===== verification/ReceiveSpec.v ===== *)
(** Receiving stream data: acceptance is decided by the advertised credit alone, the
    bytes arrive in order, and the memory behind a queue is bounded. *)

From S2P Require Import Prelude Hoare Buf Varint Frames Errors Limits Flow Tokio.
From S2P Require Import ConnState Inbound InboundSpec Writer Connection.

#[local] Open Scope Z_scope.

Section receive.
Context {TK : Tokio} {TKL : TokioLaws TK}.
Implicit Types (s : ConnectionShared) (st : StreamState) (hs : list InboundChunk).

(** ** Accepting a payload *)

(** The window after [n] bytes were received. *)
Definition got (n : Z) (w : ReceiveWindow) : ReceiveWindow :=
  mkWindow (received w + n) (consumed w) (advertised w) (window w).

Lemma got_inv w n : ReceiveWindow.inv w -> 0 <= n <= ReceiveWindow.credit w ->
  ReceiveWindow.inv (got n w) /\ ReceiveWindow.buffered (got n w) = ReceiveWindow.buffered w + n.
Proof.
  intros Hi Hn. assert (n <= u64_max).
  { pose proof (ReceiveWindow.next_limit_le w Hi) as Hl. destruct Hi. rewrite VarInt.MAX_eq in *.
    unfold ReceiveWindow.credit, u64_max in *. lia. }
  split; [|unfold ReceiveWindow.buffered; simpl; lia].
  pose proof (ReceiveWindow.inv_op (ReceiveWindow.OReceive n) w Hi ltac:(simpl; lia)) as Hi'. simpl in Hi'.
  by rewrite ReceiveWindow.receive_eq, (proj2 (Z.leb_le _ _)) in Hi' by (done || lia).
Qed.

Lemma wp_conn_window_receive n s (Q : unit -> ConnectionShared -> Prop) (R : Error -> ConnectionShared -> Prop) :
  ReceiveWindow.inv (receive_window s) -> 0 <= n <= u64_max ->
  (n <= ReceiveWindow.credit (receive_window s) -> Q tt (s <| receive_window ::= got n |>)) ->
  (ReceiveWindow.credit (receive_window s) < n -> R ReceiveWindow.credit_error s) ->
  wp (conn_window_receive n) s Q R.
Proof.
  intros Hi Hn HQ HR. unfold wp, conn_window_receive. rewrite ReceiveWindow.receive_eq by done.
  destruct (Z.leb_spec n (ReceiveWindow.credit (receive_window s))); [by apply HQ|].
  specialize (HR ltac:(done)). by destruct s.
Qed.

(** An update of a stream state is determined by its effect on that state. *)
Lemma upd_heap_eq s l st f g : heap s !! l = Some st -> f st = g st ->
  s <| heap ::= alter f l |> = s <| heap ::= alter g l |>.
Proof.
  intros Hl Hfg. destruct s; simpl in *. f_equal. apply alter_ext_eq. intros a Ha. congruence.
Qed.

Lemma upd_heap_id s l st f : heap s !! l = Some st -> f st = st -> s <| heap ::= alter f l |> = s.
Proof.
  intros Hl Hf. destruct s; simpl in *. f_equal. apply alter_id. intros a Ha. congruence.
Qed.

Lemma wp_stream_window_receive l st n s (Q : unit -> ConnectionShared -> Prop) (R : Error -> ConnectionShared -> Prop) :
  heap s !! l = Some st -> ReceiveWindow.inv (st_window st) -> 0 <= n <= u64_max ->
  (n <= ReceiveWindow.credit (st_window st) ->
     Q tt (s <| heap ::= alter (fun st => st <| st_window ::= got n |>) l |>)) ->
  (ReceiveWindow.credit (st_window st) < n -> R ReceiveWindow.credit_error s) ->
  wp (stream_window_receive l n) s Q R.
Proof.
  intros Hl Hi Hn HQ HR. unfold stream_window_receive. wp_step. apply (wp_get_state l st); [done|].
  rewrite ReceiveWindow.receive_eq by done. unfold upd_state.
  destruct (Z.leb_spec n (ReceiveWindow.credit (st_window st))); wp_steps.
  - erewrite upd_heap_eq; [by apply HQ|done|done].
  - rewrite (upd_heap_id _ _ _ _ Hl); [by apply HR|]. by destruct st.
Qed.

(** Both windows accepted: the bytes are in flight. *)
Lemma acct_got s hs l st n : acct idle s hs -> heap s !! l = Some st ->
  0 <= n <= ReceiveWindow.credit (receive_window s) -> n <= ReceiveWindow.credit (st_window st) ->
  acct (l, n) (s <| receive_window ::= got n |>
                 <| heap ::= alter (fun st => st <| st_window ::= got n |>) l |>) hs.
Proof.
  intros [Hw Hsm Hst Hh _ Hb Hp] Hl Hn Hn'. simpl in Hb. destruct (Hst _ _ Hl) as [Hsw Hss Hsc Hsb Hsp].
  destruct (got_inv (receive_window s) n) as [Hw' Hb']; [done..|].
  destruct (got_inv (st_window st) n) as [Hsw' Hsb']; [done|lia|].
  split; simpl; rewrite ?msum_queued_alter by done; try (done || lia).
  - intros k st' Hk. destruct (decide (l = k)) as [<-|Hne].
    + rewrite lookup_alter_eq, Hl in Hk. apply (inj Some) in Hk. subst st'. split; try done.
      rewrite in_flight_idle in Hsb. unfold in_flight, queued in *. simpl. rewrite decide_True by done.
      eapply covers_shift; [exact Hsb|]. lia.
    + rewrite lookup_alter_ne in Hk by done. destruct (Hst _ _ Hk) as [? ? ? Hb2 ?]. split; try done.
      rewrite in_flight_idle in Hb2. unfold in_flight. simpl. by rewrite decide_False.
  - eapply Forall_impl; [exact Hh|]. intros c [? ?]. split; [by apply alter_is_Some|done].
Qed.

Lemma acct_none l s hs : acct (l, 0) s hs -> acct idle s hs.
Proof.
  intros [Hw Hsm Hst Hh Hfl Hb Hp]. split; try done. intros k st Hk. destruct (Hst _ _ Hk) as [? ? ? Hsb ?].
  split; try done. rewrite in_flight_idle. eapply covers_shift; [exact Hsb|].
  unfold in_flight. case_decide; simpl; lia.
Qed.

(** ** Retiring a stream *)

Definition closed_permit st : StreamState := st <| open_permit := None |>.

Lemma acct_same fl s s' hs : acct fl s hs -> heap s' = heap s -> receive_window s' = receive_window s ->
  inbound_conn_bytes s' = inbound_conn_bytes s -> acct fl s' hs.
Proof. intros [] H1 H2 H3. split; by rewrite ?H1, ?H2, ?H3. Qed.

Lemma wp_release_open_permit fl l st s hs (Q : unit -> ConnectionShared -> Prop) (R : Error -> ConnectionShared -> Prop) :
  acct fl s hs -> heap s !! l = Some st ->
  (forall s', acct fl s' hs -> streams s' = streams s -> heap s' = alter closed_permit l (heap s) ->
     evolve s s' -> Q tt s') ->
  wp (release_open_permit l) s Q R.
Proof.
  intros Ha Hl HQ. unfold release_open_permit. wp_step. apply (wp_get_state l st); [done|].
  unfold when_some, upd_state. destruct (open_permit st); wp_steps;
    (apply HQ; [|done..|by eapply evolve_fields; [by apply (evolve_upd s l closed_permit)|]];
     apply (acct_same _ (s <| heap ::= alter closed_permit l |>)); [by apply acct_upd|done..]).
Qed.

Lemma wp_try_retire fl id s hs (Q : unit -> ConnectionShared -> Prop) (R : Error -> ConnectionShared -> Prop) :
  acct fl s hs -> (forall l, streams s !! id = Some l -> is_Some (heap s !! l)) ->
  (forall s', acct fl s' hs -> closed_permit <$> heap s' = closed_permit <$> heap s -> evolve s s' -> Q tt s') ->
  wp (try_retire_stream id) s Q R.
Proof.
  intros Ha Hv HQ. unfold try_retire_stream. wp_step. wp_step.
  destruct (streams s !! id) as [l|] eqn:Hs; [|wp_step; by apply HQ].
  destruct (Hv l eq_refl) as [st Hl]. wp_step. apply (wp_get_state l st); [done|].
  wp_step; [|by apply HQ]. wp_step. eapply wp_release_open_permit; [done..|].
  intros s1 Ha1 Hs1 Hh1 Hev. assert (He : closed_permit <$> heap s1 = closed_permit <$> heap s).
  { rewrite Hh1. by apply fmap_alter_same. }
  assert (Hl1 : heap s1 !! l = Some (closed_permit st)) by (by rewrite Hh1, lookup_alter_eq, Hl).
  wp_step. wp_step. wp_step. eapply wp_get_state; [exact Hl1|]. unfold upd_queues.
  wp_steps; (apply HQ; [|done|]); [by apply (acct_same _ s1)| |done|done].
  etransitivity; [exact Hev|]. split; try done. simpl. apply delete_subseteq.
Qed.

(** ** Delivering a payload *)

(** What a reader of stream [l], and the readers of the others, can see changed by
    [payload] only. *)
Record arrived (l : loc) (payload : bytes) st s st' s' : Prop := {
  ar_state : heap s' !! l = Some st';
  ar_bytes : content st' = if recv_discarded st then content st else content st ++ payload;
  ar_fin : fin_received (inbound st') = fin_received (inbound st);
  ar_terminal : recv_terminal st' = recv_terminal st;
  ar_dense : queue_dense (page_size (limits s)) (chunks (inbound st)) ->
             queue_dense (page_size (limits s)) (chunks (inbound st'));
  ar_others : forall k, k <> l -> inbound <$> heap s' !! k = inbound <$> heap s !! k;
  ar_streams : streams s' = streams s;
  ar_evolve : evolve s s'
}.

Lemma pushed_arrived l payload st s s' : heap s !! l = Some st -> recv_terminal st = false -> pushed l st payload s s' ->
  exists st', arrived l payload st s st' s'.
Proof.
  intros Hl Ht Hp. unfold pushed in Hp.
  assert (Hg : exists cs, chunk_bytes cs = (if recv_discarded st then content st else content st ++ payload) /\
    (queue_dense (page_size (limits s)) (chunks (inbound st)) -> queue_dense (page_size (limits s)) cs) /\
    erase s' = erase (s <| heap ::= alter (fun st => st <| inbound ::= (fun i => i <| chunks := cs |>) |>) l |>)).
  { destruct (recv_discarded st).
    - exists (chunks (inbound st)). split_and!; [done|done|]. rewrite Hp. symmetry.
      erewrite upd_heap_id; [done|done|]. destruct st as [[]]. done.
    - destruct Hp as (cs & [_ _ Hb Hd] & He). eauto. }
  destruct Hg as (cs & Hb & Hd & He).
  destruct (erase_lookup _ _ l (st <| inbound ::= (fun i => i <| chunks := cs |>) |>) He) as (st' & Hl' & Hst').
  { simpl. by rewrite lookup_alter_eq, Hl. }
  pose proof (f_equal inbound Hst') as Hi. simpl in Hi.
  exists st'. split; try done.
  - unfold content. by rewrite Hi.
  - by rewrite Hi.
  - apply (f_equal recv_terminal Hst').
  - by rewrite Hi.
  - intros k Hk. apply (f_equal heap) in He. simpl in He. apply (f_equal (lookup k)) in He.
    rewrite !lookup_fmap, lookup_alter_ne in He by done. apply (f_equal (fmap inbound)) in He.
    by destruct (heap s' !! k), (heap s !! k).
  - apply (f_equal streams He).
  - etransitivity; [|by apply evolve_erase]. apply evolve_upd. intros ? Hx. rewrite Hl in Hx.
    apply (inj Some) in Hx as <-. split; try done. by rewrite Ht.
Qed.

(** The stream can still receive: its budgets are open, and an end of stream seen by
    the reader was recorded. *)
Record receiving s st : Prop := {
  rc_conn : is_closed (inbound_conn_bytes s) = false;
  rc_stream : is_closed (inbound_stream_bytes st) = false;
  rc_fin : fin_received (inbound st) = true -> recv_terminal st = true;
  rc_page : 0 < max_inbound_stream_bytes (limits s)
}.

Lemma wp_deliver l st s hs payload (Q : unit -> ConnectionShared -> Prop) (R : Error -> ConnectionShared -> Prop) :
  acct (l, zlen payload) s hs -> heap s !! l = Some st -> receiving s st -> recv_terminal st = false ->
  (forall st' s', acct idle s' hs -> arrived l payload st s st' s' -> Q tt s') ->
  wp (when (negb (zlen payload =? 0)) (push_inbound l payload)) s Q R.
Proof.
  intros Ha Hl [Hc Hcs Hfin Hlim] Ht HQ. pose proof (zlen_nonneg payload). wp_step.
  - eapply wp_push_inbound; try done; [lia|by destruct (fin_received _); [rewrite Hfin in Ht|]|].
    intros s' Ha' Hp. destruct (pushed_arrived l payload st s s' Hl Ht Hp) as [st' Hst']. by eapply HQ.
  - assert (payload = []) as -> by (apply zlen_0_nil; lia). apply (HQ st s); [by apply (acct_none l)|].
    split; try done. rewrite app_nil_r. by case_match.
Qed.

Lemma wp_finish_recv id l st s hs fin (Q : unit -> ConnectionShared -> Prop) (R : Error -> ConnectionShared -> Prop) :
  acct idle s hs -> streams s !! id = Some l -> heap s !! l = Some st ->
  (forall s' st', acct idle s' hs -> heap s' !! l = Some st' -> chunks (inbound st') = chunks (inbound st) ->
     recv_terminal st' = fin || recv_terminal st -> fin_received (inbound st') = fin || fin_received (inbound st) ->
     (forall k, k <> l -> inbound <$> heap s' !! k = inbound <$> heap s !! k) -> evolve s s' -> Q tt s') ->
  wp (when fin (_ ← mark_recv_terminal l; try_retire_stream id)) s Q R.
Proof.
  intros Ha Hs Hl HQ. destruct fin; [|by eapply HQ]. wp_step; [|done]. wp_step.
  unfold mark_recv_terminal, upd_inbound, upd_state, notify. wp_steps.
  match goal with |- wp _ ?x _ _ => set (s1 := x) end.
  set (st1 := st <| inbound ::= (fun i => i <| fin_received := true |>) |> <| recv_terminal := true |>).
  assert (Hl1 : heap s1 !! l = Some st1) by (simpl; by rewrite !lookup_alter_eq, Hl).
  eapply (wp_try_retire idle id s1 hs).
  { apply (acct_wakes _ _ hs (_ :: wakes s)). by do 2 (apply acct_upd; [|done|done]). }
  { intros l' Hs'. change (streams s1) with (streams s) in Hs'. rewrite Hs in Hs'.
    apply (inj Some) in Hs' as <-. by rewrite Hl1. }
  intros s' Ha' He Hev. pose proof (f_equal (lookup l) He) as Hel. rewrite !lookup_fmap, Hl1 in Hel.
  destruct (heap s' !! l) as [st'|] eqn:Hl'; [|done]. apply (inj Some) in Hel.
  eapply (HQ s' st'); try done.
  - apply (f_equal (fun x => chunks (inbound x)) Hel).
  - apply (f_equal recv_terminal Hel).
  - apply (f_equal (fun x => fin_received (inbound x)) Hel).
  - intros k Hk. pose proof (f_equal (lookup k) He) as Hek. rewrite !lookup_fmap in Hek. simpl in Hek.
    rewrite !lookup_alter_ne in Hek by done. apply (f_equal (fmap inbound)) in Hek.
    by destruct (heap s' !! k), (heap s !! k).
  - etransitivity; [|exact Hev]. unfold s1.
    transitivity (s <| heap ::= alter (fun st => st <| inbound ::= (fun i => i <| fin_received := true |>) |>
                                                     <| recv_terminal := true |>) l |>).
    { by apply evolve_upd. }
    eapply evolve_fields; [reflexivity|]. unfold receive_fields. simpl. by erewrite alter_alter_eq.
Qed.

(** What readers see after stream data was handled. *)
Record taken (l : loc) (payload : bytes) (fin : bool) st s s' : Prop := {
  tk_state : exists st', heap s' !! l = Some st' /\
    content st' = (if recv_discarded st then content st else content st ++ payload) /\
    fin_received (inbound st') = fin /\ recv_terminal st' = fin /\
    (queue_dense (page_size (limits s)) (chunks (inbound st)) ->
     queue_dense (page_size (limits s)) (chunks (inbound st')));
  tk_others : forall k, k <> l -> inbound <$> heap s' !! k = inbound <$> heap s !! k;
  tk_evolve : evolve s s'
}.

(** The part of [on_remote_stream_frame] after the windows accepted the payload. *)
Lemma wp_accepted id l st s hs payload fin (R : Error -> ConnectionShared -> Prop) :
  acct (l, zlen payload) s hs -> streams s !! id = Some l -> heap s !! l = Some st ->
  receiving s st -> recv_terminal st = false ->
  wp (w ← gets receive_window;
      st ← get_state l;
      _ ← when (ReceiveWindow.needs_update w || ReceiveWindow.needs_update (st_window st)) (notify WakeWriter);
      _ ← when (negb (zlen payload =? 0)) (push_inbound l payload);
      when fin (_ ← mark_recv_terminal l; try_retire_stream id)) s
    (fun _ s' => acct idle s' hs /\ taken l payload fin st s s') R.
Proof.
  intros Ha Hs Hl Hrc Ht. wp_step. wp_step. wp_step. apply (wp_get_state l st); [done|]. wp_step.
  apply (wp_mono _ _ (fun _ s' => exists ws, s' = s <| wakes := ws |>) (fun _ _ => False)); [|..|done].
  { unfold notify. wp_steps; [by eexists|]. exists (wakes s). by destruct s. }
  intros _ ? [ws ->]. wp_step.
  apply (wp_deliver l st (s <| wakes := ws |>) hs); [by apply acct_wakes|done|by destruct Hrc|done|].
  intros st' s' Ha' [Hl' Hb Hf' Ht' Hd Ho Hs' Hev]. eapply wp_finish_recv; [done|by rewrite Hs'|done|].
  intros s'' st'' Ha'' Hl'' Hc Ht'' Hf'' Ho'' Hev'. split; [done|]. split.
  - exists st''. rewrite Hl'', Hc, Hf'', Ht'', Hf', Ht', Ht.
    assert (fin_received (inbound st) = false) as ->.
    { destruct (fin_received (inbound st)) eqn:E; [|done]. by rewrite (rc_fin _ _ Hrc) in Ht. }
    rewrite orb_false_r. split_and!; try done. unfold content in *. by rewrite Hc.
  - intros k Hk. by rewrite Ho'', Ho.
  - etransitivity; [|exact Hev']. etransitivity; [|exact Hev]. by split.
Qed.

Definition accepted st s (payload : bytes) : Prop :=
  recv_terminal st = false /\ zlen payload <= ReceiveWindow.credit (receive_window s) /\
  zlen payload <= ReceiveWindow.credit (st_window st).
(** A refused payload ends the connection; nothing of it was buffered. *)
Inductive refused st s (payload : bytes) : Error -> ConnectionShared -> Prop :=
| refused_fin (m : string) : recv_terminal st = true -> refused st s payload (Protocol m) s
| refused_conn : ReceiveWindow.credit (receive_window s) < zlen payload ->
    refused st s payload ReceiveWindow.credit_error s
| refused_stream : zlen payload <= ReceiveWindow.credit (receive_window s) -> ReceiveWindow.credit (st_window st) < zlen payload ->
    refused st s payload ReceiveWindow.credit_error (s <| receive_window ::= got (zlen payload) |>).

Lemma wp_stream_frame id l st s hs payload fin :
  acct idle s hs -> streams s !! id = Some l -> heap s !! l = Some st -> receiving s st -> zlen payload <= u64_max ->
  wp (on_remote_stream_frame id payload fin) s
    (fun _ s' => acct idle s' hs /\ accepted st s payload /\ taken l payload fin st s s')
    (refused st s payload).
Proof.
  intros Ha Hs Hl Hrc Hn. pose proof (zlen_nonneg payload).
  unfold on_remote_stream_frame, find_stream. wp_step. wp_step. wp_step. rewrite Hs. simpl ok_or. wp_step. wp_step.
  apply (wp_get_state l st); [done|]. unfold ensure_peer_send_open. wp_step.
  destruct (recv_terminal st) eqn:Ht; wp_step; [by constructor|].
  wp_step. apply wp_conn_window_receive; [apply Ha|lia| |]; intros Hc; [|by constructor].
  wp_step. apply (wp_stream_window_receive _ st); [done|apply (ac_streams _ _ _ Ha _ _ Hl)|lia| |]; intros Hc';
    [|by constructor].
  pose proof (acct_got s hs l st (zlen payload) Ha Hl ltac:(lia) Hc') as Ha1.
  assert (Hl1 : heap (s <| receive_window ::= got (zlen payload) |>
      <| heap ::= alter (fun st => st <| st_window ::= got (zlen payload) |>) l |>) !! l
    = Some (st <| st_window ::= got (zlen payload) |>)) by (simpl; by rewrite lookup_alter_eq, Hl).
  eapply wp_mono; [eapply (wp_accepted id l _ _ hs payload fin (fun _ _ => False) Ha1 Hs Hl1)| |done].
  { by destruct Hrc. }
  { done. }
  intros _ s' [Ha' [Hst Ho Hev]]. split_and!; [done|done|]. split; [done|..].
  - intros k Hk. rewrite Ho by done. simpl. by rewrite lookup_alter_ne.
  - etransitivity; [|exact Hev]. etransitivity; [|by apply (evolve_upd (s <| receive_window ::= got (zlen payload) |>))].
    by split.
Qed.

End receive.
