(* ===== verification/ReadSpec.v ===== *)
(** Reading a stream through [AsyncRead]: the loop of [poll_read] stops, and it hands
    out the bytes of the stream in order, each once. *)

From S2P Require Import Prelude Hoare Buf Varint Frames Errors Limits Flow Tokio.
From S2P Require Import ConnState Inbound InboundSpec Writer Connection Streams.

#[local] Open Scope Z_scope.

Section read.
Context {TK : Tokio} {TKL : TokioLaws TK}.
Implicit Types (s : ConnectionShared) (st : StreamState) (hs : list InboundChunk) (h : RecvStream).

Definition hand h : list InboundChunk := match read_buf h with Some c => [c] | None => [] end.

(** The bytes a reader has still to get: the rest of its chunk, then the queue. *)
Definition unread h st : bytes := chunk_bytes (hand h) ++ content st.

(** A reader of stream [l]. *)
Record reads h st : Prop := {
  rd_hand : Forall (fun c => owner c = rs_state h /\ held c = len c) (hand h);
  rd_fin : fin_received (inbound st) = true -> recv_terminal st = true;
  rd_eof : eof h = true -> recv_terminal st = true /\ content st = []
}.

Lemma reads_same h st h' st' : reads h st ->
  Forall (fun c => owner c = rs_state h' /\ held c = len c) (hand h') -> eof h' = eof h ->
  inbound st' = inbound st -> recv_terminal st' = recv_terminal st -> reads h' st'.
Proof. intros [_ Hf He] Hh Heof Hi Ht. split; unfold content; rewrite ?Heof, ?Hi, ?Ht; done. Qed.

(** The stream ended. *)
Definition ended h st : Prop := eof h = true \/ fin_received (inbound st) = true \/ recv_terminal st = true.

(** What one poll did; [fl] is what was accepted and is in no queue. *)
Context (fl : loc * Z).
Definition polled s h st hs (remaining : Z) (r : RecvStream * Poll (IoResult bytes)) s' : Prop :=
  let '(h', p) := r in
  evolve s s' /\ acct fl s' (hand h' ++ hs) /\
  exists st', heap s' !! rs_state h = Some st' /\ rs_state h' = rs_state h /\ reads h' st' /\
    match p with
    | Ready (IoOk out) =>
        unread h st = out ++ unread h' st' /\ zlen out <= remaining /\ (out = [] -> ended h st /\ unread h st = [])
    | Pending => unread h st = [] /\ unread h' st' = []
    | Ready (IoErr e) =>
        unread h' st' = unread h st /\
        ((exists code, reset_error (inbound st) = Some code /\ e = IoOther (StreamReset code)) \/
         unread h st = [] /\ e = IoOther ConnectionClosed)
    end.

Lemma wp_try_io {A} (m : Conn A) s (Q : IoResult A -> ConnectionShared -> Prop) (R : Error -> ConnectionShared -> Prop) :
  wp m s (fun a => Q (IoOk a)) (fun e => Q (IoErr (IoOther e))) -> wp (try_io m) s Q R.
Proof. unfold wp, try_io. by destruct (m s) as [[] ?]. Qed.

(** Taking [count] bytes of the chunk in hand. *)
Lemma wp_take_bytes c rest count s hs (Q : InboundChunk -> ConnectionShared -> Prop) (R : Error -> ConnectionShared -> Prop) :
  acct fl s (c :: hs) -> held c = len c -> 0 <= count <= len c ->
  ReceiveBuffer.advance count (data c) = Some rest ->
  (forall c' s', acct fl s' (c' :: hs) -> owner c' = owner c -> held c' = len c' ->
     ReceiveBuffer.deref (data c) = take (Z.to_nat count) (ReceiveBuffer.deref (data c)) ++ ReceiveBuffer.deref (data c') ->
     len c' = len c - count -> erase s' = erase s -> Q c' s') ->
  wp (chunk_consume (c <| data := rest |>) count) s Q R.
Proof.
  intros Ha Hl Hc Hadv HQ. destruct (acct_hand _ _ _ _ Ha) as (Hch & _).
  assert (Hrest : ReceiveBuffer.deref rest = drop (Z.to_nat count) (ReceiveBuffer.deref (data c))).
  { unfold ReceiveBuffer.advance in Hadv. destruct (_ <=? _); [|done]. apply (inj Some) in Hadv. subst rest.
    by destruct (data c). }
  assert (Hlen : zlen (ReceiveBuffer.deref rest) = len c - count).
  { rewrite Hrest. unfold len, zlen in *. rewrite length_drop. lia. }
  apply (wp_consume_acct fl _ _ _ hs).
  { apply (acct_replace _ _ c); try done. by destruct Hch. }
  { change (0 <= count <= held c). lia. }
  intros c' s' Ha' Ho Hd Hh _ He. change (held (c <| data := rest |>)) with (held c) in Hh. simpl in Hd.
  assert (Hlc : len c' = len c - count) by (unfold len at 1; by rewrite Hd).
  apply HQ; try done; [lia|]. by rewrite Hd, Hrest, take_drop.
Qed.

(** A turn of the loop that moved no byte to the caller. *)
Lemma polled_turn s h st s0 h0 st0 hs remaining r s' :
  unread h0 st0 = unread h st -> rs_state h0 = rs_state h -> eof h0 = eof h ->
  fin_received (inbound st0) = fin_received (inbound st) -> recv_terminal st0 = recv_terminal st ->
  reset_error (inbound st0) = reset_error (inbound st) ->
  evolve s s0 -> polled s0 h0 st0 hs remaining r s' -> polled s h st hs remaining r s'.
Proof.
  intros Hu Hs He Hf Ht Hr Hev. unfold polled, ended. destruct r as [h' p]. rewrite Hu, Hs, He, Hf, Ht, Hr.
  intros [? ?]. split; [by etransitivity|done].
Qed.

Lemma erase_inbound s s' l st : erase s' = erase s -> heap s !! l = Some st ->
  exists st', heap s' !! l = Some st' /\ inbound st' = inbound st /\ recv_terminal st' = recv_terminal st.
Proof.
  intros He Hl. destruct (erase_lookup _ _ _ _ He Hl) as (st' & Hl' & Hst). exists st'. split_and!; [done|..].
  - apply (f_equal inbound Hst).
  - apply (f_equal recv_terminal Hst).
Qed.

Lemma wp_read_hand h c st s hs remaining :
  acct fl s (c :: hs) -> heap s !! rs_state h = Some st -> reads h st -> read_buf h = Some c ->
  0 < Z.min (len c) remaining ->
  wp (rest ← lift (expect (ReceiveBuffer.advance (Z.min (len c) remaining) (data c)));
      c' ← chunk_consume (c <| data := rest |>) (Z.min (len c) remaining);
      let out := take (Z.to_nat (Z.min (len c) remaining)) (ReceiveBuffer.deref (data c)) in
      if zlen (ReceiveBuffer.deref (data c')) =? 0 then
        _ ← chunk_drop c';
        mret (h <| read_buf := None |>, Ready (IoOk out))
      else mret (h <| read_buf := Some c' |>, Ready (IoOk out))) s
    (polled s h st hs remaining) (fun _ _ => False).
Proof.
  intros Ha Hl Hr Hc Hpos. set (count := Z.min (len c) remaining) in *.
  pose proof (rd_hand _ _ Hr) as Hh. unfold hand in Hh. rewrite Hc, Forall_singleton in Hh. destruct Hh as [Ho Hlen].
  assert (Hadv : is_Some (ReceiveBuffer.advance count (data c))).
  { unfold ReceiveBuffer.advance. fold (len c). rewrite (proj2 (Z.leb_le _ _)) by lia. by eexists. }
  destruct Hadv as [rest Hadv]. rewrite Hadv. wp_step. simpl expect. wp_step. wp_step.
  apply (wp_take_bytes c rest count s hs); [done|done|lia|done|].
  intros c' s' Ha' Ho' Hh' Hb Hl' He. cbv zeta. fold (len c').
  destruct (erase_inbound _ _ _ _ He Hl) as (st' & Hst' & Hin & Ht).
  set (out := take (Z.to_nat count) (ReceiveBuffer.deref (data c))) in *.
  assert (Hout : zlen out = count).
  { unfold out, zlen. rewrite length_take. unfold len, zlen in *. lia. }
  assert (Hun : unread h st = out ++ ReceiveBuffer.deref (data c') ++ content st).
  { unfold unread, hand, chunk_bytes. rewrite Hc. simpl. by rewrite app_nil_r, Hb, <- app_assoc. }
  wp_step.
  - wp_step. eapply wp_chunk_drop; [exact Ha'|done|]. intros s'' Ha'' He'. wp_step. split; [|split; [done|]].
    { etransitivity; apply evolve_erase; done. }
    destruct (erase_inbound _ _ _ _ He' Hst') as (st'' & Hst'' & Hin' & Ht'). exists st''.
    assert (Hnil : ReceiveBuffer.deref (data c') = []) by (by apply zlen_0_nil).
    split_and!; [done|done| | |lia|intros ->; simpl in Hout; rewrite zlen_nil in Hout; lia].
    + eapply reads_same; [exact Hr|constructor|done|congruence..].
    + rewrite Hun, Hnil. unfold unread, content. simpl. by rewrite Hin', Hin.
  - wp_step. split; [by apply evolve_erase|]. split; [done|]. exists st'.
    split_and!; [done|done| | |lia|intros ->; simpl in Hout; rewrite zlen_nil in Hout; lia].
    + eapply reads_same; [exact Hr|constructor; [by rewrite Ho'|constructor]|done..].
    + rewrite Hun. unfold unread, content, chunk_bytes. simpl. by rewrite Hin, app_nil_r.
Qed.

(** Reading evolves the stream. *)
Lemma evolve_pop s l st c cs : heap s !! l = Some st -> chunks (inbound st) = c :: cs ->
  evolve s (s <| heap ::= alter (fun st => st <| inbound ::= (fun i => i <| chunks := cs |>) |>) l |>).
Proof.
  intros Hl Hcs. apply evolve_upd. intros st' Hst'. rewrite Hl in Hst'. apply (inj Some) in Hst' as <-.
  split; try done; unfold content, queue_dense; simpl; rewrite Hcs.
  - intros _ [_ H]%app_eq_nil. done.
  - intros [[_ Hd] [_ Hf]%Forall_cons]. done.
Qed.

Lemma evolve_fin s l st : heap s !! l = Some st -> fin_received (inbound st) = true \/ recv_terminal st = true ->
  evolve s (s <| heap ::= alter (fun st => st <| inbound ::= (fun i => i <| fin_received := true |>) |>) l |>).
Proof.
  intros Hl Hend. apply evolve_upd. intros st' Hst'. rewrite Hl in Hst'. apply (inj Some) in Hst' as <-.
  split; try done. intros Hf _. destruct Hend; [by apply Hf|done].
Qed.

(** The arm of the loop that has no chunk in hand; [k] is the next turn. *)
Lemma wp_read_next h st s hs remaining (k : RecvStream -> Conn (RecvStream * Poll (IoResult bytes))) :
  acct fl s hs -> heap s !! rs_state h = Some st -> reads h st -> read_buf h = None -> eof h = false ->
  (forall h1 st1 s1, acct fl s1 (hand h1 ++ hs) -> heap s1 !! rs_state h1 = Some st1 -> reads h1 st1 ->
     (length (chunks (inbound st1)) + 1 = length (chunks (inbound st)))%nat -> length (hand h1) = 1%nat ->
     wp (k h1) s1 (polled s1 h1 st1 hs remaining) (fun _ _ => False)) ->
  0 < remaining ->
  wp (r ← try_io (read_chunk (rs_state h));
      match r with
      | IoOk Pending => mret (h <| read_fut := true |>, Pending)
      | IoOk (Ready (Some c)) => k (h <| read_fut := false |> <| read_buf := Some c |>)
      | IoOk (Ready None) => mret (h <| read_fut := false |> <| eof := true |>, Ready (IoOk []))
      | IoErr e => mret (h <| read_fut := false |>, Ready (IoErr e))
      end) s (polled s h st hs remaining) (fun _ _ => False).
Proof.
  intros Ha Hl Hr Hc He Hk Hrem. wp_step. apply wp_try_io.
  assert (Hun : unread h st = content st) by (unfold unread, hand; by rewrite Hc).
  assert (Hh : hand h = []) by (unfold hand; by rewrite Hc).
  eapply wp_mono; [apply (wp_read_chunk fl _ st _ hs Ha Hl)|..].
  - intros [[c|]|] s'.
    + intros (cs & Hcs & [Ho Hch Hlen] & Ha' & ->).
      set (st1 := st <| inbound ::= (fun i => i <| chunks := cs |>) |>).
      eapply wp_mono; [apply (Hk _ st1); try done| |done].
      * simpl. by rewrite lookup_alter_eq, Hl.
      * split; [by repeat constructor|apply (rd_fin _ _ Hr)|simpl; congruence].
      * simpl. rewrite Hcs. simpl. lia.
      * intros r s'. apply polled_turn; try done; [|by eapply evolve_pop]. rewrite Hun. unfold unread, content, hand, chunk_bytes.
        simpl. by rewrite Hcs, app_nil_r.
    + intros (Hcs & Hend & Ha' & ->). wp_step. split; [by eapply evolve_fin|]. unfold hand. simpl.
      rewrite Hc. split; [done|].
      assert (Hnil : content st = []) by (unfold content; by rewrite Hcs).
      exists (st <| inbound ::= (fun i => i <| fin_received := true |>) |>).
      split_and!; [by rewrite lookup_alter_eq, Hl|done| | |by rewrite zlen_nil; lia|].
      * assert (recv_terminal st = true) by (destruct Hend; [by apply (rd_fin _ _ Hr)|done]).
        by split; [unfold hand; simpl; rewrite ?Hc; constructor|..].
      * unfold unread, hand. simpl. by rewrite ?Hc.
      * intros _. split; [unfold ended; tauto|]. by rewrite Hun.
    + intros [Hcs ->]. wp_step. split; [done|]. unfold hand. simpl. rewrite Hc. split; [done|].
      assert (Hnil : content st = []) by (unfold content; by rewrite Hcs).
      exists st. split_and!; [done|done|by destruct Hr|by rewrite Hun|]. unfold unread, hand. simpl. by rewrite ?Hc.
  - intros e s' [-> Herr]. wp_step. split; [done|]. unfold hand. simpl. rewrite Hc. split; [done|].
    exists st. split_and!; [done|done|by destruct Hr|done|].
    destruct Herr as [?|(Hcs & _ & ->)]; [naive_solver|]. right. split; [|done]. rewrite Hun.
    unfold content. by rewrite Hcs.
Qed.

(** The arm of the loop that drops an empty chunk. *)
Lemma wp_skip_hand h c st s hs remaining (k : RecvStream -> Conn (RecvStream * Poll (IoResult bytes))) :
  acct fl s (c :: hs) -> heap s !! rs_state h = Some st -> reads h st -> read_buf h = Some c -> len c = 0 ->
  (forall h1 st1 s1, acct fl s1 (hand h1 ++ hs) -> heap s1 !! rs_state h1 = Some st1 -> reads h1 st1 ->
     chunks (inbound st1) = chunks (inbound st) -> hand h1 = [] ->
     wp (k h1) s1 (polled s1 h1 st1 hs remaining) (fun _ _ => False)) ->
  wp (_ ← chunk_drop c; k (h <| read_buf := None |>)) s (polled s h st hs remaining) (fun _ _ => False).
Proof.
  intros Ha Hl Hr Hc Hlen Hk. pose proof (rd_hand _ _ Hr) as Hh. unfold hand in Hh.
  rewrite Hc, Forall_singleton in Hh. destruct Hh as [Ho Hh].
  wp_step. eapply wp_chunk_drop; [exact Ha|done|]. intros s' Ha' He.
  destruct (erase_inbound _ _ _ _ He Hl) as (st' & Hst' & Hin & Ht).
  eapply wp_mono; [apply (Hk _ st'); try done| |done]; [|by rewrite Hin|].
  - eapply reads_same; [exact Hr|constructor|done..].
  - intros r s''. apply polled_turn; rewrite ?Hin; try done; [|by apply evolve_erase].
    unfold unread, content, hand, chunk_bytes. rewrite Hc, Hin.
    assert (ReceiveBuffer.deref (data c) = []) as Hnil by (by apply zlen_0_nil). simpl. by rewrite Hnil.
Qed.

(** The loop, with a turn for the chunk in hand and two for each chunk of the queue. *)
Lemma wp_poll_read_fuel hs remaining fuel : 0 < remaining -> forall h st s,
  acct fl s (hand h ++ hs) -> heap s !! rs_state h = Some st -> reads h st ->
  (2 * length (chunks (inbound st)) + length (hand h) + 1 <= fuel)%nat ->
  wp (poll_read_fuel fuel h remaining) s (polled s h st hs remaining) (fun _ _ => False).
Proof.
  intros Hrem. induction fuel as [|fuel IH]; intros h st s Ha Hl Hr Hfuel; [lia|]. cbn [poll_read_fuel].
  destruct (read_buf h) as [c|] eqn:Hc; unfold hand in Ha, Hfuel; rewrite Hc in Ha, Hfuel; simpl in Ha, Hfuel.
  - cbv zeta. fold (len c). pose proof (len_nonneg c).
    destruct (Z.eqb_spec (Z.min (len c) remaining) 0); [|apply wp_read_hand; (done || lia)].
    apply (wp_skip_hand h c st s hs remaining (fun h => poll_read_fuel fuel h remaining)); try (done || lia).
    intros h1 st1 s1 Ha1 Hl1 Hr1 Hc1 Hh1.
    apply IH; try done. rewrite Hc1, Hh1. simpl. lia.
  - destruct (eof h) eqn:He.
    + wp_step. split; [done|]. unfold hand. rewrite Hc. split; [done|]. exists st.
      assert (Hun : unread h st = []) by (unfold unread, hand; rewrite Hc; by apply (rd_eof _ _ Hr)).
      split_and!; try done; [rewrite zlen_nil; lia|]. intros _. split; [by left|done].
    + apply (wp_read_next h st s hs remaining (fun h => poll_read_fuel fuel h remaining)); try done.
      intros h1 st1 s1 Ha1 Hl1 Hr1 Hc1 Hh1. apply IH; try done. lia.
Qed.

(** One poll; a stream that is used through the other interface is left alone. *)
Lemma poll_read_ok h st s hs remaining :
  acct fl s (hand h ++ hs) -> heap s !! rs_state h = Some st -> reads h st -> 0 < remaining ->
  exists r s', poll_read h remaining s = (Ok r, s') /\
    if (recv_mode st =? 0) || (recv_mode st =? 2) then polled s h st hs remaining r s'
    else s' = s /\ exists m, r = (h, Ready (IoErr (IoOther (Protocol m)))).
Proof.
  intros Ha Hl Hr Hrem. apply wp_ok. unfold poll_read. wp_step. apply wp_try_io.
  unfold select_recv_mode. wp_step. apply (wp_get_state _ st); [done|]. wp_step. unfold select_mode.
  set (st1 := st <| recv_mode := 2 |>).
  assert (Hgo : forall s1, evolve s s1 -> acct fl s1 (hand h ++ hs) -> heap s1 !! rs_state h = Some st1 ->
    wp (st ← get_state (rs_state h);
        poll_read_fuel (2 * length (chunks (inbound st)) + 3) h remaining) s1
       (polled s h st hs remaining) (fun _ _ => False)).
  { intros s1 Hev Ha1 Hl1. wp_step. eapply wp_get_state; [exact Hl1|].
    eapply wp_mono; [eapply (wp_poll_read_fuel _ _ _ Hrem); [done..|by destruct Hr|]| |done].
    - unfold hand. destruct (read_buf h); simpl; lia.
    - intros r s'. by apply polled_turn. }
  assert (Hs1 : forall mode, mode = 2 -> acct fl (s <| heap ::= alter (fun st => st <| recv_mode := mode |>) (rs_state h) |>)
      (hand h ++ hs) /\
    heap (s <| heap ::= alter (fun st => st <| recv_mode := mode |>) (rs_state h) |>) !! rs_state h = Some st1).
  { intros ? ->. split; [by apply acct_upd|]. simpl. by rewrite lookup_alter_eq, Hl. }
  destruct (Z.eqb_spec (recv_mode st) 0) as [H0|H0]; [|destruct (Z.eqb_spec (recv_mode st) 2) as [H2|H2]]; simpl orb.
  - wp_step. unfold upd_state. wp_step. destruct (Hs1 2 eq_refl) as [Ha1 Hl1].
    destruct (Z.eqb_spec remaining 0); [lia|]. apply Hgo; [by apply evolve_upd|done..].
  - wp_step. unfold upd_state. wp_step. destruct (Hs1 (recv_mode st) H2) as [Ha1 Hl1].
    destruct (Z.eqb_spec remaining 0); [lia|]. apply Hgo; [by apply evolve_upd|done..].
  - wp_step. wp_step. eauto.
Qed.

End read.
