(* ===== verification/ReceiveSystem.v ===== *)
(** The receiving side of an open connection as a system: frames that arrive, streams
    that are accepted, readers that poll, read and are dropped, and the window updates
    of the writer, in any order. *)

From S2P Require Import Prelude Hoare Buf Varint Frames Errors Limits Flow Tokio.
From S2P Require Import ConnState Inbound InboundSpec Writer Connection Streams ReceiveSpec ReadSpec.

#[local] Open Scope Z_scope.

Section operations.
Context {TK : Tokio} {TKL : TokioLaws TK}.
Implicit Types (s : ConnectionShared) (st : StreamState) (hs : list InboundChunk) (h : RecvStream).

(** ** The other operations keep the accounts *)

(** What every operation guarantees. *)
Definition settled (fl : loc * Z) hs s s' : Prop := acct fl s' hs /\ evolve s s'.

Lemma wp_mark_reset {fl : loc * Z} l st code s hs (Q : unit -> ConnectionShared -> Prop) (R : Error -> ConnectionShared -> Prop) :
  acct fl s hs -> heap s !! l = Some st -> (forall s', settled fl hs s s' -> streams s' = streams s -> Q tt s') ->
  wp (mark_reset l code) s Q R.
Proof.
  intros Ha Hl HQ. unfold mark_reset. wp_step. apply (wp_get_state l st); [done|].
  unfold upd_inbound, upd_state. wp_step. wp_step. wp_step. eapply wp_drop_queue; [done..|].
  intros s' Ha' He. unfold notify. wp_step. apply HQ; [|apply (f_equal streams He)].
  split; [by apply (acct_wakes _ _ hs (_ :: wakes s'))|].
  eapply evolve_fields; [etransitivity; [|by apply evolve_erase]|done]. by apply evolve_upd.
Qed.

Lemma wp_discard_inbound {fl : loc * Z} l st s hs (Q : unit -> ConnectionShared -> Prop) (R : Error -> ConnectionShared -> Prop) :
  acct fl s hs -> heap s !! l = Some st -> (forall s', settled fl hs s s' -> Q tt s') ->
  wp (discard_inbound l) s Q R.
Proof.
  intros Ha Hl HQ. unfold discard_inbound, upd_inbound, upd_state. wp_step. wp_step. wp_step.
  set (s1 := s <| heap ::= _ |>). set (st1 := st <| recv_discarded := true |>).
  assert (Ha1 : acct fl s1 hs) by (by apply acct_upd).
  assert (Hl1 : heap s1 !! l = Some st1) by (simpl; by rewrite lookup_alter_eq, Hl).
  assert (Hev : evolve s s1) by (by apply evolve_upd). clearbody s1.
  eapply wp_get_state; [exact Hl1|]. wp_step. wp_step. eapply wp_drop_queue; [done..|].
  intros s' Ha' He. apply HQ. split; [done|]. etransitivity; [exact Hev|].
  etransitivity; [|by apply evolve_erase]. by apply evolve_upd.
Qed.

Lemma settled_refl {fl : loc * Z} hs s : acct fl s hs -> settled fl hs s s.
Proof. by split. Qed.
Lemma settled_trans {fl : loc * Z} hs hs' s s1 s' : settled fl hs s s1 -> settled fl hs' s1 s' -> settled fl hs' s s'.
Proof. intros [_ H] [Ha H']. split; [done|by etransitivity]. Qed.

Lemma wp_remote_reset id code s hs :
  acct idle s hs -> (forall l, streams s !! id = Some l -> is_Some (heap s !! l)) ->
  wp (on_remote_reset id code) s (fun _ s' => settled idle hs s s') (fun _ s' => settled idle hs s s').
Proof.
  intros Ha Hv. unfold on_remote_reset, find_stream. wp_step. wp_step. wp_step.
  destruct (streams s !! id) as [l|] eqn:Hs; simpl ok_or; wp_step; [|by apply settled_refl].
  destruct (Hv l eq_refl) as [st Hl]. wp_step. apply (wp_get_state l st); [done|].
  unfold ensure_peer_send_open. wp_step. destruct (recv_terminal st); wp_step; [by apply settled_refl|].
  wp_step. eapply wp_mark_reset; [done..|]. intros s1 Hst1 Hs1.
  pose proof Hst1 as [Ha1 Hev1].
  destruct (heap s1 !! l) as [st1|] eqn:Hl1; [|by destruct (eo_heap _ _ Hev1 l); rewrite ?Hl in *].
  apply (wp_finish_recv id l st1 s1 hs true); [done|by rewrite Hs1|done|].
  intros s' st' Ha' _ _ _ _ _ Hev. eapply settled_trans; [exact Hst1|by split].
Qed.

(** [RecvStream::read_chunk] hands out whole chunks. *)
Definition read_out (fl : loc * Z) (l : loc) hs st s (p : Poll (option bytes)) s' : Prop :=
  settled fl hs s s' /\ exists st', heap s' !! l = Some st' /\
    match p with
    | Ready (Some b) => content st = b ++ content st'
    | Ready None => content st = [] /\ content st' = [] /\ (fin_received (inbound st) = true \/ recv_terminal st = true)
    | Pending => content st = [] /\ content st' = []
    end.

(** A failed call leaves the bytes where they are. *)
Definition read_failed (fl : loc * Z) (l : loc) hs st s s' : Prop :=
  settled fl hs s s' /\ exists st', heap s' !! l = Some st' /\ content st' = content st.

Lemma wp_read_bytes {fl : loc * Z} l st s hs : acct fl s hs -> heap s !! l = Some st ->
  wp (p ← read_chunk l;
      match p with
      | Pending => mret Pending
      | Ready None => mret (Ready None)
      | Ready (Some c) => b ← chunk_into_bytes c; mret (Ready (Some b))
      end) s (read_out fl l hs st s) (fun _ s' => read_failed fl l hs st s s').
Proof.
  intros Ha Hl. wp_step. eapply wp_mono; [apply (wp_read_chunk fl _ st _ hs Ha Hl)|..].
  - intros [[c|]|] s1.
    + intros (cs & Hcs & [Ho _ Hlen] & Ha1 & Hs1). pose proof (evolve_pop s l st c cs Hl Hcs) as Hev.
      rewrite <- Hs1 in Hev. wp_step. apply (wp_chunk_into_bytes _ _ _ _ _ _ Ha1); [done|]. intros s' Ha' He. wp_step.
      split; [split; [done|]; etransitivity; [exact Hev|by apply evolve_erase]|].
      destruct (erase_inbound s1 s' l (st <| inbound ::= (fun i => i <| chunks := cs |>) |>) He)
        as (st' & Hl' & Hin & _); [rewrite Hs1; simpl; by rewrite lookup_alter_eq, Hl|].
      exists st'. split; [done|]. unfold content. by rewrite Hin, Hcs.
    + intros (Hcs & Hend & Ha1 & ->). wp_step. split; [split; [done|by eapply evolve_fin]|].
      eexists. split; [simpl; by rewrite lookup_alter_eq, Hl|]. unfold content. by rewrite Hcs.
    + intros [Hcs ->]. wp_step. split; [by apply settled_refl|]. exists st. split; [done|].
      unfold content. by rewrite Hcs.
  - intros e s' [-> _]. split; [by apply settled_refl|by exists st].
Qed.

Lemma wp_recv_read {fl : loc * Z} h st s hs : acct fl s hs -> heap s !! rs_state h = Some st ->
  wp (recv_read_chunk h) s (read_out fl (rs_state h) hs st s) (fun _ s' => read_failed fl (rs_state h) hs st s s').
Proof.
  intros Ha Hl. unfold recv_read_chunk, select_recv_mode. wp_step. wp_step. apply (wp_get_state _ st); [done|].
  wp_step. unfold select_mode.
  assert (Hgo : forall mode, wp (upd_state (rs_state h) (fun st => st <| recv_mode := mode |>)) s
    (fun _ s1 => exists st1, settled fl hs s s1 /\ heap s1 !! rs_state h = Some st1 /\
       inbound st1 = inbound st /\ recv_terminal st1 = recv_terminal st) (fun _ _ => False)).
  { intros mode. unfold upd_state. wp_step. exists (st <| recv_mode := mode |>). split_and!; try done.
    - split; [by apply acct_upd|by apply evolve_upd].
    - simpl. by rewrite lookup_alter_eq, Hl. }
  destruct (recv_mode st =? 0); [|destruct (recv_mode st =? 1)]; wp_step; [..|split; [by apply settled_refl|by exists st]];
    (eapply wp_mono; [apply Hgo| |done]; intros _ s1 (st1 & [Ha1 Hev] & Hl1 & Hin & Ht);
     eapply wp_mono; [by apply (wp_read_bytes (fl := fl))|..]; unfold read_out, read_failed, content; rewrite ?Hin, ?Ht;
     intros ? s' [Hst Hrest]; (split; [by eapply settled_trans|done])).
Qed.

Lemma wp_recv_read_chunk {fl : loc * Z} h st s hs : acct fl s hs -> heap s !! rs_state h = Some st ->
  wp (recv_read_chunk h) s (read_out fl (rs_state h) hs st s) (fun _ s' => settled fl hs s s').
Proof. intros Ha Hl. eapply wp_mono; [by apply (wp_recv_read (fl := fl) h st s hs)|done|]. by intros e s' []. Qed.

(** A step that changes one stream state, and fields that do not matter here. *)
Lemma settled_upd {fl : loc * Z} hs s l f s' : acct fl s hs -> keeps_credit f ->
  (forall st, chunks (inbound (f st)) = chunks (inbound st)) ->
  (forall st, evolves (page_size (limits s)) st (f st)) ->
  receive_fields s' = receive_fields (s <| heap ::= alter f l |>) -> settled fl hs s s'.
Proof.
  intros Ha Hf Hc He Hs'. split.
  - apply (acct_same _ (s <| heap ::= alter f l |>)); [by apply acct_upd|..].
    + apply (f_equal snd Hs').
    + apply (f_equal (fun x => x.1.1.2) Hs').
    + apply (f_equal (fun x => x.1.2) Hs').
  - eapply evolve_fields; [|exact Hs']. apply evolve_upd. auto.
Qed.

Lemma wp_drop_recv_stream {fl : loc * Z} l st s hs (Q : unit -> ConnectionShared -> Prop) (R : Error -> ConnectionShared -> Prop) :
  acct fl s hs -> heap s !! l = Some st -> (forall s', settled fl hs s s' -> Q tt s') ->
  wp (drop_recv_stream l) s Q R.
Proof.
  intros Ha Hl HQ. unfold drop_recv_stream, release_recv_handle. wp_step. wp_step.
  apply (wp_get_state l st); [done|]. unfold upd_state, notify.
  destruct (recv_handles st =? 0); [wp_steps; [done|]; by apply HQ, settled_refl|].
  wp_steps; apply HQ.
  - eapply (settled_upd hs s l (fun st => st <| recv_handles ::= (fun n => n - 1) |> <| recv_dropped := true |>));
      try done. unfold receive_fields. simpl. by erewrite alter_alter_eq.
  - by eapply (settled_upd hs s l (fun st => st <| recv_handles ::= (fun n => n - 1) |>)).
Qed.

Lemma wp_drop_reader {fl : loc * Z} h st s hs (R : Error -> ConnectionShared -> Prop) :
  acct fl s (hand h ++ hs) -> heap s !! rs_state h = Some st ->
  Forall (fun c => owner c = rs_state h /\ held c = len c) (hand h) ->
  wp (drop_reader h) s (fun _ s' => settled fl hs s s') R.
Proof.
  intros Ha Hl Hh. unfold drop_reader. wp_step. eapply wp_drop_recv_stream; [done..|].
  intros s1 [Ha1 Hev]. unfold hand in *. destruct (read_buf h) as [c|]; simpl in *; [|by split].
  rewrite Forall_singleton in Hh. eapply wp_chunk_drop; [exact Ha1|apply Hh|].
  intros s' Ha' He. split; [done|]. etransitivity; [exact Hev|by apply evolve_erase].
Qed.

(** ** Window updates *)

Lemma raised_acct w : ReceiveWindow.inv w -> ReceiveWindow.needs_update w = true ->
  ReceiveWindow.inv (ReceiveWindow.raised w) /\ window (ReceiveWindow.raised w) = window w /\
  ReceiveWindow.buffered (ReceiveWindow.raised w) = ReceiveWindow.buffered w.
Proof. intros Hi Hn. by destruct (ReceiveWindow.raised_inv w Hi Hn). Qed.

Lemma settled_conn_window {fl : loc * Z} hs s : acct fl s hs -> ReceiveWindow.needs_update (receive_window s) = true ->
  settled fl hs s (s <| receive_window ::= ReceiveWindow.raised |>).
Proof.
  intros [Hw Hsm Hst Hh Hfl Hb Hp] Hn. destruct (raised_acct _ Hw Hn) as (? & ? & Hr). by split.
Qed.

Lemma settled_stream_window {fl : loc * Z} hs s l st : acct fl s hs -> heap s !! l = Some st ->
  ReceiveWindow.needs_update (st_window st) = true ->
  settled fl hs s (s <| heap ::= alter (fun st => st <| st_window ::= ReceiveWindow.raised |>) l |>).
Proof.
  intros [Hw Hsm Hst Hh Hfl Hb Hp] Hl Hn. destruct (Hst _ _ Hl) as [Hsw Hss Hch Hsb Hsp].
  destruct (raised_acct _ Hsw Hn) as (? & ? & Hr). split; [|by apply evolve_upd].
  split; simpl; rewrite ?msum_queued_alter by done; try done.
  - intros k st' Hk. destruct (decide (l = k)) as [<-|]; [|rewrite lookup_alter_ne in Hk by done; by apply Hst].
    rewrite lookup_alter_eq, Hl in Hk. apply (inj Some) in Hk. subst st'. by split.
  - eapply Forall_impl; [exact Hh|]. intros c [? ?]. split; [by apply alter_is_Some|done].
Qed.

Lemma wp_conn_window_update {fl : loc * Z} s hs (R : Error -> ConnectionShared -> Prop) : acct fl s hs ->
  wp conn_window_update s (fun _ s' => settled fl hs s s') R.
Proof.
  intros Ha. unfold conn_window_update, wp. rewrite ReceiveWindow.update_eq by apply Ha.
  destruct (ReceiveWindow.needs_update _) eqn:Hn; [by apply settled_conn_window|].
  destruct s. by apply settled_refl.
Qed.

Lemma wp_stream_updates {fl : loc * Z} ws s hs (R : Error -> ConnectionShared -> Prop) :
  acct fl s hs -> Forall (fun w => 0 <= w.1 <= VarInt.MAX) ws ->
  wp (find_stream_update ws) s (fun _ s' => settled fl hs s s') R.
Proof.
  intros Ha Hws. induction Hws as [|[id l] ws Hid Hws IH]; simpl; [by apply settled_refl|].
  wp_step. wp_step. destruct (heap s !! l) as [st|] eqn:Hl; [|done]. wp_step; [done|].
  rewrite ReceiveWindow.update_eq by apply (ac_streams _ _ _ Ha _ _ Hl). unfold upd_state.
  destruct (ReceiveWindow.needs_update (st_window st)) eqn:Hn; wp_step; wp_step; wp_step; wp_step.
  - simpl in Hid. rewrite VarInt.from_u64_ok by lia. cbn [ok expect]. wp_step. wp_step. wp_step.
    erewrite (upd_heap_eq s l st _ (fun st => st <| st_window ::= ReceiveWindow.raised |>));
      [by eapply settled_stream_window|done|done].
  - erewrite upd_heap_id; [done|done|]. by destruct st.
Qed.

(** ** Opening a stream *)

Lemma in_hand_fresh s l hs : Forall (fun c => is_Some (heap s !! owner c) /\ chunk_held c) hs ->
  heap s !! l = None -> in_hand l hs = 0.
Proof.
  intros Hh Hl. induction Hh as [|c hs [[st Hc] _] _ IH]; [done|]. rewrite in_hand_cons, IH.
  by rewrite decide_False by congruence.
Qed.

Lemma acct_new_stream s l hs n m p f : acct idle s hs -> heap s !! l = None -> 0 < n <= u32_max ->
  acct idle (s <| heap ::= insert l (stream_state_new n m p f) |>) hs.
Proof.
  intros [Hw Hsm Hst Hh Hfl Hb Hp] Hl Hn. pose proof (in_hand_fresh _ _ _ Hh Hl) as Hin.
  assert (Hu : as_u64 n = n) by (apply ReceiveWindow.as_u64_small; unfold u32_max, u64_max in *; lia).
  split; simpl; rewrite ?msum_insert by done; try done.
  - intros k st Hk. destruct (decide (l = k)) as [<-|].
    + rewrite lookup_insert_eq in Hk. apply (inj Some) in Hk. subst st. split; simpl.
      * apply ReceiveWindow.inv_new. rewrite VarInt.MAX_eq. unfold u32_max in Hn. lia.
      * rewrite Hu. lia.
      * constructor.
      * unfold queued. simpl. rewrite Hin, in_flight_idle. unfold ReceiveWindow.buffered. simpl. lia.
      * rewrite Hin, new_available, Hu. unfold queued. simpl. lia.
    + rewrite lookup_insert_ne in Hk by done. by apply Hst.
  - eapply Forall_impl; [exact Hh|]. intros c [[st Hc] ?]. split; [|done].
    rewrite lookup_insert_ne by congruence. by rewrite Hc.
Qed.

(** A stream was added: it may be in the map and in the accept queue. *)
Record grown s s' : Prop := {
  gr_limits : limits s' = limits s;
  gr_streams : forall id l, streams s' !! id = Some l -> streams s !! id = Some l \/ l = next_loc s;
  gr_incoming : Forall (fun i => i ∈ incoming_streams s \/ i.2 = next_loc s) (incoming_streams s');
  gr_next : next_loc s' = S (next_loc s);
  gr_heap : exists m p f, heap s' =
    <[next_loc s := stream_state_new (max_inbound_stream_bytes (limits s)) m p f]> (heap s);
  gr_cleanup : cleanup_started s' = cleanup_started s;
  gr_window : receive_window s' = receive_window s;
  gr_bytes : inbound_conn_bytes s' = inbound_conn_bytes s
}.

(** What a received OPEN does, also when it is refused. *)
Lemma wp_or_drop p (b : bool) e s (Q : unit -> ConnectionShared -> Prop) (R : Error -> ConnectionShared -> Prop) :
  (b = false -> Q tt s) -> (b = true -> R e (s <| open_streams ::= permit_drop p |>)) ->
  wp (or_drop_permit p (bail_if b e)) s Q R.
Proof. destruct b; intros HQ HR; [by apply HR|by apply HQ]. Qed.

Lemma incoming_kept s : Forall (fun i => i ∈ incoming_streams s \/ i.2 = next_loc s) (incoming_streams s).
Proof. apply Forall_forall. by left. Qed.

Lemma wp_remote_open id s : 0 <= id <= VarInt.MAX ->
  wp (on_remote_open id) s (fun _ s' => grown s s') (fun _ s' => s' = s \/ grown s s').
Proof.
  intros Hid. unfold on_remote_open. wp_step. wp_step. wp_step. wp_step; [by left|]. wp_step. wp_step.
  wp_step. wp_step; [by left|]. wp_step. unfold checked_add. rewrite VarInt.MAX_eq in Hid.
  rewrite (proj2 (Z.leb_le (id + 2) u64_max)) by (unfold u64_max; lia). simpl expect. wp_step. wp_step. wp_step.
  destruct (try_acquire_many 1 (open_streams s)) as [[p sem]|]; [|by left]. wp_step. wp_step. wp_step.
  unfold new_stream, wp at 1. wp_step. wp_step. wp_step. apply wp_or_drop; intros Hex.
  2:{ right. split; simpl; try done; [by left|apply incoming_kept|by eexists _, _, _]. }
  assert (Hstr : forall k l, <[id := next_loc s]> (streams s) !! k = Some l -> streams s !! k = Some l \/ l = next_loc s).
  { intros k l [[_ <-]|[_ ?]]%lookup_insert_Some; [by right|by left]. }
  unfold upd_queues, notify. wp_steps.
  - right. split; simpl; try done; [apply incoming_kept|by eexists _, _, _].
  - split; simpl; try done; [|by eexists _, _, _]. apply Forall_app. split; [apply incoming_kept|]. constructor; [by right|done].
Qed.

End operations.

(** ** The system *)

Section system.
Context {TK : Tokio} {TKL : TokioLaws TK}.
Implicit Types (s : ConnectionShared) (st : StreamState) (h : RecvStream) (rs : list RecvStream).

(** The chunks in the hands of readers. *)
Definition hands rs : list InboundChunk := rs ≫= hand.

Definition reader_ok s h : Prop := exists st, heap s !! rs_state h = Some st /\
  Forall (fun c => owner c = rs_state h /\ held c = len c) (hand h) /\
  (eof h = true -> recv_terminal st = true /\ content st = []).

Record stream_in (op : bool) s st : Prop := {
  si_fin : fin_received (inbound st) = true -> recv_terminal st = true;
  si_dense : queue_dense (page_size (limits s)) (chunks (inbound st));
  si_size : window (st_window st) = max_inbound_stream_bytes (limits s);
  si_open : op = true -> is_closed (inbound_stream_bytes st) = false
}.

(** The receiving half; [fl] bytes were accepted and are in no queue, [op] is whether
    it is open. *)
Record recv_state (fl : loc * Z) (op : bool) (lim : Limits) s rs : Prop := {
  ri_conf : limits s = lim;
  ri_acct : acct fl s (hands rs);
  ri_limits : 0 < max_inbound_stream_bytes (limits s) <= u32_max;
  ri_size : window (receive_window s) = max_inbound_connection_bytes (limits s);
  ri_open : op = true -> is_closed (inbound_conn_bytes s) = false;
  ri_streams : forall l st, heap s !! l = Some st -> stream_in op s st;
  ri_valid : forall id l, streams s !! id = Some l -> is_Some (heap s !! l);
  ri_incoming : Forall (fun i => is_Some (heap s !! i.2)) (incoming_streams s);
  ri_fresh : forall l, is_Some (heap s !! l) -> (l < next_loc s)%nat;
  ri_readers : Forall (reader_ok s) rs
}.

(** The invariant of an open connection: every accepted byte is queued or in a hand. *)
Abbreviation recv_inv := (recv_state idle true).

(** An operation of the sending half: the receiving half of the state stays as it is. *)
Definition receive_half st :=
  (inbound st, st_window st, inbound_stream_bytes st, recv_terminal st, recv_discarded st).
Record sends_only s s' : Prop := {
  so_limits : limits s' = limits s;
  so_streams : streams s' ⊆ streams s;
  so_incoming : incoming_streams s' = incoming_streams s;
  so_next : next_loc s' = next_loc s;
  so_cleanup : cleanup_started s' = cleanup_started s;
  so_window : receive_window s' = receive_window s;
  so_bytes : inbound_conn_bytes s' = inbound_conn_bytes s;
  so_open : is_closed (open_streams s) = true -> is_closed (open_streams s') = true;
  so_heap : receive_half <$> heap s' = receive_half <$> heap s
}.

Definition new_reader (id : Z) (l : loc) : RecvStream := mkRecvStream id l false None false.

(** The steps of an open connection and its readers.  A frame that is refused ends the
    connection. *)
Inductive step : ConnectionShared * list RecvStream -> ConnectionShared * list RecvStream -> Prop :=
| step_open id s s' rs : 0 <= id <= VarInt.MAX ->
    on_remote_open id s = (Ok tt, s') -> step (s, rs) (s', rs)
| step_accept id l s s' rs :
    accept_bi s = (Ok (Ready (id, l)), s') -> step (s, rs) (s', new_reader id l :: rs)
| step_data id payload fin s s' rs : zlen payload <= u64_max ->
    on_remote_stream_frame id payload fin s = (Ok tt, s') -> step (s, rs) (s', rs)
| step_reset id code s s' rs :
    on_remote_reset id code s = (Ok tt, s') -> step (s, rs) (s', rs)
| step_poll h h' p n s s' rs1 rs2 : 0 < n ->
    poll_read h n s = (Ok (h', p), s') -> step (s, rs1 ++ h :: rs2) (s', rs1 ++ h' :: rs2)
| step_read h r s s' rs : h ∈ rs ->
    recv_read_chunk h s = (r, s') -> step (s, rs) (s', rs)
| step_drop h s s' rs1 rs2 :
    drop_reader h s = (Ok tt, s') -> step (s, rs1 ++ h :: rs2) (s', rs1 ++ rs2)
| step_discard l s s' rs : is_Some (heap s !! l) ->
    discard_inbound l s = (Ok tt, s') -> step (s, rs) (s', rs)
| step_max_data u s s' rs :
    conn_window_update s = (Ok u, s') -> step (s, rs) (s', rs)
| step_max_stream_data ws u s s' rs : Forall (fun w => 0 <= w.1 <= VarInt.MAX) ws ->
    find_stream_update ws s = (Ok u, s') -> step (s, rs) (s', rs)
| step_send s s' rs : sends_only s s' -> step (s, rs) (s', rs).

(** The states of a connection with limits [l] and its readers. *)
Inductive reachable (l : Limits) : ConnectionShared -> list RecvStream -> Prop :=
| reach_new (is_client : bool) s : Limits.unsigned l -> connection_new l is_client = Ok s -> reachable l s []
| reach_step s rs s' rs' : reachable l s rs -> step (s, rs) (s', rs') -> reachable l s' rs'.

(** ** The invariant *)

Lemma reader_evolve s s' h : evolve s s' -> reader_ok s h -> reader_ok s' h.
Proof.
  intros Hev (st & Hl & Hh & He). pose proof (eo_heap _ _ Hev (rs_state h)) as Hx. rewrite Hl in Hx.
  inversion Hx as [? st' [] Heq Hst'|]; subst. exists st'. split_and!; [done|done|naive_solver].
Qed.

Section keep.
Context (fl : loc * Z) (op : bool) (lim : Limits).

Lemma inv_evolve s rs s' rs' : recv_state fl op lim s rs -> settled fl (hands rs') s s' -> Forall (reader_ok s') rs' ->
  recv_state fl op lim s' rs'.
Proof.
  intros [Hconf Ha Hlim Hsz Ho Hst Hv Hi Hf Hr] [Ha' [Hl Hs Hin Hn Hc Hw Hcl Hh]] Hr'.
  assert (Hsome : forall l, is_Some (heap s !! l) <-> is_Some (heap s' !! l)).
  { intros l. destruct (Hh l); split; done. }
  split; rewrite ?Hl, ?Hw, ?Hcl, ?Hn; try done.
  - intros l st' Hst'. specialize (Hh l). rewrite Hst' in Hh. inversion Hh as [st ? [] Heq|]; subst.
    destruct (Hst l st) as []; [done|]. split; rewrite ?Hl; naive_solver congruence.
  - intros id l Hid. apply Hsome, (Hv id). by eapply lookup_weaken.
  - rewrite Forall_forall in *. intros i Hi'. apply Hsome, Hi. by apply Hin.
  - intros l Hl'. by apply Hf, Hsome.
Qed.

Lemma inv_settled s rs s' : recv_state fl op lim s rs -> settled fl (hands rs) s s' -> recv_state fl op lim s' rs.
Proof.
  intros Hi Hst. apply (inv_evolve s rs); [done..|]. eapply Forall_impl; [apply Hi|].
  intros h. apply reader_evolve, Hst.
Qed.

Lemma acct_perm s hs hs' : hs ≡ₚ hs' -> acct fl s hs -> acct fl s hs'.
Proof.
  intros Hp Ha. apply (acct_hands_eq _ _ _ _ Ha).
  - by rewrite Hp.
  - intros l. unfold in_hand. by rewrite Hp.
  - rewrite <- Hp. apply (ac_hands _ _ _ Ha).
Qed.

Lemma hands_split rs1 h rs2 : hands (rs1 ++ h :: rs2) ≡ₚ hand h ++ hands (rs1 ++ rs2).
Proof. unfold hands. rewrite !bind_app. simpl. apply Permutation_app_swap_app. Qed.

Lemma inv_reads s rs1 h rs2 : recv_state fl op lim s (rs1 ++ h :: rs2) ->
  exists st, heap s !! rs_state h = Some st /\ reads h st /\ acct fl s (hand h ++ hands (rs1 ++ rs2)) /\
    Forall (reader_ok s) (rs1 ++ rs2).
Proof.
  intros Hi. pose proof (ri_readers _ _ _ _ _ Hi) as Hr. apply Forall_app in Hr as [Hr1 [(st & Hl & Hh & He) Hr2]%Forall_cons].
  exists st. split_and!; [done| | |by apply Forall_app].
  - split; [done|apply (ri_streams _ _ _ _ _ Hi _ _ Hl)|done].
  - eapply acct_perm; [apply hands_split|apply Hi].
Qed.

Lemma inv_polled s rs1 h rs2 st n h' p s' : recv_state fl op lim s (rs1 ++ h :: rs2) -> Forall (reader_ok s) (rs1 ++ rs2) ->
  polled fl s h st (hands (rs1 ++ rs2)) n (h', p) s' -> recv_state fl op lim s' (rs1 ++ h' :: rs2).
Proof.
  intros Hi Hrs (Hev & Ha & st' & Hl & Hs & [Hh _ He] & _). apply (inv_evolve s (rs1 ++ h :: rs2)); [done|..].
  - split; [|done]. eapply acct_perm; [symmetry; apply hands_split|done].
  - apply Forall_app in Hrs as [H1 H2].
    assert (Hk : forall x, reader_ok s x -> reader_ok s' x) by (intros x; by apply reader_evolve).
    apply Forall_app. split; [by eapply Forall_impl|]. constructor; [|by eapply Forall_impl].
    rewrite <- Hs in Hl. by exists st'.
Qed.

End keep.

Lemma recv_new l is_client s : Limits.unsigned l -> connection_new l is_client = Ok s -> recv_inv l s [].
Proof.
  intros Hu Hn. unfold connection_new in Hn.
  apply bind_ok_iff in Hn as ([] & Hval%Limits.validate_valid & Hn); [|done].
  do 3 (apply bind_ok_iff in Hn as (? & _ & Hn)). injection Hn as <-.
  destruct Hval. assert (Hw : as_u64 (max_inbound_connection_bytes l) = max_inbound_connection_bytes l).
  { apply ReceiveWindow.as_u64_small. unfold u64_max, u32_max in *. lia. }
  split; simpl; try done; try (intros _; apply new_open).
  - split; simpl; try done.
    + apply ReceiveWindow.inv_new. rewrite VarInt.MAX_eq. unfold u32_max in *. lia.
    + rewrite Hw. lia.
    + rewrite new_available, Hw, msum_empty. simpl. lia.
  - lia.
  - by intros ? [].
Qed.

Lemma inv_open lim s s' rs : recv_inv lim s rs -> grown s s' -> recv_inv lim s' rs.
Proof.
  intros [Hconf Ha Hlim Hsz Ho Hst Hv Hi Hf Hr] [Hl Hs Hin Hn (m & p & f & Hh) Hc Hw Hb].
  assert (Hnone : heap s !! next_loc s = None).
  { destruct (heap s !! next_loc s) eqn:E; [|done]. specialize (Hf (next_loc s)). rewrite E in Hf.
    specialize (Hf ltac:(eauto)). lia. }
  assert (Hkeep : forall l, is_Some (heap s !! l) -> is_Some (heap s' !! l)).
  { intros l [st Hl']. rewrite Hh, lookup_insert_ne by congruence. eauto. }
  assert (Hnew : is_Some (heap s' !! next_loc s)) by (rewrite Hh, lookup_insert_eq; eauto).
  split; rewrite ?Hl, ?Hw, ?Hb, ?Hn; try done.
  - eapply acct_same; [by apply (acct_new_stream s (next_loc s) _ _ m p f Ha Hnone Hlim)|done..].
  - intros l st Hl'. rewrite Hh in Hl'. destruct (decide (next_loc s = l)) as [<-|].
    + rewrite lookup_insert_eq in Hl'. apply (inj Some) in Hl'. subst st. split; simpl; rewrite ?Hl; try done.
      * apply ReceiveWindow.as_u64_small. unfold u32_max, u64_max in *. lia.
      * intros _. apply new_open.
    + rewrite lookup_insert_ne in Hl' by done. destruct (Hst _ _ Hl'). by split; rewrite ?Hl.
  - intros i l Hil. apply Hs in Hil as [Hil| ->]; [|done]. by eapply Hkeep, Hv.
  - eapply Forall_impl; [exact Hin|]. rewrite Forall_forall in Hi. intros i [Hi'| ->]; [by apply Hkeep, Hi|done].
  - intros l. rewrite Hh. destruct (decide (next_loc s = l)) as [<-|]; [lia|].
    rewrite lookup_insert_ne by done. intros Hl'%Hf. lia.
  - eapply Forall_impl; [exact Hr|]. intros h (st & Hl' & Hrest). exists st. split; [|done].
    rewrite Hh, lookup_insert_ne; [done|]. congruence.
Qed.

Lemma receive_half_acct fl hs l st st' : receive_half st' = receive_half st ->
  stream_acct fl hs l st -> stream_acct fl hs l st'.
Proof.
  unfold receive_half. intros Hr []. simplify_eq.
  assert (Hi : inbound st' = inbound st) by congruence. unfold queued in *.
  split; unfold queued; rewrite ?Hi; congruence.
Qed.

Lemma settled_sends fl s s' hs : acct fl s hs -> sends_only s s' -> settled fl hs s s'.
Proof.
  intros Ha [Hl Hs Hin Hn Hc Hw Hb _ Hh].
  assert (Hx : forall l, receive_half <$> heap s' !! l = receive_half <$> heap s !! l).
  { intros l. rewrite <- !lookup_fmap. by rewrite Hh. }
  split.
  - destruct Ha as [Hw0 Hsm Hst Hhs Hfl Hby Hp].
    assert (Hm : msum queued (heap s') = msum queued (heap s)).
    { apply msum_ext. apply map_eq. intros l. specialize (Hx l). rewrite !lookup_fmap.
      destruct (heap s' !! l) as [a|], (heap s !! l) as [b|]; try done. simpl in *. apply (inj Some) in Hx.
      assert (Hi : inbound a = inbound b) by (unfold receive_half in Hx; congruence).
      unfold queued. by rewrite Hi. }
    split; rewrite ?Hw, ?Hb, ?Hm; try done.
    + intros l st' Hl'. specialize (Hx l). rewrite Hl' in Hx. destruct (heap s !! l) as [st|] eqn:E; [|done].
      eapply receive_half_acct; [|by apply Hst]. by apply (inj Some) in Hx.
    + eapply Forall_impl; [exact Hhs|]. intros c [Hc' ?]. split; [|done]. specialize (Hx (owner c)).
      destruct (heap s' !! owner c); [done|]. by destruct Hc' as [? Hc']; rewrite Hc' in Hx.
  - split; try done; try congruence. intros l. specialize (Hx l).
    destruct (heap s !! l) as [st|], (heap s' !! l) as [st'|]; try done; constructor.
    apply (inj Some) in Hx. unfold receive_half in Hx.
    assert (Hi : inbound st' = inbound st) by congruence. assert (Ht : recv_terminal st' = recv_terminal st) by congruence.
    split; unfold content; rewrite ?Hi, ?Ht; try done; congruence.
Qed.

Lemma inv_receiving lim s rs l st : recv_inv lim s rs -> heap s !! l = Some st -> receiving s st.
Proof. intros Hi Hl. destruct (ri_streams _ _ _ _ _ Hi _ _ Hl). split; auto; by apply Hi. Qed.

Lemma wp_accept_bi fl s hs : acct fl s hs -> Forall (fun i => is_Some (heap s !! i.2)) (incoming_streams s) ->
  wp accept_bi s (fun p s' => settled fl hs s s' /\
      match p with Ready (_, l) => is_Some (heap s' !! l) | Pending => True end) (fun _ s' => s' = s).
Proof.
  intros Ha Hi. unfold accept_bi, ensure_open. wp_step. wp_step. wp_step. wp_step; [done|]. wp_step. wp_step.
  destruct (incoming_streams s) as [|[id l] rest] eqn:Hin; [wp_step; split; [by apply settled_refl|done]|].
  apply Forall_cons in Hi as [Hl _]. unfold add_handles, upd_state. wp_steps.
  split; [|simpl; by apply alter_is_Some]. split.
  - eapply acct_same; [by apply (acct_upd _ s l (fun st => st <| send_handles ::= (fun n => wrapping_add n 1) |>
                            <| recv_handles ::= (fun n => wrapping_add n 1) |>))|done..].
  - transitivity (s <| incoming_streams := rest |>); [|by apply evolve_upd].
    split; try done. simpl. rewrite Hin. set_solver.
Qed.

Lemma wp_recv_data lim id s rs payload fin : recv_inv lim s rs -> zlen payload <= u64_max ->
  wp (on_remote_stream_frame id payload fin) s (fun _ s' => settled idle (hands rs) s s') (fun _ _ => True).
Proof.
  intros Hi Hn. destruct (streams s !! id) as [l|] eqn:Hs.
  - destruct (ri_valid _ _ _ _ _ Hi id l Hs) as [st Hl].
    eapply wp_mono; [apply (wp_stream_frame id l st s (hands rs)); try done; [apply Hi|by eapply inv_receiving]|..]; [|done].
    intros _ s' (Ha & _ & []). by split.
  - unfold on_remote_stream_frame, find_stream. wp_step. wp_step. wp_step. by rewrite Hs.
Qed.

Lemma step_inv lim s rs s' rs' : recv_inv lim s rs -> step (s, rs) (s', rs') -> recv_inv lim s' rs'.
Proof.
  intros Hi Hs. pose proof (ri_acct _ _ _ _ _ Hi) as Ha.
  inversion Hs as [id ? ? ? Hid Hrun|id l ? ? ? Hrun|id pl fin ? ? ? Hn Hrun|id code ? ? ? Hrun|
    h h' p n ? ? rs1 rs2 Hn Hrun|h r ? ? ? Hh Hrun|h ? ? rs1 rs2 Hrun|l ? ? ? Hl Hrun|u ? ? ? Hrun|
    ws u ? ? ? Hws Hrun|? ? ? Hrun]; subst.
  - eapply inv_open; [done|]. apply (wp_run _ _ _ _ _ _ Hrun (wp_remote_open id s Hid)).
  - pose proof (wp_run _ _ _ _ _ _ Hrun (wp_accept_bi idle s _ Ha (ri_incoming _ _ _ _ _ Hi))) as [Hst [st Hl]].
    apply (inv_evolve idle true lim s rs); [done|done|]. constructor.
    + exists st. split_and!; [done|constructor|done].
    + eapply Forall_impl; [apply Hi|]. intros h. apply reader_evolve, Hst.
  - eapply inv_settled; [done|]. apply (wp_run _ _ _ _ _ _ Hrun (wp_recv_data lim id s rs' pl fin Hi Hn)).
  - eapply inv_settled; [done|]. apply (wp_run _ _ _ _ _ _ Hrun (wp_remote_reset id code s _ Ha (ri_valid _ _ _ _ _ Hi id))).
  - destruct (inv_reads _ _ _ _ _ _ _ Hi) as (st & Hl & Hr & Ha' & Hrs).
    destruct (poll_read_ok idle h st s _ n Ha' Hl Hr Hn) as (r & s1 & Hrun' & Hp). rewrite Hrun in Hrun'.
    injection Hrun' as <- <-. destruct (_ || _); [by eapply inv_polled|].
    destruct Hp as [-> [m Hm]]. by injection Hm as -> _.
  - pose proof (ri_readers _ _ _ _ _ Hi) as Hr. rewrite Forall_forall in Hr. destruct (Hr h Hh) as (st & Hl & _).
    eapply inv_settled; [done|].
    pose proof (wp_run _ _ _ _ _ _ Hrun (wp_recv_read_chunk h st s _ Ha Hl)) as Hw. by destruct r; [destruct Hw| |].
  - destruct (inv_reads _ _ _ _ _ _ _ Hi) as (st & Hl & Hr & Ha' & Hrs).
    pose proof (wp_run _ _ _ _ _ _ Hrun (wp_drop_reader h st s _ (fun _ _ => False) Ha' Hl (rd_hand _ _ Hr))) as Hst.
    apply (inv_evolve idle true lim s (rs1 ++ h :: rs2)); [done..|]. eapply Forall_impl; [apply Hrs|]. intros x. apply reader_evolve, Hst.
  - destruct Hl as [st Hl]. eapply inv_settled; [done|].
    by apply (wp_run _ _ _ _ _ _ Hrun (wp_discard_inbound l st s _ (fun _ => settled idle (hands rs') s) (fun _ _ => False) Ha Hl (fun _ H => H))).
  - eapply inv_settled; [done|]. apply (wp_run _ _ _ _ _ _ Hrun (wp_conn_window_update s _ (fun _ _ => False) Ha)).
  - eapply inv_settled; [done|]. apply (wp_run _ _ _ _ _ _ Hrun (wp_stream_updates ws s _ (fun _ _ => False) Ha Hws)).
  - eapply inv_settled; [done|]. by apply settled_sends.
Qed.

Lemma reachable_recv l s rs : reachable l s rs -> recv_inv l s rs.
Proof. induction 1; [by eapply recv_new|by eapply step_inv]. Qed.

End system.

Abbreviation recv_inv := (recv_state idle true).
