(* ===== verification/Receive.v ===== *)
(** Properties of the receiving side, in every reachable state of [ReceiveSystem]. *)

From S2P Require Import Prelude Hoare Buf Varint Frames Errors Limits Flow Tokio.
From S2P Require Import ConnState Inbound InboundSpec Writer Connection Streams ReceiveSpec.
From S2P Require Import ReadSpec ReceiveSystem.

#[local] Open Scope Z_scope.

Section properties.
Context {TK : Tokio} {TKL : TokioLaws TK}.
Implicit Types (s : ConnectionShared) (st : StreamState) (h : RecvStream) (rs : list RecvStream).

Lemma chunk_bytes_len cs : Forall (fun c => held c = len c) cs -> zsum held cs = zlen (chunk_bytes cs).
Proof.
  induction 1 as [|c cs Hc _ IH]; [done|]. unfold chunk_bytes in *. simpl. rewrite zlen_app, <- IH, Hc. done.
Qed.

Lemma len_bytes cs : zsum len cs = zlen (chunk_bytes cs).
Proof. induction cs as [|c cs IH]; [done|]. unfold chunk_bytes in *. simpl. by rewrite zlen_app, <- IH. Qed.

Lemma queued_content lim s rs l st : recv_inv lim s rs -> heap s !! l = Some st -> queued st = zlen (content st).
Proof. intros Hi Hl. apply chunk_bytes_len. by eapply queue_full; [apply Hi|]. Qed.

Lemma hands_full lim s rs : recv_inv lim s rs -> Forall (fun c => held c = len c) (hands rs).
Proof.
  intros Hi. unfold hands. pose proof (ri_readers _ _ _ _ _ Hi) as Hr. clear Hi.
  induction Hr as [|h rs' (st & _ & Hh & _) _ IH]; [constructor|]. simpl. apply Forall_app. split; [|done].
  eapply Forall_impl; [exact Hh|]. by intros c [].
Qed.

(** C11: in every reachable state, data for an open stream is accepted exactly when the
    peer's side of the stream has not ended and the payload is within the credit
    advertised for the connection and for the stream.  An accepted payload goes to
    the end of the bytes of that stream and of no other, unless the stream
    discards its input; a refused one is a protocol error.  Buffer space never runs
    out before credit does, and nothing panics. *)
Theorem data_accepted_by_credit lim s rs id l st payload fin :
  reachable lim s rs -> streams s !! id = Some l -> heap s !! l = Some st -> zlen payload <= u64_max ->
  match on_remote_stream_frame id payload fin s with
  | (Ok _, s') => accepted st s payload /\ taken l payload fin st s s'
  | (Err e, s') => refused st s payload e s'
  | (Panic, _) => False
  end.
Proof.
  intros Hr%reachable_recv Hs Hl Hn.
  pose proof (wp_stream_frame id l st s _ payload fin (ri_acct _ _ _ _ _ Hr) Hs Hl (inv_receiving _ _ _ _ _ Hr Hl) Hn) as Hw.
  unfold wp in Hw. by destruct (on_remote_stream_frame id payload fin s) as [[] ?]; [destruct Hw| |].
Qed.

(** The books of the receiving side. *)
Lemma recv_books lim s rs : recv_inv lim s rs ->
  let total := msum (fun st => zlen (content st)) (heap s) + zlen (chunk_bytes (hands rs)) in
  ReceiveWindow.buffered (receive_window s) = total /\
  available_permits (inbound_conn_bytes s) = max_inbound_connection_bytes lim - total /\
  0 <= total <= max_inbound_connection_bytes lim /\
  forall l st, heap s !! l = Some st ->
    let mine := zlen (content st) + in_hand l (hands rs) in
    (recv_discarded st = false -> ReceiveWindow.buffered (st_window st) = mine) /\
    available_permits (inbound_stream_bytes st) = max_inbound_stream_bytes lim - mine /\
    0 <= mine <= max_inbound_stream_bytes lim.
Proof.
  intros Hi. pose proof (ri_acct _ _ _ _ _ Hi) as [Hw Hsm Hst Hh _ Hb Hp]. simpl in Hb.
  pose proof (buffered_le _ Hw) as Hle. rewrite (ri_size _ _ _ _ _ Hi), (ri_conf _ _ _ _ _ Hi) in *.
  rewrite (chunk_bytes_len _ (hands_full _ _ _ Hi)) in Hb, Hp.
  assert (Hm : msum queued (heap s) = msum (fun st => zlen (content st)) (heap s)).
  { apply msum_ext, map_eq. intros l. rewrite !lookup_fmap. destruct (heap s !! l) as [st|] eqn:Hl; [|done].
    simpl. by rewrite (queued_content _ _ _ _ _ Hi Hl). }
  rewrite Hm in *. pose proof (zlen_nonneg (chunk_bytes (hands rs))).
  assert (0 <= msum (fun st => zlen (content st)) (heap s)) by (apply msum_nonneg; intros; apply zlen_nonneg).
  split_and!; try lia. intros l st Hl. destruct (Hst _ _ Hl) as [Hsw _ _ Hsb Hsp].
  pose proof (buffered_le _ Hsw) as Hsle. pose proof (covers_le _ _ _ Hsb) as Hcl.
  rewrite in_flight_idle, (queued_content _ _ _ _ _ Hi Hl) in *.
  rewrite (si_size _ _ _ (ri_streams _ _ _ _ _ Hi _ _ Hl)), (ri_conf _ _ _ _ _ Hi) in *.
  pose proof (in_hand_nonneg s l _ Hh). pose proof (zlen_nonneg (content st)).
  split_and!; try lia. intros Hd. rewrite Hd in Hsb. simpl in Hsb. lia.
Qed.

(** C12: in every reachable state, the credit the connection and each stream owe the
    peer are the bytes that are queued or in the hands of a reader, no more and no
    less: what is read, dropped, reset or discarded is given back, once.  So the
    bytes buffered for the connection, and for a stream, stay within the limits,
    and the permits left are what the limits leave. *)
Theorem receive_no_leak lim s rs : reachable lim s rs ->
  let total := msum (fun st => zlen (content st)) (heap s) + zlen (chunk_bytes (hands rs)) in
  ReceiveWindow.buffered (receive_window s) = total /\
  available_permits (inbound_conn_bytes s) = max_inbound_connection_bytes lim - total /\
  0 <= total <= max_inbound_connection_bytes lim /\
  forall l st, heap s !! l = Some st ->
    let mine := zlen (content st) + in_hand l (hands rs) in
    (recv_discarded st = false -> ReceiveWindow.buffered (st_window st) = mine) /\
    available_permits (inbound_stream_bytes st) = max_inbound_stream_bytes lim - mine /\
    0 <= mine <= max_inbound_stream_bytes lim.
Proof. intros Hr%reachable_recv. by apply recv_books. Qed.

(** C13: in every reachable state, a poll of [AsyncRead] with room in the buffer returns,
    whatever is queued.  What it returns are the next unread bytes of the stream, at
    most as many as the caller has room for; what is left is what was unread before,
    without them.  It returns no byte only at the end of the stream, and waits, or
    reports a closed connection, only when nothing is unread; a reset is reported
    as such.  A stream that is read through the other interface is left alone. *)
Theorem poll_read_exact lim s rs1 h rs2 remaining :
  reachable lim s (rs1 ++ h :: rs2) -> 0 < remaining ->
  exists st r s', heap s !! rs_state h = Some st /\ poll_read h remaining s = (Ok r, s') /\
    if (recv_mode st =? 0) || (recv_mode st =? 2)
    then polled idle s h st (hands (rs1 ++ rs2)) remaining r s'
    else s' = s /\ exists m, r = (h, Ready (IoErr (IoOther (Protocol m)))).
Proof.
  intros Hi%reachable_recv Hrem. destruct (inv_reads _ _ _ _ _ _ _ Hi) as (st & Hl & Hr & Ha & _).
  destruct (poll_read_ok idle h st s _ remaining Ha Hl Hr Hrem) as (r & s' & Hrun & Hp). by exists st, r, s'.
Qed.

(** C25: in every reachable state, [read_chunk] never panics, and hands out the bytes
    at the front of the stream: what it returns followed by what is then left is
    what was there.  It reports the end of the stream only when nothing is left and
    the peer ended it, and waits only when nothing is left; a call that fails takes
    nothing. *)
Theorem read_chunk_exact lim s rs h :
  reachable lim s rs -> h ∈ rs ->
  exists st, heap s !! rs_state h = Some st /\
  match recv_read_chunk h s with
  | (Ok p, s') => read_out idle (rs_state h) (hands rs) st s p s'
  | (Err _, s') => read_failed idle (rs_state h) (hands rs) st s s'
  | (Panic, _) => False
  end.
Proof.
  intros Hi%reachable_recv Hh. pose proof (ri_readers _ _ _ _ _ Hi) as Hr. rewrite Forall_forall in Hr.
  destruct (Hr h Hh) as (st & Hl & _). exists st. split; [done|].
  apply (wp_recv_read h st s _ (ri_acct _ _ _ _ _ Hi) Hl).
Qed.


End properties.

(** ** A run *)

#[local] Existing Instance counting.
#[local] Existing Instance counting_laws.

(** The value of a call known to succeed. *)
Definition get_ok {E A} (r : Result E A) : is_ok r = true -> A :=
  match r with
  | Ok a => fun _ => a
  | Err _ | Panic => fun H => False_rect A (Bool.diff_false_true H)
  end.

(** A new client connection with the default limits; the peer opens a stream, the
    application accepts it, and two bytes arrive. *)
Definition fresh : ConnectionShared := get_ok (connection_new Limits.default true) eq_refl.
Definition demo1 : ConnectionShared := (on_remote_open 1 fresh).2.
Definition demo2 : ConnectionShared := (accept_bi demo1).2.
Definition demo3 : ConnectionShared := (on_remote_stream_frame 1 [x00; x01] false demo2).2.

Lemma default_unsigned : Limits.unsigned Limits.default.
Proof. unfold Limits.unsigned, Limits.default, Limits.from_secs; simpl; lia. Qed.

Lemma demo_reachable : reachable Limits.default demo3 [new_reader 1 0%nat].
Proof.
  eapply (reach_step _ demo2); [eapply (reach_step _ demo1 []); [eapply (reach_step _ fresh)|]|].
  - apply (reach_new _ true); [apply default_unsigned|by vm_compute].
  - apply (step_open 1); [rewrite VarInt.MAX_eq; lia|by vm_compute].
  - by apply (step_accept 1 0%nat); vm_compute.
  - by apply (step_data 1 [x00; x01] false); [|vm_compute].
Qed.

(** The state of the stream after the run. *)
Definition demo_stream : StreamState :=
  match heap demo3 !! 0%nat with Some st => st | None => stream_state_new 0 0 (0 : Permit) 0 end.

Lemma data_accepted_by_credit_witness :
  match on_remote_stream_frame 1 [x02] true demo3 with
  | (Ok _, s') => accepted demo_stream demo3 [x02] /\ taken 0%nat [x02] true demo_stream demo3 s'
  | (Err e, s') => refused demo_stream demo3 [x02] e s'
  | (Panic, _) => False
  end.
Proof.
  apply (data_accepted_by_credit Limits.default demo3 [new_reader 1 0%nat]);
    [apply demo_reachable|vm_compute; reflexivity|vm_compute; reflexivity|vm_compute; discriminate].
Defined.

Lemma receive_no_leak_witness :
  ReceiveWindow.buffered (receive_window demo3) = 2 /\
  available_permits (inbound_conn_bytes demo3) = max_inbound_connection_bytes Limits.default - 2.
Proof.
  pose proof (receive_no_leak Limits.default demo3 [new_reader 1 0%nat] demo_reachable) as (Hb & Ha & _).
  vm_compute in Hb, Ha |- *. split; [exact Hb|exact Ha].
Defined.

Lemma poll_read_exact_witness :
  exists st r s', heap demo3 !! 0%nat = Some st /\ poll_read (new_reader 1 0%nat) 1 demo3 = (Ok r, s') /\
    if (recv_mode st =? 0) || (recv_mode st =? 2)
    then polled idle demo3 (new_reader 1 0%nat) st [] 1 r s'
    else s' = demo3 /\ exists m, r = (new_reader 1 0%nat, Ready (IoErr (IoOther (Protocol m)))).
Proof. apply (poll_read_exact Limits.default demo3 [] (new_reader 1 0%nat) []); [apply demo_reachable|reflexivity]. Defined.

Lemma read_chunk_exact_witness :
  exists st, heap demo3 !! 0%nat = Some st /\
  match recv_read_chunk (new_reader 1 0%nat) demo3 with
  | (Ok p, s') => read_out idle 0%nat [] st demo3 p s'
  | (Err _, s') => read_failed idle 0%nat [] st demo3 s'
  | (Panic, _) => False
  end.
Proof.
  apply (read_chunk_exact Limits.default demo3 [new_reader 1 0%nat] (new_reader 1 0%nat));
    [apply demo_reachable|left].
Defined.

