(* ===== verification/ConnectionSpec.v ===== *)
(** Specifications of the operations of [Connection] and [Tasks]. *)

From S2P Require Import Prelude Hoare Buf Varint Utf8 Frames Errors Limits Flow.
From S2P Require Import Tokio ConnState Inbound Writer WriterSpec Connection Streams Tasks.

#[local] Open Scope Z_scope.

Section spec.
Context {TK : Tokio} {HI : HashIter}.
Infix "≈" := core_eq (at level 70).

Lemma wp_ignore {A} (m : Conn A) s (Q : unit -> ConnectionShared -> Prop) R :
  wp m s (fun _ s' => Q tt s') (fun _ s' => Q tt s') -> wp (ignore m) s Q R.
Proof. unfold wp, ignore. by destruct (m s) as [[] ?]. Qed.

Lemma wp_catch {A} (m : Conn A) h s (Q : A -> ConnectionShared -> Prop) R :
  wp m s Q (fun e s' => wp (h e) s' Q R) -> wp (catch m h) s Q R.
Proof. unfold wp, catch. by destruct (m s) as [[] ?]. Qed.

Lemma wp_on_err {A} rel (m : Conn A) s Q R :
  wp m s Q (fun e s' => wp rel s' (fun _ s'' => R e s'') R) -> wp (on_err rel m) s Q R.
Proof.
  unfold wp, on_err, mbind, M_bind, fail. destruct (m s) as [[] s']; try done.
  by destruct (rel s') as [[] ?].
Qed.

(** ** Closing *)

Lemma wp_clear_queues s (Q : unit -> ConnectionShared -> Prop) R :
  (forall s', s' ≈ s <| queues ::= (fun q => q <| by_stream := ∅ |>) |> -> Q tt s') ->
  wp clear_queues s Q R.
Proof.
  intros H. unfold clear_queues, get_queues, upd_queues. wp_steps. by apply wp_drop_outbounds.
Qed.

(** The queues of a connection that was shut down. *)
Record shut (q : WriterQueues) : Prop := {
  sh_data : by_stream q = ∅;
  sh_ready : ready q = [];
  sh_control : control q = [];
  sh_windows : receive_windows q = ∅;
  sh_close : close_frame q = None;
  sh_graceful : graceful_close q = false;
  sh_closing : closing q = true
}.

Lemma wp_shutdown s (Q : unit -> ConnectionShared -> Prop) R :
  (forall s', s' ≈ s <| queues ::= (fun q => q <| by_stream := ∅ |> <| ready := [] |> <| control := [] |>
       <| receive_windows := ∅ |> <| close_frame := None |> <| graceful_close := false |>
       <| closing := true |>) |> -> Q tt s') ->
  wp shutdown s Q R.
Proof.
  intros H. unfold shutdown, upd_queues, notify. wp_steps. apply wp_clear_queues. intros s1 Hs1.
  wp_steps. apply H. unfold core_eq in *.
  apply (f_equal (fun x : ConnectionShared => x <| queues ::= (fun q => q <| ready := [] |>
    <| control := [] |> <| receive_windows := ∅ |> <| close_frame := None |>
    <| graceful_close := false |> <| closing := true |>) |>)) in Hs1.
  exact Hs1.
Qed.

(** Marking the streams closed changes only the stream states. *)
Definition heap_only (s s' : ConnectionShared) : Prop :=
  s' = s <| heap := heap s' |> <| wakes := wakes s' |>.

Lemma wp_mark_streams_closed ls s0 s (Q : unit -> ConnectionShared -> Prop) R :
  heap_only s0 s -> (forall s', heap_only s0 s' -> Q tt s') -> wp (mark_streams_closed ls) s Q R.
Proof.
  intros Hs H. revert s Hs. induction ls as [|[id l] ls IH]; intros s Hs; cbn [mark_streams_closed].
  - apply wp_ret. by apply H.
  - wp_step. unfold mark_connection_closed, upd_inbound, upd_state, notify. wp_steps.
    apply IH. unfold heap_only in *. rewrite Hs. done.
Qed.

Lemma wp_mark_closed s (Q : unit -> ConnectionShared -> Prop) R :
  (cleanup_started s = true ->
     Q tt (s <| closed := true |> <| terminated := true |> <| wakes ::= cons WakeClose |>)) ->
  (cleanup_started s = false -> forall s', shut (queues s') -> closed s' = true -> terminated s' = true ->
     cleanup_started s' = true -> streams s' = ∅ -> Q tt s') ->
  wp mark_closed s Q R.
Proof.
  intros Hyes Hno. unfold mark_closed, notify. wp_steps.
  - apply wp_shutdown. intros s1 Hs1. wp_steps.
    match goal with |- wp _ ?x _ _ => apply (wp_mark_streams_closed _ x); [reflexivity|] end.
    intros s2 Hs2. apply Hno; [done|..].
    all: rewrite Hs2; simpl.
    + rewrite (core_eq_queues _ _ Hs1). by split.
    + by apply (f_equal closed) in Hs1.
    + by apply (f_equal terminated) in Hs1.
    + by apply (f_equal cleanup_started) in Hs1.
    + done.
  - simpl in *. specialize (Hyes E). by destruct s; simpl in *; subst.
Qed.

Lemma validate_close_no_panic m c r : validate_close_reason m c r <> Panic.
Proof.
  unfold validate_close_reason, mbind, Result_bind, ErrorCode.from_u64, VarInt.from_u64, ok_or.
  repeat case_match; naive_solver.
Qed.

Lemma error_code_no_panic c : map_err Wire (ErrorCode.from_u64 c) <> Panic.
Proof. unfold ErrorCode.from_u64, VarInt.from_u64, mbind, Result_bind. case_match; done || by case_match. Qed.

Lemma error_code_ok c v : map_err Wire (ErrorCode.from_u64 c) = Ok v ->
  ErrorCode.from_u64 c = Ok v.
Proof. by destruct (ErrorCode.from_u64 c); simpl; intros [=->]. Qed.

Lemma fit_close_no_panic m c r : fit_close_reason m c r <> Panic.
Proof.
  unfold fit_close_reason. do 2 (case_match; [done|]). unfold mbind, Result_bind.
  pose proof (validate_close_no_panic m c []). by destruct (validate_close_reason m c []).
Qed.

(** A call of a function that does not panic. *)
Lemma wp_lift {A} (r : Result Error A) s (Q : A -> ConnectionShared -> Prop) (R : Error -> ConnectionShared -> Prop) :
  r <> Panic -> (forall a, r = Ok a -> Q a s) -> (forall e, r = Err e -> R e s) -> wp (lift r) s Q R.
Proof. unfold wp, lift. destruct r; auto. Qed.

Lemma wp_initiate_close code reason s (Q : unit -> ConnectionShared -> Prop) (R : Error -> ConnectionShared -> Prop) :
  (forall e, R e s) ->
  (closed s = true -> Q tt s) ->
  (closed s = false -> forall c r s0, ErrorCode.from_u64 code = Ok c ->
     fit_close_reason (max_frame_size (limits s)) code reason = Ok r ->
     (s0 ≈ s <| closed := true |> <| queues ::= (fun q =>
        (if code =? 0 then q else q <| by_stream := ∅ |> <| ready := [] |> <| control := [] |>)
          <| close_frame := Some (ConnectionClose c r) |> <| graceful_close := (code =? 0) |>
          <| closing := true |>) |>) ->
     Q tt (s0 <| open_streams ::= sem_close |> <| outbound_conn_bytes ::= sem_close |>
              <| outbound_frames ::= sem_close |> <| wakes ::= cons WakeClose |>
              <| wakes ::= cons WakeWriter |>)) ->
  wp (initiate_close code reason) s Q R.
Proof.
  intros He Hyes Hno. unfold initiate_close, upd_queues, notify. wp_steps.
  apply wp_lift; [apply fit_close_no_panic| |auto]. intros r Hr. wp_steps.
  apply wp_lift; [apply error_code_no_panic| |auto]. intros c Hc%error_code_ok. wp_steps.
  - apply wp_clear_queues. intros s1 Hs1. wp_steps.
    refine (Hno E c r (s1 <| queues ::= (fun q => q <| ready := [] |> <| control := [] |>
      <| close_frame := Some (ConnectionClose c r) |> <| graceful_close := (code =? 0) |>
      <| closing := true |>) |>) Hc Hr _).
    etrans; [apply core_eq_trans_upd, Hs1|]. by rewrite (proj2 (Z.eqb_neq _ _)).
  - refine (Hno E c r (s <| closed := true |> <| queues ::= (fun q => q
      <| close_frame := Some (ConnectionClose c r) |> <| graceful_close := (code =? 0) |>
      <| closing := true |>) |>) Hc Hr _).
    by rewrite (proj2 (Z.eqb_eq _ _)).
  - simpl in E. replace (s <| closed := true |>) with s; [auto|]. destruct s; simpl in *; by subst.
Qed.

Lemma shut_next_frame s : shut (queues s) ->
  next_frame s = (Ok (Ready None), s).
Proof.
  intros []. unfold next_frame. cbn [next_frame_fuel].
  unfold next_frame_turn, take_close_frame, get_queues, mbind, M_bind, gets. simpl.
  by rewrite sh_closing0, sh_graceful0; simpl; rewrite sh_close0.
Qed.

End spec.
