(* ===== verification/Ledger.v ===== *)
(** The permits of the sending half.  Every permit of the four outbound semaphores, and
    the send lock of a stream, is in its semaphore, with a queued chunk, or with a send
    that waits: the ledger says where they are. *)

From S2P Require Import Prelude Hoare Varint Frames Errors Limits Flow Tokio.
From S2P Require Import ConnState Inbound InboundSpec Writer WriterSpec Connection Streams.

#[local] Open Scope Z_scope.

Section ledger.
Context {TK : Tokio} {TKL : TokioLaws TK}.
Implicit Types (s : ConnectionShared) (st : StreamState).
Infix "≈" := core_eq (at level 70).

(** What a chunk or a send holds of the stream at [ho_loc] and of the connection. *)
Record Hold := mkHold {
  ho_loc : loc;
  ho_conn : Z;
  ho_frame : Z;
  ho_bytes : Z;
  ho_frames : Z;
  ho_lock : Z
}.

Definition chunk_hold (c : OutboundChunk) : Hold :=
  mkHold (oc_state c) (permits (oc_conn_permit c)) (num_permits (oc_frame_permit c))
    (permits (oc_stream_permit c)) (num_permits (oc_stream_frame_permit c)) 0.
Definition stage_hold (l : loc) (stage : SendStage) : Hold :=
  match stage with
  | SStart | SLock => mkHold l 0 0 0 0 0
  | SStreamFrame => mkHold l 0 0 0 0 1
  | SStreamBytes fp => mkHold l 0 0 0 (num_permits fp) 1
  | SFrame fp sp => mkHold l 0 0 (permits sp) (num_permits fp) 1
  | SConnBytes fp sp frp => mkHold l 0 (num_permits frp) (permits sp) (num_permits fp) 1
  end.
Definition send_hold (f : SendFuture) : Hold := stage_hold (sf_state f) (sf_stage f).

(** The share of stream [l]. *)
Definition at_loc (l : loc) (f : Hold -> Z) (h : Hold) : Z := if decide (ho_loc h = l) then f h else 0.

(** A semaphore of size [size] with [out] permits handed out. *)
Definition balanced (sem : Sem) (out size : Z) : Prop :=
  0 <= available_permits sem /\ available_permits sem + out = size.

(** The semaphores are closed only with the connection, or with the sending side of the
    stream. *)
Definition open_unless (b : bool) (sem : Sem) : Prop := b = false -> is_closed sem = false.

Record stream_ledger (lim : Limits) (over : bool) (l : loc) (hs : list Hold) st : Prop := {
  sl_bytes : balanced (outbound_stream_bytes st) (zsum (at_loc l ho_bytes) hs) (max_outbound_stream_bytes lim);
  sl_frames : balanced (outbound_stream_frames st) (zsum (at_loc l ho_frames) hs)
    (max_queued_outbound_frames lim / max_open_streams lim);
  sl_lock : zsum (at_loc l ho_lock) hs = if send_locked st then 1 else 0;
  sl_bytes_open : open_unless (over || send_terminal st) (outbound_stream_bytes st);
  sl_frames_open : open_unless over (outbound_stream_frames st)
}.

Definition hold_ok (h : Hold) : Prop :=
  0 <= ho_conn h /\ 0 <= ho_frame h /\ 0 <= ho_bytes h /\ 0 <= ho_frames h /\ 0 <= ho_lock h.

Record ledger s (hs : list Hold) : Prop := {
  ld_holds : Forall hold_ok hs;
  ld_conn : balanced (outbound_conn_bytes s) (zsum ho_conn hs) (max_outbound_connection_bytes (limits s));
  ld_frame : balanced (outbound_frames s) (zsum ho_frame hs) (max_queued_outbound_frames (limits s));
  ld_conn_open : open_unless (closed s) (outbound_conn_bytes s);
  ld_frame_open : open_unless (closed s) (outbound_frames s);
  ld_streams : forall l st, heap s !! l = Some st -> stream_ledger (limits s) (closed s) l hs st
}.

#[export] Instance ledger_perm s : Proper ((≡ₚ) ==> iff) (ledger s).
Proof.
  assert (H : forall hs hs', hs ≡ₚ hs' -> ledger s hs -> ledger s hs').
  { intros hs hs' Hp []. split; rewrite <- ?Hp; try done. intros l st Hl. destruct (ld_streams0 l st Hl).
    split; by rewrite <- ?Hp. }
  intros hs hs' Hp. split; by apply H.
Qed.

(** Steps that do not move permits; they may close the connection or end a stream. *)
Definition permit_half st := (outbound_stream_bytes st, outbound_stream_frames st, send_locked st).

Lemma ledger_same s s' hs :
  limits s' = limits s -> outbound_conn_bytes s' = outbound_conn_bytes s ->
  outbound_frames s' = outbound_frames s -> (closed s' = false -> closed s = false) ->
  (forall l st', heap s' !! l = Some st' -> exists st, heap s !! l = Some st /\
     permit_half st' = permit_half st /\ (send_terminal st' = false -> send_terminal st = false)) ->
  ledger s hs -> ledger s' hs.
Proof.
  unfold open_unless. intros Hl Hc Hf Hcl Hh [Hok Hconn Hframe Hco Hfo Hs].
  split; rewrite ?Hl, ?Hc, ?Hf; try done; try (intros ?; by auto).
  intros l st' Hl'. destruct (Hh l st' Hl') as (st & E & Hp & Ht). unfold permit_half in Hp. injection Hp as H1 H2 H3.
  destruct (Hs l st E) as [? ? ? Hb Hn]. unfold open_unless in *. split; rewrite ?H1, ?H2, ?H3; try done.
  - intros [? ?]%orb_false_iff. apply Hb, orb_false_iff. auto.
  - intros ?. auto.
Qed.

(** ** Moving permits *)

Definition no_hold (l : loc) : Hold := mkHold l 0 0 0 0 0.

Lemma zsum_zero {A} (f : A -> Z) a l : f a = 0 -> zsum f (a :: l) = zsum f l.
Proof. simpl. lia. Qed.

Lemma ledger_no_hold s l hs : ledger s (no_hold l :: hs) <-> ledger s hs.
Proof.
  assert (Hz : forall k, at_loc k ho_bytes (no_hold l) = 0 /\ at_loc k ho_frames (no_hold l) = 0 /\
                         at_loc k ho_lock (no_hold l) = 0).
  { intros k. unfold at_loc. by destruct (decide _). }
  split; intros []; split; try done; try (by constructor); try (by inv ld_holds0); intros k st Hk; destruct (Hz k) as (H1 & H2 & H3);
    destruct (ld_streams0 k st Hk); simpl in *; split; simpl; rewrite ?H1, ?H2, ?H3 in *; done.
Qed.

(** A change of the connection's semaphores. *)
Lemma ledger_conn s s' h h' hs :
  ledger s (h :: hs) -> hold_ok h' -> limits s' = limits s -> heap s' = heap s -> closed s' = closed s ->
  is_closed (outbound_conn_bytes s') = is_closed (outbound_conn_bytes s) ->
  is_closed (outbound_frames s') = is_closed (outbound_frames s) -> ho_loc h' = ho_loc h ->
  ho_bytes h' = ho_bytes h -> ho_frames h' = ho_frames h -> ho_lock h' = ho_lock h ->
  balanced (outbound_conn_bytes s') (ho_conn h') (available_permits (outbound_conn_bytes s) + ho_conn h) ->
  balanced (outbound_frames s') (ho_frame h') (available_permits (outbound_frames s) + ho_frame h) ->
  ledger s' (h' :: hs).
Proof.
  unfold open_unless. intros [Hok [? Hc] [? Hf] Hco Hfo Hs] Hok' Hl Hh Hcl Hc1 Hf1 Ho Hb Hfr Hlk [? Hc'] [? Hf']. split; rewrite ?Hl; simpl in *.
  - inv Hok. by constructor.
  - split; [done|lia].
  - split; [done|lia].
  - unfold open_unless. by rewrite Hcl, Hc1.
  - unfold open_unless. by rewrite Hcl, Hf1.
  - rewrite Hh, Hcl. intros l st Hst. destruct (Hs l st Hst) as [Hb' Hf'' Hl']. unfold at_loc in *. simpl in *.
    split; unfold at_loc; simpl; rewrite ?Ho, ?Hb, ?Hfr, ?Hlk; done.
Qed.

(** A change of the permits of one stream. *)
Lemma ledger_stream s l st g h h' hs :
  ledger s (h :: hs) -> hold_ok h' -> heap s !! l = Some st -> ho_loc h = l -> ho_loc h' = l ->
  ho_conn h' = ho_conn h -> ho_frame h' = ho_frame h ->
  balanced (outbound_stream_bytes (g st)) (ho_bytes h') (available_permits (outbound_stream_bytes st) + ho_bytes h) ->
  balanced (outbound_stream_frames (g st)) (ho_frames h') (available_permits (outbound_stream_frames st) + ho_frames h) ->
  ho_lock h' + (if send_locked st then 1 else 0) = ho_lock h + (if send_locked (g st) then 1 else 0) ->
  is_closed (outbound_stream_bytes (g st)) = is_closed (outbound_stream_bytes st) ->
  is_closed (outbound_stream_frames (g st)) = is_closed (outbound_stream_frames st) ->
  send_terminal (g st) = send_terminal st ->
  ledger (s <| heap ::= alter g l |>) (h' :: hs).
Proof.
  intros [Hok Hc Hf Hco Hfo Hs] Hok' Hl Ho Ho' Hcc Hff [? Hb] [? Hfr] Hlk Hbc Hfc Ht. split; simpl in *.
  - inv Hok. by constructor.
  - by rewrite Hcc.
  - by rewrite Hff.
  - done.
  - done.
  - intros k st' Hk. destruct (decide (l = k)) as [<-|Hne].
    + rewrite lookup_alter_eq, Hl in Hk. apply (inj Some) in Hk. subst st'.
      destruct (Hs l st Hl) as [[? Hb'] [? Hf'] Hl' Hbo Hfo']. unfold at_loc in *. simpl in *.
      rewrite decide_True in Hb', Hf', Hl' by done.
      split; unfold open_unless, balanced, at_loc; simpl; rewrite ?Hbc, ?Hfc, ?Ht; try done;
        rewrite decide_True by done; (split; [done|lia]) || lia.
    + rewrite lookup_alter_ne in Hk by done. destruct (Hs k st' Hk) as [Hb' Hf' Hl' ? ?].
      unfold at_loc in *. simpl in *. rewrite decide_False in Hb', Hf', Hl' by congruence.
      split; unfold at_loc; simpl; try done; by rewrite decide_False by congruence.
Qed.

(** Giving permits back. *)
Section release.
Context (l : loc) (cn fr by_ fs lk : Z) (hs : list Hold).

#[local] Ltac hold_tac :=
  simpl; rewrite ?drop_closed; try congruence; match goal with H : ledger _ _ |- _ =>
    let Hh := fresh in pose proof (Forall_inv (ld_holds _ _ H)) as Hh; unfold hold_ok in Hh; simpl in Hh;
    pose proof (ld_conn _ _ H) as [? ?]; pose proof (ld_frame _ _ H) as [? ?]
  end; unfold hold_ok, balanced; simpl in *; rewrite ?drop_available, ?close_available in *; lia.

Lemma ledger_drop_frame s p : ledger s (mkHold l cn fr by_ fs lk :: hs) -> num_permits p = fr ->
  ledger (s <| outbound_frames ::= permit_drop p |>) (mkHold l cn 0 by_ fs lk :: hs).
Proof. intros Hl Hp. eapply ledger_conn; [exact Hl|try done; hold_tac..]. Qed.

Lemma ledger_drop_conn s p : ledger s (mkHold l cn fr by_ fs lk :: hs) -> num_permits p = cn ->
  ledger (s <| outbound_conn_bytes ::= permit_drop p |>) (mkHold l 0 fr by_ fs lk :: hs).
Proof. intros Hl Hp. eapply ledger_conn; [exact Hl|try done; hold_tac..]. Qed.

#[local] Ltac stream_tac Hl Hs :=
  pose proof (ld_streams _ _ Hl _ _ Hs) as [[? ?] [? ?] ? ? ?]; eapply ledger_stream; [exact Hl| |exact Hs|..];
  try done; hold_tac.

Lemma ledger_drop_bytes s st p : ledger s (mkHold l cn fr by_ fs lk :: hs) -> heap s !! l = Some st -> num_permits p = by_ ->
  ledger (s <| heap ::= alter (fun st => st <| outbound_stream_bytes ::= permit_drop p |>) l |>)
    (mkHold l cn fr 0 fs lk :: hs).
Proof. intros Hl Hs Hp. stream_tac Hl Hs. Qed.

Lemma ledger_drop_frames s st p : ledger s (mkHold l cn fr by_ fs lk :: hs) -> heap s !! l = Some st -> num_permits p = fs ->
  ledger (s <| heap ::= alter (fun st => st <| outbound_stream_frames ::= permit_drop p |>) l |>)
    (mkHold l cn fr by_ 0 lk :: hs).
Proof. intros Hl Hs Hp. stream_tac Hl Hs. Qed.

Lemma ledger_unlock s st : ledger s (mkHold l cn fr by_ fs 1 :: hs) -> heap s !! l = Some st ->
  ledger (s <| heap ::= alter (fun st => st <| send_locked := false |>) l |>) (mkHold l cn fr by_ fs 0 :: hs).
Proof.
  intros Hl Hs. assert (Ht : send_locked st = true).
  { pose proof (sl_lock _ _ _ _ _ (ld_streams _ _ Hl _ _ Hs)) as Hk. simpl in Hk.
    unfold at_loc at 1 in Hk. simpl in Hk. rewrite decide_True in Hk by done.
    assert (0 <= zsum (at_loc l ho_lock) hs).
    { apply zsum_nonneg. intros h Hh. pose proof (ld_holds _ _ Hl) as Ho. apply Forall_cons in Ho as [_ Ho].
      rewrite Forall_forall in Ho. specialize (Ho h Hh). unfold at_loc. case_decide; [|done]. apply Ho. }
    destruct (send_locked st); [done|lia]. }
  pose proof (ld_streams _ _ Hl _ _ Hs) as [[? ?] [? ?] ? ? ?]. eapply ledger_stream; [exact Hl| |exact Hs|..];
    try done; rewrite ?Ht; hold_tac.
Qed.

Lemma ledger_lock s st : ledger s (mkHold l cn fr by_ fs 0 :: hs) -> heap s !! l = Some st -> send_locked st = false ->
  ledger (s <| heap ::= alter (fun st => st <| send_locked := true |>) l |>) (mkHold l cn fr by_ fs 1 :: hs).
Proof. intros Hl Hs Ht. pose proof (ld_streams _ _ Hl _ _ Hs) as [[? ?] [? ?] ? ? ?]. eapply ledger_stream; [exact Hl| |exact Hs|..];
    try done; rewrite ?Ht; hold_tac. Qed.

(** Taking permits. *)
Lemma acquire_got m (sem : Sem) p sem' : acquire_many m sem = AGot p sem' -> 0 <= m ->
  num_permits p = m /\ balanced sem' m (available_permits sem) /\ is_closed sem' = is_closed sem.
Proof.
  unfold acquire_many. destruct (is_closed sem) eqn:Ho; [done|].
  destruct (try_acquire_many m sem) as [[q sem1]|] eqn:E; [|done]. intros [= <- <-] Hm.
  apply acquire_some in E as (_ & ? & ? & ? & Ha). unfold balanced. split_and!; (done || lia).
Qed.

Lemma ledger_take_frame s p sem : ledger s (mkHold l cn 0 by_ fs lk :: hs) -> 0 <= fr ->
  acquire_many fr (outbound_frames s) = AGot p sem ->
  ledger (s <| outbound_frames := sem |>) (mkHold l cn (num_permits p) by_ fs lk :: hs).
Proof.
  intros Hl Hm (-> & [? ?] & ?)%acquire_got; [|done]. eapply ledger_conn; [exact Hl|try done; hold_tac..].
Qed.

Lemma ledger_take_conn s p sem : ledger s (mkHold l 0 fr by_ fs lk :: hs) -> 0 <= cn ->
  acquire_many cn (outbound_conn_bytes s) = AGot p sem ->
  ledger (s <| outbound_conn_bytes := sem |>) (mkHold l (num_permits p) fr by_ fs lk :: hs).
Proof.
  intros Hl Hm (-> & [? ?] & ?)%acquire_got; [|done]. eapply ledger_conn; [exact Hl|try done; hold_tac..].
Qed.

Lemma ledger_take_bytes s st p sem : ledger s (mkHold l cn fr 0 fs lk :: hs) -> heap s !! l = Some st -> 0 <= by_ ->
  acquire_many by_ (outbound_stream_bytes st) = AGot p sem ->
  ledger (s <| heap ::= alter (fun st => st <| outbound_stream_bytes := sem |>) l |>)
    (mkHold l cn fr (num_permits p) fs lk :: hs).
Proof. intros Hl Hs Hm (-> & [? ?] & ?)%acquire_got; [|done]. stream_tac Hl Hs. Qed.

Lemma ledger_take_frames s st p sem : ledger s (mkHold l cn fr by_ 0 lk :: hs) -> heap s !! l = Some st -> 0 <= fs ->
  acquire_many fs (outbound_stream_frames st) = AGot p sem ->
  ledger (s <| heap ::= alter (fun st => st <| outbound_stream_frames := sem |>) l |>)
    (mkHold l cn fr by_ (num_permits p) lk :: hs).
Proof. intros Hl Hs Hm (-> & [? ?] & ?)%acquire_got; [|done]. stream_tac Hl Hs. Qed.

End release.

(** ** Dropping chunks and stages *)

Lemma core_eq_is_Some s s' l : s ≈ s' -> is_Some (heap s' !! l) -> is_Some (heap s !! l).
Proof. intros H [st Hl]. symmetry in H. destruct (core_eq_heap _ _ _ _ H Hl) as (st' & -> & _). by eexists. Qed.

(** The state [s] is [s0] up to permits, and its permits are accounted for. *)
Definition tally s0 (hs : list Hold) s : Prop := ledger s hs /\ s ≈ s0.

Lemma tally_perm s0 hs hs' s : hs ≡ₚ hs' -> tally s0 hs s -> tally s0 hs' s.
Proof. intros Hp [Hl Hc]. split; [by rewrite <- Hp|done]. Qed.

Lemma tally_refl s hs : ledger s hs -> tally s hs s.
Proof. by split. Qed.

Lemma tally_no_hold s0 l hs s : tally s0 (no_hold l :: hs) s <-> tally s0 hs s.
Proof. unfold tally. by rewrite ledger_no_hold. Qed.

Lemma tally_nothing s0 l hs s : tally s0 (mkHold l 0 0 0 0 0 :: hs) s -> tally s0 hs s.
Proof. apply tally_no_hold. Qed.

Lemma tally_stream s0 s l f h h' hs :
  tally s0 (h :: hs) s -> is_Some (heap s0 !! l) -> (forall st, core_stream (f st) = core_stream st) ->
  (forall st, heap s !! l = Some st -> ledger (s <| heap ::= alter f l |>) (h' :: hs)) ->
  tally s0 (h' :: hs) (s <| heap ::= alter f l |>).
Proof.
  intros [Hl Hc] Hs Hf Hg. destruct (core_eq_is_Some _ _ _ Hc Hs) as [st Hst].
  split; [by apply (Hg st)|]. etransitivity; [by apply core_eq_alter|done].
Qed.

Section drop.
Context (s0 : ConnectionShared) (l : loc) (hs : list Hold) (Hlive : is_Some (heap s0 !! l)).
Implicit Types (Q : unit -> ConnectionShared -> Prop) (R : Error -> ConnectionShared -> Prop).

Lemma wp_drop_frame cn by_ fs lk p s Q R :
  tally s0 (mkHold l cn (num_permits p) by_ fs lk :: hs) s ->
  (forall s', tally s0 (mkHold l cn 0 by_ fs lk :: hs) s' -> Q tt s') -> wp (drop_frame p) s Q R.
Proof.
  intros [Hl Hc] HQ. apply wp_modify, HQ. split; [by eapply ledger_drop_frame|]. by etransitivity; [|exact Hc].
Qed.

Lemma wp_drop_conn_bytes fr by_ fs lk p s Q R :
  tally s0 (mkHold l (num_permits p) fr by_ fs lk :: hs) s ->
  (forall s', tally s0 (mkHold l 0 fr by_ fs lk :: hs) s' -> Q tt s') -> wp (drop_conn_bytes p) s Q R.
Proof.
  intros [Hl Hc] HQ. apply wp_modify, HQ. split; [by eapply ledger_drop_conn|]. by etransitivity; [|exact Hc].
Qed.

Lemma wp_drop_stream_frame cn fr by_ lk p s Q R :
  tally s0 (mkHold l cn fr by_ (num_permits p) lk :: hs) s ->
  (forall s', tally s0 (mkHold l cn fr by_ 0 lk :: hs) s' -> Q tt s') -> wp (drop_stream_frame l p) s Q R.
Proof.
  intros Ht HQ. apply wp_modify, HQ. eapply tally_stream; [done..|]. intros st Hst. by eapply ledger_drop_frames; [apply Ht|..].
Qed.

Lemma wp_drop_stream_bytes cn fr fs lk p s Q R :
  tally s0 (mkHold l cn fr (num_permits p) fs lk :: hs) s ->
  (forall s', tally s0 (mkHold l cn fr 0 fs lk :: hs) s' -> Q tt s') -> wp (drop_stream_bytes l p) s Q R.
Proof.
  intros Ht HQ. apply wp_modify, HQ. eapply tally_stream; [done..|]. intros st Hst. by eapply ledger_drop_bytes; [apply Ht|..].
Qed.

Lemma wp_unlock cn fr by_ fs s Q R :
  tally s0 (mkHold l cn fr by_ fs 1 :: hs) s ->
  (forall s', tally s0 (mkHold l cn fr by_ fs 0 :: hs) s' -> Q tt s') -> wp (unlock l) s Q R.
Proof.
  intros Ht HQ. apply wp_modify, HQ. eapply tally_stream; [done..|]. intros st Hst. by eapply ledger_unlock; [apply Ht|..].
Qed.

Lemma wp_drop_stream_bytes_opt cn fr fs lk sp s Q R :
  tally s0 (mkHold l cn fr (permits sp) fs lk :: hs) s ->
  (forall s', tally s0 (mkHold l cn fr 0 fs lk :: hs) s' -> Q tt s') -> wp (when_some sp (drop_stream_bytes l)) s Q R.
Proof. destruct sp; simpl; [apply wp_drop_stream_bytes|]. intros Ht HQ. by apply wp_ret, HQ. Qed.

Lemma wp_drop_conn_bytes_opt fr by_ fs lk cp s Q R :
  tally s0 (mkHold l (permits cp) fr by_ fs lk :: hs) s ->
  (forall s', tally s0 (mkHold l 0 fr by_ fs lk :: hs) s' -> Q tt s') -> wp (when_some cp drop_conn_bytes) s Q R.
Proof. destruct cp; simpl; [apply wp_drop_conn_bytes|]. intros Ht HQ. by apply wp_ret, HQ. Qed.

(** Dropping the future of a send. *)
Lemma wp_release_stage stage s Q R :
  tally s0 (stage_hold l stage :: hs) s -> (forall s', tally s0 hs s' -> Q tt s') ->
  wp (release_stage l stage) s Q R.
Proof.
  intros Ht HQ. assert (Hend : forall s', tally s0 (no_hold l :: hs) s' -> Q tt s').
  { intros s' H. by eapply HQ, tally_no_hold. }
  destruct stage as [| | |fp|fp sp|fp sp frp]; simpl in *.
  - by apply wp_ret, Hend.
  - by apply wp_ret, Hend.
  - by eapply wp_unlock.
  - wp_step. eapply wp_drop_stream_frame; [exact Ht|]. intros s1 Ht1. by eapply wp_unlock.
  - wp_step. eapply wp_drop_stream_bytes_opt; [exact Ht|]. intros s1 Ht1. wp_step.
    eapply wp_drop_stream_frame; [exact Ht1|]. intros s2 Ht2. by eapply wp_unlock.
  - wp_step. eapply wp_drop_frame; [exact Ht|]. intros s1 Ht1. wp_step.
    eapply wp_drop_stream_bytes_opt; [exact Ht1|]. intros s2 Ht2. wp_step.
    eapply wp_drop_stream_frame; [exact Ht2|]. intros s3 Ht3. by eapply wp_unlock.
Qed.

End drop.

(** Dropping queued chunks. *)
Lemma wp_drop_chunk s0 c hs s (Q : unit -> ConnectionShared -> Prop) (R : Error -> ConnectionShared -> Prop) :
  is_Some (heap s0 !! oc_state c) -> tally s0 (chunk_hold c :: hs) s ->
  (forall s', tally s0 hs s' -> Q tt s') -> wp (drop_outbound c) s Q R.
Proof.
  intros Hlive Ht HQ. unfold drop_outbound. wp_step.
  eapply wp_drop_frame; [exact Ht|]. intros s1 Ht1. wp_step.
  eapply wp_drop_stream_frame; [exact Hlive|exact Ht1|]. intros s2 Ht2. wp_step.
  assert (Hend : forall s', tally s0 (no_hold (oc_state c) :: hs) s' -> Q tt s').
  { intros s' H. by eapply HQ, tally_no_hold. }
  eapply (wp_drop_conn_bytes_opt _ _ _ _ _ _ _ (oc_conn_permit c)); [exact Ht2|]. intros s3 Ht3.
  by eapply (wp_drop_stream_bytes_opt _ _ _ Hlive _ _ _ _ (oc_stream_permit c)).
Qed.

Lemma wp_drop_outbound_queue s0 cs hs s (Q : unit -> ConnectionShared -> Prop) (R : Error -> ConnectionShared -> Prop) :
  Forall (fun c => is_Some (heap s0 !! oc_state c)) cs -> tally s0 (map chunk_hold cs ++ hs) s ->
  (forall s', tally s0 hs s' -> Q tt s') -> wp (drop_outbounds cs) s Q R.
Proof.
  intros Hlive. revert s. induction Hlive as [|c cs Hc _ IH]; intros s Ht HQ; simpl; [by apply wp_ret, HQ|].
  wp_step. eapply wp_drop_chunk; [exact Hc|exact Ht|]. intros s' Ht'. by apply IH.
Qed.

End ledger.
