(* ===== verification/SendSpec.v ===== *)
(** A send, whatever stage it has reached: polling it queues its chunk, or leaves it at
    a stage where it lacks a permit or the lock, or refuses it; the permits it held are
    accounted for in each case. *)

From S2P Require Import Prelude Hoare Buf Varint Frames Errors Limits Flow Tokio.
From S2P Require Import ConnState Inbound InboundSpec Writer WriterSpec Connection Streams ConnectionSpec Ledger.

#[local] Open Scope Z_scope.

Section send.
Context {TK : Tokio} {TKL : TokioLaws TK} {HI : HashIter}.
Implicit Types (s : ConnectionShared) (st : StreamState) (f : SendFuture).
Infix "≈" := core_eq (at level 70).

(** ** Waiting for a permit *)

(** Polling [acquire_many_owned]: it takes the permits, or they are not there, or the
    semaphore is closed. *)
Lemma wp_acquire_from n get put s sem (Q : option Permit -> ConnectionShared -> Prop) (R : Error -> ConnectionShared -> Prop) :
  0 <= n -> get s = Some sem ->
  (forall p sem', acquire_many n sem = AGot p sem' -> num_permits p = n -> Q (Some p) (put sem' s)) ->
  (available_permits sem < n -> Q None s) ->
  (is_closed sem = true -> R ConnectionClosed s) -> wp (acquire_from n get put) s Q R.
Proof.
  intros Hn Hg Hgot Hwait Hcl. unfold wp, acquire_from. rewrite Hg.
  destruct (acquire_many n sem) as [| |p sem'] eqn:E.
  - apply Hcl. unfold acquire_many in E. destruct (is_closed sem); [done|]. by destruct (try_acquire_many n sem) as [[]|].
  - apply Hwait. unfold acquire_many in E. destruct (is_closed sem) eqn:Ho; [done|].
    destruct (try_acquire_many n sem) as [[]|] eqn:Ht; [done|].
    destruct (decide (n <= available_permits sem)); [|lia]. destruct (acquire_ok n sem Ho) as [? ?]; [lia|congruence].
  - apply Hgot; [done|]. by apply acquire_got in E as [? _].
Qed.

Section acquire.
Context (s0 : ConnectionShared) (l : loc) (hs : list Hold) (Hlive : is_Some (heap s0 !! l)).
Implicit Types (Q : option Permit -> ConnectionShared -> Prop) (R : Error -> ConnectionShared -> Prop).

(** The stream at [l] in a state that is [s0] up to permits. *)
Lemma tally_state hs' s : tally s0 hs' s -> exists st0 st, heap s0 !! l = Some st0 /\ heap s !! l = Some st /\
  core_stream st = core_stream st0.
Proof using Hlive.
  intros [_ Hc]. destruct (core_eq_is_Some _ _ _ Hc Hlive) as [st Hst].
  destruct (core_eq_heap _ _ _ _ Hc Hst) as (st0 & Hst0 & He). by exists st0, st.
Qed.

Lemma tally_closed hs' s : tally s0 hs' s -> closed s = closed s0.
Proof. intros [_ Hc]. exact (f_equal closed Hc). Qed.

Lemma wp_acquire_stream_frame cn fr by_ lk s Q R :
  tally s0 (mkHold l cn fr by_ 0 lk :: hs) s ->
  (forall p s', num_permits p = 1 -> tally s0 (mkHold l cn fr by_ (num_permits p) lk :: hs) s' -> Q (Some p) s') ->
  (forall st, heap s !! l = Some st -> available_permits (outbound_stream_frames st) < 1 -> Q None s) ->
  (closed s0 = true -> R ConnectionClosed s) -> wp (acquire_stream_frame l) s Q R.
Proof using Hlive TKL.
  intros Ht Hgot Hwait Hcl. destruct (tally_state _ _ Ht) as (st0 & st & Hst0 & Hst & _).
  apply (wp_acquire_from _ _ _ _ (outbound_stream_frames st)); [lia|by rewrite Hst|..].
  - intros p sem' Ha Hp. apply Hgot; [done|]. eapply tally_stream; [exact Ht|done|done|].
    intros st1 Hst1. rewrite Hst in Hst1. apply (inj Some) in Hst1. subst st1.
    by eapply ledger_take_frames; [apply Ht|exact Hst| |exact Ha].
  - by apply Hwait.
  - intros Hc. apply Hcl. rewrite <- (tally_closed _ _ Ht). destruct (closed s) eqn:E; [done|].
    pose proof (sl_frames_open _ _ _ _ _ (ld_streams _ _ (proj1 Ht) _ _ Hst) E). congruence.
Qed.

Lemma wp_acquire_stream_bytes cn fr fs lk n s Q R :
  tally s0 (mkHold l cn fr 0 fs lk :: hs) s -> 0 <= n <= u32_max ->
  (forall p s', num_permits p = n -> tally s0 (mkHold l cn fr (num_permits p) fs lk :: hs) s' -> Q (Some p) s') ->
  (forall st, heap s !! l = Some st -> available_permits (outbound_stream_bytes st) < n -> Q None s) ->
  (forall st, heap s0 !! l = Some st -> closed s0 = true \/ send_terminal st = true -> R ConnectionClosed s) ->
  wp (acquire_stream_bytes l n) s Q R.
Proof using Hlive TKL.
  intros Ht Hn Hgot Hwait Hcl. destruct (tally_state _ _ Ht) as (st0 & st & Hst0 & Hst & He).
  unfold acquire_stream_bytes. replace (as_u32 n) with n by (unfold as_u32, u32_max in *; rewrite Z.mod_small; lia).
  apply (wp_acquire_from _ _ _ _ (outbound_stream_bytes st)); [lia|by rewrite Hst|..].
  - intros p sem' Ha Hp. apply Hgot; [done|]. eapply tally_stream; [exact Ht|done|done|].
    intros st1 Hst1. rewrite Hst in Hst1. apply (inj Some) in Hst1. subst st1.
    eapply ledger_take_bytes; [apply Ht|exact Hst| |exact Ha]. lia.
  - by apply Hwait.
  - intros Hc. apply (Hcl st0 Hst0). rewrite <- (tally_closed _ _ Ht). destruct (closed s) eqn:E; [by left|right].
    assert (Hs : send_terminal st = send_terminal st0) by exact (f_equal send_terminal He). rewrite <- Hs.
    destruct (send_terminal st) eqn:E'; [done|].
    pose proof (sl_bytes_open _ _ _ _ _ (ld_streams _ _ (proj1 Ht) _ _ Hst)) as Ho.
    rewrite E, E' in Ho. specialize (Ho eq_refl). congruence.
Qed.

Lemma wp_acquire_frame cn by_ fs lk s Q R :
  tally s0 (mkHold l cn 0 by_ fs lk :: hs) s ->
  (forall p s', num_permits p = 1 -> tally s0 (mkHold l cn (num_permits p) by_ fs lk :: hs) s' -> Q (Some p) s') ->
  (available_permits (outbound_frames s) < 1 -> Q None s) ->
  (closed s0 = true -> R ConnectionClosed s) -> wp acquire_frame s Q R.
Proof using TKL.
  intros [Ht Hc] Hgot Hwait Hcl. apply (wp_acquire_from _ _ _ _ (outbound_frames s)); [lia|done|..].
  - intros p sem' Ha Hp. apply Hgot; [done|]. split; [by eapply (ledger_take_frame _ _ 1)|by etransitivity; [|exact Hc]].
  - by apply Hwait.
  - intros Hc'. apply Hcl. rewrite <- (tally_closed _ _ (conj Ht Hc)). destruct (closed s) eqn:E; [done|].
    pose proof (ld_frame_open _ _ Ht E). congruence.
Qed.

Lemma wp_acquire_conn_bytes fr by_ fs lk n s Q R :
  tally s0 (mkHold l 0 fr by_ fs lk :: hs) s -> 0 <= n <= u32_max ->
  (forall p s', num_permits p = n -> tally s0 (mkHold l (num_permits p) fr by_ fs lk :: hs) s' -> Q (Some p) s') ->
  (available_permits (outbound_conn_bytes s) < n -> Q None s) ->
  (closed s0 = true -> R ConnectionClosed s) -> wp (acquire_conn_bytes n) s Q R.
Proof using TKL.
  intros [Ht Hc] Hn Hgot Hwait Hcl. unfold acquire_conn_bytes.
  replace (as_u32 n) with n by (unfold as_u32, u32_max in *; rewrite Z.mod_small; lia).
  apply (wp_acquire_from _ _ _ _ (outbound_conn_bytes s)); [lia|done|..].
  - intros p sem' Ha Hp. apply Hgot; [done|]. split; [eapply ledger_take_conn; [exact Ht| |exact Ha]; lia|].
    by etransitivity; [|exact Hc].
  - by apply Hwait.
  - intros Hc'. apply Hcl. rewrite <- (tally_closed _ _ (conj Ht Hc)). destruct (closed s) eqn:E; [done|].
    pose proof (ld_conn_open _ _ Ht E). congruence.
Qed.

End acquire.

(** ** Queueing the chunk *)

(** The chunk of a send, with the permits it took. *)
Record chunk_of f (c : OutboundChunk) : Prop := {
  cf_state : oc_state c = sf_state f;
  cf_id : oc_stream_id c = mkVarInt (sf_stream_id f);
  cf_payload : oc_payload c = sf_payload f;
  cf_fin : oc_fin c = sf_fin f;
  cf_conn : permits (oc_conn_permit c) = zlen (sf_payload f);
  cf_bytes : permits (oc_stream_permit c) = zlen (sf_payload f);
  cf_frame : num_permits (oc_frame_permit c) = 1;
  cf_frames : num_permits (oc_stream_frame_permit c) = 1
}.

(** The state after the chunk was queued; a FIN ends the sending side. *)
Definition end_send st : StreamState := st <| send_terminal := true |>.
Definition queue_send f (c : OutboundChunk) s : ConnectionShared :=
  let cs := default [] (by_stream (queues s) !! sf_stream_id f) in
  let s1 := set_queue (sf_stream_id f) (cs ++ [c]) (match cs with [] => true | _ => false end) s in
  if sf_fin f then s1 <| heap ::= alter end_send (sf_state f) |> else s1.

Lemma core_eq_alter_both s s' l g : s ≈ s' -> (forall st, core_stream (g st) = g (core_stream st)) ->
  s <| heap ::= alter g l |> ≈ s' <| heap ::= alter g l |>.
Proof.
  intros H Hg. assert (Hc : forall x, core (x <| heap ::= alter g l |>) = (core x) <| heap ::= alter g l |>).
  { intros x. unfold core. simpl. f_equal. apply map_eq. intros i. rewrite lookup_fmap.
    destruct (decide (l = i)) as [->|].
    - rewrite !lookup_alter_eq, lookup_fmap. destruct (heap x !! i); simpl; by rewrite ?Hg.
    - by rewrite !lookup_alter_ne, lookup_fmap by done. }
  unfold core_eq. by rewrite !Hc, H.
Qed.

Lemma core_eq_wakes s w : s <| wakes ::= w |> ≈ s.
Proof. done. Qed.

Lemma set_queue_core id cs b s s' : s ≈ s' -> set_queue id cs b s ≈ set_queue id cs b s'.
Proof.
  intros H. unfold set_queue. etransitivity; [apply core_eq_wakes|].
  etransitivity; [|symmetry; apply core_eq_wakes]. by apply core_eq_trans_upd.
Qed.

Lemma ledger_split s l cn fr by_ fs lk hs : ledger s (mkHold l cn fr by_ fs lk :: hs) ->
  ledger s (mkHold l 0 0 0 0 lk :: mkHold l cn fr by_ fs 0 :: hs).
Proof.
  intros [Hok Hc Hf Hco Hfo Hs]. apply Forall_cons in Hok as [Hok Hoks]. unfold hold_ok in Hok. simpl in *.
  split; simpl; try done.
  - repeat constructor; simpl; try lia. done.
  - intros k st Hk. destruct (Hs k st Hk) as [Hb Hfr Hl ? ?]. unfold balanced, at_loc in *. simpl in *.
    split; unfold balanced, at_loc; simpl; try done; destruct (decide (l = k)); try done; lia.
Qed.

(** Queueing moves no permit. *)
Lemma ledger_set_queue id cs b s hs : ledger s hs -> ledger (set_queue id cs b s) hs.
Proof. apply ledger_same; try done. intros l st Hl. by exists st. Qed.

Lemma tally_wakes s0 hs s w : tally s0 hs s -> tally s0 hs (s <| wakes ::= w |>).
Proof.
  intros [Hl Hc]. split; [|by etransitivity; [apply core_eq_wakes|]].
  eapply ledger_same; [..|exact Hl]; try done. intros l st Hst. by exists st.
Qed.

Lemma ledger_end_send s l hs : ledger s hs -> ledger (s <| heap ::= alter end_send l |>) hs.
Proof.
  apply ledger_same; try done. intros k st' Hk. simpl in Hk. destruct (decide (l = k)) as [<-|].
  - rewrite lookup_alter_eq in Hk. destruct (heap s !! l) as [st|]; [|done]. apply (inj Some) in Hk. subst st'.
    by exists st.
  - rewrite lookup_alter_ne in Hk by done. by exists st'.
Qed.

(** ** The stages *)

(** The permits a send of [n] bytes holds at a stage. *)
Definition stage_ok (n : Z) (stage : SendStage) : Prop :=
  match stage with
  | SStart | SLock | SStreamFrame => True
  | SStreamBytes fp => num_permits fp = 1
  | SFrame fp sp => num_permits fp = 1 /\ permits sp = n
  | SConnBytes fp sp frp => num_permits fp = 1 /\ permits sp = n /\ num_permits frp = 1
  end.
(** Whether it has passed the lock and the checks made under it. *)
Definition past_lock (stage : SendStage) : bool := match stage with SStart | SLock => false | _ => true end.
Definition checked s f : Prop :=
  (sf_payload f = [] -> sf_fin f = true) /\ zlen (sf_payload f) <= max_outbound_stream_bytes (limits s).

Record send_ok s f : Prop := {
  fo_state : is_Some (heap s !! sf_state f);
  fo_id : 0 <= sf_stream_id f <= VarInt.MAX;
  fo_stage : stage_ok (zlen (sf_payload f)) (sf_stage f);
  fo_checked : past_lock (sf_stage f) = true -> checked s f
}.

(** What a waiting send lacks. *)
Definition starved f (stage : SendStage) s : Prop :=
  exists st, heap s !! sf_state f = Some st /\
  match stage with
  | SStart => False
  | SLock => send_locked st = true
  | SStreamFrame => available_permits (outbound_stream_frames st) < 1
  | SStreamBytes _ => available_permits (outbound_stream_bytes st) < zlen (sf_payload f)
  | SFrame _ _ => available_permits (outbound_frames s) < 1
  | SConnBytes _ _ _ => available_permits (outbound_conn_bytes s) < zlen (sf_payload f)
  end.

(** Why a send is refused. *)
Definition fits_frame s f : Prop :=
  exists n, Frame.encoded_len (Stream (mkVarInt (sf_stream_id f)) (sf_fin f) (sf_payload f)) = Ok n /\
    n <= max_frame_size (limits s).
Definition refusal s f : Prop :=
  closed s = true \/ closing (queues s) = true \/
  (exists st, heap s !! sf_state f = Some st /\ send_terminal st = true) \/
  max_outbound_stream_bytes (limits s) < zlen (sf_payload f) \/ ~ fits_frame s f.

(** The outcome of polling a send in the state [s0], with [hs] held by others. *)
Definition send_post s0 (hs : list Hold) f (p : SendPoll) s' : Prop :=
  match p with
  | SPending stage =>
      tally s0 (stage_hold (sf_state f) stage :: hs) s' /\ starved f stage s' /\
      send_ok s0 (f <| sf_stage := stage |>)
  | SDone =>
      (sf_payload f = [] /\ sf_fin f = false /\ tally s0 hs s') \/
      (checked s0 f /\ closing (queues s0) = false /\ closed s0 = false /\
       (forall st, heap s0 !! sf_state f = Some st -> send_terminal st = false) /\
       exists c, chunk_of f c /\ tally (queue_send f c s0) (chunk_hold c :: hs) s')
  end.
Definition send_err s0 (hs : list Hold) f (e : Error) s' : Prop := tally s0 hs s' /\ refusal s0 f.

Section poll.
Context (s0 : ConnectionShared) (hs : list Hold) (f : SendFuture).
Context (Hlive : is_Some (heap s0 !! sf_state f)) (Hid : 0 <= sf_stream_id f <= VarInt.MAX).
Context (Hlim : max_outbound_stream_bytes (limits s0) <= u32_max).
Abbreviation l := (sf_state f).
Abbreviation n := (zlen (sf_payload f)).

Lemma wp_ensure_open s hs' (Q : unit -> ConnectionShared -> Prop) (R : Error -> ConnectionShared -> Prop) :
  tally s0 hs' s -> (closed s0 = false -> Q tt s) -> (closed s0 = true -> R ConnectionClosed s) ->
  wp ensure_open s Q R.
Proof. intros Ht HQ HR. unfold ensure_open. wp_steps; rewrite (tally_closed _ _ _ Ht) in *; auto. Qed.

Lemma wp_tally_state s hs' (Q : StreamState -> ConnectionShared -> Prop) (R : Error -> ConnectionShared -> Prop) :
  tally s0 hs' s ->
  (forall st0 st, heap s0 !! l = Some st0 -> heap s !! l = Some st -> core_stream st = core_stream st0 -> Q st s) ->
  wp (get_state l) s Q R.
Proof using Hlive.
  intros Ht HQ. destruct (tally_state _ _ Hlive _ _ Ht) as (st0 & st & ? & Hst & ?).
  unfold wp, get_state. rewrite Hst. by apply (HQ st0).
Qed.

Lemma wp_send_enqueue s fp sp frp cp : checked s0 f -> stage_ok n (SConnBytes fp sp frp) -> permits cp = n ->
  tally s0 (mkHold l n 1 n 1 1 :: hs) s ->
  wp (send_enqueue f (mkVarInt (sf_stream_id f)) fp sp frp cp) s (send_post s0 hs f) (send_err s0 hs f).
Proof using All.
  intros Hck (Hfp & Hsp & Hfrp) Hcp Ht. unfold send_enqueue. wp_step. apply wp_on_err.
  eapply wp_ensure_open; [exact Ht|intros Hopen|intros Hc].
  2:{ wp_step. eapply (wp_drop_conn_bytes_opt s0 l hs 1 n 1 1 cp); [by rewrite Hcp|]. intros s1 Ht1.
      eapply (wp_release_stage s0 l hs Hlive (SConnBytes fp sp frp)).
      - simpl. by rewrite Hfp, Hsp, Hfrp.
      - intros s' Ht'. split; [done|by left]. }
  set (c := mkOutboundChunk _ _ _ _ _ _ _ _).
  assert (Hcf : chunk_of f c) by (by split).
  assert (Hh : chunk_hold c = mkHold l n 1 n 1 0) by (unfold chunk_hold; simpl; by rewrite Hcp, Hsp, Hfp, Hfrp).
  assert (Ht2 : tally s0 (mkHold l 0 0 0 0 1 :: chunk_hold c :: hs) s).
  { rewrite Hh. split; [|apply Ht]. apply ledger_split, Ht. }
  destruct (tally_state _ _ Hlive _ _ Ht) as (st0 & st & Hst0 & Hst & He).
  assert (Hterm : send_terminal st = send_terminal st0) by exact (f_equal send_terminal He).
  assert (Hq : queues s = queues s0) by (apply core_eq_queues, Ht).
  wp_step. destruct (closing (queues s) || send_terminal st) eqn:Ecl.
  - unfold enqueue_data, get_queues. wp_step. wp_step. wp_step. apply (wp_get_state _ st); [done|]. rewrite Ecl.
    wp_step. eapply (wp_drop_chunk s0 c); [done|by eapply tally_perm; [apply Permutation_swap|exact Ht2]|].
    intros s1 Ht1. wp_step. wp_step. eapply wp_unlock; [done|exact Ht1|]. intros s2 Ht3%tally_nothing. wp_step.
    split; [done|]. rewrite Hq, Hterm in Ecl. apply orb_true_iff in Ecl as [?|?]; [by right; left|].
    right; right; left. by exists st0.
  - apply (wp_enqueue_data _ c st); [done|by rewrite Ecl|intros _]. rewrite Hq. cbv zeta.
    apply orb_false_iff in Ecl as [Ecl Et]. rewrite Hq in Ecl. rewrite Hterm in Et.
    set (cs := default [] _). set (b := match cs with [] => true | _ => false end).
    assert (Hdone : forall s2, tally (queue_send f c s0) (mkHold l 0 0 0 0 1 :: chunk_hold c :: hs) s2 ->
      wp (unlock l) s2 (fun _ s' => send_post s0 hs f SDone s') (send_err s0 hs f)).
    { intros s2 Ht1. eapply wp_unlock; [|exact Ht1|intros s3 Ht3%tally_nothing].
      - unfold queue_send. destruct (sf_fin f); [|done]. simpl. by apply alter_is_Some.
      - right. split_and!; try done. + intros st1 Hst1. congruence. + by exists c. }
    wp_step. wp_step. wp_step.
    + unfold upd_state, notify. wp_step. wp_step. apply wp_bind, Hdone. unfold queue_send. rewrite E. fold cs b. apply tally_wakes.
      split; [apply ledger_end_send|apply core_eq_alter_both; [|done]]; [apply ledger_set_queue, Ht2|].
      by apply set_queue_core, Ht2.
    + apply wp_bind, Hdone. unfold queue_send. rewrite E. fold cs b.
      split; [apply ledger_set_queue, Ht2|by apply set_queue_core, Ht2].
Qed.

Lemma checked_u32 : checked s0 f -> 0 <= n <= u32_max.
Proof using Hlim. intros [_ H]. pose proof (zlen_nonneg (sf_payload f)). lia. Qed.

(** A send left waiting at a stage. *)
Lemma send_waits s stage : tally s0 (stage_hold l stage :: hs) s -> starved f stage s ->
  stage_ok n stage -> checked s0 f -> send_post s0 hs f (SPending stage) s.
Proof using Hlive Hid. intros Ht Hs Hok Hck. split_and!; [done..|]. by split. Qed.

Lemma wp_send_conn_bytes s fp sp frp : checked s0 f -> stage_ok n (SConnBytes fp sp frp) ->
  tally s0 (stage_hold l (SConnBytes fp sp frp) :: hs) s ->
  wp (send_conn_bytes f (mkVarInt (sf_stream_id f)) fp sp frp) s (send_post s0 hs f) (send_err s0 hs f).
Proof using All.
  intros Hck Hok Ht. pose proof Hok as (Hfp & Hsp & Hfrp). pose proof Ht as Ht'. simpl in Ht'. rewrite Hfp, Hsp, Hfrp in Ht'.
  destruct (tally_state _ _ Hlive _ _ Ht) as (st0 & st & _ & Hst & _).
  unfold send_conn_bytes. destruct (Z.eqb_spec n 0) as [Hz|Hz].
  - apply wp_send_enqueue; [done..|]. by rewrite Hz in *.
  - wp_step. apply wp_on_err. eapply wp_acquire_conn_bytes; [exact Ht'|by apply checked_u32|..].
    + intros p s' Hp Ht1. apply wp_send_enqueue; try done. by rewrite Hp in Ht1.
    + intros Ha. apply wp_ret, send_waits; try done. by exists st.
    + intros Hc. eapply wp_release_stage; [exact Hlive|exact Ht|]. intros s' Ht1. split; [done|by left].
Qed.

Lemma wp_send_frame s fp sp : checked s0 f -> stage_ok n (SFrame fp sp) ->
  tally s0 (stage_hold l (SFrame fp sp) :: hs) s ->
  wp (send_frame f (mkVarInt (sf_stream_id f)) fp sp) s (send_post s0 hs f) (send_err s0 hs f).
Proof using All.
  intros Hck Hok Ht. destruct (tally_state _ _ Hlive _ _ Ht) as (st0 & st & _ & Hst & _).
  unfold send_frame. wp_step. apply wp_on_err. eapply wp_acquire_frame; [exact Ht|..].
  - intros p s' Hp Ht1. apply wp_send_conn_bytes; try done. by destruct Hok.
  - intros Ha. apply wp_ret, send_waits; try done. by exists st.
  - intros Hc. eapply wp_release_stage; [exact Hlive|exact Ht|]. intros s' Ht1. split; [done|by left].
Qed.

Lemma wp_send_stream_bytes s fp : checked s0 f -> stage_ok n (SStreamBytes fp) ->
  tally s0 (stage_hold l (SStreamBytes fp) :: hs) s ->
  wp (send_stream_bytes f (mkVarInt (sf_stream_id f)) fp) s (send_post s0 hs f) (send_err s0 hs f).
Proof using All.
  intros Hck Hok Ht. unfold send_stream_bytes. destruct (Z.eqb_spec n 0) as [Hz|Hz].
  - apply wp_send_frame; [done| |done]. split; [done|]. by rewrite Hz.
  - wp_step. apply wp_on_err. eapply wp_acquire_stream_bytes; [exact Hlive|exact Ht|by apply checked_u32|..].
    + intros p s' Hp Ht1. by apply wp_send_frame.
    + intros st Hst Ha. apply wp_ret, send_waits; try done. by exists st.
    + intros st0 Hst0 Hc. eapply wp_release_stage; [exact Hlive|exact Ht|]. intros s' Ht1. split; [done|].
      destruct Hc; [by left|]. right; right; left. by exists st0.
Qed.

Lemma wp_send_stream_frame s : checked s0 f -> tally s0 (stage_hold l SStreamFrame :: hs) s ->
  wp (send_stream_frame f (mkVarInt (sf_stream_id f))) s (send_post s0 hs f) (send_err s0 hs f).
Proof using All.
  intros Hck Ht. unfold send_stream_frame. wp_step. apply wp_on_err.
  eapply wp_acquire_stream_frame; [exact Hlive|exact Ht|..].
  - intros p s' Hp Ht1. by apply wp_send_stream_bytes.
  - intros st Hst Ha. apply wp_ret, send_waits; try done. by exists st.
  - intros Hc. eapply wp_release_stage; [exact Hlive|exact Ht|]. intros s' Ht1. split; [done|by left].
Qed.

(** The checks under the lock change nothing. *)
Lemma proto_stream_id_ok : proto_stream_id (sf_stream_id f) = Ok (mkVarInt (sf_stream_id f)).
Proof using Hid. unfold proto_stream_id. by rewrite VarInt.from_u64_ok. Qed.

Lemma wp_send_checks s hs' (Q : option VarInt -> ConnectionShared -> Prop) (R : Error -> ConnectionShared -> Prop) :
  tally s0 hs' s ->
  (sf_payload f = [] -> sf_fin f = false -> Q None s) ->
  (checked s0 f -> Q (Some (mkVarInt (sf_stream_id f))) s) ->
  (forall e, refusal s0 f -> R e s) ->
  wp (send_checks f) s Q R.
Proof using All.
  intros Ht Hempty Hsome HR. unfold send_checks. wp_step.
  eapply wp_ensure_open; [exact Ht|intros Hopen|intros Hc; by apply HR; left].
  wp_step. eapply wp_tally_state; [exact Ht|]. intros st0 st Hst0 Hst He.
  assert (Hterm : send_terminal st = send_terminal st0) by exact (f_equal send_terminal He). rewrite Hterm.
  assert (Hl : limits s = limits s0) by exact (f_equal limits (proj2 Ht)).
  wp_step. wp_step. { apply HR. right; right; left. by exists st0. }
  wp_step. rewrite proto_stream_id_ok. wp_step. wp_step.
  destruct (Frame.encoded_len (Stream (mkVarInt (sf_stream_id f)) (sf_fin f) (sf_payload f))) as [k|e|] eqn:Hk; simpl map_err.
  - wp_step. wp_step. wp_step. rewrite Hl. wp_step. wp_step.
    { apply HR. right; right; right; right. intros (? & Hk' & ?). rewrite Hk in Hk'. simplify_eq. lia. }
    wp_step. wp_step. { apply HR. right; right; right. by left. }
    wp_step. destruct (Z.eqb_spec n 0) as [Hz|Hz]; simpl.
    + apply zlen_0_nil in Hz. destruct (sf_fin f) eqn:Hf; simpl.
      * apply Hsome. by split.
      * by apply Hempty.
    + apply Hsome. split; [|done]. intros Hp. by rewrite Hp in Hz.
  - wp_step. apply HR. right; right; right; right. intros (? & Hk' & ?). congruence.
  - exfalso. unfold Frame.encoded_len, try_u64, VarInt.from_u64, mbind, Result_bind in Hk. simpl in Hk.
    repeat case_match; simplify_eq.
Qed.

Lemma wp_send_lock s : tally s0 (no_hold l :: hs) s ->
  wp (send_lock f) s (send_post s0 hs f) (send_err s0 hs f).
Proof using All.
  intros Ht. unfold send_lock. wp_step. eapply wp_tally_state; [exact Ht|]. intros st0 st Hst0 Hst He.
  destruct (send_locked st) eqn:Hlk.
  - wp_step. split_and!; [done|by exists st|]. by split.
  - wp_step. unfold upd_state. wp_step. set (s1 := s <| heap ::= _ |>).
    assert (Ht1 : tally s0 (stage_hold l SStreamFrame :: hs) s1).
    { eapply tally_stream; [exact Ht|done|done|]. intros st1 Hst1. by eapply ledger_lock; [apply Ht|exact Hst|]. }
    clearbody s1. wp_step. apply wp_on_err. eapply wp_send_checks; [exact Ht1|..].
    + intros Hp Hf. wp_step. eapply wp_unlock; [exact Hlive|exact Ht1|]. intros s2 Ht2%tally_nothing. wp_step.
      by left.
    + intros Hck. by apply wp_send_stream_frame.
    + intros e He'. eapply wp_unlock; [exact Hlive|exact Ht1|]. by intros s2 Ht2%tally_nothing.
Qed.

End poll.

(** Polling a send, at any stage. *)
Lemma wp_send_stream_chunk s hs f : send_ok s f -> max_outbound_stream_bytes (limits s) <= u32_max ->
  ledger s (send_hold f :: hs) -> wp (send_stream_chunk f) s (send_post s hs f) (send_err s hs f).
Proof.
  intros [Hlive Hid Hst Hck] Hlim Hl%tally_refl. unfold send_stream_chunk. wp_step.
  eapply wp_tally_state; [done|exact Hl|]. intros st0 st Hst0 Hst1 _.
  destruct (send_terminal st) eqn:Hterm.
  { wp_step. eapply wp_release_stage; [exact Hlive|exact Hl|]. intros s' Ht. wp_step. split; [done|].
    right; right; left. by exists st. }
  unfold queue_stream_chunk. unfold send_hold in Hl. destruct (sf_stage f) as [| | |fp|fp sp|fp sp frp] eqn:Hstage;
    simpl in Hst, Hck.
  - wp_step. eapply wp_ensure_open; [exact Hl|intros Hopen|intros Hc].
    + by apply wp_send_lock.
    + split; [by apply tally_nothing in Hl|by left].
  - by apply wp_send_lock.
  - wp_step. rewrite proto_stream_id_ok by done. wp_step. apply wp_send_stream_frame; auto.
  - wp_step. rewrite proto_stream_id_ok by done. wp_step. apply wp_send_stream_bytes; auto.
  - wp_step. rewrite proto_stream_id_ok by done. wp_step. apply wp_send_frame; auto.
  - wp_step. rewrite proto_stream_id_ok by done. wp_step. apply wp_send_conn_bytes; auto.
Qed.

End send.
