(* ===== verification/SendInv.v ===== *)
(** The invariant of the sending half: which stream owns which state, what each stream
    has accepted, queued and sent, and how its sending side ends.  It speaks of the
    history of the connection, the bytes accepted from the application and the frames
    given to the transport. *)

From S2P Require Import Prelude Hoare Buf Varint Frames Errors Limits Flow Tokio.
From S2P Require Import ConnState Inbound InboundSpec Writer WriterSpec Connection Streams ConnectionSpec.
From S2P Require Import Scheduler Ledger SendSpec.

#[local] Open Scope Z_scope.

(** ** Histories *)

(** The bytes of stream [id] in a frame, whether the frame ends the stream, resets it,
    or belongs to its sending side. *)
Definition frame_data (id : Z) (f : Frame) : bytes :=
  match f with Stream i _ p => if bool_decide (inner i = id) then p else [] | _ => [] end.
Definition is_fin (id : Z) (f : Frame) : bool :=
  match f with Stream i fin _ => bool_decide (inner i = id) && fin | _ => false end.
Definition is_reset (id : Z) (f : Frame) : bool :=
  match f with ResetStream i _ => bool_decide (inner i = id) | _ => false end.
Definition is_end (id : Z) (f : Frame) : bool := is_fin id f || is_reset id f.
Definition is_about (id : Z) (f : Frame) : bool :=
  match f with Stream i _ _ | ResetStream i _ => bool_decide (inner i = id) | _ => false end.

Definition sent_data (id : Z) (t : list Frame) : bytes := concat (map (frame_data id) t).

(** Nothing follows the end of a stream. *)
Definition ordered (t : list Frame) : Prop := forall pre f post id,
  t = pre ++ f :: post -> is_end id f = true -> Forall (fun g => is_about id g = false) post.

(** SETTINGS comes first and once; a connection that failed may send CLOSE instead. *)
Definition is_close (f : Frame) : bool := match f with ConnectionClose _ _ => true | _ => false end.
Definition settings_first (t : list Frame) : Prop :=
  match t with
  | [] => True
  | f :: t => is_settings f || is_close f = true /\ Forall (fun g => is_settings g = false) t
  end.

Lemma sent_data_app id t u : sent_data id (t ++ u) = sent_data id t ++ sent_data id u.
Proof. unfold sent_data. by rewrite map_app, concat_app. Qed.

Lemma end_about id f : is_end id f = true -> is_about id f = true.
Proof. unfold is_end. destruct f; simpl; try done; by case_bool_decide. Qed.

Lemma about_data id f : is_about id f = false -> frame_data id f = [].
Proof. destruct f; simpl; try done; by case_bool_decide. Qed.

Lemma ordered_snoc t f : ordered t ->
  (forall id, is_about id f = true -> existsb (is_end id) t = false) -> ordered (t ++ [f]).
Proof.
  intros Ho Hf pre g post id Heq Hend. destruct post as [|h post _] using rev_ind; [constructor|].
  rewrite app_comm_cons, app_assoc in Heq. apply app_inj_tail in Heq as [Ht ->]. apply Forall_app. split; [by eapply Ho|].
  constructor; [|done]. destruct (is_about id h) eqn:Hh; [|done]. specialize (Hf id Hh). subst t.
  rewrite existsb_app in Hf. simpl in Hf. rewrite Hend in Hf. by rewrite orb_true_r in Hf.
Qed.

Lemma existsb_snoc {A} (p : A -> bool) l a : existsb p (l ++ [a]) = existsb p l || p a.
Proof. rewrite existsb_app. simpl. by rewrite orb_false_r. Qed.

Lemma existsb_none {A} (p : A -> bool) l : Forall (fun a => p a = false) l -> existsb p l = false.
Proof. induction 1 as [|a l Ha _ IH]; simpl; [done|]. by rewrite Ha. Qed.

Section inv.
Context {TK : Tokio} {TKL : TokioLaws TK} {HI : HashIter}.
Implicit Types (s : ConnectionShared) (st : StreamState) (q : WriterQueues).
Infix "≈" := core_eq (at level 70).

(** The history of a connection: the stream of each state, the bytes of the sends that
    completed, and the frames the writer took. *)
Record Ghost := mkGhost {
  g_names : gmap loc Z;
  g_accepted : gmap Z bytes;
  g_trace : list Frame
}.
Implicit Types g : Ghost.

#[global] Instance eta_Ghost : Settable Ghost := fun x => mkGhost (g_names x) (g_accepted x) (g_trace x).

Definition named g (id : Z) : Prop := exists l, g_names g !! l = Some id.
Definition accepted g (id : Z) : bytes := default [] (g_accepted g !! id).
Definition queue q (id : Z) : list OutboundChunk := default [] (by_stream q !! id).
Definition queued_data q (id : Z) : bytes := concat (map oc_payload (queue q id)).

(** ** One stream *)

Record stream_sends g q (id : Z) st : Prop := {
  ss_fin_queued : existsb oc_fin (queue q id) = true -> send_terminal st = true;
  ss_over : send_dispatched st || reset_queued st = true ->
    send_terminal st = true /\ by_stream q !! id = None;
  ss_one_end : send_dispatched st && reset_queued st = false;
  ss_reset_queued : existsb (is_reset id) (control q) = true ->
    reset_queued st = true /\ existsb (is_reset id) (g_trace g) = false;
  ss_reset_once : (length (filter (fun f => is_reset id f = true) (control q)) <= 1)%nat;
  ss_reset_sent : existsb (is_reset id) (g_trace g) = true -> reset_queued st = true;
  ss_fin_sent : existsb (is_fin id) (g_trace g) = send_dispatched st;
  ss_total : st_sent st = zlen (sent_data id (g_trace g));
  ss_prefix : sent_data id (g_trace g) `prefix_of` accepted g id;
  ss_data : reset_queued st = false -> abortive q = false ->
    accepted g id = sent_data id (g_trace g) ++ queued_data q id;
  ss_complete : send_dispatched st = true -> accepted g id = sent_data id (g_trace g);
  ss_completed : send_complete st = true -> send_dispatched st || reset_queued st = true
}.

(** ** Names *)

Record names_ok (names : gmap loc Z) s : Prop := {
  nm_dom : forall l, is_Some (heap s !! l) <-> is_Some (names !! l);
  nm_inj : forall l l' id, names !! l = Some id -> names !! l' = Some id -> l = l';
  nm_range : forall l id, names !! l = Some id -> 0 <= id <= VarInt.MAX;
  nm_issued : forall l id, names !! l = Some id ->
    id < if id mod 2 =? local_parity s then next_local_stream_id s else next_remote_stream_id s;
  nm_fresh : forall l, is_Some (names !! l) -> (l < next_loc s)%nat;
  nm_local : 0 <= next_local_stream_id s /\ next_local_stream_id s mod 2 = local_parity s;
  nm_remote : 0 <= next_remote_stream_id s /\ next_remote_stream_id s mod 2 = 1 - local_parity s;
  nm_streams : forall id l, streams s !! id = Some l -> names !! l = Some id;
  nm_windows : forall id l, receive_windows (queues s) !! id = Some l -> names !! l = Some id;
  nm_incoming : Forall (fun i => names !! i.2 = Some i.1) (incoming_streams s);
  nm_chunks : forall id cs, by_stream (queues s) !! id = Some cs ->
    Forall (fun c => names !! oc_state c = Some id) cs
}.

(** ** The sending half *)

Definition settings_state (t : list Frame) q : Prop :=
  match t with
  | [] => abortive q = false -> exists f c, control q = f :: c /\ is_settings f = true /\
            Forall (fun x => is_settings x = false) c
  | _ => Forall (fun x => is_settings x = false) (control q)
  end.

Record send_inv g s : Prop := {
  sv_writer : writer_inv s;
  sv_names : names_ok (g_names g) s;
  sv_streams : forall l id st, g_names g !! l = Some id -> heap s !! l = Some st ->
    stream_sends g (queues s) id st;
  sv_trace : Forall (fun f => forall id, is_about id f = true -> named g id) (g_trace g);
  sv_control : Forall (fun f => forall id, is_about id f = true -> named g id) (control (queues s));
  sv_accepted : forall id b, g_accepted g !! id = Some b -> named g id;
  sv_order : ordered (g_trace g);
  sv_first : settings_first (g_trace g);
  sv_settings : settings_state (g_trace g) (queues s);
  sv_abort : abortive (queues s) = true -> by_stream (queues s) = ∅ /\ control (queues s) = [];
  sv_closing : closing (queues s) = true -> closed s = true;
  sv_length : zlen (control (queues s)) <= writer_max_control_frames s;
  sv_peer : peer_settings (queues s) = false -> peer_limit (queues s) = 0 /\ peer_initial_stream_limit (queues s) = 0
}.

(** ** Steps that concern the sending half only through stream ends and credit *)

Definition send_half st :=
  (st_sent st, st_peer_limit st, send_terminal st, send_dispatched st, reset_queued st, send_complete st).

Definition windows_ok s : Prop :=
  ReceiveWindow.inv (receive_window s) /\ forall l st, heap s !! l = Some st -> ReceiveWindow.inv (st_window st).

(** The state of the sending half is the same; streams may have been retired or
    accepted, and the connection may have been closed. *)
Record quiet s s' : Prop := {
  qt_parity : local_parity s' = local_parity s;
  qt_local : next_local_stream_id s' = next_local_stream_id s;
  qt_remote : next_remote_stream_id s' = next_remote_stream_id s;
  qt_next : next_loc s' = next_loc s;
  qt_max : writer_max_control_frames s' = writer_max_control_frames s;
  qt_streams : streams s' ⊆ streams s;
  qt_incoming : incoming_streams s' ⊆ incoming_streams s;
  qt_windows : receive_windows (queues s') ⊆ receive_windows (queues s);
  qt_queues : queues s' = (queues s) <| receive_windows := receive_windows (queues s') |>;
  qt_closed : closed s = true -> closed s' = true;
  qt_heap : send_half <$> heap s' = send_half <$> heap s
}.

#[export] Instance quiet_preorder : PreOrder quiet.
Proof.
  split; [intros s; split; try done; by destruct (queues s)|].
  intros x y z Hxy Hyz. pose proof (qt_queues _ _ Hxy) as H1. pose proof (qt_queues _ _ Hyz) as H2.
  destruct Hxy as [? ? ? ? ? ? ? ? _ ? ?], Hyz as [? ? ? ? ? ? ? ? _ ? ?]. split.
  1-5: congruence.
  1-3: by etransitivity.
  - rewrite H2 at 1. rewrite H1. by destruct (queues x).
  - auto.
  - congruence.
Qed.

Lemma quiet_heap s s' l : quiet s s' -> option_Forall2 (fun st st' => send_half st' = send_half st) (heap s !! l) (heap s' !! l).
Proof.
  intros []. apply (f_equal (fun m => m !! l)) in qt_heap0. rewrite !lookup_fmap in qt_heap0.
  destruct (heap s !! l), (heap s' !! l); simpl in *; try done; constructor. by apply (inj Some).
Qed.

Lemma quiet_queues s s' : quiet s s' ->
  exists w, queues s' = (queues s) <| receive_windows := w |> /\ w ⊆ receive_windows (queues s).
Proof. intros []. eauto. Qed.

Lemma quiet_is_Some s s' l : quiet s s' -> is_Some (heap s' !! l) <-> is_Some (heap s !! l).
Proof. intros H. by destruct (quiet_heap _ _ l H). Qed.

Lemma send_half_eq st st' : send_half st' = send_half st ->
  st_sent st' = st_sent st /\ st_peer_limit st' = st_peer_limit st /\ send_terminal st' = send_terminal st /\
  send_dispatched st' = send_dispatched st /\ reset_queued st' = reset_queued st /\
  send_complete st' = send_complete st.
Proof. unfold send_half. intros H. split_and!; congruence. Qed.

(** The queues that matter to a stream. *)
Record same_queue (id : Z) q q' : Prop := {
  sq_queue : by_stream q' !! id = by_stream q !! id;
  sq_control : filter (fun f => is_reset id f = true) (control q') = filter (fun f => is_reset id f = true) (control q);
  sq_abort : abortive q' = abortive q
}.

Lemma existsb_filter {A} (p : A -> bool) l :
  existsb p l = match filter (fun a => p a = true) l with [] => false | _ => true end.
Proof.
  induction l as [|a l IH]; simpl; [done|]. destruct (p a) eqn:E; simpl.
  - by rewrite filter_cons_True.
  - by rewrite filter_cons_False, IH by congruence.
Qed.

Lemma stream_sends_same g q q' id st st' : same_queue id q q' -> send_half st' = send_half st ->
  stream_sends g q id st -> stream_sends g q' id st'.
Proof.
  intros [Hq Hc Ha] (H1 & H2 & H3 & H4 & H5 & H6)%send_half_eq [].
  assert (Hr : existsb (is_reset id) (control q') = existsb (is_reset id) (control q)).
  { by rewrite !existsb_filter, Hc. }
  split; unfold queued_data, queue in *; rewrite ?H1, ?H3, ?H4, ?H5, ?H6, ?Hq, ?Hc, ?Hr, ?Ha; done.
Qed.

(** The writer's invariant, field by field of the sending half. *)
Lemma writer_inv_quiet s s' : quiet s s' -> windows_ok s' -> writer_inv s -> writer_inv s'.
Proof.
  intros Hq [Hw Hws] []. destruct (quiet_queues _ _ Hq) as (w & Hqs & Hsub).
  assert (Hsome : forall l, is_Some (heap s !! l) -> is_Some (heap s' !! l)) by (intros l; by apply quiet_is_Some).
  split; rewrite ?Hqs; simpl; try done.
  - intros id cs Hcs. eapply queue_ok_heap; [exact Hsome|by apply wi_queues].
  - intros l st' Hl. pose proof (quiet_heap _ _ l Hq) as Hh. rewrite Hl in Hh.
    inversion Hh as [st ? (H1 & H2 & _)%send_half_eq Heq|]; subst. destruct (wi_heap l st) as []; [done|].
    split; rewrite ?H1, ?H2; try done. by eapply Hws.
  - intros id l Hl. apply (wi_windows id l). by eapply lookup_weaken.
Qed.

Lemma names_ok_quiet names s s' : quiet s s' -> names_ok names s -> names_ok names s'.
Proof.
  intros Hq []. destruct (quiet_queues _ _ Hq) as (w & Hqs & Hsub). pose proof Hq as [].
  split; rewrite ?qt_parity0, ?qt_local0, ?qt_remote0, ?qt_next0; try done.
  - intros l. by rewrite (quiet_is_Some _ _ _ Hq).
  - intros id l Hl. apply nm_streams0. by eapply lookup_weaken.
  - intros id l Hl. apply nm_windows0. by eapply lookup_weaken.
  - rewrite Forall_forall in *. intros i Hi. apply nm_incoming0. by apply qt_incoming0.
  - rewrite Hqs. done.
Qed.

Lemma send_inv_quiet g s s' : quiet s s' -> windows_ok s' -> send_inv g s -> send_inv g s'.
Proof.
  intros Hq Hw []. destruct (quiet_queues _ _ Hq) as (w & Hqs & Hsub).
  split; try done; rewrite ?Hqs; simpl; try done.
  - by eapply writer_inv_quiet.
  - by eapply names_ok_quiet.
  - intros l id st' Hid Hl. pose proof (quiet_heap _ _ l Hq) as Hh. rewrite Hl in Hh.
    inversion Hh as [st ? Hst Heq|]; subst. by eapply (stream_sends_same g (queues s)); [|exact Hst|eapply sv_streams0].
  - intros Hc. apply (qt_closed _ _ Hq). auto.
  - rewrite (qt_max _ _ Hq). done.
Qed.

Lemma windows_of_inv g s : send_inv g s -> windows_ok s.
Proof. intros []. split; [apply sv_writer0|]. intros l st Hl. by destruct (wi_heap _ sv_writer0 _ _ Hl). Qed.

Lemma core_quiet s s' : s' ≈ s -> quiet s s'.
Proof.
  intros H. assert (Hp : forall {A} (p : ConnectionShared -> A), (forall x, p (core x) = p x) -> p s' = p s).
  { intros A p Hx. rewrite <- (Hx s'), <- (Hx s). by rewrite H. }
  split; try (apply Hp; done); try (by rewrite (Hp _ streams)); try (by rewrite (Hp _ incoming_streams));
    try (by rewrite (Hp _ queues)); try (by rewrite (Hp _ closed)).
  - rewrite (Hp _ queues) by done. by destruct (queues s).
  - apply (Hp _ (fun x => send_half <$> heap x)). intros x. simpl. rewrite <- map_fmap_compose. by apply map_fmap_ext.
Qed.

Lemma core_windows s s' : s' ≈ s -> windows_ok s -> windows_ok s'.
Proof.
  intros H [Hw Hs]. split.
  - by rewrite (core_eq_window _ _ H).
  - intros l st Hl. destruct (core_eq_heap _ _ _ _ H Hl) as (st' & Hl' & He).
    assert (Hx : st_window st = st_window st') by exact (f_equal st_window He). rewrite Hx. by eapply Hs.
Qed.

Lemma send_inv_core g s s' : s' ≈ s -> send_inv g s -> send_inv g s'.
Proof.
  intros H Hi. eapply send_inv_quiet; [by apply core_quiet| |exact Hi]. eapply core_windows; [done|by eapply windows_of_inv].
Qed.

(** ** Accepting data *)

(** Changing a stream state in ways the writer does not see. *)
Lemma writer_inv_upd s l u : (forall st, st_sent (u st) = st_sent st /\ st_peer_limit (u st) = st_peer_limit st /\
    st_window (u st) = st_window st) -> writer_inv s -> writer_inv (s <| heap ::= alter u l |>).
Proof.
  intros Hu []. split; simpl; try done.
  - intros id cs Hcs. eapply queue_ok_heap; [|by apply wi_queues]. intros k. apply alter_is_Some.
  - intros k st Hk. destruct (decide (l = k)) as [<-|]; [|rewrite lookup_alter_ne in Hk by done; by eapply wi_heap].
    rewrite lookup_alter_eq in Hk. destruct (heap s !! l) as [st0|] eqn:E; [|done]. apply (inj Some) in Hk. subst st.
    destruct (wi_heap _ _ E). destruct (Hu st0) as (H1 & H2 & H3). split; by rewrite ?H1, ?H2, ?H3.
Qed.

Lemma names_ok_upd names s l u : names_ok names s -> names_ok names (s <| heap ::= alter u l |>).
Proof.
  intros []. split; simpl; try done. intros k. rewrite <- nm_dom0. split; [|apply alter_is_Some].
  intros [st Hk]. destruct (decide (l = k)) as [<-|]; [|by rewrite lookup_alter_ne in Hk].
  rewrite lookup_alter_eq in Hk. by destruct (heap s !! l).
Qed.

Definition accept (id : Z) (b : bytes) g : Ghost := g <| g_accepted := <[id := accepted g id ++ b]> (g_accepted g) |>.

Lemma accepted_accept id b g id' : accepted (accept id b g) id' = if decide (id = id') then accepted g id ++ b else accepted g id'.
Proof.
  unfold accepted, accept. simpl. case_decide as H; [subst; by rewrite lookup_insert_eq|by rewrite lookup_insert_ne].
Qed.

(** The stream that accepted a chunk. *)
Lemma stream_sends_enqueue g q id c st (fin : bool) :
  stream_sends g q id st -> send_terminal st = false -> abortive q = false -> oc_fin c = fin ->
  stream_sends (accept id (oc_payload c) g)
    (q <| by_stream ::= insert id (queue q id ++ [c]) |>
       <| ready ::= (fun r => if match queue q id with [] => true | _ => false end then r ++ [id] else r) |>) id
    (if fin then end_send st else st).
Proof.
  intros [] Hterm Hab Hfin.
  assert (Ho : send_dispatched st = false /\ reset_queued st = false).
  { apply orb_false_iff. destruct (send_dispatched st || reset_queued st) eqn:E; [|done].
    destruct (ss_over0 eq_refl). congruence. }
  destruct Ho as [Hd Hr].
  assert (Hsame : forall A (p : StreamState -> A), p (end_send st) = p st -> p (if fin then end_send st else st) = p st).
  { intros A p Hp. by destruct fin. }
  assert (H1 : send_dispatched (if fin then end_send st else st) = send_dispatched st) by (by apply Hsame).
  assert (H2 : reset_queued (if fin then end_send st else st) = reset_queued st) by (by apply Hsame).
  assert (H3 : st_sent (if fin then end_send st else st) = st_sent st) by (by apply Hsame).
  pose proof (ss_data0 Hr Hab) as Hdata.
  split; rewrite ?H1, ?H2, ?H3, ?Hd, ?Hr; try done; simpl.
  - unfold queue. simpl. rewrite lookup_insert_eq. simpl. rewrite existsb_snoc, Hfin. intros [Hq|Hf]%orb_true_iff.
    + apply ss_fin_queued0 in Hq. congruence.
    + by rewrite Hf.
  - rewrite Hr in *. done.
  - rewrite Hr in *. done.
  - by rewrite ss_fin_sent0.
  - rewrite accepted_accept, decide_True by done. by apply prefix_app_r.
  - intros _ _. rewrite accepted_accept, decide_True by done. unfold queued_data, queue at 1. simpl. rewrite lookup_insert_eq. simpl.
    rewrite map_app, concat_app. simpl. rewrite app_nil_r, Hdata, app_assoc. done.
  - rewrite (Hsame _ send_complete eq_refl). intros Hcm. apply ss_completed0 in Hcm. by rewrite Hd, Hr in Hcm.
Qed.

(** Ghost changes that a stream does not see. *)
Lemma stream_sends_ghost g g' q id st : g_trace g' = g_trace g -> accepted g' id = accepted g id ->
  stream_sends g q id st -> stream_sends g' q id st.
Proof. intros Ht Ha []. split; rewrite ?Ht, ?Ha; done. Qed.

Lemma queue_send_fields f c s : let q := queues s in let id := sf_stream_id f in
  queues (queue_send f c s) = q <| by_stream ::= insert id (queue q id ++ [c]) |>
       <| ready ::= (fun r => if match queue q id with [] => true | _ => false end then r ++ [id] else r) |> /\
  heap (queue_send f c s) = if sf_fin f then alter end_send (sf_state f) (heap s) else heap s.
Proof. unfold queue_send, queue. by destruct (sf_fin f). Qed.

Lemma send_inv_enqueue g s f c st :
  send_inv g s -> g_names g !! sf_state f = Some (sf_stream_id f) -> chunk_of f c -> checked s f ->
  closing (queues s) = false -> heap s !! sf_state f = Some st -> send_terminal st = false ->
  send_inv (accept (sf_stream_id f) (sf_payload f) g) (queue_send f c s).
Proof.
  intros Hi Hn [] [Hck _] Hcl Hst Hterm. pose proof Hi as []. destruct (queue_send_fields f c s) as [Hq Hh].
  assert (Hab : abortive (queues s) = false) by (unfold abortive; by rewrite Hcl).
  pose proof (nm_range _ _ sv_names0 _ _ Hn) as Hid.
  pose proof (sv_streams0 _ _ _ Hn Hst) as Hss.
  assert (Hc : chunk_ok (heap s) (sf_stream_id f) c).
  { split; rewrite ?cf_id, ?cf_state, ?cf_payload, ?cf_fin, ?cf_conn, ?cf_bytes; simpl; (done || lia). }
  assert (Hnofin : existsb oc_fin (queue (queues s) (sf_stream_id f)) = false).
  { destruct (existsb _ _) eqn:E; [|done]. apply (ss_fin_queued _ _ _ _ Hss) in E. congruence. }
  split; try done; rewrite ?Hq; simpl; try done.
  - unfold queue_send. destruct (sf_fin f); [apply writer_inv_upd; [done|]|]; by apply writer_inv_enqueue.
  - assert (Hn1 : names_ok (g_names g) (set_queue (sf_stream_id f) (queue (queues s) (sf_stream_id f) ++ [c])
        (match queue (queues s) (sf_stream_id f) with [] => true | _ => false end) s)).
    { destruct sv_names0. split; simpl; try done. intros id cs [[<- <-]|[_ Hcs]]%lookup_insert_Some; [|by apply nm_chunks0].
      apply Forall_app. split; [|by constructor; [rewrite cf_state|]]. unfold queue.
      destruct (by_stream (queues s) !! sf_stream_id f) eqn:E; simpl; [by apply nm_chunks0|constructor]. }
    unfold queue_send. destruct (sf_fin f); [by apply names_ok_upd|done].
  - intros l id st' Hl Hst'. rewrite Hh in Hst'. destruct (decide (l = sf_state f)) as [->|Hne].
    + assert (id = sf_stream_id f) as -> by congruence. rewrite <- cf_payload.
      assert (Hst2 : st' = if sf_fin f then end_send st else st).
      { destruct (sf_fin f); [rewrite lookup_alter_eq, Hst in Hst'|rewrite Hst in Hst']; simpl in Hst'; congruence. }
      rewrite Hst2. by apply stream_sends_enqueue.
    + assert (Hst2 : heap s !! l = Some st') by (destruct (sf_fin f); [by rewrite lookup_alter_ne in Hst'|done]).
      assert (Hid' : sf_stream_id f <> id) by (intros <-; apply Hne; by eapply (nm_inj _ _ sv_names0)).
      eapply (stream_sends_same _ (queues s)); [split; simpl; try done; by rewrite lookup_insert_ne|reflexivity|].
      apply (stream_sends_ghost g); [done| |by eapply sv_streams0]. by rewrite accepted_accept, decide_False.
  - intros id b Hb. destruct (decide (sf_stream_id f = id)) as [<-|]; [by exists (sf_state f)|].
    rewrite lookup_insert_ne in Hb by done. by eapply sv_accepted0.
  - intros Ha. change (abortive (queues s) = true) in Ha. congruence.
  - unfold queue_send. destruct (sf_fin f); apply sv_closing0.
  - unfold queue_send. destruct (sf_fin f); apply sv_length0.
Qed.

(** ** Emitting frames *)

Definition emit (f : Frame) g : Ghost := g <| g_trace := g_trace g ++ [f] |>.

Lemma settings_first_snoc t f : settings_first t -> (t = [] -> is_settings f || is_close f = true) ->
  (t <> [] -> is_settings f = false) -> settings_first (t ++ [f]).
Proof.
  destruct t as [|f0 t]; simpl; intros H H0 H1; [split; [auto|constructor]|]. destruct H as [? ?]. split; [done|].
  apply Forall_app. split; [done|]. constructor; [by apply H1|done].
Qed.

(** A frame that belongs to no sending side. *)
Lemma stream_sends_other g q id st f : is_about id f = false -> stream_sends g q id st ->
  stream_sends (emit f g) q id st.
Proof.
  intros Hf []. pose proof (about_data _ _ Hf) as Hd.
  assert (Hr : is_reset id f = false) by (by destruct f). assert (Hn : is_fin id f = false) by (destruct f; try done; simpl in *; by rewrite Hf).
  assert (Hs : sent_data id (g_trace (emit f g)) = sent_data id (g_trace g)).
  { simpl. rewrite sent_data_app. unfold sent_data at 2. simpl. by rewrite Hd, !app_nil_r. }
  split; rewrite ?Hs; simpl; rewrite ?existsb_snoc, ?Hr, ?Hn, ?orb_false_r; done.
Qed.

(** What an emission leaves of the histories. *)
Record emits g s (f : Frame) : Prop := {
  em_known : forall id, is_about id f = true -> named g id;
  em_order : forall id, is_about id f = true -> existsb (is_end id) (g_trace g) = false;
  em_first : g_trace g = [] -> is_settings f || is_close f = true;
  em_rest : g_trace g <> [] -> is_settings f = false
}.

Lemma send_inv_emit g s s' f : send_inv g s -> emits g s f ->
  writer_inv s' -> names_ok (g_names g) s' ->
  (forall l id st, g_names g !! l = Some id -> heap s' !! l = Some st -> stream_sends (emit f g) (queues s') id st) ->
  (forall x, x ∈ control (queues s') -> x ∈ control (queues s) /\ is_settings x = false) ->
  abortive (queues s') = abortive (queues s) -> closing (queues s') = closing (queues s) ->
  (by_stream (queues s) = ∅ -> by_stream (queues s') = ∅) ->
  zlen (control (queues s')) <= zlen (control (queues s)) -> closed s' = closed s ->
  writer_max_control_frames s' = writer_max_control_frames s ->
  (peer_settings (queues s'), peer_limit (queues s'), peer_initial_stream_limit (queues s')) =
  (peer_settings (queues s), peer_limit (queues s), peer_initial_stream_limit (queues s)) -> send_inv (emit f g) s'.
Proof.
  intros [] [] Hw Hn Hst Hc Hab Hcl Hbs Hlen Hcd Hmax Hp. split; simpl; try done.
  - apply Forall_app. split; [done|]. by constructor.
  - rewrite Forall_forall in *. intros x Hx. by apply sv_control0, Hc.
  - by apply ordered_snoc.
  - by apply settings_first_snoc.
  - unfold settings_state. destruct (g_trace g); simpl; apply Forall_forall; intros x Hx; by apply Hc.
  - rewrite Hab. intros Ha. destruct (sv_abort0 Ha) as [H1 H2]. split; [auto|].
    destruct (control (queues s')) as [|x c]; [done|]. destruct (Hc x) as [Hx _]; [left|]. rewrite H2 in Hx. by inv Hx.
  - rewrite Hcl, Hcd. done.
  - rewrite Hmax. lia.
  - injection Hp as -> -> ->. done.
Qed.

(** Before the first frame the control queue starts with SETTINGS. *)
Lemma trace_started g s : send_inv g s -> abortive (queues s) = false ->
  (forall f, head (control (queues s)) = Some f -> is_urgent f = false) -> g_trace g <> [].
Proof.
  intros [] Hab Hu Ht. unfold settings_state in sv_settings0. rewrite Ht in sv_settings0.
  destruct (sv_settings0 Hab) as (f & c & Hc & Hf & _). rewrite Hc in Hu. specialize (Hu f eq_refl). by destruct f.
Qed.

Lemma settings_rest g s : send_inv g s -> g_trace g <> [] -> forall x, x ∈ control (queues s) -> is_settings x = false.
Proof.
  intros [] Ht. unfold settings_state in sv_settings0. destruct (g_trace g); [done|]. by rewrite Forall_forall in sv_settings0.
Qed.

Lemma named_state g s id : send_inv g s -> named g id ->
  exists l st, g_names g !! l = Some id /\ heap s !! l = Some st /\ stream_sends g (queues s) id st.
Proof.
  intros [] [l Hl]. destruct (proj2 (nm_dom _ _ sv_names0 l)) as [st Hst]; [by eexists|].
  exists l, st. split_and!; [done..|]. by eapply sv_streams0.
Qed.

Lemma is_end_split id t : existsb (is_end id) t = existsb (is_fin id) t || existsb (is_reset id) t.
Proof.
  induction t as [|f t IH]; simpl; [done|]. rewrite IH. unfold is_end.
  destruct (is_fin id f), (is_reset id f), (existsb (is_fin id) t), (existsb (is_reset id) t); done.
Qed.

(** A frame of the control queue. *)
Lemma stream_sends_control g q id st f rest turn : stream_sends g q id st -> control q = f :: rest ->
  Limits.is_control f = true -> stream_sends (emit f g) (q <| control := rest |> <| control_turn := turn |>) id st.
Proof.
  intros Hss Hc Hf. destruct (is_about id f) eqn:Hab.
  - assert (Hr : is_reset id f = true) by (destruct f; try done; simpl in *; done).
    assert (Hd : frame_data id f = []) by (by destruct f).
    assert (Hn : is_fin id f = false) by (by destruct f).
    destruct Hss. rewrite Hc in *. simpl in *. rewrite Hr in *. destruct ss_reset_queued0 as [Hq Ht]; [done|].
    rewrite filter_cons_True in ss_reset_once0 by done. simpl in ss_reset_once0.
    assert (Hno : filter (fun x => is_reset id x = true) rest = []) by (apply nil_length_inv; lia).
    assert (Hs : sent_data id (g_trace g ++ [f]) = sent_data id (g_trace g)).
    { rewrite sent_data_app. unfold sent_data at 2. simpl. by rewrite Hd, !app_nil_r. }
    split; simpl; rewrite ?existsb_snoc, ?Hs, ?Hn, ?Hr, ?orb_false_r, ?Hno; try done; try (simpl; lia).
    by rewrite existsb_filter, Hno.
  - apply stream_sends_other; [done|]. eapply (stream_sends_same _ q); [|reflexivity|done].
    split; simpl; try done. rewrite Hc, filter_cons_False; [done|]. destruct f; try done. simpl in *. congruence.
Qed.

Lemma send_inv_control g s f rest turn : send_inv g s -> control (queues s) = f :: rest -> abortive (queues s) = false ->
  send_inv (emit f g) (s <| queues ::= (fun q => q <| control := rest |> <| control_turn := turn |>) |>).
Proof.
  intros Hi Hc Hab. pose proof Hi as []. pose proof (wi_control _ sv_writer0) as Hco. rewrite Hc in Hco.
  apply Forall_cons in Hco as [[Hf Hwf] Hrest].
  assert (Hset : Forall (fun x => is_settings x = false) rest /\ (g_trace g = [] -> is_settings f = true) /\
                 (g_trace g <> [] -> is_settings f = false)).
  { unfold settings_state in sv_settings0. rewrite Hc in sv_settings0. destruct (g_trace g).
    - destruct (sv_settings0 Hab) as (f' & c & Heq & ? & ?). simplify_eq. done.
    - apply Forall_cons in sv_settings0 as [? ?]. done. }
  destruct Hset as (Hnone & Hfirst & Hlater).
  eapply (send_inv_emit g s); try done; simpl.
  - split; [|..|done].
    + rewrite Hc in sv_control0. by apply Forall_cons in sv_control0 as [? _].
    + intros id Hid. destruct (named_state g s id Hi) as (l & st & _ & _ & Hss).
      { rewrite Hc in sv_control0. apply Forall_cons in sv_control0 as [Hk _]. by apply Hk. }
      assert (Hr : is_reset id f = true) by (destruct f; try done; simpl in *; done).
      destruct Hss. destruct ss_reset_queued0 as [Hq Ht]; [rewrite Hc; simpl; by rewrite Hr|].
      rewrite is_end_split, ss_fin_sent0, Ht, orb_false_r. by rewrite Hq, andb_true_r in ss_one_end0.
    + intros Ht. by rewrite (Hfirst Ht).
  - destruct sv_writer0. by split.
  - destruct sv_names0. by split.
  - intros l id st Hl Hst. apply stream_sends_control; [by eapply sv_streams0|done..].
  - intros x Hx. rewrite Hc. split; [by right|]. rewrite Forall_forall in Hnone. by apply Hnone.
  - rewrite Hc, zlen_cons. lia.
Qed.

(** Frames of no queue: credit and CLOSE. *)
Lemma send_inv_free g s s' f turn (k : option Frame) : send_inv g s ->
  (forall id, is_about id f = false) -> is_settings f = false -> (g_trace g = [] -> is_close f = true) ->
  writer_inv s' -> send_half <$> heap s' = send_half <$> heap s ->
  s' = s <| heap := heap s' |> <| receive_window := receive_window s' |>
         <| queues ::= (fun q => q <| control_turn := turn |> <| close_frame := k |>) |> ->
  (g_trace g = [] -> control (queues s) = []) ->
  send_inv (emit f g) s'.
Proof.
  intros Hi Hab Hset Hcl Hw Hh Hs Hc. pose proof Hi as [].
  assert (Hq : quiet (s <| queues ::= (fun q => q <| control_turn := turn |> <| close_frame := k |>) |>) s').
  { rewrite Hs. by split. }
  eapply (send_inv_emit g s); try done; try (by rewrite Hs).
  - split; try (intros id Hid; by rewrite Hab in Hid).
    + intros Ht. rewrite (Hcl Ht). apply orb_true_r.
    + done.
  - eapply names_ok_quiet; [exact Hq|]. destruct sv_names0. by split.
  - intros l id st Hl Hst. apply stream_sends_other; [done|]. pose proof (quiet_heap _ _ l Hq) as Hx. rewrite Hst in Hx.
    inversion Hx as [st0 ? Hst0 Heq|]; subst. eapply (stream_sends_same g (queues s)); [rewrite Hs; by split|exact Hst0|].
    by eapply sv_streams0.
  - rewrite Hs. simpl. intros x Hx. split; [done|]. destruct (decide (g_trace g = [])) as [Ht|Ht].
    + rewrite Hc in Hx by done. by inv Hx.
    + by eapply settings_rest.
Qed.

(** A frame of data. *)
Lemma queue_sent id c rest n q : queue (sent_queues id c rest n q) id = queue_left c rest n /\
  forall id', id' <> id -> by_stream (sent_queues id c rest n q) !! id' = by_stream q !! id'.
Proof.
  unfold queue, sent_queues. simpl. destruct (queue_left c rest n); split; intros; simplify_map_eq; done.
Qed.

Lemma left_data c rest n :
  concat (map oc_payload (c :: rest)) = sent_payload c n ++ concat (map oc_payload (queue_left c rest n)).
Proof.
  unfold queue_left, sent_payload, payload_left. simpl. destruct (zlen _ =? 0) eqn:E; simpl.
  - apply zlen_eqb_nil in E. rewrite <- (take_drop (Z.to_nat n) (oc_payload c)) at 1. by rewrite E, app_nil_r.
  - by rewrite app_assoc, take_drop.
Qed.

Lemma stream_sends_data g s pre id post c rest st : writer_inv s -> sends s pre id post c rest st ->
  abortive (queues s) = false -> stream_sends g (queues s) id st ->
  let n := send_count (queues s) st c in
  stream_sends (emit (Stream (oc_stream_id c) (sent_fin c n) (sent_payload c n)) g)
    (sent_queues id c rest n (queues s)) id (sent_stream c n st).
Proof.
  intros Hw Hsd Hab Hss n. destruct (queue_sent id c rest n (queues s)) as [Hq _].
  destruct (send_fits _ _ _ _ _ _ _ Hw Hsd) as (Hlen & _). fold n in Hlen. destruct Hsd.
  destruct (wi_queues _ Hw _ _ sd_queue) as [_ Hcs [Hfl _]]. apply Forall_cons in Hcs as [[Hid _ _ _] _].
  pose proof Hss as [].
  assert (Hlive : send_dispatched st = false /\ reset_queued st = false).
  { apply orb_false_iff. destruct (send_dispatched st || reset_queued st) eqn:E; [|done].
    destruct (ss_over0 eq_refl). congruence. }
  destruct Hlive as [Hd Hr]. pose proof (ss_data0 Hr Hab) as Hdata. unfold queued_data, queue in Hdata.
  rewrite sd_queue in Hdata. simpl default in Hdata. rewrite (left_data c rest n) in Hdata.
  assert (Hfin : sent_fin c n = true -> send_terminal st = true /\ queue_left c rest n = []).
  { unfold sent_fin, queue_left. intros [Hf Hz]%andb_true_iff. rewrite Hz. split; [|by apply Hfl].
    apply ss_fin_queued0. unfold queue. rewrite sd_queue. simpl. by rewrite Hf. }
  assert (Hs : sent_data id (g_trace g ++ [Stream (oc_stream_id c) (sent_fin c n) (sent_payload c n)])
               = sent_data id (g_trace g) ++ sent_payload c n).
  { rewrite sent_data_app. unfold sent_data at 2. simpl. by rewrite bool_decide_true, app_nil_r. }
  unfold sent_stream. split; simpl; rewrite ?existsb_snoc, ?Hs, ?Hd, ?Hr; simpl; rewrite ?orb_false_r; try done.
  - rewrite Hq. intros Hf. apply ss_fin_queued0. unfold queue. rewrite sd_queue. simpl.
    unfold queue_left in Hf. destruct (zlen _ =? 0); simpl in Hf; [by rewrite Hf, orb_true_r|done].
  - intros Hf. destruct (Hfin Hf) as [? Hl]. split; [done|]. unfold sent_queues. rewrite Hl. apply lookup_delete_eq.
  - by rewrite andb_false_r.
  - intros Hc. destruct (ss_reset_queued0 Hc). congruence.
  - rewrite Hr in ss_reset_sent0. intros H. by apply ss_reset_sent0.
  - by rewrite ss_fin_sent0, Hd, bool_decide_true.
  - rewrite zlen_app, Hlen. lia.
  - change (accepted (emit _ g) id) with (accepted g id). rewrite Hdata, app_assoc. by eexists.
  - intros _ _. change (accepted (emit _ g) id) with (accepted g id). unfold queued_data. by rewrite Hq, Hdata, app_assoc.
  - intros Hf. destruct (Hfin Hf) as [_ Hl]. change (accepted (emit _ g) id) with (accepted g id).
    by rewrite Hdata, Hl, app_nil_r.
  - intros Hcm. apply ss_completed0 in Hcm. by rewrite Hd, Hr in Hcm.
Qed.

Lemma queue_left_state c rest n names (id : Z) : Forall (fun x => names !! oc_state x = Some id) (c :: rest) ->
  Forall (fun x : OutboundChunk => (names : gmap loc Z) !! oc_state x = Some id) (queue_left c rest n).
Proof. intros [Hc Hr]%Forall_cons. unfold queue_left. destruct (_ =? 0); [done|]. by constructor. Qed.

Lemma names_ok_sent names s pre id post c rest st n : names_ok names s -> sends s pre id post c rest st ->
  names_ok names (sent_state id c rest n (with_ready s (post ++ pre))).
Proof.
  intros Hn Hsd. unfold sent_state. apply names_ok_upd. destruct Hn, Hsd. split; simpl; try done.
  intros i cs Hcs. pose proof (queue_left_state c rest n names id (nm_chunks0 _ _ sd_queue)) as Hl.
  destruct (queue_left c rest n).
  - apply lookup_delete_Some in Hcs as [_ Hcs]. by apply nm_chunks0.
  - apply lookup_insert_Some in Hcs as [[<- <-]|[_ Hcs]]; [done|by apply nm_chunks0].
Qed.

Lemma send_inv_data g s pre id post c rest st : send_inv g s -> sends s pre id post c rest st ->
  abortive (queues s) = false -> (forall f, head (control (queues s)) = Some f -> is_urgent f = false) ->
  let n := send_count (queues s) st c in
  send_inv (emit (Stream (oc_stream_id c) (sent_fin c n) (sent_payload c n)) g)
    (sent_state id c rest n (with_ready s (post ++ pre))).
Proof.
  intros Hi Hsd Hab Hu n. pose proof Hi as []. pose proof (trace_started g s Hi Hab Hu) as Ht.
  pose proof (wi_queues _ sv_writer0 _ _ (sd_queue _ _ _ _ _ _ _ Hsd)) as [_ Hcs _]. apply Forall_cons in Hcs as [[Hid _ _ _] _].
  pose proof (nm_chunks _ _ sv_names0 _ _ (sd_queue _ _ _ _ _ _ _ Hsd)) as Hn. apply Forall_cons in Hn as [Hn _].
  pose proof (sv_streams0 _ _ _ Hn (sd_state _ _ _ _ _ _ _ Hsd)) as Hss.
  eapply (send_inv_emit g s); try done.
  - split.
    + simpl. intros i Hi'. case_bool_decide; [|done]. exists (oc_state c). congruence.
    + simpl. intros i Hi'. case_bool_decide; [|done]. assert (i = id) as -> by congruence.
      destruct (existsb _ _) eqn:E; [|done]. rewrite is_end_split in E. apply orb_true_iff in E.
      assert (Hov : send_dispatched st || reset_queued st = true).
      { destruct E as [E|E].
        - rewrite (ss_fin_sent _ _ _ _ Hss) in E. by rewrite E.
        - rewrite (ss_reset_sent _ _ _ _ Hss E). apply orb_true_r. }
      destruct (ss_over _ _ _ _ Hss Hov) as [_ Hnone]. rewrite (sd_queue _ _ _ _ _ _ _ Hsd) in Hnone. done.
    + done.
    + done.
  - by apply (writer_inv_sent s pre id post c rest st).
  - by eapply names_ok_sent.
  - intros l i st' Hl Hst'. simpl in Hst'. destruct (decide (oc_state c = l)) as [<-|Hne].
    + rewrite lookup_alter_eq, (sd_state _ _ _ _ _ _ _ Hsd) in Hst'. apply (inj Some) in Hst'. subst st'.
      assert (i = id) as -> by congruence.
      eapply (stream_sends_same _ (sent_queues id c rest n (queues s))); [by split|reflexivity|].
      by apply (stream_sends_data g s pre id post c rest st).
    + rewrite lookup_alter_ne in Hst' by done.
      assert (Hi' : i <> id) by (intros ->; apply Hne; by eapply (nm_inj _ _ sv_names0)).
      apply stream_sends_other; [simpl; apply bool_decide_false; congruence|].
      eapply (stream_sends_same g (queues s)); [|reflexivity|by eapply sv_streams0].
      destruct (queue_sent id c rest n (queues s)) as [_ Hq]. split; simpl; try done. apply (Hq i Hi').
  - simpl. intros x Hx. split; [done|]. by eapply settings_rest.
  - intros He. exfalso. pose proof (sd_queue _ _ _ _ _ _ _ Hsd) as Hq. by rewrite He in Hq.
Qed.

(** The writer keeps the invariant. *)
Definition emit_poll (p : Poll (option Frame)) g : Ghost :=
  match p with Ready (Some f) => emit f g | _ => g end.

Lemma send_inv_turn g s turn (k : option Frame) : send_inv g s -> (k = None \/ k = close_frame (queues s)) ->
  send_inv g (s <| queues ::= (fun q => q <| control_turn := turn |> <| close_frame := k |>) |>).
Proof.
  intros [] Hk. split; try done.
  - destruct sv_writer0. split; try done. simpl. intros f Hf. apply wi_close. destruct Hk as [->| ->]; [done|done].
  - destruct sv_names0. by split.
  - intros l id st Hl Hst. eapply (stream_sends_same g (queues s)); [by split|reflexivity|]. by eapply sv_streams0.
Qed.

Lemma send_inv_outcome g s p s' : send_inv g s -> outcome s p s' -> send_inv (emit_poll p g) s'.
Proof.
  intros Hi Ho. pose proof (outcome_inv _ _ _ (sv_writer _ _ Hi) Ho) as Hw.
  destruct Ho as [f rest Hab Hc _|Hab Hc _ Hn|id l st Hab Hc _ _ _ Hl _ Hn|pre id post c rest st s' Hab _ Hu Hsd n Hs' _|
    turn Hcl|_ _ _ _]; simpl emit_poll.
  - by apply send_inv_control.
  - assert (Ht : g_trace g <> []) by (eapply trace_started; [done..|]; by rewrite Hc).
    by eapply (send_inv_free g s _ _ false (close_frame (queues s))).
  - assert (Ht : g_trace g <> []) by (eapply trace_started; [done..|]; by rewrite Hc).
    eapply (send_inv_free g s _ _ false (close_frame (queues s))); try done.
    by apply fmap_alter_same.
  - eapply send_inv_core; [exact Hs'|]. by apply send_inv_data.
  - destruct (close_frame (queues s)) as [f|] eqn:Hf; simpl.
    + destruct (fit_close_cut s f (sv_writer _ _ Hi) Hf) as (c & r0 & r & -> & -> & _).
      assert (Hctl : control (queues s) = []).
      { destruct Hcl as [Hab|[? ? [Hc _ _]]]; [|done]. by apply (sv_abort _ _ Hi). }
      by eapply (send_inv_free g s _ _ turn None).
    + exact (send_inv_turn g s turn None Hi (or_introl eq_refl)).
  - pose proof (send_inv_turn g s true (close_frame (queues s)) Hi (or_intror eq_refl)) as Hi'.
    destruct s as [? ? ? ? ? ? ? q]. by destruct q.
Qed.

End inv.
