(* ===== verification/SendOps.v ===== *)
(** Every operation of the connection keeps the invariant of the sending half and its
    ledger: the calls of the application, the frames of the peer, the tasks. *)

From S2P Require Import Prelude Hoare Buf Varint Utf8 Frames Errors Limits Flow Tokio.
From S2P Require Import ConnState Inbound InboundSpec Writer WriterSpec Scheduler Connection Streams Tasks.
From S2P Require Import ConnectionSpec Ledger SendSpec SendInv.

#[local] Open Scope Z_scope.

Section ops.
Context {TK : Tokio} {TKL : TokioLaws TK} {HI : HashIter} {HIL : HashIterLaws HI}.
Implicit Types (s : ConnectionShared) (st : StreamState) (q : WriterQueues) (g : Ghost) (hs : list Hold).
Infix "≈" := core_eq (at level 70).

(** ** The queued chunks *)

Definition chunks_in (m : gmap Z (list OutboundChunk)) : list OutboundChunk := concat (map snd (map_to_list m)).

#[export] Instance concat_perm {A} : Proper ((≡ₚ) ==> (≡ₚ)) (@concat A).
Proof. induction 1; simpl; [done|by f_equiv|by rewrite Permutation_app_swap_app|by etransitivity]. Qed.

Lemma chunks_delete m id cs : m !! id = Some cs -> chunks_in m ≡ₚ cs ++ chunks_in (delete id m).
Proof. intros H. unfold chunks_in. by rewrite <- (map_to_list_delete m id cs H). Qed.

Lemma chunks_insert m id cs : chunks_in (<[id := cs]> m) ≡ₚ cs ++ chunks_in (delete id m).
Proof. rewrite (chunks_delete _ id cs) by apply lookup_insert_eq. by rewrite delete_insert_eq. Qed.

Lemma chunks_split m id : chunks_in m ≡ₚ default [] (m !! id) ++ chunks_in (delete id m).
Proof. destruct (m !! id) as [cs|] eqn:E; simpl; [by apply chunks_delete|by rewrite delete_id]. Qed.

Lemma chunks_hash m : concat (map snd (hash_iter m)) ≡ₚ chunks_in m.
Proof. unfold chunks_in. by rewrite hash_iter_perm. Qed.

(** What is held in a state when others hold [hs]. *)
Definition holds s hs : list Hold := map chunk_hold (chunks_in (by_stream (queues s))) ++ hs.

Lemma holds_enqueue f c s hs : holds (queue_send f c s) hs ≡ₚ chunk_hold c :: holds s hs.
Proof.
  unfold holds. destruct (queue_send_fields f c s) as [-> _]. simpl. rewrite chunks_insert.
  unfold queue. rewrite (chunks_split (by_stream (queues s)) (sf_stream_id f)), !map_app. simpl.
  rewrite <- !app_assoc. simpl. by rewrite <- Permutation_middle.
Qed.

(** ** The ledger of a step that sends data *)

(** Updates that move no permit. *)
Lemma ledger_upd s l u hs : (forall st, permit_half (u st) = permit_half st /\
    (send_terminal (u st) = false -> send_terminal st = false)) ->
  ledger s hs -> ledger (s <| heap ::= alter u l |>) hs.
Proof.
  intros Hu. apply ledger_same; try done. intros k st' Hk. simpl in Hk. destruct (decide (l = k)) as [<-|].
  - rewrite lookup_alter_eq in Hk. destruct (heap s !! l) as [st|]; [|done]. apply (inj Some) in Hk. subst st'.
    destruct (Hu st). by exists st.
  - rewrite lookup_alter_ne in Hk by done. by exists st'.
Qed.

Lemma ledger_wakes s w hs : ledger s hs -> ledger (s <| wakes ::= w |>) hs.
Proof. apply ledger_same; try done. intros l st Hl. by exists st. Qed.

Lemma ledger_queues s u hs : ledger s hs -> ledger (s <| queues ::= u |>) hs.
Proof. apply ledger_same; try done. intros l st Hl. by exists st. Qed.

Lemma upd_state_run l u s (r : Result Error unit) s' : upd_state l u s = (r, s') -> s' = s <| heap ::= alter u l |>.
Proof. unfold upd_state, modify. congruence. Qed.
Lemma upd_queues_run u s (r : Result Error unit) s' : upd_queues u s = (r, s') -> s' = s <| queues ::= u |>.
Proof. unfold upd_queues, modify. congruence. Qed.

Lemma get_queues_run s r s' : get_queues s = (r, s') -> s' = s.
Proof. unfold get_queues, gets. congruence. Qed.
Lemma lift_run {A} (x : Result Error A) s r s' : lift x s = (r, s') -> s' = s.
Proof. unfold lift. congruence. Qed.
Lemma ret_run {A} (a : A) s (r : Result Error A) s' : (mret a : Conn A) s = (r, s') -> s' = s.
Proof. unfold mret, M_ret. congruence. Qed.

Lemma ledger_put_back s hs id cs n u s' : ledger s hs -> put_back id cs n s = (Ok u, s') -> ledger s' hs.
Proof.
  intros Hl Hrun. unfold put_back in Hrun. apply bind_inv in Hrun as (? & s1 & ->%upd_queues_run & Hrun).
  apply bind_inv in Hrun as (? & s2 & ->%get_queues_run & Hrun).
  apply bind_inv in Hrun as (? & s3 & ->%lift_run & ->%upd_queues_run). by apply ledger_queues, ledger_queues.
Qed.

Lemma ledger_send_data s hs id c rest n s' f : is_Some (heap s !! oc_state c) ->
  ledger s (map chunk_hold (c :: rest) ++ hs) -> send_data id c rest n s = (Ok f, s') ->
  ledger s' (map chunk_hold (queue_left c rest n) ++ hs).
Proof.
  intros Hlive Hl Hrun. unfold send_data in Hrun. set (Inv x := ledger x (map chunk_hold (c :: rest) ++ hs) /\ is_Some (heap x !! oc_state c)).
  assert (Hupd : forall x u, Inv x -> (forall st, permit_half (u st) = permit_half st /\ send_terminal (u st) = send_terminal st) ->
    Inv (x <| heap ::= alter u (oc_state c) |>)).
  { intros x u [Hlx Hx] Hu. split; [apply ledger_upd; [|done]; intros st; destruct (Hu st) as [? ->]; done|by apply alter_is_Some]. }
  assert (Hi0 : Inv s) by (by split).
  apply bind_inv in Hrun as (u1 & s1 & ->%upd_state_run & Hrun). apply bind_inv in Hrun as (u2 & s2 & H2 & Hrun).
  assert (Hi2 : Inv s2).
  { unfold when in H2. destruct (_ && _) in H2.
    - apply upd_state_run in H2 as ->. apply Hupd; [apply Hupd|]; done.
    - apply ret_run in H2 as ->. by apply Hupd. }
  clear H2. destruct Hi2 as [Hl2 Hlive2]. apply bind_inv in Hrun as (u3 & s3 & H3 & Hrun).
  assert (Hl3 : ledger s3 (map chunk_hold (queue_left c rest n) ++ hs)).
  { unfold queue_left, payload_left. unfold when in H3. destruct (zlen _ =? 0).
    - assert (Hw : wp (drop_outbound c) s2 (fun _ s' => tally s2 (map chunk_hold rest ++ hs) s') (fun _ _ => False)).
      { apply (wp_drop_chunk s2 c (map chunk_hold rest ++ hs)); [exact Hlive2|exact (tally_refl _ _ Hl2)|done]. }
      apply (wp_run _ _ _ _ _ _ H3 Hw).
    - apply ret_run in H3 as ->. exact Hl2. }
  apply bind_inv in Hrun as (u4 & s4 & H4 & ->%ret_run). by eapply ledger_put_back.
Qed.

Lemma holds_queue s hs id cs : by_stream (queues s) !! id = Some cs ->
  holds s hs ≡ₚ map chunk_hold cs ++ (map chunk_hold (chunks_in (delete id (by_stream (queues s)))) ++ hs).
Proof. intros H. unfold holds. by rewrite (chunks_delete _ _ _ H), map_app, app_assoc. Qed.

Lemma ledger_outcome s hs p s' : writer_inv s -> ledger s (holds s hs) -> outcome s p s' -> ledger s' (holds s' hs).
Proof.
  intros Hw Hl Ho. destruct Ho as [f rest _ _ _| _ _ _ _|id l st _ _ _ _ _ Hst _ _|pre id post c rest st s' _ _ _ Hsd n Hs' Hrun|
    turn _|_ _ _ _]; try (by apply ledger_queues).
  - change (ledger (s <| receive_window ::= ReceiveWindow.raised |> <| queues ::= (fun q => q <| control_turn := false |>) |>) (holds s hs)).
    apply ledger_queues. eapply ledger_same; [..|exact Hl]; try done. intros l st Hst. by exists st.
  - change (ledger (s <| heap ::= alter raise_window l |> <| queues ::= (fun q => q <| control_turn := false |>) |>) (holds s hs)).
    by apply ledger_queues, ledger_upd.
  - pose proof (sd_queue _ _ _ _ _ _ _ Hsd) as Hq. rewrite (holds_queue _ _ _ _ Hq) in Hl.
    assert (Hh : holds s' hs ≡ₚ map chunk_hold (queue_left c rest n) ++
                   (map chunk_hold (chunks_in (delete id (by_stream (queues s)))) ++ hs)).
    { unfold holds. rewrite (core_eq_queues _ _ Hs'). simpl. destruct (queue_left c rest n) as [|d cs]; [done|].
      by rewrite chunks_insert, map_app, app_assoc. }
    rewrite Hh. eapply (ledger_send_data (with_ready s (post ++ pre))); [|by apply ledger_queues|exact Hrun].
    simpl. rewrite (sd_state _ _ _ _ _ _ _ Hsd). by eexists.
Qed.


(** ** The whole invariant *)

Section system.
Context (lim : Limits).

(** The sending half of a connection with limits [lim], when sends hold [hs]. *)
Record full g hs s : Prop := {
  fu_inv : send_inv g s;
  fu_ledger : ledger s (holds s hs);
  fu_limits : limits s = lim
}.

(** Steps that do not concern the sending half. *)
Record silent s s' : Prop := {
  sn_quiet : quiet s s';
  sn_limits : limits s' = limits s;
  sn_conn : outbound_conn_bytes s' = outbound_conn_bytes s;
  sn_frames : outbound_frames s' = outbound_frames s;
  sn_closed : closed s' = closed s;
  sn_open : is_closed (open_streams s') = is_closed (open_streams s);
  sn_permits : permit_half <$> heap s' = permit_half <$> heap s
}.

Lemma full_silent g hs s s' : silent s s' -> windows_ok s' -> full g hs s -> full g hs s'.
Proof.
  intros [Hq Hl Hc Hf Hcl _ Hp] Hw [Hi Hg Hlm]. split; [by eapply send_inv_quiet| |congruence].
  assert (Hh : holds s' hs = holds s hs).
  { unfold holds. by destruct (quiet_queues _ _ Hq) as (w & -> & _). }
  rewrite Hh. eapply ledger_same; [done..| | |exact Hg]; [by rewrite Hcl|].
  intros l st' Hl'. pose proof (quiet_heap _ _ l Hq) as Hx. rewrite Hl' in Hx.
  inversion Hx as [st ? (_ & _ & Ht & _)%send_half_eq Heq|]; subst. exists st. split_and!; [done| |congruence].
  assert (Hy : permit_half <$> heap s' !! l = permit_half <$> heap s !! l) by (by rewrite <- !lookup_fmap, Hp).
  rewrite Hl', <- Heq in Hy. by apply (inj Some) in Hy.
Qed.

Lemma full_windows g hs s : full g hs s -> windows_ok s.
Proof. intros []. by eapply windows_of_inv. Qed.

Definition untouched u : Prop := forall st,
  send_half (u st) = send_half st /\ permit_half (u st) = permit_half st /\ st_window (u st) = st_window st.

Lemma silent_upd s l u : untouched u -> silent s (s <| heap ::= alter u l |>).
Proof.
  intros Hu. split; try done; [split; try done|].
  - simpl. by destruct (queues s).
  - apply fmap_alter_same. apply Hu.
  - apply fmap_alter_same. intros st. apply Hu.
Qed.

Lemma windows_upd s l u : (forall st, st_window (u st) = st_window st) -> windows_ok s -> windows_ok (s <| heap ::= alter u l |>).
Proof.
  intros Hu [Hw Hs]. split; [done|]. simpl. intros k st Hk. destruct (decide (l = k)) as [<-|].
  - rewrite lookup_alter_eq in Hk. destruct (heap s !! l) as [st0|] eqn:E; [|done]. apply (inj Some) in Hk. subst st.
    rewrite Hu. by eapply Hs.
  - rewrite lookup_alter_ne in Hk by done. by eapply Hs.
Qed.

Lemma full_upd g hs s l u : untouched u -> full g hs s -> full g hs (s <| heap ::= alter u l |>).
Proof.
  intros Hu Hf. eapply full_silent; [by apply silent_upd| |exact Hf]. apply windows_upd; [apply Hu|by eapply full_windows].
Qed.

Lemma keeps_upd g hs l u : untouched u -> keeps (full g hs) (upd_state l u).
Proof. intros Hu s Hf. apply wp_modify. by apply full_upd. Qed.

(** A change of fields that play no role. *)
Lemma keeps_modify_silent g hs u : (forall s, silent s (u s)) -> (forall s, heap (u s) = heap s) ->
  (forall s, receive_window (u s) = receive_window s) -> keeps (full g hs) (modify u : Conn unit).
Proof.
  intros Hu Hh Hr s Hf. apply wp_modify. eapply full_silent; [apply Hu| |exact Hf].
  destruct (full_windows _ _ _ Hf). split; rewrite ?Hr, ?Hh; done.
Qed.

Lemma keeps_notify g hs w : keeps (full g hs) (notify w).
Proof. apply keeps_modify_silent; try done. intros s. split; try done. split; try done. simpl. by destruct (queues s). Qed.

(** ** The control queue *)

(** A frame that may be queued at any time. *)
Definition plain_control (f : Frame) : Prop :=
  control_ok f /\ is_settings f = false /\ forall id, is_about id f = false.

Definition push_control (f : Frame) s : ConnectionShared :=
  s <| queues ::= (fun q => q <| control ::= (fun c => c ++ [f]) |>) |>.

Lemma settings_state_push t q f : settings_state t q -> closing q = false -> is_settings f = false ->
  settings_state t (q <| control ::= (fun c => c ++ [f]) |>).
Proof.
  unfold settings_state. intros H Hc Hf. destruct t; simpl.
  - intros Ha. destruct (H Ha) as (x & c & -> & ? & ?). exists x, (c ++ [f]). split_and!; [done..|].
    apply Forall_app. split; [done|]. by constructor.
  - apply Forall_app. split; [done|]. by constructor.
Qed.

Lemma send_inv_push g s f : send_inv g s -> closing (queues s) = false ->
  zlen (control (queues s)) < writer_max_control_frames s -> plain_control f -> send_inv g (push_control f s).
Proof.
  intros [] Hcl Hlen (Hok & Hset & Hab). split; simpl; try done.
  - destruct sv_writer. split; simpl; try done. apply Forall_app. split; [done|]. by constructor.
  - destruct sv_names. by split.
  - intros l id st Hl Hst. eapply (stream_sends_same g (queues s)); [|reflexivity|by eapply sv_streams].
    split; simpl; try done. rewrite filter_app, filter_cons_False, filter_nil, app_nil_r; [done|].
    specialize (Hab id). destruct f; try done. simpl in *. congruence.
  - apply Forall_app. split; [done|]. constructor; [|done]. intros id Hid. by rewrite Hab in Hid.
  - by apply settings_state_push.
  - intros Ha. exfalso. unfold abortive in Ha. simpl in Ha. by rewrite Hcl in Ha.
  - rewrite zlen_app. unfold zlen at 2. simpl. lia.
Qed.

Lemma full_push g hs s f : full g hs s -> closing (queues s) = false ->
  zlen (control (queues s)) < writer_max_control_frames s -> plain_control f -> full g hs (push_control f s).
Proof.
  intros [] Hcl Hlen Hf. split; [by apply send_inv_push| |done]. by apply ledger_queues.
Qed.

Lemma keeps_enqueue_control g hs f : plain_control f -> keeps (full g hs) (enqueue_control f).
Proof.
  intros Hp s Hf. unfold enqueue_control, get_queues, upd_queues. wp_steps; try done.
  - apply keeps_notify. by apply full_push.
Qed.

(** A state reached up to permits. *)
Lemma full_core g hs t s : send_inv g t -> s ≈ t -> ledger s (holds t hs) -> limits t = lim -> full g hs s.
Proof.
  intros Hi Hc Hl Hlm. split; [by eapply send_inv_core| |].
  - unfold holds in *. by rewrite (core_eq_queues _ _ Hc).
  - rewrite <- Hlm. exact (f_equal limits Hc).
Qed.

Lemma core_eq_alter_ext s l u v : (forall st, core_stream (u st) = core_stream (v st)) ->
  s <| heap ::= alter u l |> ≈ s <| heap ::= alter v l |>.
Proof.
  intros Huv. unfold core_eq, core. simpl. f_equal. apply map_eq. intros i. rewrite !lookup_fmap.
  destruct (decide (l = i)) as [->|]; [rewrite !lookup_alter_eq|by rewrite !lookup_alter_ne].
  destruct (heap s !! i); simpl; by rewrite ?Huv.
Qed.

(** ** Resetting *)

Definition reset_send st : StreamState := st <| reset_queued := true |> <| send_terminal := true |>.
Definition reset_queues (id : Z) (f : Frame) q : WriterQueues :=
  q <| by_stream ::= delete id |> <| ready ::= filter (fun i => i <> id) |> <| control ::= (fun c => c ++ [f]) |>.
Definition reset_state (id : Z) (l : loc) (f : Frame) s : ConnectionShared :=
  s <| heap ::= alter reset_send l |> <| queues ::= reset_queues id f |>.

Lemma stream_sends_reset g q id code st : stream_sends g q id st ->
  send_dispatched st = false -> reset_queued st = false ->
  stream_sends g (reset_queues id (ResetStream (mkVarInt id) code) q) id (reset_send st).
Proof.
  intros [] Hd Hr.
  assert (Hc : existsb (is_reset id) (control q) = false).
  { apply not_true_iff_false. intros E. apply ss_reset_queued in E as [? _]. congruence. }
  assert (Ht : existsb (is_reset id) (g_trace g) = false).
  { apply not_true_iff_false. intros E. apply ss_reset_sent in E. congruence. }
  assert (Hn : filter (fun f => is_reset id f = true) (control q) = []).
  { rewrite existsb_filter in Hc. by destruct (filter _ _). }
  split; simpl; rewrite ?Hd, ?Hr, ?Ht; try done.
  - intros _. split; [done|]. apply lookup_delete_eq.
  - rewrite filter_app, Hn, filter_cons_True, filter_nil by (simpl; by rewrite bool_decide_true). simpl. lia.
  - congruence.
Qed.

Lemma writer_inv_reset s id l f : writer_inv s -> control_ok f -> writer_inv (reset_state id l f s).
Proof.
  intros Hw Hf. assert (Hw1 : writer_inv (s <| heap ::= alter reset_send l |>)) by (by apply writer_inv_upd).
  unfold reset_state. destruct Hw1. split; simpl in *; try done.
  - by apply NoDup_filter.
  - intros i. rewrite list_elem_of_filter, wi_dom. destruct (decide (i = id)) as [->|].
    + rewrite lookup_delete_eq. split; [naive_solver|by intros [? ?]].
    + rewrite lookup_delete_ne by done. naive_solver.
  - by apply map_Forall_delete.
  - apply Forall_app. split; [done|]. by constructor.
Qed.

Lemma send_inv_reset g s id l code st : send_inv g s -> g_names g !! l = Some id -> heap s !! l = Some st ->
  send_dispatched st = false -> reset_queued st = false -> closing (queues s) = false ->
  zlen (control (queues s)) < writer_max_control_frames s ->
  control_ok (ResetStream (mkVarInt id) code) -> send_inv g (reset_state id l (ResetStream (mkVarInt id) code) s).
Proof.
  intros Hi Hl Hst Hd Hr Hcl Hlen Hok. pose proof Hi as []. split; try done.
  - by apply writer_inv_reset.
  - unfold reset_state. pose proof (names_ok_upd _ _ l reset_send sv_names) as []. split; simpl in *; try done.
    intros i cs [_ Hcs]%lookup_delete_Some. by apply nm_chunks.
  - intros k i st' Hk Hst'. simpl in Hst'. destruct (decide (l = k)) as [<-|Hne].
    + rewrite lookup_alter_eq, Hst in Hst'. apply (inj Some) in Hst'. subst st'. assert (i = id) as -> by congruence.
      apply stream_sends_reset; [by eapply sv_streams|done..].
    + rewrite lookup_alter_ne in Hst' by done.
      assert (Hii : i <> id) by (intros ->; apply Hne; by eapply (nm_inj _ _ sv_names)).
      eapply (stream_sends_same g (queues s)); [|reflexivity|by eapply sv_streams]. split; simpl; try done.
      * by rewrite lookup_delete_ne.
      * rewrite filter_app, filter_cons_False, filter_nil, app_nil_r; [done|]. simpl. rewrite bool_decide_false; [done|congruence].
  - simpl. apply Forall_app. split; [done|]. constructor; [|done]. simpl. intros i Hi'. case_bool_decide; [|done].
    subst i. by exists l.
  - by apply (settings_state_push _ (queues s)).
  - intros Ha. exfalso. unfold abortive in Ha. simpl in Ha. by rewrite Hcl in Ha.
  - simpl. rewrite zlen_app. unfold zlen at 2. simpl. lia.
Qed.

(** The sending side of a stream is closed: its byte semaphore too. *)
Lemma ledger_close_send s l hs : ledger s hs ->
  ledger (s <| heap ::= alter (fun st => st <| send_terminal := true |> <| outbound_stream_bytes ::= sem_close |>) l |>) hs.
Proof.
  intros []. split; simpl; try done. intros k st Hk. destruct (decide (l = k)) as [<-|]; [|rewrite lookup_alter_ne in Hk by done; by apply ld_streams].
  rewrite lookup_alter_eq in Hk. destruct (heap s !! l) as [st0|] eqn:E; [|done]. apply (inj Some) in Hk. subst st.
  destruct (ld_streams _ _ E) as [Hb ? ? ? ?]. split; simpl; try done.
  - unfold balanced in *. by rewrite close_available.
  - unfold open_unless. by rewrite orb_true_r.
Qed.

Lemma chunks_live g s id : send_inv g s -> Forall (fun c => is_Some (heap s !! oc_state c)) (queue (queues s) id).
Proof.
  intros Hi. unfold queue. destruct (by_stream (queues s) !! id) as [cs|] eqn:E; simpl; [|constructor].
  destruct (wi_queues _ (sv_writer _ _ Hi) _ _ E) as [_ Hc _]. eapply Forall_impl; [exact Hc|]. by intros c [].
Qed.

Lemma error_code_wf code c : 0 <= code -> ErrorCode.from_u64 code = Ok c -> VarInt.wf (Frames.code c).
Proof.
  intros Hc. unfold ErrorCode.from_u64. destruct (VarInt.from_u64 code) as [v|e|] eqn:E; simpl; [|done..].
  intros [= <-]. apply VarInt.from_u64_Ok in E as [Hv ?]. unfold VarInt.wf. simpl. lia.
Qed.

Lemma wp_remove_queue g hs s id s0 : send_inv g s -> ledger s0 (holds s hs) -> queues s0 = queues s ->
  (forall l, is_Some (heap s !! l) -> is_Some (heap s0 !! l)) ->
  forall (Q : unit -> ConnectionShared -> Prop) (R : Error -> ConnectionShared -> Prop),
  (forall s', tally (s0 <| queues ::= (fun q => q <| by_stream ::= delete id |>) |>)
     (map chunk_hold (chunks_in (delete id (by_stream (queues s)))) ++ hs) s' -> Q tt s') ->
  wp (remove_queue id) s0 Q R.
Proof.
  intros Hi Hl Hq Hh Q R HQ. unfold remove_queue, get_queues, upd_queues. wp_step. wp_step. wp_step. wp_step. rewrite Hq.
  eapply wp_drop_outbound_queue; [|split; [|reflexivity]|exact HQ].
  - eapply Forall_impl; [by apply (chunks_live g s id)|]. intros c. apply Hh.
  - apply ledger_queues. unfold holds in Hl. by rewrite (chunks_split _ id), map_app, <- app_assoc in Hl.
Qed.

Lemma keeps_reset_stream g hs id l code : g_names g !! l = Some id -> 0 <= code ->
  keeps (full g hs) (reset_stream id l code).
Proof.
  intros Hn Hcode s Hf. pose proof Hf as [Hi Hl Hlm]. pose proof (nm_range _ _ (sv_names _ _ Hi) _ _ Hn) as Hid.
  destruct (proj2 (nm_dom _ _ (sv_names _ _ Hi) l)) as [st Hst]; [by eexists|].
  unfold reset_stream, ensure_open. wp_step. wp_step. wp_step. wp_step; [done|]. wp_step.
  unfold proto_stream_id. rewrite VarInt.from_u64_ok by done. simpl map_err. wp_step. wp_step.
  apply wp_lift; [apply error_code_no_panic| |done]. intros c Hc%error_code_ok. wp_step. apply (wp_get_state _ st); [done|].
  wp_step; [|done]. unfold get_queues. wp_step. wp_step. wp_step. wp_step. wp_step. wp_step; [done|].
  wp_step. unfold upd_state at 1. wp_step. wp_step.
  eapply (wp_remove_queue g hs s id); [done|by apply ledger_upd|done|intros k; apply alter_is_Some|].
  intros s1 [Hl1 Hc1]. unfold upd_queues, upd_state, notify. wp_step. wp_step. wp_step. wp_step. wp_step. wp_step.
  wp_step. apply keeps_notify. bool_to_prop.
  apply (full_core g hs (reset_state id l (ResetStream (mkVarInt id) c) s)).
  - eapply send_inv_reset; try done. split; [done|]. split; [done|by eapply error_code_wf].
  - etransitivity; [apply core_eq_wakes|]. etransitivity; [apply (core_eq_alter_ext _ _ _ end_send); done|].
    etransitivity; [apply core_eq_alter_both; [|done]; apply core_eq_trans_upd; exact Hc1|].
    unfold reset_state, core_eq, core, end_send. simpl. f_equal. f_equal. by apply alter_alter_eq.
  - apply ledger_wakes, ledger_close_send, ledger_queues, Hl1.
  - done.
Qed.

(** ** Closing *)

(** Without queues; only CLOSE may follow. *)
Definition cleared (k : option Frame) (w : gmap Z loc) q : WriterQueues :=
  q <| by_stream := ∅ |> <| ready := [] |> <| control := [] |> <| receive_windows := w |>
    <| close_frame := k |> <| graceful_close := false |> <| closing := true |>.

Lemma stream_sends_cleared g q k w id st : stream_sends g q id st -> stream_sends g (cleared k w q) id st.
Proof. intros []. split; try done; [|simpl; lia]. intros H. by destruct (ss_over H). Qed.

Lemma send_inv_cleared g s k w : send_inv g s -> (forall f, k = Some f -> close_ok f) ->
  w ⊆ receive_windows (queues s) -> send_inv g (s <| closed := true |> <| queues ::= cleared k w |>).
Proof.
  intros [] Hk Hw. split; simpl; try done.
  - destruct sv_writer. split; simpl; try done.
    + apply NoDup_nil_2.
    + intros id. split; [by intros ?%not_elem_of_nil|by intros [? ?]].
    + intros id l Hl. apply (wi_windows id l). by eapply lookup_weaken.
  - destruct sv_names. split; simpl; try done. intros id l Hl. apply nm_windows. by eapply lookup_weaken.
  - intros l id st Hl Hst. apply stream_sends_cleared. by eapply sv_streams.
  - unfold settings_state. destruct (g_trace g); simpl; [done|constructor].
  - pose proof (zlen_nonneg (control (queues s))). unfold zlen at 1. simpl. lia.
Qed.

(** The queue is drained first. *)
Lemma send_inv_graceful g s f : send_inv g s -> close_ok f -> closing (queues s) = false ->
  send_inv g (s <| closed := true |> <| queues ::= (fun q => q <| close_frame := Some f |>
    <| graceful_close := true |> <| closing := true |>) |>).
Proof.
  intros [] Hf Hcl. assert (Hab : abortive (queues s) = false) by (unfold abortive; by rewrite Hcl).
  split; simpl; try done.
  - destruct sv_writer. split; simpl; try done. by intros ? [= <-].
  - destruct sv_names. by split.
  - intros l id st Hl Hst. eapply (stream_sends_same g (queues s)); [|reflexivity|by eapply sv_streams].
    by split.
  - unfold settings_state in *. destruct (g_trace g); [intros _; by apply sv_settings|done].
Qed.

(** The semaphores of a closed connection. *)
Definition close_sems s : ConnectionShared :=
  s <| outbound_conn_bytes ::= sem_close |> <| outbound_frames ::= sem_close |>.

Lemma ledger_closed s s' hs : ledger s hs -> closed s' = true -> limits s' = limits s -> heap s' = heap s ->
  available_permits (outbound_conn_bytes s') = available_permits (outbound_conn_bytes s) ->
  available_permits (outbound_frames s') = available_permits (outbound_frames s) -> ledger s' hs.
Proof.
  intros [] Hc Hl Hh H1 H2. split; rewrite ?Hl, ?Hc, ?Hh; unfold balanced in *; rewrite ?H1, ?H2; try done.
  intros l st Hst. destruct (ld_streams _ _ Hst). by split.
Qed.

Lemma wp_clear_chunks g hs s s0 (Q : unit -> ConnectionShared -> Prop) (R : Error -> ConnectionShared -> Prop) :
  send_inv g s -> ledger s0 (holds s hs) -> queues s0 = queues s -> heap s0 = heap s ->
  (forall s', tally (s0 <| queues ::= (fun q => q <| by_stream := ∅ |>) |>) hs s' -> Q tt s') ->
  wp clear_queues s0 Q R.
Proof.
  intros Hi Hl Hq Hh HQ. unfold clear_queues, get_queues, upd_queues. wp_step. wp_step. wp_step. wp_step. rewrite Hq.
  eapply wp_drop_outbound_queue; [|split; [|reflexivity]|exact HQ].
  - simpl. rewrite Hh, chunks_hash. apply Forall_forall. intros c Hc. unfold chunks_in in Hc.
    apply list_elem_of_In, in_concat in Hc as (cs & Hcs & Hc). apply in_map_iff in Hcs as ([id cs'] & <- & Hcs).
    apply list_elem_of_In, elem_of_map_to_list in Hcs. pose proof (chunks_live g s id Hi) as Hlive. unfold queue in Hlive.
    rewrite Hcs in Hlive. rewrite Forall_forall in Hlive. apply Hlive. by apply list_elem_of_In.
  - apply ledger_queues. by rewrite chunks_hash.
Qed.

Lemma validate_close_len m code reason u : validate_close_reason m code reason = Ok u -> zlen reason <= m.
Proof.
  unfold validate_close_reason, mbind, Result_bind. intros H. repeat case_match; simplify_eq. bool_to_prop.
  unfold ErrorCode.encoded_len in *.
  match goal with H : 1 + VarInt.encoded_len ?a + VarInt.encoded_len ?b + _ <= _ |- _ =>
    pose proof (VarInt.encoded_len_range a); pose proof (VarInt.encoded_len_range b) end. lia.
Qed.

Lemma fit_close_ok m code reason r c : fit_close_reason m code reason = Ok r -> utf8_valid reason = true ->
  VarInt.wf (Frames.code c) -> m <= u32_max -> close_ok (ConnectionClose c r).
Proof.
  intros Hf Hu Hc Hm. exists c, r. split; [done|]. unfold fit_close_reason in Hf.
  assert (Hr : utf8_valid r = true /\ zlen r <= m).
  { destruct (validate_close_reason m code reason) as [u| |] eqn:E1; simpl in Hf.
    { injection Hf as <-. split; [done|by eapply validate_close_len]. }
    all: destruct (validate_close_reason m code (utf8 "connection error")) as [u'| |] eqn:E2; simpl in Hf;
      [injection Hf as <-; split; [done|by eapply validate_close_len]|..].
    all: destruct (validate_close_reason m code []) as [u''| |] eqn:E3; simpl in Hf; try done;
      injection Hf as <-; split; [done|by eapply validate_close_len]. }
  destruct Hr. split; [done|lia].
Qed.

Lemma keeps_initiate_close g hs code reason : Limits.Valid MAX_PERMITS lim -> 0 <= code -> utf8_valid reason = true ->
  keeps (full g hs) (initiate_close code reason).
Proof.
  intros Hlim Hcode Hu s Hf. pose proof Hf as [Hi Hl Hlm]. unfold initiate_close, upd_queues, notify. wp_step. wp_step. wp_step.
  apply wp_lift; [apply fit_close_no_panic| |done]. intros r Hr. wp_step.
  apply wp_lift; [apply error_code_no_panic| |done]. intros c Hc%error_code_ok.
  assert (Hok : close_ok (ConnectionClose c r)).
  { eapply fit_close_ok; [exact Hr|done|by eapply error_code_wf|]. rewrite Hlm. apply (Limits.valid_frame _ _ Hlim). }
  wp_step. wp_step. wp_step. wp_step. wp_step.
  2:{ simpl in E. replace (s <| closed := true |>) with s; [done|]. by destruct s; simpl in *; subst. }
  assert (Hcl : closing (queues s) = false).
  { apply not_true_iff_false. intros Hx%(sv_closing _ _ Hi). congruence. }
  wp_step. wp_step.
  - wp_step. eapply (wp_clear_chunks g hs s); [done|eapply ledger_closed; [exact Hl|done..]|done|done|].
    intros s1 [Hl1 Hc1]. wp_steps.
    apply (full_core g hs (s <| closed := true |> <| queues ::= cleared (Some (ConnectionClose c r)) (receive_windows (queues s)) |>)).
    + apply send_inv_cleared; [done|by intros ? [= <-]|done].
    + rewrite (proj2 (Z.eqb_neq _ _)) by done. unfold core_eq in *.
      apply (f_equal (fun x : ConnectionShared => x <| queues ::= (fun q => q <| ready := [] |> <| control := [] |>
        <| close_frame := Some (ConnectionClose c r) |> <| graceful_close := false |> <| closing := true |>) |>)) in Hc1.
      exact Hc1.
    + eapply ledger_closed; [exact Hl1|..]; try done; simpl; rewrite ?close_available; try done.
      exact (f_equal closed Hc1).
    + done.
  - wp_steps. rewrite (proj2 (Z.eqb_eq _ _)) by done.
    apply (full_core g hs (s <| closed := true |> <| queues ::= (fun q => q <| close_frame := Some (ConnectionClose c r) |>
      <| graceful_close := true |> <| closing := true |>) |>)); [by apply send_inv_graceful|reflexivity| |done].
    eapply ledger_closed; [exact Hl|..]; simpl; rewrite ?close_available; done.
Qed.

Lemma full_closed g hs s s' : full g hs s -> quiet s s' -> closed s' = true -> limits s' = limits s -> heap s' = heap s ->
  receive_window s' = receive_window s ->
  available_permits (outbound_conn_bytes s') = available_permits (outbound_conn_bytes s) ->
  available_permits (outbound_frames s') = available_permits (outbound_frames s) -> full g hs s'.
Proof.
  intros Hf Hq Hc Hl Hh Hr H1 H2. pose proof (full_windows _ _ _ Hf) as Hw. destruct Hf as [Hi Hg Hlm]. split; [|..|congruence].
  - eapply send_inv_quiet; [exact Hq| |exact Hi]. unfold windows_ok. by rewrite Hr, Hh.
  - assert (Hx : holds s' hs = holds s hs) by (unfold holds; by destruct (quiet_queues _ _ Hq) as (w & -> & _)).
    rewrite Hx. by eapply ledger_closed.
Qed.

Lemma quiet_fields s s' : local_parity s' = local_parity s -> next_local_stream_id s' = next_local_stream_id s ->
  next_remote_stream_id s' = next_remote_stream_id s -> next_loc s' = next_loc s ->
  writer_max_control_frames s' = writer_max_control_frames s -> streams s' ⊆ streams s ->
  incoming_streams s' ⊆ incoming_streams s -> queues s' = queues s -> (closed s = true -> closed s' = true) ->
  send_half <$> heap s' = send_half <$> heap s -> quiet s s'.
Proof. intros ? ? ? ? ? ? ? Hq ? ?. split; try done; rewrite Hq; [done|]. by destruct (queues s). Qed.

Lemma wp_shut_down g hs s (Q : unit -> ConnectionShared -> Prop) (R : Error -> ConnectionShared -> Prop) :
  full g hs s -> closed s = true ->
  (forall s', full g hs s' -> closed s' = true -> Q tt s') -> wp shutdown s Q R.
Proof.
  intros Hf Hc HQ. pose proof Hf as [Hi Hl Hlm]. unfold shutdown, upd_queues, notify. wp_step.
  eapply (wp_clear_chunks g hs s); [done..|]. intros s1 [Hl1 Hc1]. wp_steps. apply HQ; [|exact (eq_trans (f_equal closed Hc1) Hc)].
  apply (full_core g hs (s <| closed := true |> <| queues ::= cleared None ∅ |>)).
  - apply send_inv_cleared; [done|done|apply map_empty_subseteq].
  - unfold core_eq in *. apply (f_equal (fun x : ConnectionShared => x <| queues ::= (fun q => q <| ready := [] |> <| control := [] |>
      <| receive_windows := ∅ |> <| close_frame := None |> <| graceful_close := false |> <| closing := true |>) |>)) in Hc1.
    replace (s <| closed := true |>) with s; [exact Hc1|]. by destruct s; simpl in *; subst.
  - by apply ledger_wakes, ledger_queues.
  - done.
Qed.

(** Marking a stream of a closed connection. *)
Lemma ledger_mark s l hs : ledger s hs -> closed s = true ->
  ledger (s <| heap ::= alter (fun st => st <| inbound_stream_bytes ::= sem_close |> <| outbound_stream_bytes ::= sem_close |>
    <| outbound_stream_frames ::= sem_close |>) l |>) hs.
Proof.
  intros [] Hc. split; simpl; try done. intros k st Hk. rewrite Hc in *.
  destruct (decide (l = k)) as [<-|]; [|rewrite lookup_alter_ne in Hk by done; by apply ld_streams].
  rewrite lookup_alter_eq in Hk. destruct (heap s !! l) as [st0|] eqn:E; [|done]. apply (inj Some) in Hk. subst st.
  destruct (ld_streams _ _ E). split; simpl; try done; unfold balanced in *; by rewrite close_available.
Qed.

Lemma full_mark g hs s l : full g hs s -> closed s = true ->
  full g hs (s <| heap ::= alter (fun st => st <| inbound_stream_bytes ::= sem_close |> <| outbound_stream_bytes ::= sem_close |>
    <| outbound_stream_frames ::= sem_close |>) l |>).
Proof.
  intros Hf Hc. pose proof (full_windows _ _ _ Hf) as Hw. destruct Hf as [Hi Hl Hlm]. split; [|by apply ledger_mark|done].
  eapply send_inv_quiet; [|by apply windows_upd|exact Hi].
  apply quiet_fields; try done. by apply fmap_alter_same.
Qed.

Lemma wp_mark_all g hs ls s : full g hs s -> closed s = true ->
  wp (mark_streams_closed ls) s (fun _ s' => full g hs s') (fun _ _ => False).
Proof.
  revert s. induction ls as [|[id l] ls IH]; intros s Hf Hc; cbn [mark_streams_closed]; [done|].
  unfold mark_connection_closed, upd_inbound, upd_state, notify. wp_steps. apply IH; [|done].
  apply keeps_notify. apply full_mark; [|done]. by apply full_upd.
Qed.

Lemma wp_mark_closed_full g hs s : full g hs s -> wp mark_closed s (fun _ s' => full g hs s') (fun _ _ => False).
Proof.
  intros Hf. unfold mark_closed, notify. wp_step. wp_step. wp_step. wp_step. wp_step. wp_step. wp_step. wp_step.
  set (s1 := _ <| cleanup_started := true |>).
  assert (Hf1 : full g hs s1) by (apply (full_closed g hs s); try done; by apply (quiet_fields s s1)).
  assert (Hc1 : closed s1 = true) by done. clearbody s1. wp_step; [|done]. wp_step. wp_step. wp_step.
  set (s2 := s1 <| open_streams ::= _ |> <| _ ::= _ |> <| _ ::= _ |> <| _ ::= _ |>).
  assert (Hf2 : full g hs s2).
  { apply (full_closed g hs s1); try done; [by apply (quiet_fields s1 s2)|..]; simpl; by rewrite close_available. }
  assert (Hc2 : closed s2 = true) by done. clearbody s2. eapply (wp_shut_down g hs); [done..|]. intros s3 Hf3 Hc3.
  wp_step. wp_step. wp_step. wp_step. wp_step. wp_step. apply wp_mark_all; [|done].
  set (s4 := _ <| streams := ∅ |>). apply (full_closed g hs s3); try done.
  apply (quiet_fields s3 s4); try done. apply map_empty_subseteq.
Qed.

Lemma keeps_mark_closed g hs : keeps (full g hs) mark_closed.
Proof. intros s Hf. eapply wp_mono; [by apply wp_mark_closed_full|done|done]. Qed.

(** ** Credit and settings of the peer *)

(** Queues that differ in what the peer allows. *)
Definition allows (b : bool) (m i n : Z) q : WriterQueues :=
  q <| peer_settings := b |> <| peer_max_frame := m |> <| peer_initial_stream_limit := i |> <| peer_limit := n |>.

Lemma send_inv_credit g s b m i n : send_inv g s -> writer_inv (s <| queues ::= allows b m i n |>) -> (b = false -> n = 0 /\ i = 0) ->
  send_inv g (s <| queues ::= allows b m i n |>).
Proof.
  intros [] Hw Hp. split; try done.
  - destruct sv_names. by split.
  - intros l id st Hl Hst. by eapply (stream_sends_same g (queues s)); [|reflexivity|by eapply sv_streams].
Qed.

Lemma keeps_settings g hs a b c : VarInt.wf a -> VarInt.wf b -> VarInt.wf c -> keeps (full g hs) (on_settings a b c).
Proof.
  intros Ha Hb Hc s Hf. unfold on_settings, get_queues, upd_queues. wp_step. wp_step. wp_step. wp_step; [done|].
  wp_step. wp_step. apply keeps_notify. rename H into Hp, H1 into Hmin, H0 into Hmax. destruct Hf as [Hi Hl Hlm].
  change (as_u64 Limits.MIN_FRAME_SIZE) with Limits.MIN_FRAME_SIZE in Hmin. unfold VarInt.wf in *.
  split; [|by apply ledger_queues|done]. apply (send_inv_credit g s true (inner c) (inner b) (inner a)); [done| |done].
  destruct (sv_peer _ _ Hi Hp) as [H1 H2]. destruct (sv_writer _ _ Hi). split; simpl; try done; try lia.
  intros l st Hst. destruct (wi_heap _ _ Hst). split; try done. lia.
Qed.

Lemma full_max_data g hs a s : VarInt.wf a -> full g hs s -> peer_settings (queues s) = true ->
  full g hs (s <| queues ::= (fun q => q <| peer_limit ::= Z.max (VarInt.into_inner a) |>) |>).
Proof.
  intros Ha [Hi Hl Hlm] Hp. split; [|by apply ledger_queues|done]. unfold VarInt.wf in Ha.
  replace (s <| queues ::= _ |>) with (s <| queues ::= allows true (peer_max_frame (queues s))
    (peer_initial_stream_limit (queues s)) (Z.max (inner a) (peer_limit (queues s))) |>).
  - apply send_inv_credit; [done| |done]. destruct (sv_writer _ _ Hi). split; simpl; try done; lia.
  - destruct s as [? ? ? ? ? ? ? qq]. destruct qq. simpl in *. by subst.
Qed.

(** A stream state that the sending half sees as the same but for one update. *)
Lemma full_stream g hs s l st u : full g hs s -> heap s !! l = Some st ->
  writer_inv (s <| heap ::= alter u l |>) -> permit_half (u st) = permit_half st -> send_terminal (u st) = send_terminal st ->
  (forall id, stream_sends g (queues s) id st -> stream_sends g (queues s) id (u st)) ->
  full g hs (s <| heap ::= alter u l |>).
Proof.
  intros [Hi Hl Hlm] Hst Hw Hp Ht Hu. split; [| |done].
  - pose proof Hi as []. split; try done; [by apply names_ok_upd|]. intros k id st' Hk Hst'. simpl in Hst'.
    destruct (decide (l = k)) as [<-|]; [|rewrite lookup_alter_ne in Hst' by done; by eapply sv_streams].
    rewrite lookup_alter_eq, Hst in Hst'. apply (inj Some) in Hst'. subst st'. by eapply Hu, sv_streams.
  - eapply ledger_same; [..|exact Hl]; try done. intros k st' Hk. simpl in Hk. destruct (decide (l = k)) as [<-|].
    + rewrite lookup_alter_eq, Hst in Hk. apply (inj Some) in Hk. subst st'. exists st. by rewrite Ht.
    + rewrite lookup_alter_ne in Hk by done. by exists st'.
Qed.

Lemma keeps_max_stream_data g hs id n : 0 <= n <= VarInt.MAX -> keeps (full g hs) (on_max_stream_data id n).
Proof.
  intros Hn s Hf. unfold on_max_stream_data, ensure_issued. wp_step. wp_step. wp_step.
  destruct (streams s !! id) as [l|] eqn:Hs; [|destruct (id mod 2 =? local_parity s) eqn:Hb; wp_steps; rewrite ?Hb; wp_steps;
    try done; by apply keeps_notify].
  unfold upd_state. wp_step. apply keeps_notify.
  pose proof (nm_streams _ _ (sv_names _ _ (fu_inv _ _ _ Hf)) _ _ Hs) as Hnm.
  destruct (proj2 (nm_dom _ _ (sv_names _ _ (fu_inv _ _ _ Hf)) l)) as [st Hst]; [by eexists|].
  apply (full_stream g hs s l st); try done.
  - destruct (sv_writer _ _ (fu_inv _ _ _ Hf)). split; simpl; try done.
    + intros i cs Hcs. eapply queue_ok_heap; [|by apply wi_queues]. intros k. apply alter_is_Some.
    + intros k st' Hk. destruct (decide (l = k)) as [<-|]; [|rewrite lookup_alter_ne in Hk by done; by eapply wi_heap].
      rewrite lookup_alter_eq, Hst in Hk. apply (inj Some) in Hk. subst st'. destruct (wi_heap _ _ Hst). split; simpl; try done; lia.
  - intros i []. by split.
Qed.

(** ** A frame was given to the transport *)

Lemma sent_terminal g s f id l st : send_inv g s -> f ∈ g_trace g -> terminal_id f = Some id ->
  g_names g !! l = Some id -> heap s !! l = Some st -> send_dispatched st || reset_queued st = true.
Proof.
  intros Hi Hf Ht Hl Hst. pose proof (sv_streams _ _ Hi _ _ _ Hl Hst) as Hss.
  rewrite <- (ss_fin_sent _ _ _ _ Hss). apply orb_true_iff.
  assert (He : is_fin id f = true \/ is_reset id f = true).
  { destruct f; try done; simpl in *; [destruct fin; [|done]; left|right]; injection Ht as <-; by rewrite bool_decide_true. }
  assert (Hx : forall p : Frame -> bool, p f = true -> existsb p (g_trace g) = true).
  { intros p Hp. apply existsb_exists. exists f. split; [by apply list_elem_of_In|done]. }
  destruct He as [He|He]; [left; by apply Hx|right]. by apply (ss_reset_sent _ _ _ _ Hss), Hx.
Qed.

End system.
End ops.
