(* ===== verification/Halves.v ===== *)
(** Which half of a connection an operation touches.  The operations of the receiving
    side, and retiring a stream, leave the sending half alone ([silent]); those of the
    sending side leave the receiving half alone ([sends_only]).  This is read off the
    code, for every run, so that the two halves can be proved apart and put together. *)

From S2P Require Import Prelude Hoare Buf Varint Frames Errors Limits Flow Tokio.
From S2P Require Import ConnState Inbound InboundSpec Writer WriterSpec Scheduler Connection Streams Tasks.
From S2P Require Import ReceiveSpec ReadSpec ReceiveSystem ConnectionSpec Ledger SendSpec SendInv SendOps.

#[local] Open Scope Z_scope.

Create HintDb half.

Section both.
Context {TK : Tokio} {HI : HashIter} (R : ConnectionShared -> ConnectionShared -> Prop) `{!PreOrder R}.

Lemma respects_get_state l : respects R (get_state l).
Proof. intros s r s'. unfold get_state. destruct (heap s !! l); intros [= _ <-]; done. Qed.

Lemma respects_when_some {A} (o : option A) (k : A -> Conn unit) : (forall a, respects R (k a)) -> respects R (when_some o k).
Proof. intros H. destruct o; [apply H|by apply respects_ret]. Qed.

Lemma respects_on_err {A} (m : Conn A) (release : Conn unit) : respects R m -> respects R release -> respects R (on_err release m).
Proof.
  intros Hm Hr s r s'. unfold on_err. destruct (m s) as [[a|e|] s1] eqn:E; intros Hrun; [simplify_eq; by eapply Hm| |simplify_eq; by eapply Hm].
  etransitivity; [by eapply Hm|]. revert Hrun. apply (respects_bind R release (fun _ => fail e)); [done|]. intros ?. by apply respects_fail.
Qed.

Lemma respects_try_io {A} (m : Conn A) : respects R m -> respects R (try_io m).
Proof. intros Hm s r s'. unfold try_io. destruct (m s) as [[a|e|] s1] eqn:E; intros Hrun; simplify_eq; by eapply Hm. Qed.

Lemma respects_ignore {A} (m : Conn A) : respects R m -> respects R (ignore m).
Proof. intros Hm s r s'. unfold ignore. destruct (m s) as [[a|e|] s1] eqn:E; intros Hrun; simplify_eq; by eapply Hm. Qed.

End both.

(** Taking an operation apart. *)
Ltac respect :=
  repeat lazymatch goal with
  | |- respects _ (_ ≫= _) => apply respects_bind; [typeclasses eauto| |intros ?]
  | |- respects _ (mret _) => apply respects_ret; typeclasses eauto
  | |- respects _ (gets _) => apply respects_gets; typeclasses eauto
  | |- respects _ (fail _) => apply respects_fail; typeclasses eauto
  | |- respects _ (lift _) => apply respects_lift; typeclasses eauto
  | |- respects _ (get_state _) => apply respects_get_state; typeclasses eauto
  | |- respects _ (when _ _) => apply respects_when; [typeclasses eauto|]
  | |- respects _ (when_some _ _) => apply respects_when_some; [typeclasses eauto|intros ?]
  | |- respects _ (bail_if _ _) => apply respects_bail_if; typeclasses eauto
  | |- respects _ (on_err _ _) => apply respects_on_err; [typeclasses eauto|..]
  | |- respects _ (or_drop_permit _ _) => apply respects_on_err; [typeclasses eauto|..]
  | |- respects _ (try_io _) => apply respects_try_io
  | |- respects _ (ignore _) => apply respects_ignore
  | |- respects _ (if ?b then _ else _) => destruct b
  | |- respects _ (match ?x with _ => _ end) => destruct x
  | |- respects _ _ => solve [eauto with half]
  end.

Section halves.
Context {TK : Tokio} {TKL : TokioLaws TK} {HI : HashIter}.
Implicit Types (s : ConnectionShared) (st : StreamState) (q : WriterQueues).

(** ** The receiving side *)

#[export] Instance silent_preorder : PreOrder silent.
Proof.
  split; [intros s; split; try done|].
  intros x y z [] []. split; try congruence. by etransitivity.
Qed.

(** Updates of a stream state and of the connection that the sending half does not see. *)
Lemma silent_state l u : (forall st, send_half (u st) = send_half st /\ permit_half (u st) = permit_half st) ->
  respects silent (upd_state l u).
Proof.
  intros Hu. apply respects_modify. intros s. split; try done; [split; try done|].
  - simpl. by destruct (queues s).
  - apply fmap_alter_same. apply Hu.
  - apply fmap_alter_same. intros st. apply Hu.
Qed.

Lemma silent_like s s' : streams s' ⊆ streams s -> incoming_streams s' ⊆ incoming_streams s ->
  (limits s', local_parity s', next_local_stream_id s', next_remote_stream_id s', next_loc s',
    writer_max_control_frames s', queues s', closed s', outbound_conn_bytes s', outbound_frames s', heap s') =
  (limits s, local_parity s, next_local_stream_id s, next_remote_stream_id s, next_loc s,
    writer_max_control_frames s, queues s, closed s, outbound_conn_bytes s, outbound_frames s, heap s) ->
  is_closed (open_streams s') = is_closed (open_streams s) -> silent s s'.
Proof.
  intros ? ? Hu Ho. injection Hu as ? ? ? ? ? ? Hq Hc ? ? Hh. split; try done; rewrite ?Hh; [|done].
  split; try done; rewrite ?Hq, ?Hh, ?Hc; try done. by destruct (queues s).
Qed.

Lemma silent_fields (u : ConnectionShared -> ConnectionShared) :
  (forall s, streams (u s) ⊆ streams s /\ incoming_streams (u s) ⊆ incoming_streams s) ->
  (forall s, (limits (u s), local_parity (u s), next_local_stream_id (u s), next_remote_stream_id (u s), next_loc (u s),
    writer_max_control_frames (u s), queues (u s), closed (u s), outbound_conn_bytes (u s), outbound_frames (u s), heap (u s)) =
   (limits s, local_parity s, next_local_stream_id s, next_remote_stream_id s, next_loc s,
    writer_max_control_frames s, queues s, closed s, outbound_conn_bytes s, outbound_frames s, heap s)) ->
  (forall s, is_closed (open_streams (u s)) = is_closed (open_streams s)) -> respects silent (modify u : Conn unit).
Proof. intros Hsub Hu Ho. apply respects_modify. intros s. destruct (Hsub s). by apply silent_like. Qed.

Lemma silent_notify w : respects silent (notify w).
Proof. by apply silent_fields. Qed.

Lemma silent_windows (u : WriterQueues -> WriterQueues) : (forall q, receive_windows (u q) ⊆ receive_windows q) ->
  (forall q, u q = q <| receive_windows := receive_windows (u q) |>) -> respects silent (upd_queues u).
Proof. intros Hsub Hu. apply respects_modify. intros s. split; try done. split; try done; [apply Hsub|apply Hu]. Qed.

#[local] Hint Resolve silent_notify : half.
#[local] Hint Extern 3 (respects silent (upd_state _ _)) => by apply silent_state : half.
#[local] Hint Extern 3 (respects silent (modify _)) => apply silent_fields; intros; simpl; by rewrite ?drop_closed : half.

Lemma silent_conn_receive n : respects silent (conn_window_receive n).
Proof.
  intros s r s'. unfold conn_window_receive. destruct (ReceiveWindow.receive _ _) as [x w]. intros [= _ <-].
  by eapply (silent_fields (fun s => s <| receive_window := w |>)).
Qed.
Lemma silent_conn_consume n : respects silent (conn_window_consume n).
Proof.
  intros s r s'. unfold conn_window_consume. destruct (ReceiveWindow.consume _ _) as [x w]. intros [= _ <-].
  by eapply (silent_fields (fun s => s <| receive_window := w |>)).
Qed.
Lemma silent_stream_receive l n : respects silent (stream_window_receive l n).
Proof. unfold stream_window_receive. respect. Qed.
Lemma silent_stream_consume l n : respects silent (stream_window_consume l n).
Proof. unfold stream_window_consume. respect. Qed.

#[local] Hint Resolve silent_conn_receive silent_conn_consume silent_stream_receive silent_stream_consume : half.

Lemma silent_chunk_consume c n : respects silent (chunk_consume c n).
Proof. unfold chunk_consume, give_back_conn, give_back_stream. respect. Qed.
#[local] Hint Resolve silent_chunk_consume : half.
Lemma silent_chunk_drop c : respects silent (chunk_drop c).
Proof. unfold chunk_drop, give_back_conn, give_back_stream. respect. Qed.
#[local] Hint Resolve silent_chunk_drop : half.
Lemma silent_into_bytes c : respects silent (chunk_into_bytes c).
Proof. unfold chunk_into_bytes. respect. Qed.
Lemma silent_drop_chunks cs : respects silent (drop_chunks cs).
Proof. induction cs; simpl; respect. Qed.
#[local] Hint Resolve silent_into_bytes silent_drop_chunks : half.

Lemma silent_take_conn n : respects silent (take_conn_permit n).
Proof.
  intros s r s'. unfold take_conn_permit. case_match; [by intros [= _ <-]|]. case_match; [|by intros [= _ <-]].
  case_match. intros [= _ <-]. by eapply (silent_fields (fun s => s <| inbound_conn_bytes := _ |>)).
Qed.
Lemma silent_take_stream l n p : respects silent (take_stream_permit l n p).
Proof. unfold take_stream_permit, give_back_conn. respect. Qed.
#[local] Hint Resolve silent_take_conn silent_take_stream : half.

Lemma silent_push l b : respects silent (push_inbound l b).
Proof. unfold push_inbound, discard_payload, give_back_conn, give_back_stream, upd_inbound. respect. Qed.
Lemma silent_mark_reset l code : respects silent (mark_reset l code).
Proof. unfold mark_reset, upd_inbound. respect. Qed.
Lemma silent_recv_terminal l : respects silent (mark_recv_terminal l).
Proof. unfold mark_recv_terminal, upd_inbound. respect. Qed.
Lemma silent_release_open l : respects silent (release_open_permit l).
Proof. unfold release_open_permit. respect. Qed.
Lemma silent_discard l : respects silent (discard_inbound l).
Proof. unfold discard_inbound, upd_inbound. respect. Qed.
Lemma silent_read_chunk l : respects silent (read_chunk l).
Proof. unfold read_chunk, upd_inbound. respect. Qed.
#[local] Hint Resolve silent_push silent_mark_reset silent_recv_terminal silent_release_open silent_discard silent_read_chunk : half.

Lemma silent_delete_stream id : respects silent (modify (fun s => s <| streams ::= delete id |>) : Conn unit).
Proof. apply silent_fields; [|done..]. intros s. split; [apply delete_subseteq|done]. Qed.
Lemma silent_delete_window id : respects silent (upd_queues (fun q => q <| receive_windows ::= delete id |>)).
Proof. apply silent_windows; intros q; [apply delete_subseteq|by destruct q]. Qed.
#[local] Hint Resolve silent_delete_stream silent_delete_window : half.

Lemma silent_try_retire id : respects silent (try_retire_stream id).
Proof. unfold try_retire_stream. respect. Qed.
#[local] Hint Resolve silent_try_retire : half.

Lemma silent_stream_frame id b fin : respects silent (on_remote_stream_frame id b fin).
Proof. unfold on_remote_stream_frame, find_stream. respect. Qed.
Lemma silent_remote_reset id code : respects silent (on_remote_reset id code).
Proof. unfold on_remote_reset, find_stream. respect. Qed.

Lemma silent_recv_read h : respects silent (recv_read_chunk h).
Proof. unfold recv_read_chunk, select_recv_mode. respect. Qed.
Lemma silent_poll_fuel n h remaining : respects silent (poll_read_fuel n h remaining).
Proof. revert h. induction n as [|n IH]; intros h; cbn [poll_read_fuel]; [by intros s r s' [= _ <-]|]. respect. Qed.
#[local] Hint Resolve silent_poll_fuel : half.
Lemma silent_poll_read h remaining : respects silent (poll_read h remaining).
Proof. unfold poll_read, select_recv_mode. respect. Qed.
Lemma silent_drop_reader h : respects silent (drop_reader h).
Proof. unfold drop_reader, drop_recv_stream, release_recv_handle. respect. Qed.
Lemma silent_add_handles l : respects silent (add_handles l).
Proof. unfold add_handles. respect. Qed.

(** ** The sending side *)

#[export] Instance sends_only_preorder : PreOrder sends_only.
Proof. split; [done|]. intros x y z [] []. split; try congruence; [by etransitivity|auto]. Qed.

Lemma sends_state l u : (forall st, receive_half (u st) = receive_half st) -> respects sends_only (upd_state l u).
Proof. intros Hu. apply respects_modify. intros s. split; try done. by apply fmap_alter_same. Qed.
Lemma sends_queues u : respects sends_only (upd_queues u).
Proof. by apply respects_modify. Qed.
Lemma sends_notify w : respects sends_only (notify w).
Proof. by apply respects_modify. Qed.
Lemma sends_retire id : respects sends_only (modify (fun s => s <| streams ::= delete id |>) : Conn unit).
Proof. apply respects_modify. intros s. split; try done. apply delete_subseteq. Qed.

#[local] Hint Resolve sends_queues sends_notify sends_retire : half.
#[local] Hint Extern 3 (respects sends_only (upd_state _ _)) => by apply sends_state : half.
#[local] Hint Extern 4 (respects sends_only (modify _)) =>
  apply respects_modify; intros; split; try done; simpl; by rewrite ?drop_closed, ?close_closed : half.

Lemma sends_try_retire id : respects sends_only (try_retire_stream id).
Proof. unfold try_retire_stream, release_open_permit. respect. Qed.
Lemma sends_drop_outbound c : respects sends_only (drop_outbound c).
Proof. unfold drop_outbound. respect. Qed.
#[local] Hint Resolve sends_try_retire sends_drop_outbound : half.
Lemma sends_drop_queue cs : respects sends_only (drop_outbounds cs).
Proof. induction cs; simpl; respect. Qed.
#[local] Hint Resolve sends_drop_queue : half.
Lemma sends_remove_queue id : respects sends_only (remove_queue id).
Proof. unfold remove_queue, get_queues. respect. Qed.
Lemma sends_clear_queues : respects sends_only clear_queues.
Proof. unfold clear_queues, get_queues. respect. Qed.
#[local] Hint Resolve sends_remove_queue sends_clear_queues : half.

Lemma sends_reset_stream id l code : respects sends_only (reset_stream id l code).
Proof. unfold reset_stream, ensure_open, get_queues. respect. Qed.
Lemma sends_enqueue_control f : respects sends_only (enqueue_control f).
Proof. unfold enqueue_control, get_queues. respect. Qed.
Lemma sends_enqueue_data id c : respects sends_only (enqueue_data id c).
Proof. unfold enqueue_data, get_queues. respect. Qed.
Lemma sends_initiate_close code r : respects sends_only (initiate_close code r).
Proof. unfold initiate_close. respect. Qed.
#[local] Hint Resolve sends_reset_stream sends_enqueue_control sends_enqueue_data sends_initiate_close : half.
Lemma sends_close r : respects sends_only (close r).
Proof. unfold close. respect. Qed.

(** Sends. *)
Lemma sends_unlock l : respects sends_only (unlock l).
Proof. unfold unlock. respect. Qed.
Lemma sends_release_stage l stage : respects sends_only (release_stage l stage).
Proof. unfold release_stage, unlock, drop_stream_frame, drop_stream_bytes, drop_frame. respect. Qed.
Lemma sends_acquire n get put : (forall sem s, sends_only s (put sem s)) -> respects sends_only (acquire_from n get put).
Proof. intros Hp s r s'. unfold acquire_from. repeat case_match; intros [= _ <-]; done || apply Hp. Qed.
#[local] Hint Resolve sends_unlock sends_release_stage : half.
#[local] Hint Extern 3 (respects sends_only (acquire_from _ _ _)) =>
  apply sends_acquire; intros; split; try done; by apply fmap_alter_same : half.

Lemma sends_send_enqueue f id fp sp frp cp : respects sends_only (send_enqueue f id fp sp frp cp).
Proof. unfold send_enqueue, ensure_open, drop_conn_bytes. respect. Qed.
#[local] Hint Resolve sends_send_enqueue : half.
Lemma sends_conn_bytes f id fp sp frp : respects sends_only (send_conn_bytes f id fp sp frp).
Proof. unfold send_conn_bytes, acquire_conn_bytes. respect. Qed.
#[local] Hint Resolve sends_conn_bytes : half.
Lemma sends_frame f id fp sp : respects sends_only (send_frame f id fp sp).
Proof. unfold send_frame, acquire_frame. respect. Qed.
#[local] Hint Resolve sends_frame : half.
Lemma sends_stream_bytes f id fp : respects sends_only (send_stream_bytes f id fp).
Proof. unfold send_stream_bytes, acquire_stream_bytes. respect. Qed.
#[local] Hint Resolve sends_stream_bytes : half.
Lemma sends_stream_frame f id : respects sends_only (send_stream_frame f id).
Proof. unfold send_stream_frame, acquire_stream_frame. respect. Qed.
#[local] Hint Resolve sends_stream_frame : half.
Lemma sends_lock f : respects sends_only (send_lock f).
Proof. unfold send_lock, send_checks, ensure_open. respect. Qed.
#[local] Hint Resolve sends_lock : half.
Lemma sends_chunk f : respects sends_only (send_stream_chunk f).
Proof. unfold send_stream_chunk, queue_stream_chunk, ensure_open. respect. Qed.
#[local] Hint Resolve sends_chunk : half.

(** The stream handles. *)
Lemma sends_mode l n : respects sends_only (select_send_mode l n).
Proof. unfold select_send_mode. respect. Qed.
#[local] Hint Resolve sends_mode : half.
Lemma sends_write_chunk h b : respects sends_only (write_chunk h b).
Proof. unfold write_chunk. respect. Qed.
Lemma sends_finish h : respects sends_only (finish h).
Proof. unfold finish. respect. Qed.
Lemma sends_poll_fut o : respects sends_only (poll_fut o).
Proof. unfold poll_fut. respect. Qed.
#[local] Hint Resolve sends_poll_fut : half.
Lemma sends_poll_flush h : respects sends_only (poll_flush h).
Proof. unfold poll_flush. respect. Qed.
#[local] Hint Resolve sends_poll_flush : half.
Lemma sends_poll_write h b : respects sends_only (poll_write h b).
Proof. unfold poll_write. respect. Qed.
Lemma sends_poll_shutdown h : respects sends_only (poll_shutdown h).
Proof. unfold poll_shutdown. respect. Qed.
Lemma sends_drop_sender l : respects sends_only (drop_send_stream l).
Proof. unfold drop_send_stream, release_send_handle. respect. Qed.

(** The data turn of the writer. *)
Lemma sends_data id c r n : respects sends_only (send_data id c r n).
Proof. unfold send_data, put_back, get_queues. respect. Qed.
#[local] Hint Resolve sends_data : half.
Lemma sends_data_loop n a b c d : respects sends_only (data_loop n a b c d).
Proof. induction n; simpl; unfold get_queues; respect. Qed.

(** Frames and tasks that concern the sending side. *)
Lemma sends_settings a b c : respects sends_only (on_settings a b c).
Proof. unfold on_settings, get_queues. respect. Qed.
Lemma sends_max_stream_data id n : respects sends_only (on_max_stream_data id n).
Proof. unfold on_max_stream_data, ensure_issued. respect. Qed.
Lemma sends_stop_sending id : respects sends_only (on_stop_sending id).
Proof. unfold on_stop_sending, ensure_issued. respect. Qed.
Lemma sends_writer_sent f n : respects sends_only (writer_sent f n).
Proof. unfold writer_sent, record_sent. respect. Qed.
Lemma sends_last_send_drop id l : respects sends_only (handle_last_send_drop id l).
Proof. unfold handle_last_send_drop. respect. Qed.

End halves.
