(* ===== verification/SendHalf.v ===== *)
(** The sending half of a connection leaves the receiving half alone: its operations
    are steps of [ReceiveSystem], whatever they return. *)

From S2P Require Import Prelude Hoare Buf Varint Frames Errors Limits Flow Tokio.
From S2P Require Import ConnState Inbound Writer Connection Streams Tasks ReceiveSystem Receive Halves.

#[local] Open Scope Z_scope.

Section send.
Context {TK : Tokio} {TKL : TokioLaws TK} {HI : HashIter}.
Implicit Types (s : ConnectionShared) (st : StreamState).

(** A call of the application, a received frame, or a step of the writer, that
    concerns the sending half. *)
Inductive sending : forall {A}, Conn A -> Prop :=
| sending_write h b : sending (write_chunk h b)
| sending_finish h : sending (finish h)
| sending_reset h code : sending (reset h code)
| sending_resume f : sending (send_stream_chunk f)
| sending_cancel f : sending (cancel_send f)
| sending_poll_write h b : sending (poll_write h b)
| sending_poll_flush h : sending (poll_flush h)
| sending_poll_shutdown h : sending (poll_shutdown h)
| sending_drop l : sending (drop_send_stream l)
| sending_dropped id l : sending (handle_last_send_drop id l)
| sending_settings a b c : sending (on_settings a b c)
| sending_max_stream_data id n : sending (on_max_stream_data id n)
| sending_stop id : sending (on_stop_sending id)
| sending_control f : sending (enqueue_control f)
| sending_data n a b c d : sending (data_loop n a b c d)
| sending_sent f n : sending (writer_sent f n)
| sending_retire id : sending (try_retire_stream id).

Lemma sending_op {A} (m : Conn A) : sending m -> respects sends_only m.
Proof.
  destruct 1; [apply sends_write_chunk|apply sends_finish|apply sends_reset_stream|apply sends_chunk|
    apply sends_release_stage|apply sends_poll_write|apply sends_poll_flush|apply sends_poll_shutdown|apply sends_drop_sender|
    apply sends_last_send_drop|apply sends_settings|apply sends_max_stream_data|apply sends_stop_sending|
    apply sends_enqueue_control|apply sends_data_loop|apply sends_writer_sent|apply sends_try_retire].
Qed.

(** C26: whatever the sending half does, at whatever stage a send is resumed or
    cancelled, and whether it succeeds, fails or waits, it leaves the receiving half
    alone: no receive queue, window, inbound permit or end-of-stream mark changes, and
    the readers are in a reachable state of the receiver again. *)
Theorem sending_isolated {A} (m : Conn A) lim s rs :
  sending m -> reachable lim s rs -> sends_only s (m s).2 /\ reachable lim (m s).2 rs.
Proof.
  intros Hm Hr. assert (Hs : sends_only s (m s).2) by (apply (sending_op m Hm s (m s).1); by destruct (m s)).
  split; [done|]. eapply reach_step; [exact Hr|]. by apply step_send.
Qed.

End send.

#[local] Existing Instance counting.
#[local] Existing Instance counting_laws.
#[local] Existing Instance hash_list.

(** The application answers on the stream of the run of [Receive]. *)
Definition demo_sender : SendStream := mkSendStream 1 0%nat None None false.

Lemma sending_isolated_witness :
  sends_only demo3 (write_chunk demo_sender [x00] demo3).2 /\
  reachable Limits.default (write_chunk demo_sender [x00] demo3).2 [new_reader 1 0%nat].
Proof.
  apply (sending_isolated (write_chunk demo_sender [x00]) Limits.default demo3 [new_reader 1 0%nat]);
    [apply sending_write|apply demo_reachable].
Defined.
