(* ===== verification/SendPeer.v ===== *)
(** The rest of the operations keep the sending half: opening streams, retiring them,
    and the report that a frame was sent. *)

From S2P Require Import Prelude Hoare Buf Varint Utf8 Frames Errors Limits Flow Tokio.
From S2P Require Import ConnState Inbound InboundSpec Writer WriterSpec Scheduler Connection Streams Tasks.
From S2P Require Import ReceiveSystem ConnectionSpec Ledger SendSpec SendInv SendOps Halves.

#[local] Open Scope Z_scope.

Section peer.
Context {TK : Tokio} {TKL : TokioLaws TK} {HI : HashIter} {HIL : HashIterLaws HI}.
Context (lim : Limits).
Implicit Types (s : ConnectionShared) (st : StreamState) (q : WriterQueues) (g : Ghost) (hs : list Hold).

Abbreviation full := (full lim).

Lemma full_state g hs s id l : full g hs s -> streams s !! id = Some l ->
  g_names g !! l = Some id /\ exists st, heap s !! l = Some st.
Proof.
  intros [Hi _ _] Hs. pose proof (nm_streams _ _ (sv_names _ _ Hi) _ _ Hs) as Hn. split; [done|].
  destruct (proj2 (nm_dom _ _ (sv_names _ _ Hi) l)) as [st Hst]; eauto.
Qed.

(** ** Retiring a stream *)

Lemma wp_release_open g hs s l st (R : Error -> ConnectionShared -> Prop) : full g hs s -> heap s !! l = Some st ->
  wp (release_open_permit l) s (fun _ s' => full g hs s' /\ streams s' = streams s /\ exists st', heap s' !! l = Some st') R.
Proof.
  intros Hf Hst. unfold release_open_permit. wp_step. apply (wp_get_state _ st); [done|]. wp_step.
  assert (Hgo : forall s1, full g hs s1 -> heap s1 = heap s -> streams s1 = streams s ->
    wp (upd_state l (fun st => st <| open_permit := None |>)) s1
      (fun _ s' => full g hs s' /\ streams s' = streams s /\ exists st', heap s' !! l = Some st') R).
  { intros s1 Hf1 Hh1 Hs1. unfold upd_state. wp_step. split_and!; [by apply (full_upd lim)|done|].
    simpl. rewrite lookup_alter_eq, Hh1, Hst. by eexists. }
  unfold when_some. destruct (open_permit st) as [p|]; wp_step; [|by apply Hgo]. apply Hgo; [|done..].
  apply (full_silent lim g hs s); [|exact (full_windows lim g hs s Hf)|done].
  apply silent_like; try done. apply drop_closed.
Qed.

Lemma keeps_try_retire g hs id : keeps (full g hs) (try_retire_stream id).
Proof.
  intros s Hf. unfold try_retire_stream. wp_step. wp_step. destruct (streams s !! id) as [l|] eqn:Hs; [|done].
  destruct (full_state _ _ _ _ _ Hf Hs) as [_ [st Hst]]. wp_step. apply (wp_get_state _ st); [done|]. wp_step; [|done].
  wp_step. eapply wp_mono; [apply (wp_release_open g hs s l st (fun _ _ => False)); done| |done]. intros _ s1 (Hf1 & Hs1 & st1 & Hst1).
  wp_step. wp_step. wp_step. apply (wp_get_state _ st1); [done|]. wp_step; [|done]. unfold upd_queues. wp_step. wp_step. wp_step.
  apply (full_silent lim g hs s1); [|exact (full_windows lim g hs s1 Hf1)|done].
  etransitivity; [by eapply (silent_delete_stream id)|by eapply (silent_delete_window id)].
Qed.

(** ** The report of a sent frame *)

Lemma keeps_writer_sent g hs f n : f ∈ g_trace g -> keeps (full g hs) (writer_sent f n).
Proof.
  intros Hin s Hf. unfold writer_sent, record_sent. wp_step. wp_step. wp_step.
  set (s1 := s <| stats ::= _ |>). assert (Hf1 : full g hs s1).
  { apply (full_silent lim g hs s); [|exact (full_windows lim g hs s Hf)|done]. by apply silent_like. }
  clearbody s1. destruct (terminal_id f) as [id|] eqn:Ht; [|wp_step; by wp_step].
  wp_step. wp_step. destruct (streams s1 !! id) as [l|] eqn:Hs.
  - destruct (full_state _ _ _ _ _ Hf1 Hs) as [Hn [st Hst]]. unfold upd_state. wp_step. wp_step.
    eapply wp_mono; [apply (keeps_try_retire g hs)|done|done].
    pose proof (fu_inv _ _ _ _ Hf1) as Hi. pose proof (sent_terminal _ _ _ _ _ _ Hi Hin Ht Hn Hst) as Hterm.
    apply (full_stream lim g hs s1 l st); try done.
    + by apply writer_inv_upd; [|apply Hi].
    + intros i []. by split.
  - wp_step. wp_step. eapply wp_mono; [by apply (keeps_try_retire g hs)|done|done].
Qed.

(** ** A new stream *)

Definition name (l : loc) (id : Z) g : Ghost := g <| g_names ::= insert l id |>.

(** The next ids after stream [id]. *)
Record issues (id a b : Z) s : Prop := {
  is_range : 0 <= id <= VarInt.MAX;
  is_new : (if id mod 2 =? local_parity s then next_local_stream_id s else next_remote_stream_id s) <= id;
  is_next : id < if id mod 2 =? local_parity s then a else b;
  is_local : next_local_stream_id s <= a /\ a mod 2 = local_parity s;
  is_remote : next_remote_stream_id s <= b /\ b mod 2 = 1 - local_parity s
}.

Definition grow (id a b : Z) st s : ConnectionShared :=
  s <| heap ::= insert (next_loc s) st |> <| next_loc := S (next_loc s) |>
    <| next_local_stream_id := a |> <| next_remote_stream_id := b |>.

(** A state of a stream that has not sent. *)
Definition unsent st : Prop :=
  send_half st = (0, 0, false, false, false, false) /\ send_locked st = false /\ ReceiveWindow.inv (st_window st) /\
  is_closed (outbound_stream_bytes st) = false /\ is_closed (outbound_stream_frames st) = false /\
  available_permits (outbound_stream_bytes st) = max_outbound_stream_bytes lim /\
  available_permits (outbound_stream_frames st) = max_queued_outbound_frames lim / max_open_streams lim.

Lemma unnamed g hs s id a b : full g hs s -> issues id a b s -> ~ named g id.
Proof.
  intros [[] _ _] [] [l Hl]. pose proof (nm_issued _ _ sv_names _ _ Hl). lia.
Qed.

Lemma next_fresh g hs s : full g hs s -> heap s !! next_loc s = None /\ g_names g !! next_loc s = None.
Proof.
  intros [[] _ _]. assert (Hn : g_names g !! next_loc s = None).
  { destruct (g_names g !! next_loc s) eqn:E; [|done]. assert (Hs : is_Some (g_names g !! next_loc s)) by eauto.
    apply (nm_fresh _ _ sv_names) in Hs. lia. }
  split; [|done]. destruct (heap s !! next_loc s) eqn:E; [|done].
  assert (Hs : is_Some (heap s !! next_loc s)) by eauto. apply (nm_dom _ _ sv_names) in Hs as [? ?]. congruence.
Qed.

Lemma stream_sends_new g hs s id st : full g hs s -> ~ named g id -> send_half st = (0, 0, false, false, false, false) ->
  stream_sends g (queues s) id st.
Proof.
  intros [Hi _ _] Hn Hh. pose proof Hi as [].
  assert (Hab : forall p (t : list Frame), Forall (fun f => forall id, is_about id f = true -> named g id) t ->
    (forall f, p f = true -> is_about id f = true) -> existsb p t = false).
  { intros p t Ht Hp. apply existsb_none. eapply Forall_impl; [exact Ht|]. intros f Hf.
    destruct (p f) eqn:E; [|done]. destruct Hn. apply Hf, Hp, E. }
  assert (Hq : by_stream (queues s) !! id = None).
  { destruct (by_stream (queues s) !! id) as [cs|] eqn:E; [|done]. destruct Hn.
    pose proof (nm_chunks _ _ sv_names _ _ E) as Hc. destruct (wi_queues _ sv_writer _ _ E) as [Hne _ _].
    destruct cs as [|c cs]; [done|]. apply Forall_cons in Hc as [Hc _]. by exists (oc_state c). }
  assert (Hac : accepted g id = []).
  { unfold accepted. destruct (g_accepted g !! id) eqn:E; [|done]. destruct Hn. by eapply sv_accepted. }
  assert (Hrc : existsb (is_reset id) (control (queues s)) = false) by (apply (Hab _ _ sv_control); by intros []).
  assert (Hrt : existsb (is_reset id) (g_trace g) = false) by (apply (Hab _ _ sv_trace); by intros []).
  assert (Hft : existsb (is_fin id) (g_trace g) = false).
  { apply (Hab _ _ sv_trace). intros f Hf. apply end_about. unfold is_end. by rewrite Hf. }
  assert (Hd : sent_data id (g_trace g) = []).
  { unfold sent_data. clear -sv_trace Hn. induction sv_trace as [|f t Hf _ IH]; [done|]. simpl. rewrite IH, app_nil_r.
    destruct (is_about id f) eqn:E; [|by apply about_data]. destruct Hn. by apply Hf. }
  unfold send_half in Hh. injection Hh as H1 _ H3 H4 H5 H6.
  split; unfold queued_data, queue; rewrite ?H1, ?H3, ?H4, ?H5, ?H6, ?Hq, ?Hrc, ?Hrt, ?Hft, ?Hd, ?Hac; try done.
  rewrite existsb_filter in Hrc. destruct (filter _ _); [simpl; lia|done].
Qed.

Lemma zsum_at_loc l (u : Hold -> Z) hs : Forall (fun h => ho_loc h <> l) hs -> zsum (at_loc l u) hs = 0.
Proof. induction 1 as [|h hs Hh _ IH]; [done|]. simpl. rewrite IH. unfold at_loc. by rewrite decide_False. Qed.

(** The holds are on streams that exist. *)
Definition on_heap s hs : Prop := Forall (fun h => is_Some (heap s !! ho_loc h)) hs.

Lemma holds_on_heap g hs s : full g hs s -> on_heap s hs -> on_heap s (holds s hs).
Proof.
  intros Hf Hh. unfold holds. apply Forall_app. split; [|done]. apply Forall_fmap, Forall_forall. intros c Hc.
  unfold chunks_in in Hc. apply list_elem_of_In, in_concat in Hc as (cs & Hcs & Hc). apply in_map_iff in Hcs as ([id cs'] & <- & Hcs).
  apply list_elem_of_In, elem_of_map_to_list in Hcs. pose proof (chunks_live g s id (fu_inv _ _ _ _ Hf)) as Hlive. unfold queue in Hlive.
  rewrite Hcs in Hlive. rewrite Forall_forall in Hlive. apply Hlive. by apply list_elem_of_In.
Qed.

Lemma ledger_grow g hs s id a b st : full g hs s -> on_heap s hs -> unsent st -> Limits.Valid MAX_PERMITS lim ->
  ledger (grow id a b st s) (holds s hs).
Proof.
  intros Hf Hh (_ & Hlk & _ & Hbo & Hfo & Hb & Hfr) Hv. destruct (next_fresh _ _ _ Hf) as [Hnone _].
  pose proof (holds_on_heap _ _ _ Hf Hh) as Hon. destruct Hf as [_ [] Hlm]. split; try done. simpl. intros l st' Hl.
  apply lookup_insert_Some in Hl as [[<- <-]|[_ Hl]]; [|by apply ld_streams].
  assert (Hz : forall u, zsum (at_loc (next_loc s) u) (holds s hs) = 0).
  { intros u. apply zsum_at_loc. eapply Forall_impl; [exact Hon|]. intros h [? Hs] Heq. congruence. }
  assert (Hd : 0 <= max_queued_outbound_frames lim / max_open_streams lim) by (destruct Hv; apply Z.div_pos; lia).
  destruct Hv. split; unfold balanced; rewrite ?Hz, ?Hlm, ?Hb, ?Hfr, ?Hlk; try done; [lia|by rewrite Z.add_0_r|by intros _..].
Qed.

Lemma names_ok_grow names s id a b st : names_ok names s -> issues id a b s -> names !! next_loc s = None ->
  (forall l, names !! l <> Some id) -> names_ok (<[next_loc s := id]> names) (grow id a b st s).
Proof.
  intros [] [] Hnone Hnn.
  assert (Hk : forall l i, names !! l = Some i -> <[next_loc s := id]> names !! l = Some i).
  { intros l i Hl. rewrite lookup_insert_ne; [done|congruence]. }
  split; simpl; try (by eauto).
  - intros l. rewrite !lookup_insert_is_Some. naive_solver.
  - intros l l' i [[<- <-]|[? Hl]]%lookup_insert_Some [[<- ?]|[? Hl']]%lookup_insert_Some; try done; [by destruct (Hnn l')| |by eauto].
    subst. by destruct (Hnn l).
  - intros l i [[<- <-]|[_ Hl]]%lookup_insert_Some; [done|by eauto].
  - intros l i [[<- <-]|[_ Hl]]%lookup_insert_Some; [done|]. apply nm_issued in Hl. case_match; lia.
  - intros l Hl. rewrite lookup_insert_is_Some in Hl. destruct Hl as [<-|[_ Hl]]; [lia|]. apply nm_fresh in Hl. lia.
  - lia.
  - lia.
  - eapply Forall_impl; [exact nm_incoming|]. eauto.
  - intros i cs Hcs. eapply Forall_impl; [by eapply nm_chunks|]. eauto.
Qed.

Lemma full_grow g hs s id a b st : full g hs s -> on_heap s hs -> issues id a b s -> unsent st -> Limits.Valid MAX_PERMITS lim ->
  full (name (next_loc s) id g) hs (grow id a b st s).
Proof.
  intros Hf Hh Hid Hun Hv. pose proof (unnamed _ _ _ _ _ _ Hf Hid) as Hnn. destruct (next_fresh _ _ _ Hf) as [Hnone Hnone'].
  split; [|change (ledger (grow id a b st s) (holds s hs)); by eapply ledger_grow|apply Hf]. pose proof Hf as [[] _ _].
  assert (Hnm : forall i, named g i -> named (name (next_loc s) id g) i).
  { intros i [l Hl]. exists l. simpl. rewrite lookup_insert_ne; [done|congruence]. }
  assert (Hss : forall i st0, stream_sends g (queues s) i st0 -> stream_sends (name (next_loc s) id g) (queues s) i st0).
  { intros i st0. by apply stream_sends_ghost. }
  split; simpl; try done.
  - destruct sv_writer. split; simpl; try done.
    + intros i cs Hcs. eapply queue_ok_heap; [|by apply wi_queues]. intros k Hk. destruct (decide (next_loc s = k)) as [<-|].
      * by rewrite lookup_insert_eq.
      * by rewrite lookup_insert_ne.
    + intros k st' [[<- <-]|[_ Hk]]%lookup_insert_Some; [|by eapply wi_heap]. destruct Hun as (H1 & _ & Hw & _).
      unfold send_half in H1. injection H1 as H1 H2 _ _ _ _. split; rewrite ?H1, ?H2; [lia| |done]. rewrite VarInt.MAX_eq. lia.
  - apply names_ok_grow; try done. intros l Hl. apply Hnn. by exists l.
  - intros l i st' [[<- <-]|[Hne Hl]]%lookup_insert_Some Hst'.
    + rewrite lookup_insert_eq in Hst'. apply (inj Some) in Hst'. subst st'. apply Hss. eapply stream_sends_new; [done..|apply Hun].
    + rewrite lookup_insert_ne in Hst' by done. apply Hss. by eapply sv_streams.
  - eapply Forall_impl; [exact sv_trace|]. auto.
  - eapply Forall_impl; [exact sv_control|]. auto.
  - intros i bs Hb. by eapply Hnm, sv_accepted.
Qed.

(** The maps and the accept queue may list any stream under its name. *)
Lemma full_index g hs s a i w : full g hs s ->
  (forall id l, a !! id = Some l -> g_names g !! l = Some id) -> (forall id l, w !! id = Some l -> g_names g !! l = Some id) ->
  Forall (fun x => g_names g !! x.2 = Some x.1) i ->
  full g hs (s <| streams := a |> <| incoming_streams := i |> <| queues ::= (fun q => q <| receive_windows := w |>) |>).
Proof.
  intros [Hi Hl Hlm] Ha Hw Hin. pose proof Hi as []. split; [|by eapply ledger_same; [..|exact Hl]; try done; intros l st Hst; exists st|done].
  split; try done.
  - destruct sv_writer. split; try done. intros id l Hid. simpl. by eapply (nm_range _ _ sv_names), Hw.
  - destruct sv_names. by split.
  - intros l id st Hn Hst. by eapply (stream_sends_same g (queues s)); [|reflexivity|by eapply sv_streams].
Qed.

End peer.
