(* ===== verification/Duplex.v ===== *)
(** Both halves of a connection together, open or closed: the operations of the
    receiving side keep the sending half, and the other way round, so every operation
    of the connection keeps both. *)

From S2P Require Import Prelude Hoare Buf Varint Utf8 Frames Errors Limits Flow Tokio.
From S2P Require Import ConnState Inbound InboundSpec Writer WriterSpec Scheduler Connection Streams Tasks.
From S2P Require Import ReceiveSpec ReadSpec ReceiveSystem ConnectionSpec Ledger SendSpec SendInv SendOps Halves SendPeer.

#[local] Open Scope Z_scope.

Lemma map_sub_empty {A} (m : gmap Z A) : m ⊆ ∅ -> m = ∅.
Proof. intros H. apply map_eq. intros i. destruct (m !! i) as [a|] eqn:E; [|done]. by apply (lookup_weaken _ _ _ _ E) in H. Qed.

Section duplex.
Context {TK : Tokio} {TKL : TokioLaws TK} {HI : HashIter} {HIL : HashIterLaws HI}.
Context (lim : Limits).
Implicit Types (s : ConnectionShared) (st : StreamState) (q : WriterQueues) (g : Ghost) (hs : list Hold).
Implicit Types (h : RecvStream) (rs : list RecvStream).

(** ** The receiving half, open and closed *)

(** Once the connection is marked closed the stream map is empty and no stream can be
    opened; before, every accepted byte is queued or in a hand, except, when [strict] is
    false, for a frame that was refused and will close the connection. *)
Definition phase (strict : bool) rs s : Prop :=
  if cleanup_started s
  then streams s = ∅ /\ is_closed (open_streams s) = true /\ exists fl, recv_state fl false lim s rs
  else exists fl, (strict = true -> fl = idle) /\ recv_state fl true lim s rs.

Lemma phase_weaken strict rs s : phase true rs s -> phase strict rs s.
Proof.
  unfold phase. destruct (cleanup_started s); [done|]. intros (fl & Hfl & Hr). exists fl. auto.
Qed.

Lemma phase_state strict rs s : phase strict rs s -> exists fl op, recv_state fl op lim s rs.
Proof. unfold phase. destruct (cleanup_started s); [intros (_ & _ & fl & ?)|intros (fl & _ & ?)]; eauto. Qed.

Lemma phase_windows strict rs s : phase strict rs s -> windows_ok s.
Proof.
  intros (fl & op & Hr)%phase_state. pose proof (ri_acct _ _ _ _ _ Hr) as []. split; [done|].
  intros l st Hl. by destruct (ac_streams _ _ Hl).
Qed.

(** The sending side does not matter to it. *)
Lemma phase_sends strict rs s s' : sends_only s s' -> phase strict rs s -> phase strict rs s'.
Proof.
  intros Hs Hp. unfold phase in *. rewrite (so_cleanup _ _ Hs).
  assert (Hk : forall fl op, recv_state fl op lim s rs -> recv_state fl op lim s' rs).
  { intros fl op Hr. eapply inv_settled; [done|]. apply settled_sends; [apply Hr|done]. }
  destruct (cleanup_started s).
  - destruct Hp as (He & Ho & fl & Hr). split_and!; [|by apply (so_open _ _ Hs)|by exists fl; apply Hk].
    pose proof (so_streams _ _ Hs) as Hsub. rewrite He in Hsub. by apply map_sub_empty in Hsub.
  - destruct Hp as (fl & Hfl & Hr). exists fl. auto.
Qed.

(** An operation of the receiving side. *)
Lemma phase_settled strict rs rs' s s' : phase strict rs s ->
  (forall fl op, recv_state fl op lim s rs -> settled fl (hands rs') s s' /\ recv_state fl op lim s' rs') ->
  silent s s' -> phase strict rs' s'.
Proof.
  intros Hp Hs Hq. destruct (phase_state _ _ _ Hp) as (fl0 & op0 & Hr0). destruct (Hs _ _ Hr0) as [[_ Hev] _].
  unfold phase in *. rewrite (eo_cleanup _ _ Hev). destruct (cleanup_started s).
  - destruct Hp as (He & Ho & fl & Hr). split_and!.
    + pose proof (eo_streams _ _ Hev) as Hsub. rewrite He in Hsub. by apply map_sub_empty in Hsub.
    + by rewrite (sn_open _ _ Hq).
    + exists fl. by destruct (Hs _ _ Hr).
  - destruct Hp as (fl & Hfl & Hr). exists fl. split; [done|]. by destruct (Hs _ _ Hr).
Qed.

(** ** Marking the connection closed *)

(** What the receiving half keeps. *)
Definition kept_half st :=
  (chunks (inbound st), fin_received (inbound st), st_window st, available_permits (inbound_stream_bytes st),
   recv_terminal st, recv_discarded st).
Record recv_kept s s' : Prop := {
  rk_limits : limits s' = limits s;
  rk_streams : streams s' ⊆ streams s;
  rk_incoming : incoming_streams s' = incoming_streams s;
  rk_next : next_loc s' = next_loc s;
  rk_window : receive_window s' = receive_window s;
  rk_bytes : available_permits (inbound_conn_bytes s') = available_permits (inbound_conn_bytes s);
  rk_heap : kept_half <$> heap s' = kept_half <$> heap s
}.

#[export] Instance recv_kept_preorder : PreOrder recv_kept.
Proof. split; [done|]. intros x y z [] []. split; try congruence. by etransitivity. Qed.

Lemma sends_kept s s' : sends_only s s' -> recv_kept s s'.
Proof.
  intros []. split; try done; [congruence|]. apply map_eq. intros l.
  apply (f_equal (fun m => m !! l)) in so_heap. rewrite !lookup_fmap in *.
  destruct (heap s !! l) as [a|], (heap s' !! l) as [b|]; try done. simpl in *. apply (inj Some) in so_heap.
  unfold receive_half in so_heap. injection so_heap as Hi Hw Hs Ht Hd. unfold kept_half. by rewrite Hi, Hw, Hs, Ht, Hd.
Qed.

Lemma recv_kept_state fl op rs s s' : recv_kept s s' -> recv_state fl op lim s rs -> recv_state fl false lim s' rs.
Proof.
  intros Hk Hr. pose proof Hk as [Hl Hs Hin Hn Hw Hb Hh].
  assert (Hx : forall l, kept_half <$> heap s' !! l = kept_half <$> heap s !! l) by (intros l; by rewrite <- !lookup_fmap, Hh).
  assert (Hx' : forall l st', heap s' !! l = Some st' -> exists st, heap s !! l = Some st /\ kept_half st' = kept_half st).
  { intros l st' Hl'. specialize (Hx l). rewrite Hl' in Hx. destruct (heap s !! l) as [st|]; [|done].
    exists st. split; [done|by apply (inj Some)]. }
  assert (Hsome : forall l, is_Some (heap s' !! l) <-> is_Some (heap s !! l)).
  { intros l. specialize (Hx l). destruct (heap s !! l), (heap s' !! l); try done. }
  destruct Hr as [Hconf Ha Hlm Hsz _ Hst Hv Hi Hf Hrd].
  split; rewrite ?Hl, ?Hw, ?Hn; try done.
  - destruct Ha as [Hw0 Hsm Hst0 Hhs Hfl Hby Hp].
    assert (Hm : msum queued (heap s') = msum queued (heap s)).
    { apply msum_ext, map_eq. intros l. specialize (Hx l). rewrite !lookup_fmap.
      destruct (heap s' !! l), (heap s !! l); try done. simpl in *. unfold kept_half, queued in *. congruence. }
    split; rewrite ?Hw, ?Hb, ?Hm; try done.
    + intros l st' Hl'. destruct (Hx' l st' Hl') as (st & Hl0 & Hk'). destruct (Hst0 _ _ Hl0).
      unfold kept_half in Hk'. injection Hk' as Hc _ Hwd Hav _ Hd. split; unfold queued in *; rewrite ?Hwd, ?Hc, ?Hd, ?Hav; done.
    + eapply Forall_impl; [exact Hhs|]. intros c [? ?]. split; [by apply Hsome|done].
  - intros l st' Hl'. destruct (Hx' l st' Hl') as (st & Hl0 & Hk'). destruct (Hst _ _ Hl0).
    unfold kept_half in Hk'. injection Hk' as Hc Hfr Hwd _ Ht _. split; rewrite ?Hl, ?Hc, ?Hfr, ?Hwd, ?Ht; done.
  - intros id l Hid. apply Hsome, (Hv id). by eapply lookup_weaken.
  - rewrite Hin. eapply Forall_impl; [exact Hi|]. intros i. apply Hsome.
  - intros l Hl'. by apply Hf, Hsome.
  - eapply Forall_impl; [exact Hrd|]. intros h (st & Hl0 & Hh0 & He).
    destruct (heap s' !! rs_state h) as [st'|] eqn:E; [|by destruct (proj2 (Hsome (rs_state h))) as [? ?]; [rewrite Hl0; eauto|congruence]].
    exists st'. split_and!; [done|done|]. destruct (Hx' _ _ E) as (st2 & Hl2 & Hk2). assert (st2 = st) as -> by congruence.
    unfold kept_half in Hk2. injection Hk2 as Hc _ _ _ Ht _. unfold content. by rewrite Hc, Ht.
Qed.

Lemma kept_mark_streams ls : respects recv_kept (mark_streams_closed ls).
Proof.
  induction ls as [|[id l] ls IH]; simpl; [apply respects_ret; typeclasses eauto|]. apply respects_bind; [typeclasses eauto| |done].
  unfold mark_connection_closed, upd_inbound, upd_state, notify. apply respects_bind; [typeclasses eauto| |intros _].
  - apply respects_modify. intros s. split; try done. by apply fmap_alter_same.
  - apply respects_bind; [typeclasses eauto| |intros _; by apply respects_modify]. apply respects_modify. intros s. split; try done.
    simpl. apply fmap_alter_same. intros st. unfold kept_half. simpl. by rewrite close_available.
Qed.

(** Marking the streams leaves the rest alone. *)
Definition beside s s' : Prop :=
  (cleanup_started s', streams s', open_streams s') = (cleanup_started s, streams s, open_streams s).
#[export] Instance beside_preorder : PreOrder beside.
Proof. split; [done|]. intros x y z. unfold beside. congruence. Qed.

Lemma beside_mark_streams ls : respects beside (mark_streams_closed ls).
Proof.
  induction ls as [|[id l] ls IH]; simpl; [apply respects_ret; typeclasses eauto|]. apply respects_bind; [typeclasses eauto| |done].
  unfold mark_connection_closed, upd_inbound, upd_state, notify.
  repeat (apply respects_bind; [typeclasses eauto| |intros _]); by apply respects_modify.
Qed.

Lemma modify_run (u : ConnectionShared -> ConnectionShared) s (r : Result Error unit) s' : modify u s = (r, s') -> s' = u s.
Proof. unfold modify. congruence. Qed.
Lemma gets_run {A} (u : ConnectionShared -> A) s (a : A) s' : (gets u : Conn A) s = (Ok a, s') -> a = u s /\ s' = s.
Proof. unfold gets. intros [= <- <-]. done. Qed.

Lemma sends_shutdown : respects sends_only shutdown.
Proof.
  unfold shutdown. repeat (apply respects_bind; [typeclasses eauto| |intros _]); [apply sends_clear_queues|by apply respects_modify..].
Qed.

Lemma mark_closed_run s s' u : mark_closed s = (Ok u, s') ->
  recv_kept s s' /\ cleanup_started s' = true /\
  if cleanup_started s then streams s' = streams s /\ open_streams s' = open_streams s
  else streams s' = ∅ /\ is_closed (open_streams s') = true.
Proof.
  unfold mark_closed, notify. intros H. apply bind_inv in H as (? & s1 & ->%modify_run & H).
  apply bind_inv in H as (? & s1 & ->%modify_run & H). apply bind_inv in H as (b & s1 & [-> ->]%gets_run & H).
  apply bind_inv in H as (? & s1 & ->%modify_run & H). simpl in H.
  destruct (cleanup_started s) eqn:Hc; simpl in H; [apply ret_run in H as ->; by split|].
  apply bind_inv in H as (? & s2 & Hs2%modify_run & H).
  assert (Hk2 : recv_kept s s2) by (rewrite Hs2; split; try done; simpl; by rewrite close_available).
  assert (Ho2 : is_closed (open_streams s2) = true) by (rewrite Hs2; simpl; by rewrite close_closed).
  assert (Hc2 : cleanup_started s2 = true) by (by rewrite Hs2). clear Hs2.
  apply bind_inv in H as (? & s3 & Hs3%sends_shutdown & H). apply bind_inv in H as (? & s4 & ->%modify_run & H).
  apply bind_inv in H as (t & s4 & [-> ->]%gets_run & H). apply bind_inv in H as (? & s4 & ->%modify_run & H).
  pose proof (kept_mark_streams _ _ _ _ H) as Hk4. pose proof (beside_mark_streams _ _ _ _ H) as Hb. injection Hb as Hb1 Hb2 Hb3.
  split_and!.
  - etransitivity; [exact Hk2|]. etransitivity; [by apply sends_kept|]. etransitivity; [|exact Hk4].
    split; try done. apply map_empty_subseteq.
  - by rewrite Hb1, <- Hc2, <- (so_cleanup _ _ Hs3).
  - done.
  - rewrite Hb3. by apply (so_open _ _ Hs3).
Qed.

Lemma phase_closed strict rs s s' u : phase strict rs s -> mark_closed s = (Ok u, s') -> phase true rs s'.
Proof.
  intros Hp (Hk & Hc & Hb)%mark_closed_run. destruct (phase_state _ _ _ Hp) as (fl0 & op0 & Hr0).
  unfold phase in *. rewrite Hc. destruct (cleanup_started s).
  - destruct Hp as (He & Ho & fl & Hr), Hb as [-> ->]. split_and!; [done..|]. exists fl. by eapply recv_kept_state.
  - destruct Hb. split_and!; [done..|]. exists fl0. by eapply recv_kept_state.
Qed.

(** ** Both halves *)

Record duplex (strict : bool) g hs rs s : Prop := {
  dx_send : full lim g hs s;
  dx_recv : phase strict rs s
}.

Lemma keeps_sends {A} (m : Conn A) strict g hs rs : respects sends_only m -> keeps (full lim g hs) m ->
  keeps (duplex strict g hs rs) m.
Proof.
  intros Hm Hk s [Hf Hp]. eapply wp_mono; [apply wp_respects; [exact Hm|by apply Hk]|..]; simpl;
    intros ? s' [Hs ?]; split; try done; by eapply phase_sends.
Qed.

Lemma duplex_silent strict g hs rs' s s' : full lim g hs s -> silent s s' -> phase strict rs' s' -> duplex strict g hs rs' s'.
Proof. intros Hf Hs Hp. split; [|done]. by apply (full_silent lim g hs s s'); [|apply (phase_windows strict rs')|]. Qed.

Lemma wp_mark_closed_duplex strict g hs rs s : duplex strict g hs rs s ->
  wp mark_closed s (fun _ s' => duplex true g hs rs s') (fun _ _ => False).
Proof.
  intros [Hf Hp]. eapply wp_mono; [apply wp_with_run; by apply (wp_mark_closed_full lim g hs)| |done].
  intros u s' [Hrun Hf']. split; [done|]. by eapply phase_closed.
Qed.

Lemma keeps_mark_closed_duplex strict g hs rs : keeps (duplex strict g hs rs) mark_closed.
Proof.
  intros s Hd. eapply wp_mono; [by eapply wp_mark_closed_duplex| |done]. intros _ s' []. split; [done|by apply phase_weaken].
Qed.

(** ** Opening a stream *)

Lemma phase_reader strict rs s id l : phase strict rs s -> is_Some (heap s !! l) -> phase strict (new_reader id l :: rs) s.
Proof.
  intros Hp [st Hl]. assert (Hk : forall fl op, recv_state fl op lim s rs -> recv_state fl op lim s (new_reader id l :: rs)).
  { intros fl op []. split; try done. constructor; [|done]. exists st. split_and!; [done|constructor|done]. }
  unfold phase in *. destruct (cleanup_started s).
  - destruct Hp as (? & ? & fl & ?). split_and!; [done..|]. exists fl. auto.
  - destruct Hp as (fl & ? & ?). exists fl. auto.
Qed.

Lemma phase_grown rs s s' : phase true rs s -> cleanup_started s = false -> grown s s' -> phase true rs s'.
Proof.
  unfold phase. intros Hp Hc Hg. rewrite (gr_cleanup _ _ Hg), Hc in *. destruct Hp as (fl & Hfl & Hr).
  specialize (Hfl eq_refl). subst fl. exists idle. split; [done|by eapply inv_open].
Qed.

Lemma phase_open_sem rs s n p sem : phase true rs s -> try_acquire_many n (open_streams s) = Some (p, sem) -> cleanup_started s = false.
Proof.
  unfold phase. intros Hp (Ho & _)%acquire_some. destruct (cleanup_started s); [|done]. destruct Hp as (_ & ? & _). congruence.
Qed.

Definition new_state (p : Permit) : StreamState :=
  stream_state_new (max_inbound_stream_bytes lim) (max_outbound_stream_bytes lim) p
    (max_queued_outbound_frames lim / max_open_streams lim).

Lemma wp_new_stream p s (Q : loc -> ConnectionShared -> Prop) (R : Error -> ConnectionShared -> Prop) : limits s = lim ->
  Q (next_loc s) (s <| heap ::= insert (next_loc s) (new_state p) |> <| next_loc := S (next_loc s) |>) ->
  wp (new_stream p) s Q R.
Proof. intros Hl HQ. unfold wp, new_stream, new_state in *. by rewrite Hl. Qed.

Lemma unsent_new p : Limits.Valid MAX_PERMITS lim -> unsent lim (new_state p).
Proof.
  intros Hv. unfold unsent. simpl. rewrite !new_open, !new_available. split_and!; try done.
  apply ReceiveWindow.inv_new. destruct Hv. rewrite VarInt.MAX_eq. unfold u32_max in *. lia.
Qed.

(** The admission permit plays no role here. *)
Lemma full_sem g hs s sem : full lim g hs s -> is_closed sem = is_closed (open_streams s) -> full lim g hs (s <| open_streams := sem |>).
Proof.
  intros Hf Hc. apply (full_silent lim g hs s); [by apply silent_like|exact (full_windows lim g hs s Hf)|done].
Qed.
Lemma phase_sem strict rs s sem : phase strict rs s -> is_closed sem = is_closed (open_streams s) ->
  phase strict rs (s <| open_streams := sem |>).
Proof.
  intros Hp Hc. eapply phase_sends; [|exact Hp]. split; try done. simpl. by rewrite Hc.
Qed.
Lemma duplex_sem strict g hs rs s sem : duplex strict g hs rs s -> is_closed sem = is_closed (open_streams s) ->
  duplex strict g hs rs (s <| open_streams := sem |>).
Proof. intros [] ?. split; [by apply full_sem|by apply phase_sem]. Qed.

Definition opened g hs rs (p : Poll (Z * loc)) s' : Prop :=
  match p with
  | Pending => duplex true g hs rs s'
  | Ready (id, l) => duplex true (name l id g) hs (new_reader id l :: rs) s' /\ g_names g !! l = None
  end.

(** A new stream under its name, in the maps and perhaps in the accept queue. *)
Definition listed (id a b : Z) (p : Permit) (i : list (Z * loc)) s : ConnectionShared :=
  (grow id a b (new_state p) s) <| streams := insert id (next_loc s) (streams s) |> <| incoming_streams := i |>
    <| queues ::= (fun q => q <| receive_windows := insert id (next_loc s) (receive_windows (queues s)) |>) |>.

Lemma full_listed g hs s id a b p i : full lim g hs s -> on_heap s hs -> Limits.Valid MAX_PERMITS lim -> issues id a b s ->
  (i = incoming_streams s \/ i = incoming_streams s ++ [(id, next_loc s)]) ->
  full lim (name (next_loc s) id g) hs (listed id a b p i s).
Proof.
  intros Hf Hh Hv Hid Hi. destruct (next_fresh lim g hs s Hf) as [_ Hnone].
  pose proof (sv_names _ _ (fu_inv _ _ _ _ Hf)) as Hnm.
  assert (Hk : forall j k, g_names g !! j = Some k -> <[next_loc s := id]> (g_names g) !! j = Some k).
  { intros j k Hj. rewrite lookup_insert_ne; [done|]. intros <-. congruence. }
  assert (Hin : Forall (fun x => <[next_loc s := id]> (g_names g) !! x.2 = Some x.1) (incoming_streams s)).
  { eapply Forall_impl; [exact (nm_incoming _ _ Hnm)|]. intros x Hx. by apply Hk. }
  apply (full_index lim _ hs (grow id a b (new_state p) s) (<[id := next_loc s]> (streams s)) i
    (<[id := next_loc s]> (receive_windows (queues s)))); simpl.
  - apply full_grow; try done. by apply unsent_new.
  - intros k j [[<- <-]|[Hne Hj]]%lookup_insert_Some; [by rewrite lookup_insert_eq|]. by apply Hk, (nm_streams _ _ Hnm).
  - intros k j [[<- <-]|[Hne Hj]]%lookup_insert_Some; [by rewrite lookup_insert_eq|]. by apply Hk, (nm_windows _ _ Hnm).
  - destruct Hi as [-> | ->]; [done|]. apply Forall_app. split; [done|]. constructor; [|done]. simpl. by rewrite lookup_insert_eq.
Qed.

Lemma duplex_grown g hs rs s s1 t id : duplex true g hs rs s -> cleanup_started s = false ->
  full lim (name (next_loc s) id g) hs s1 -> silent s1 t -> grown s t -> duplex true (name (next_loc s) id g) hs rs t.
Proof. intros [_ Hp] Hcl Hf Hs Hg. eapply duplex_silent; [exact Hf|done|]. by eapply phase_grown. Qed.

Lemma mod_add_2 n : (n + 2) mod 2 = n mod 2.
Proof. replace (n + 2) with (n + 1 * 2) by lia. apply Z_mod_plus_full. Qed.

(** Opening a stream: the state before its handles are counted. *)
Lemma open_grows g hs rs s p t : duplex true g hs rs s -> on_heap s hs -> Limits.Valid MAX_PERMITS lim ->
  cleanup_started s = false -> next_local_stream_id s <= VarInt.MAX -> closing (queues s) = false ->
  zlen (control (queues s)) < writer_max_control_frames s ->
  let id := next_local_stream_id s in
  silent (push_control (OpenStream (mkVarInt id)) (listed id (id + 2) (next_remote_stream_id s) p (incoming_streams s) s)) t ->
  grown s t -> duplex true (name (next_loc s) id g) hs rs t /\ g_names g !! next_loc s = None.
Proof.
  intros Hd Hh Hv Hcl Hmax Hclo Hlen id Hs Hg. pose proof (dx_send _ _ _ _ _ Hd) as Hf.
  pose proof (sv_names _ _ (fu_inv _ _ _ _ Hf)) as Hnm. destruct (nm_local _ _ Hnm) as [H0 Hpar]. destruct (nm_remote _ _ Hnm) as [H0' Hpar'].
  split; [|by apply (next_fresh lim g hs)]. eapply duplex_grown; [done..| |exact Hs|done].
  assert (Hm : id mod 2 =? local_parity s = true) by (apply Z.eqb_eq; done).
  apply full_push; [|done|done|by split_and!]. apply full_listed; try done; [|by left].
  split; rewrite ?Hm; subst id; rewrite ?mod_add_2; lia.
Qed.

Lemma wp_add_handles strict g hs rs s id l : duplex strict g hs rs s -> is_Some (heap s !! l) ->
  wp (add_handles l) s (fun _ s' => duplex strict g hs (new_reader id l :: rs) s') (fun _ _ => False).
Proof.
  intros [Hf Hp] Hl. unfold add_handles, upd_state. wp_step. split; [by apply full_upd|].
  apply phase_reader; [|simpl; by apply alter_is_Some]. eapply phase_sends; [|exact Hp]. split; try done. by apply fmap_alter_same.
Qed.

Lemma wp_open_bi g hs rs s : Limits.Valid MAX_PERMITS lim -> duplex true g hs rs s -> on_heap s hs ->
  wp open_bi_admitted s (fun p s' => opened g hs rs p s') (fun _ s' => duplex true g hs rs s').
Proof.
  intros Hv Hd Hh. unfold open_bi_admitted. wp_step. wp_step. unfold acquire_many.
  destruct (is_closed (open_streams s)) eqn:Ho; [by wp_step|].
  destruct (try_acquire_many 1 (open_streams s)) as [[p sem]|] eqn:Ht; [|by wp_step].
  pose proof (phase_open_sem _ _ _ _ _ (dx_recv _ _ _ _ _ Hd) Ht) as Hcl. destruct (acquire_some _ _ _ _ Ht) as (_ & Hsem & _).
  wp_step. wp_step. set (s1 := s <| open_streams := sem |>).
  assert (Hd1 : duplex true g hs rs s1) by (apply duplex_sem; [done|by rewrite Hsem]).
  assert (Hcl1 : cleanup_started s1 = false) by exact Hcl. assert (Hh1 : on_heap s1 hs) by exact Hh. clearbody s1. clear Hd Hcl Hh.
  assert (Hdrop : forall x, duplex true g hs rs x -> wp (drop_open_permit p) x (fun _ s' => duplex true g hs rs s') (fun _ s' => duplex true g hs rs s')).
  { intros x Hx. unfold drop_open_permit. wp_step. apply (duplex_sem true g hs rs x (permit_drop p (open_streams x))); [done|apply drop_closed]. }
  wp_step. unfold or_drop_permit at 1, ensure_open. apply wp_on_err. wp_step. wp_step. wp_step; [by apply Hdrop|].
  unfold get_queues. wp_step. wp_step. wp_step. wp_step. wp_step.
  { wp_step. eapply wp_mono; [by apply (wp_mark_closed_duplex true g hs rs)| |done]. intros ? s2 Hd2. wp_step.
    eapply wp_mono; [by apply Hdrop|done|done]. }
  wp_step. apply wp_on_err. unfold take_stream_id. wp_step. wp_step. wp_step; [|by apply Hdrop]. wp_step. wp_step. wp_step.
  wp_step. apply wp_new_stream; [apply Hd1|]. wp_step. apply wp_on_err.
  pose proof (nm_local _ _ (sv_names _ _ (fu_inv _ _ _ _ (dx_send _ _ _ _ _ Hd1)))) as Hloc.
  unfold proto_stream_id. rewrite VarInt.from_u64_ok by lia. simpl map_err. wp_step.
  unfold upd_queues, notify. wp_step. wp_step. wp_step. wp_step. wp_step. wp_step. wp_step. wp_step. wp_step.
  set (t := _ <| stats ::= _ |>). bool_to_prop.
  assert (Hg : grown s1 t).
  { split; try done; [|exact (incoming_kept s1)|by rewrite (fu_limits _ _ _ _ (dx_send _ _ _ _ _ Hd1)); eexists _, _, _]. simpl. intros k j [[_ <-]|[_ ?]]%lookup_insert_Some; [by right|by left]. }
  assert (Hdt : duplex true (name (next_loc s1) (next_local_stream_id s1) g) hs rs t /\ g_names g !! next_loc s1 = None).
  { eapply (open_grows g hs rs s1 p t); try done; by apply silent_like. }
  assert (Hlive : is_Some (heap t !! next_loc s1)) by (simpl; by rewrite lookup_insert_eq).
  clearbody t. destruct Hdt as [Hdt Hnone]. clear Hg.
  eapply wp_mono; [exact (wp_add_handles true _ hs rs t (next_local_stream_id s1) (next_loc s1) Hdt Hlive)| |done].
  intros ? s' Hd'. wp_step. by split.
Qed.

(** The peer opens a stream.  It is named even when the accept queue is full and the
    connection fails. *)
Definition renamed (id : Z) s s' g : Ghost :=
  if decide (next_loc s' = next_loc s) then g else name (next_loc s) id g.

Lemma renamed_same id s g : renamed id s s g = g.
Proof. unfold renamed. by rewrite decide_True. Qed.
Lemma renamed_grown id s s' g : grown s s' -> renamed id s s' g = name (next_loc s) id g.
Proof. intros Hg. unfold renamed. rewrite decide_False; [done|]. rewrite (gr_next _ _ Hg). lia. Qed.

Lemma wp_remote_open_duplex g hs rs s id : Limits.Valid MAX_PERMITS lim -> duplex true g hs rs s -> on_heap s hs ->
  0 <= id <= VarInt.MAX ->
  wp (on_remote_open id) s (fun _ s' => duplex true (renamed id s s' g) hs rs s')
    (fun _ s' => duplex true (renamed id s s' g) hs rs s').
Proof.
  intros Hv Hd Hh Hid. pose proof (dx_send _ _ _ _ _ Hd) as Hf.
  pose proof (sv_names _ _ (fu_inv _ _ _ _ Hf)) as Hnm. destruct (nm_local _ _ Hnm) as [H0 Hpar]. destruct (nm_remote _ _ Hnm) as [H0' Hpar'].
  unfold on_remote_open. wp_step. wp_step. wp_step. wp_step; [by rewrite renamed_same|]. wp_step. wp_step.
  wp_step. wp_step; [by rewrite renamed_same|]. wp_step. unfold checked_add. rewrite VarInt.MAX_eq in Hid.
  rewrite (proj2 (Z.leb_le (id + 2) u64_max)) by (unfold u64_max; lia). simpl expect. wp_step. wp_step. wp_step.
  destruct (try_acquire_many 1 (open_streams s)) as [[p sem]|] eqn:Ht; [|wp_step; by rewrite renamed_same].
  pose proof (phase_open_sem _ _ _ _ _ (dx_recv _ _ _ _ _ Hd) Ht) as Hcl. destruct (acquire_some _ _ _ _ Ht) as (Hop & Hsem & _).
  wp_step. wp_step. wp_step. apply wp_new_stream; [apply Hd|]. wp_step. wp_step. wp_step. apply wp_or_drop; intros Hex.
  2:{ exfalso. apply bool_decide_eq_true in Hex as [l Hl]. pose proof (nm_issued _ _ Hnm _ _ (nm_streams _ _ Hnm _ _ Hl)) as Hlt.
      destruct (Z.eqb_spec (id mod 2) (local_parity s)); lia. }
  assert (Hiss : issues id (next_local_stream_id s) (id + 2) s).
  { assert (Hm : id mod 2 =? local_parity s = false) by (apply Z.eqb_neq; lia).
    split; rewrite ?Hm, ?mod_add_2; [rewrite VarInt.MAX_eq; lia|lia..|].
    split; [lia|by rewrite E0]. }
  assert (Hstr : forall k l, <[id := next_loc s]> (streams s) !! k = Some l -> streams s !! k = Some l \/ l = next_loc s).
  { intros k l [[_ <-]|[_ ?]]%lookup_insert_Some; [by right|by left]. }
  assert (Hdone : forall i t, (i = incoming_streams s \/ i = incoming_streams s ++ [(id, next_loc s)]) ->
    silent (listed id (next_local_stream_id s) (id + 2) p i s) t -> grown s t -> duplex true (renamed id s t g) hs rs t).
  { intros i t Hi Hs Hg. rewrite (renamed_grown _ _ _ _ Hg). eapply duplex_grown; [done|done| |exact Hs|done]. by apply full_listed. }
  unfold upd_queues, notify. wp_step. wp_step. wp_step. wp_step. wp_step. wp_step. wp_step. wp_step. wp_step. wp_step.
  wp_step. wp_step. wp_step. wp_step.
  - apply (Hdone (incoming_streams s)); [by left| |].
    + apply silent_like; try done. simpl. by rewrite Hop, Hsem.
    + split; try done; [exact (incoming_kept s)|by rewrite (fu_limits _ _ _ _ Hf); eexists _, _, _].
  - wp_step. wp_step. wp_step. apply (Hdone (incoming_streams s ++ [(id, next_loc s)])); [by right| |].
    + apply silent_like; try done. simpl. by rewrite Hop, Hsem.
    + split; try done; [|by rewrite (fu_limits _ _ _ _ Hf); eexists _, _, _]. apply Forall_app. split; [exact (incoming_kept s)|].
      constructor; [by right|done].
Qed.

End duplex.
