(* ===== verification/DuplexOps.v ===== *)
(** Every operation keeps both halves of the connection: the writer, the readers, the
    frames of the peer, and the tasks. *)

From S2P Require Import Prelude Hoare Buf Varint Utf8 Frames Errors Limits Flow Tokio.
From S2P Require Import ConnState Inbound InboundSpec Writer WriterSpec Scheduler Connection Streams Tasks.
From S2P Require Import ReceiveSpec ReadSpec ReceiveSystem ConnectionSpec Ledger SendSpec SendInv SendOps Halves.
From S2P Require Import ErrorText SendPeer Duplex.

#[local] Open Scope Z_scope.

Section ops.
Context {TK : Tokio} {TKL : TokioLaws TK} {HI : HashIter} {HIL : HashIterLaws HI}.
Context (lim : Limits) (Hlim : Limits.Valid MAX_PERMITS lim).
Implicit Types (s : ConnectionShared) (st : StreamState) (q : WriterQueues) (g : Ghost) (hs : list Hold).
Implicit Types (h : RecvStream) (rs : list RecvStream).
Infix "≈" := core_eq (at level 70).

Abbreviation full := (full lim).
Abbreviation phase := (phase lim).
Abbreviation duplex := (duplex lim).

(** ** The writer *)

Lemma sends_queue s u : sends_only s (s <| queues ::= u |>).
Proof. done. Qed.

Lemma phase_settle strict rs s s' s1 : phase strict rs s ->
  (forall fl, acct fl s (hands rs) -> settled fl (hands rs) s s1) -> silent s s1 -> sends_only s1 s' -> phase strict rs s'.
Proof.
  intros Hp Hs Hq Hso. eapply phase_sends; [exact Hso|]. eapply phase_settled; [exact Hp| |exact Hq].
  intros fl op Hr. specialize (Hs fl (ri_acct _ _ _ _ _ Hr)). split; [done|by eapply inv_settled].
Qed.

Lemma phase_outcome strict rs s p s' : phase strict rs s -> outcome s p s' -> phase strict rs s'.
Proof.
  intros Hp Ho. destruct Ho as [f rest _ _ _|_ _ _ Hn|id l st _ _ _ _ _ Hl _ Hn|pre id post c rest st s' _ _ _ _ n _ Hrun|turn _|_ _ _ _].
  - eapply phase_sends; [apply sends_queue|exact Hp].
  - eapply (phase_settle strict rs s _ (s <| receive_window ::= ReceiveWindow.raised |>)); [done| |by apply silent_like|apply sends_queue].
    intros fl Ha. by apply settled_conn_window.
  - eapply (phase_settle strict rs s _ (s <| heap ::= alter raise_window l |>)); [done| |by eapply (silent_state l raise_window)|apply sends_queue].
    intros fl Ha. by eapply settled_stream_window.
  - eapply phase_sends; [by eapply sends_data|]. eapply phase_sends; [apply sends_queue|exact Hp].
  - eapply phase_sends; [apply sends_queue|exact Hp].
  - eapply phase_sends; [apply sends_queue|exact Hp].
Qed.

Lemma outcome_limits s p s' : outcome s p s' -> limits s' = limits s.
Proof. intros Ho. destruct Ho as [| | |pre id post c rest st s' _ _ _ _ n Hs' _| |]; try done. exact (f_equal limits Hs'). Qed.

Lemma wp_next_frame_duplex g hs rs s : duplex true g hs rs s ->
  wp next_frame s (fun p s' => duplex true (emit_poll p g) hs rs s') (fun _ _ => False).
Proof.
  intros [[Hi Hl Hlm] Hp]. pose proof (sv_writer _ _ Hi) as Hw. eapply wp_mono; [by apply wp_next_frame| |done].
  intros p s' Ho. split; [|by eapply phase_outcome]. split; [by eapply send_inv_outcome|by eapply ledger_outcome|].
  by rewrite (outcome_limits _ _ _ Ho).
Qed.

(** ** The readers *)

(** An operation of the receiving side that settles the accounts. *)
Lemma wp_receiver {A} (m : Conn A) strict g hs rs s (f : A -> list RecvStream -> Prop) :
  duplex strict g hs rs s -> respects silent m ->
  (forall fl op, recv_state fl op lim s rs ->
    wp m s (fun a s' => exists rs', f a rs' /\ settled fl (hands rs') s s' /\ recv_state fl op lim s' rs')
      (fun _ s' => settled fl (hands rs) s s' /\ recv_state fl op lim s' rs)) ->
  (forall a rs1 rs2, f a rs1 -> f a rs2 -> rs1 = rs2) ->
  wp m s (fun a s' => exists rs', f a rs' /\ duplex strict g hs rs' s') (fun _ s' => duplex strict g hs rs s').
Proof.
  intros [Hf Hp] Hm Hwp Hfun. destruct (phase_state _ _ _ _ Hp) as (fl0 & op0 & Hr0).
  pose proof (wp_respects silent m s _ _ Hm (Hwp _ _ Hr0)) as H0. unfold wp in *. specialize (fun fl op Hr => Hwp fl op Hr).
  destruct (m s) as [[a|e|] s']; [|..|done].
  - destruct H0 as [Hs (rs' & Hrs' & Hset & Hst)]. exists rs'. split; [done|]. eapply duplex_silent; [done..|].
    eapply phase_settled; [exact Hp| |done]. intros fl op Hr. destruct (Hwp fl op Hr) as (rs2 & H2 & ? & ?).
    by rewrite (Hfun _ _ _ Hrs' H2).
  - destruct H0 as [Hs _]. eapply duplex_silent; [done..|]. eapply phase_settled; [exact Hp| |done].
    intros fl op Hr. apply (Hwp fl op Hr).
Qed.

Lemma wp_read_duplex strict g hs rs s h : duplex strict g hs rs s -> h ∈ rs ->
  wp (recv_read_chunk h) s (fun _ s' => duplex strict g hs rs s') (fun _ s' => duplex strict g hs rs s').
Proof.
  intros Hd Hh. eapply wp_mono; [apply (wp_receiver _ strict g hs rs s (fun _ rs' => rs' = rs) Hd); [apply silent_recv_read| |congruence]| |done].
  - intros fl op Hr. pose proof (ri_readers _ _ _ _ _ Hr) as Hrd. rewrite Forall_forall in Hrd. destruct (Hrd h Hh) as (st & Hl & _).
    eapply wp_mono; [apply (wp_recv_read_chunk h st s (hands rs) (ri_acct _ _ _ _ _ Hr) Hl)|..].
    + intros p s' [Hst _]. exists rs. split_and!; [done|done|by eapply inv_settled].
    + intros e s' Hst. split; [done|by eapply inv_settled].
  - by intros ? s' (? & -> & ?).
Qed.

Lemma wp_poll_duplex strict g hs rs1 h rs2 s n : duplex strict g hs (rs1 ++ h :: rs2) s -> 0 < n ->
  wp (poll_read h n) s (fun r s' => duplex strict g hs (rs1 ++ r.1 :: rs2) s') (fun _ _ => False).
Proof.
  intros Hd Hn. assert (Hw : wp (poll_read h n) s (fun r s' => exists rs', rs' = rs1 ++ r.1 :: rs2 /\ duplex strict g hs rs' s')
    (fun _ s' => duplex strict g hs (rs1 ++ h :: rs2) s')).
  { apply (wp_receiver _ strict g hs (rs1 ++ h :: rs2) s (fun r rs' => rs' = rs1 ++ r.1 :: rs2) Hd); [apply silent_poll_read| |congruence].
    intros fl op Hr. destruct (inv_reads _ _ _ _ _ _ _ Hr) as (st & Hl & Hrd & Ha' & Hrs).
    destruct (poll_read_ok fl h st s _ n Ha' Hl Hrd Hn) as ([h' p] & s1 & Hrun & Hp). unfold wp. rewrite Hrun.
    exists (rs1 ++ h' :: rs2). split; [done|]. destruct (_ || _).
    - assert (Hst : recv_state fl op lim s1 (rs1 ++ h' :: rs2)) by (by eapply inv_polled). split; [|done].
      split; [apply Hst|]. by destruct Hp as (? & _).
    - destruct Hp as [-> [m Hm]]. injection Hm as -> _. split; [|done]. split; [apply Hr|done]. }
  pose proof (dx_recv _ _ _ _ _ _ Hd) as Hp. apply phase_state in Hp as (fl & op & Hr).
  destruct (inv_reads _ _ _ _ _ _ _ Hr) as (st & Hl & Hrd & Ha' & _).
  destruct (poll_read_ok fl h st s _ n Ha' Hl Hrd Hn) as (r & s1 & Hrun & _). unfold wp in *. rewrite Hrun in *.
  by destruct Hw as (? & -> & ?).
Qed.

Lemma wp_drop_duplex strict g hs rs1 h rs2 s : duplex strict g hs (rs1 ++ h :: rs2) s ->
  wp (drop_reader h) s (fun _ s' => duplex strict g hs (rs1 ++ rs2) s') (fun _ _ => False).
Proof.
  intros Hd. pose proof (wp_receiver (drop_reader h) strict g hs (rs1 ++ h :: rs2) s (fun _ rs' => rs' = rs1 ++ rs2) Hd (silent_drop_reader h)) as Hw.
  assert (Hgo : forall fl op, recv_state fl op lim s (rs1 ++ h :: rs2) ->
    wp (drop_reader h) s (fun _ s' => settled fl (hands (rs1 ++ rs2)) s s' /\ recv_state fl op lim s' (rs1 ++ rs2)) (fun _ _ => False)).
  { intros fl op Hr. destruct (inv_reads _ _ _ _ _ _ _ Hr) as (st & Hl & Hrd & Ha' & Hrs).
    eapply wp_mono; [apply (wp_drop_reader h st s _ (fun _ _ => False) Ha' Hl (rd_hand _ _ Hrd))| |done].
    intros ? s' Hst. split; [done|]. apply (inv_evolve fl op lim s (rs1 ++ h :: rs2)); [done..|].
    eapply Forall_impl; [apply Hrs|]. intros x. apply reader_evolve, Hst. }
  pose proof (dx_recv _ _ _ _ _ _ Hd) as Hp. apply phase_state in Hp as (fl & op & Hr). specialize (Hgo fl op Hr) as Hne.
  eapply wp_mono; [eapply wp_conj; [exact Hne|apply Hw; [|congruence]]|..]; simpl.
  - intros fl' op' Hr'. eapply wp_mono; [by apply (Hgo fl' op')| |done]. intros ? s' [? ?]. by exists (rs1 ++ rs2).
  - by intros ? s' [_ (? & -> & ?)].
  - by intros ? ? [[] _].
Qed.

Lemma wp_accept_duplex strict g hs rs s : duplex strict g hs rs s ->
  wp accept_bi s (fun p s' => match p with Ready (id, l) => duplex strict g hs (new_reader id l :: rs) s' /\ g_names g !! l = Some id
                              | Pending => duplex strict g hs rs s' end) (fun _ s' => duplex strict g hs rs s').
Proof.
  intros Hd. unfold accept_bi, ensure_open. wp_step. wp_step. wp_step. wp_step; [done|]. wp_step. wp_step.
  destruct (incoming_streams s) as [|[id l] rest] eqn:Hin; [by wp_step|].
  pose proof Hd as [Hf Hp]. pose proof (nm_incoming _ _ (sv_names _ _ (fu_inv _ _ _ _ Hf))) as Hnm.
  rewrite Hin in Hnm. apply Forall_cons in Hnm as [Hnm _]. simpl in Hnm.
  wp_step. wp_step. set (s1 := s <| incoming_streams := rest |>).
  assert (Hsub : incoming_streams s1 ⊆ incoming_streams s) by (simpl; rewrite Hin; set_solver).
  assert (Hs1 : silent s s1) by (by apply silent_like).
  assert (Hd1 : duplex strict g hs rs s1).
  { eapply duplex_silent; [exact Hf|done|]. eapply (phase_settle strict rs s s1 s1); [done| |done|done].
    intros fl Ha. split; [by apply (acct_same _ s)|]. by split. }
  assert (Hlive : is_Some (heap s1 !! l)) by (apply (nm_dom _ _ (sv_names _ _ (fu_inv _ _ _ _ Hf))); by eexists).
  clearbody s1. wp_step. eapply wp_mono; [by apply (wp_add_handles lim strict g hs rs s1 id l)| |done].
  intros ? s' Hd'. by wp_step.
Qed.

(** ** Frames of the peer *)

Lemma lost_bytes rs s n : recv_state idle true lim s rs -> 0 <= n <= ReceiveWindow.credit (receive_window s) ->
  recv_state (next_loc s, n) true lim (s <| receive_window ::= got n |>) rs.
Proof.
  intros Hr Hn. pose proof Hr as [Hconf Ha Hlm Hsz Ho Hst Hv Hi Hf Hrd]. destruct Ha as [Hw Hsm Hss Hh Hfl Hb Hp].
  destruct (got_inv _ n Hw Hn) as (Hw' & Hbuf). change (idle.2) with 0 in *.
  split; try done; [|intros l st Hl; by destruct (Hst l st Hl)].
  split; simpl; rewrite ?Hbuf; try done; [|lia..]. intros l st Hl. destruct (Hss _ _ Hl). split; try done.
  rewrite in_flight_idle in sa_bytes. unfold in_flight. simpl. rewrite decide_False; [done|].
  intros <-. assert (Hx : is_Some (heap s !! next_loc s)) by eauto. apply Hf in Hx. lia.
Qed.

(** The peer's frames are for streams of the map; there are none once the connection is
    marked closed. *)
Lemma phase_found rs s id l : phase true rs s -> streams s !! id = Some l ->
  cleanup_started s = false /\ recv_state idle true lim s rs.
Proof.
  unfold Duplex.phase. intros Hp Hs. destruct (cleanup_started s).
  - destruct Hp as [He _]. by rewrite He in Hs.
  - destruct Hp as (fl & Hfl & Hr). split; [done|]. by rewrite (Hfl eq_refl) in Hr.
Qed.

Lemma duplex_weaken strict g hs rs s : duplex true g hs rs s -> duplex strict g hs rs s.
Proof. intros []. split; [done|by apply phase_weaken]. Qed.

Lemma wp_data_duplex g hs rs s id payload fin : duplex true g hs rs s -> zlen payload <= u64_max ->
  wp (on_remote_stream_frame id payload fin) s (fun _ s' => duplex true g hs rs s') (fun _ s' => duplex false g hs rs s').
Proof.
  intros Hd Hn. pose proof Hd as [Hf Hp]. destruct (streams s !! id) as [l|] eqn:Hs.
  2:{ unfold on_remote_stream_frame, find_stream. wp_step. wp_step. wp_step. rewrite Hs. by apply duplex_weaken. }
  destruct (phase_found _ _ _ _ Hp Hs) as [Hcl Hr]. destruct (ri_valid _ _ _ _ _ Hr id l Hs) as [st Hl].
  pose proof (wp_stream_frame id l st s (hands rs) payload fin (ri_acct _ _ _ _ _ Hr) Hs Hl (inv_receiving _ _ _ _ _ Hr Hl) Hn) as Hw.
  eapply wp_mono; [apply wp_respects; [apply silent_stream_frame|exact Hw]|..]; simpl.
  - intros ? s' (Hsi & Ha & _ & []). eapply duplex_silent; [exact Hf|done|].
    assert (Hset : settled idle (hands rs) s s') by (by split).
    unfold Duplex.phase. rewrite (eo_cleanup _ _ (proj2 Hset)), Hcl. exists idle. split; [done|by eapply inv_settled].
  - intros e s' [Hsi Href]. destruct Href as [m _|_|Hc _]; [by apply duplex_weaken..|].
    eapply duplex_silent; [exact Hf|done|]. pose proof (zlen_nonneg payload).
    pose proof (lost_bytes rs s (zlen payload) Hr ltac:(lia)) as Hr'. unfold Duplex.phase.
    assert (Hcl' : cleanup_started (s <| receive_window ::= got (zlen payload) |>) = false) by exact Hcl. rewrite Hcl'.
    by exists (next_loc s, zlen payload).
Qed.

Lemma wp_reset_duplex g hs rs s id code : duplex true g hs rs s ->
  wp (on_remote_reset id code) s (fun _ s' => duplex true g hs rs s') (fun _ s' => duplex false g hs rs s').
Proof.
  intros Hd. pose proof Hd as [Hf Hp]. destruct (streams s !! id) as [l|] eqn:Hs.
  2:{ unfold on_remote_reset, find_stream. wp_step. wp_step. wp_step. rewrite Hs. by apply duplex_weaken. }
  destruct (phase_found _ _ _ _ Hp Hs) as [Hcl Hr].
  assert (Hgo : forall s', silent s s' -> settled idle (hands rs) s s' -> duplex true g hs rs s').
  { intros s' Hsi Hset. eapply duplex_silent; [exact Hf|done|].
    unfold Duplex.phase. rewrite (eo_cleanup _ _ (proj2 Hset)), Hcl. exists idle. split; [done|by eapply inv_settled]. }
  pose proof (wp_remote_reset id code s (hands rs) (ri_acct _ _ _ _ _ Hr) (ri_valid _ _ _ _ _ Hr id)) as Hw.
  eapply wp_mono; [apply wp_respects; [apply silent_remote_reset|exact Hw]|..]; simpl.
  - intros ? s' [? ?]. auto.
  - intros e s' [? ?]. apply duplex_weaken. auto.
Qed.

(** The peer's settings, credit and refusals concern the sending half. *)
Lemma keeps_stop_sending g hs id : keeps (full g hs) (on_stop_sending id).
Proof.
  intros s Hf. unfold on_stop_sending, ensure_issued. wp_step. wp_step.
  destruct (streams s !! id) as [l|] eqn:Hs.
  - destruct (full_state _ _ _ _ _ _ Hf Hs) as [Hn _]. by apply keeps_reset_stream.
  - wp_step. wp_step. wp_step. destruct (_ =? _); wp_steps; done.
Qed.

Definition name_frame (f : Frame) s s' g : Ghost :=
  match f with OpenStream id => renamed (inner id) s s' g | _ => g end.

Lemma wp_handle_frame g hs rs s f : duplex true g hs rs s -> on_heap s hs -> Frame.wf f ->
  (forall id fin payload, f = Stream id fin payload -> zlen payload <= u64_max) ->
  wp (handle_frame f) s (fun _ s' => duplex true (name_frame f s s' g) hs rs s')
    (fun _ s' => duplex false (name_frame f s s' g) hs rs s').
Proof.
  intros Hd Hh Hwf Hlen. unfold handle_frame, get_queues. wp_step. wp_step. wp_step.
  assert (Hsend : forall (m : Conn unit) (r : bool), respects sends_only m -> keeps (full g hs) m ->
    wp (_ ← m; mret r) s (fun _ s' => duplex true g hs rs s') (fun _ s' => duplex false g hs rs s')).
  { intros m r Hr Hk. wp_step. eapply wp_mono; [by apply (keeps_sends lim m true g hs rs)|by intros|]. intros. by apply duplex_weaken. }
  wp_step. { destruct f; try (by apply duplex_weaken). simpl. rewrite renamed_same. by apply duplex_weaken. }
  destruct f as [id fin payload|id code|id|a b c|a|id a|id| |code reason]; simpl in Hwf; unfold name_frame, VarInt.wf in *.
  - wp_step. eapply wp_mono; [apply (wp_data_duplex g hs rs); [done|by eapply Hlen]|by intros|done].
  - wp_step. eapply wp_mono; [by apply (wp_reset_duplex g hs rs)|by intros|done].
  - wp_step. eapply wp_mono; [by apply (wp_remote_open_duplex lim g hs rs s (inner id))|by intros|]. intros. by apply duplex_weaken.
  - destruct Hwf as (? & ? & ?). apply Hsend; [apply sends_settings|by apply keeps_settings].
  - simpl in E. assert (Hps : peer_settings (queues s) = true) by (by destruct (peer_settings (queues s))).
    unfold upd_queues, notify. wp_step. wp_step. wp_step. wp_step. wp_step.
    pose proof Hd as [Hf Hp]. eapply (keeps_sends lim (notify WakeWriter) true g hs rs (sends_notify WakeWriter) (keeps_notify lim g hs WakeWriter)).
    split; [by apply full_max_data|]. by eapply phase_sends; [apply sends_queue|].
  - destruct Hwf. apply Hsend; [apply sends_max_stream_data|by apply keeps_max_stream_data].
  - apply Hsend; [apply sends_stop_sending|apply keeps_stop_sending].
  - by wp_step.
  - wp_step. eapply wp_mono; [by apply (wp_mark_closed_duplex lim true g hs rs)|by intros|done].
Qed.

(** What the reader does with one item. *)
Definition name_item (item : ReaderItem) s s' g : Ghost :=
  match item with
  | RFrame b => match (Frame.decode b).1 with Ok f => name_frame f s s' g | _ => g end
  | _ => g
  end.

Lemma wp_handle_incoming g hs rs s b : duplex true g hs rs s -> on_heap s hs ->
  wp (handle_incoming_frame b) s (fun _ s' => duplex true (name_item (RFrame b) s s' g) hs rs s')
    (fun _ s' => duplex false (name_item (RFrame b) s s' g) hs rs s').
Proof.
  intros Hd Hh. unfold handle_incoming_frame, name_item. wp_step.
  destruct (Frame.decode_cases b) as [(e & r & ->)|(f & -> & Hwf & Hfit & _)]; simpl; wp_step; [by apply duplex_weaken|].
  apply wp_handle_frame; try done. intros id fin payload ->. simpl in Hfit. rewrite VarInt.MAX_eq in Hfit. unfold u64_max. lia.
Qed.

Lemma name_item_next item s1 s2 t1 t2 g : next_loc s2 = next_loc s1 -> next_loc t2 = next_loc t1 ->
  name_item item s2 t2 g = name_item item s1 t1 g.
Proof.
  intros Hs Ht. destruct item as [b| | | |]; try done. simpl. destruct (Frame.decode b).1 as [[]| |]; try done.
  simpl. unfold renamed. by rewrite Hs, Ht.
Qed.

Lemma keeps_close_with strict g hs rs code reason : 0 <= code -> utf8_valid reason = true ->
  keeps (duplex strict g hs rs) (initiate_close code reason).
Proof. intros Hc Hu. apply keeps_sends; [apply sends_initiate_close|by apply keeps_initiate_close]. Qed.

(** A failing reader closes the connection. *)
Lemma wp_fail_closed strict g hs rs s code reason (R : Error -> ConnectionShared -> Prop) :
  duplex strict g hs rs s -> 0 <= code -> utf8_valid reason = true ->
  wp (ignore (initiate_close code reason)) s (fun _ s' => duplex strict g hs rs s' /\ next_loc s' = next_loc s) R.
Proof.
  intros Hd Hc Hu. apply wp_ignore.
  eapply wp_mono; [apply wp_respects; [apply sends_initiate_close|by apply (keeps_close_with strict g hs rs)]|..]; simpl;
    intros ? s' [[] ?]; done.
Qed.

Lemma wp_record_received strict g hs rs s n (R : Error -> ConnectionShared -> Prop) : duplex strict g hs rs s ->
  wp (record_received n) s (fun _ s' => duplex strict g hs rs s' /\ next_loc s' = next_loc s /\ heap s' = heap s) R.
Proof.
  intros [Hf Hp]. unfold record_received. wp_step. split; [|done].
  eapply duplex_silent; [exact Hf|by apply silent_like|]. eapply phase_sends; [|exact Hp]. done.
Qed.

Lemma wp_reader_item g hs rs s item : duplex true g hs rs s -> on_heap s hs ->
  wp (reader_item item) s (fun b s' => if b then duplex true (name_item item s s' g) hs rs s' else duplex false (name_item item s s' g) hs rs s')
    (fun _ _ => False).
Proof.
  intros Hd Hh. destruct item as [b| | | |]; simpl reader_item; try (wp_step; by apply duplex_weaken).
  - wp_step. eapply wp_mono; [by apply (wp_record_received true g hs rs s (zlen b) (fun _ _ => False))| |done].
    intros ? s1 (Hd1 & Hn1 & Hh1). assert (Hh1' : on_heap s1 hs) by (unfold on_heap; by rewrite Hh1).
    apply wp_catch. eapply wp_mono; [apply wp_errs; [apply errs_handle_incoming|by apply (wp_handle_incoming g hs rs)]|..]; simpl.
    + intros r s' Hd'. change (match (Frame.decode b).1 with Ok f => name_frame f s1 s' g | _ => g end) with (name_item (RFrame b) s1 s' g) in Hd'.
      rewrite (name_item_next (RFrame b) s s1 s' s' g Hn1 eq_refl) in Hd'. destruct r; [done|by apply duplex_weaken].
    + intros e s2 [He Hd2]. wp_step. eapply wp_mono; [apply (wp_fail_closed false _ hs rs s2 1 _ (fun _ _ => False) Hd2); [lia|]| |done].
      * apply plain_utf8. rewrite plain_app. by rewrite He.
      * intros ? s' [Hd' Hn']. wp_step.
        change (match (Frame.decode b).1 with Ok f => name_frame f s1 s2 g | _ => g end) with (name_item (RFrame b) s1 s2 g) in Hd'.
        change (duplex false (name_item (RFrame b) s s' g) hs rs s').
        by rewrite (name_item_next (RFrame b) s1 s s2 s' g (eq_sym Hn1) Hn').
  - wp_step. eapply wp_mono; [apply (wp_fail_closed false g hs rs s 1 _ (fun _ _ => False)); [by apply duplex_weaken|lia|done]| |done].
    intros ? s' [Hd' _]. by wp_step.
Qed.

Lemma wp_reader_step g hs rs s item : duplex true g hs rs s -> on_heap s hs ->
  wp (reader_step item) s (fun _ s' => duplex true (name_item item s s' g) hs rs s') (fun _ _ => False).
Proof.
  intros Hd Hh. unfold reader_step. wp_step. eapply wp_mono; [by apply (wp_reader_item g hs rs)| |done].
  intros b s1 Hd1. wp_step. wp_step.
  - destruct b; [done|]. eapply wp_mono; [apply wp_with_run, (wp_mark_closed_duplex lim false _ hs rs s1 Hd1)| |done].
    intros ? s' [Hrun Hd']. wp_step. rewrite (name_item_next item s s s1 s' g eq_refl); [done|].
    apply mark_closed_run in Hrun as [[] _]. done.
  - wp_step. by destruct b.
Qed.

(** ** Closing *)

Lemma keeps_connection_close g hs rs reason : utf8_valid reason = true -> keeps (duplex true g hs rs) (close reason).
Proof.
  intros Hu s Hd. unfold close. wp_step. wp_step. wp_step. apply wp_lift; [apply validate_close_no_panic| |done].
  intros ? _. by apply keeps_close_with.
Qed.

Lemma keeps_abort g hs rs : keeps (duplex true g hs rs) abort.
Proof.
  intros s [Hf Hp]. unfold abort, notify. wp_step. wp_step. wp_step. wp_step. wp_step. split.
  - eapply full_closed; [exact Hf|..]; try done. by apply quiet_fields.
  - by eapply phase_sends; [|exact Hp].
Qed.

Lemma keeps_enqueue g hs rs f : plain_control f -> keeps (duplex true g hs rs) (enqueue_control f).
Proof. intros Hf. apply keeps_sends; [apply sends_enqueue_control|by apply keeps_enqueue_control]. Qed.

(** A control frame that does not fit closes the connection. *)
Lemma wp_enqueue_or_close g hs rs f s : plain_control f -> duplex true g hs rs s ->
  wp (queued ← enqueue_control f; now_closed ← gets closed; _ ← when (negb queued && negb now_closed) mark_closed; mret queued) s
    (fun _ s' => duplex true g hs rs s') (fun _ s' => duplex true g hs rs s').
Proof.
  intros Hf Hd. wp_step. eapply wp_mono; [by apply (keeps_enqueue g hs rs)| |done]. intros b s1 Hd1. wp_step. wp_step. wp_step.
  wp_step; [|by wp_step]. eapply wp_mono; [by apply (keeps_mark_closed_duplex lim true g hs rs)|done|done].
Qed.

Lemma keeps_keepalive g hs rs : keeps (duplex true g hs rs) keepalive_tick.
Proof.
  intros s Hd. unfold keepalive_tick. wp_step. wp_step. destruct (closed s); [by wp_step|].
  apply wp_enqueue_or_close; [|done]. by split_and!.
Qed.

(** ** The cleanup task *)

Lemma keeps_retire g hs rs id : keeps (duplex true g hs rs) (try_retire_stream id).
Proof. apply keeps_sends; [apply sends_try_retire|apply keeps_try_retire]. Qed.

Lemma keeps_flag g hs rs l u : untouched u -> (forall st, receive_half (u st) = receive_half st) ->
  keeps (duplex true g hs rs) (upd_state l u).
Proof. intros Hu Hr. apply keeps_sends; [by apply sends_state|by apply keeps_upd]. Qed.

Lemma named_live g hs rs s id l : duplex true g hs rs s -> g_names g !! l = Some id -> exists st, heap s !! l = Some st.
Proof. intros [Hf _] Hn. destruct (proj2 (nm_dom _ _ (sv_names _ _ (fu_inv _ _ _ _ Hf)) l)) as [st Hst]; eauto. Qed.

Lemma keeps_discard g hs rs id l : g_names g !! l = Some id -> keeps (duplex true g hs rs) (discard_inbound l).
Proof.
  intros Hn s Hd. destruct (named_live _ _ _ _ _ _ Hd Hn) as [st Hst].
  eapply wp_mono; [apply (wp_receiver _ true g hs rs s (fun _ rs' => rs' = rs) Hd); [apply silent_discard| |congruence]| |done].
  - intros fl op Hr. eapply (wp_discard_inbound l st s (hands rs)); [apply Hr|done|]. intros s' Hs'. exists rs.
    split_and!; [done|done|by eapply inv_settled].
  - by intros ? s' (? & -> & ?).
Qed.

Lemma keeps_last_send_drop g hs rs id l : g_names g !! l = Some id -> keeps (duplex true g hs rs) (handle_last_send_drop id l).
Proof.
  intros Hn s Hd. destruct (named_live _ _ _ _ _ _ Hd Hn) as [st Hst]. unfold handle_last_send_drop.
  wp_step. apply (wp_get_state _ st); [done|]. wp_step. wp_step; [|by apply keeps_retire]. apply wp_ignore.
  eapply wp_mono; [apply (keeps_sends lim (reset_stream id l 0) true g hs rs); [apply sends_reset_stream|by apply keeps_reset_stream|done]|..];
    intros; by apply keeps_retire.
Qed.

Lemma keeps_last_recv_drop g hs rs id l : g_names g !! l = Some id -> keeps (duplex true g hs rs) (handle_last_recv_drop id l).
Proof.
  intros Hn s Hd. pose proof (nm_range _ _ (sv_names _ _ (fu_inv _ _ _ _ (dx_send _ _ _ _ _ _ Hd))) _ _ Hn) as Hid.
  unfold handle_last_recv_drop. wp_step. eapply wp_mono; [by apply (keeps_discard g hs rs id)| |done]. intros ? s1 Hd1.
  destruct (named_live _ _ _ _ _ _ Hd1 Hn) as [st Hst]. wp_step. apply (wp_get_state _ st); [done|]. wp_step. wp_step. wp_step.
  wp_step; [|by apply keeps_retire]. rewrite VarInt.from_u64_ok by done. wp_step. simpl. wp_step.
  wp_step. eapply wp_mono; [apply (keeps_enqueue g hs rs); [|exact Hd1]| |done]. { by split_and!. }
  intros b s2 Hd2. wp_step. wp_step. wp_step; [|by apply keeps_retire].
  eapply wp_mono; [by apply (keeps_mark_closed_duplex lim true g hs rs)| |done]. intros. by apply keeps_retire.
Qed.

Lemma keeps_cleanup_stream g hs rs id l : g_names g !! l = Some id -> keeps (duplex true g hs rs) (cleanup_stream id l).
Proof.
  intros Hn s Hd. unfold cleanup_stream. destruct (named_live _ _ _ _ _ _ Hd Hn) as [st Hst].
  assert (Hrest : forall s, duplex true g hs rs s -> wp (st ← get_state l; _ ← upd_state l (fun st => st <| recv_dropped := false |>);
    when (recv_dropped st) (handle_last_recv_drop id l)) s (fun _ s' => duplex true g hs rs s') (fun _ s' => duplex true g hs rs s')).
  { intros x Hx. destruct (named_live _ _ _ _ _ _ Hx Hn) as [st1 Hst1]. wp_step. apply (wp_get_state _ st1); [done|].
    wp_step. eapply wp_mono; [by apply (keeps_flag g hs rs)| |done]. intros ? s1 Hd1. wp_step; [by apply keeps_last_recv_drop|done]. }
  wp_step. apply (wp_get_state _ st); [done|]. wp_step. eapply wp_mono; [by apply (keeps_flag g hs rs)| |done]. intros ? s1 Hd1.
  wp_step. wp_step; [|by apply Hrest]. eapply wp_mono; [by apply (keeps_last_send_drop g hs rs id l)| |done]. intros ? s2 Hd2. by apply Hrest.
Qed.

Lemma keeps_cleanup_streams g hs rs ls : Forall (fun x => g_names g !! x.2 = Some x.1) ls ->
  keeps (duplex true g hs rs) (cleanup_streams ls).
Proof.
  induction 1 as [|[id l] ls Hl _ IH]; intros s Hd; simpl; [done|]. wp_step.
  eapply wp_mono; [by apply (keeps_cleanup_stream g hs rs id l)| |done]. intros. by apply IH.
Qed.

Lemma keeps_cleanup g hs rs : keeps (duplex true g hs rs) cleanup_pass.
Proof.
  intros s Hd. unfold cleanup_pass. wp_step. wp_step. apply keeps_cleanup_streams; [|done]. apply Forall_forall. intros [id l] Hx.
  apply elem_hash_iter in Hx. by apply (nm_streams _ _ (sv_names _ _ (fu_inv _ _ _ _ (dx_send _ _ _ _ _ _ Hd)))).
Qed.

(** ** Handles and the supervisor *)

Lemma keeps_count g hs rs u : (forall s, silent s (u s) /\ sends_only s (u s) /\ windows_ok (u s) = windows_ok s) ->
  keeps (duplex true g hs rs) (modify u : Conn unit).
Proof.
  intros Hu s [Hf Hp]. destruct (Hu s) as (Hs & Hso & Hw). wp_step.
  eapply duplex_silent; [exact Hf|done|by eapply phase_sends].
Qed.

Lemma keeps_wake g hs rs w : keeps (duplex true g hs rs) (notify w).
Proof. apply keeps_sends; [apply sends_notify|apply keeps_notify]. Qed.

Lemma keeps_clone g hs rs : keeps (duplex true g hs rs) clone_connection.
Proof. apply keeps_count. intros s. split_and!; [by apply silent_like|done..]. Qed.

Lemma keeps_drop_connection g hs rs : keeps (duplex true g hs rs) drop_connection.
Proof.
  intros s Hd. unfold drop_connection. wp_step. wp_step. wp_step.
  eapply wp_mono; [apply (keeps_count g hs rs (fun s => s <| connection_handles ::= (fun n => (n - 1) mod 2 ^ 64) |>)); [|done]| |done].
  - intros x. split_and!; [by apply silent_like|done..].
  - intros ? s1 Hd1. wp_step; [by apply keeps_wake|done].
Qed.

Lemma keeps_supervisor_watch g hs rs : keeps (duplex true g hs rs) supervisor_watch.
Proof.
  intros s Hd. unfold supervisor_watch. wp_step. wp_step. destruct (closed s); [by wp_step|]. wp_step. wp_step. wp_step; [|by wp_step].
  wp_step. eapply wp_mono; [apply (wp_fail_closed true g hs rs s 0 _ (fun _ _ => False)); [done|lia|done]| |done].
  intros ? s' [Hd' _]. by wp_step.
Qed.

Lemma keeps_supervisor_joined g hs rs : keeps (duplex true g hs rs) supervisor_joined.
Proof.
  intros s Hd. unfold supervisor_joined. wp_step. eapply wp_mono; [by apply (keeps_mark_closed_duplex lim true g hs rs)| |done].
  intros ? s1 [Hf1 Hp1]. wp_step. wp_step. apply keeps_wake.
  set (s2 := _ <| joined := true |>). assert (Hsub : incoming_streams s2 ⊆ incoming_streams s1) by (simpl; set_solver).
  eapply duplex_silent; [exact Hf1|by apply silent_like|]. eapply (phase_settle true rs s1 s2 s2); [done| |by apply silent_like|done].
  intros fl Ha. split; [by apply (acct_same _ s1)|]. by split.
Qed.

(** ** The sending handles *)

Lemma keeps_writer_report g hs rs f n : f ∈ g_trace g -> keeps (duplex true g hs rs) (writer_sent f n).
Proof. intros Hf. apply keeps_sends; [apply sends_writer_sent|by apply keeps_writer_sent]. Qed.

Lemma keeps_reset_call g hs rs id l code : g_names g !! l = Some id -> 0 <= code ->
  keeps (duplex true g hs rs) (reset_stream id l code).
Proof. intros Hn Hc. apply keeps_sends; [apply sends_reset_stream|by apply keeps_reset_stream]. Qed.

Lemma keeps_drop_sender g hs rs id l : g_names g !! l = Some id -> keeps (duplex true g hs rs) (drop_send_stream l).
Proof.
  intros Hn s Hd. destruct (named_live _ _ _ _ _ _ Hd Hn) as [st Hst]. unfold drop_send_stream, release_send_handle.
  wp_step. wp_step. apply (wp_get_state _ st); [done|]. wp_step; [by wp_steps|]. wp_step.
  eapply wp_mono; [by apply (keeps_flag g hs rs)| |done]. intros ? s1 Hd1. wp_step. wp_step; [|done]. wp_step.
  eapply wp_mono; [by apply (keeps_flag g hs rs)| |done]. intros ? s2 Hd2. by apply keeps_wake.
Qed.

Lemma wp_select_mode g hs rs id l n s : g_names g !! l = Some id -> duplex true g hs rs s ->
  wp (select_send_mode l n) s (fun _ s' => duplex true g hs rs s' /\ queues s' = queues s)
    (fun _ s' => duplex true g hs rs s' /\ queues s' = queues s).
Proof.
  intros Hn Hd. destruct (named_live _ _ _ _ _ _ Hd Hn) as [st Hst]. unfold select_send_mode. wp_step. apply (wp_get_state _ st); [done|].
  wp_step. apply wp_lift; [unfold select_mode; by repeat case_match| |done]. intros mode _.
  assert (Hq : wp (upd_state l (fun st => st <| send_mode := mode |>)) s (fun _ s' => queues s' = queues s) (fun _ s' => queues s' = queues s)) by done.
  eapply wp_mono; [eapply wp_conj; [by apply (keeps_flag g hs rs)|exact Hq]|done|done].
Qed.

End ops.
