(* ===== verification/StreamsSpec.v ===== *)
(** Properties of the stream operations of [Streams]. *)

From S2P Require Import Prelude Hoare Buf Varint Utf8 Frames Errors Limits Flow.
From S2P Require Import Tokio ConnState Inbound Writer WriterSpec Scheduler Connection ConnectionSpec Streams.

#[local] Open Scope Z_scope.

(** ** [max_stream_payload] *)

(** The size of a STREAM frame with [n] bytes of payload. *)
Definition stream_frame_len (id n : Z) : Z :=
  1 + VarInt.encoded_len (mkVarInt id) + 1 + VarInt.encoded_len (mkVarInt n) + n.

Lemma payload_fits_iff l id n : 0 <= id <= VarInt.MAX -> 0 <= n <= VarInt.MAX ->
  payload_fits l id n = true <-> stream_frame_len id n <= max_frame_size l.
Proof.
  intros Hid Hn. unfold payload_fits, try_u64. rewrite VarInt.from_u64_ok by done. simpl.
  rewrite VarInt.MAX_eq in *. rewrite (proj2 (Z.leb_le 0 n)), (proj2 (Z.leb_le n u64_max))
    by (unfold u64_max; lia). simpl.
  rewrite VarInt.from_u64_ok by (rewrite VarInt.MAX_eq; lia). simpl. by rewrite Z.leb_le.
Qed.

Lemma stream_frame_len_mono id n m : n < m -> stream_frame_len id n < stream_frame_len id m.
Proof.
  intros H. unfold stream_frame_len.
  pose proof (VarInt.encoded_len_mono (mkVarInt n) (mkVarInt m) ltac:(simpl; lia)). lia.
Qed.

Lemma search_payload_spec fuel l id low high : 0 <= id <= VarInt.MAX ->
  0 <= low <= high -> high <= VarInt.MAX -> high - low < 2 ^ Z.of_nat fuel ->
  exists r, search_payload fuel l id low high = Some r /\ low <= r <= high /\
    (r = low \/ stream_frame_len id r <= max_frame_size l) /\
    (r < high -> max_frame_size l < stream_frame_len id (r + 1)).
Proof.
  intros Hid. revert low high. induction fuel as [|fuel IH]; intros low high Hl Hh Hd; simpl.
  { assert (low = high) as -> by (simpl in Hd; lia). rewrite Z.ltb_irrefl.
    exists high. split_and!; (done || lia || by left). }
  destruct (Z.ltb_spec low high) as [Hlt|]; [|exists low; split_and!; (done || lia || by left)].
  rewrite Nat2Z.inj_succ, Z.pow_succ_r in Hd by lia.
  set (middle := low + div_ceil (high - low) 2).
  assert (Hm : low < middle <= high /\ high - middle < 2 ^ Z.of_nat fuel /\
               middle - 1 - low < 2 ^ Z.of_nat fuel).
  { subst middle. unfold div_ceil. generalize dependent (2 ^ Z.of_nat fuel). intros. dlia. }
  destruct (payload_fits l id middle) eqn:Hf.
  - apply payload_fits_iff in Hf; [|done|lia].
    destruct (IH middle high) as (r & -> & Hr & Hfit & Hmax); [lia..|].
    exists r. split_and!; [done|lia|lia| |done]. right. destruct Hfit as [->|]; done.
  - apply not_true_iff_false in Hf. rewrite payload_fits_iff in Hf by lia.
    destruct (IH low (middle - 1)) as (r & -> & Hr & Hfit & Hmax); [lia..|].
    exists r. split_and!; [done|lia|lia|done|]. intros _.
    destruct (decide (r < middle - 1)); [auto|]. replace (r + 1) with middle by lia. lia.
Qed.

Lemma max_payload_some (l : Limits) (id : Z) : 0 <= max_frame_size l <= u32_max -> 0 <= id <= VarInt.MAX ->
  exists n, max_stream_payload l id = Some n.
Proof.
  intros Hf Hid. unfold max_stream_payload. unfold u32_max in *. rewrite Z.min_l by lia.
  destruct (search_payload_spec 33 l id 0 (max_frame_size l)) as (r & -> & _); [done|lia|rewrite VarInt.MAX_eq; lia|lia|].
  by eexists.
Qed.

(** C36: the binary search of [max_stream_payload] ends, and finds the best chunk size:
    a positive number of bytes within the outbound budget whose STREAM frame fits in
    the local frame limit, such that one byte more would break one of the two. *)
Theorem max_stream_payload_optimal (l : Limits) (id : Z) :
  Limits.MIN_FRAME_SIZE <= max_frame_size l <= u32_max -> 0 < max_outbound_stream_bytes l ->
  0 <= id <= VarInt.MAX ->
  exists n, max_stream_payload l id = Some n /\ 0 < n <= max_outbound_stream_bytes l /\
    forall fin p,
      (zlen p = n -> exists k, Frame.encoded_len (Stream (mkVarInt id) fin p) = Ok k /\
                               k <= max_frame_size l) /\
      (zlen p = n + 1 -> n = max_outbound_stream_bytes l \/
         exists k, Frame.encoded_len (Stream (mkVarInt id) fin p) = Ok k /\ max_frame_size l < k).
Proof.
  intros Hf Ho Hid. unfold max_stream_payload. unfold Limits.MIN_FRAME_SIZE, u32_max in *.
  rewrite Z.min_l by lia.
  destruct (search_payload_spec 33 l id 0 (max_frame_size l)) as (r & Hr & Hb & Hfit & Hmax);
    [done|lia|rewrite VarInt.MAX_eq; lia|lia|].
  rewrite Hr. cbn [mbind option_bind]. exists (Z.min r (max_outbound_stream_bytes l)). split; [done|].
  assert (Hlen : forall n, 0 <= n <= r + 1 ->
    n < stream_frame_len id n <= 18 + n).
  { intros n Hn. unfold stream_frame_len. pose proof (VarInt.encoded_len_range (mkVarInt id)).
    pose proof (VarInt.encoded_len_range (mkVarInt n)). lia. }
  assert (Hpos : 0 < r).
  { destruct (decide (r < max_frame_size l)); [|lia]. specialize (Hmax ltac:(done)).
    specialize (Hlen (r + 1)). lia. }
  assert (Hr' : stream_frame_len id r <= max_frame_size l) by (destruct Hfit; [lia|done]).
  assert (Hlt : r < max_frame_size l) by (specialize (Hlen r); lia).
  split; [lia|]. intros fin p. split; intros Hp; pose proof (zlen_nonneg p).
  - rewrite stream_len by (unfold u32_max; lia). eexists. split; [done|].
    fold (stream_frame_len id (zlen p)). rewrite Hp.
    destruct (decide (r <= max_outbound_stream_bytes l)).
    + by rewrite Z.min_l.
    + rewrite Z.min_r by lia.
      pose proof (stream_frame_len_mono id (max_outbound_stream_bytes l) r). lia.
  - destruct (decide (r < max_outbound_stream_bytes l)); [right|left; lia].
    rewrite stream_len by (unfold u32_max; lia). eexists. split; [done|].
    fold (stream_frame_len id (zlen p)). rewrite Hp, Z.min_l by lia. auto.
Qed.

Lemma max_stream_payload_optimal_witness :
  exists n, max_stream_payload Limits.default 0 = Some n /\ 0 < n <= 262144 /\
    forall fin p,
      (zlen p = n -> exists k, Frame.encoded_len (Stream (mkVarInt 0) fin p) = Ok k /\ k <= 65536) /\
      (zlen p = n + 1 -> n = 262144 \/
         exists k, Frame.encoded_len (Stream (mkVarInt 0) fin p) = Ok k /\ 65536 < k).
Proof.
  refine (max_stream_payload_optimal Limits.default 0 _ _ _); vm_compute; repeat split; discriminate.
Defined.
