(* ===== verification/SendDuplex.v ===== *)
(** The sends of the application keep both halves of the connection; what they queue is
    recorded in the history. *)

From S2P Require Import Prelude Hoare Buf Varint Utf8 Frames Errors Limits Flow Tokio.
From S2P Require Import ConnState Inbound InboundSpec Writer WriterSpec Scheduler Connection Streams Tasks.
From S2P Require Import ReceiveSpec ReadSpec ReceiveSystem ConnectionSpec Ledger SendSpec SendInv SendOps Halves.
From S2P Require Import ErrorText SendPeer Duplex DuplexOps StreamsSpec.

#[local] Open Scope Z_scope.

Section sends.
Context {TK : Tokio} {TKL : TokioLaws TK} {HI : HashIter} {HIL : HashIterLaws HI}.
Context (lim : Limits) (Hlim : Limits.Valid MAX_PERMITS lim).
Implicit Types (s : ConnectionShared) (st : StreamState) (q : WriterQueues) (g : Ghost) (hs : list Hold).
Implicit Types (h : SendStream) (rs : list RecvStream) (f : SendFuture).
Infix "≈" := core_eq (at level 70).

Abbreviation full := (full lim).
Abbreviation duplex := (duplex lim).

(** ** The history of what was queued *)

(** The bytes put on the queue of a stream between two states. *)
Definition took (id : Z) s s' : bytes :=
  concat (map oc_payload (drop (length (queue (queues s) id)) (queue (queues s') id))).
Definition record (id : Z) s s' g : Ghost :=
  match took id s s' with [] => g | b => accept id b g end.

Definition extends (id : Z) s s' : Prop := queue (queues s) id `prefix_of` queue (queues s') id.

#[export] Instance extends_preorder id : PreOrder (extends id).
Proof. split; [intros s|intros x y z]; unfold extends; [done|apply transitivity]. Qed.

Lemma took_trans id s1 s2 s3 : extends id s1 s2 -> extends id s2 s3 ->
  took id s1 s3 = took id s1 s2 ++ took id s2 s3.
Proof.
  unfold took. intros [a Ha] [b Hb]. rewrite Hb, Ha, drop_app_length, <- app_assoc, !drop_app_length, app_assoc.
  rewrite drop_app_length. by rewrite map_app, concat_app.
Qed.

Lemma took_same id s s' : queues s' = queues s -> took id s s' = [].
Proof. intros H. unfold took. by rewrite H, drop_all. Qed.

Lemma accept_accept id a b g : accept id b (accept id a g) = accept id (a ++ b) g.
Proof.
  unfold accept. simpl. unfold accepted. simpl. rewrite lookup_insert_eq. simpl. by rewrite insert_insert_eq, app_assoc.
Qed.

Lemma record_trans id s1 s2 s3 g : extends id s1 s2 -> extends id s2 s3 ->
  record id s2 s3 (record id s1 s2 g) = record id s1 s3 g.
Proof.
  intros H1 H2. unfold record. rewrite (took_trans id s1 s2 s3) by done.
  destruct (took id s1 s2) as [|x a] eqn:Ea; [done|]. destruct (took id s2 s3) as [|y b] eqn:Eb; simpl; [by rewrite app_nil_r|].
  by rewrite accept_accept.
Qed.

Lemma record_same id s s' g : queues s' = queues s -> record id s s' g = g.
Proof. intros H. unfold record. by rewrite took_same. Qed.

Lemma record_names id s s' g : g_names (record id s s' g) = g_names g.
Proof. unfold record. by destruct (took id s s'). Qed.

(** Accepting nothing changes nothing. *)
Lemma send_inv_nothing g s id : send_inv (accept id [] g) s -> send_inv g s.
Proof.
  intros []. split; try done.
  - intros l i st Hn Hl. eapply stream_sends_ghost; [| |by eapply sv_streams]; [done|]. rewrite accepted_accept.
    case_decide as E; [|done]. by rewrite E, app_nil_r.
  - intros i b Hi. destruct (decide (i = id)) as [->|Hne].
    + apply (sv_accepted id (accepted g id ++ [])). simpl. by rewrite lookup_insert_eq.
    + apply (sv_accepted i b). simpl. by rewrite lookup_insert_ne.
Qed.

(** ** Polling a send *)

(** A send that was started on a stream that exists. *)
Record future_ok (names : gmap loc Z) f : Prop := {
  ft_name : names !! sf_state f = Some (sf_stream_id f);
  ft_stage : stage_ok (zlen (sf_payload f)) (sf_stage f);
  ft_checked : past_lock (sf_stage f) = true ->
    (sf_payload f = [] -> sf_fin f = true) /\ zlen (sf_payload f) <= max_outbound_stream_bytes lim
}.

Lemma future_send_ok g hs s f : full g hs s -> future_ok (g_names g) f -> send_ok s f.
Proof.
  intros Hf [Hn Hst Hck]. pose proof (sv_names _ _ (fu_inv _ _ _ _ Hf)) as Hnm. split; [|by apply (nm_range _ _ Hnm) in Hn|done|].
  - apply (nm_dom _ _ Hnm). by eexists.
  - unfold checked. by rewrite (fu_limits _ _ _ _ Hf).
Qed.

(** What a send leaves: a future that waits, or nothing. *)
Definition left f (p : SendPoll) : option SendFuture :=
  match p with SDone => None | SPending stage => Some (f <| sf_stage := stage |>) end.

Lemma holds_cons s x hs : holds s (x :: hs) ≡ₚ x :: holds s hs.
Proof. unfold holds. by rewrite Permutation_middle. Qed.

Lemma full_perm g hs hs' s : hs ≡ₚ hs' -> full g hs s -> full g hs' s.
Proof. intros Hp [Hi Hl Hlm]. split; [done| |done]. unfold holds in *. by rewrite <- Hp. Qed.

Lemma full_tally g hs hs' s s' : full g hs s -> tally s (hs' ++ holds s []) s' -> full g hs' s'.
Proof.
  intros [Hi _ Hlm] [Hl Hc]. apply (full_core lim g hs' s s' Hi Hc); [|done]. unfold holds in *. rewrite app_nil_r in Hl.
  by rewrite Permutation_app_comm.
Qed.

Lemma wp_chunk_full g hs s f : full g (send_hold f :: hs) s -> future_ok (g_names g) f ->
  wp (send_stream_chunk f) s
    (fun p s' => full (record (sf_stream_id f) s s' g) (map send_hold (option_list (left f p)) ++ hs) s' /\
      Forall (future_ok (g_names g)) (option_list (left f p)) /\ extends (sf_stream_id f) s s')
    (fun _ s' => full g hs s' /\ queues s' = queues s).
Proof.
  intros Hf Hfo. pose proof Hf as [Hi Hl Hlm]. rewrite holds_cons in Hl.
  assert (Hp : forall x hs, x :: holds s hs ≡ₚ (x :: hs) ++ holds s []).
  { intros x xs. simpl. constructor. unfold holds. by rewrite app_nil_r, Permutation_app_comm. }
  assert (Hp0 : holds s hs ≡ₚ hs ++ holds s []) by (unfold holds; by rewrite app_nil_r, Permutation_app_comm).
  eapply wp_mono; [apply (wp_send_stream_chunk s (holds s hs) f); [by eapply future_send_ok| |done]|..].
  - rewrite Hlm. destruct Hlim. unfold MAX_PERMITS in *. lia.
  - intros p s' Hpost. destruct p as [|stage]; simpl in Hpost |- *.
    + destruct Hpost as [(_ & _ & Ht)|(Hck & Hcl & Hop & Hterm & c & Hc & Ht)].
      * assert (Hq : queues s' = queues s) by (apply core_eq_queues, Ht). rewrite record_same by done.
        split_and!; [|done|unfold extends; by rewrite Hq]. eapply full_tally; [exact Hf|]. by eapply tally_perm.
      * destruct Ht as [Hl' Hc']. destruct (future_send_ok _ _ _ _ Hf Hfo) as [[st Hst] _ _ _].
        pose proof (send_inv_enqueue g s f c st Hi (ft_name _ _ Hfo) Hc Hck Hcl Hst (Hterm _ Hst)) as Hi'.
        assert (Hq : queue (queues s') (sf_stream_id f) = queue (queues s) (sf_stream_id f) ++ [c]).
        { rewrite (core_eq_queues _ _ Hc'). destruct (queue_send_fields f c s) as [-> _]. unfold queue at 1. simpl.
          by rewrite lookup_insert_eq. }
        assert (Htk : took (sf_stream_id f) s s' = sf_payload f).
        { unfold took. rewrite Hq, drop_app_length. simpl. by rewrite app_nil_r, (cf_payload _ _ Hc). }
        assert (Hi'' : send_inv (record (sf_stream_id f) s s' g) (queue_send f c s)).
        { unfold record. rewrite Htk. destruct (sf_payload f); [by eapply send_inv_nothing|done]. }
        split_and!; [|done|unfold extends; rewrite Hq; by eexists].
        apply (full_core lim _ hs _ s' Hi'' Hc'); [by rewrite holds_enqueue|]. rewrite <- Hlm. unfold queue_send. by destruct (sf_fin f).
    + destruct Hpost as (Ht & _ & Hok). assert (Hq : queues s' = queues s) by (apply core_eq_queues, Ht).
      rewrite record_same by done. split_and!.
      * eapply full_tally; [exact Hf|]. eapply tally_perm; [|exact Ht]. apply Hp.
      * constructor; [|done]. destruct Hok as [_ _ Hst Hck]. split; [apply Hfo|done|]. unfold checked in Hck. by rewrite Hlm in Hck.
      * unfold extends. by rewrite Hq.
  - intros e s' [Ht _]. split; [|by apply core_eq_queues, Ht]. eapply full_tally; [exact Hf|]. by eapply tally_perm.
Qed.

Lemma wp_chunk_duplex g hs rs s f : duplex true g (send_hold f :: hs) rs s -> future_ok (g_names g) f ->
  wp (send_stream_chunk f) s
    (fun p s' => duplex true (record (sf_stream_id f) s s' g) (map send_hold (option_list (left f p)) ++ hs) rs s' /\
      Forall (future_ok (g_names g)) (option_list (left f p)) /\ extends (sf_stream_id f) s s')
    (fun _ s' => duplex true g hs rs s' /\ queues s' = queues s).
Proof.
  intros [Hf Hp] Hfo. eapply wp_mono; [apply wp_respects; [apply sends_chunk|by apply (wp_chunk_full g hs s f)]|..]; simpl.
  - intros p s' [Hs (? & ? & ?)]. split_and!; [|done..]. split; [done|]. by eapply phase_sends.
  - intros e s' [Hs (? & ?)]. split; [|done]. split; [done|]. by eapply phase_sends.
Qed.

(** A call on stream [id] that went from [s] to [s'] and left the holds [hs']. *)
Record sent_on (id : Z) g rs s hs' s' : Prop := {
  on_duplex : duplex true (record id s s' g) hs' rs s';
  on_extends : extends id s s'
}.

Lemma sent_on_same id g rs s hs' s' : duplex true g hs' rs s' -> queues s' = queues s -> sent_on id g rs s hs' s'.
Proof. intros Hd Hq. split; [by rewrite record_same|unfold extends; by rewrite Hq]. Qed.

Lemma sent_on_trans id g rs s s1 hs1 hs2 s2 : sent_on id g rs s hs1 s1 -> sent_on id (record id s s1 g) rs s1 hs2 s2 ->
  sent_on id g rs s hs2 s2.
Proof. intros [_ H1] [Hd H2]. split; [by rewrite record_trans in Hd|by etransitivity]. Qed.

Lemma wp_poll_send id g hs rs s f : duplex true g (send_hold f :: hs) rs s -> future_ok (g_names g) f -> sf_stream_id f = id ->
  wp (send_stream_chunk f) s
    (fun p s' => sent_on id g rs s (map send_hold (option_list (left f p)) ++ hs) s' /\
      Forall (future_ok (g_names g)) (option_list (left f p)))
    (fun _ s' => sent_on id g rs s hs s').
Proof.
  intros Hd Hf <-. eapply wp_mono; [by apply (wp_chunk_duplex g hs rs s f)|..].
  - intros p s' (? & ? & ?). by split.
  - intros e s' [? ?]. by apply sent_on_same.
Qed.

(** ** The handles *)

(** The futures a handle stores. *)
Definition stored h : list SendFuture := option_list (write_fut h) ++ option_list (shutdown_fut h).

Definition stores (names : gmap loc Z) (id : Z) (o : option SendFuture) : Prop :=
  Forall (fun f => future_ok names f /\ sf_stream_id f = id) (option_list o).

Record sender_ok (names : gmap loc Z) h : Prop := {
  sd_name : names !! ss_state h = Some (ss_stream_id h);
  sd_write : stores names (ss_stream_id h) (write_fut h);
  sd_shutdown : stores names (ss_stream_id h) (shutdown_fut h)
}.

(** A new send. *)
Definition new_send h (b : bytes) (fin : bool) : SendFuture := mkSend (ss_stream_id h) (ss_state h) b fin SStart.

Lemma new_send_ok names h b fin : names !! ss_state h = Some (ss_stream_id h) -> future_ok names (new_send h b fin).
Proof. by split. Qed.

Lemma full_no_hold g l hs s : full g (no_hold l :: hs) s <-> full g hs s.
Proof.
  split; intros [Hi Hl Hlm]; (split; [done| |done]).
  - by rewrite holds_cons, ledger_no_hold in Hl.
  - by rewrite holds_cons, ledger_no_hold.
Qed.

Lemma duplex_new g hs rs s f : sf_stage f = SStart -> duplex true g (send_hold f :: hs) rs s <-> duplex true g hs rs s.
Proof.
  intros Hs. unfold send_hold. rewrite Hs. split; intros [Hf Hp]; (split; [|done]); by apply (full_no_hold g (sf_state f)).
Qed.

(** [write_chunk] and [finish] *)
Lemma wp_send_call g hs rs s h b fin : duplex true g hs rs s -> g_names g !! ss_state h = Some (ss_stream_id h) ->
  wp (_ ← select_send_mode (ss_state h) 1; send_stream_chunk (new_send h b fin)) s
    (fun p s' => sent_on (ss_stream_id h) g rs s (map send_hold (option_list (left (new_send h b fin) p)) ++ hs) s' /\
      Forall (future_ok (g_names g)) (option_list (left (new_send h b fin) p)))
    (fun _ s' => sent_on (ss_stream_id h) g rs s hs s').
Proof.
  intros Hd Hn. wp_step. eapply wp_mono; [by apply (wp_select_mode lim g hs rs (ss_stream_id h))|..].
  - intros ? s1 [Hd1 Hq]. pose proof (sent_on_same (ss_stream_id h) g rs s hs s1 Hd1 Hq) as Hs.
    eapply wp_mono; [apply (wp_poll_send (ss_stream_id h) g hs rs s1 (new_send h b fin)); [by apply duplex_new|by apply new_send_ok|done]|..]; simpl.
    + intros p s' [? ?]. split; [|done]. eapply sent_on_trans; [exact Hs|]. by rewrite record_same.
    + intros e s' ?. eapply sent_on_trans; [exact Hs|]. by rewrite record_same.
  - intros e s1 [Hd1 Hq]. by apply sent_on_same.
Qed.

Lemma wp_poll_fut id g hs rs s o : duplex true g (map send_hold (option_list o) ++ hs) rs s -> stores (g_names g) id o ->
  wp (poll_fut o) s
    (fun r s' => sent_on id g rs s (map send_hold (option_list r.1) ++ hs) s' /\ stores (g_names g) id r.1 /\
      (r.2 = Pending \/ r.1 = None)) (fun _ _ => False).
Proof.
  intros Hd Hs. destruct o as [f|]; simpl poll_fut; [|wp_step; split_and!; [by apply sent_on_same|done|by right]].
  apply Forall_singleton in Hs as [Hf Hid]. wp_step. apply wp_try_io.
  eapply wp_mono; [by apply (wp_poll_send id g hs rs s f)|..].
  - intros p s' [Ho Hl]. wp_step. destruct p as [|stage]; simpl in *.
    + split_and!; [done|constructor|by right].
    + apply Forall_inv in Hl. split_and!; [done|by apply Forall_singleton|by left].
  - intros e s' Ho. wp_step. split_and!; [done|constructor|by right].
Qed.

(** What a poll of a handle leaves. *)
Definition handle_left {A} g hs rs s h (r : SendStream * A) s' : Prop :=
  sent_on (ss_stream_id h) g rs s (map send_hold (stored r.1) ++ hs) s' /\ sender_ok (g_names g) r.1 /\
  ss_stream_id r.1 = ss_stream_id h.

Lemma handle_same {A} g hs rs s h (a : A) s' : duplex true g (map send_hold (stored h) ++ hs) rs s' -> queues s' = queues s ->
  sender_ok (g_names g) h -> handle_left g hs rs s h (h, a) s'.
Proof. intros Hd Hq Hh. split_and!; [by apply sent_on_same|done..]. Qed.

Lemma holds_stored h : map send_hold (stored h) =
  map send_hold (option_list (write_fut h)) ++ map send_hold (option_list (shutdown_fut h)).
Proof. apply map_app. Qed.

(** Polling the chunk a handle stores. *)
Lemma wp_poll_stored g hs rs s h : duplex true g (map send_hold (stored h) ++ hs) rs s -> sender_ok (g_names g) h ->
  wp (poll_fut (write_fut h)) s
    (fun r s' => handle_left g hs rs s h (h <| write_fut := r.1 |>, r.2) s' /\ (r.2 = Pending \/ r.1 = None)) (fun _ _ => False).
Proof.
  intros Hd [Hn Hw Hsh]. rewrite holds_stored, <- app_assoc in Hd.
  eapply wp_mono; [by apply (wp_poll_fut (ss_stream_id h))| |done]. intros r s' (Hs & Hr & Hp). split; [|done].
  split_and!; [|by split|done]. by rewrite holds_stored, <- app_assoc.
Qed.

Lemma wp_mode_first {A} g hs rs s h (k : IoResult unit -> Conn (SendStream * Poll (IoResult A))) :
  duplex true g (map send_hold (stored h) ++ hs) rs s -> sender_ok (g_names g) h ->
  (forall e, k (IoErr e) = mret (h, Ready (IoErr e))) ->
  (forall s1, duplex true g (map send_hold (stored h) ++ hs) rs s1 -> queues s1 = queues s ->
    wp (k (IoOk tt)) s1 (handle_left g hs rs s h) (fun _ _ => False)) ->
  wp (m ← try_io (select_send_mode (ss_state h) 2); k m) s (handle_left g hs rs s h) (fun _ _ => False).
Proof.
  intros Hd Hh He Hk. wp_step. apply wp_try_io.
  eapply wp_mono; [apply (wp_select_mode lim g (map send_hold (stored h) ++ hs) rs (ss_stream_id h)); [apply Hh|exact Hd]|..].
  - intros [] s1 [Hd1 Hq]. by apply Hk.
  - intros e s1 [Hd1 Hq]. rewrite He. wp_step. by apply handle_same.
Qed.

Lemma handle_from {A} g hs rs s s1 h (r : SendStream * A) s' : queues s1 = queues s ->
  handle_left g hs rs s1 h r s' -> handle_left g hs rs s h r s'.
Proof.
  intros Hq (Hs & Hok & Hid). split_and!; [|done..]. destruct Hs as [Hd He]. split.
  - unfold record, took in *. by rewrite <- Hq.
  - unfold extends in *. by rewrite <- Hq.
Qed.

Lemma wp_poll_flush g hs rs s h : duplex true g (map send_hold (stored h) ++ hs) rs s -> sender_ok (g_names g) h ->
  wp (poll_flush h) s (fun r s' => handle_left g hs rs s h r s' /\ (r.2 = Pending \/ write_fut r.1 = None \/ exists e, r.2 = Ready (IoErr e)))
    (fun _ _ => False).
Proof.
  intros Hd Hh. unfold poll_flush. wp_step. apply wp_try_io.
  eapply wp_mono; [apply (wp_select_mode lim g (map send_hold (stored h) ++ hs) rs (ss_stream_id h)); [apply Hh|exact Hd]|..].
  - intros [] s1 [Hd1 Hq]. wp_step. eapply wp_mono; [by apply (wp_poll_stored g hs rs s1 h)| |done].
    intros r s' [Hl Hp]. wp_step. split; [by eapply handle_from|]. destruct Hp as [?|?]; [by left|by right; left].
  - intros e s1 [Hd1 Hq]. wp_step. split; [by apply handle_same|]. right; right. by eexists.
Qed.

Lemma wp_poll_write g hs rs s h b : duplex true g (map send_hold (stored h) ++ hs) rs s -> sender_ok (g_names g) h ->
  wp (poll_write h b) s (handle_left g hs rs s h) (fun _ _ => False).
Proof.
  intros Hd Hh. unfold poll_write. apply wp_mode_first; [done..|]. intros s1 Hd1 Hq1.
  destruct (zlen b =? 0); [wp_step; by apply handle_same|]. wp_step. wp_step.
  destruct (named_live lim _ _ _ _ _ _ Hd1 (sd_name _ _ Hh)) as [st Hst]. wp_step. apply (wp_get_state _ st); [done|].
  destruct (_ || _); [wp_step; by apply handle_same|]. wp_step. eapply wp_mono; [by apply (wp_poll_flush g hs rs s1 h)| |done].
  intros [h1 p] s2 [Hl Hp]. simpl in Hp. destruct p as [[u|e]|].
  - destruct Hp as [?|[Hw|[? ?]]]; try done. wp_step. wp_step. pose proof Hl as (Hs & Hok & Hid). simpl in Hs, Hok, Hid.
    pose proof (dx_send _ _ _ _ _ _ (on_duplex _ _ _ _ _ _ Hs)) as Hf.
    destruct (max_payload_some (limits s2) (ss_stream_id h1)) as [n Hn].
    { rewrite (fu_limits _ _ _ _ Hf). destruct Hlim. unfold Limits.MIN_FRAME_SIZE in *. lia. }
    { eapply (nm_range _ _ (sv_names _ _ (fu_inv _ _ _ _ Hf))). rewrite record_names. apply Hok. }
    rewrite Hn. simpl expect. wp_step. wp_step. destruct (n =? 0); [wp_step; by eapply handle_from|]. wp_step.
    eapply handle_from; [exact Hq1|]. split_and!; [|split; try apply Hok; by constructor; [split; [by apply new_send_ok, Hok|]|]|done].
    unfold stored in *. simpl. rewrite Hw in Hs. simpl in Hs. destruct Hs as [Hd2 He2]. split; [|done]. by apply duplex_new.
  - wp_step. by eapply handle_from.
  - wp_step. by eapply handle_from.
Qed.

Lemma wp_poll_shutdown g hs rs s h : duplex true g (map send_hold (stored h) ++ hs) rs s -> sender_ok (g_names g) h ->
  wp (poll_shutdown h) s (handle_left g hs rs s h) (fun _ _ => False).
Proof.
  intros Hd Hh. unfold poll_shutdown. apply wp_mode_first; [done..|]. intros s1 Hd1 Hq1.
  destruct (shutdown_complete h); [wp_step; by apply handle_same|]. wp_step.
  eapply wp_mono; [by apply (wp_poll_stored g hs rs s1 h)| |done]. intros [o p] s2 [Hl Hp]. simpl in Hl, Hp |- *.
  destruct p as [[u|e]|]; [|wp_step; by eapply handle_from..]. destruct Hp as [?| ->]; [done|].
  pose proof Hl as (Hs & Hok & _). simpl in Hs, Hok. unfold stored in Hs. simpl in Hs.
  set (f := default _ _). assert (Hf : stores (g_names g) (ss_stream_id h) (Some f)).
  { unfold f. pose proof (sd_shutdown _ _ Hh) as Hx. destruct (shutdown_fut h); [done|]. constructor; [|done]. split; [by apply new_send_ok, Hh|done]. }
  assert (Hd2 : duplex true (record (ss_stream_id h) s1 s2 g) (map send_hold (option_list (Some f)) ++ hs) rs s2).
  { unfold f. destruct (shutdown_fut h); [apply Hs|]. simpl. by apply duplex_new, Hs. }
  wp_step. eapply wp_mono; [apply (wp_poll_fut (ss_stream_id h) _ hs rs s2 (Some f) Hd2); by rewrite record_names| |done].
  intros [o p] s3 (Hs3 & Ho & _). rewrite record_names in Ho. simpl in Hs3, Ho |- *.
  assert (Hend : forall b (q : Poll (IoResult unit)),
    handle_left g hs rs s h (h <| write_fut := None |> <| shutdown_fut := o |> <| shutdown_complete := b |>, q) s3).
  { intros b q. eapply handle_from; [exact Hq1|]. split_and!; [by eapply sent_on_trans|split; [apply Hh|constructor|done]|done]. }
  destruct p as [[?|e]|]; wp_step; [apply Hend|apply (Hend (shutdown_complete h))..].
Qed.

(** Dropping a send that waits, and a handle with the sends it stores. *)
Lemma wp_cancel g hs rs s f : duplex true g (send_hold f :: hs) rs s -> future_ok (g_names g) f ->
  wp (cancel_send f) s (fun _ s' => duplex true g hs rs s') (fun _ _ => False).
Proof.
  intros [Hf Hp] Hfo. pose proof Hf as [Hi Hl Hlm]. rewrite holds_cons in Hl.
  eapply wp_mono; [apply wp_respects; [apply sends_release_stage|]|..].
  - apply (wp_release_stage s (sf_state f) (holds s hs)) with (Q := fun _ s' => tally s (holds s hs) s') (R := fun _ _ => False); [|by apply tally_refl|done].
    + apply (nm_dom _ _ (sv_names _ _ Hi)). eexists. apply Hfo.
  - intros ? s' [Hs Ht]. split; [|by eapply phase_sends]. eapply full_tally; [exact Hf|]. eapply tally_perm; [|exact Ht].
    unfold holds. by rewrite app_nil_r, Permutation_app_comm.
  - by intros ? ? [_ []].
Qed.

Lemma drop_no_error l : errs (fun _ => False) (drop_send_stream l).
Proof. unfold drop_send_stream, release_send_handle, upd_state, notify. err_steps. Qed.

Lemma wp_cancel_opt id g hs rs s o : duplex true g (map send_hold (option_list o) ++ hs) rs s -> stores (g_names g) id o ->
  wp (when_some o cancel_send) s (fun _ s' => duplex true g hs rs s') (fun _ _ => False).
Proof.
  intros Hd Ho. destruct o as [f|]; simpl; [|by wp_step]. apply Forall_singleton in Ho as [Hf _]. by apply wp_cancel.
Qed.

Lemma wp_drop_sender g hs rs s h : duplex true g (map send_hold (stored h) ++ hs) rs s -> sender_ok (g_names g) h ->
  wp (drop_sender h) s (fun _ s' => duplex true g hs rs s') (fun _ _ => False).
Proof.
  intros Hd [Hn Hw Hs]. unfold drop_sender. wp_step. rewrite holds_stored, <- app_assoc in Hd.
  eapply wp_mono; [eapply wp_errs; [apply drop_no_error|by refine (keeps_drop_sender lim g _ rs (ss_stream_id h) _ Hn _ Hd)]| |by intros ? ? [[] _]].
  intros ? s1 Hd1. wp_step. eapply wp_mono; [by refine (wp_cancel_opt (ss_stream_id h) g _ rs s1 _ Hd1 Hw)| |done].
  intros ? s2 Hd2. by apply (wp_cancel_opt (ss_stream_id h)).
Qed.

End sends.
