(* ===== verification/System.v ===== *)
(** A connection with everything that acts on it: the application with its handles and
    the calls it has in progress, the peer, and the tasks of [spawn_connection_tasks].
    One event is what one of them does between two waits; any order of events is an
    execution. *)

From S2P Require Import Prelude Hoare Buf Varint Utf8 Frames Errors Limits Flow Tokio.
From S2P Require Import ConnState Inbound Writer Connection Streams Tasks ReceiveSystem SendInv SendPeer Duplex DuplexOps SendDuplex.

#[local] Open Scope Z_scope.

Section system.
Context {TK : Tokio} {HI : HashIter}.

(** ** The state *)

(** The supervisor waits for the connection to close, then for the drain deadline, and
    all the time for the tasks to end. *)
Inductive SupervisorTask := Watching | Draining | Expired | Joined.

(** The shared state; the handles of the application; its calls that wait, of
    [write_chunk] and [finish], and the number of those of [open_bi]; the tasks, whether
    they run and where they wait; the frames the sink took; and the history. *)
Record World := mkWorld {
  w_conn : ConnectionShared;
  w_senders : list SendStream;
  w_receivers : list RecvStream;
  w_sends : list SendFuture;
  w_opening : nat;
  w_reader : bool;
  w_cleanup : bool;
  w_keepalive : bool;
  w_writer : WriterTask;
  w_supervisor : SupervisorTask;
  w_wire : list Frame;
  w_hist : Ghost
}.

#[global] Instance eta_World : Settable World := fun x =>
  mkWorld (w_conn x) (w_senders x) (w_receivers x) (w_sends x) (w_opening x) (w_reader x) (w_cleanup x)
    (w_keepalive x) (w_writer x) (w_supervisor x) (w_wire x) (w_hist x).

(** After [Connection::new]; the keepalive task is optional. *)
Definition world_new (keepalive : bool) (s : ConnectionShared) : World :=
  mkWorld s [] [] [] 0 true true keepalive WriterIdle Watching [] (mkGhost ∅ ∅ []).

(** ** Events *)

Inductive Event :=
(* the application, on the connection *)
| Open | OpenResume | OpenCancel | Accept
| Close (reason : bytes) | Abort | CloneHandle | DropHandle
(* on a stream: the index of a handle, or of a call that waits *)
| WriteChunk (i : nat) (chunk : bytes) | Finish (i : nat) | Reset (i : nat) (code : Z)
| SendResume (j : nat) | SendCancel (j : nat)
| PollWrite (i : nat) (buf : bytes) | PollFlush (i : nat) | PollShutdown (i : nat) | DropSender (i : nat)
| ReadChunk (k : nat) | PollRead (k : nat) (room : Z) | DropReceiver (k : nat)
(* the tasks *)
| Reader (item : ReaderItem) | Writer (sink_ok : bool) | Keepalive | Cleanup
| Watch | Deadline | Join.

(** The arguments of the Rust types. *)
Definition typed (e : Event) : bool :=
  match e with
  | Close reason => utf8_valid reason
  | Reset _ code => (0 <=? code) && (code <=? u64_max)
  | PollRead _ room => 0 <=? room
  | _ => true
  end.

Inductive Step := Disabled | Crash | Next (w : World).

(** A call in the state of the world; [k] sees its value, if it returned one. *)
Definition perform {A} (m : Conn A) (w : World) (k : option A -> World -> World) : Step :=
  match m (w_conn w) with
  | (Ok a, s) => Next (k (Some a) (w <| w_conn := s |>))
  | (Err _, s) => Next (k None (w <| w_conn := s |>))
  | (Panic, _) => Crash
  end.

(** The bytes that a call on stream [id] queued go to the history. *)
Definition noted (id : Z) (w w' : World) : World :=
  w' <| w_hist ::= record id (w_conn w) (w_conn w') |>.

(** A new pair of handles. *)
Definition new_sender (id : Z) (l : loc) : SendStream := mkSendStream id l None None false.
Definition add_stream (id : Z) (l : loc) (w : World) : World :=
  w <| w_senders ::= cons (new_sender id l) |> <| w_receivers ::= cons (new_reader id l) |>.
Definition opened_stream (id : Z) (l : loc) (w : World) : World :=
  add_stream id l (w <| w_hist ::= name l id |>).

(** A call needs a handle of the connection. *)
Definition with_handle (w : World) (x : Step) : Step := if 0 <? connection_handles (w_conn w) then x else Disabled.
Definition with_sender (i : nat) (w : World) (k : SendStream -> Step) : Step :=
  match w_senders w !! i with Some h => k h | None => Disabled end.
Definition with_receiver (i : nat) (w : World) (k : RecvStream -> Step) : Step :=
  match w_receivers w !! i with Some h => k h | None => Disabled end.
Definition with_send (j : nat) (w : World) (k : SendFuture -> Step) : Step :=
  match w_sends w !! j with Some f => k f | None => Disabled end.

(** A send call was made, or a waiting one polled: [others] are the calls that wait
    besides. *)
Definition send_polled (w : World) (f : SendFuture) (others : list SendFuture) (r : option SendPoll) (w' : World) : World :=
  noted (sf_stream_id f) w (w' <| w_sends := option_list (r ≫= left f) ++ others |>).

(** A poll of [AsyncWrite] on the handle [h] at [i]. *)
Definition handle_polled {A} (w : World) (i : nat) (h : SendStream) (r : option (SendStream * A)) (w' : World) : World :=
  noted (ss_stream_id h) w (w' <| w_senders ::= insert i (from_option fst h r) |>).

(** The reader's [select!] prefers the termination signal. *)
Definition item_ready (item : ReaderItem) (s : ConnectionShared) : bool :=
  match item with RTerminated => terminated s | _ => negb (terminated s) end.

Definition tasks_ended (w : World) : bool :=
  negb (w_reader w) && negb (w_cleanup w) && negb (w_keepalive w) &&
  match w_writer w with WriterEnded => true | _ => false end.

(** The writer task at the end of its turn: it took a frame, or the sink did. *)
Definition writer_turned (sink_ok : bool) (w : World) (r : option WriterTask) (w' : World) : World :=
  match r with
  | None => w'
  | Some t =>
      let w' := w' <| w_writer := t |> in
      match w_writer w, t with
      | WriterIdle, WriterSending f _ => w' <| w_hist ::= emit f |>
      | WriterSending f _, _ =>
          if sink_ok && negb (terminated (w_conn w)) then w' <| w_wire ::= (fun l => l ++ [f]) |> else w'
      | _, _ => w'
      end
  end.

Definition exec_app (e : Event) (w : World) : Step :=
  match e with
  | Open => with_handle w (perform open_bi w (fun r w' =>
      match r with
      | Some (Ready (id, l)) => opened_stream id l w'
      | Some Pending => w' <| w_opening ::= S |>
      | None => w'
      end))
  | OpenResume =>
      match w_opening w with
      | O => Disabled
      | S n => perform open_bi_admitted w (fun r w' =>
          match r with
          | Some (Ready (id, l)) => opened_stream id l (w' <| w_opening := n |>)
          | Some Pending => w'
          | None => w' <| w_opening := n |>
          end)
      end
  | OpenCancel => match w_opening w with O => Disabled | S n => Next (w <| w_opening := n |>) end
  | Accept => with_handle w (perform accept_bi w (fun r w' =>
      match r with Some (Ready (id, l)) => add_stream id l w' | _ => w' end))
  | Close reason => with_handle w (perform (close reason) w (fun _ w' => w'))
  | Abort => with_handle w (perform abort w (fun _ w' => w'))
  | CloneHandle => with_handle w (perform clone_connection w (fun _ w' => w'))
  | DropHandle => with_handle w (perform drop_connection w (fun _ w' => w'))
  | _ => Disabled
  end.

Definition exec_stream (e : Event) (w : World) : Step :=
  match e with
  | WriteChunk i b => with_sender i w (fun h =>
      perform (write_chunk h b) w (send_polled w (new_send h b false) (w_sends w)))
  | Finish i => with_sender i w (fun h =>
      perform (finish h) w (send_polled w (new_send h [] true) (w_sends w)))
  | Reset i code => with_sender i w (fun h => perform (reset h code) w (fun _ w' => w'))
  | SendResume j => with_send j w (fun f =>
      perform (send_stream_chunk f) w (send_polled w f (delete j (w_sends w))))
  | SendCancel j => with_send j w (fun f =>
      perform (cancel_send f) w (fun _ w' => w' <| w_sends ::= delete j |>))
  | PollWrite i b => with_sender i w (fun h => perform (poll_write h b) w (handle_polled w i h))
  | PollFlush i => with_sender i w (fun h => perform (poll_flush h) w (handle_polled w i h))
  | PollShutdown i => with_sender i w (fun h => perform (poll_shutdown h) w (handle_polled w i h))
  | DropSender i => with_sender i w (fun h =>
      perform (drop_sender h) w (fun _ w' => w' <| w_senders ::= delete i |>))
  | ReadChunk k => with_receiver k w (fun h => perform (recv_read_chunk h) w (fun _ w' => w'))
  | PollRead k room => with_receiver k w (fun h =>
      perform (poll_read h room) w (fun r w' => w' <| w_receivers ::= insert k (from_option fst h r) |>))
  | DropReceiver k => with_receiver k w (fun h =>
      perform (drop_reader h) w (fun _ w' => w' <| w_receivers ::= delete k |>))
  | _ => Disabled
  end.

Definition exec_task (e : Event) (w : World) : Step :=
  let s := w_conn w in
  match e with
  | Reader item =>
      if w_reader w && item_ready item s then
        perform (reader_step item) w (fun r w' =>
          w' <| w_reader := default false r |> <| w_hist ::= name_item item s (w_conn w') |>)
      else Disabled
  | Writer sink_ok => perform (writer_turn sink_ok (w_writer w)) w (writer_turned sink_ok w)
  | Keepalive =>
      if w_keepalive w then perform keepalive_tick w (fun r w' => w' <| w_keepalive := default false r |>)
      else Disabled
  | Cleanup =>
      if w_cleanup w then
        if terminated s then Next (w <| w_cleanup := false |>)
        else perform cleanup_pass w (fun _ w' => w')
      else Disabled
  | Watch =>
      match w_supervisor w with
      | Watching => perform supervisor_watch w (fun r w' =>
          if default false r then w' <| w_supervisor := Draining |> else w')
      | _ => Disabled
      end
  | Deadline =>
      match w_supervisor w with
      | Draining => perform supervisor_deadline w (fun _ w' => w' <| w_supervisor := Expired |>)
      | _ => Disabled
      end
  | Join =>
      match w_supervisor w with
      | Joined => Disabled
      | _ => if tasks_ended w then perform supervisor_joined w (fun _ w' => w' <| w_supervisor := Joined |>)
             else Disabled
      end
  | _ => Disabled
  end.

Definition exec (e : Event) (w : World) : Step :=
  match e with
  | Open | OpenResume | OpenCancel | Accept | Close _ | Abort | CloneHandle | DropHandle => exec_app e w
  | WriteChunk _ _ | Finish _ | Reset _ _ | SendResume _ | SendCancel _ | PollWrite _ _ | PollFlush _
  | PollShutdown _ | DropSender _ | ReadChunk _ | PollRead _ _ | DropReceiver _ => exec_stream e w
  | Reader _ | Writer _ | Keepalive | Cleanup | Watch | Deadline | Join => exec_task e w
  end.

(** A schedule; it stops at an event that cannot happen. *)
Fixpoint exec_all (es : list Event) (w : World) : Step :=
  match es with
  | [] => Next w
  | e :: es => match exec e w with Next w' => exec_all es w' | r => r end
  end.

(** The executions of a connection with the limits [lim]. *)
Inductive runs (lim : Limits) : World -> Prop :=
| runs_new (is_client keepalive : bool) s : Limits.unsigned lim -> connection_new lim is_client = Ok s ->
    runs lim (world_new keepalive s)
| runs_event w e w' : runs lim w -> typed e = true -> exec e w = Next w' -> runs lim w'.

Lemma runs_all lim es w w' : runs lim w -> forallb typed es = true -> exec_all es w = Next w' -> runs lim w'.
Proof.
  revert w. induction es as [|e es IH]; intros w Hr; simpl; [intros _ [= <-]; done|].
  intros [He Hes]%andb_true_iff. destruct (exec e w) as [| |w1] eqn:E; try done. intros Hx. eapply IH; [|done..].
  by eapply runs_event.
Qed.

End system.
