(* ===== verification/SystemInv.v ===== *)
(** The invariant of a connection with everything that acts on it: it holds in every
    execution of [System], and no event panics. *)

From S2P Require Import Prelude Hoare Buf Varint Utf8 Frames Errors Limits Flow Tokio.
From S2P Require Import ConnState Inbound InboundSpec Writer WriterSpec Scheduler Connection Streams Tasks.
From S2P Require Import ReceiveSpec ReadSpec ReceiveSystem ConnectionSpec Ledger SendSpec SendInv SendOps Halves.
From S2P Require Import ErrorText SendPeer Duplex DuplexOps StreamsSpec SendDuplex System.

#[local] Open Scope Z_scope.

Section inv.
Context {TK : Tokio} {TKL : TokioLaws TK} {HI : HashIter} {HIL : HashIterLaws HI}.
Context (lim : Limits).
Implicit Types (s : ConnectionShared) (g : Ghost) (hs : list Hold) (rs : list RecvStream).

(** ** A new connection *)

Lemma new_valid is_client s : Limits.unsigned lim -> connection_new lim is_client = Ok s -> Limits.Valid MAX_PERMITS lim.
Proof.
  intros Hu Hn. unfold connection_new in Hn. by apply bind_ok_iff in Hn as ([] & Hval%Limits.validate_valid & _).
Qed.

Lemma varint_wf n a : (expect (ok (VarInt.from_u64 (as_u64 n))) : Result Error VarInt) = Ok a -> VarInt.wf a.
Proof.
  destruct (VarInt.from_u64 (as_u64 n)) as [b| |] eqn:E; simpl; [intros [= <-]|done..].
  apply VarInt.from_u64_Ok in E as [E ?]. unfold VarInt.wf. rewrite E. split; [|done]. unfold as_u64. apply Z.mod_pos_bound. lia.
Qed.

Lemma full_new is_client s : Limits.unsigned lim -> connection_new lim is_client = Ok s -> full lim (mkGhost ∅ ∅ []) [] s.
Proof.
  intros Hu Hn. pose proof (new_valid _ _ Hu Hn) as Hval. unfold connection_new in Hn.
  apply bind_ok_iff in Hn as ([] & _ & Hn).
  apply bind_ok_iff in Hn as (a & Ha & Hn). apply bind_ok_iff in Hn as (b & Hb & Hn).
  apply bind_ok_iff in Hn as (c & Hc & Hn). injection Hn as <-. destruct Hval.
  split; [|..|done].
  - split; simpl; try done.
    + split; simpl; try done.
      * constructor.
      * intros id. rewrite lookup_empty. split; [by intros ?%not_elem_of_nil|by intros []].
      * constructor; [|done]. split; [done|]. simpl. split_and!; by eapply varint_wf.
      * apply ReceiveWindow.inv_new. rewrite VarInt.MAX_eq. unfold u32_max in *. lia.
    + split; simpl; try done.
      * intros l. rewrite !lookup_empty. split; by intros [].
      * intros l. rewrite lookup_empty. by intros [].
      * by destruct is_client.
      * by destruct is_client.
    + by repeat constructor.
    + by intros [] ? ?.
    + intros _. by eexists _, [].
    + unfold zlen. simpl. lia.
  - match goal with |- ledger _ ?hs => assert (hs = []) as -> by by vm_compute end.
    split; simpl; unfold balanced, open_unless; rewrite ?new_available, ?new_open; try done; try lia.
Qed.

Lemma duplex_new_conn is_client s : Limits.unsigned lim -> connection_new lim is_client = Ok s ->
  duplex lim true (mkGhost ∅ ∅ []) [] [] s.
Proof.
  intros Hu Hn. split; [by eapply full_new|]. pose proof (recv_new _ _ _ Hu Hn) as Hr. unfold phase.
  assert (Hc : cleanup_started s = false).
  { unfold connection_new in Hn. do 4 (apply bind_ok_iff in Hn as (? & _ & Hn)). by injection Hn as <-. }
  rewrite Hc. by exists idle.
Qed.
(** ** The invariant *)

(** The sends in progress. *)
Definition futures (w : World) : list SendFuture := w_sends w ++ (w_senders w ≫= stored).

(** The sink took all frames the writer took, but the one it is sending; the end of the
    writer may lose one. *)
Definition wire_ok (t : WriterTask) (wire trace : list Frame) : Prop :=
  match t with
  | WriterIdle => wire = trace
  | WriterSending f b => wire ++ [f] = trace /\ encode_frame f = Some b
  | WriterClosing | WriterEnded => wire `prefix_of` trace
  end.

Record world_inv (w : World) : Prop := {
  wv_valid : Limits.Valid MAX_PERMITS lim;
  wv_duplex : duplex lim true (w_hist w) (map send_hold (futures w)) (w_receivers w) (w_conn w);
  wv_sends : Forall (future_ok lim (g_names (w_hist w))) (w_sends w);
  wv_senders : Forall (sender_ok lim (g_names (w_hist w))) (w_senders w);
  wv_wire : wire_ok (w_writer w) (w_wire w) (g_trace (w_hist w))
}.

Lemma world_inv_new is_client keepalive s : Limits.unsigned lim -> connection_new lim is_client = Ok s ->
  world_inv (world_new keepalive s).
Proof.
  intros Hu Hn. split; simpl; try done; [by eapply new_valid|by eapply duplex_new_conn].
Qed.

Lemma duplex_perm g hs hs' rs s : hs ≡ₚ hs' -> duplex lim true g hs rs s -> duplex lim true g hs' rs s.
Proof. intros Hp [Hf Hr]. split; [|done]. by eapply full_perm. Qed.

(** The handle at an index, and the others. *)
Lemma futures_sender w i h : w_senders w !! i = Some h ->
  futures w ≡ₚ stored h ++ (w_sends w ++ (delete i (w_senders w) ≫= stored)).
Proof.
  intros Hi. unfold futures. apply delete_Permutation in Hi. rewrite Hi at 1. rewrite bind_cons. by rewrite Permutation_app_swap_app.
Qed.
Lemma futures_send w j f : w_sends w !! j = Some f ->
  futures w ≡ₚ f :: (delete j (w_sends w) ++ (w_senders w ≫= stored)).
Proof. intros Hj. unfold futures. apply delete_Permutation in Hj. by rewrite Hj at 1. Qed.

Lemma names_mono (m m' : gmap loc Z) f : m ⊆ m' -> future_ok lim m f -> future_ok lim m' f.
Proof. intros Hm [Hn ? ?]. split; [by eapply lookup_weaken|done..]. Qed.
Lemma stores_mono (m m' : gmap loc Z) id o : m ⊆ m' -> stores lim m id o -> stores lim m' id o.
Proof. intros Hm Ho. eapply Forall_impl; [exact Ho|]. intros f [? ?]. split; [by eapply names_mono|done]. Qed.
Lemma sender_mono (m m' : gmap loc Z) h : m ⊆ m' -> sender_ok lim m h -> sender_ok lim m' h.
Proof. intros Hm [Hn ? ?]. split; [by eapply lookup_weaken|by eapply stores_mono..]. Qed.

(** The holds are on streams that exist. *)
Lemma futures_ok w : world_inv w -> Forall (future_ok lim (g_names (w_hist w))) (futures w).
Proof.
  intros []. unfold futures. apply Forall_app. split; [done|]. clear -wv_senders0.
  induction wv_senders0 as [|h hs [_ Hw Hs] _ IH]; simpl; [done|]. apply Forall_app. split; [|done]. unfold stored.
  apply Forall_app. split; (eapply Forall_impl; [eassumption|]); by intros f [].
Qed.

Lemma world_on_heap w : world_inv w -> on_heap (w_conn w) (map send_hold (futures w)).
Proof.
  intros Hw. unfold on_heap. apply Forall_map. eapply Forall_impl; [by apply futures_ok|]. intros f [Hn _ _].
  assert (He : ho_loc (send_hold f) = sf_state f) by (unfold send_hold; by destruct (sf_stage f)). rewrite He.
  destruct Hw. apply (nm_dom _ _ (sv_names _ _ (fu_inv _ _ _ _ (dx_send _ _ _ _ _ _ wv_duplex0)))). by eexists.
Qed.

(** ** Events *)

(** An event that leads to a state of the invariant, if it happens. *)
Definition safe (x : Step) : Prop := match x with Disabled => True | Crash => False | Next w => world_inv w end.

Lemma safe_perform {A} (m : Conn A) w k (Q : A -> ConnectionShared -> Prop) (R : Error -> ConnectionShared -> Prop) :
  wp m (w_conn w) Q R -> (forall a s, Q a s -> world_inv (k (Some a) (w <| w_conn := s |>))) ->
  (forall e s, R e s -> world_inv (k None (w <| w_conn := s |>))) -> safe (perform m w k).
Proof. unfold wp, perform. destruct (m (w_conn w)) as [[]]; simpl; eauto. Qed.

Lemma safe_keeps {A} (m : Conn A) w k :
  world_inv w -> keeps (duplex lim true (w_hist w) (map send_hold (futures w)) (w_receivers w)) m ->
  (forall r s, world_inv (w <| w_conn := s |>) -> world_inv (k r (w <| w_conn := s |>))) -> safe (perform m w k).
Proof.
  intros Hw Hm Hk. eapply safe_perform; [apply Hm, Hw|..]; simpl; intros ? s Hd; apply Hk; by destruct Hw.
Qed.

(** The parts of the world besides the connection that an event may leave alone. *)
Lemma inv_conn w s : world_inv w -> duplex lim true (w_hist w) (map send_hold (futures w)) (w_receivers w) s ->
  world_inv (w <| w_conn := s |>).
Proof. intros [] Hd. by split. Qed.

Lemma new_sender_ok names id l : names !! l = Some id -> sender_ok lim names (new_sender id l).
Proof. intros Hn. split; [done|constructor..]. Qed.

Lemma inv_added w id l s : world_inv w -> g_names (w_hist w) !! l = Some id ->
  duplex lim true (w_hist w) (map send_hold (futures w)) (new_reader id l :: w_receivers w) s ->
  world_inv (add_stream id l (w <| w_conn := s |>)).
Proof. intros [] Hn Hd. split; simpl; try done. constructor; [by apply new_sender_ok|done]. Qed.

Lemma inv_opened w id l s n : world_inv w -> g_names (w_hist w) !! l = None ->
  duplex lim true (name l id (w_hist w)) (map send_hold (futures w)) (new_reader id l :: w_receivers w) s ->
  world_inv (opened_stream id l (w <| w_conn := s |> <| w_opening := n |>)).
Proof.
  intros [] Hn Hd. assert (Hsub : g_names (w_hist w) ⊆ <[l := id]> (g_names (w_hist w))) by (by apply insert_subseteq).
  split; simpl; try done.
  - eapply Forall_impl; [done|]. intros f. by apply names_mono.
  - constructor; [apply new_sender_ok, lookup_insert_eq|]. eapply Forall_impl; [done|]. intros h. by apply sender_mono.
Qed.

Lemma inv_opening w n : world_inv w -> world_inv (w <| w_opening := n |>).
Proof. intros []. by split. Qed.

Lemma safe_app e w : world_inv w -> typed e = true -> safe (exec_app e w).
Proof.
  intros Hw Ht. pose proof Hw as [Hv Hd _ _ _]. pose proof (world_on_heap w Hw) as Hh.
  assert (Hopen : wp open_bi_admitted (w_conn w) (fun p s' => opened lim (w_hist w) (map send_hold (futures w)) (w_receivers w) p s')
    (fun _ s' => duplex lim true (w_hist w) (map send_hold (futures w)) (w_receivers w) s')) by (by apply wp_open_bi).
  assert (Hhandle : forall x, safe x -> safe (with_handle w x)) by (intros x Hx; unfold with_handle; by destruct (0 <? _)).
  destruct e; simpl in Ht |- *; try done; try apply Hhandle.
  - eapply safe_perform with (R := fun _ s' => duplex lim true (w_hist w) (map send_hold (futures w)) (w_receivers w) s').
    + unfold open_bi, ensure_open. wp_step. wp_step. wp_step. wp_step; [exact Hd|exact Hopen].
    + intros [[id l]|] s; simpl; [intros [? ?]; by apply (inv_opened w id l s (w_opening w))|intros ?; exact (inv_opening (w <| w_conn := s |>) (S (w_opening w)) (inv_conn w s Hw H))].
    + intros ? s Hs. by apply inv_conn.
  - destruct (w_opening w) as [|n]; [done|]. eapply safe_perform; [exact Hopen|..].
    + intros [[id l]|] s; simpl; [intros [? ?]; by apply inv_opened|intros ?; by apply inv_conn].
    + intros ? s Hs. exact (inv_opening (w <| w_conn := s |>) n (inv_conn w s Hw Hs)).
  - destruct (w_opening w) as [|n]; [done|]. simpl. by apply inv_opening.
  - eapply safe_perform; [by apply (wp_accept_duplex lim Hv true (w_hist w) (map send_hold (futures w)) (w_receivers w))|..].
    + intros [[id l]|] s; [intros [? ?]; by apply inv_added|intros ?; by apply inv_conn].
    + intros ? s Hs. by apply inv_conn.
  - apply safe_keeps; [done|by apply keeps_connection_close|done].
  - apply safe_keeps; [done|by apply keeps_abort|done].
  - apply safe_keeps; [done|by apply keeps_clone|done].
  - apply safe_keeps; [done|by apply keeps_drop_connection|done].
Qed.

Lemma record_trace id s s' g : g_trace (record id s s' g) = g_trace g.
Proof. unfold record. by destruct (took id s s'). Qed.

Lemma inv_send_polled w f others r s : world_inv w ->
  Forall (future_ok lim (g_names (w_hist w))) (option_list (r ≫= left f)) ->
  Forall (future_ok lim (g_names (w_hist w))) others ->
  sent_on lim (sf_stream_id f) (w_hist w) (w_receivers w) (w_conn w)
    (map send_hold (option_list (r ≫= left f)) ++ map send_hold (others ++ (w_senders w ≫= stored))) s ->
  world_inv (send_polled w f others r (w <| w_conn := s |>)).
Proof.
  intros [] Hr Ho [Hd _]. split; simpl; rewrite ?record_names, ?record_trace; try done; [|by apply Forall_app].
  unfold futures. simpl. by rewrite <- app_assoc, (map_app send_hold (option_list _)).
Qed.

Lemma inv_handle_polled {A} w i h (r : option (SendStream * A)) s : world_inv w -> w_senders w !! i = Some h ->
  sender_ok lim (g_names (w_hist w)) (from_option fst h r) ->
  sent_on lim (ss_stream_id h) (w_hist w) (w_receivers w) (w_conn w)
    (map send_hold (stored (from_option fst h r)) ++ map send_hold (w_sends w ++ (delete i (w_senders w) ≫= stored))) s ->
  world_inv (handle_polled w i h r (w <| w_conn := s |>)).
Proof.
  intros [] Hi Hh [Hd _]. split; simpl; rewrite ?record_names, ?record_trace; try done; [|by apply Forall_insert].
  eapply duplex_perm; [|exact Hd]. rewrite <- map_app. apply Permutation_map.
  assert (Hx : <[i := from_option fst h r]> (w_senders w) !! i = Some (from_option fst h r)).
  { apply list_lookup_insert_eq. by eapply lookup_lt_Some. }
  pose proof (futures_sender (w <| w_senders ::= insert i (from_option fst h r) |>) i _ Hx) as Hp.
  simpl in Hp. rewrite list_delete_insert in Hp. symmetry. exact Hp.
Qed.

(** A poll of [AsyncWrite]. *)
Lemma safe_handle {A} w i h (m : Conn (SendStream * A)) : world_inv w -> w_senders w !! i = Some h ->
  (forall hs, duplex lim true (w_hist w) (map send_hold (stored h) ++ hs) (w_receivers w) (w_conn w) ->
    sender_ok lim (g_names (w_hist w)) h ->
    wp m (w_conn w) (handle_left lim (w_hist w) hs (w_receivers w) (w_conn w) h) (fun _ _ => False)) ->
  safe (perform m w (handle_polled w i h)).
Proof.
  intros Hw Hi Hm. pose proof Hw as [_ Hd _ Hs _]. rewrite Forall_forall in Hs.
  eapply safe_perform; [apply (Hm (map send_hold (w_sends w ++ (delete i (w_senders w) ≫= stored))))|..].
  - eapply duplex_perm; [|exact Hd]. rewrite <- map_app. apply Permutation_map. by apply futures_sender.
  - apply Hs. by eapply list_elem_of_lookup_2.
  - intros r s (Ho & Hok & Hid). apply inv_handle_polled; [done..|exact Ho].
  - done.
Qed.

Lemma safe_send w f others (m : Conn SendPoll) : world_inv w -> Forall (future_ok lim (g_names (w_hist w))) others ->
  wp m (w_conn w)
    (fun p s' => sent_on lim (sf_stream_id f) (w_hist w) (w_receivers w) (w_conn w)
       (map send_hold (option_list (left f p)) ++ map send_hold (others ++ (w_senders w ≫= stored))) s' /\
       Forall (future_ok lim (g_names (w_hist w))) (option_list (left f p)))
    (fun _ s' => sent_on lim (sf_stream_id f) (w_hist w) (w_receivers w) (w_conn w)
       (map send_hold (others ++ (w_senders w ≫= stored))) s') ->
  safe (perform m w (send_polled w f others)).
Proof.
  intros Hw Ho Hm. eapply safe_perform; [exact Hm|..]; simpl.
  - intros p s [Hs Hf]. by apply inv_send_polled.
  - intros _ s Hs. apply inv_send_polled; [done|constructor|done|exact Hs].
Qed.

Lemma inv_receivers w s rs : world_inv w -> duplex lim true (w_hist w) (map send_hold (futures w)) rs s ->
  world_inv (w <| w_conn := s |> <| w_receivers := rs |>).
Proof. intros [] Hd. by split. Qed.

(** The senders, the sends that wait and their streams. *)
Lemma sender_inv w i h : world_inv w -> w_senders w !! i = Some h -> sender_ok lim (g_names (w_hist w)) h.
Proof. intros [_ _ _ Hs _] Hi. rewrite Forall_forall in Hs. apply Hs. by eapply list_elem_of_lookup_2. Qed.

Lemma wp_poll_none g hs rs s h : duplex lim true g hs rs s -> h ∈ rs ->
  wp (poll_read h 0) s (fun r s' => r.1 = h /\ duplex lim true g hs rs s') (fun _ _ => False).
Proof.
  intros Hd Hh. destruct (phase_state _ _ _ _ (dx_recv _ _ _ _ _ _ Hd)) as (fl & op & Hr).
  pose proof (ri_readers _ _ _ _ _ Hr) as Hrd. rewrite Forall_forall in Hrd. destruct (Hrd h Hh) as (st & Hst & _).
  unfold poll_read, select_recv_mode. wp_step. apply wp_try_io. wp_step. apply (wp_get_state _ st); [done|]. wp_step.
  apply wp_lift; [unfold select_mode; by repeat case_match| |intros e _; by wp_step]. intros mode _.
  eapply wp_mono; [by apply (keeps_flag lim g hs rs)|..]; intros ? s' Hd'; by wp_step.
Qed.

Lemma safe_stream e w : world_inv w -> typed e = true -> safe (exec_stream e w).
Proof.
  intros Hw Ht. pose proof Hw as [Hv Hd Hs _ _].
  destruct e; simpl in Ht |- *; try done; unfold with_sender, with_send, with_receiver;
    match goal with |- context [match ?x with _ => _ end] => destruct x as [h|] eqn:E; [|done] end.
  - apply safe_send; [done..|]. apply wp_send_call; [done..|]. by eapply sender_inv.
  - apply safe_send; [done..|]. apply wp_send_call; [done..|]. by eapply sender_inv.
  - apply safe_keeps; [done| |done]. apply keeps_reset_call; [by eapply sender_inv|lia].
  - pose proof (Forall_lookup_1 _ _ _ _ Hs E) as Hf.
    assert (Ho : Forall (future_ok lim (g_names (w_hist w))) (delete j (w_sends w))) by (by apply Forall_delete).
    apply safe_send; [done..|]. apply wp_poll_send; [done| |done..].
    eapply duplex_perm; [|exact Hd]. exact (Permutation_map send_hold (futures_send _ _ _ E)).
  - pose proof (Forall_lookup_1 _ _ _ _ Hs E) as Hf.
    eapply safe_perform; [apply (wp_cancel lim (w_hist w) (map send_hold (delete j (w_sends w) ++ (w_senders w ≫= stored))) (w_receivers w)); [|done]|..|done].
    + eapply duplex_perm; [|exact Hd]. exact (Permutation_map send_hold (futures_send _ _ _ E)).
    + intros ? s Hd'. destruct Hw. split; try done. simpl. by apply Forall_delete.
  - apply safe_handle; [done..|]. intros hs Hd' Hh. by apply wp_poll_write.
  - apply safe_handle; [done..|]. intros hs Hd' Hh. eapply wp_mono; [by apply (wp_poll_flush lim Hv)| |done]. by intros r s [? _].
  - apply safe_handle; [done..|]. intros hs Hd' Hh. by apply wp_poll_shutdown.
  - eapply safe_perform; [apply (wp_drop_sender lim (w_hist w) (map send_hold (w_sends w ++ (delete i (w_senders w) ≫= stored))) (w_receivers w)); [|by eapply sender_inv]|..|done].
    + eapply duplex_perm; [|exact Hd]. rewrite <- map_app. exact (Permutation_map send_hold (futures_sender _ _ _ E)).
    + intros ? s Hd'. destruct Hw. split; try done. simpl. by apply Forall_delete.
  - eapply safe_perform; [apply (wp_read_duplex lim true (w_hist w) (map send_hold (futures w)) (w_receivers w)); [done|by eapply list_elem_of_lookup_2]|..];
      intros ? s Hs'; by apply inv_conn.
  - assert (Hsplit : forall x, <[k := x]> (w_receivers w) = take k (w_receivers w) ++ x :: drop (S k) (w_receivers w)).
    { intros x. by apply insert_take_drop, lookup_lt_Some with h. }
    assert (Hin : h ∈ w_receivers w) by (by eapply list_elem_of_lookup_2). destruct (decide (room = 0)) as [->|Hne].
    + eapply safe_perform; [by apply (wp_poll_none (w_hist w) (map send_hold (futures w)) (w_receivers w))|..|done].
      intros [h' p] s [Hx Hd']. simpl in *. subst h'. rewrite list_insert_id by done. by apply (inv_receivers w s).
    + eapply safe_perform; [apply (wp_poll_duplex lim true (w_hist w) (map send_hold (futures w)) (take k (w_receivers w)) h (drop (S k) (w_receivers w)))|..|done].
      * rewrite take_drop_middle by done. exact Hd.
      * lia.
      * intros [h' p] s Hd'. simpl. rewrite Hsplit. by apply (inv_receivers w s).
  - eapply safe_perform; [apply (wp_drop_duplex lim true (w_hist w) (map send_hold (futures w)) (take k (w_receivers w)) h (drop (S k) (w_receivers w)))|..|done].
    + rewrite take_drop_middle by done. exact Hd.
    + intros ? s Hd'. simpl. rewrite delete_take_drop. by apply (inv_receivers w s).
Qed.

(** ** The tasks *)

Lemma encode_wf f n : Frame.encoded_len f = Ok n -> encode_frame f = Some (Frame.enc f).
Proof.
  intros Hn%Frame.encoded_len_fits. destruct (Frame.frame_encode_written f ([] : bytes) Hn) as (o & He & Hw).
  unfold encode_frame. rewrite He. f_equal. exact Hw.
Qed.

(** The writer takes a frame. *)
Lemma wp_writer_idle ok g hs rs s : duplex lim true g hs rs s ->
  wp (writer_turn ok WriterIdle) s
    (fun t s' => match t with
       | WriterSending f b => duplex lim true (emit f g) hs rs s' /\ encode_frame f = Some b
       | WriterIdle | WriterClosing => duplex lim true g hs rs s'
       | WriterEnded => False
       end) (fun _ _ => False).
Proof.
  intros Hd. pose proof (sv_writer _ _ (fu_inv _ _ _ _ (dx_send _ _ _ _ _ _ Hd))) as Hw. simpl writer_turn. wp_step.
  eapply wp_mono; [eapply wp_conj; [by apply wp_next_frame|by apply wp_next_frame_duplex]| |by intros ? ? [[] _]].
  intros p s' [Ho Hd']. destruct p as [[f|]|]; wp_step; [|done..].
  destruct (outcome_fits s f s' Hw Ho) as (_ & n & Hn & _). rewrite (encode_wf f n Hn).
  split; [exact Hd'|by eapply encode_wf].
Qed.

(** The sink took it, or not. *)
Lemma wp_writer_sending ok f b g hs rs s : duplex lim true g hs rs s -> f ∈ g_trace g ->
  wp (writer_turn ok (WriterSending f b)) s
    (fun t s' => duplex lim true g hs rs s' /\ (t = WriterClosing \/ t = WriterIdle /\ ok && negb (terminated s) = true))
    (fun _ s' => duplex lim true g hs rs s').
Proof.
  intros Hd Hf. simpl. wp_step. wp_step. destruct (terminated s); simpl; [wp_step; auto|]. destruct ok; simpl; [|wp_step; auto].
  wp_step. eapply wp_mono; [by apply (keeps_writer_report lim g hs rs)|..]; [|done].
  intros [] s' Hd'; wp_step; auto.
Qed.

Lemma safe_writer ok w : world_inv w -> safe (exec_task (Writer ok) w).
Proof.
  intros Hw. pose proof Hw as [Hv Hd Hs Hh Hwire]. simpl. destruct (w_writer w) as [|f b| |] eqn:Ew; simpl in Hwire.
  - eapply safe_perform; [by apply (wp_writer_idle ok (w_hist w))|..|done]. unfold writer_turned. rewrite Ew.
    intros [|f b| |] s Hd'; [by split| | |done].
    + destruct Hd' as [Hd' He]. split; simpl; try done. split; [by rewrite Hwire|done].
    + split; simpl; try done. by rewrite Hwire.
  - eapply safe_perform; [apply (wp_writer_sending ok f b (w_hist w)); [done|]|..].
    + destruct Hwire as [<- _]. set_solver.
    + unfold writer_turned. rewrite Ew. intros t s [Hd' Ht]. destruct Hwire as [Hwire _].
      destruct (ok && _) eqn:Eok; [|destruct Ht as [->|[_ ?]]; [|done]]; split; simpl; try done.
      * by destruct Ht as [->|[-> _]]; simpl; rewrite Hwire.
      * rewrite <- Hwire. by eexists.
    + intros e s Hd'. simpl. split; simpl; try done. by rewrite Ew.
  - eapply safe_perform with (Q := fun t s => t = WriterEnded /\ duplex lim true (w_hist w) (map send_hold (futures w)) (w_receivers w) s)
      (R := fun _ _ => False); [| |done].
    + simpl. wp_step. eapply wp_mono; [exact (wp_mark_closed_duplex lim true _ _ _ _ Hd)| |done]. intros ? s Hd'. by wp_step.
    + unfold writer_turned. rewrite Ew. intros t s [-> Hd']. by split.
  - unfold perform, writer_turned. simpl. rewrite Ew. split; try done.
Qed.

Lemma name_item_cases item s s' g :
  name_item item s s' g = g \/ exists id, name_item item s s' g = name (next_loc s) id g.
Proof.
  destruct item as [b| | | |]; simpl; auto. destruct (Frame.decode b).1 as [f| |]; auto. destruct f; simpl; auto.
  unfold renamed. case_decide; eauto.
Qed.

Lemma inv_named w item s b : world_inv w ->
  duplex lim true (name_item item (w_conn w) s (w_hist w)) (map send_hold (futures w)) (w_receivers w) s ->
  world_inv (w <| w_conn := s |> <| w_reader := b |> <| w_hist ::= name_item item (w_conn w) s |>).
Proof.
  intros Hw. pose proof Hw as [Hv Hd Hs Hh Hwire]. destruct (name_item_cases item (w_conn w) s (w_hist w)) as [Hn|[id Hn]].
  - intros Hd'. split; simpl; rewrite ?Hn in *; done.
  - rewrite Hn. intros Hd'. destruct (next_fresh lim _ _ _ (dx_send _ _ _ _ _ _ Hd)) as [_ Hnone].
    assert (Hsub : g_names (w_hist w) ⊆ <[next_loc (w_conn w) := id]> (g_names (w_hist w))) by (by apply insert_subseteq).
    split; simpl; rewrite ?Hn in *; simpl; try done.
    + eapply Forall_impl; [exact Hs|]. intros f. by apply names_mono.
    + eapply Forall_impl; [exact Hh|]. intros h. by apply sender_mono.
Qed.

Lemma safe_task e w : world_inv w -> safe (exec_task e w).
Proof.
  intros Hw. pose proof Hw as [Hv Hd Hs Hh Hwire]. destruct e; try (simpl; done).
  - simpl. destruct (w_reader w && _); [|done]. eapply safe_perform; [apply (wp_reader_step lim Hv); [done|by apply world_on_heap]|..|done].
    intros b s Hd'. exact (inv_named w item s b Hw Hd').
  - by apply safe_writer.
  - simpl. destruct (w_keepalive w); [|done]. apply safe_keeps; [done|by apply keeps_keepalive|]. intros r s []. by split.
  - simpl. destruct (w_cleanup w); [|done]. destruct (terminated _); [by destruct Hw|].
    apply safe_keeps; [done|by apply keeps_cleanup|done].
  - simpl. destruct (w_supervisor w); try done. apply safe_keeps; [done|by apply keeps_supervisor_watch|].
    intros r s []. destruct (default _ _); by split.
  - simpl. destruct (w_supervisor w); try done. apply safe_keeps; [done|by apply keeps_mark_closed_duplex|]. intros r s []. by split.
  - simpl. destruct (w_supervisor w); try done; (destruct (tasks_ended w); [|done]).
    all: apply safe_keeps; [done|by apply keeps_supervisor_joined|]. all: intros r s []; by split.
Qed.

(** Every event keeps the invariant, and no event panics. *)
Lemma safe_exec e w : world_inv w -> typed e = true -> safe (exec e w).
Proof. intros Hw Ht. destruct e; unfold exec; (by apply safe_app) || (by apply safe_stream) || (by apply safe_task). Qed.

Lemma runs_inv w : runs lim w -> world_inv w.
Proof.
  induction 1 as [is_client keepalive s Hu Hn|w e w' _ IH Ht He]; [by eapply world_inv_new|].
  pose proof (safe_exec e w IH Ht) as Hs. by rewrite He in Hs.
Qed.

End inv.
