(* ===== verification/SystemSpec.v ===== *)
(** What holds in every execution of [System]: nothing panics, what the peer gets of a
    stream is what the application wrote to it, the permits of the sending half are
    conserved, and sends do not block each other. *)

From S2P Require Import Prelude Hoare Buf Varint Utf8 Frames Errors Limits Flow Tokio.
From S2P Require Import ConnState Inbound InboundSpec Writer WriterSpec Scheduler Connection Streams Tasks.
From S2P Require Import ReceiveSpec ReadSpec ReceiveSystem Receive ConnectionSpec Ledger SendSpec SendInv SendOps Halves.
From S2P Require Import ErrorText SendPeer Duplex DuplexOps StreamsSpec SendDuplex System SystemInv.

#[local] Open Scope Z_scope.

(** ** Traces *)

Lemma sent_data_prefix id t u : t `prefix_of` u -> sent_data id t `prefix_of` sent_data id u.
Proof. intros [k ->]. rewrite sent_data_app. by eexists. Qed.

Lemma sent_data_none id t : existsb (is_about id) t = false -> sent_data id t = [].
Proof.
  induction t as [|f t IH]; simpl; [done|]. intros [Hf Ht]%orb_false_iff. unfold sent_data in *. simpl.
  by rewrite (about_data _ _ Hf), IH.
Qed.

Lemma ordered_prefix t u : t `prefix_of` u -> ordered u -> ordered t.
Proof.
  intros [k ->] Ho pre f post id -> He. specialize (Ho pre f (post ++ k) id). rewrite <- app_assoc in Ho. simpl in Ho.
  by specialize (Ho eq_refl He) as [? _]%Forall_app.
Qed.

Lemma settings_first_prefix t u : t `prefix_of` u -> settings_first u -> settings_first t.
Proof. intros [k ->]. destruct t; simpl; [done|]. intros [? [? _]%Forall_app]. done. Qed.

(** After FIN nothing of the stream follows. *)
Lemma sent_data_fin id t u : t `prefix_of` u -> ordered u -> existsb (is_fin id) t = true -> sent_data id t = sent_data id u.
Proof.
  intros [k ->] Ho (f & Hf & Hfin)%existsb_exists. apply list_elem_of_In, list_elem_of_split in Hf as (pre & post & ->).
  assert (He : is_end id f = true) by (unfold is_end; by rewrite Hfin). specialize (Ho pre f (post ++ k) id).
  rewrite <- app_assoc in Ho. specialize (Ho eq_refl He). apply Forall_app in Ho as [_ Ho]. rewrite (sent_data_app id _ k).
  rewrite (sent_data_none id k), app_nil_r; [done|]. by apply existsb_none.
Qed.

Section properties.
Context {TK : Tokio} {TKL : TokioLaws TK} {HI : HashIter} {HIL : HashIterLaws HI}.
Implicit Types (s : ConnectionShared) (st : StreamState) (w : World).

(** C1: whatever the application, the peer, the transport and the scheduler do, in
    whatever order, no call panics: no [expect] fails, no index is out of range and no
    loop of the model runs out of fuel. *)
Theorem no_panic lim w e : runs lim w -> typed e = true -> exec e w <> Crash.
Proof.
  intros Hr Ht He. pose proof (safe_exec lim e w (runs_inv _ _ Hr) Ht) as Hs. by rewrite He in Hs.
Qed.

Lemma wire_prefix lim w : world_inv lim w -> w_wire w `prefix_of` g_trace (w_hist w).
Proof.
  intros [_ _ _ _ Hw]. unfold wire_ok in Hw. destruct (w_writer w); [by rewrite Hw| |done..]. destruct Hw as [<- _]. by eexists.
Qed.

(** The order of the frames on the wire, and the data they carry. *)
Lemma wire_integrity lim w : runs lim w ->
  settings_first (w_wire w) /\ ordered (w_wire w) /\
  forall id, sent_data id (w_wire w) `prefix_of` accepted (w_hist w) id /\
    (existsb (is_fin id) (w_wire w) = true -> sent_data id (w_wire w) = accepted (w_hist w) id).
Proof.
  intros Hr%runs_inv. pose proof (wire_prefix _ _ Hr) as Hp. pose proof Hr as [_ [[Hi _ _] _] _ _ _].
  split_and!; [by eapply settings_first_prefix, Hi|by eapply ordered_prefix, Hi|]. intros id.
  assert (Hid : sent_data id (g_trace (w_hist w)) `prefix_of` accepted (w_hist w) id /\
    (existsb (is_fin id) (g_trace (w_hist w)) = true -> sent_data id (g_trace (w_hist w)) = accepted (w_hist w) id)).
  { destruct (existsb (is_about id) (g_trace (w_hist w))) eqn:E.
    - apply existsb_exists in E as (f & Hf%list_elem_of_In & Hab). pose proof (sv_trace _ _ Hi) as Ht. rewrite Forall_forall in Ht.
      destruct (named_state _ _ id Hi (Ht f Hf id Hab)) as (l & st & _ & _ & Hss). split; [apply Hss|].
      rewrite (ss_fin_sent _ _ _ _ Hss). intros Hd. symmetry. by apply Hss.
    - rewrite (sent_data_none _ _ E). split; [apply prefix_nil|]. intros (f & Hf & Hfin)%existsb_exists.
      assert (Hab : is_about id f = true) by (apply end_about; unfold is_end; by rewrite Hfin).
      assert (Hx : existsb (is_about id) (g_trace (w_hist w)) = true) by (apply existsb_exists; eauto). congruence. }
  destruct Hid as [Hid1 Hid2]. split.
  - etransitivity; [by apply sent_data_prefix|done].
  - intros Hf. rewrite (sent_data_fin id _ _ Hp (sv_order _ _ Hi) Hf). apply Hid2.
    destruct Hp as [k ->]. by rewrite existsb_app, Hf.
Qed.


(** ** Sends *)

Lemma accepted_record id s s' g i :
  accepted (record id s s' g) i = accepted g i ++ if decide (i = id) then took id s s' else [].
Proof.
  unfold record. destruct (took id s s') as [|x b] eqn:E; [by destruct (decide _); rewrite app_nil_r|].
  rewrite accepted_accept. destruct (decide (id = i)) as [->|]; [by rewrite decide_True|]. by rewrite decide_False, app_nil_r.
Qed.

(** What a poll of a send may return. *)
Definition send_outcome s f (r : Result Error SendPoll) (recorded : bytes) s' : Prop :=
  match r with
  | Ok SDone => recorded = sf_payload f
  | Ok (SPending stage) => recorded = [] /\ starved f stage s'
  | Err _ => recorded = [] /\ (refusal s f \/ exists st, heap s !! sf_state f = Some st /\ sf_stage f = SStart /\ send_mode st <> 0 /\ send_mode st <> 1)
  | Panic => False
  end.

Lemma wp_outcome lim g hs s f : Limits.Valid MAX_PERMITS lim -> full lim g (send_hold f :: hs) s -> future_ok lim (g_names g) f ->
  wp (send_stream_chunk f) s (fun p s' => send_outcome s f (Ok p) (took (sf_stream_id f) s s') s')
    (fun _ s' => took (sf_stream_id f) s s' = [] /\ refusal s f).
Proof.
  intros Hv Hf Hfo. pose proof Hf as [Hi Hl Hlm]. rewrite holds_cons in Hl.
  eapply wp_mono; [apply (wp_send_stream_chunk s (holds s hs) f); [by eapply future_send_ok| |done]|..].
  - rewrite Hlm. destruct Hv. lia.
  - intros [|stage] s' Hp; simpl in Hp |- *.
    + destruct Hp as [(Hpl & _ & Ht)|(_ & _ & _ & _ & c & Hc & Ht)].
      * rewrite took_same; [done|]. apply core_eq_queues, Ht.
      * unfold took. destruct Ht as [_ Ht]. rewrite (core_eq_queues _ _ Ht). destruct (queue_send_fields f c s) as [-> _].
        unfold queue at 2. simpl. rewrite lookup_insert_eq. simpl. rewrite drop_app_length. simpl. by rewrite app_nil_r, (cf_payload _ _ Hc).
    + destruct Hp as (Ht & Hs & _). split; [|done]. apply took_same, core_eq_queues, Ht.
  - intros e s' [Ht Hr]. split; [|done]. apply took_same, core_eq_queues, Ht.
Qed.

(** The events that poll a send, with the call they make. *)
Inductive polls w : Event -> SendFuture -> Conn SendPoll -> Prop :=
| polls_write i h b : w_senders w !! i = Some h -> polls w (WriteChunk i b) (new_send h b false) (write_chunk h b)
| polls_finish i h : w_senders w !! i = Some h -> polls w (Finish i) (new_send h [] true) (finish h)
| polls_resume j f : w_sends w !! j = Some f -> polls w (SendResume j) f (send_stream_chunk f).

(** The modes of a stream direction. *)
Lemma wp_first_call lim g hs s h b fin : Limits.Valid MAX_PERMITS lim -> full lim g hs s ->
  g_names g !! ss_state h = Some (ss_stream_id h) ->
  wp (_ ← select_send_mode (ss_state h) 1; send_stream_chunk (new_send h b fin)) s
    (fun p s' => send_outcome s (new_send h b fin) (Ok p) (took (ss_stream_id h) s s') s')
    (fun e s' => send_outcome s (new_send h b fin) (Err e) (took (ss_stream_id h) s s') s').
Proof.
  intros Hv Hf Hn. set (f := new_send h b fin). destruct (proj2 (nm_dom _ _ (sv_names _ _ (fu_inv _ _ _ _ Hf)) (ss_state h))) as [st Hst]; [by eexists|].
  unfold select_send_mode. wp_step. wp_step. apply (wp_get_state _ st); [done|]. wp_step.
  apply wp_lift; [unfold select_mode; by repeat case_match| |].
  - intros mode _. unfold upd_state. wp_step. set (u := fun st : StreamState => st <| send_mode := mode |>).
    set (s1 := s <| heap ::= alter u (ss_state h) |>).
    assert (Hf1 : full lim g (send_hold f :: hs) s1) by (apply (full_no_hold lim g (ss_state h)), full_upd; done).
    assert (Href : refusal s1 f -> refusal s f).
    { intros [?|[?|[(st' & Hst' & Hterm)|[?|?]]]]; [by left|by right; left| |by do 3 right; left|by do 4 right].
      right; right; left. exists st. split; [done|]. unfold s1 in Hst'. simpl in Hst'. rewrite lookup_alter_eq, Hst in Hst'.
      apply (inj Some) in Hst'. by subst st'. }
    eapply wp_mono; [apply (wp_outcome lim g hs s1 f Hv Hf1); by apply new_send_ok|..].
    + intros [|stage] s'; done.
    + intros e s' [Ht Hr]. split; [done|left; auto].
  - intros e He. simpl. split; [by apply took_same|]. right. exists st. unfold select_mode in He.
    destruct (Z.eqb_spec (send_mode st) 0); [done|]. destruct (Z.eqb_spec (send_mode st) 1); [done|]. by split_and!.
Qed.

Lemma send_polled_exact lim w e f m : runs lim w -> polls w e f m ->
  exists w' recorded, exec e w = Next w' /\
    send_outcome (w_conn w) f (m (w_conn w)).1 recorded (w_conn w') /\
    forall id, accepted (w_hist w') id = accepted (w_hist w) id ++ if decide (id = sf_stream_id f) then recorded else [].
Proof.
  intros Hr%runs_inv Hp. pose proof Hr as [Hv Hd Hs Hh _].
  assert (Hm : exists others, exec e w = perform m w (send_polled w f others) /\
    wp m (w_conn w) (fun p s' => send_outcome (w_conn w) f (Ok p) (took (sf_stream_id f) (w_conn w) s') s')
      (fun er s' => send_outcome (w_conn w) f (Err er) (took (sf_stream_id f) (w_conn w) s') s')).
  { destruct Hp as [i h b Hi|i h Hi|j f Hj]; eexists; (split; [cbn; unfold with_sender, with_send; rewrite ?Hi, ?Hj; reflexivity|]).
    1,2: apply (wp_first_call lim (w_hist w) (map send_hold (futures w))); [done|apply Hd|by apply (sender_inv lim w i)].
    eapply wp_mono; [apply (wp_outcome lim (w_hist w) (map send_hold (delete j (w_sends w) ++ (w_senders w ≫= stored)))); [done| |by eapply Forall_lookup_1]|done|].
    - eapply full_perm; [|apply Hd]. exact (Permutation_map send_hold (futures_send _ _ _ Hj)).
    - intros er s' [? ?]. split; [done|by left]. }
  destruct Hm as (others & -> & Hm). unfold wp, perform in *. destruct (m (w_conn w)) as [[p|er|] s']; [..|done];
    eexists _, _; (split; [reflexivity|]); simpl; (split; [exact Hm|]); intros id; apply accepted_record.
Qed.


(** ** Permits *)

(** Everything that holds permits of the sending half: the queued chunks and the sends
    in progress. *)
Definition queued_chunks w : list OutboundChunk := chunks_in (by_stream (queues (w_conn w))).
Definition holders w : list Hold := map chunk_hold (queued_chunks w) ++ map send_hold (futures w).

Lemma queued_ok lim w c : world_inv lim w -> c ∈ queued_chunks w -> exists id, chunk_ok (heap (w_conn w)) id c.
Proof.
  intros [_ [[Hi _ _] _] _ _ _] Hc. unfold queued_chunks, chunks_in in Hc. apply list_elem_of_In, in_concat in Hc as (cs & Hcs & Hc).
  apply in_map_iff in Hcs as ([id cs'] & <- & Hcs). apply list_elem_of_In, elem_of_map_to_list in Hcs.
  pose proof (qo_chunks _ _ _ (wi_queues _ (sv_writer _ _ Hi) _ _ Hcs)) as Hok. rewrite Forall_forall in Hok.
  exists id. apply Hok. by apply list_elem_of_In.
Qed.

Lemma zsum_le_map {A B} (f : A -> Z) (g : B -> Z) (k : A -> B) l :
  (forall a, a ∈ l -> f a <= g (k a)) -> zsum f l <= zsum g (map k l).
Proof.
  induction l as [|a l IH]; intros H; simpl; [done|]. specialize (IH (fun b Hb => H b (list_elem_of_further _ _ _ Hb))).
  pose proof (H a (list_elem_of_here _ _)). lia.
Qed.

Lemma zsum_one {A} (l : list A) : zsum (fun _ => 1) l = zlen l.
Proof. induction l as [|a l IH]; [done|]. simpl. rewrite IH, zlen_cons. lia. Qed.

(** C8: in every execution the permits of the sending half are conserved: of each
    semaphore, of the connection and of every stream, the permits that are not
    available are those of the queued chunks and of the sends in progress; and a
    stream's lock is held by one of them exactly when it is taken.  A cancelled,
    refused, reset or completed send gives back what it held.  So the bytes queued for
    the connection and for a stream, and the number of queued chunks, stay within the
    limits. *)
Theorem outbound_no_leak lim w : runs lim w ->
  let s := w_conn w in
  available_permits (outbound_conn_bytes s) = max_outbound_connection_bytes lim - zsum ho_conn (holders w) /\
  available_permits (outbound_frames s) = max_queued_outbound_frames lim - zsum ho_frame (holders w) /\
  zsum (fun c => zlen (oc_payload c)) (queued_chunks w) <= max_outbound_connection_bytes lim /\
  zlen (queued_chunks w) <= max_queued_outbound_frames lim /\
  forall l st, heap s !! l = Some st ->
    available_permits (outbound_stream_bytes st) = max_outbound_stream_bytes lim - zsum (at_loc l ho_bytes) (holders w) /\
    available_permits (outbound_stream_frames st)
    = max_queued_outbound_frames lim / max_open_streams lim - zsum (at_loc l ho_frames) (holders w) /\
    zsum (at_loc l ho_lock) (holders w) = (if send_locked st then 1 else 0) /\
    zsum (fun c => if decide (oc_state c = l) then zlen (oc_payload c) else 0) (queued_chunks w) <= max_outbound_stream_bytes lim.
Proof.
  intros Hr%runs_inv s. pose proof Hr as [_ [[_ Hl Hlm] _] _ _ _].
  assert (Hh : holds (w_conn w) (map send_hold (futures w)) = holders w) by done. rewrite Hh in Hl.
  destruct Hl as [Hok [? Hc] [? Hf] _ _ Hs]. rewrite Hlm in *. fold s in Hc, Hf, Hs, H, H0.
  assert (Hpos : forall u, (forall h, hold_ok h -> 0 <= u h) -> 0 <= zsum u (map send_hold (futures w))).
  { intros u Hu. apply zsum_nonneg. intros h Hin. apply Hu. rewrite Forall_forall in Hok. apply Hok. unfold holders. set_solver. }
  assert (Hsum : forall (v : OutboundChunk -> Z) u, (forall h, hold_ok h -> 0 <= u h) ->
    (forall c, c ∈ queued_chunks w -> v c <= u (chunk_hold c)) -> zsum v (queued_chunks w) <= zsum u (holders w)).
  { intros v u Hu Hv. unfold holders. rewrite zsum_app. specialize (Hpos u Hu).
    pose proof (zsum_le_map v u chunk_hold (queued_chunks w) Hv). lia. }
  split_and!; [lia..| | |].
  - assert (zsum (fun c => zlen (oc_payload c)) (queued_chunks w) <= zsum ho_conn (holders w)); [|lia].
    apply Hsum; [by intros h []|]. intros c [id Hco]%(queued_ok lim w c Hr). apply Hco.
  - assert (zsum (fun c => 1) (queued_chunks w) <= zsum ho_frame (holders w)).
    { apply Hsum; [by intros h (? & ? & _)|]. intros c [id Hco]%(queued_ok lim w c Hr). simpl. destruct Hco. lia. }
    rewrite zsum_one in *. lia.
  - intros l st Hst. destruct (Hs l st Hst) as [[? Hb] [? Hfr] Hlk _ _]. split_and!; [lia..|done|].
    assert (zsum (fun c => if decide (oc_state c = l) then zlen (oc_payload c) else 0) (queued_chunks w) <= zsum (at_loc l ho_bytes) (holders w)); [|lia].
    apply Hsum; [intros h (? & ? & ? & _); unfold at_loc; by case_decide|]. intros c [id Hco]%(queued_ok lim w c Hr).
    unfold at_loc. simpl. case_decide; [|done]. apply Hco.
Qed.

(** ** Sends and the resources they wait for, in order *)

Definition rank (stage : SendStage) : nat :=
  match stage with
  | SStart => 0 | SLock => 1 | SStreamFrame => 2 | SStreamBytes _ => 3 | SFrame _ _ => 4 | SConnBytes _ _ _ => 5
  end.

(** A call that leaves a send waiting leaves it at stage [n] or later. *)
Definition pends (n : nat) (m : Conn SendPoll) : Prop :=
  forall s stage s', m s = (Ok (SPending stage), s') -> (n <= rank stage)%nat.

Lemma pends_bind {A} n (m : Conn A) k : (forall a, pends n (k a)) -> pends n (m ≫= k).
Proof. intros Hk s stage s' H. apply bind_inv in H as (a & s1 & _ & H). by eapply Hk. Qed.
Lemma pends_ret n p : (match p with SPending stage => n <= rank stage | SDone => True end)%nat -> pends n (mret p).
Proof. intros H s stage s' Hx. by injection Hx as -> _. Qed.
Lemma pends_fail n e : pends n (fail e).
Proof. done. Qed.
Lemma pends_le n n' m : (n <= n')%nat -> pends n' m -> pends n m.
Proof. intros Hn Hm s stage s' H. specialize (Hm _ _ _ H). lia. Qed.

Lemma pends_enqueue f id fp sp frp cp : pends 5 (send_enqueue f id fp sp frp cp).
Proof.
  apply pends_bind. intros _. apply pends_bind. intros b. destruct b; repeat (apply pends_bind; intros ?); [by apply pends_ret|apply pends_fail].
Qed.
Lemma pends_conn f id fp sp frp : pends 5 (send_conn_bytes f id fp sp frp).
Proof.
  unfold send_conn_bytes. destruct (_ =? 0); [apply pends_enqueue|]. apply pends_bind. intros [cp|]; [apply pends_enqueue|by apply pends_ret].
Qed.
Lemma pends_frame f id fp sp : pends 4 (send_frame f id fp sp).
Proof.
  apply pends_bind. intros [p|]; [eapply pends_le; [|apply pends_conn]; lia|by apply pends_ret].
Qed.
Lemma pends_bytes f id fp : pends 3 (send_stream_bytes f id fp).
Proof.
  assert (H4 : forall sp, pends 3 (send_frame f id fp sp)) by (intros sp; eapply pends_le; [|apply pends_frame]; lia).
  unfold send_stream_bytes. destruct (_ =? 0); [apply H4|]. apply pends_bind. intros [p|]; [apply H4|by apply pends_ret].
Qed.
Lemma pends_stream_frame f id : pends 2 (send_stream_frame f id).
Proof. apply pends_bind. intros [p|]; [eapply pends_le; [|apply pends_bytes]; lia|by apply pends_ret]. Qed.

Lemma pends_chunk f : pends (rank (sf_stage f)) (send_stream_chunk f).
Proof.
  apply pends_bind. intros st. destruct (send_terminal st); [apply pends_bind; intros; apply pends_fail|].
  assert (Hlock : pends 1 (send_lock f)).
  { apply pends_bind. intros st1. destruct (send_locked st1); [by apply pends_ret|]. do 2 (apply pends_bind; intros ?).
    case_match; [eapply pends_le; [|apply pends_stream_frame]; lia|]. apply pends_bind. intros ?. by apply pends_ret. }
  unfold queue_stream_chunk. destruct (sf_stage f) eqn:E; simpl; try done.
  - apply pends_bind. intros ?. by eapply pends_le; [|exact Hlock]; lia.
  - apply pends_bind. intros id. apply pends_stream_frame.
  - apply pends_bind. intros id. apply pends_bytes.
  - apply pends_bind. intros id. apply pends_frame.
  - apply pends_bind. intros id. apply pends_conn.
Qed.

(** A send that has come furthest. *)
Lemma furthest (fs : list SendFuture) : fs <> [] ->
  exists f rest, fs ≡ₚ f :: rest /\ Forall (fun x => (rank (sf_stage x) <= rank (sf_stage f))%nat) rest.
Proof.
  induction fs as [|x fs IH]; [done|]. intros _. destruct fs as [|y fs]; [by exists x, []|].
  destruct IH as (f & rest & Hp & Hr); [done|]. destruct (decide (rank (sf_stage x) <= rank (sf_stage f))%nat).
  - exists f, (x :: rest). split; [rewrite Hp; constructor|by constructor].
  - exists x, (f :: rest). split; [by rewrite Hp|]. constructor; [lia|]. eapply Forall_impl; [exact Hr|]. simpl. intros z Hz. lia.
Qed.

(** What the sends that have not come as far hold of a resource. *)
Lemma zsum_none {A} (u : A -> Z) l : Forall (fun a => u a = 0) l -> zsum u l = 0.
Proof. induction 1 as [|a l Ha _ IH]; simpl; [done|]. by rewrite Ha, IH. Qed.

Lemma ranks_hold (u : Hold -> Z) n rest :
  (forall f : SendFuture, (rank (sf_stage f) <= n)%nat -> u (send_hold f) = 0) ->
  Forall (fun x => (rank (sf_stage x) <= n)%nat) rest -> zsum u (map send_hold rest) = 0.
Proof. intros Hu Hr. apply zsum_none, Forall_map. eapply Forall_impl; [exact Hr|]. intros f Hf. by apply Hu. Qed.

(** Such a send lacks nothing, when no chunk is queued. *)
Lemma not_starved lim s f rest stage : Limits.Valid MAX_PERMITS lim -> limits s = lim ->
  ledger s (stage_hold (sf_state f) stage :: map send_hold rest) ->
  (past_lock stage = true -> zlen (sf_payload f) <= max_outbound_stream_bytes lim) ->
  Forall (fun x => (rank (sf_stage x) <= rank stage)%nat) rest -> ~ starved f stage s.
Proof.
  intros Hv Hlm Hl Hn Hr (st & Hst & Hs). destruct Hl as [_ [_ Hc] [_ Hf] _ _ Hss]. rewrite Hlm in *. destruct Hv.
  destruct (Hss _ _ Hst) as [[_ Hb] [_ Hfr] Hlk _ _].
  assert (Hz : forall u, (forall g : SendFuture, (rank (sf_stage g) <= rank stage)%nat -> u (send_hold g) = 0) ->
    zsum u (map send_hold rest) = 0) by (intros u Hu; by eapply ranks_hold).
  assert (Hdiv : 1 <= max_queued_outbound_frames lim / max_open_streams lim) by (apply Z.div_le_lower_bound; lia).
  set (l := sf_state f) in *. simpl in Hc, Hf, Hb, Hfr, Hlk.
  assert (Hown : forall u, at_loc l u (stage_hold l stage) = u (stage_hold l stage)).
  { intros u. unfold at_loc. rewrite decide_True; [done|]. by destruct stage. }
  rewrite Hown in Hb, Hfr, Hlk. destruct stage as [| | |fp|fp sp|fp sp frp]; simpl in Hs, Hn, Hc, Hf, Hb, Hfr, Hlk; [done|..].
  1: rewrite Hz, Hs in Hlk; [done|].
  2: rewrite Hz in Hfr; [lia|].
  3: specialize (Hn eq_refl); rewrite Hz in Hb; [lia|].
  4: rewrite Hz in Hf; [lia|].
  5: specialize (Hn eq_refl); rewrite Hz in Hc; [lia|].
  all: intros g Hg; unfold at_loc, send_hold; destruct (sf_stage g); simpl in *; try lia; by case_decide.
Qed.

(** C15: in every execution, sends do not block each other: whenever some are in
    progress and no chunk is queued for the writer, one of them completes when it is
    polled, with success or with an error.  A send waits for the lock of its stream and
    up to four permits, in one order, so the one that came furthest finds everything it
    needs.  With chunks queued, it is the writer's turn. *)
Theorem sends_not_stuck lim w : runs lim w -> futures w <> [] -> by_stream (queues (w_conn w)) = ∅ ->
  exists f, f ∈ futures w /\
    ((send_stream_chunk f (w_conn w)).1 = Ok SDone \/ exists e, (send_stream_chunk f (w_conn w)).1 = Err e).
Proof.
  intros Hr%runs_inv Hne Hq. pose proof Hr as [Hv [[Hi Hl Hlm] _] _ _ _]. pose proof (futures_ok lim w Hr) as Hok.
  destruct (furthest (futures w) Hne) as (f & rest & Hp & Hrest). exists f. split; [rewrite Hp; left|].
  assert (Hh : holds (w_conn w) (map send_hold (futures w)) ≡ₚ send_hold f :: map send_hold rest).
  { unfold holds. rewrite Hq. simpl. exact (Permutation_map send_hold Hp). }
  rewrite Hh in Hl. rewrite Hp in Hok. apply Forall_cons in Hok as [Hf _].
  assert (Hfo : send_ok (w_conn w) f) by (eapply (future_send_ok lim _ (map send_hold (futures w))); [apply Hr|done]).
  pose proof (wp_send_stream_chunk (w_conn w) (map send_hold rest) f Hfo) as Hw.
  assert (Hb : max_outbound_stream_bytes (limits (w_conn w)) <= u32_max) by (rewrite Hlm; destruct Hv; lia).
  specialize (Hw Hb Hl). unfold wp in Hw. pose proof (pends_chunk f (w_conn w)) as Hpend.
  destruct (send_stream_chunk f (w_conn w)) as [[[|stage]|e|] s'] eqn:E; simpl; [by left| |by right; eexists|done].
  exfalso. simpl in Hw. destruct Hw as ([Hl' Hc'] & Hst & Hok'). specialize (Hpend _ _ eq_refl).
  assert (Hlm' : limits s' = lim) by (rewrite <- Hlm; exact (f_equal limits Hc')).
  eapply (not_starved lim s' f rest stage); [done|done|exact Hl'| | |done].
  - intros Hpast. destruct Hok' as [_ _ _ Hck]. specialize (Hck Hpast) as [_ Hck]. by rewrite Hlm in Hck.
  - eapply Forall_impl; [exact Hrest|]. simpl. intros x Hx. lia.
Qed.

End properties.

(** ** A run *)

#[local] Existing Instance counting.
#[local] Existing Instance counting_laws.
#[local] Existing Instance hash_list.
#[local] Existing Instance hash_list_laws.

(** A client whose streams may have four bytes queued.  SETTINGS are exchanged; the
    application opens a stream and writes three bytes twice, and the second write waits;
    then the sink takes OPEN and the first three bytes. *)
Definition demo_limits : Limits := Limits.default <| max_outbound_stream_bytes := 4 |>.
Definition demo_conn : ConnectionShared := get_ok (connection_new demo_limits true) eq_refl.
Definition demo_item : ReaderItem := RFrame (Frame.enc (Settings (mkVarInt 1000) (mkVarInt 1000) (mkVarInt 1000))).
Definition demo_events : list Event :=
  [Writer true; Writer true; Reader demo_item; Open; WriteChunk 0 [x61; x62; x63]; WriteChunk 0 [x64; x65; x66];
   Writer true; Writer true; Writer true; Writer true].

Definition is_next (x : Step) : bool := match x with Next _ => true | _ => false end.
Definition world_after (es : list Event) (w : World) : World := match exec_all es w with Next w' => w' | _ => w end.

Lemma demo_unsigned : Limits.unsigned demo_limits.
Proof. unfold Limits.unsigned, demo_limits, Limits.default, Limits.from_secs; simpl; lia. Qed.

Lemma runs_after lim es w : runs lim w -> forallb typed es = true -> is_next (exec_all es w) = true -> runs lim (world_after es w).
Proof.
  intros Hr Ht Hn. eapply runs_all; [exact Hr|exact Ht|]. unfold world_after. by destruct (exec_all es w).
Qed.

Definition demo_world : World := world_after demo_events (world_new true demo_conn).

Lemma demo_runs : runs demo_limits demo_world.
Proof.
  apply runs_after; [|by vm_compute..]. apply (runs_new _ true); [apply demo_unsigned|by vm_compute].
Qed.

Lemma no_panic_witness : exec (SendResume 0) demo_world <> Crash.
Proof. apply (no_panic demo_limits); [apply demo_runs|reflexivity]. Defined.


Definition demo_send : SendFuture :=
  match w_sends demo_world with f :: _ => f | [] => mkSend 0 0%nat [] true SStart end.


Lemma outbound_no_leak_witness :
  available_permits (outbound_conn_bytes (w_conn demo_world)) = max_outbound_connection_bytes demo_limits - zsum ho_conn (holders demo_world).
Proof. exact (proj1 (outbound_no_leak demo_limits demo_world demo_runs)). Defined.

Lemma sends_not_stuck_witness :
  exists f, f ∈ futures demo_world /\
    ((send_stream_chunk f (w_conn demo_world)).1 = Ok SDone \/ exists e, (send_stream_chunk f (w_conn demo_world)).1 = Err e).
Proof. refine (sends_not_stuck demo_limits demo_world demo_runs _ _); [vm_compute; discriminate|vm_compute; reflexivity]. Defined.
