(* ===== verification/Shutdown.v ===== *)
(** The end of a connection: what was closed stays closed, and once it is closed, or its
    last handle is dropped, the tasks bring it to its end by themselves. *)

From S2P Require Import Prelude Hoare Buf Varint Utf8 Frames Errors Limits Flow Tokio.
From S2P Require Import ConnState Inbound InboundSpec Writer WriterSpec Scheduler Connection Streams Tasks.
From S2P Require Import ReceiveSpec ReadSpec ReceiveSystem Receive ConnectionSpec Ledger SendSpec SendInv SendOps Halves.
From S2P Require Import ErrorText SendPeer Duplex DuplexOps StreamsSpec SendDuplex System SystemInv SystemSpec.

#[local] Open Scope Z_scope.

Section shutdown.
Context {TK : Tokio} {TKL : TokioLaws TK} {HI : HashIter} {HIL : HashIterLaws HI}.
Implicit Types (s : ConnectionShared) (w : World).

(** ** What is closed stays closed *)

(** The marks of a connection that was closed by [mark_closed]. *)
Record down s : Prop := {
  dn_closed : closed s = true;
  dn_terminated : terminated s = true;
  dn_abort : abortive (queues s) = true
}.
Definition down_once s : Prop := cleanup_started s = true -> down s.

Record lasts s s' : Prop := {
  la_closed : closed s = true -> closed s' = true;
  la_terminated : terminated s = true -> terminated s' = true;
  la_started : cleanup_started s = true -> cleanup_started s' = true;
  la_down : down_once s -> down_once s'
}.

#[export] Instance lasts_preorder : PreOrder lasts.
Proof. split; [by intros s|]. intros x y z [] []. split; auto. Qed.

Definition signals s := (closed s, terminated s, cleanup_started s, closing (queues s), graceful_close (queues s)).

Lemma lasts_calm s s' : signals s' = signals s -> lasts s s'.
Proof.
  intros H. injection H as Hc Ht Hs Hq Hg. split; try congruence. unfold down_once. rewrite Hs. intros Hd Hst.
  destruct (Hd Hst). split; try congruence. unfold abortive in *. by rewrite Hq, Hg.
Qed.

Lemma lasts_modify u : (forall s, signals (u s) = signals s) -> respects lasts (modify u : Conn unit).
Proof. intros Hu. apply respects_modify. intros s. by apply lasts_calm. Qed.

#[local] Hint Extern 2 (respects lasts (modify _)) => by apply lasts_modify : half.
#[local] Hint Extern 2 (respects lasts (upd_state _ _)) => by apply lasts_modify : half.
#[local] Hint Extern 2 (respects lasts (upd_inbound _ _)) => by apply lasts_modify : half.
#[local] Hint Extern 2 (respects lasts (upd_queues _)) => by apply lasts_modify : half.
#[local] Hint Extern 2 (respects lasts (notify _)) => by apply lasts_modify : half.
#[local] Hint Extern 2 (respects lasts get_queues) => apply respects_gets; typeclasses eauto : half.

Lemma lasts_run {A} (m : Conn A) : (forall s, signals (m s).2 = signals s) -> respects lasts m.
Proof. intros Hm s r s' Hrun. apply lasts_calm. specialize (Hm s). by rewrite Hrun in Hm. Qed.

Lemma lasts_conn_receive n : respects lasts (conn_window_receive n).
Proof. apply lasts_run. intros s. unfold conn_window_receive. by repeat case_match. Qed.
Lemma lasts_conn_consume n : respects lasts (conn_window_consume n).
Proof. apply lasts_run. intros s. unfold conn_window_consume. by repeat case_match. Qed.
Lemma lasts_take_conn n : respects lasts (take_conn_permit n).
Proof. apply lasts_run. intros s. unfold take_conn_permit. by repeat case_match. Qed.
Lemma lasts_new_stream p : respects lasts (new_stream p).
Proof. by apply lasts_run. Qed.
Lemma lasts_acquire n get put : (forall sem s, signals (put sem s) = signals s) -> respects lasts (acquire_from n get put).
Proof. intros Hp. apply lasts_run. intros s. unfold acquire_from. repeat case_match; simpl; auto. Qed.
#[local] Hint Resolve lasts_conn_receive lasts_conn_consume lasts_take_conn lasts_new_stream : half.
#[local] Hint Extern 2 (respects lasts (acquire_from _ _ _)) => by apply lasts_acquire : half.

(** Unfolding an operation and taking it apart. *)
#[local] Ltac last_all :=
  repeat (respect; try match goal with
    | |- respects _ ?m => let rec head x := lazymatch x with ?f _ => head f | _ => x end in
        let h := head m in unfold h
    end).

Lemma lasts_chunk_drop c : respects lasts (chunk_drop c).
Proof. last_all. Qed.
#[local] Hint Resolve lasts_chunk_drop : half.

Lemma lasts_drop_chunks cs : respects lasts (drop_chunks cs).
Proof. induction cs; simpl; last_all. Qed.
Lemma lasts_drop_outbounds cs : respects lasts (drop_outbounds cs).
Proof. induction cs; simpl; last_all. Qed.
Lemma lasts_mark_streams ls : respects lasts (mark_streams_closed ls).
Proof. induction ls as [|[id l] ls IH]; simpl; last_all. Qed.
#[local] Hint Resolve lasts_drop_chunks lasts_drop_outbounds lasts_mark_streams : half.

Lemma lasts_read_chunk l : respects lasts (read_chunk l).
Proof. last_all. Qed.
#[local] Hint Resolve lasts_read_chunk : half.

Lemma lasts_poll_read_fuel fuel h n : respects lasts (poll_read_fuel fuel h n).
Proof. revert h. induction fuel as [|fuel IH]; intros h; simpl; [by intros s r s' [= _ <-]|]. last_all. Qed.
#[local] Hint Resolve lasts_poll_read_fuel : half.

(** ** Closing *)

Lemma wp_mark_down s (R : Error -> ConnectionShared -> Prop) :
  wp mark_closed s (fun _ s' => lasts s s' /\ cleanup_started s' = true /\ closed s' = true /\ terminated s' = true) R.
Proof.
  apply wp_mark_closed.
  - intros Hs. split; [|done]. split; try done. intros Hd _. destruct (Hd Hs). by split.
  - intros Hs s' Hsh Hc Ht Hst _. split; [|done]. split; try done. intros _ _. split; [done..|]. unfold abortive.
    by rewrite (sh_closing _ Hsh), (sh_graceful _ Hsh).
Qed.

Lemma lasts_mark_closed : respects lasts mark_closed.
Proof.
  intros s r s' Hrun. pose proof (wp_mark_down s (fun _ _ => False)) as Hw. unfold wp in Hw. rewrite Hrun in Hw. destruct r; [apply Hw|done..].
Qed.
#[local] Hint Resolve lasts_mark_closed : half.

(** [initiate_close] leaves a connection that is closed alone. *)
Record marks s s' : Prop := {
  mk_closed : closed s = true -> closed s' = true;
  mk_terminated : terminated s' = terminated s;
  mk_started : cleanup_started s' = cleanup_started s
}.
#[export] Instance marks_preorder : PreOrder marks.
Proof. split; [by intros s|]. intros x y z [] []. split; [auto|congruence..]. Qed.

#[local] Hint Extern 2 (respects marks (modify _)) => by apply respects_modify : half.
#[local] Hint Extern 2 (respects marks (upd_queues _)) => by apply respects_modify : half.
#[local] Hint Extern 2 (respects marks (upd_state _ _)) => by apply respects_modify : half.
#[local] Hint Extern 2 (respects marks (notify _)) => by apply respects_modify : half.
#[local] Hint Extern 2 (respects marks get_queues) => apply respects_gets; typeclasses eauto : half.

Lemma marks_drop_outbounds cs : respects marks (drop_outbounds cs).
Proof. induction cs; simpl; last_all. Qed.
#[local] Hint Resolve marks_drop_outbounds : half.
Lemma marks_initiate_close code reason : respects marks (initiate_close code reason).
Proof. last_all. Qed.

Lemma lasts_initiate_close code reason : respects lasts (initiate_close code reason).
Proof.
  intros s r s' Hrun. pose proof (marks_initiate_close code reason s r s' Hrun) as [Hc Ht Hs].
  split; [done|congruence|congruence|]. intros Hd Hs'. rewrite Hs in Hs'. specialize (Hd Hs'). revert Hrun. destruct Hd as [Hcl Hte Hab].
  unfold initiate_close. cbv [mbind M_bind gets lift modify].
  destruct (fit_close_reason _ _ _) as [a| |]; simpl; [|by intros [= _ <-]..]. destruct (map_err _ _) as [c| |]; simpl; [|by intros [= _ <-]..].
  rewrite Hcl. simpl. by intros [= _ <-].
Qed.
#[local] Hint Resolve lasts_initiate_close : half.

Lemma lasts_abort : respects lasts abort.
Proof.
  unfold abort. apply respects_bind; [typeclasses eauto| |intros ?; last_all]. apply respects_modify. intros s. split; try done.
  intros Hd Hs. by destruct (Hd Hs).
Qed.

Lemma lasts_catch {A} (m : Conn A) k : respects lasts m -> (forall e, respects lasts (k e)) -> respects lasts (catch m k).
Proof.
  intros Hm Hk s r s'. unfold catch. destruct (m s) as [[a|e|] s1] eqn:E; intros Hrun; [simplify_eq; by eapply Hm| |simplify_eq; by eapply Hm].
  etransitivity; [by eapply Hm|by eapply Hk].
Qed.

(** ** The calls and the tasks *)

Lemma lasts_send_chunk f : respects lasts (send_stream_chunk f).
Proof. last_all. Qed.
#[local] Hint Resolve lasts_send_chunk : half.

Lemma lasts_handle_incoming b : respects lasts (handle_incoming_frame b).
Proof. last_all. Qed.
#[local] Hint Resolve lasts_handle_incoming : half.

Lemma lasts_reader_step item : respects lasts (reader_step item).
Proof.
  assert (Hi : respects lasts (reader_item item)); [|last_all].
  destruct item as [b| | | |]; [|last_all..]. apply respects_bind; [typeclasses eauto|last_all|intros _].
  apply lasts_catch; [last_all|intros e; last_all].
Qed.

Lemma lasts_cleanup_streams ls : respects lasts (cleanup_streams ls).
Proof. induction ls as [|[id l] ls IH]; simpl; last_all. Qed.
#[local] Hint Resolve lasts_cleanup_streams : half.

Lemma lasts_conn_update : respects lasts conn_window_update.
Proof. apply lasts_run. intros s. unfold conn_window_update. by repeat case_match. Qed.
Lemma lasts_find_update ls : respects lasts (find_stream_update ls).
Proof. induction ls as [|[id l] ls IH]; simpl; last_all. Qed.
Lemma lasts_put_back id cs n : respects lasts (put_back id cs n).
Proof. unfold put_back. respect; apply lasts_modify; intros s; by repeat case_match. Qed.
#[local] Hint Resolve lasts_put_back : half.
Lemma lasts_data_loop n a b c d : respects lasts (data_loop n a b c d).
Proof. induction n as [|n IH]; simpl; last_all. Qed.
#[local] Hint Resolve lasts_conn_update lasts_find_update lasts_data_loop : half.

Lemma lasts_next_frame : respects lasts next_frame.
Proof.
  unfold next_frame. generalize 2%nat. intros n. induction n as [|n IH]; simpl; [by intros s r s' [= _ <-]|]. last_all.
Qed.
#[local] Hint Resolve lasts_next_frame lasts_reader_step lasts_abort : half.

(** An event moves from one state of the connection to another that keeps the marks. *)
Definition moves w (x : Step) : Prop := match x with Next w' => lasts (w_conn w) (w_conn w') | _ => True end.

Lemma moves_perform {A} (m : Conn A) w k : respects lasts m -> (forall r x, w_conn (k r x) = w_conn x) -> moves w (perform m w k).
Proof.
  intros Hm Hk. unfold perform. destruct (m (w_conn w)) as [[a|e|] s'] eqn:E; simpl; rewrite ?Hk; [|..|done]; by eapply Hm.
Qed.

Lemma moves_exec e w : moves w (exec e w).
Proof.
  assert (Hmo : forall {A} (m : Conn A) k, respects lasts m -> (forall r x, w_conn (k r x) = w_conn x) -> moves w (perform m w k)).
  { intros A m k. apply moves_perform. }
  destruct e; cbn [exec exec_app exec_stream exec_task]; unfold with_handle, with_sender, with_receiver, with_send;
    repeat case_match; try done; apply Hmo; try (intros ? ?; unfold writer_turned; repeat case_match; done); last_all.
Qed.

(** ** Tasks that ended *)

Record ends_inv w : Prop := {
  ei_down : down_once (w_conn w);
  ei_reader : w_reader w = false -> cleanup_started (w_conn w) = true;
  ei_supervisor : w_supervisor w = Expired \/ w_supervisor w = Joined -> cleanup_started (w_conn w) = true
}.

(** Most events leave the reader and the supervisor where they are. *)
Definition beside_tasks w (x : Step) : Prop :=
  match x with
  | Next w' => w_reader w' = w_reader w /\ (w_supervisor w' = w_supervisor w \/ w_supervisor w' = Draining)
  | _ => True
  end.
Definition is_last (e : Event) : bool := match e with Reader _ | Deadline | Join => true | _ => false end.

Lemma beside_perform {A} (m : Conn A) w k :
  (forall r s, beside_tasks w (Next (k r (w <| w_conn := s |>)))) -> beside_tasks w (perform m w k).
Proof. intros Hk. unfold perform. by destruct (m (w_conn w)) as [[] s']; [apply Hk..|]. Qed.

Lemma beside_exec e w : is_last e = false -> beside_tasks w (exec e w).
Proof.
  intros He. destruct e; try done; cbn [exec exec_app exec_stream exec_task];
    unfold with_handle, with_sender, with_receiver, with_send; repeat case_match; try done; try (split; [done|by left]);
    apply beside_perform; intros ? ?; unfold writer_turned; repeat case_match; split; try done; (by left) || (by right).
Qed.

(** The reader ends with [mark_closed]. *)
Lemma reader_ends item s s' : reader_step item s = (Ok false, s') -> cleanup_started s' = true.
Proof.
  intros H. apply bind_inv in H as (b & s1 & _ & H). apply bind_inv in H as (u & s2 & Hm & H).
  apply ret_run in H as Hs. subst s2. assert (b = false) as -> by (unfold mret, M_ret in H; congruence).
  pose proof (wp_mark_down s1 (fun _ _ => False)) as Hw. unfold wp in Hw. simpl in Hm. rewrite Hm in Hw. apply Hw.
Qed.

Lemma wp_joined s : wp supervisor_joined s
  (fun _ s' => lasts s s' /\ cleanup_started s' = true /\ joined s' = true /\ incoming_streams s' = []) (fun _ _ => False).
Proof.
  unfold supervisor_joined, notify. wp_step. eapply wp_mono; [apply wp_mark_down with (R := fun _ _ => False)| |done].
  intros ? s1 (Hl & Hc & _). wp_steps. split_and!; try done. etransitivity; [exact Hl|]. by apply lasts_calm.
Qed.

(** The tasks whose end matters: the reader and the supervisor. *)
Lemma ends_last lim e w w' : world_inv lim w -> ends_inv w -> is_last e = true -> exec e w = Next w' ->
  (w_reader w' = false -> cleanup_started (w_conn w') = true) /\
  (w_supervisor w' = Expired \/ w_supervisor w' = Joined -> cleanup_started (w_conn w') = true).
Proof.
  intros Hw [Hd Hr Hs] El He. pose proof (moves_exec e w) as Hm. rewrite He in Hm. simpl in Hm.
  destruct e; try done; cbn [exec exec_task] in He.
  - destruct (w_reader w && _); [|done]. pose proof (wp_reader_step lim (wv_valid _ _ Hw) (w_hist w) (map send_hold (futures w)) (w_receivers w)
      (w_conn w) item (wv_duplex _ _ Hw) (world_on_heap lim w Hw)) as Hrs. unfold wp, perform in *.
    destruct (reader_step item (w_conn w)) as [[b|er|] s'] eqn:E; [|done..]. injection He as <-. simpl. split.
    + intros ->. by eapply reader_ends.
    + intros H. by apply Hm, Hs.
  - destruct (w_supervisor w); try done. pose proof (wp_mark_down (w_conn w) (fun _ _ => False)) as Hmd. unfold wp, perform, supervisor_deadline in *.
    destruct (mark_closed (w_conn w)) as [[u|er|] s'] eqn:E; [|done..]. injection He as <-. simpl. by destruct Hmd as (_ & ? & _).
  - assert (Hj : perform supervisor_joined w (fun _ w' => w' <| w_supervisor := Joined |>) = Next w')
      by (destruct (w_supervisor w); try done; by destruct (tasks_ended w)). clear He.
    pose proof (wp_joined (w_conn w)) as Hmd. unfold wp, perform in *.
    destruct (supervisor_joined (w_conn w)) as [[u|er|] s'] eqn:E; [|done..]. injection Hj as <-. simpl. by destruct Hmd as (_ & ? & _).
Qed.

Lemma ends_exec lim e w w' : world_inv lim w -> ends_inv w -> exec e w = Next w' -> ends_inv w'.
Proof.
  intros Hw Hi He. pose proof Hi as [Hd Hr Hs]. pose proof (moves_exec e w) as Hm. rewrite He in Hm. simpl in Hm.
  destruct (is_last e) eqn:El; [destruct (ends_last lim e w w') as [? ?]; [done..|]; split; [by apply Hm|done..]|].
  pose proof (beside_exec e w El) as Hb. rewrite He in Hb. destruct Hb as [Hb1 Hb2]. split; [by apply Hm| |].
  - rewrite Hb1. intros H. by apply Hm, Hr.
  - destruct Hb2 as [->| ->]; [|by intros []]. intros H. by apply Hm, Hs.
Qed.

Lemma runs_ends lim w : runs lim w -> ends_inv w.
Proof.
  induction 1 as [is_client keepalive s Hu Hn|w e w' Hr IH Ht He]; [|by eapply ends_exec; [by apply runs_inv|..]].
  assert (Hc : cleanup_started s = false).
  { unfold connection_new in Hn. do 4 (apply bind_ok_iff in Hn as (? & _ & Hn)). by injection Hn as <-. }
  split; simpl; [unfold down_once; congruence|done|by intros []].
Qed.

(** ** The end *)

(** What the tasks do: the supervisor's watch and deadline, then the end of each task
    that still runs.  The sink need not take anything. *)
Definition wind_down w : list Event :=
  match w_supervisor w with Watching => [Watch; Deadline] | Draining => [Deadline] | _ => [] end ++
  (if w_reader w then [Reader RTerminated] else []) ++
  (if w_cleanup w then [Cleanup] else []) ++
  (if w_keepalive w then [Keepalive] else []) ++
  [Writer false; Writer false; Writer false; Join].

Lemma exec_all_app es es' w : exec_all (es ++ es') w = match exec_all es w with Next w' => exec_all es' w' | r => r end.
Proof. revert w. induction es as [|e es IH]; intros w; simpl; [done|]. by destruct (exec e w). Qed.

Lemma exec_all_one e w : exec_all [e] w = exec e w.
Proof. simpl. by destruct (exec e w). Qed.

(** A connection that was marked closed, on its way. *)
Record stopping (lim : Limits) w : Prop := {
  sp_runs : runs lim w;
  sp_started : cleanup_started (w_conn w) = true;
  sp_supervisor : w_supervisor w = Expired
}.
Definition flags w := (w_reader w, w_cleanup w, w_keepalive w, w_writer w).

Lemma stopping_down lim w : stopping lim w -> down (w_conn w).
Proof. intros [Hr Hs _]. by apply (ei_down _ (runs_ends _ _ Hr)). Qed.

Lemma stopping_next lim e w w' : stopping lim w -> typed e = true -> is_last e = false \/ (exists i, e = Reader i) ->
  w_supervisor w' = w_supervisor w -> exec e w = Next w' -> stopping lim w'.
Proof.
  intros [Hr Hs Hx] Ht _ Hsup He. pose proof (moves_exec e w) as Hm. rewrite He in Hm. split; [by eapply runs_event|by apply Hm|congruence].
Qed.

(** The supervisor sees that the connection is closed, or closes it. *)
Lemma watch_result s : closed s = true \/ connection_handles s = 0 ->
  (supervisor_watch s).1 = Ok true \/ (supervisor_watch s).1 = Panic.
Proof.
  intros Hc. unfold supervisor_watch, ignore. cbv [mbind M_bind gets]. destruct (closed s) eqn:E; [by left|].
  destruct Hc as [?| ->]; [done|]. simpl. destruct (initiate_close 0 _ s) as [[u|e|] s']; auto.
Qed.

Lemma supervisor_stops lim w : runs lim w -> closed (w_conn w) = true \/ connection_handles (w_conn w) = 0 ->
  w_supervisor w <> Joined ->
  exists w1, exec_all (match w_supervisor w with Watching => [Watch; Deadline] | Draining => [Deadline] | _ => [] end) w = Next w1 /\
    stopping lim w1 /\ flags w1 = flags w.
Proof.
  intros Hr Hc Hj.
  assert (Hdead : forall x, runs lim x -> w_supervisor x = Draining ->
    exists w1, exec Deadline x = Next w1 /\ stopping lim w1 /\ flags w1 = flags x).
  { intros x Hx Hsup. pose proof (wp_mark_down (w_conn x) (fun _ _ => False)) as Hmd.
    assert (He : exec Deadline x = perform mark_closed x (fun _ w' => w' <| w_supervisor := Expired |>)) by (unfold exec, exec_task; by rewrite Hsup).
    unfold wp, perform in *. destruct (mark_closed (w_conn x)) as [[u|er|] s'] eqn:E; [|done..].
    eexists. split; [exact He|]. split; [|done]. split; [by apply (runs_event lim x Deadline)|by destruct Hmd as (_ & ? & _)|done]. }
  destruct (w_supervisor w) eqn:Hsup; [| | |done].
  - assert (Hw : exists w1, exec Watch w = Next w1 /\ runs lim w1 /\ w_supervisor w1 = Draining /\ flags w1 = flags w).
    { pose proof (safe_exec lim Watch w (runs_inv _ _ Hr) eq_refl) as Hsafe. pose proof (watch_result (w_conn w) Hc) as Hres.
      assert (He : exec Watch w = perform supervisor_watch w (fun r w' => if default false r then w' <| w_supervisor := Draining |> else w'))
        by (unfold exec, exec_task; by rewrite Hsup).
      rewrite He in Hsafe. unfold perform in He, Hsafe. destruct (supervisor_watch (w_conn w)) as [[b|er|] s'] eqn:E; [|by destruct Hres|done].
      simpl in Hres. destruct Hres as [[= ->]|]; [|done]. eexists. split; [exact He|]. split_and!; [by apply (runs_event lim w Watch)|done..]. }
    destruct Hw as (w1 & He & Hr1 & Hs1 & Hf1). destruct (Hdead w1 Hr1 Hs1) as (w2 & He2 & Hst2 & Hf2).
    exists w2. split_and!; [|done|congruence]. by rewrite (exec_all_app [Watch] [Deadline]), exec_all_one, He, exec_all_one.
  - destruct (Hdead w Hr Hsup) as (w1 & He & ? & ?). exists w1. split_and!; try done. by rewrite exec_all_one.
  - exists w. split_and!; try done. split; [done| |done]. apply (ei_supervisor _ (runs_ends _ _ Hr)). by left.
Qed.

(** The other tasks. *)
Lemma reader_stops lim w : stopping lim w ->
  exists w1, exec_all (if w_reader w then [Reader RTerminated] else []) w = Next w1 /\ stopping lim w1 /\
    flags w1 = (false, w_cleanup w, w_keepalive w, w_writer w).
Proof.
  intros Hst. pose proof (stopping_down _ _ Hst) as [_ Ht _]. destruct (w_reader w) eqn:Er.
  - pose proof (wp_mark_down (w_conn w) (fun _ _ => False)) as Hmd. rewrite exec_all_one.
    assert (He : exec (Reader RTerminated) w = perform (reader_step RTerminated) w (fun r w' =>
      w' <| w_reader := default false r |> <| w_hist ::= name_item RTerminated (w_conn w) (w_conn w') |>))
      by (unfold exec, exec_task, item_ready; by rewrite Er, Ht).
    unfold perform, reader_step, reader_item, when in He. cbv [mbind M_bind mret M_ret] in He. simpl in He. unfold wp in Hmd.
    destruct (mark_closed (w_conn w)) as [[u|er|] s'] eqn:E; [|done..]. eexists. split; [exact He|]. split; [|done].
    apply (stopping_next lim (Reader RTerminated) w); try done. by right; eexists.
  - exists w. split_and!; try done. unfold flags. by rewrite Er.
Qed.

Lemma cleanup_stops lim w : stopping lim w ->
  exists w1, exec_all (if w_cleanup w then [Cleanup] else []) w = Next w1 /\ stopping lim w1 /\
    flags w1 = (w_reader w, false, w_keepalive w, w_writer w).
Proof.
  intros Hst. pose proof (stopping_down _ _ Hst) as [_ Ht _]. destruct (w_cleanup w) eqn:Er.
  - rewrite exec_all_one. assert (He : exec Cleanup w = Next (w <| w_cleanup := false |>)) by (unfold exec, exec_task; by rewrite Er, Ht).
    eexists. split; [exact He|]. split; [|done]. apply (stopping_next lim Cleanup w); try done. by left.
  - exists w. split_and!; try done. unfold flags. by rewrite Er.
Qed.

Lemma keepalive_stops lim w : stopping lim w ->
  exists w1, exec_all (if w_keepalive w then [Keepalive] else []) w = Next w1 /\ stopping lim w1 /\
    flags w1 = (w_reader w, w_cleanup w, false, w_writer w).
Proof.
  intros Hst. pose proof (stopping_down _ _ Hst) as [Hc _ _]. destruct (w_keepalive w) eqn:Er.
  - rewrite exec_all_one. assert (He : exec Keepalive w = Next (w <| w_conn := w_conn w |> <| w_keepalive := false |>)).
    { unfold exec, exec_task. rewrite Er. unfold perform, keepalive_tick. cbv [mbind M_bind gets]. by rewrite Hc. }
    eexists. split; [exact He|]. split; [|done]. apply (stopping_next lim Keepalive w); try done. by left.
  - exists w. split_and!; try done. unfold flags. by rewrite Er.
Qed.

(** The turns the writer needs at most. *)
Definition turns (t : WriterTask) : nat :=
  match t with WriterIdle => 3 | WriterSending _ _ => 2 | WriterClosing => 1 | WriterEnded => 0 end.

Lemma writer_turn_result lim w : stopping lim w ->
  exists t s', writer_turn false (w_writer w) (w_conn w) = (Ok t, s') /\ (turns t <= pred (turns (w_writer w)))%nat.
Proof.
  intros Hst. pose proof (stopping_down _ _ Hst) as [_ Ht Hab]. destruct (w_writer w) as [|f b| |] eqn:Ew; simpl.
  - pose proof (runs_inv _ _ (sp_runs _ _ Hst)) as [_ [[Hi _ _] _] _ _ _].
    pose proof (wp_next_frame (w_conn w) (sv_writer _ _ Hi)) as Hn. unfold wp in Hn. cbv [mbind M_bind mret M_ret].
    destruct (next_frame (w_conn w)) as [[p|er|] s'] eqn:E; [|done..]. eexists _, _. split; [reflexivity|].
    destruct p as [[f|]|]; simpl; [destruct (encode_frame f); simpl; lia|lia|]. inv Hn. congruence.
  - cbv [mbind M_bind gets]. rewrite Ht. simpl. eexists _, _. split; [reflexivity|]. simpl. lia.
  - pose proof (wp_mark_down (w_conn w) (fun _ _ => False)) as Hmd. unfold wp in Hmd. cbv [mbind M_bind mret M_ret].
    destruct (mark_closed (w_conn w)) as [[u|er|] s'] eqn:E; [|done..]. eexists _, _. split; [reflexivity|]. simpl. lia.
  - eexists _, _. split; [reflexivity|]. simpl. lia.
Qed.

Lemma writer_step_stops lim w : stopping lim w ->
  exists w1, exec (Writer false) w = Next w1 /\ stopping lim w1 /\
    (w_reader w1, w_cleanup w1, w_keepalive w1) = (w_reader w, w_cleanup w, w_keepalive w) /\
    (turns (w_writer w1) <= pred (turns (w_writer w)))%nat.
Proof.
  intros Hst. destruct (writer_turn_result lim w Hst) as (t & s' & Hrun & Hle).
  assert (He : exec (Writer false) w = Next (writer_turned false w (Some t) (w <| w_conn := s' |>))).
  { unfold exec, exec_task, perform. by rewrite Hrun. }
  assert (Hf : flags (writer_turned false w (Some t) (w <| w_conn := s' |>)) = (w_reader w, w_cleanup w, w_keepalive w, t) /\
    w_supervisor (writer_turned false w (Some t) (w <| w_conn := s' |>)) = w_supervisor w).
  { unfold writer_turned, flags. by destruct (w_writer w), t. }
  revert He Hf. generalize (writer_turned false w (Some t) (w <| w_conn := s' |>)). intros w1 He [Hf Hsup].
  unfold flags in Hf. injection Hf as H1 H2 H3 H4. exists w1. split_and!; [done| |congruence|by rewrite H4].
  apply (stopping_next lim (Writer false) w); try done. by left.
Qed.

Lemma writer_stops lim w : stopping lim w ->
  exists w1, exec_all [Writer false; Writer false; Writer false] w = Next w1 /\ stopping lim w1 /\
    flags w1 = (w_reader w, w_cleanup w, w_keepalive w, WriterEnded).
Proof.
  intros Hst. destruct (writer_step_stops lim w Hst) as (w1 & He1 & Hst1 & Hf1 & Ht1).
  destruct (writer_step_stops lim w1 Hst1) as (w2 & He2 & Hst2 & Hf2 & Ht2).
  destruct (writer_step_stops lim w2 Hst2) as (w3 & He3 & Hst3 & Hf3 & Ht3).
  exists w3. split_and!; [|done|].
  - by rewrite (exec_all_app [Writer false] [Writer false; Writer false]), exec_all_one, He1,
      (exec_all_app [Writer false] [Writer false]), exec_all_one, He2, exec_all_one.
  - assert (w_writer w3 = WriterEnded) as Hw3.
    { assert (turns (w_writer w) <= 3)%nat by (by destruct (w_writer w); simpl; lia). by destruct (w_writer w3); simpl in *; try lia. }
    unfold flags. rewrite Hw3. congruence.
Qed.

Lemma join_ends lim w : stopping lim w -> flags w = (false, false, false, WriterEnded) ->
  exists w1, exec Join w = Next w1 /\ runs lim w1 /\ flags w1 = flags w /\ cleanup_started (w_conn w1) = true /\
    joined (w_conn w1) = true /\ incoming_streams (w_conn w1) = [].
Proof.
  intros Hst Hf. unfold flags in Hf. injection Hf as H1 H2 H3 H4. pose proof (wp_joined (w_conn w)) as Hj. unfold wp in Hj.
  assert (He : exec Join w = perform supervisor_joined w (fun _ w' => w' <| w_supervisor := Joined |>)).
  { unfold exec, exec_task. rewrite (sp_supervisor _ _ Hst). unfold tasks_ended. by rewrite H1, H2, H3, H4. }
  unfold perform in He. destruct (supervisor_joined (w_conn w)) as [[u|er|] s'] eqn:E; [|done..].
  destruct Hj as (_ & Hc & Hjo & Hin). eexists. split; [exact He|]. split_and!; try done.
  by apply (runs_event lim w Join); [apply Hst|..].
Qed.

Lemma shut_down lim w : runs lim w ->
  closed (w_conn w) = true \/ connection_handles (w_conn w) = 0 -> w_supervisor w <> Joined ->
  exists w', exec_all (wind_down w) w = Next w' /\ (length (wind_down w) <= 9)%nat /\ tasks_ended w' = true /\
    wait_closed (w_conn w') = (Ok (Ready tt), w_conn w') /\ streams (w_conn w') = ∅ /\ incoming_streams (w_conn w') = [].
Proof.
  intros Hr Hc Hj. unfold wind_down.
  destruct (supervisor_stops lim w Hr Hc Hj) as (w1 & He1 & Hst1 & Hf1). unfold flags in Hf1. injection Hf1 as A1 A2 A3 A4.
  destruct (reader_stops lim w1 Hst1) as (w2 & He2 & Hst2 & Hf2). unfold flags in Hf2. injection Hf2 as B1 B2 B3 B4.
  destruct (cleanup_stops lim w2 Hst2) as (w3 & He3 & Hst3 & Hf3). unfold flags in Hf3. injection Hf3 as C1 C2 C3 C4.
  destruct (keepalive_stops lim w3 Hst3) as (w4 & He4 & Hst4 & Hf4). unfold flags in Hf4. injection Hf4 as D1 D2 D3 D4.
  destruct (writer_stops lim w4 Hst4) as (w5 & He5 & Hst5 & Hf5).
  destruct (join_ends lim w5 Hst5) as (w6 & He6 & Hr6 & Hf6 & Hs6 & Hj6 & Hi6); [rewrite Hf5; congruence|].
  exists w6. split_and!.
  - rewrite exec_all_app, He1, exec_all_app. rewrite A1 in He2. rewrite He2, exec_all_app.
    rewrite B2, A2 in He3. rewrite He3, exec_all_app. rewrite C3, B3, A3 in He4. rewrite He4.
    by rewrite (exec_all_app [Writer false; Writer false; Writer false] [Join]), He5, exec_all_one.
  - destruct (w_supervisor w), (w_reader w), (w_cleanup w), (w_keepalive w); simpl; lia.
  - unfold flags in Hf5, Hf6. injection Hf5 as E1 E2 E3 E4. injection Hf6 as F1 F2 F3 F4.
    unfold tasks_ended. by rewrite F1, F2, F3, F4, E1, E2, E3, E4, D1, D2, D3, C1, C2, B1.
  - unfold wait_closed. cbv [mbind M_bind gets mret M_ret]. by rewrite Hj6.
  - pose proof (dx_recv _ _ _ _ _ _ (wv_duplex _ _ (runs_inv _ _ Hr6))) as Hp. unfold phase in Hp. rewrite Hs6 in Hp. apply Hp.
  - done.
Qed.

(** C7: once a connection is closed, for whatever reason, or its last handle is dropped,
    its tasks bring it to its end by themselves: from every state of every execution a
    bounded number of turns of the tasks ends all of them, without any call of the
    application, frame of the peer, or progress of the transport.  Then [wait_closed]
    returns, no stream is left in the map, and none waits to be accepted. *)
Theorem shutdown_completes lim w : runs lim w ->
  closed (w_conn w) = true \/ connection_handles (w_conn w) = 0 -> w_supervisor w <> Joined ->
  exists w', exec_all (wind_down w) w = Next w' /\ (length (wind_down w) <= 9)%nat /\ tasks_ended w' = true /\
    wait_closed (w_conn w') = (Ok (Ready tt), w_conn w') /\ streams (w_conn w') = ∅ /\ incoming_streams (w_conn w') = [].
Proof. apply shut_down. Qed.

End shutdown.

#[local] Existing Instance counting.
#[local] Existing Instance counting_laws.
#[local] Existing Instance hash_list.
#[local] Existing Instance hash_list_laws.

(** The application of the run of [SystemSpec] closes the connection. *)
Definition demo_closing : World := world_after [Close []] demo_world.

Lemma shutdown_completes_witness :
  exists w', exec_all (wind_down demo_closing) demo_closing = Next w' /\ (length (wind_down demo_closing) <= 9)%nat /\
    tasks_ended w' = true /\ wait_closed (w_conn w') = (Ok (Ready tt), w_conn w') /\
    streams (w_conn w') = ∅ /\ incoming_streams (w_conn w') = [].
Proof.
  apply (shutdown_completes demo_limits demo_closing).
  - apply runs_after; [apply demo_runs|vm_compute; reflexivity..].
  - left. vm_compute. reflexivity.
  - vm_compute. discriminate.
Defined.
