(* ===== verification/Fuzz.v ===== *)
(** The fuzz targets of [fuzz/fuzz_targets] and the entry point [fuzz_connection_state] of
    [muxtls/src/connection.rs]: what they assert holds for every input. *)

From S2P Require Import Prelude Hoare Buf Varint Utf8 Frames Errors Limits Flow Tokio.
From S2P Require Import ConnState Inbound Writer WriterSpec Connection Streams Tasks ReceiveSystem Receive.
From S2P Require Import SendInv Duplex DuplexOps SendDuplex System SystemInv SystemSpec Shutdown.

#[local] Open Scope Z_scope.

(** An assertion, and an [expect] on a [Result]. *)
Definition assert_true (b : bool) : Result Error unit := if b then Ok tt else Panic.
Definition expect_ok {E A} (r : Result E A) : Result Error A := match r with Ok a => Ok a | _ => Panic end.

(** ** [frame_decode] and [varint_decode] *)

Definition frame_decode_target (input : bytes) : Result Error unit :=
  match (Frame.decode input).1 with
  | Ok decoded =>
      let '(r, canonical) := Frame.encode decoded ([] : bytes) in
      _ ← expect_ok r;
      n ← expect_ok (Frame.encoded_len decoded);
      _ ← assert_true (zlen canonical =? n);
      roundtrip ← expect_ok (Frame.decode canonical).1;
      assert_true (bool_decide (roundtrip = decoded))
  | Err _ => Ok tt
  | Panic => Panic
  end.

Definition varint_decode_target (input : bytes) : Result Error unit :=
  match (VarInt.decode input).1 with
  | Ok decoded =>
      let canonical := VarInt.encode decoded ([] : bytes) in
      _ ← assert_true (zlen canonical =? VarInt.encoded_len decoded);
      let '(r, canonical) := VarInt.decode canonical in
      roundtrip ← expect_ok r;
      _ ← assert_true (bool_decide (roundtrip = decoded));
      assert_true (negb (has_remaining canonical))
  | Err _ => Ok tt
  | Panic => Panic
  end.

(** C33: the two codec targets pass on every input: whatever decodes re-encodes, to the
    length that was announced, and decodes again to the same value. *)
Theorem codec_targets_pass (input : bytes) :
  frame_decode_target input = Ok tt /\ varint_decode_target input = Ok tt.
Proof.
  split.
  - unfold frame_decode_target. destruct (Frame.decode_cases input) as [(e & r & ->)|(f & -> & Hwf & Hfit & _)]; [done|]. cbn [fst].
    destruct (Frame.frame_encode_written f ([] : bytes) Hfit) as (o & -> & Ho). assert (o = Frame.enc f) as -> by exact Ho.
    rewrite (Frame.encoded_len_enc f Hwf Hfit), (Frame.frame_decode_enc f Hwf Hfit). cbn [expect_ok mbind Result_bind fst].
    by rewrite Z.eqb_refl, bool_decide_true.
  - unfold varint_decode_target. destruct (VarInt.decode_bytes_cases input) as [(r & ->)|(p & v & r & -> & -> & Hwf & _)]; [done|]. cbn [fst].
    assert (VarInt.encode v ([] : bytes) = VarInt.enc v) as -> by exact (VarInt.encode_written v ([] : bytes)).
    pose proof (VarInt.decode_enc v [] Hwf) as Hd. rewrite app_nil_r in Hd. rewrite Hd, (VarInt.length_enc v Hwf), Z.eqb_refl.
    cbn [expect_ok mbind Result_bind assert_true]. by rewrite bool_decide_true.
Qed.

(** ** [connection_state] *)

(** [enum Action] and [struct Scenario] *)
Inductive Action :=
| ASettings (data stream frame : Z)
| AMaxData (maximum : Z)
| AMaxStreamData (index maximum : Z)
| AStopSending (index : Z)
| AOpenNext
| AOpen (stream_id : Z)
| AStreamKnown (index : Z) (fin : bool) (payload : bytes)
| AStream (stream_id : Z) (fin : bool) (payload : bytes)
| AResetKnown (index error_code : Z)
| AReset (stream_id error_code : Z)
| APing
| AClose (error_code : Z) (reason : bytes)
| ARaw (raw : bytes).
Record Scenario := mkScenario { sc_is_client : bool; sc_actions : list Action }.

Definition bounded (value : Z) : Z := value mod (VarInt.MAX + 1).
Definition varint (value : Z) : Result Error VarInt := expect_ok (VarInt.from_u64 value).
Definition proto_error_code (value : Z) : Result Error ErrorCode := expect_ok (ErrorCode.from_u64 (bounded value)).
Definition select (streams : list Z) (index : Z) : option Z :=
  match streams with [] => None | _ => streams !! (Z.to_nat index `mod` length streams)%nat end.
Definition encode (frame : Frame) : Result Error bytes :=
  let '(r, encoded) := Frame.encode frame ([] : bytes) in
  _ ← expect_ok r; Ok encoded.

(** The variables of the loop: [next_remote_id] and [opened].  [None] is [continue]. *)
Definition encode_action (next_remote_id : Z) (opened : list Z) (action : Action) :
    Result Error (option bytes * Z * list Z) :=
  let keep (b : bytes) := (Some b, next_remote_id, opened) in
  let skip := Ok (None, next_remote_id, opened) in
  match action with
  | ASettings data stream frame =>
      a ← varint (bounded data); b ← varint (bounded stream); c ← varint (bounded frame);
      e ← encode (Settings a b c); Ok (keep e)
  | AMaxData maximum => a ← varint (bounded maximum); e ← encode (MaxData a); Ok (keep e)
  | AMaxStreamData index maximum =>
      id ← varint (default VarInt.MAX (select opened index)); a ← varint (bounded maximum);
      e ← encode (MaxStreamData id a); Ok (keep e)
  | AStopSending index =>
      id ← varint (default VarInt.MAX (select opened index)); e ← encode (StopSending id); Ok (keep e)
  | AOpenNext =>
      if VarInt.MAX <? next_remote_id then skip
      else
        id ← varint next_remote_id; e ← encode (OpenStream id);
        Ok (Some e, next_remote_id + 2, opened ++ [next_remote_id])
  | AOpen stream_id =>
      id ← varint (bounded stream_id); e ← encode (OpenStream id);
      Ok (Some e, next_remote_id, opened ++ [bounded stream_id])
  | AStreamKnown index fin payload =>
      match select opened index with
      | None => skip
      | Some stream_id => id ← varint stream_id; e ← encode (Stream id fin (take 256 payload)); Ok (keep e)
      end
  | AStream stream_id fin payload =>
      id ← varint (bounded stream_id); e ← encode (Stream id fin (take 256 payload)); Ok (keep e)
  | AResetKnown index error_code =>
      match select opened index with
      | None => skip
      | Some stream_id =>
          id ← varint stream_id; c ← proto_error_code error_code; e ← encode (ResetStream id c); Ok (keep e)
      end
  | AReset stream_id error_code =>
      id ← varint (bounded stream_id); c ← proto_error_code error_code; e ← encode (ResetStream id c); Ok (keep e)
  | APing => e ← encode Ping; Ok (keep e)
  | AClose error_code reason =>
      c ← proto_error_code error_code;
      e ← encode (ConnectionClose c (from_utf8_lossy (take 128 reason))); Ok (keep e)
  | ARaw raw => Ok (keep (take 512 raw))
  end.

Fixpoint encode_actions (next_remote_id : Z) (opened : list Z) (actions : list Action) : Result Error (list bytes) :=
  match actions with
  | [] => Ok []
  | action :: actions =>
      r ← encode_action next_remote_id opened action;
      let '(encoded, next_remote_id, opened) := r in
      rest ← encode_actions next_remote_id opened actions;
      Ok (option_list encoded ++ rest)
  end.

(** *** The state of the loop *)

Record loop_ok (next_remote_id : Z) (opened : list Z) : Prop := {
  lo_next : 0 <= next_remote_id <= VarInt.MAX + 2;
  lo_opened : Forall (fun id => 0 <= id <= VarInt.MAX) opened
}.

Lemma bounded_range v : 0 <= bounded v <= VarInt.MAX.
Proof. unfold bounded. rewrite VarInt.MAX_eq. pose proof (Z.mod_pos_bound v (4611686018427387903 + 1)). lia. Qed.

Lemma varint_ok v : 0 <= v <= VarInt.MAX -> varint v = Ok (mkVarInt v).
Proof. intros H. unfold varint. by rewrite VarInt.from_u64_ok. Qed.

Lemma proto_error_code_ok v : exists c, proto_error_code v = Ok c.
Proof.
  unfold proto_error_code, ErrorCode.from_u64. rewrite VarInt.from_u64_ok by apply bounded_range. by eexists.
Qed.

Lemma select_range opened index id : Forall (fun id => 0 <= id <= VarInt.MAX) opened -> select opened index = Some id ->
  0 <= id <= VarInt.MAX.
Proof.
  intros Ho Hs. unfold select in Hs. destruct opened as [|x l]; [done|]. by eapply Forall_lookup_1 in Hs; [|exact Ho].
Qed.

Lemma encode_ok f : Frame.fits f -> encode f = Ok (Frame.enc f).
Proof.
  intros Hf. unfold encode. destruct (Frame.frame_encode_written f ([] : bytes) Hf) as (o & -> & Ho). simpl. f_equal. exact Ho.
Qed.

Lemma encode_action_ok n opened a : loop_ok n opened ->
  exists b n' opened', encode_action n opened a = Ok (b, n', opened') /\ loop_ok n' opened'.
Proof.
  intros Hl. pose proof Hl as [Hn Ho]. pose proof bounded_range as Hb.
  assert (Hsel : forall i, 0 <= default VarInt.MAX (select opened i) <= VarInt.MAX).
  { intros i. destruct (select opened i) eqn:E; simpl; [by eapply select_range|rewrite VarInt.MAX_eq; lia]. }
  assert (Htake : forall k (l : bytes), (k <= 512)%nat -> zlen (take k l) <= VarInt.MAX).
  { intros k l Hk. rewrite VarInt.MAX_eq. unfold zlen. rewrite length_take. lia. }
  destruct a; unfold encode_action;
    repeat match goal with
    | |- context [proto_error_code ?c] => destruct (proto_error_code_ok c) as [? ->]
    | |- context [match select opened ?i with _ => _ end] => destruct (select opened i) as [?|] eqn:?; [|by eexists _, _, _]
    | |- context [if VarInt.MAX <? n then _ else _] => destruct (Z.ltb_spec VarInt.MAX n); [by eexists _, _, _|]
    end;
    cbn [mbind Result_bind];
    repeat (rewrite varint_ok by (auto || lia || (by eapply select_range)); cbn [mbind Result_bind]);
    rewrite ?encode_ok; cbn [mbind Result_bind]; try done.
  all: try (by eexists _, _, _).
  all: try (eexists _, _, _; split; [reflexivity|]; split; [lia|]; apply Forall_app; split; [done|]; by constructor; [auto || lia|]).
  all: simpl; try (apply Htake; lia).
  pose proof (lossy_string (take 128 reason)) as [_ Hlen]. rewrite length_take in Hlen. rewrite VarInt.MAX_eq. unfold zlen. lia.
Qed.

Lemma encode_actions_ok n opened l : loop_ok n opened -> exists bs, encode_actions n opened l = Ok bs.
Proof.
  revert n opened. induction l as [|a l IH]; intros n opened Hl; [by eexists|]. simpl.
  destruct (encode_action_ok n opened a Hl) as (b & n' & o' & -> & Hl'). simpl. destruct (IH _ _ Hl') as [bs ->]. by eexists.
Qed.

(** *** [fuzz_connection_state] *)

Section connection.
Context {TK : Tokio} {HI : HashIter}.

Definition fuzz_limits : Limits :=
  Limits.default <| max_frame_size := 1024 |> <| max_open_streams := 16 |>
    <| max_inbound_connection_bytes := 4096 |> <| max_outbound_connection_bytes := 4096 |>
    <| max_inbound_stream_bytes := 512 |> <| max_outbound_stream_bytes := 512 |>.

(** What the tasks besides the reader do while the frames arrive; what cannot happen is
    skipped. *)
Definition background (e : Event) : bool := match e with Writer _ | Cleanup | Watch | Deadline => true | _ => false end.
Fixpoint run_background (es : list Event) (w : World) : Step :=
  match es with
  | [] => Next w
  | e :: es =>
      if background e then
        match exec e w with
        | Next w' => run_background es w'
        | Disabled => run_background es w
        | Crash => Crash
        end
      else run_background es w
  end.

(** The reader gets the items one by one, unless it was stopped. *)
Fixpoint feed (others : nat -> list Event) (items : list ReaderItem) (w : World) : Step :=
  match items with
  | [] => Next w
  | item :: items =>
      match run_background (others (length items)) w with
      | Next w =>
          let item := if terminated (w_conn w) then RTerminated else item in
          match exec (Reader item) w with
          | Next w' => feed others items w'
          | Disabled => feed others items w
          | Crash => Crash
          end
      | r => r
      end
  end.

(** [deliver] is what the length-delimited transport makes of a written frame, and
    [others] what the other tasks do between two items.  After the frames the peer is
    dropped; then the tasks go on until [wait_closed] returns. *)
Definition fuzz_connection_state (deliver : bytes -> ReaderItem) (others : nat -> list Event)
    (is_client : bool) (frames : list bytes) : Result Error unit :=
  s ← expect_ok (connection_new fuzz_limits is_client);
  let written := filter (fun f => zlen f <= u32_max) (take 64 frames) in
  match feed others (map deliver written ++ [REof]) (world_new false s) with
  | Next w =>
      match exec_all (wind_down w) w with
      | Next w => assert_true (match wait_closed (w_conn w) with (Ok (Ready _), _) => true | _ => false end)
      | _ => Panic
      end
  | _ => Panic
  end.

(** The fuzz target. *)
Definition connection_state_target (deliver : bytes -> ReaderItem) (others : nat -> list Event)
    (scenario : Scenario) : Result Error unit :=
  let next_remote_id := if sc_is_client scenario then 1 else 0 in
  a ← varint 4096; b ← varint 512; c ← varint 1024;
  first ← encode (Settings a b c);
  rest ← encode_actions next_remote_id [] (take 64 (sc_actions scenario));
  fuzz_connection_state deliver others (sc_is_client scenario) (first :: rest).

End connection.

Section pass.
Context {TK : Tokio} {TKL : TokioLaws TK} {HI : HashIter} {HIL : HashIterLaws HI}.
Implicit Types w : World.

(** The state while the frames arrive. *)
Record feeding w : Prop := {
  fe_runs : runs fuzz_limits w;
  fe_open : w_supervisor w <> Joined
}.

Lemma feed_event e w w' : feeding w -> typed e = true -> e <> Join -> exec e w = Next w' ->
  feeding w' /\ ((forall i, e <> Reader i) -> w_reader w' = w_reader w).
Proof.
  intros [Hr Ho] Ht Hj He. assert (Hr' : runs fuzz_limits w') by (by eapply runs_event).
  destruct (is_last e) eqn:El.
  - destruct e; try done; unfold exec, exec_task in He.
    + destruct (w_reader w && _); [|done]. unfold perform in He. destruct (reader_step _ _) as [[] ?]; simplify_eq; split; try done; naive_solver.
    + destruct (w_supervisor w); try done. unfold perform in He. destruct (supervisor_deadline _) as [[] ?]; simplify_eq; by split.
  - pose proof (beside_exec e w El) as Hb. rewrite He in Hb. destruct Hb as [Hb1 Hb2]. split; [|done]. split; [done|].
    destruct Hb2 as [->| ->]; done.
Qed.

Lemma background_ok es w : feeding w ->
  exists w', run_background es w = Next w' /\ feeding w' /\ w_reader w' = w_reader w.
Proof.
  revert w. induction es as [|e es IH]; intros w Hf; simpl; [by exists w|]. destruct (background e) eqn:Hb; [|by apply IH].
  assert (Ht : typed e = true) by (by destruct e). assert (Hj : e <> Join) by (by destruct e).
  pose proof (safe_exec fuzz_limits e w (runs_inv _ _ (fe_runs _ Hf)) Ht) as Hs.
  destruct (exec e w) as [| |w1] eqn:He; [by apply IH|done|]. destruct (feed_event e w w1 Hf Ht Hj He) as [Hf1 Hr1].
  destruct (IH w1 Hf1) as (w' & ? & ? & Hr'). exists w'. split_and!; try done. rewrite Hr'. apply Hr1. by destruct e.
Qed.

(** An item for the reader, after which it has ended if it is the last one. *)
Lemma reader_gets item w : feeding w -> item <> RTerminated -> w_reader w = true ->
  let item' := if terminated (w_conn w) then RTerminated else item in
  exists w', exec (Reader item') w = Next w' /\ feeding w' /\ (item = REof -> w_reader w' = false).
Proof.
  intros Hf Hi Hr item'. assert (Hen : exec (Reader item') w = perform (reader_step item') w (fun r w' =>
    w' <| w_reader := default false r |> <| w_hist ::= name_item item' (w_conn w) (w_conn w') |>)).
  { unfold exec, exec_task, item_ready, item'. rewrite Hr. destruct (terminated (w_conn w)) eqn:E; [done|]. by destruct item. }
  pose proof (safe_exec fuzz_limits (Reader item') w (runs_inv _ _ (fe_runs _ Hf)) eq_refl) as Hs.
  destruct (exec (Reader item') w) as [| |w1] eqn:He; [|done|].
  { unfold perform in Hen. destruct (reader_step _ _) as [[] ?]; done. }
  exists w1. split; [done|]. split; [by apply (feed_event (Reader item') w)|]. intros ->.
  assert (Hend : item' = RTerminated \/ item' = REof) by (unfold item'; destruct (terminated _); auto).
  unfold perform, reader_step in Hen. cbv [mbind M_bind mret M_ret] in Hen.
  destruct Hend as [-> | ->]; simpl in Hen; destruct (mark_closed (w_conn w)) as [[] ?]; by simplify_eq.
Qed.

Lemma feed_ok others items w : feeding w -> Forall (fun i => i <> RTerminated) items ->
  exists w', feed others (items ++ [REof]) w = Next w' /\ feeding w' /\ w_reader w' = false.
Proof.
  intros Hf Hi. revert w Hf. induction Hi as [|item items Hi _ IH]; intros w Hf; cbn [app feed length].
  - destruct (background_ok (others 0%nat) w Hf) as (w1 & -> & Hf1 & Hr1). destruct (w_reader w1) eqn:E.
    + destruct (reader_gets REof w1 Hf1) as (w2 & -> & Hf2 & Hr2); [done..|]. exists w2. split_and!; [done..|by apply Hr2].
    + unfold exec, exec_task. rewrite E. simpl. by exists w1.
  - destruct (background_ok (others (length (items ++ [REof]))) w Hf) as (w1 & -> & Hf1 & Hr1). destruct (w_reader w1) eqn:E.
    + destruct (reader_gets item w1 Hf1) as (w2 & -> & Hf2 & Hr2); [done..|]. by apply IH.
    + unfold exec, exec_task. rewrite E. simpl. by apply IH.
Qed.

Lemma fuzz_unsigned : Limits.unsigned fuzz_limits.
Proof. unfold Limits.unsigned, fuzz_limits, Limits.default, Limits.from_secs; simpl; lia. Qed.

(** The limits of the target are valid where a semaphore takes 4096 permits. *)
Lemma fuzz_starts is_client : 4096 <= MAX_PERMITS -> exists s, connection_new fuzz_limits is_client = Ok s.
Proof.
  intros Hm. unfold connection_new. rewrite Limits.valid_validate; [by eexists| |apply fuzz_unsigned|].
  - apply max_permits_usize.
  - split; unfold Limits.MIN_FRAME_SIZE, u32_max; simpl; unfold from_secs; lia.
Qed.


End pass.

#[local] Existing Instance counting.
#[local] Existing Instance counting_laws.
#[local] Existing Instance hash_list.
#[local] Existing Instance hash_list_laws.

(** A peer that opens a stream, sends on it, and then sends what is no frame; the writer
    runs in between. *)
Definition demo_scenario : Scenario :=
  mkScenario true [AOpenNext; AStreamKnown 7 true [x61; x62]; AResetKnown 0 1; AClose 3 [xff; x61]; ARaw [xff]].

