(* ===== verification/Fade.v ===== *)
(** What the operations of a connection do to the bytes that wait to be read: nothing,
    but for those that receive, reset, read or discard them, and those touch one stream. *)

From S2P Require Import Prelude Hoare Buf Varint Utf8 Frames Errors Limits Flow Tokio.
From S2P Require Import ConnState Inbound InboundSpec Writer Connection Streams Tasks Halves System.

#[local] Open Scope Z_scope.

Section fade.
Context {TK : Tokio} {TKL : TokioLaws TK} {HI : HashIter} {HIL : HashIterLaws HI}.
Implicit Types (s : ConnectionShared) (st : StreamState).

(** ** One stream *)

(** The peer's side of the stream ended. *)
Definition over st : bool := fin_received (inbound st) || recv_terminal st.

(** What an operation leaves alone: the bytes, whether the stream is over, and the marks
    of a reset and of a reader that is gone. *)
Record Mode := mkMode { same_content : bool; same_over : bool; same_marks : bool }.
Definition strict : Mode := mkMode true true true.
Definition ending : Mode := mkMode true false true.
Definition receiving_data : Mode := mkMode false false true.
Definition reading : Mode := mkMode false true true.
Definition any : Mode := mkMode false false false.

Record fade (m : Mode) st st' : Prop := {
  fd_terminal : recv_terminal st = true -> recv_terminal st' = true;
  fd_content : same_content m = true -> content st' = content st;
  fd_over : same_over m = true -> over st' = true -> over st = true;
  fd_reset : same_marks m = true -> reset_error (inbound st') = reset_error (inbound st);
  fd_discarded : same_marks m = true -> recv_discarded st' = recv_discarded st;
  fd_dropped : same_marks m = true -> recv_dropped st' = true -> recv_dropped st = true;
  fd_mode : recv_mode st <> 0 -> recv_mode st' = recv_mode st
}.

#[export] Instance fade_preorder m : PreOrder (fade m).
Proof. split; [by intros st|]. intros x y z [] []. split; naive_solver congruence. Qed.

Lemma fade_weaken m st st' : fade strict st st' -> fade m st st'.
Proof. intros []. split; auto. Qed.

Lemma fade_any m st st' : fade m st st' -> fade any st st'.
Proof. intros []. by split. Qed.

Definition face st := (content st, fin_received (inbound st), reset_error (inbound st), recv_terminal st, recv_discarded st, recv_dropped st, recv_mode st).

Lemma fade_same m st st' : face st' = face st -> fade m st st'.
Proof. intros H. injection H as Hc Hf Hr Ht Hd Hp Hm. split; unfold over; rewrite ?Hc, ?Hf, ?Hr, ?Ht, ?Hd, ?Hp, ?Hm; auto. Qed.

(** ** The streams of a connection *)

Definition fresh_loc s : Prop := forall l, is_Some (heap s !! l) -> (l < next_loc s)%nat.

Record fades (f : loc -> Mode) s s' : Prop := {
  fs_fresh : fresh_loc s -> fresh_loc s';
  fs_next : (next_loc s <= next_loc s')%nat;
  fs_heap : fresh_loc s -> forall l st, heap s !! l = Some st -> exists st', heap s' !! l = Some st' /\ fade (f l) st st';
  fs_incoming : incoming_streams s' `sublist_of` incoming_streams s
}.

#[export] Instance fades_preorder f : PreOrder (fades f).
Proof.
  split.
  - intros s. split; try done. intros _ l st Hl. by exists st.
  - intros x y z [Hf Hn Hh Hi] [Hf' Hn' Hh' Hi']. split; [auto|lia| |by etransitivity].
    intros Hx l st Hl. destruct (Hh Hx l st Hl) as (st1 & Hl1 & H1). destruct (Hh' (Hf Hx) l st1 Hl1) as (st2 & Hl2 & H2).
    exists st2. split; [done|by etransitivity].
Qed.

Lemma fades_mono (f f' : loc -> Mode) s s' :
  (forall l st st', heap s !! l = Some st -> fade (f l) st st' -> fade (f' l) st st') -> fades f s s' -> fades f' s s'.
Proof.
  intros Hm [Hf Hn Hh Hi]. split; try done. intros Hx l st Hl. destruct (Hh Hx l st Hl) as (st' & ? & ?). exists st'. eauto.
Qed.

Lemma fades_at f s s' l st : fades f s s' -> fresh_loc s -> heap s !! l = Some st ->
  exists st', heap s' !! l = Some st' /\ fade (f l) st st'.
Proof. intros [_ _ Hh _] Hf. by apply Hh. Qed.

Definition only (l : loc) (m : Mode) : loc -> Mode := fun k => if decide (k = l) then m else strict.

Lemma fades_strict f s s' : fades (fun _ => strict) s s' -> fades f s s'.
Proof. apply fades_mono. intros. by apply fade_weaken. Qed.

(** A change of fields that do not matter here. *)
Lemma fades_fields f s s' : (next_loc s', heap s', incoming_streams s') = (next_loc s, heap s, incoming_streams s) -> fades f s s'.
Proof.
  intros H. injection H as Hn Hh Hi. split; unfold fresh_loc; rewrite ?Hn, ?Hh, ?Hi; try done. intros _ l st Hl. by exists st.
Qed.

Lemma fades_alter f l u s : (forall st, heap s !! l = Some st -> fade (f l) st (u st)) -> fades f s (s <| heap ::= alter u l |>).
Proof.
  intros Hu. split; simpl; try done.
  - intros Hf k Hk. apply Hf. simpl in Hk. destruct (decide (l = k)) as [<-|Hne]; [rewrite lookup_alter_eq in Hk; by apply fmap_is_Some in Hk|by rewrite lookup_alter_ne in Hk].
  - intros _ k st Hk. destruct (decide (l = k)) as [<-|Hne].
    + exists (u st). rewrite lookup_alter_eq, Hk. auto.
    + exists st. by rewrite lookup_alter_ne.
Qed.

Lemma fades_modify f u : (forall s, (next_loc (u s), heap (u s), incoming_streams (u s)) = (next_loc s, heap s, incoming_streams s)) ->
  respects (fades f) (modify u : Conn unit).
Proof. intros Hu. apply respects_modify. intros s. by apply fades_fields. Qed.

Lemma fades_upd f l u : (forall st, fade (f l) st (u st)) -> respects (fades f) (upd_state l u).
Proof. intros Hu. apply respects_modify. intros s. by apply fades_alter. Qed.

Lemma fades_run {A} f (m : Conn A) : (forall s, (next_loc (m s).2, heap (m s).2, incoming_streams (m s).2) = (next_loc s, heap s, incoming_streams s)) ->
  respects (fades f) m.
Proof. intros Hm s r s' Hrun. apply fades_fields. specialize (Hm s). by rewrite Hrun in Hm. Qed.

(** ** The operations *)

#[local] Hint Extern 2 (respects (fades _) (modify _)) => by apply fades_modify : half.
#[local] Hint Extern 2 (respects (fades _) (upd_queues _)) => by apply fades_modify : half.
#[local] Hint Extern 2 (respects (fades _) (notify _)) => by apply fades_modify : half.
#[local] Hint Extern 2 (respects (fades _) get_queues) => apply respects_gets; typeclasses eauto : half.
#[local] Hint Extern 2 (respects (fades _) (upd_state _ _)) => apply fades_upd; intros ?; by apply fade_same : half.
#[local] Hint Extern 2 (respects (fades _) (upd_inbound _ _)) => apply fades_upd; intros ?; by apply fade_same : half.

Lemma fades_conn_receive f n : respects (fades f) (conn_window_receive n).
Proof. apply fades_run. intros s. unfold conn_window_receive. by repeat case_match. Qed.
Lemma fades_conn_consume f n : respects (fades f) (conn_window_consume n).
Proof. apply fades_run. intros s. unfold conn_window_consume. by repeat case_match. Qed.
Lemma fades_take_conn f n : respects (fades f) (take_conn_permit n).
Proof. apply fades_run. intros s. unfold take_conn_permit. by repeat case_match. Qed.
Lemma fades_conn_update f : respects (fades f) conn_window_update.
Proof. apply fades_run. intros s. unfold conn_window_update. by repeat case_match. Qed.
Lemma fades_new_stream f p : respects (fades f) (new_stream p).
Proof.
  intros s r s' [= _ <-]. split; simpl; [|lia| |done].
  - intros Hf l Hl. simpl in Hl. destruct (decide (l = next_loc s)) as [->|Hne]; simpl; [lia|].
    rewrite lookup_insert_ne in Hl by done. specialize (Hf l Hl). lia.
  - intros Hf l st Hl. exists st. split; [|done]. rewrite lookup_insert_ne; [done|]. specialize (Hf l ltac:(by eexists)). lia.
Qed.
Lemma fades_acquire_stream f n l get u : (forall sem st, face (u sem st) = face st) ->
  respects (fades f) (acquire_from n get (fun sem s => s <| heap ::= alter (u sem) l |>)).
Proof.
  intros Hu s r s'. unfold acquire_from. repeat case_match; intros [= _ <-]; try done. apply fades_alter. intros st _. by apply fade_same.
Qed.
Lemma fades_acquire f n get put : (forall sem s, (next_loc (put sem s), heap (put sem s), incoming_streams (put sem s)) = (next_loc s, heap s, incoming_streams s)) ->
  respects (fades f) (acquire_from n get put).
Proof. intros Hp. apply fades_run. intros s. unfold acquire_from. repeat case_match; simpl; auto. Qed.
#[local] Hint Resolve fades_conn_receive fades_conn_consume fades_take_conn fades_conn_update fades_new_stream : half.
#[local] Hint Extern 2 (respects (fades _) (acquire_from _ _ _)) => by apply fades_acquire : half.
#[local] Hint Extern 3 (respects (fades _) (acquire_from _ _ _)) => by apply fades_acquire_stream : half.

(** Unfolding an operation and taking it apart. *)
#[local] Ltac fade_all :=
  repeat (respect; try match goal with
    | |- respects _ ?m => let rec head x := lazymatch x with ?f _ => head f | _ => x end in
        let h := head m in unfold h
    end).

Lemma fades_chunk_drop f c : respects (fades f) (chunk_drop c).
Proof. fade_all. Qed.
#[local] Hint Resolve fades_chunk_drop : half.
Lemma fades_drop_chunks f cs : respects (fades f) (drop_chunks cs).
Proof. induction cs; simpl; fade_all. Qed.
Lemma fades_drop_outbounds f cs : respects (fades f) (drop_outbounds cs).
Proof. induction cs; simpl; fade_all. Qed.
Lemma fades_mark_streams f ls : respects (fades f) (mark_streams_closed ls).
Proof. induction ls as [|[id l] ls IH]; simpl; fade_all. Qed.
#[local] Hint Resolve fades_drop_chunks fades_drop_outbounds fades_mark_streams : half.

Lemma fades_mark_closed f : respects (fades f) mark_closed.
Proof. fade_all. Qed.
Lemma fades_initiate_close f code reason : respects (fades f) (initiate_close code reason).
Proof. fade_all. Qed.
#[local] Hint Resolve fades_mark_closed fades_initiate_close : half.

Lemma fades_send_chunk f x : respects (fades f) (send_stream_chunk x).
Proof. fade_all. Qed.
#[local] Hint Resolve fades_send_chunk : half.

Lemma fades_find_update f ls : respects (fades f) (find_stream_update ls).
Proof. induction ls as [|[id l] ls IH]; simpl; fade_all. Qed.
Lemma fades_put_back f id cs n : respects (fades f) (put_back id cs n).
Proof. unfold put_back. respect; apply fades_modify; intros s; by repeat case_match. Qed.
#[local] Hint Resolve fades_put_back : half.
Lemma fades_data_loop f n a b c d : respects (fades f) (data_loop n a b c d).
Proof. induction n as [|n IH]; simpl; fade_all. Qed.
#[local] Hint Resolve fades_find_update fades_data_loop : half.
Lemma fades_next_frame f : respects (fades f) next_frame.
Proof.
  unfold next_frame. generalize 2%nat. intros n. induction n as [|n IH]; simpl; [by intros s r s' [= _ <-]|]. fade_all.
Qed.
#[local] Hint Resolve fades_next_frame : half.

(** ** Accepting *)

(** What [accept_bi] did when it returned a stream. *)
Lemma accept_run s p s' : accept_bi s = (Ok (Ready p), s') ->
  exists rest, incoming_streams s = p :: rest /\ incoming_streams s' = rest /\ fades (fun _ => strict) s s'.
Proof.
  unfold accept_bi, ensure_open. cbv [mbind M_bind gets bail_if]. destruct (closed s); [done|]. simpl.
  destruct (incoming_streams s) as [|[id l] rest] eqn:E; [done|]. intros [= <- <-]. exists rest. split_and!; try done.
  transitivity (s <| incoming_streams := rest |>);
    [|refine (fades_alter (fun _ => strict) l (fun st => st <| send_handles ::= (fun n => wrapping_add n 1) |>
        <| recv_handles ::= (fun n => wrapping_add n 1) |>) (s <| incoming_streams := rest |>) _); intros st _; by apply fade_same].
  split; simpl; try done; [intros _ k st Hk; by exists st|]. rewrite E. by apply sublist_cons.
Qed.

Lemma accept_other s r s' : accept_bi s = (r, s') -> (forall p, r <> Ok (Ready p)) -> s' = s.
Proof.
  unfold accept_bi, ensure_open. cbv [mbind M_bind gets bail_if]. destruct (closed s); simpl; [by intros [= <- <-]|].
  destruct (incoming_streams s) as [|[id l] rest]; [by intros [= <- <-]|]. intros [= <- <-] H. by edestruct H.
Qed.

(** ** The events that leave every stream alone *)

Lemma fades_joined f : respects (fades f) supervisor_joined.
Proof.
  unfold supervisor_joined. respect. apply respects_modify. intros s. split; simpl; try done; [|apply sublist_nil_l].
  intros _ l st Hl. by exists st.
Qed.
#[local] Hint Resolve fades_joined : half.

(** The events that receive, accept, read or discard. *)
Definition takes (e : Event) : bool :=
  match e with Accept | Reader _ | Cleanup | ReadChunk _ | PollRead _ _ | DropReceiver _ => true | _ => false end.

Definition calm (w : World) (x : Step) : Prop :=
  match x with Next w' => fades (fun _ => strict) (w_conn w) (w_conn w') | _ => True end.

Lemma calm_perform {A} (m : Conn A) w k : respects (fades (fun _ => strict)) m -> (forall r x, w_conn (k r x) = w_conn x) ->
  calm w (perform m w k).
Proof.
  intros Hm Hk. unfold perform. destruct (m (w_conn w)) as [[a|er|] s'] eqn:E; simpl; rewrite ?Hk; try done; by eapply Hm.
Qed.

Lemma calm_exec e w : takes e = false -> calm w (exec e w).
Proof.
  intros Hn. destruct e; try done; cbn [exec exec_app exec_stream exec_task]; unfold with_handle, with_sender, with_receiver, with_send;
    repeat case_match; try done; try (by apply fades_fields); apply calm_perform; try (intros ? ?; unfold writer_turned; repeat case_match; done); fade_all.
Qed.

(** ** The operations on one stream *)

Lemma only_self l m : only l m l = m.
Proof. unfold only. by rewrite decide_True. Qed.
Lemma only_other l m k : k <> l -> only l m k = strict.
Proof. intros H. unfold only. by rewrite decide_False. Qed.

#[local] Hint Extern 4 (respects (fades (only ?l _)) (upd_state ?l _)) =>
  apply fades_upd; intros ?; rewrite only_self; by split : half.
#[local] Hint Extern 4 (respects (fades (only ?l _)) (upd_inbound ?l _)) =>
  apply fades_upd; intros ?; rewrite only_self; by split : half.

(** *** Reading *)

Lemma fades_read_chunk l : respects (fades (only l reading)) (read_chunk l).
Proof.
  intros s r s' Hrun. unfold read_chunk in Hrun. destruct (heap s !! l) as [st|] eqn:Hl.
  2:{ unfold mbind, M_bind, get_state in Hrun. rewrite Hl in Hrun. injection Hrun as _ <-. done. }
  assert (Hg : get_state l s = (Ok st, s)) by (unfold get_state; by rewrite Hl).
  rewrite (bind_ok _ _ _ _ _ Hg) in Hrun. revert Hrun. destruct (reset_error (inbound st)); [by intros [= _ <-]|].
  assert (Hgo : forall u, (forall st, fade reading st (u st)) -> fades (only l reading) s (s <| heap ::= alter u l |>)).
  { intros u Hu. apply fades_alter. intros ? _. rewrite only_self. apply Hu. }
  destruct (chunks (inbound st)); [|intros [= _ <-]; by apply Hgo].
  destruct (fin_received (inbound st) || recv_terminal st) eqn:Ho; [|by destruct (connection_closed _); intros [= _ <-]].
  intros [= _ <-]. apply fades_alter. intros st' Hl'. assert (st' = st) as -> by congruence. rewrite only_self. by split.
Qed.
#[local] Hint Resolve fades_read_chunk : half.

Lemma fades_select_mode f l n : n <> 0 -> respects (fades f) (select_recv_mode l n).
Proof.
  intros Hn s r s'. unfold select_recv_mode, mbind, M_bind, get_state. destruct (heap s !! l) as [st|] eqn:Hl; [|by intros [= _ <-]].
  unfold lift, select_mode. destruct (Z.eqb_spec (recv_mode st) 0) as [H0|H0]; simpl.
  2: destruct (Z.eqb_spec (recv_mode st) n) as [H1|H1]; simpl; [|by intros [= _ <-]].
  all: intros [= _ <-]; apply fades_alter; intros st' Hl'; assert (st' = st) as -> by congruence; split; try done; simpl; congruence.
Qed.
#[local] Hint Extern 2 (respects (fades _) (select_recv_mode _ _)) => by apply fades_select_mode : half.

Lemma fades_recv_read h : respects (fades (only (rs_state h) reading)) (recv_read_chunk h).
Proof. fade_all. Qed.
Lemma fades_poll_read_fuel fuel l h n : rs_state h = l -> respects (fades (only l reading)) (poll_read_fuel fuel h n).
Proof.
  revert h. induction fuel as [|fuel IH]; intros h Hl; simpl; [by intros s r s' [= _ <-]|]. rewrite Hl. fade_all; by apply IH.
Qed.
#[local] Hint Resolve fades_poll_read_fuel : half.
Lemma fades_poll_read h n : respects (fades (only (rs_state h) reading)) (poll_read h n).
Proof. fade_all. Qed.
Lemma fades_drop_reader h : respects (fades (only (rs_state h) any)) (drop_reader h).
Proof. fade_all. Qed.

(** The interface a stream is read through. *)
Lemma recv_read_mode h s p s' st : heap s !! rs_state h = Some st -> recv_read_chunk h s = (Ok p, s') -> recv_mode st <> 2.
Proof.
  intros Hl H. apply bind_inv in H as (u & s1 & H & _). unfold select_recv_mode, mbind, M_bind, get_state in H. rewrite Hl in H.
  unfold lift, select_mode in H. intros Hm. by rewrite Hm in H.
Qed.

Lemma poll_read_mode h n s r s' st : fresh_loc s -> heap s !! rs_state h = Some st -> (recv_mode st =? 0) || (recv_mode st =? 2) = true ->
  poll_read h n s = (Ok r, s') -> exists st', heap s' !! rs_state h = Some st' /\ recv_mode st' = 2.
Proof.
  intros Hf Hl Hm H. apply bind_inv in H as (m & s1 & H1 & H).
  assert (Hs1 : s1 = s <| heap ::= alter (fun st => st <| recv_mode := 2 |>) (rs_state h) |> /\ m = IoOk tt).
  { unfold try_io, select_recv_mode, mbind, M_bind, get_state in H1. rewrite Hl in H1. unfold lift, select_mode in H1.
    destruct (Z.eqb_spec (recv_mode st) 0) as [H0|H0]; [injection H1 as <- <-; done|]. simpl in Hm. rewrite Hm in H1.
    apply Z.eqb_eq in Hm. rewrite Hm in H1. injection H1 as <- <-. done. }
  destruct Hs1 as [Hs1 ->]. assert (Hf1 : fresh_loc s1) by (eapply (fades_select_mode (fun _ => any) (rs_state h) 2); [done| |done];
    unfold try_io in H1; by destruct (select_recv_mode (rs_state h) 2 s) as [[]]; simplify_eq).
  assert (Hl1 : heap s1 !! rs_state h = Some (st <| recv_mode := 2 |>)) by (rewrite Hs1; simpl; by rewrite lookup_alter_eq, Hl).
  match type of H with ?k _ = _ => assert (Hk : respects (fades (only (rs_state h) reading)) k) by fade_all end.
  destruct (fades_at _ _ _ _ _ (Hk _ _ _ H) Hf1 Hl1) as (st' & Hl' & [_ _ _ _ _ _ Hmode]). exists st'. split; [done|]. by apply Hmode.
Qed.

(** *** Cleaning up: only streams whose reader is gone *)

Definition gone s (l : loc) : Mode :=
  match heap s !! l with Some st => if recv_dropped st then any else strict | None => strict end.
Definition cleans s s' : Prop := fades (gone s) s s'.

#[export] Instance cleans_preorder : PreOrder cleans.
Proof.
  split; [intros s; apply fades_preorder|]. intros x y z Hxy Hyz. pose proof Hxy as [Hf Hn Hh Hi]. pose proof Hyz as [Hf' Hn' Hh' Hi'].
  split; [auto|lia| |by etransitivity]. intros Hx l st Hl. destruct (Hh Hx l st Hl) as (st1 & Hl1 & H1).
  destruct (Hh' (Hf Hx) l st1 Hl1) as (st2 & Hl2 & H2). exists st2. split; [done|]. unfold gone in *. rewrite Hl in *. rewrite Hl1 in *.
  destruct (recv_dropped st) eqn:E; [by transitivity st1; [|apply fade_any with (m := if recv_dropped st1 then any else strict)]|].
  assert (recv_dropped st1 = false) as E1.
  { destruct (recv_dropped st1) eqn:E1; [|done]. by rewrite (fd_dropped _ _ _ H1 eq_refl E1) in E. }
  rewrite E1 in H2. by etransitivity.
Qed.

Lemma cleans_strict {A} (m : Conn A) : respects (fades (fun _ => strict)) m -> respects cleans m.
Proof. intros Hm s r s' Hrun. by eapply fades_strict, Hm. Qed.

Lemma fades_last_recv_drop id l : respects (fades (only l any)) (handle_last_recv_drop id l).
Proof. fade_all. Qed.
#[local] Hint Resolve fades_last_recv_drop : half.

Lemma cleans_recv_part id l : respects cleans (
  st ← get_state l;
  _ ← upd_state l (fun st => st <| recv_dropped := false |>);
  when (recv_dropped st) (handle_last_recv_drop id l)).
Proof.
  intros s r s' Hrun. destruct (heap s !! l) as [st|] eqn:Hl.
  2:{ unfold mbind, M_bind, get_state in Hrun. rewrite Hl in Hrun. injection Hrun as _ <-. done. }
  assert (Hg : get_state l s = (Ok st, s)) by (unfold get_state; by rewrite Hl).
  rewrite (bind_ok _ _ _ _ _ Hg) in Hrun. destruct (recv_dropped st) eqn:E.
  - assert (Hm : respects (fades (only l any)) (_ ← upd_state l (fun st => st <| recv_dropped := false |>); when true (handle_last_recv_drop id l))) by fade_all.
    eapply fades_mono; [|by eapply Hm]. intros k st0 st' Hk Hf. destruct (decide (k = l)) as [->|Hne].
    + rewrite only_self in Hf. unfold gone. assert (st0 = st) as -> by congruence. by rewrite Hl, E.
    + rewrite only_other in Hf by done. by apply fade_weaken.
  - assert (Hm : respects (fades (fun _ => strict)) (_ ← upd_state l (fun st => st <| recv_dropped := false |>); mret tt)).
    { respect. apply fades_upd. intros ?. by split. }
    eapply fades_strict. by eapply Hm.
Qed.

Lemma cleans_stream id l : respects cleans (cleanup_stream id l).
Proof.
  unfold cleanup_stream. do 3 (apply respects_bind; [typeclasses eauto|apply cleans_strict; fade_all|intros ?]). apply cleans_recv_part.
Qed.
Lemma cleans_pass : respects cleans cleanup_pass.
Proof.
  apply respects_bind; [typeclasses eauto|apply cleans_strict; fade_all|intros ss].
  induction (hash_iter ss) as [|[id l] ls IH]; simpl; [apply respects_ret; typeclasses eauto|].
  apply respects_bind; [typeclasses eauto|apply cleans_stream|done].
Qed.

(** *** Receiving *)

Lemma find_run id what s : find_stream id what s =
  (ok_or (Protocol (what +:+ " for unknown stream id " +:+ dec id)%string) (streams s !! id), s).
Proof. done. Qed.

Lemma stream_frame_fades id payload fin s r s' l : streams s !! id = Some l ->
  on_remote_stream_frame id payload fin s = (r, s') -> fades (only l receiving_data) s s'.
Proof.
  intros Hs Hrun. unfold on_remote_stream_frame in Hrun.
  assert (Hf : find_stream id "data" s = (Ok l, s)) by (rewrite find_run, Hs; done).
  rewrite (bind_ok _ _ _ _ _ Hf) in Hrun. cbv beta in Hrun.
  match type of Hrun with ?m s = _ => assert (Hm : respects (fades (only l receiving_data)) m) by fade_all end. by eapply Hm.
Qed.

(** A reset stream keeps no bytes and gets no more. *)
Definition was_reset st : Prop :=
  is_Some (reset_error (inbound st)) /\ recv_terminal st = true /\ content st = [].

Lemma mark_reset_run l code s u s' st : fresh_loc s -> heap s !! l = Some st -> mark_reset l code s = (Ok u, s') ->
  exists st', heap s' !! l = Some st' /\ is_Some (reset_error (inbound st')) /\ content st' = [] /\
    recv_discarded st' = recv_discarded st /\ (recv_dropped st' = true -> recv_dropped st = true).
Proof.
  intros Hfr Hl Hrun. unfold mark_reset in Hrun. assert (Hg : get_state l s = (Ok st, s)) by (unfold get_state; by rewrite Hl).
  rewrite (bind_ok _ _ _ _ _ Hg) in Hrun. cbv beta in Hrun. apply bind_inv in Hrun as ([] & s1 & Hs1 & Hrun).
  assert (Hf1 : fades (only l any) s s1) by (revert Hs1; apply (fades_upd (only l any)); intros ?; rewrite only_self; by split).
  injection Hs1 as <-.
  match type of Hrun with ?m _ = _ => assert (Hm : respects (fades (only l ending)) m) by fade_all end.
  destruct (fades_at _ _ _ l (st <| inbound ::= (fun i => i <| reset_error := Some code |> <| chunks := [] |>) |>) (Hm _ _ _ Hrun))
    as (st' & Hl' & Hst'); [by apply Hf1|simpl; by rewrite lookup_alter_eq, Hl|].
  rewrite only_self in Hst'. destruct Hst' as [_ Hc _ Hr Hd Hp]. exists st'. rewrite Hr, Hc, Hd by done. split_and!; try done. by apply Hp.
Qed.

Lemma terminal_run l s u s' st : heap s !! l = Some st -> mark_recv_terminal l s = (Ok u, s') ->
  exists st', heap s' !! l = Some st' /\ recv_terminal st' = true /\ fade ending st st'.
Proof. intros Hl [= _ <-]. simpl. rewrite !lookup_alter_eq, Hl. eexists. split; [done|]. split; [done|by split]. Qed.

Lemma remote_reset_run id code s u s' l st : fresh_loc s -> streams s !! id = Some l -> heap s !! l = Some st ->
  on_remote_reset id code s = (Ok u, s') -> fades (only l any) s s' /\
  exists st', heap s' !! l = Some st' /\ was_reset st' /\ recv_discarded st' = recv_discarded st /\
     (recv_dropped st' = true -> recv_dropped st = true).
Proof.
  intros Hfr Hs Hl Hrun. unfold on_remote_reset in Hrun.
  assert (Hf : find_stream id "reset" s = (Ok l, s)) by (rewrite find_run, Hs; done).
  rewrite (bind_ok _ _ _ _ _ Hf) in Hrun. cbv beta in Hrun. split.
  { match type of Hrun with ?m s = _ => assert (Hm : respects (fades (only l any)) m) by fade_all end. by eapply Hm. }
  assert (Hg : get_state l s = (Ok st, s)) by (unfold get_state; by rewrite Hl).
  rewrite (bind_ok _ _ _ _ _ Hg) in Hrun. apply bind_inv in Hrun as (? & s0 & [= _ <-] & Hrun).
  apply bind_inv in Hrun as (? & s1 & Hr1 & Hrun). apply bind_inv in Hrun as (? & s2 & Hr2 & Hrun).
  destruct (mark_reset_run l code s _ s1 st Hfr Hl Hr1) as (st1 & Hl1 & Hx & Hc & Hd & Hp).
  destruct (terminal_run l s1 _ s2 st1 Hl1 Hr2) as (st2 & Hl2 & Ht2 & H2).
  assert (Hm : respects (fades (only l any)) (_ ← mark_reset l code; mark_recv_terminal l)) by fade_all.
  assert (Hfr2 : fresh_loc s2) by (eapply Hm; [|done]; rewrite (bind_ok _ _ _ _ _ Hr1); exact Hr2).
  assert (Hm3 : respects (fades (fun _ => strict)) (try_retire_stream id)) by fade_all.
  destruct (fades_at _ _ _ l st2 (Hm3 _ _ _ Hrun) Hfr2 Hl2) as (st3 & Hl3 & H3). exists st3. split; [done|].
  destruct H2 as [_ C2 _ R2 D2 P2], H3 as [T3 C3 _ R3 D3 P3]. unfold was_reset.
  rewrite R3, R2, C3, C2, D3, D2 by done. split_and!; auto.
Qed.

(** The frames that concern the sending half, or all of the connection. *)
Definition on_stream (f : Frame) : bool :=
  match f with Stream _ _ _ | ResetStream _ _ | OpenStream _ => true | _ => false end.

Lemma fades_handle_other fr : on_stream fr = false -> respects (fades (fun _ => strict)) (handle_frame fr).
Proof. intros Hf. destruct fr; try done; fade_all. Qed.

(** Only OPEN_STREAM adds a stream that waits. *)
Lemma fades_handle_any fr : (forall id, fr <> OpenStream id) -> respects (fades (fun _ => any)) (handle_frame fr).
Proof.
  intros Hf. destruct fr; try (by edestruct Hf); fade_all.
  all: apply (fades_upd (fun _ => any)); intros st; by split.
Qed.

(** *** A stream opened by the peer *)

Definition untouched st : Prop :=
  content st = [] /\ over st = false /\ reset_error (inbound st) = None /\ recv_discarded st = false /\ recv_dropped st = false.

Lemma untouched_new a b p n : untouched (stream_state_new a b p n).
Proof. done. Qed.

Lemma remote_open_run id s r s' : on_remote_open id s = (r, s') ->
  s' = s \/ exists st, heap s' = <[next_loc s := st]> (heap s) /\ next_loc s' = S (next_loc s) /\ untouched st /\
    (incoming_streams s' = incoming_streams s \/ incoming_streams s' = incoming_streams s ++ [(id, next_loc s)]).
Proof.
  unfold on_remote_open.
  cbv [mbind M_bind gets bail_if lift modify or_drop_permit on_err drop_open_permit new_stream upd_queues notify fail mret M_ret].
  intros H. repeat case_match; simplify_eq; try (by auto); right; (eexists; split; [reflexivity|split; [reflexivity|split; [apply untouched_new|]]]);
    (by left) || (by right).
Qed.

Lemma open_run s id l s' : open_bi_admitted s = (Ok (Ready (id, l)), s') -> exists st, heap s' !! l = Some st /\ untouched st.
Proof.
  unfold open_bi_admitted. intros H. apply bind_inv in H as (sem & s1 & [= <- <-] & H).
  destruct (acquire_many 1 (open_streams s)) as [| |p sem]; try done.
  do 4 (apply bind_inv in H as (? & ? & _ & H)).
  match type of H with (if ?b then _ else _) _ = _ => destruct b end; [by do 2 (apply bind_inv in H as (? & ? & _ & H))|].
  apply bind_inv in H as (n & s1 & _ & H). apply bind_inv in H as (l0 & s2 & Hn & H). injection Hn as <- <-.
  apply bind_inv in H as (? & s3 & Hs3 & H). unfold or_drop_permit, on_err, lift in Hs3.
  destruct (proto_stream_id n); [injection Hs3 as _ <-|done..]. injection H as _ <- <-. simpl.
  rewrite lookup_alter_eq, lookup_insert_eq. by eexists.
Qed.

End fade.
