(* ===== verification/Delivery.v ===== *)
(** What the readers of a connection got, against what the peer sent: in every execution
    the bytes read from a stream, followed by those that wait to be read, are the bytes of
    the frames received for it. *)

From S2P Require Import Prelude Hoare Buf Varint Utf8 Frames Errors Limits Flow Tokio.
From S2P Require Import ConnState Inbound InboundSpec Writer WriterSpec Connection Streams Tasks.
From S2P Require Import ReceiveSpec ReadSpec ReceiveSystem ConnectionSpec Ledger SendSpec SendInv SendOps Halves.
From S2P Require Import SendPeer Duplex DuplexOps SendDuplex System SystemInv Fade.

#[local] Open Scope Z_scope.

Section delivery.
Context {TK : Tokio} {TKL : TokioLaws TK} {HI : HashIter} {HIL : HashIterLaws HI}.
Implicit Types (s : ConnectionShared) (st : StreamState) (w : World).

(** ** The history of an execution *)

(** The frames the reader handled, and the bytes the application read of each stream. *)
Record Receipt := mkReceipt { r_frames : list Frame; r_read : gmap loc bytes }.
#[global] Instance eta_Receipt : Settable Receipt := fun x => mkReceipt (r_frames x) (r_read x).
Implicit Types rc : Receipt.

Definition got rc (l : loc) : bytes := default [] (r_read rc !! l).

Definition frame_of (e : Event) : option Frame :=
  match e with
  | Reader (RFrame b) => match (Frame.decode b).1 with Ok f => Some f | _ => None end
  | _ => None
  end.
Definition read_of (e : Event) w : option (loc * bytes) :=
  match e with
  | ReadChunk k =>
      h ← w_receivers w !! k;
      match recv_read_chunk h (w_conn w) with (Ok (Ready (Some b)), _) => Some (rs_state h, b) | _ => None end
  | PollRead k room =>
      h ← w_receivers w !! k;
      match poll_read h room (w_conn w) with (Ok (_, Ready (IoOk b)), _) => Some (rs_state h, b) | _ => None end
  | _ => None
  end.

(** A frame is handled when the reader goes on after it. *)
Definition note (e : Event) w w' rc : Receipt :=
  mkReceipt (r_frames rc ++ if w_reader w' then option_list (frame_of e) else [])
    (match read_of e w with Some (l, b) => <[l := got rc l ++ b]> (r_read rc) | None => r_read rc end).

(** The executions, with their history. *)
Inductive history lim : World -> Receipt -> Prop :=
| history_new is_client keepalive s : Limits.unsigned lim -> connection_new lim is_client = Ok s ->
    history lim (world_new keepalive s) (mkReceipt [] ∅)
| history_event w e w' rc : history lim w rc -> typed e = true -> exec e w = Next w' -> history lim w' (note e w w' rc).

Lemma history_runs lim w rc : history lim w rc -> runs lim w.
Proof. induction 1; [by eapply runs_new|by eapply runs_event]. Qed.

(** ** The invariant *)

Definition data rc (id : Z) : bytes := sent_data id (r_frames rc).
Definition finished rc (id : Z) : bool := existsb (is_fin id) (r_frames rc).

(** What was read of a stream and what waits, against what was received. *)
Record follows (d : bytes) (fin : bool) (b : bytes) st : Prop := {
  fw_prefix : b ++ content st `prefix_of` d;
  fw_exact : reset_error (inbound st) = None -> b ++ content st = d;
  fw_reset : is_Some (reset_error (inbound st)) -> recv_terminal st = true;
  fw_over : over st = true -> reset_error (inbound st) = None -> fin = true;
  fw_discarded : recv_discarded st = false;
  fw_dropped : recv_dropped st = false
}.

(** The streams that can still be read: those that wait to be accepted, and those with a
    handle, which may hold a part of a chunk. *)
Definition slot : Type := Z * loc * bytes.
Definition waiting (i : Z * loc) : slot := (i.1, i.2, []).
Definition handled (h : RecvStream) : slot := (rs_stream_id h, rs_state h, chunk_bytes (hand h)).
Definition slots_of s (rs : list RecvStream) : list slot := map waiting (incoming_streams s) ++ map handled rs.
Definition slots w : list slot := slots_of (w_conn w) (w_receivers w).
Definition slot_loc (x : slot) : loc := x.1.2.

Definition slot_ok (names : gmap loc Z) s rc (x : slot) : Prop :=
  names !! slot_loc x = Some x.1.1 /\
  exists st, heap s !! slot_loc x = Some st /\
    follows (data rc x.1.1) (finished rc x.1.1) (got rc (slot_loc x) ++ x.2) st /\ (x.2 <> [] -> recv_mode st = 2).

Record delivery_at (names : gmap loc Z) s (xs : list slot) rc : Prop := {
  dv_nodup : NoDup (map slot_loc xs);
  dv_slots : Forall (slot_ok names s rc) xs;
  dv_read : forall l id, names !! l = Some id -> got rc l `prefix_of` data rc id;
  dv_unnamed : forall id, (forall l, names !! l <> Some id) -> data rc id = [];
  dv_unread : forall l, names !! l = None -> got rc l = []
}.
Definition delivery w rc : Prop := delivery_at (g_names (w_hist w)) (w_conn w) (slots w) rc.

(** ** Streams that are left alone *)

Lemma follows_fade d fin b st st' : fade strict st st' -> follows d fin b st -> follows d fin b st'.
Proof.
  intros [Ht Hc Ho Hr Hd Hp] [Fp Fe Fr Fo Fd Fdr]. specialize (Hc eq_refl). specialize (Hr eq_refl).
  split; rewrite ?Hc, ?Hr; try done.
  - intros Hx. by apply Ht, Fr.
  - intros Hx. by apply Fo, Ho.
  - by rewrite Hd.
  - destruct (recv_dropped st') eqn:E; [|done]. by rewrite Hp in Fdr.
Qed.

(** Nothing was received or read. *)
Definition same_receipt rc rc' : Prop :=
  (forall id, data rc' id = data rc id /\ finished rc' id = finished rc id) /\ (forall l, got rc' l = got rc l).

Lemma slot_fade names names' s s' rc rc' f x : slot_ok names s rc x -> fades f s s' -> fresh_loc s -> f (slot_loc x) = strict ->
  names ⊆ names' -> same_receipt rc rc' -> slot_ok names' s' rc' x.
Proof.
  intros [Hn (st & Hl & Hf & Hx)] Hs Hfr Hm Hsub [Hd Hg]. split; [by eapply lookup_weaken|].
  destruct (fades_at _ _ _ _ _ Hs Hfr Hl) as (st' & Hl' & Hst). rewrite Hm in Hst. exists st'. split; [done|].
  destruct (Hd x.1.1) as [-> ->]. rewrite Hg. split; [by eapply follows_fade|]. intros H. specialize (Hx H).
  rewrite (fd_mode _ _ _ Hst); lia.
Qed.

Lemma delivery_receipt names s xs rc rc' : delivery_at names s xs rc -> same_receipt rc rc' -> delivery_at names s xs rc'.
Proof.
  intros [Hn Hx Hr Hu Hg] Hs. pose proof Hs as [Hd Hgot]. split; try done.
  - eapply Forall_impl; [exact Hx|]. intros x [? (st & ? & Hf)]. split; [done|]. exists st. destruct (Hd x.1.1) as [-> ->]. by rewrite Hgot.
  - intros l id Hl. rewrite Hgot. destruct (Hd id) as [-> _]. by apply Hr.
  - intros id Hl. destruct (Hd id) as [-> _]. by apply Hu.
  - intros l Hl. rewrite Hgot. by apply Hg.
Qed.

(** The names only grow, and some streams may no longer be read. *)
Lemma delivery_fade names names' s s' xs xs' rc f : delivery_at names s xs rc -> fades f s s' -> fresh_loc s ->
  (forall x, x ∈ xs -> x ∈ xs' -> f (slot_loc x) = strict) -> names ⊆ names' -> xs' `sublist_of` xs -> delivery_at names' s' xs' rc.
Proof.
  intros [Hn Hx Hr Hu Hg] Hs Hfr Hm Hsub Hxs. split.
  - eapply sublist_NoDup; [exact Hn|by apply (fmap_sublist slot_loc)].
  - rewrite Forall_forall in *. intros x Hx'. assert (x ∈ xs) by (by eapply elem_of_sublist). eapply slot_fade; eauto. by split.
  - intros l id Hl. destruct (names !! l) as [id'|] eqn:E; [|rewrite (Hg l E); apply prefix_nil].
    assert (id' = id) as -> by (apply (lookup_weaken _ _ _ _ E) in Hsub; congruence). by apply Hr.
  - intros id Hl. apply Hu. intros l E. by apply (Hl l), (lookup_weaken _ _ _ _ E).
  - intros l Hl. apply Hg. by eapply lookup_weaken_None.
Qed.

(** ** Events *)

Context (lim : Limits).

Lemma world_names w : world_inv lim w -> names_ok (g_names (w_hist w)) (w_conn w).
Proof. intros [_ [[Hi _ _] _] _ _ _]. apply Hi. Qed.
Lemma world_fresh w : world_inv lim w -> fresh_loc (w_conn w).
Proof. intros Hn%world_names l Hl. by apply (nm_fresh _ _ Hn), (nm_dom _ _ Hn). Qed.

Lemma note_none e w w' rc : frame_of e = None -> read_of e w = None -> note e w w' rc = rc.
Proof. intros Hf Hr. unfold note. rewrite Hf, Hr. destruct (w_reader w'); simpl; rewrite app_nil_r; by destruct rc. Qed.

(** *** The events that leave every stream alone *)

Definition opens (e : Event) : bool := match e with Open | OpenResume => true | _ => false end.
Definition settles w (x : Step) : Prop :=
  match x with Next w' => w_receivers w' = w_receivers w /\ g_names (w_hist w') = g_names (w_hist w) | _ => True end.

Lemma settles_perform {A} (m : Conn A) w k :
  (forall r s, w_receivers (k r (w <| w_conn := s |>)) = w_receivers w /\ g_names (w_hist (k r (w <| w_conn := s |>))) = g_names (w_hist w)) ->
  settles w (perform m w k).
Proof. intros Hk. unfold perform. by destruct (m (w_conn w)) as [[] s']; [apply Hk..|]. Qed.

Lemma settles_exec e w : takes e = false -> opens e = false -> settles w (exec e w).
Proof.
  intros He Ho. destruct e; try done; cbn [exec exec_app exec_stream exec_task];
    unfold with_handle, with_sender, with_receiver, with_send; repeat case_match; try done;
    apply settles_perform; intros ? ?; unfold send_polled, handle_polled, noted, writer_turned; repeat case_match; simpl;
    rewrite ?record_names; done.
Qed.

Lemma slots_kept w w' : incoming_streams (w_conn w') `sublist_of` incoming_streams (w_conn w) -> w_receivers w' = w_receivers w ->
  slots w' `sublist_of` slots w.
Proof. intros Hi Hr. unfold slots, slots_of. rewrite Hr. apply sublist_app; [|done]. by apply (fmap_sublist waiting). Qed.

Lemma delivery_plain e w w' rc : world_inv lim w -> delivery w rc -> takes e = false -> opens e = false -> exec e w = Next w' ->
  delivery w' (note e w w' rc).
Proof.
  intros Hw Hd He Ho Hx. rewrite note_none by (by destruct e). pose proof (calm_exec e w He) as Hc. pose proof (settles_exec e w He Ho) as Hs.
  rewrite Hx in Hc, Hs. destruct Hs as [Hr Hn]. unfold delivery. rewrite Hn.
  eapply delivery_fade; [exact Hd|exact Hc|by apply world_fresh|done|done|]. apply slots_kept; [apply Hc|done].
Qed.

(** *** Opening *)

Lemma follows_untouched st : untouched st -> follows [] false [] st.
Proof. intros (Hc & Ho & Hr & Hd & Hp). split; rewrite ?Hc, ?Hr, ?Ho; try done. Qed.

(** A stream under a new name. *)
Lemma delivery_added names names' s s' xs xs' rc f id l st : delivery_at names s xs rc -> fades f s s' -> fresh_loc s ->
  (forall x, x ∈ xs -> f (slot_loc x) = strict) -> xs' `sublist_of` xs ->
  names !! l = None -> names' = <[l := id]> names -> (forall k, names !! k <> Some id) ->
  heap s' !! l = Some st -> untouched st -> delivery_at names' s' ((id, l, []) :: xs') rc.
Proof.
  intros Hd Hs Hfr Hm Hxs Hn -> Hid Hl Hst. assert (Hsub : names ⊆ <[l := id]> names) by (by apply insert_subseteq).
  pose proof (delivery_fade names (<[l := id]> names) s s' xs xs' rc f Hd Hs Hfr ltac:(auto) Hsub Hxs) as [Hn' Hx' Hr' Hu' Hg'].
  pose proof Hd as [_ Hx _ Hu Hg]. split; try done; simpl.
  - constructor; [|done]. intros (x & Hlx & Hx0)%list_elem_of_fmap. change (slot_loc (id, l, [])) with l in Hlx. rewrite Forall_forall in Hx.
    apply (elem_of_sublist _ _ _ Hx0) in Hxs. destruct (Hx x Hxs) as [Hnx _]. congruence.
  - constructor; [|done]. split; [apply lookup_insert_eq|]. exists st. split; [done|]. simpl. split; [|done].
    unfold data in Hu. unfold slot_loc; simpl. rewrite (Hg l Hn), (Hu id Hid : data rc id = []).
    destruct (follows_untouched st Hst). split; try done. unfold over in *. destruct Hst as (_ & Ho & _). unfold over in Ho. by rewrite Ho.
Qed.

Lemma delivery_perm names s xs xs' rc : xs ≡ₚ xs' -> delivery_at names s xs rc -> delivery_at names s xs' rc.
Proof. intros Hp [Hn Hx Hr Hu Hg]. split; try done; [by rewrite <- (Permutation_map slot_loc Hp)|by rewrite <- Hp]. Qed.

Lemma delivery_opened w s' id l rc : world_inv lim w -> delivery w rc -> fades (fun _ => strict) (w_conn w) s' ->
  names_ok (<[l := id]> (g_names (w_hist w))) s' -> g_names (w_hist w) !! l = None ->
  (exists st, heap s' !! l = Some st /\ untouched st) ->
  delivery (opened_stream id l (w <| w_conn := s' |>)) rc.
Proof.
  intros Hw Hd Hs Hnm Hl (st & Hst & Hu). unfold delivery. simpl.
  eapply (delivery_perm _ _ ((id, l, []) :: slots (w <| w_conn := s' |>))).
  { unfold slots, slots_of. simpl. by rewrite (Permutation_middle (map waiting (incoming_streams s'))). }
  eapply (delivery_added (g_names (w_hist w)) _ (w_conn w) s'); [exact Hd|exact Hs|by apply world_fresh|done| |done|done| |done|done].
  - apply slots_kept; [apply Hs|done].
  - intros k Hk. assert (k <> l) by congruence.
    assert (k = l); [|done]. eapply (nm_inj _ _ Hnm); [by rewrite lookup_insert_ne|by rewrite lookup_insert_eq].
Qed.

Lemma delivery_conn w w' rc : world_inv lim w -> delivery w rc -> fades (fun _ => strict) (w_conn w) (w_conn w') ->
  w_receivers w' = w_receivers w -> g_names (w_hist w') = g_names (w_hist w) -> delivery w' rc.
Proof.
  intros Hw Hd Hs Hr Hn. unfold delivery. rewrite Hn.
  eapply delivery_fade; [exact Hd|exact Hs|by apply world_fresh|done|done|]. apply slots_kept; [apply Hs|done].
Qed.

Lemma delivery_open_ready w rc id l s' n : world_inv lim w -> delivery w rc -> fades (fun _ => strict) (w_conn w) s' ->
  open_bi_admitted (w_conn w) = (Ok (Ready (id, l)), s') -> delivery (opened_stream id l (w <| w_conn := s' |> <| w_opening := n |>)) rc.
Proof.
  intros Hw Hd Hs Hrun. pose proof Hw as [Hv Hdx _ _ _].
  pose proof (wp_run _ _ _ _ _ _ Hrun (wp_open_bi lim _ _ _ _ Hv Hdx (world_on_heap lim w Hw))) as [[[Hi _ _] _] Hl].
  apply (delivery_opened w s' id l rc); [done..|apply Hi|done|by eapply open_run].
Qed.

Lemma delivery_open e w w' rc : world_inv lim w -> delivery w rc -> opens e = true -> exec e w = Next w' -> delivery w' (note e w w' rc).
Proof.
  intros Hw Hd He Hx. rewrite note_none by (by destruct e). assert (Hc : calm w (exec e w)) by (apply calm_exec; by destruct e).
  rewrite Hx in Hc. simpl in Hc. destruct e; try done; cbn [exec exec_app] in Hx.
  - unfold with_handle in Hx. destruct (0 <? _); [|done]. unfold perform in Hx.
    destruct (open_bi (w_conn w)) as [[[[id l]|]|er|] s'] eqn:E; try done; injection Hx as <-; [|by apply (delivery_conn w)..].
    apply bind_inv in E as (u & s1 & Hs1 & E). assert (s1 = w_conn w) as ->.
    { unfold ensure_open in Hs1. cbv [mbind M_bind gets bail_if] in Hs1. destruct (closed (w_conn w)); [done|by injection Hs1]. }
    by apply (delivery_open_ready w rc id l s' (w_opening w)).
  - destruct (w_opening w) as [|n]; [done|]. unfold perform in Hx.
    destruct (open_bi_admitted (w_conn w)) as [[[[id l]|]|er|] s'] eqn:E; try done; injection Hx as <-; [|by apply (delivery_conn w)..].
    by apply (delivery_open_ready w rc id l s' n).
Qed.

(** *** Accepting *)

Lemma delivery_accept w w' rc : world_inv lim w -> delivery w rc -> exec Accept w = Next w' -> delivery w' (note Accept w w' rc).
Proof.
  intros Hw Hd Hx. rewrite note_none by done. cbn [exec exec_app] in Hx. unfold with_handle in Hx. destruct (0 <? _); [|done]. unfold perform in Hx.
  destruct (accept_bi (w_conn w)) as [[[[id l]|]|er|] s'] eqn:E; try done; injection Hx as <-.
  2-3: assert (s' = w_conn w) as -> by (by eapply accept_other; [exact E|]); by destruct w.
  destruct (accept_run _ _ _ E) as (rest & Hi & Hi' & Hf). unfold delivery. simpl.
  apply (delivery_perm _ _ (slots w)).
  { unfold slots, slots_of. simpl. rewrite Hi, Hi'. simpl. by rewrite (Permutation_middle (map waiting rest)). }
  by eapply delivery_fade; [exact Hd|exact Hf|apply world_fresh|..].
Qed.

(** *** Cleaning up *)

Lemma delivery_cleanup w w' rc : world_inv lim w -> delivery w rc -> exec Cleanup w = Next w' -> delivery w' (note Cleanup w w' rc).
Proof.
  intros Hw Hd Hx. rewrite note_none by done. cbn [exec exec_task] in Hx. destruct (w_cleanup w); [|done].
  destruct (terminated (w_conn w)); [by injection Hx as <-|]. unfold perform in Hx.
  assert (Hc : forall r s', cleanup_pass (w_conn w) = (r, s') -> delivery (w <| w_conn := s' |>) rc).
  { intros r s' Hrun. pose proof (cleans_pass _ _ _ Hrun) as Hs. unfold delivery.
    eapply delivery_fade; [exact Hd|exact Hs|by apply world_fresh| |done|by apply slots_kept; [apply Hs|]].
    intros x Hxs _. pose proof (dv_slots _ _ _ _ Hd) as Hall. rewrite Forall_forall in Hall.
    destruct (Hall x Hxs) as (_ & st & Hl & Hf & _). unfold gone. by rewrite Hl, (fw_dropped _ _ _ _ Hf). }
  destruct (cleanup_pass (w_conn w)) as [[] s'] eqn:E; try done; injection Hx as <-; by eapply Hc.
Qed.

(** *** Reading *)

(** A step that concerns one stream. *)
Lemma delivery_one names s s' x x' xs xs' rc rc' m st' : delivery_at names s (x :: xs) rc -> fades (only (slot_loc x) m) s s' ->
  fresh_loc s -> xs' `sublist_of` xs -> x'.1 = x.1 ->
  (forall id, data rc' id = data rc id /\ finished rc' id = finished rc id) -> (forall l, l <> slot_loc x -> got rc' l = got rc l) ->
  heap s' !! slot_loc x = Some st' ->
  follows (data rc x.1.1) (finished rc x.1.1) (got rc' (slot_loc x) ++ x'.2) st' -> (x'.2 <> [] -> recv_mode st' = 2) ->
  delivery_at names s' (x' :: xs') rc'.
Proof.
  intros [Hn Hx Hr Hu Hg] Hs Hfr Hxs Hx' Hd Hgot Hl' Hf' Hm'. apply Forall_cons in Hx as [Hx0 Hx].
  inversion Hn as [|? ? Hn1 Hn2]; subst. pose proof Hx0 as [Hname _].
  assert (Hloc : slot_loc x' = slot_loc x) by (unfold slot_loc; by rewrite Hx').
  assert (Hne : forall y, y ∈ xs -> slot_loc y <> slot_loc x).
  { intros y Hy He. apply Hn1. rewrite <- He. by apply (list_elem_of_fmap_2 slot_loc). }
  split; simpl.
  - rewrite Hloc. eapply sublist_NoDup; [exact Hn|]. apply sublist_skip. by apply (fmap_sublist slot_loc).
  - constructor.
    + split; [by rewrite Hloc, Hx'|]. rewrite Hloc, Hx'. destruct (Hd x.1.1) as [-> ->]. by exists st'.
    + rewrite Forall_forall in *. intros y Hy. assert (Hy' : y ∈ xs) by (by eapply elem_of_sublist).
      destruct (Hx y Hy') as [Hny (st & Hl & Hf & Hm)]. split; [done|].
      destruct (fades_at _ _ _ _ _ Hs Hfr Hl) as (sty & Hly & Hst). rewrite only_other in Hst by auto. exists sty. split; [done|].
      destruct (Hd y.1.1) as [-> ->]. rewrite Hgot by auto. split; [by eapply follows_fade|]. intros H. specialize (Hm H).
      rewrite (fd_mode _ _ _ Hst); lia.
  - intros l id Hl. destruct (Hd id) as [-> _]. destruct (decide (l = slot_loc x)) as [->|Hne']; [|rewrite Hgot by done; by apply Hr].
    assert (id = x.1.1) as -> by congruence. etransitivity; [|apply (fw_prefix _ _ _ _ Hf')]. rewrite <- app_assoc. by apply prefix_app_r.
  - intros id Hl. destruct (Hd id) as [-> _]. by apply Hu.
  - intros l Hl. rewrite Hgot by congruence. by apply Hg.
Qed.

Lemma slots_at w k h : w_receivers w !! k = Some h ->
  slots w ≡ₚ handled h :: (map waiting (incoming_streams (w_conn w)) ++ map handled (delete k (w_receivers w))).
Proof.
  intros Hk. unfold slots, slots_of. apply delete_Permutation in Hk. rewrite (Permutation_map handled Hk) at 1. simpl. by rewrite Permutation_middle.
Qed.

Lemma follows_read d fin b b' st st' : follows d fin b st -> fade reading st st' -> b' ++ content st' = b ++ content st -> follows d fin b' st'.
Proof.
  intros [Fp Fe Fr Fo Fd Fdr] [Ht _ Ho Hr Hd Hp _] Hb. specialize (Hr eq_refl). split; rewrite ?Hb, ?Hr; try done.
  - intros Hx. by apply Ht, Fr.
  - intros Hx. by apply Fo, Ho.
  - by rewrite Hd.
  - destruct (recv_dropped st') eqn:E; [|done]. by rewrite Hp in Fdr.
Qed.

(** What an event read. *)
Definition grown rc (l : loc) (b : bytes) : Receipt := rc <| r_read ::= insert l (got rc l ++ b) |>.

Lemma got_grown rc l b : got (grown rc l b) l = got rc l ++ b.
Proof. unfold got at 1. simpl. by rewrite lookup_insert_eq. Qed.
Lemma got_other rc l b k : k <> l -> got (grown rc l b) k = got rc k.
Proof. intros Hk. unfold got. simpl. by rewrite lookup_insert_ne. Qed.

Lemma note_read e w w' rc l b : frame_of e = None -> read_of e w = Some (l, b) -> note e w w' rc = grown rc l b.
Proof. intros Hf Hr. unfold note. rewrite Hf, Hr. destruct (w_reader w'); simpl; by rewrite app_nil_r. Qed.

(** A handle after a read of [b]. *)
Lemma delivery_reader w k h h' s' rc b st st' : world_inv lim w -> delivery w rc -> w_receivers w !! k = Some h ->
  fades (only (rs_state h) reading) (w_conn w) s' -> heap (w_conn w) !! rs_state h = Some st -> heap s' !! rs_state h = Some st' ->
  rs_stream_id h' = rs_stream_id h -> rs_state h' = rs_state h -> unread h st = b ++ unread h' st' ->
  (chunk_bytes (hand h') <> [] -> recv_mode st' = 2) ->
  delivery_at (g_names (w_hist w)) s' (slots (w <| w_conn := s' |> <| w_receivers ::= insert k h' |>)) (grown rc (rs_state h) b).
Proof.
  intros Hw Hd Hk Hs Hl Hl' Hid Hst Hb Hm.
  assert (Hk' : <[k := h']> (w_receivers w) !! k = Some h') by (apply list_lookup_insert_eq; by eapply lookup_lt_Some).
  eapply delivery_perm; [symmetry; by apply (slots_at _ k h')|]. simpl. rewrite list_delete_insert.
  pose proof (delivery_perm _ _ _ _ _ (slots_at w k h Hk) Hd) as Hd0. pose proof (dv_slots _ _ _ _ Hd0) as Hall.
  apply Forall_cons in Hall as [(_ & st0 & Hl0 & Hf & _) _]. simpl in *. unfold slot_loc in *. simpl in *. assert (st0 = st) as -> by congruence.
  destruct (fades_at _ _ _ _ _ Hs (world_fresh w Hw) Hl) as (st1 & Hl1 & Hfd). assert (st1 = st') as -> by congruence. rewrite only_self in Hfd.
  eapply (delivery_one _ _ s' (handled h) (handled h')); [exact Hd0|exact Hs|by apply world_fresh| | | | |exact Hl'| |exact Hm].
  - apply sublist_app; [|done]. apply (fmap_sublist waiting), Hs.
  - unfold handled. simpl. congruence.
  - by intros id.
  - intros l Hne. by apply got_other.
  - simpl. unfold slot_loc. simpl. rewrite got_grown. eapply follows_read; [exact Hf|exact Hfd|]. unfold unread in Hb. by rewrite <- !app_assoc, Hb.
Qed.

Lemma grown_nil rc l : same_receipt (grown rc l []) rc.
Proof. split; [done|]. intros k. destruct (decide (k = l)) as [->|Hne]; [by rewrite got_grown, app_nil_r|by rewrite got_other]. Qed.

(** The state of a reader's stream. *)
Lemma reader_state w k h : world_inv lim w -> w_receivers w !! k = Some h ->
  exists st fl op, heap (w_conn w) !! rs_state h = Some st /\ recv_state fl op lim (w_conn w) (w_receivers w).
Proof.
  intros [_ [_ Hp] _ _ _] Hk. destruct (phase_state _ _ _ _ Hp) as (fl & op & Hr). pose proof (ri_readers _ _ _ _ _ Hr) as Hrd.
  destruct (Forall_lookup_1 _ _ _ _ Hrd Hk) as (st & Hl & _). by exists st, fl, op.
Qed.

Lemma delivery_read_chunk k w w' rc : world_inv lim w -> delivery w rc -> exec (ReadChunk k) w = Next w' ->
  delivery w' (note (ReadChunk k) w w' rc).
Proof.
  intros Hw Hd Hx. cbn [exec exec_stream] in Hx. unfold with_receiver in Hx. destruct (w_receivers w !! k) as [h|] eqn:Hk; [|done].
  destruct (reader_state w k h Hw Hk) as (st & fl & op & Hl & Hr).
  pose proof (wp_recv_read h st (w_conn w) _ (ri_acct _ _ _ _ _ Hr) Hl) as Hwp.
  assert (Hgo : forall b s' st', recv_read_chunk h (w_conn w) = (b, s') -> heap s' !! rs_state h = Some st' -> forall out,
    content st = out ++ content st' -> (out <> [] -> recv_mode st <> 2) -> delivery (w <| w_conn := s' |>) (grown rc (rs_state h) out)).
  { intros b s' st' Hrun Hl' out Hc Hmode. pose proof (fades_recv_read h _ _ _ Hrun) as Hs.
    destruct (fades_at _ _ _ _ _ Hs (world_fresh w Hw) Hl) as (st1 & Hl1 & Hfd). assert (st1 = st') as -> by congruence.
    pose proof (dv_slots _ _ _ _ (delivery_perm _ _ _ _ _ (slots_at w k h Hk) Hd)) as Hall.
    apply Forall_cons in Hall as [(_ & st0 & Hl0 & _ & Hm) _]. unfold slot_loc in Hl0. simpl in *. assert (st0 = st) as -> by congruence.
    pose proof (delivery_reader w k h h s' rc out st st' Hw Hd Hk Hs Hl Hl' eq_refl eq_refl) as Hdr. simpl in Hdr.
    unfold delivery, slots, slots_of in *. simpl in *. rewrite list_insert_id in Hdr by done.
    apply Hdr.
    - unfold unread. rewrite Hc. destruct out as [|b0 out]; [done|]. destruct (chunk_bytes (hand h)); [done|]. by destruct Hmode; [|apply Hm].
    - intros H. specialize (Hm H). rewrite (fd_mode _ _ _ Hfd); lia. }
  unfold perform, wp in *. destruct (recv_read_chunk h (w_conn w)) as [[p|er|] s'] eqn:E; [| |done]; injection Hx as <-.
  - pose proof (recv_read_mode h _ _ _ st Hl E) as Hmode. destruct Hwp as [_ (st' & Hl' & Hp)].
    assert (Hro : read_of (ReadChunk k) w = match p with Ready (Some b) => Some (rs_state h, b) | _ => None end).
    { simpl. rewrite Hk. simpl. rewrite E. by destruct p as [[]|]. }
    destruct p as [[b|]|].
    + rewrite (note_read _ _ _ _ (rs_state h) b) by done. by eapply Hgo.
    + rewrite note_none by done. eapply delivery_receipt; [|apply (grown_nil rc (rs_state h))]. eapply Hgo; [done..| |done]. destruct Hp as (-> & -> & _). done.
    + rewrite note_none by done. eapply delivery_receipt; [|apply (grown_nil rc (rs_state h))]. eapply Hgo; [done..| |done]. destruct Hp as (-> & ->). done.
  - rewrite note_none; [|done|simpl; rewrite Hk; simpl; by rewrite E]. destruct Hwp as [_ (st' & Hl' & Hc)].
    eapply delivery_receipt; [|apply (grown_nil rc (rs_state h))]. by eapply Hgo.
Qed.

(** A poll keeps the stream of its handle. *)
Definition yields {A} (P : A -> Prop) (m : Conn A) : Prop := forall s a s', m s = (Ok a, s') -> P a.
Lemma yields_bind {A C} (P : C -> Prop) (m : Conn A) (k : A -> Conn C) : (forall a, yields P (k a)) -> yields P (m ≫= k).
Proof. intros Hk s c s' (a & s1 & _ & H)%bind_inv. by eapply Hk. Qed.
Lemma yields_ret {A} (P : A -> Prop) (a : A) : P a -> yields P (mret a).
Proof. intros Ha s a' s' [= <- _]. done. Qed.

Lemma poll_fuel_id fuel h n id : rs_stream_id h = id -> yields (fun r => rs_stream_id r.1 = id) (poll_read_fuel fuel h n).
Proof.
  revert h. induction fuel as [|fuel IH]; intros h Hid; simpl; [by intros s a s'|].
  repeat (match goal with
    | |- yields _ (_ ≫= _) => apply yields_bind; intros ?
    | |- yields _ (mret _) => by apply yields_ret
    | |- yields _ (poll_read_fuel _ _ _) => by apply IH
    | |- yields _ (match ?x with _ => _ end) => destruct x
    end; simpl).
Qed.
Lemma poll_read_id h n : yields (fun r => rs_stream_id r.1 = rs_stream_id h) (poll_read h n).
Proof.
  apply yields_bind. intros [u|e]; [|by apply yields_ret]. destruct (n =? 0); [by apply yields_ret|].
  apply yields_bind. intros st. by apply poll_fuel_id.
Qed.

(** A poll without room only selects the interface. *)
Lemma poll_zero_run h s r s' : poll_read h 0 s = (Ok r, s') ->
  fades (fun _ => strict) s s' /\ r.1 = h /\ (forall b, r.2 = Ready (IoOk b) -> b = []).
Proof.
  intros H. apply bind_inv in H as (m & s1 & H1 & H). unfold try_io in H1.
  destruct (select_recv_mode (rs_state h) 2 s) as [[u|e|] s2] eqn:E; [| |done]; injection H1 as <- <-; injection H as <- <-;
    (split; [by eapply (fades_select_mode (fun _ => strict) (rs_state h) 2)|split; [done|]]); simpl; by intros b [= <-].
Qed.

Lemma delivery_poll_zero k w w' rc : world_inv lim w -> delivery w rc -> exec (PollRead k 0) w = Next w' ->
  delivery w' (note (PollRead k 0) w w' rc).
Proof.
  intros Hw Hd Hx. cbn [exec exec_stream] in Hx. unfold with_receiver in Hx. destruct (w_receivers w !! k) as [h|] eqn:Hk; [|done].
  pose proof Hw as [_ Hdx _ _ _]. pose proof (wp_poll_none lim _ _ _ _ h Hdx ltac:(by eapply list_elem_of_lookup_2)) as Hwp.
  unfold perform, wp in *. destruct (poll_read h 0 (w_conn w)) as [[[h' p]|er|] s'] eqn:E; [|done..]. injection Hx as <-. simpl.
  destruct (poll_zero_run h _ _ _ E) as (Hs & Hh & Hb). simpl in Hh, Hb. subst h'.
  assert (Hd' : delivery (w <| w_conn := s' |> <| w_receivers ::= insert k h |>) rc).
  { apply (delivery_conn w); [done..| |done]. simpl. by rewrite list_insert_id. }
  destruct (read_of (PollRead k 0) w) as [[l b]|] eqn:Ero; [|by rewrite note_none].
  rewrite (note_read _ _ _ _ l b) by done. simpl in Ero. rewrite Hk in Ero. simpl in Ero. rewrite E in Ero.
  destruct p as [[out|]|]; try done. injection Ero as <- <-. rewrite (Hb out eq_refl).
  eapply delivery_receipt; [exact Hd'|]. destruct (grown_nil rc (rs_state h)) as [? Hg]. split; [done|]. intros l. by rewrite Hg.
Qed.

Lemma delivery_poll k room w w' rc : world_inv lim w -> delivery w rc -> 0 < room -> exec (PollRead k room) w = Next w' ->
  delivery w' (note (PollRead k room) w w' rc).
Proof.
  intros Hw Hd Hroom Hx. cbn [exec exec_stream] in Hx. unfold with_receiver in Hx. destruct (w_receivers w !! k) as [h|] eqn:Hk; [|done].
  destruct (reader_state w k h Hw Hk) as (st & fl & op & Hl & Hr). pose proof (world_fresh w Hw) as Hfr.
  rewrite <- (take_drop_middle _ _ _ Hk) in Hr. destruct (inv_reads _ _ _ _ _ _ _ Hr) as (st0 & Hl0 & Hrd & Ha & _).
  assert (st0 = st) as -> by congruence. destruct (poll_read_ok fl h st _ _ room Ha Hl Hrd Hroom) as ([h' p] & s' & E & Hp).
  unfold perform in Hx. rewrite E in Hx. injection Hx as <-. simpl.
  pose proof (poll_read_id h room _ _ _ E) as Hid. simpl in Hid. pose proof (fades_poll_read h room _ _ _ E) as Hs.
  assert (Hro : read_of (PollRead k room) w = match p with Ready (IoOk b) => Some (rs_state h, b) | _ => None end).
  { simpl. rewrite Hk. simpl. rewrite E. by destruct p as [[]|]. }
  destruct ((recv_mode st =? 0) || (recv_mode st =? 2)) eqn:Hm.
  - destruct (poll_read_mode h room _ _ _ st Hfr Hl Hm E) as (st2 & Hl2 & Hm2). destruct Hp as (_ & _ & st' & Hl' & Hst & _ & Hp).
    assert (st2 = st') as -> by congruence.
    assert (Hgo : forall b, unread h st = b ++ unread h' st' ->
      delivery (w <| w_conn := s' |> <| w_receivers ::= insert k h' |>) (grown rc (rs_state h) b)).
    { intros b Hb. by apply (delivery_reader w k h h' s' rc b st st'). }
    destruct p as [[out|e]|].
    + rewrite (note_read _ _ _ _ (rs_state h) out) by done. by apply Hgo, Hp.
    + rewrite note_none by done. eapply delivery_receipt; [|apply (grown_nil rc (rs_state h))]. apply Hgo. by destruct Hp as [-> _].
    + rewrite note_none by done. eapply delivery_receipt; [|apply (grown_nil rc (rs_state h))]. apply Hgo. by destruct Hp as [-> ->].
  - destruct Hp as [-> (m & [= -> ->])]. rewrite note_none by done. apply (delivery_conn w); [done..| |done]. simpl. by rewrite list_insert_id.
Qed.

Lemma delivery_drop k w w' rc : world_inv lim w -> delivery w rc -> exec (DropReceiver k) w = Next w' ->
  delivery w' (note (DropReceiver k) w w' rc).
Proof.
  intros Hw Hd Hx. rewrite note_none by done. cbn [exec exec_stream] in Hx. unfold with_receiver in Hx.
  destruct (w_receivers w !! k) as [h|] eqn:Hk; [|done]. unfold perform in Hx.
  assert (Hgo : forall r s', drop_reader h (w_conn w) = (r, s') -> delivery (w <| w_conn := s' |> <| w_receivers ::= delete k |>) rc).
  { intros r s' Hrun. pose proof (fades_drop_reader h _ _ _ Hrun) as Hs. unfold delivery. simpl.
    pose proof (delivery_perm _ _ _ _ _ (slots_at w k h Hk) Hd) as Hd0.
    eapply delivery_fade; [exact Hd0|exact Hs|by apply world_fresh| |done|].
    - intros x _ Hx'. apply only_other. intros He. pose proof (dv_nodup _ _ _ _ Hd0) as Hnd. simpl in Hnd.
      apply NoDup_cons in Hnd as [Hnd _]. apply Hnd. change (slot_loc (handled h)) with (rs_state h). rewrite <- He. apply (list_elem_of_fmap_2 slot_loc). unfold slots, slots_of in Hx'. simpl in Hx'.
      eapply elem_of_sublist; [exact Hx'|]. apply sublist_app; [|done]. apply (fmap_sublist waiting), Hs.
    - apply sublist_cons. unfold slots, slots_of. simpl. apply sublist_app; [|done]. apply (fmap_sublist waiting), Hs. }
  destruct (drop_reader h (w_conn w)) as [[] s'] eqn:E; try done; injection Hx as <-; by eapply Hgo.
Qed.

End delivery.
