(* ===== verification/DeliveryReader.v ===== *)
(** The frames the reader handles, against the history of [Delivery]; and the invariant of
    [Delivery] in every execution. *)

From S2P Require Import Prelude Hoare Buf Varint Utf8 Frames Errors Limits Flow Tokio.
From S2P Require Import ConnState Inbound InboundSpec Writer WriterSpec Connection Streams Tasks.
From S2P Require Import ReceiveSpec ReadSpec ReceiveSystem ConnectionSpec Ledger SendSpec SendInv SendOps Halves.
From S2P Require Import SendPeer Duplex DuplexOps SendDuplex System SystemInv Fade Delivery.

#[local] Open Scope Z_scope.

Section reader.
Context {TK : Tokio} {TKL : TokioLaws TK} {HI : HashIter} {HIL : HashIterLaws HI}.
Context (lim : Limits) (Hlim : Limits.Valid MAX_PERMITS lim).
Implicit Types (s : ConnectionShared) (st : StreamState) (w : World) (rc : Receipt) (g : Ghost).

(** ** The history *)

Definition add_frame (f : Frame) rc : Receipt := rc <| r_frames ::= (fun l => l ++ [f]) |>.

Lemma data_add f rc id : data (add_frame f rc) id = data rc id ++ frame_data id f.
Proof. unfold data, sent_data. simpl. rewrite map_app, concat_app. simpl. by rewrite app_nil_r. Qed.
Lemma finished_add f rc id : finished (add_frame f rc) id = finished rc id || is_fin id f.
Proof. unfold finished. simpl. rewrite existsb_app. simpl. by rewrite orb_false_r. Qed.
Lemma got_add f rc l : got (add_frame f rc) l = got rc l.
Proof. done. Qed.

Lemma same_add f rc : (forall i fin p, f <> Stream i fin p) -> same_receipt rc (add_frame f rc).
Proof.
  intros Hf. split; [|done]. intros id. rewrite data_add, finished_add.
  destruct f; simpl; rewrite ?app_nil_r, ?orb_false_r; try done. by edestruct Hf.
Qed.

(** ** Data *)

Lemma follows_data d fin0 fin b st st' payload : follows d fin0 b st -> recv_terminal st = false ->
  content st' = content st ++ payload -> over st' = fin -> reset_error (inbound st') = reset_error (inbound st) ->
  recv_discarded st' = false -> recv_dropped st' = false -> follows (d ++ payload) (fin0 || fin) b st'.
Proof.
  intros [Fp Fe Fr Fo Fd Fdr] Ht Hc Ho Hr Hd Hp.
  assert (Hx : reset_error (inbound st) = None).
  { destruct (reset_error (inbound st)) eqn:E; [|done]. rewrite Fr in Ht; [done|by eexists]. }
  split; rewrite ?Hc, ?Hr, ?Hx, ?app_assoc, ?(Fe Hx); try done.
  intros Hov _. rewrite Ho in Hov. rewrite Hov. apply orb_true_r.
Qed.

Lemma delivery_data names s s' xs xs' rc f l id st st' payload fin : delivery_at names s xs rc -> fades (only l receiving_data) s s' -> fresh_loc s ->
  (forall l l' k, names !! l = Some k -> names !! l' = Some k -> l = l') -> names !! l = Some (inner id) ->
  f = Stream id fin payload -> heap s !! l = Some st -> heap s' !! l = Some st' -> recv_terminal st = false ->
  (recv_discarded st = false -> content st' = content st ++ payload) -> over st' = fin ->
  xs' `sublist_of` xs -> delivery_at names s' xs' (add_frame f rc).
Proof.
  intros [Hn Hx Hr Hu Hg] Hs Hfr Hinj Hl -> Hst Hst' Ht Hc Ho Hxs. split.
  - eapply sublist_NoDup; [exact Hn|by apply (fmap_sublist slot_loc)].
  - rewrite Forall_forall in *. intros x Hx'. assert (Hin : x ∈ xs) by (by eapply elem_of_sublist).
    destruct (Hx x Hin) as [Hnx (st0 & Hl0 & Hf & Hm)]. split; [done|].
    destruct (fades_at _ _ _ _ _ Hs Hfr Hl0) as (st1 & Hl1 & Hfd). exists st1. split; [done|].
    assert (Hmode : x.2 <> [] -> recv_mode st1 = 2) by (intros H; specialize (Hm H); rewrite (fd_mode _ _ _ Hfd); lia). split; [|done].
    rewrite data_add, finished_add, got_add. simpl. destruct (decide (slot_loc x = l)) as [He|Hne].
    + assert (x.1.1 = inner id) as Hid by congruence. assert (st0 = st) as -> by congruence. assert (st1 = st') as -> by congruence.
      rewrite Hid, bool_decide_true by done. simpl. rewrite He, only_self in Hfd. destruct Hfd as [_ _ _ Hre Hdi Hdr _].
      pose proof Hf as [_ _ _ _ Fd Fdr]. rewrite Hid in Hf. eapply follows_data; [rewrite <- He; exact Hf|done|by apply Hc|done|by apply Hre|by rewrite Hdi|].
      destruct (recv_dropped st') eqn:E; [|done]. by rewrite Hdr in Fdr.
    + assert (inner id <> x.1.1) by (intros Hid; apply Hne; eapply Hinj; [exact Hnx|congruence]).
      rewrite bool_decide_false by done. rewrite app_nil_r, orb_false_r. rewrite only_other in Hfd by done. by eapply follows_fade.
  - intros k id' Hk. rewrite data_add, got_add. by apply prefix_app_r, Hr.
  - intros id' Hk. rewrite data_add, Hu by done. simpl. rewrite bool_decide_false; [done|]. intros <-. by apply (Hk l).
  - intros k Hk. by apply Hg.
Qed.

(** ** One frame *)

Lemma names_of b g hs rs s : duplex lim b g hs rs s -> names_ok (g_names g) s.
Proof. intros [[Hi _ _] _]. apply Hi. Qed.
Lemma fresh_of b g hs rs s : duplex lim b g hs rs s -> fresh_loc s.
Proof. intros Hn%names_of l Hl. by apply (nm_fresh _ _ Hn), (nm_dom _ _ Hn). Qed.

(** The slots that are left. *)
Lemma slots_less s s' rs : incoming_streams s' `sublist_of` incoming_streams s -> slots_of s' rs `sublist_of` slots_of s rs.
Proof. intros Hi. unfold slots_of. apply sublist_app; [|done]. by apply (fmap_sublist waiting). Qed.

(** An open connection, and a stream of it. *)
Lemma phase_open g hs rs s id l : duplex lim true g hs rs s -> streams s !! id = Some l ->
  recv_inv lim s rs /\ is_Some (heap s !! l).
Proof.
  intros [_ Hp] Hs. unfold phase in Hp. destruct (cleanup_started s); [destruct Hp as (He & _); by rewrite He in Hs|].
  destruct Hp as (fl & Hfl & Hr). rewrite Hfl in Hr by done. split; [done|by eapply (ri_valid _ _ _ _ _ Hr)].
Qed.

Lemma delivery_stream_frame g hs rs s rc id fin payload r s' : duplex lim true g hs rs s ->
  delivery_at (g_names g) s (slots_of s rs) rc -> zlen payload <= u64_max ->
  on_remote_stream_frame (inner id) payload fin s = (r, s') ->
  match r with
  | Ok _ => delivery_at (g_names g) s' (slots_of s' rs) (add_frame (Stream id fin payload) rc)
  | Err _ => delivery_at (g_names g) s' (slots_of s' rs) rc
  | Panic => True
  end.
Proof.
  intros Hd Hv Hlen Hrun. pose proof (fresh_of _ _ _ _ _ Hd) as Hfr. destruct (streams s !! inner id) as [l|] eqn:Hs.
  - destruct (phase_open _ _ _ _ _ _ Hd Hs) as [Hr [st Hl]].
    pose proof (wp_stream_frame (inner id) l st s _ payload fin (ri_acct _ _ _ _ _ Hr) Hs Hl (inv_receiving _ _ _ _ _ Hr Hl) Hlen) as Hw.
    pose proof (stream_frame_fades _ _ _ _ _ _ _ Hs Hrun) as Hf. unfold wp in Hw. rewrite Hrun in Hw. destruct r as [u|e|]; [| |done].
    + destruct Hw as (_ & (Ht & _) & [(st' & Hl' & Hc & Hfin & Hterm & _) _ _]).
      eapply (delivery_data _ s s'); [exact Hv|exact Hf|done|apply (names_of _ _ _ _ _ Hd)|by apply (nm_streams _ _ (names_of _ _ _ _ _ Hd))|
        done|exact Hl|exact Hl'|done| | |by apply slots_less, Hf].
      * intros Hdis. by rewrite Hc, Hdis.
      * unfold over. rewrite Hfin, Hterm. by destruct fin.
    + assert (Hs' : heap s' = heap s /\ incoming_streams s' = incoming_streams s) by (by destruct Hw). destruct Hs' as [Hh Hi].
      destruct Hv as [Hn Hx Hrd Hu Hg]. unfold slots_of. rewrite Hi. split; try done.
      eapply Forall_impl; [exact Hx|]. intros x. unfold slot_ok. by rewrite Hh.
  - unfold on_remote_stream_frame, mbind, M_bind in Hrun. rewrite find_run, Hs in Hrun. simpl in Hrun. by injection Hrun as <- <-.
Qed.

(** A reset that fails changes nothing. *)
Lemma reset_failed g hs rs s id code e s' : duplex lim true g hs rs s -> on_remote_reset id code s = (Err e, s') -> s' = s.
Proof.
  intros Hd Hrun. destruct (streams s !! id) as [l|] eqn:Hs.
  2:{ unfold on_remote_reset, mbind, M_bind in Hrun. rewrite find_run, Hs in Hrun. simpl in Hrun. by injection Hrun as <-. }
  destruct (phase_open _ _ _ _ _ _ Hd Hs) as [Hr [st Hl]].
  assert (Hw : wp (on_remote_reset id code) s (fun _ _ => True) (fun _ s' => s' = s)); [|unfold wp in Hw; by rewrite Hrun in Hw].
  unfold on_remote_reset, find_stream. wp_step. wp_step. wp_step. rewrite Hs. simpl ok_or. wp_step. wp_step. apply (wp_get_state l st); [done|].
  unfold ensure_peer_send_open. wp_step. destruct (recv_terminal st); wp_step; [done|]. wp_step.
  eapply (wp_mark_reset (fl := idle)); [apply Hr|done|]. intros s1 [Ha1 Hev1] Hs1.
  destruct (heap s1 !! l) as [st1|] eqn:Hl1; [|by destruct (eo_heap _ _ Hev1 l); rewrite ?Hl in *].
  eapply (wp_finish_recv id l st1 s1 _ true); [exact Ha1|by rewrite Hs1|done|done].
Qed.

Lemma delivery_reset_frame g hs rs s rc id code r s' : duplex lim true g hs rs s ->
  delivery_at (g_names g) s (slots_of s rs) rc -> on_remote_reset id code s = (r, s') -> r <> Panic ->
  delivery_at (g_names g) s' (slots_of s' rs) rc.
Proof.
  intros Hd Hv Hrun Hp. pose proof (fresh_of _ _ _ _ _ Hd) as Hfr. destruct r as [u|e|]; [|by apply (reset_failed g hs rs) in Hrun as ->|done].
  destruct (streams s !! id) as [l|] eqn:Hs.
  2:{ unfold on_remote_reset, mbind, M_bind in Hrun. by rewrite find_run, Hs in Hrun. }
  destruct (phase_open _ _ _ _ _ _ Hd Hs) as [Hr [st Hl]].
  destruct (remote_reset_run _ _ _ _ _ _ _ Hfr Hs Hl Hrun) as [Hf (st' & Hl' & (Hre & Ht & Hc) & Hdi & Hdr)].
  destruct Hv as [Hn Hx Hrd Hu Hg]. assert (Hxs : slots_of s' rs `sublist_of` slots_of s rs) by (by apply slots_less, Hf). split; try done.
  - eapply sublist_NoDup; [exact Hn|by apply (fmap_sublist slot_loc)].
  - rewrite Forall_forall in *. intros x Hx'. assert (Hin : x ∈ slots_of s rs) by (by eapply elem_of_sublist).
    destruct (Hx x Hin) as [Hnx (st0 & Hl0 & Hfo & Hm)]. split; [done|].
    destruct (fades_at _ _ _ _ _ Hf Hfr Hl0) as (st1 & Hl1 & Hfd). exists st1. split; [done|].
    split; [|intros H; specialize (Hm H); rewrite (fd_mode _ _ _ Hfd); lia]. destruct (decide (slot_loc x = l)) as [He|Hne].
    + assert (st0 = st) as -> by congruence. assert (st1 = st') as -> by congruence. destruct Hfo as [Fp _ _ _ Fd Fdr].
      split; rewrite ?Hc, ?Hdi; try done.
      * rewrite app_nil_r. etransitivity; [|exact Fp]. by apply prefix_app_r.
      * intros He'. by rewrite He' in Hre; destruct Hre.
      * intros _ He'. by rewrite He' in Hre; destruct Hre.
      * destruct (recv_dropped st') eqn:E; [|done]. by rewrite Hdr in Fdr.
    + rewrite only_other in Hfd by done. by eapply follows_fade.
Qed.

Definition injective (names : gmap loc Z) : Prop := forall l l' k, names !! l = Some k -> names !! l' = Some k -> l = l'.

Lemma delivery_open_frame g hs rs s rc id r s' : duplex lim true g hs rs s ->
  delivery_at (g_names g) s (slots_of s rs) rc -> on_remote_open id s = (r, s') -> injective (g_names (renamed id s s' g)) ->
  delivery_at (g_names (renamed id s s' g)) s' (slots_of s' rs) rc.
Proof.
  intros Hd Hv Hrun Hinj. pose proof (fresh_of _ _ _ _ _ Hd) as Hfr. pose proof (names_of _ _ _ _ _ Hd) as Hnm.
  destruct (remote_open_run _ _ _ _ Hrun) as [->|(st & Hh & Hn & Hst & Hi)]; [by rewrite renamed_same|].
  assert (Hnew : heap s !! next_loc s = None).
  { destruct (heap s !! next_loc s) eqn:E; [|done]. specialize (Hfr (next_loc s) ltac:(by eexists)). lia. }
  assert (Hname : g_names g !! next_loc s = None).
  { destruct (g_names g !! next_loc s) eqn:E; [|done]. specialize (nm_fresh _ _ Hnm (next_loc s) ltac:(by eexists)). lia. }
  assert (Hf : fades (fun _ => strict) s (s' <| incoming_streams := incoming_streams s |>)).
  { split; simpl; rewrite ?Hn; [|lia| |done].
    - intros _ l Hl. simpl in Hl. rewrite Hh in Hl. simpl. rewrite ?Hn.
      destruct (decide (l = next_loc s)) as [->|Hne]; [lia|]. rewrite lookup_insert_ne in Hl by done. specialize (Hfr l Hl). lia.
    - intros _ l st0 Hl. exists st0. split; [|done]. rewrite Hh, lookup_insert_ne; [done|]. intros <-. congruence. }
  unfold renamed in *. rewrite decide_False in * by (rewrite Hn; lia). simpl in *.
  assert (Hid : forall k, g_names g !! k <> Some id).
  { intros k Hk. assert (k <> next_loc s) by congruence. assert (k = next_loc s); [|done].
    eapply Hinj; [by rewrite lookup_insert_ne|by rewrite lookup_insert_eq]. }
  assert (Hheap : forall names xs, delivery_at names (s' <| incoming_streams := incoming_streams s |>) xs rc -> delivery_at names s' xs rc).
  { by intros names xs []. }
  destruct Hi as [Hi|Hi]; unfold slots_of; rewrite Hi; apply Hheap.
  - eapply delivery_fade; [exact Hv|exact Hf|done|done|by apply insert_subseteq|done].
  - eapply delivery_perm; [|eapply (delivery_added _ _ s _ _ (slots_of s rs) rc _ id (next_loc s) st);
      [exact Hv|exact Hf|done|done|done|done|done|done|simpl; by rewrite Hh, lookup_insert_eq|done]].
    unfold slots_of. rewrite map_app. simpl. rewrite <- app_assoc. simpl. by rewrite (Permutation_middle (map waiting (incoming_streams s))).
Qed.

(** ** All frames *)

Lemma delivery_frame g hs rs s rc f r s' : duplex lim true g hs rs s -> delivery_at (g_names g) s (slots_of s rs) rc ->
  (forall id fin p, f = Stream id fin p -> zlen p <= u64_max) -> handle_frame f s = (r, s') -> r <> Panic ->
  injective (g_names (name_frame f s s' g)) ->
  delivery_at (g_names (name_frame f s s' g)) s' (slots_of s' rs) (match r with Ok true => add_frame f rc | _ => rc end).
Proof.
  intros Hd Hv Hlen Hrun Hp Hinj. pose proof (fresh_of _ _ _ _ _ Hd) as Hfr.
  assert (Hkeep : on_stream f = false -> delivery_at (g_names g) s' (slots_of s' rs) (match r with Ok true => add_frame f rc | _ => rc end)).
  { intros Hf. pose proof (fades_handle_other f Hf _ _ _ Hrun) as Hs.
    assert (Hv' : delivery_at (g_names g) s' (slots_of s' rs) rc).
    { eapply delivery_fade; [exact Hv|exact Hs|done|done|done|by apply slots_less, Hs]. }
    destruct r as [[]| |]; try done. eapply delivery_receipt; [exact Hv'|]. apply same_add. intros i fin p ->. done. }
  destruct (on_stream f) eqn:Ef; [|assert (Hg : name_frame f s s' g = g) by (by destruct f); rewrite Hg; by apply Hkeep]. clear Hkeep.
  unfold handle_frame in Hrun. rewrite (bind_ok get_queues _ s (queues s) s eq_refl) in Hrun. cbv beta in Hrun.
  destruct (negb (is_settings f) && negb (peer_settings (queues s))) eqn:Eb.
  { cbv [mbind M_bind bail_if fail] in Hrun. injection Hrun as <- <-. assert (Hg : name_frame f s s g = g) by (by destruct f; simpl; rewrite ?renamed_same).
    by rewrite Hg. }
  match type of Hrun with (?m ≫= _) s = _ => rewrite (bind_ok m _ s tt s eq_refl) in Hrun end. destruct f as [id fin payload|id code|id| | | | | |]; try done; simpl in *.
  - destruct (on_remote_stream_frame (VarInt.into_inner id) payload fin s) as [r1 s1] eqn:E.
    pose proof (delivery_stream_frame g hs rs s rc id fin payload r1 s1 Hd Hv ltac:(by eapply Hlen) E) as Hx.
    unfold mbind, M_bind in Hrun. rewrite E in Hrun. destruct r1; [| |by injection Hrun as <-]; by injection Hrun as <- <-.
  - destruct (on_remote_reset (VarInt.into_inner id) (ErrorCode.into_inner code) s) as [r1 s1] eqn:E.
    assert (Hx : r1 <> Panic -> delivery_at (g_names g) s1 (slots_of s1 rs) rc) by (intros ?; by eapply delivery_reset_frame).
    unfold mbind, M_bind in Hrun. rewrite E in Hrun. destruct r1; [| |by injection Hrun as <-]; injection Hrun as <- <-; [|by apply Hx].
    eapply delivery_receipt; [by apply Hx|]. by apply same_add.
  - destruct (on_remote_open (VarInt.into_inner id) s) as [r1 s1] eqn:E. unfold mbind, M_bind in Hrun. rewrite E in Hrun.
    assert (Hs1 : s' = s1) by (destruct r1; by injection Hrun). subst s1.
    pose proof (delivery_open_frame g hs rs s rc (inner id) r1 s' Hd Hv E Hinj) as Hx.
    destruct r1; [| |by injection Hrun as <-]; injection Hrun as <-; [|done]. eapply delivery_receipt; [exact Hx|]. by apply same_add.
Qed.

(** ** The reader *)

Lemma name_frame_sub f s s2 s' g : g_names g !! next_loc s = None ->
  (forall id, f = OpenStream id -> (next_loc s <= next_loc s2)%nat) -> (next_loc s2 <= next_loc s')%nat ->
  g_names (name_frame f s s2 g) ⊆ g_names (name_frame f s s' g).
Proof.
  intros Hn H2 H'. destruct f; try done. simpl. specialize (H2 _ eq_refl). unfold renamed.
  destruct (decide (next_loc s2 = next_loc s)) as [He|Hne].
  - case_decide; [done|]. by apply insert_subseteq.
  - rewrite decide_False by lia. done.
Qed.

Lemma injective_sub (names names' : gmap loc Z) : names ⊆ names' -> injective names' -> injective names.
Proof. intros Hs Hi l l' k Hl Hl'. eapply Hi; by eapply lookup_weaken. Qed.

Lemma handle_open_next f s r s' id : f = OpenStream id -> handle_frame f s = (r, s') -> (next_loc s <= next_loc s')%nat.
Proof.
  intros -> Hrun. unfold handle_frame in Hrun. rewrite (bind_ok get_queues _ s (queues s) s eq_refl) in Hrun. cbv beta in Hrun.
  destruct (negb (is_settings (OpenStream id)) && negb (peer_settings (queues s))).
  { cbv [mbind M_bind bail_if fail] in Hrun. by injection Hrun as _ <-. }
  match type of Hrun with (?m ≫= _) s = _ => rewrite (bind_ok m _ s tt s eq_refl) in Hrun end. cbv beta in Hrun.
  unfold mbind, M_bind in Hrun. destruct (on_remote_open (VarInt.into_inner id) s) as [r1 s1] eqn:E.
  assert (s' = s1) as -> by (destruct r1; by injection Hrun). destruct (remote_open_run _ _ _ _ E) as [->|(st & _ & -> & _)]; lia.
Qed.

(** A frame, and what the reader does after it. *)
Lemma delivery_handled g hs rs s rc f r s2 s' : duplex lim true g hs rs s -> on_heap s hs -> Frame.wf f ->
  delivery_at (g_names g) s (slots_of s rs) rc -> (forall id fin p, f = Stream id fin p -> zlen p <= u64_max) ->
  handle_frame f s = (r, s2) -> fades (fun _ => strict) s2 s' -> injective (g_names (name_frame f s s' g)) ->
  delivery_at (g_names (name_frame f s s' g)) s' (slots_of s' rs) (match r with Ok true => add_frame f rc | _ => rc end).
Proof.
  intros Hd Hh Hwf Hv Hlen Hrun Hs Hinj. pose proof (names_of _ _ _ _ _ Hd) as Hnm.
  assert (Hname : g_names g !! next_loc s = None).
  { destruct (g_names g !! next_loc s) eqn:E; [|done]. specialize (nm_fresh _ _ Hnm (next_loc s) ltac:(by eexists)). lia. }
  assert (Hsub : g_names (name_frame f s s2 g) ⊆ g_names (name_frame f s s' g)).
  { apply name_frame_sub; [done| |apply Hs]. intros id Hid. by eapply handle_open_next. }
  pose proof (wp_handle_frame lim Hlim g hs rs s f Hd Hh Hwf Hlen) as Hw. unfold wp in Hw. rewrite Hrun in Hw.
  assert (Hp : r <> Panic) by (by intros ->).
  assert (Hfr2 : fresh_loc s2) by (destruct r; [by eapply fresh_of..|done]).
  pose proof (delivery_frame g hs rs s rc f r s2 Hd Hv Hlen Hrun Hp (injective_sub _ _ Hsub Hinj)) as Hv2.
  eapply delivery_fade; [exact Hv2|exact Hs|done|done|exact Hsub|by apply slots_less, Hs].
Qed.

Lemma catch_run {A} (m : Conn A) k s a s' : catch m k s = (Ok a, s') ->
  m s = (Ok a, s') \/ exists e s1, m s = (Err e, s1) /\ k e s1 = (Ok a, s').
Proof. unfold catch. destruct (m s) as [[b|e|] s1] eqn:E; intros H; [left; congruence|right; by eexists _, _|done]. Qed.

Lemma fades_fail_closed code reason : respects (fades (fun _ => strict)) (_ ← ignore (initiate_close code reason); mret false).
Proof.
  apply respects_bind; [typeclasses eauto| |intros _; apply respects_ret; typeclasses eauto]. apply respects_ignore, fades_initiate_close.
Qed.

(** What [reader_item] does with a frame. *)
Lemma reader_frame_run bs s b s1 : reader_item (RFrame bs) s = (Ok b, s1) ->
  exists s0, next_loc s0 = next_loc s /\ heap s0 = heap s /\ incoming_streams s0 = incoming_streams s /\ record_received (zlen bs) s = (Ok tt, s0) /\
    match (Frame.decode bs).1 with
    | Ok f => exists r s2, handle_frame f s0 = (r, s2) /\ fades (fun _ => strict) s2 s1 /\ (b = true -> r = Ok true) /\ (r = Ok true -> b = true)
    | _ => fades (fun _ => strict) s0 s1 /\ b = false
    end.
Proof.
  intros H. apply bind_inv in H as (u & s0 & H0 & H). exists s0. destruct u. split_and!; try done; try (by injection H0 as <-).
  unfold handle_incoming_frame in H. destruct (Frame.decode bs).1 as [f|e|] eqn:E; cbn [map_err] in H.
  - exists (handle_frame f s0).1, (handle_frame f s0).2. split; [by destruct (handle_frame f s0)|].
    apply catch_run in H as [H|(e & s2 & H & Hk)].
    + change (handle_frame f s0 = (Ok b, s1)) in H. rewrite H. simpl. split_and!; [done|congruence..].
    + change (handle_frame f s0 = (Err e, s2)) in H. rewrite H. simpl.
      pose proof (fades_fail_closed _ _ _ _ _ Hk) as Hf. apply bind_inv in Hk as (? & ? & _ & [= <- _]). done.
  - apply catch_run in H as [H|(e' & s2 & H & Hk)]; [done|]. injection H as _ <-.
    pose proof (fades_fail_closed _ _ _ _ _ Hk) as Hf. apply bind_inv in Hk as (? & ? & _ & [= <- _]). done.
  - apply catch_run in H as [H|(e' & s2 & H & Hk)]; done.
Qed.

Lemma delivery_reader_step g hs rs s rc item b s' : duplex lim true g hs rs s -> on_heap s hs ->
  delivery_at (g_names g) s (slots_of s rs) rc -> reader_step item s = (Ok b, s') -> injective (g_names (name_item item s s' g)) ->
  delivery_at (g_names (name_item item s s' g)) s' (slots_of s' rs)
    (if b then match frame_of (Reader item) with Some f => add_frame f rc | None => rc end else rc).
Proof.
  intros Hd Hh Hv Hrun Hinj. pose proof (fresh_of _ _ _ _ _ Hd) as Hfr.
  apply bind_inv in Hrun as (b1 & s1 & Hitem & Hrun). apply bind_inv in Hrun as (u & s2 & Hm & Hret). injection Hret as -> ->.
  assert (Hs1 : fades (fun _ => strict) s1 s').
  { revert Hm. apply (respects_when (fades (fun _ => strict))). apply fades_mark_closed. }
  assert (Hquiet : fades (fun _ => strict) s s1 -> name_item item s s' g = g -> (if b then frame_of (Reader item) else None) = None ->
    delivery_at (g_names (name_item item s s' g)) s' (slots_of s' rs)
      (if b then match frame_of (Reader item) with Some f => add_frame f rc | None => rc end else rc)).
  { intros H1 Hn Hf. rewrite Hn. assert (Hs : fades (fun _ => strict) s s') by (by etransitivity).
    assert (Hv' : delivery_at (g_names g) s' (slots_of s' rs) rc) by (eapply delivery_fade; [exact Hv|exact Hs|done|done|done|by apply slots_less, Hs]).
    destruct b; [|done]. by rewrite Hf. }
  destruct item as [bs| | | |]; try (apply Hquiet; [by injection Hitem as _ <-|done|by destruct b]).
  2:{ apply Hquiet; [by eapply fades_fail_closed|done|by destruct b]. }
  destruct (reader_frame_run _ _ _ _ Hitem) as (s0 & Hn0 & Hh0 & Hi0 & H0 & Hrest). simpl in Hinj, Hquiet |- *.
  destruct (Frame.decode_cases bs) as [(e & rest & Hdec)|(f & Hdec & Hwf & Hfit & _)]; rewrite Hdec in *; simpl in Hrest, Hinj, Hquiet |- *.
  { apply Hquiet; [|done|by destruct b]. destruct Hrest as [Hf _]. etransitivity; [|exact Hf]. apply fades_fields. congruence. }
  clear Hquiet. pose proof (wp_record_received lim true g hs rs s (zlen bs) (fun _ _ => False) Hd) as Hw.
  unfold wp in Hw. rewrite H0 in Hw. destruct Hw as (Hd0 & _). destruct Hrest as (r & s2 & Hrun & Hf2 & Hb & Hb').
  assert (Hname : name_frame f s s' g = name_frame f s0 s' g) by (destruct f; simpl; unfold renamed; by rewrite ?Hn0).
  rewrite Hname in *. assert (Hv0 : delivery_at (g_names g) s0 (slots_of s0 rs) rc).
  { unfold slots_of in *. rewrite Hi0. destruct Hv as [? Hx ? ? ?]. split; try done. eapply Forall_impl; [exact Hx|]. intros x. unfold slot_ok. by rewrite Hh0. }
  pose proof (delivery_handled g hs rs s0 rc f r s2 s' Hd0) as Hgo.
  assert (Hrc : (if b then add_frame f rc else rc) = match r with Ok true => add_frame f rc | _ => rc end).
  { destruct b; [by rewrite Hb|]. destruct r as [[]| |]; try done. by specialize (Hb' eq_refl). }
  rewrite Hrc. apply Hgo; [unfold on_heap; by rewrite Hh0|done|done| |done|by etransitivity|done].
  intros id fin p ->. simpl in Hfit. rewrite VarInt.MAX_eq in Hfit. unfold u64_max. lia.
Qed.

End reader.

(** ** Every execution *)

Section history.
Context {TK : Tokio} {TKL : TokioLaws TK} {HI : HashIter} {HIL : HashIterLaws HI}.
Context (lim : Limits).
Implicit Types (s : ConnectionShared) (w : World) (rc : Receipt).

Lemma note_frame item w w' rc : note (Reader item) w w' rc =
  if w_reader w' then match frame_of (Reader item) with Some f => add_frame f rc | None => rc end else rc.
Proof.
  unfold note, add_frame. simpl. destruct rc, (w_reader w'); simpl; [|by rewrite app_nil_r].
  destruct item; simpl; rewrite ?app_nil_r; try done. by destruct (Frame.decode b).1; simpl; rewrite ?app_nil_r.
Qed.

Lemma delivery_reader_event item w w' rc : world_inv lim w -> delivery w rc -> exec (Reader item) w = Next w' ->
  delivery w' (note (Reader item) w w' rc).
Proof.
  intros Hw Hd Hx. pose proof (safe_exec lim (Reader item) w Hw eq_refl) as Hw'. rewrite Hx in Hw'. simpl in Hw'.
  rewrite note_frame. cbn [exec exec_task] in Hx. destruct (w_reader w && _); [|done]. pose proof Hw as [Hv Hdx _ _ _].
  pose proof (wp_reader_step lim Hv _ _ _ _ item Hdx (world_on_heap lim w Hw)) as Hwp. unfold wp, perform in *.
  destruct (reader_step item (w_conn w)) as [[b|e|] s'] eqn:E; [|done..]. injection Hx as <-.
  exact (delivery_reader_step lim Hv (w_hist w) _ (w_receivers w) (w_conn w) rc item b s' Hdx (world_on_heap lim w Hw) Hd E
    (nm_inj _ _ (world_names lim _ Hw'))).
Qed.

Lemma delivery_event e w w' rc : world_inv lim w -> delivery w rc -> typed e = true -> exec e w = Next w' -> delivery w' (note e w w' rc).
Proof.
  intros Hw Hd Ht Hx. destruct (takes e) eqn:Et.
  - destruct e; try done; [by eapply delivery_accept|by eapply delivery_read_chunk| |by eapply delivery_drop|by apply delivery_reader_event|by eapply delivery_cleanup].
    simpl in Ht. destruct (decide (room = 0)) as [->|]; [by eapply delivery_poll_zero|eapply delivery_poll; [done..|lia|done]].
  - destruct (opens e) eqn:Eo; [by eapply delivery_open|by eapply delivery_plain].
Qed.

Lemma history_delivery w rc : history lim w rc -> delivery w rc.
Proof.
  induction 1 as [is_client keepalive s Hu Hn|w e w' rc Hh IH Ht He].
  - assert (Hi : incoming_streams s = []).
    { unfold connection_new in Hn. do 4 (apply bind_ok_iff in Hn as (? & _ & Hn)). by injection Hn as <-. }
    unfold delivery, slots, slots_of. simpl. rewrite Hi. split; try done; constructor.
  - eapply delivery_event; [|done..]. by apply runs_inv, (history_runs _ _ rc).
Qed.

End history.
