(* ===== verification/Events.v ===== *)
(** What an event leaves behind on the wire: only the writer adds frames, all of them well
    formed, and the reader never starts again. *)

From S2P Require Import Prelude Hoare Buf Varint Utf8 Frames Errors Limits Flow Tokio.
From S2P Require Import ConnState Inbound InboundSpec Writer WriterSpec Scheduler Connection Streams Tasks.
From S2P Require Import ReceiveSpec ReadSpec ReceiveSystem ConnectionSpec Ledger SendSpec SendInv SendOps Halves.
From S2P Require Import SendPeer Duplex DuplexOps SendDuplex System SystemInv SystemSpec.

#[local] Open Scope Z_scope.

Section events.
Context {TK : Tokio} {HI : HashIter}.

(** ** One event *)

Lemma perform_inv {A} (m : Conn A) w k w' : perform m w k = Next w' ->
  exists r s, w' = k r (w <| w_conn := s |>) /\
    match r with Some a => m (w_conn w) = (Ok a, s) | None => exists e, m (w_conn w) = (Err e, s) end.
Proof. unfold perform. destruct (m (w_conn w)) as [[a|e|] s]; intros [= <-]; [exists (Some a), s|exists None, s]; eauto. Qed.

End events.

(** An event that happened, taken apart into its call and what the world made of it. *)
Ltac event_inv H :=
  repeat match type of H with
  | (match ?x with _ => _ end) = Next _ => destruct x eqn:?; try done
  end;
  try (apply perform_inv in H as (? & ? & -> & ?));
  repeat match goal with |- context [match ?x with _ => _ end] => destruct x eqn:? end.

Section quiet.
Context {TK : Tokio} {HI : HashIter}.

Definition is_writer (e : Event) : bool := match e with Writer _ => true | _ => false end.

Lemma trace_record id s s' g : g_trace (record id s s' g) = g_trace g.
Proof. unfold record. by destruct (took id s s'). Qed.

Lemma trace_renamed id s s' g : g_trace (renamed id s s' g) = g_trace g.
Proof. unfold renamed. by case_decide. Qed.

Lemma trace_item item s s' g : g_trace (name_item item s s' g) = g_trace g.
Proof.
  destruct item as [b| | | |]; try done. simpl. destruct (Frame.decode b).1 as [[]| |]; try done. apply trace_renamed.
Qed.

Lemma exec_quiet e w w' : is_writer e = false -> exec e w = Next w' ->
  w_wire w' = w_wire w /\ g_trace (w_hist w') = g_trace (w_hist w) /\ (w_reader w' = true -> w_reader w = true).
Proof.
  intros He H. destruct e; try done; simpl in H; unfold with_handle, with_sender, with_receiver, with_send in H;
    event_inv H; simplify_eq; simpl; rewrite ?trace_record, ?trace_item; try done.
  split_and!; try done. intros _. by match goal with E : _ && _ = true |- _ => apply andb_true_iff in E as [? _] end.
Qed.

Lemma exec_reader e w w' : exec e w = Next w' -> w_reader w' = true -> w_reader w = true.
Proof.
  destruct (is_writer e) eqn:E; [|intros; by eapply (exec_quiet e w w')]. destruct e; try done. simpl.
  intros (r & s & -> & _)%perform_inv. unfold writer_turned. by repeat case_match.
Qed.

Lemma exec_wire e w w' : exec e w = Next w' -> w_wire w `prefix_of` w_wire w'.
Proof.
  destruct (is_writer e) eqn:E; [|intros H; by rewrite (proj1 (exec_quiet e w w' E H))]. destruct e; try done. simpl.
  intros (r & s & -> & _)%perform_inv. unfold writer_turned. repeat case_match; simpl; try done. all: by apply prefix_app_r.
Qed.

End quiet.

Section sent.
Context {TK : Tokio} {TKL : TokioLaws TK} {HI : HashIter} {HIL : HashIterLaws HI}.

(** ** The frames on the wire can be decoded *)

Definition sendable_frame (f : Frame) : Prop := Frame.wf f /\ Frame.fits f.

Lemma taken_frame lim ok g hs rs s f b s' : duplex lim true g hs rs s ->
  writer_turn ok WriterIdle s = (Ok (WriterSending f b), s') -> sendable_frame f.
Proof.
  intros Hd H. pose proof (sv_writer _ _ (fu_inv _ _ _ _ (dx_send _ _ _ _ _ _ Hd))) as Hw. simpl in H.
  apply bind_inv in H as (p & s1 & Hp & H). pose proof (wp_run _ _ _ _ _ _ Hp (wp_next_frame s Hw)) as Ho. simpl in Ho.
  destruct p as [[f'|]|]; [|by injection H..]. destruct (outcome_fits s f' s1 Hw Ho) as (Hwf & n & Hn & _).
  rewrite (encode_wf f' n Hn) in H. injection H as <- _ _. split; [done|by eapply Frame.encoded_len_fits].
Qed.

Lemma runs_sendable lim w : runs lim w -> Forall sendable_frame (g_trace (w_hist w)).
Proof.
  induction 1 as [? ? s _ _|w e w' Hr IH Ht He]; [constructor|].
  destruct (is_writer e) eqn:E; [|by rewrite (proj1 (proj2 (exec_quiet e w w' E He)))]. destruct e; try done. simpl in He.
  apply perform_inv in He as (r & s & -> & Hrun). pose proof (runs_inv _ _ Hr) as [_ Hd _ _ _].
  unfold writer_turned. destruct r as [t|]; [|done]. destruct (w_writer w) eqn:Ew; try (repeat case_match; done).
  destruct t; try done. simpl. apply Forall_app. split; [done|]. constructor; [by eapply taken_frame|done].
Qed.

Lemma wire_sendable lim w f : runs lim w -> f ∈ w_wire w -> sendable_frame f.
Proof.
  intros Hr Hf. pose proof (runs_sendable _ _ Hr) as Ha. rewrite Forall_forall in Ha. apply Ha.
  destruct (wire_prefix _ _ (runs_inv _ _ Hr)) as [k ->]. set_solver.
Qed.

End sent.
