(* ===== verification/Books.v ===== *)
(** The books of a connection: the bytes sent and received, and the credit given and got,
    for the connection and for each stream.  They change only when the writer takes a
    frame or the reader handles one. *)

From S2P Require Import Prelude Hoare Buf Varint Utf8 Frames Errors Limits Flow Tokio.
From S2P Require Import ConnState Inbound InboundSpec Writer Connection Streams Tasks Halves System Fade.

#[local] Open Scope Z_scope.

Section books.
Context {TK : Tokio} {TKL : TokioLaws TK} {HI : HashIter} {HIL : HashIterLaws HI}.
Implicit Types (s : ConnectionShared) (st : StreamState).

(** ** The entries *)

(** What the writer accounts for: bytes sent, and credit given to the peer; the bytes
    that a stream sent are those of its frames ([ss_total]). *)
Definition out_conn s := (limits s, sent (queues s), advertised (receive_window s)).
Definition out_stream st := advertised (st_window st).
(** What the reader accounts for: credit got from the peer, bytes received, and the end
    of the peer's side. *)
Definition in_conn s := (peer_settings (queues s), peer_limit (queues s), peer_initial_stream_limit (queues s),
  peer_max_frame (queues s), received (receive_window s)).
Definition in_stream st := (st_peer_limit st, received (st_window st), recv_terminal st).

(** A location not in use has the entries of a new stream. *)
Definition stream_credit_given s : Z := as_u64 (max_inbound_stream_bytes (limits s)).
Definition out_at s (l : loc) := from_option out_stream (stream_credit_given s) (heap s !! l).
Definition in_at s (l : loc) := from_option in_stream (0, 0, false) (heap s !! l).

(** The ids that were given out. *)
Definition issued s (id : Z) : Prop := id < if id mod 2 =? local_parity s then next_local_stream_id s else next_remote_stream_id s.
Definition ids s := (local_parity s, next_local_stream_id s, next_remote_stream_id s).

(** The frames that give no credit and carry no data. *)
Definition plain (f : Frame) : bool :=
  match f with Settings _ _ _ | MaxData _ | MaxStreamData _ _ | Stream _ _ _ => false | _ => true end.

(** An operation that leaves the writer's books alone, and with [both] the reader's. *)
Record steady (both : bool) s s' : Prop := {
  sy_fresh : fresh_loc s -> fresh_loc s';
  sy_next : (next_loc s <= next_loc s')%nat;
  sy_dom : forall l, is_Some (heap s !! l) -> is_Some (heap s' !! l);
  sy_out : out_conn s' = out_conn s;
  sy_out_at : fresh_loc s -> forall l, out_at s' l = out_at s l;
  sy_in : both = true -> in_conn s' = in_conn s;
  sy_in_at : both = true -> fresh_loc s -> forall l, in_at s' l = in_at s l;
  sy_control : forall f, f ∈ control (queues s') -> f ∈ control (queues s) \/ plain f = true;
  sy_streams : forall id l, streams s' !! id = Some l -> streams s !! id = Some l \/ (next_loc s <= l)%nat;
  sy_issued : forall id, issued s id -> issued s' id
}.

#[export] Instance steady_preorder both : PreOrder (steady both).
Proof.
  split; [intros s; split; auto|]. intros x y z [F N D O OA I IA C S U] [F' N' D' O' OA' I' IA' C' S' U']. split; try lia; auto; try congruence.
  - intros Hx l. by rewrite OA', OA by auto.
  - intros Hb. by rewrite I', I.
  - intros Hb Hx l. by rewrite IA', IA by auto.
  - intros f [Hf|Hf]%C'; [by apply C|by right].
  - intros id l [Hl|Hl]%S'; [by apply S|right; lia].
Qed.

(** A change of other fields. *)
Definition rest_of s := (next_loc s, heap s, out_conn s, in_conn s, control (queues s), streams s, ids s).

Lemma steady_rest both s s' : rest_of s' = rest_of s -> steady both s s'.
Proof.
  unfold rest_of. intros H. injection H as Hn Hh Ho1 Ho2 Ho3 Hi1 Hi2 Hi3 Hi4 Hi5 Hc Hs Hp Hnl Hnr.
  split; unfold out_conn, in_conn, fresh_loc, out_at, in_at, stream_credit_given, issued; rewrite ?Hn, ?Hh, ?Ho1, ?Ho2, ?Ho3, ?Hi1, ?Hi2, ?Hi3, ?Hi4, ?Hi5, ?Hc, ?Hs, ?Hp, ?Hnl, ?Hnr; auto.
Qed.

Lemma steady_alter both l u s : (forall st, heap s !! l = Some st -> out_stream (u st) = out_stream st /\ (both = true -> in_stream (u st) = in_stream st)) ->
  steady both s (s <| heap ::= alter u l |>).
Proof.
  intros Hu. split; simpl; auto.
  - intros Hf k Hk. apply Hf. simpl in Hk. destruct (decide (l = k)) as [<-|Hne]; [rewrite lookup_alter_eq in Hk; by apply fmap_is_Some in Hk|by rewrite lookup_alter_ne in Hk].
  - intros k Hk. by apply lookup_alter_is_Some.
  - intros _ k. unfold out_at, stream_credit_given. simpl. destruct (decide (l = k)) as [<-|Hne]; [|by rewrite lookup_alter_ne].
    rewrite lookup_alter_eq. destruct (heap s !! l) as [st|] eqn:E; simpl; [by apply Hu|done].
  - intros Hb _ k. unfold in_at. simpl. destruct (decide (l = k)) as [<-|Hne]; [|by rewrite lookup_alter_ne].
    rewrite lookup_alter_eq. destruct (heap s !! l) as [st|] eqn:E; simpl; [by apply Hu|done].
Qed.

Lemma steady_modify both u : (forall s, rest_of (u s) = rest_of s) -> respects (steady both) (modify u : Conn unit).
Proof. intros Hu. apply respects_modify. intros s. by apply steady_rest. Qed.

Lemma steady_upd both l u : (forall st, out_stream (u st) = out_stream st /\ (both = true -> in_stream (u st) = in_stream st)) ->
  respects (steady both) (upd_state l u).
Proof. intros Hu. apply respects_modify. intros s. by apply steady_alter. Qed.

Lemma steady_run {A} both (m : Conn A) : (forall s, rest_of (m s).2 = rest_of s) -> respects (steady both) m.
Proof. intros Hm s r s' Hrun. apply steady_rest. specialize (Hm s). by rewrite Hrun in Hm. Qed.

Lemma plain_snoc g c : plain g = true -> forall f, f ∈ c ++ [g] -> f ∈ c \/ plain f = true.
Proof. intros Hg f [?|Hf]%elem_of_app; [by left|]. apply list_elem_of_singleton in Hf as ->. by right. Qed.

(** Plain frames queued, streams forgotten. *)
Lemma steady_lists both u : (forall s, (next_loc (u s), heap (u s), out_conn (u s), in_conn (u s), ids (u s)) = (next_loc s, heap s, out_conn s, in_conn s, ids s)) ->
  (forall s f, f ∈ control (queues (u s)) -> f ∈ control (queues s) \/ plain f = true) -> (forall s, streams (u s) ⊆ streams s) ->
  respects (steady both) (modify u : Conn unit).
Proof.
  intros Hu Hc Hs. apply respects_modify. intros s. specialize (Hu s).
  assert (H : steady both s ((u s) <| queues ::= (fun q => q <| control := control (queues s) |>) |> <| streams := streams s |>)).
  { apply steady_rest. unfold rest_of, out_conn, in_conn, ids in *. simpl. injection Hu; intros; congruence. }
  destruct H. split; auto. intros id l Hl. left. by eapply lookup_weaken.
Qed.

(** ** The operations *)

#[local] Hint Extern 2 (respects (steady _) (modify _)) => by apply steady_modify : half.
#[local] Hint Extern 2 (respects (steady _) (upd_queues _)) => by apply steady_modify : half.
#[local] Hint Extern 2 (respects (steady _) (notify _)) => by apply steady_modify : half.
#[local] Hint Extern 2 (respects (steady _) get_queues) => apply respects_gets; typeclasses eauto : half.
#[local] Hint Extern 2 (respects (steady _) (upd_state _ _)) => apply steady_upd; intros ?; by split : half.
#[local] Hint Extern 2 (respects (steady _) (upd_inbound _ _)) => apply steady_upd; intros ?; by split : half.
#[local] Hint Extern 3 (respects (steady _) (modify _)) => apply steady_lists; intros ?; simpl; first [done|by auto|by intros ? ?%elem_of_nil|apply map_empty_subseteq|apply delete_subseteq] : half.
#[local] Hint Extern 3 (respects (steady _) (upd_queues _)) => apply steady_lists; intros ?; simpl; first [done|by auto|by intros ? ?%elem_of_nil|by apply plain_snoc] : half.

Lemma steady_conn_consume both n : respects (steady both) (conn_window_consume n).
Proof.
  apply steady_run. intros s. unfold conn_window_consume, ReceiveWindow.consume. by repeat case_match; simplify_eq/=.
Qed.
Lemma steady_stream_consume both l n : respects (steady both) (stream_window_consume l n).
Proof.
  intros s r s'. unfold stream_window_consume, mbind, M_bind, get_state. destruct (heap s !! l) as [st|] eqn:Hl; [|by intros [= _ <-]].
  destruct (ReceiveWindow.consume (st_window st) n) as [b w] eqn:E. intros [= _ <-]. apply steady_alter. intros st' Hl'.
  assert (st' = st) as -> by congruence. unfold ReceiveWindow.consume in E. by destruct (n =? 0); simplify_eq/=.
Qed.
Lemma steady_take_conn both n : respects (steady both) (take_conn_permit n).
Proof. apply steady_run. intros s. unfold take_conn_permit. by repeat case_match. Qed.
Lemma steady_acquire_stream both n l get u : (forall sem st, out_stream (u sem st) = out_stream st /\ in_stream (u sem st) = in_stream st) ->
  respects (steady both) (acquire_from n get (fun sem s => s <| heap ::= alter (u sem) l |>)).
Proof.
  intros Hu s r s'. unfold acquire_from. repeat case_match; intros [= _ <-]; try done. apply steady_alter. intros st _. split; intros; apply Hu.
Qed.
Lemma steady_acquire both n get put : (forall sem s, rest_of (put sem s) = rest_of s) -> respects (steady both) (acquire_from n get put).
Proof. intros Hp. apply steady_run. intros s. unfold acquire_from. repeat case_match; simpl; auto. Qed.
#[local] Hint Resolve steady_conn_consume steady_stream_consume steady_take_conn : half.
#[local] Hint Extern 2 (respects (steady _) (acquire_from _ _ _)) => by apply steady_acquire : half.
#[local] Hint Extern 3 (respects (steady _) (acquire_from _ _ _)) => by apply steady_acquire_stream : half.

(** Unfolding an operation and taking it apart. *)
#[local] Ltac steady_all :=
  repeat (respect; try match goal with
    | |- respects _ ?m => let rec head x := lazymatch x with ?f _ => head f | _ => x end in
        let h := head m in unfold h
    end).

Lemma steady_chunk_drop both c : respects (steady both) (chunk_drop c).
Proof. steady_all. Qed.
#[local] Hint Resolve steady_chunk_drop : half.
Lemma steady_drop_chunks both cs : respects (steady both) (drop_chunks cs).
Proof. induction cs; simpl; steady_all. Qed.
Lemma steady_drop_outbounds both cs : respects (steady both) (drop_outbounds cs).
Proof. induction cs; simpl; steady_all. Qed.
Lemma steady_mark_streams both ls : respects (steady both) (mark_streams_closed ls).
Proof. induction ls as [|[id l] ls IH]; simpl; steady_all. Qed.
#[local] Hint Resolve steady_drop_chunks steady_drop_outbounds steady_mark_streams : half.

Lemma steady_mark_closed both : respects (steady both) mark_closed.
Proof. steady_all. Qed.
Lemma steady_initiate_close both code reason : respects (steady both) (initiate_close code reason).
Proof. steady_all. Qed.
#[local] Hint Resolve steady_mark_closed steady_initiate_close : half.
Lemma steady_send_chunk both x : respects (steady both) (send_stream_chunk x).
Proof. steady_all. Qed.
#[local] Hint Resolve steady_send_chunk : half.

(** A new stream, which may be registered. *)
Lemma steady_new both s s' st : heap s' = <[next_loc s := st]> (heap s) -> next_loc s' = S (next_loc s) ->
  out_stream st = stream_credit_given s -> in_stream st = (0, 0, false) -> (out_conn s', in_conn s') = (out_conn s, in_conn s) ->
  (forall f, f ∈ control (queues s') -> f ∈ control (queues s) \/ plain f = true) ->
  (forall id l, streams s' !! id = Some l -> streams s !! id = Some l \/ l = next_loc s) -> (forall id, issued s id -> issued s' id) ->
  steady both s s'.
Proof.
  intros Hh Hn Ho Hi Hc Hf Hs Hu. assert (Hlim : limits s' = limits s) by (injection Hc; intros; done). injection Hc as ? ? ? ? ? ? ? ?.
  assert (Hout : forall l, fresh_loc s -> heap s !! l = None \/ l <> next_loc s).
  { intros l Hfr. destruct (decide (l = next_loc s)) as [->|]; [left|by right]. destruct (heap s !! next_loc s) eqn:E; [|done].
    specialize (Hfr (next_loc s) ltac:(by eexists)). lia. }
  split; try lia; try done; [| |unfold out_conn; congruence| |unfold in_conn; congruence| |].
  - intros Hfr l. rewrite Hh, Hn. destruct (decide (l = next_loc s)) as [->|]; [lia|]. rewrite lookup_insert_ne by done. intros H'. specialize (Hfr l H'). lia.
  - intros l Hl. rewrite Hh. destruct (decide (l = next_loc s)) as [->|]; [rewrite lookup_insert_eq|rewrite lookup_insert_ne by done]; done.
  - intros Hfr l. unfold out_at, stream_credit_given in *. rewrite Hh, Hlim. destruct (decide (l = next_loc s)) as [->|]; [|by rewrite lookup_insert_ne].
    rewrite lookup_insert_eq. destruct (Hout (next_loc s) Hfr) as [->|]; done.
  - intros _ Hfr l. unfold in_at. rewrite Hh. destruct (decide (l = next_loc s)) as [->|]; [|by rewrite lookup_insert_ne].
    rewrite lookup_insert_eq. destruct (Hout (next_loc s) Hfr) as [->|]; done.
  - intros id l [?| ->]%Hs; [by left|right; lia].
Qed.

Lemma issued_next s s' id a : negb (id =? next_remote_stream_id s) = false -> (expect (checked_add id 2) : Result Error Z) = Ok a ->
  ids s' = (local_parity s, next_local_stream_id s, a) -> forall i, issued s i -> issued s' i.
Proof.
  intros Hid%negb_false_iff%Z.eqb_eq Ha [= Hp Hl Hr] i. unfold issued. rewrite Hp, Hl, Hr. unfold checked_add in Ha.
  destruct (_ <=? _); [|done]. injection Ha as <-. destruct (_ =? _); lia.
Qed.

Lemma steady_remote_open both id : respects (steady both) (on_remote_open id).
Proof.
  intros s r s'. unfold on_remote_open.
  cbv [mbind M_bind gets bail_if lift modify or_drop_permit on_err drop_open_permit new_stream upd_queues notify fail mret M_ret].
  intros H. repeat case_match; simplify_eq; try done; try (by apply steady_rest);
    (eapply steady_new; [reflexivity|reflexivity|done|done|done|first [by apply plain_snoc|by auto]|..]); simpl; auto;
    first [intros ? ? [[_ <-]|[_ ?]]%lookup_insert_Some; by auto|by eapply issued_next].
Qed.

Definition open_tail (permit : Permit) (stream_id : Z) : Conn (Poll (Z * loc)) :=
  l ← new_stream permit;
  id ← or_drop_permit permit (lift (proto_stream_id stream_id));
  _ ← upd_queues (fun q => q <| control ::= (fun c => c ++ [OpenStream id]) |>
                             <| receive_windows ::= insert stream_id l |>);
  _ ← modify (fun s => s <| streams ::= insert stream_id l |>);
  _ ← notify WakeWriter;
  _ ← modify (fun s => s <| stats ::= (fun c =>
        c <| opened_streams ::= (fun n => wrapping_add n 1) |>) |>);
  _ ← add_handles l;
  mret (Ready (stream_id, l)).

Lemma steady_open_tail both p n : respects (steady both) (open_tail p n).
Proof.
  intros s r s'. unfold open_tail.
  cbv [mbind M_bind gets bail_if lift modify or_drop_permit on_err drop_open_permit new_stream upd_queues notify fail mret M_ret].
  destruct (proto_stream_id n); intros H; cbv [add_handles upd_state modify] in H; simplify_eq;
    (eapply steady_new; [simpl; by rewrite ?alter_insert_eq|reflexivity|done|done|done|first [by apply plain_snoc|by auto]|..]); simpl; auto.
  intros ? ? [[_ <-]|[_ ?]]%lookup_insert_Some; auto.
Qed.
#[local] Hint Resolve steady_remote_open steady_open_tail : half.

Lemma steady_take_id both : respects (steady both) take_stream_id.
Proof.
  intros s r s'. unfold take_stream_id. cbv [mbind M_bind gets modify mret M_ret fail]. destruct (_ <=? _); intros [= _ <-]; [|done].
  split; simpl; auto. unfold issued. simpl. intros id. case_match; lia.
Qed.
#[local] Hint Resolve steady_take_id : half.

Lemma steady_open both : respects (steady both) open_bi_admitted.
Proof.
  unfold open_bi_admitted. apply respects_bind; [typeclasses eauto|respect|intros sem]. destruct (acquire_many 1 sem) as [| |p sem']; [respect..|].
  do 4 (apply respects_bind; [typeclasses eauto|steady_all|intros ?]). case_match; [steady_all|].
  apply respects_bind; [typeclasses eauto|steady_all|intros n]. apply steady_open_tail.
Qed.
#[local] Hint Resolve steady_open : half.

(** ** The events *)

Lemma steady_read_fuel both fuel h n : respects (steady both) (poll_read_fuel fuel h n).
Proof. revert h. induction fuel as [|fuel IH]; intros h; simpl; [by intros s r s' [= _ <-]|]. steady_all; apply IH. Qed.
#[local] Hint Resolve steady_read_fuel : half.

Lemma steady_cleanup both ls : respects (steady both) (cleanup_streams ls).
Proof. induction ls as [|[id l] ls IH]; simpl; steady_all. Qed.
#[local] Hint Resolve steady_cleanup : half.

Definition keeps_books (w : World) (x : Step) : Prop :=
  match x with Next w' => steady true (w_conn w) (w_conn w') | _ => True end.

Lemma books_perform {A} (m : Conn A) w k : respects (steady true) m -> (forall r x, w_conn (k r x) = w_conn x) -> keeps_books w (perform m w k).
Proof.
  intros Hm Hk. unfold perform. destruct (m (w_conn w)) as [[a|er|] s'] eqn:E; simpl; rewrite ?Hk; try done; by eapply Hm.
Qed.

Definition on_wire (e : Event) : bool := match e with Reader _ | Writer _ => true | _ => false end.

Lemma books_exec e w : on_wire e = false -> keeps_books w (exec e w).
Proof.
  intros Hn. destruct e; try done; cbn [exec exec_app exec_stream exec_task]; unfold with_handle, with_sender, with_receiver, with_send;
    repeat case_match; try done; try (by apply steady_rest); apply books_perform; try (intros ? ?; repeat case_match; done); steady_all.
Qed.

(** The writer, when it does not take a frame. *)
Lemma steady_writer ok t : t <> WriterIdle -> respects (steady true) (writer_turn ok t).
Proof. intros Ht. destruct t; [done|..]; steady_all. Qed.

(** ** The frames received *)

(** The frames change the reader's books only. *)
Lemma steady_conn_receive n : respects (steady false) (conn_window_receive n).
Proof.
  intros s r s'. unfold conn_window_receive, ReceiveWindow.receive. intros H. repeat case_match; simplify_eq; split; simpl; auto; done.
Qed.
Lemma steady_stream_receive l n : respects (steady false) (stream_window_receive l n).
Proof.
  intros s r s'. unfold stream_window_receive, mbind, M_bind, get_state. destruct (heap s !! l) as [st|] eqn:Hl; [|by intros [= _ <-]].
  destruct (ReceiveWindow.receive (st_window st) n) as [b w] eqn:E. intros [= _ <-]. apply steady_alter. intros st' Hl'.
  assert (st' = st) as -> by congruence. split; [|done]. unfold ReceiveWindow.receive in E. by repeat case_match; simplify_eq/=.
Qed.
Lemma steady_credit u : (forall s, (next_loc (u s), heap (u s), out_conn (u s), control (queues (u s)), streams (u s), ids (u s)) =
  (next_loc s, heap s, out_conn s, control (queues s), streams s, ids s)) -> respects (steady false) (modify u : Conn unit).
Proof.
  intros Hu. apply respects_modify. intros s. specialize (Hu s). injection Hu as Hn Hh H1 H2 H3 Hc Hs Hp Hnl Hnr.
  split; unfold out_conn, fresh_loc, out_at, stream_credit_given, issued; rewrite ?Hn, ?Hh, ?H1, ?H2, ?H3, ?Hc, ?Hs, ?Hp, ?Hnl, ?Hnr; auto; done.
Qed.
#[local] Hint Resolve steady_conn_receive steady_stream_receive : half.
#[local] Hint Extern 4 (respects (steady false) (upd_queues _)) => by apply steady_credit : half.

Lemma steady_handle f : respects (steady false) (handle_frame f).
Proof. destruct f; steady_all. Qed.
#[local] Hint Resolve steady_handle : half.

Lemma respects_catch {A} R `{!PreOrder R} (m : Conn A) k : respects R m -> (forall e, respects R (k e)) -> respects R (catch m k).
Proof.
  intros Hm Hk s r s'. unfold catch. destruct (m s) as [[a|e|] s1] eqn:E; intros H; simplify_eq; [by eapply Hm| |by eapply Hm].
  transitivity s1; [by eapply Hm|by eapply Hk].
Qed.

Lemma steady_reader item : respects (steady false) (reader_step item).
Proof.
  unfold reader_step. apply respects_bind; [typeclasses eauto| |intros ?; steady_all]. destruct item; simpl; [|steady_all..].
  apply respects_bind; [typeclasses eauto|steady_all|intros _]. apply respects_catch; [typeclasses eauto|steady_all|intros ?; steady_all].
Qed.

(** When the reader goes on, it handled a frame. *)
Lemma reader_ok_run item s s' : reader_step item s = (Ok true, s') ->
  exists b f c, item = RFrame b /\ (Frame.decode b).1 = Ok f /\ handle_frame f (s <| stats := c |>) = (Ok true, s').
Proof.
  intros H. apply bind_inv in H as (c & s1 & Hi & H). destruct c; [|by apply bind_inv in H as (? & ? & _ & ?)]. injection H as <-.
  destruct item as [b| | | |]; try done; [|by apply bind_inv in Hi as (? & ? & _ & ?)]. apply bind_inv in Hi as (u & s0 & H0 & Hi).
  exists b. unfold catch in Hi. destruct (handle_incoming_frame b s0) as [[a|e|] s2] eqn:E; [|by apply bind_inv in Hi as (? & ? & _ & ?)|done].
  injection Hi as -> ->. apply bind_inv in E as (f & s3 & Hd & E). unfold lift in Hd. injection Hd as Hd <-.
  injection H0 as _ <-. exists f. eexists. split_and!; [done|by destruct (Frame.decode b).1; simplify_eq/=|exact E].
Qed.

(** *** What a frame changes *)

Definition hear_conn (f : Frame) (x : bool * Z * Z * Z * Z) : bool * Z * Z * Z * Z :=
  let '(settings, limit, initial, max_frame, total) := x in
  match f with
  | Settings max_data max_stream_data max => (true, VarInt.into_inner max_data, VarInt.into_inner max_stream_data, VarInt.into_inner max, total)
  | MaxData m => (settings, Z.max (VarInt.into_inner m) limit, initial, max_frame, total)
  | Stream _ _ p => (settings, limit, initial, max_frame, total + zlen p)
  | _ => x
  end.

Definition hear_stream (f : Frame) (y : Z * Z * bool) : Z * Z * bool :=
  let '(limit, total, over) := y in
  match f with
  | Stream _ fin p => (limit, total + zlen p, over || fin)
  | ResetStream _ _ => (limit, total, true)
  | MaxStreamData _ m => (Z.max (VarInt.into_inner m) limit, total, over)
  | _ => y
  end.

Definition frame_stream (f : Frame) : option Z :=
  match f with Stream i _ _ | ResetStream i _ | MaxStreamData i _ => Some (VarInt.into_inner i) | _ => None end.

(** The location of the stream a frame is about, and its new entries. *)
Definition heard f s s' : Prop :=
  in_conn s' = hear_conn f (in_conn s) /\
  forall l, in_at s' l = if bool_decide (frame_stream f ≫= (fun id => streams s !! id) = Some l) then hear_stream f (in_at s l) else in_at s l.

Lemma heard_steady f s s' : frame_stream f = None -> hear_conn f (in_conn s) = in_conn s -> fresh_loc s -> steady true s s' -> heard f s s'.
Proof. intros Hf Hc Hfr [_ _ _ _ _ I IA _ _ _]. split; [by rewrite Hc, I|]. intros l. rewrite Hf. simpl. by apply IA. Qed.

(** What follows leaves the books alone. *)
Lemma heard_after f s s1 s' : heard f s s1 -> fresh_loc s1 -> steady true s1 s' -> heard f s s'.
Proof. intros [Hc Hl] Hfr [_ _ _ _ _ I IA _ _ _]. split; [by rewrite I|]. intros l. by rewrite IA. Qed.

Lemma in_at_alter u l s k : in_at (s <| heap ::= alter u l |>) k =
  if bool_decide (l = k) then from_option (fun st => in_stream (u st)) (0, 0, false) (heap s !! k) else in_at s k.
Proof.
  unfold in_at. simpl. case_bool_decide as H; [subst|by rewrite lookup_alter_ne]. rewrite lookup_alter_eq. by destruct (heap s !! k).
Qed.

Lemma in_at_lookup s l st : heap s !! l = Some st -> in_at s l = in_stream st.
Proof. unfold in_at. by intros ->. Qed.

(** An update of one stream. *)
Lemma heard_alter f s u l id : frame_stream f = Some id -> streams s !! id = Some l -> is_Some (heap s !! l) ->
  (forall st, heap s !! l = Some st -> in_stream (u st) = hear_stream f (in_stream st)) -> forall s1 : ConnectionShared,
  heap s1 = alter u l (heap s) -> in_conn s1 = hear_conn f (in_conn s) -> heard f s s1.
Proof.
  intros Hf Hs [st Hst] Hu s1 Hh Hc. split; [done|]. intros k. rewrite Hf. simpl. rewrite Hs.
  assert (in_at s1 k = in_at (s <| heap ::= alter u l |>) k) as -> by (unfold in_at; simpl; by rewrite Hh).
  rewrite in_at_alter. destruct (decide (l = k)) as [<-|Hne]; [|rewrite !bool_decide_false by congruence; done].
  rewrite !bool_decide_true by done. rewrite (in_at_lookup s l st Hst), Hst. simpl. by apply Hu.
Qed.

Lemma window_receive w n u w' : 0 <= n <= u64_max -> ReceiveWindow.receive w n = (Ok u, w') ->
  w' = mkWindow (received w + n) (consumed w) (advertised w) (window w).
Proof.
  intros Hn. unfold ReceiveWindow.receive, checked_add. assert (as_u64 n = n) as -> by (unfold as_u64, u64_max in *; apply Z.mod_small; lia).
  by repeat case_match; intros; simplify_eq.
Qed.

Lemma steady_retire id : respects (steady true) (try_retire_stream id).
Proof. steady_all. Qed.

(** The end of the peer's side. *)
Lemma steady_mark_terminal l s u s' : mark_recv_terminal l s = (Ok u, s') -> fresh_loc s -> fresh_loc s'.
Proof. intros H. assert (Hm : respects (steady false) (mark_recv_terminal l)) by steady_all. by apply (Hm _ _ _ H). Qed.

Lemma terminal_heard l s s' : is_Some (heap s !! l) -> mark_recv_terminal l s = (Ok tt, s') ->
  in_conn s' = in_conn s /\ forall k, in_at s' k = if bool_decide (l = k) then let '(a, b, _) := in_at s k in (a, b, true) else in_at s k.
Proof.
  intros [st Hst] [= <-]. split; [done|]. intros k. unfold in_at. simpl. case_bool_decide as H; [subst|by rewrite !lookup_alter_ne].
  by rewrite !lookup_alter_eq, Hst.
Qed.

Lemma heard_data i fin p s s' : fresh_loc s -> (forall id l, streams s !! id = Some l -> is_Some (heap s !! l)) -> zlen p <= u64_max ->
  on_remote_stream_frame (VarInt.into_inner i) p fin s = (Ok tt, s') -> is_Some (streams s !! VarInt.into_inner i) /\ heard (Stream i fin p) s s'.
Proof.
  intros Hfr Hdom Hp H. unfold on_remote_stream_frame in H. apply bind_inv in H as (l & s0 & Hf & H).
  rewrite find_run in Hf. destruct (streams s !! VarInt.into_inner i) as [l'|] eqn:Hs; [|done]. injection Hf as -> <-.
  split; [by eexists|]. destruct (Hdom _ _ Hs) as [st Hst]. assert (Hg : get_state l s = (Ok st, s)) by (unfold get_state; by rewrite Hst).
  rewrite (bind_ok _ _ _ _ _ Hg) in H. apply bind_inv in H as (? & s0 & [= _ <-] & H). apply bind_inv in H as (u1 & s1 & H1 & H).
  pose proof (zlen_nonneg p) as Hp0. unfold conn_window_receive in H1. destruct (ReceiveWindow.receive (receive_window s) (zlen p)) as [r w] eqn:E1.
  injection H1 as -> <-. apply window_receive in E1; [|done]. apply bind_inv in H as (u2 & s2 & H2 & H).
  unfold stream_window_receive, mbind, M_bind, get_state in H2. simpl in H2. rewrite Hst in H2.
  destruct (ReceiveWindow.receive (st_window st) (zlen p)) as [r w2] eqn:E2. unfold upd_state, modify, lift in H2. injection H2 as -> <-.
  apply window_receive in E2; [|done].
  set (s2 := s <| receive_window := w |> <| heap ::= alter (fun st => st <| st_window := w2 |>) l |>) in *.
  assert (Hs2 : steady false s s2).
  { transitivity (s <| receive_window := w |>); [split; simpl; auto; try done; unfold out_conn; simpl; by rewrite E1|].
    apply (steady_alter false l _ (s <| receive_window := w |>)). intros st' Hst'. simpl in Hst'. split; [|done]. unfold out_stream. simpl. rewrite E2. simpl. congruence. }
  assert (Hfr2 : fresh_loc s2) by (by apply Hs2).
  assert (Hh2 : heard (Stream i false p) s s2).
  { eapply heard_alter; [done|exact Hs|by rewrite Hst| |reflexivity|].
    - intros st' Hst'. assert (st' = st) as -> by congruence. unfold in_stream. simpl. rewrite E2. simpl. by rewrite orb_false_r.
    - unfold in_conn. simpl. by rewrite E1. }
  apply bind_inv in H as (w1 & s3 & [= _ <-] & H). apply bind_inv in H as (st1 & s3 & Hg3 & H).
  change (get_state l s2 = (Ok st1, s3)) in Hg3. assert (s3 = s2) as -> by (unfold get_state in Hg3; destruct (heap s2 !! l); congruence).
  apply bind_inv in H as (? & s3 & H3 & H). apply bind_inv in H as (? & s4 & H4 & H).
  assert (Hs3 : steady true s2 s3) by (revert H3; apply (respects_when (steady true)); steady_all).
  assert (Hs4 : steady true s3 s4) by (revert H4; apply (respects_when (steady true)); steady_all).
  assert (Hh4 : heard (Stream i false p) s s4) by (eapply heard_after; [exact Hh2|done|by transitivity s3]).
  assert (Hfr4 : fresh_loc s4) by (by apply Hs4, Hs3). destruct fin; [|by injection H as <-].
  apply bind_inv in H as ([] & s5 & H5 & H). assert (Hr : steady true s5 s') by (by eapply steady_retire).
  destruct (terminal_heard l s4 s5) as [Hc5 Hl5]; [apply (sy_dom _ _ _ Hs4), (sy_dom _ _ _ Hs3), (sy_dom _ _ _ Hs2); by eexists|done|].
  eapply heard_after; [|by eapply (steady_mark_terminal l); [exact H5|]|exact Hr]. destruct Hh4 as [Hc4 Hl4].
  split; [rewrite Hc5, Hc4; done|]. intros k. rewrite Hl5, Hl4. simpl. rewrite Hs.
  destruct (decide (l = k)) as [<-|Hne]; [|rewrite !bool_decide_false by congruence; done]. rewrite !bool_decide_true by done.
  destruct (in_at s l) as [[? ?] ?]. simpl. by rewrite orb_true_r.
Qed.

Lemma heard_reset i c code s s' : fresh_loc s -> (forall id l, streams s !! id = Some l -> is_Some (heap s !! l)) ->
  on_remote_reset (VarInt.into_inner i) code s = (Ok tt, s') -> is_Some (streams s !! VarInt.into_inner i) /\ heard (ResetStream i c) s s'.
Proof.
  intros Hfr Hdom H. unfold on_remote_reset in H. apply bind_inv in H as (l & s0 & Hf & H).
  rewrite find_run in Hf. destruct (streams s !! VarInt.into_inner i) as [l'|] eqn:Hs; [|done]. injection Hf as -> <-.
  split; [by eexists|]. destruct (Hdom _ _ Hs) as [st Hst]. assert (Hg : get_state l s = (Ok st, s)) by (unfold get_state; by rewrite Hst).
  rewrite (bind_ok _ _ _ _ _ Hg) in H. apply bind_inv in H as (? & s0 & [= _ <-] & H). apply bind_inv in H as (u1 & s1 & H1 & H).
  assert (Hm : respects (steady true) (mark_reset l code)) by steady_all. pose proof (Hm _ _ _ H1) as Hs1.
  apply bind_inv in H as ([] & s2 & H2 & H). assert (Hr : steady true s2 s') by (by eapply steady_retire).
  destruct (terminal_heard l s1 s2) as [Hc2 Hl2]; [apply (sy_dom _ _ _ Hs1); by eexists|done|].
  assert (Hfr1 : fresh_loc s1) by (by apply Hs1).
  eapply heard_after; [|by eapply (steady_mark_terminal l); [exact H2|]|exact Hr].
  split; [rewrite Hc2, (sy_in _ _ _ Hs1) by done; by destruct (in_conn s) as [[[[? ?] ?] ?] ?]|]. intros k. rewrite Hl2, (sy_in_at _ _ _ Hs1) by done. simpl. rewrite Hs.
  destruct (decide (l = k)) as [<-|Hne]; [|rewrite !bool_decide_false by congruence; done]. rewrite !bool_decide_true by done. done.
Qed.

Lemma bail_same b (e : Error) s u s' : bail_if b e s = (Ok u, s') -> s' = s.
Proof. unfold bail_if. destruct b; [done|]. by intros [= _ <-]. Qed.

Lemma or_drop_ok {A} p (m : Conn A) s a s' : or_drop_permit p m s = (Ok a, s') -> m s = (Ok a, s').
Proof.
  unfold or_drop_permit, on_err. destruct (m s) as [[b|e|] s1]; [done| |done]. intros H. by apply bind_inv in H as (? & ? & _ & ?).
Qed.

Lemma heard_max_stream i m s s' : (forall id l, streams s !! id = Some l -> is_Some (heap s !! l)) ->
  on_max_stream_data (VarInt.into_inner i) (VarInt.into_inner m) s = (Ok tt, s') ->
  heard (MaxStreamData i m) s s' /\ (is_Some (streams s !! VarInt.into_inner i) \/ issued s (VarInt.into_inner i)).
Proof.
  intros Hdom H. unfold on_max_stream_data in H. apply bind_inv in H as (ss & s0 & [= <- <-] & H).
  apply bind_inv in H as (? & s1 & H1 & [= <-]). destruct (streams s !! VarInt.into_inner i) as [l|] eqn:Hs.
  - injection H1 as _ <-. split; [|left; by eexists]. eapply heard_alter; [done|exact Hs|by eapply Hdom| |reflexivity|]; [done|]. unfold in_conn. simpl. done.
  - assert (s1 = s /\ issued s (VarInt.into_inner i)) as [-> Hiss].
    { apply bind_inv in H1 as (pa & s2 & [= <- <-] & H1). apply bind_inv in H1 as (nx & s2 & H2 & H1).
      assert (s2 = s) as -> by (by destruct (_ =? _); injection H2). split; [by eapply bail_same|]. unfold issued, bail_if in *.
      destruct (Z.leb_spec nx (VarInt.into_inner i)); [done|]. destruct (_ =? _); injection H2 as ->; done. }
    split; [|by right]. split; [done|]. intros k. simpl. by rewrite Hs.
Qed.

(** The frames that need their stream. *)
Definition needs_stream (f : Frame) : option Z :=
  match f with Stream i _ _ | ResetStream i _ => Some (VarInt.into_inner i) | _ => None end.

Lemma handle_heard f s s' : fresh_loc s -> (forall id l, streams s !! id = Some l -> is_Some (heap s !! l)) -> Frame.fits f ->
  handle_frame f s = (Ok true, s') -> heard f s s' /\ (forall id, needs_stream f = Some id -> is_Some (streams s !! id)) /\
    forall id, frame_stream f = Some id -> is_Some (streams s !! id) \/ issued s id.
Proof.
  intros Hfr Hdom Hfit H. apply bind_inv in H as (q & s0 & [= <- <-] & H). apply bind_inv in H as (? & s0 & Hb & H).
  assert (s0 = s) as -> by (by eapply bail_same). clear Hb.
  destruct f as [i fin p|i c|i|a b c|m|i m|i| |c reason].
  - apply bind_inv in H as ([] & s1 & H1 & [= <-]). apply heard_data in H1 as [Hx ?]; try done; [split_and!; [done|by intros id [= <-]|intros id [= <-]; by left]|].
    simpl in Hfit. rewrite VarInt.MAX_eq in Hfit. unfold u64_max. lia.
  - apply bind_inv in H as ([] & s1 & H1 & [= <-]). apply (heard_reset _ c) in H1 as [Hx ?]; try done. split_and!; [done|by intros id [= <-]|intros id [= <-]; by left].
  - split; [|by split]. assert (Hm : respects (steady true) (_ ← on_remote_open (VarInt.into_inner i); mret true)) by steady_all.
    apply heard_steady; [done|by destruct (in_conn s) as [[[[? ?] ?] ?] ?]|done|by eapply Hm].
  - split; [|by split]. apply bind_inv in H as ([] & s1 & H1 & [= <-]). apply bind_inv in H1 as (q & s2 & [= <- <-] & H1).
    apply bind_inv in H1 as (? & s2 & Hb & H1). assert (s2 = s) as -> by (by eapply bail_same).
    injection H1 as <-. by split.
  - split; [|by split]. injection H as <-. by split.
  - apply bind_inv in H as ([] & s1 & H1 & [= <-]). apply heard_max_stream in H1 as [? ?]; [|done]. split_and!; [done..|by intros id [= <-]].
  - split; [|by split]. assert (Hm : respects (steady true) (_ ← on_stop_sending (VarInt.into_inner i); mret true)) by steady_all.
    apply heard_steady; [done|by destruct (in_conn s) as [[[[? ?] ?] ?] ?]|done|by eapply Hm].
  - split; [|by split]. injection H as <-. apply heard_steady; [done|by destruct (in_conn s) as [[[[? ?] ?] ?] ?]|done|reflexivity].
  - by apply bind_inv in H as (? & ? & _ & ?).
Qed.

End books.
