(* ===== verification/BooksSpec.v ===== *)
(** The books against the frames: in every execution the credit given and the bytes sent
    are those of the frames taken by the writer, and the credit got and the bytes
    received those of the frames handled by the reader. *)

From S2P Require Import Prelude Hoare Buf Varint Utf8 Frames Errors Limits Flow Tokio.
From S2P Require Import ConnState Inbound InboundSpec Writer WriterSpec Scheduler Connection Streams Tasks.
From S2P Require Import ReceiveSpec ReadSpec ReceiveSystem ConnectionSpec Ledger SendSpec SendInv SendOps Halves.
From S2P Require Import SendPeer Duplex DuplexOps SendDuplex System SystemInv SystemSpec Fade Delivery DeliveryReader Events Books.

#[local] Open Scope Z_scope.

(** ** What a sequence of frames says *)

Definition payload_len (f : Frame) : Z := match f with Stream _ _ p => zlen p | _ => 0 end.
Definition total (t : list Frame) : Z := foldr (fun f n => payload_len f + n) 0 t.

(** The credit of the connection and of a stream, from an initial one. *)
Definition conn_credit_of (f : Frame) (n : Z) : Z := match f with MaxData m => Z.max (VarInt.into_inner m) n | _ => n end.
Definition conn_told (n : Z) (t : list Frame) : Z := foldl (fun n f => conn_credit_of f n) n t.
Definition stream_credit_of (id : Z) (f : Frame) (n : Z) : Z :=
  match f with MaxStreamData i m => if VarInt.into_inner i =? id then Z.max (VarInt.into_inner m) n else n | _ => n end.
Definition stream_told (id n : Z) (t : list Frame) : Z := foldl (fun n f => stream_credit_of id f n) n t.

Definition settings_of (lim : Limits) : Frame :=
  Settings (mkVarInt (as_u64 (max_inbound_connection_bytes lim))) (mkVarInt (as_u64 (max_inbound_stream_bytes lim)))
    (mkVarInt (as_u64 (max_frame_size lim))).

Lemma total_app t u : total (t ++ u) = total t + total u.
Proof. induction t as [|f t IH]; simpl; [done|]. rewrite IH. lia. Qed.
Lemma payload_len_nonneg f : 0 <= payload_len f.
Proof. destruct f; simpl; try lia. apply zlen_nonneg. Qed.
Lemma total_nonneg t : 0 <= total t.
Proof. induction t as [|f t IH]; simpl; [lia|]. pose proof (payload_len_nonneg f). lia. Qed.
Lemma conn_told_snoc n t f : conn_told n (t ++ [f]) = conn_credit_of f (conn_told n t).
Proof. unfold conn_told. by rewrite foldl_snoc. Qed.
Lemma stream_told_snoc id n t f : stream_told id n (t ++ [f]) = stream_credit_of id f (stream_told id n t).
Proof. unfold stream_told. by rewrite foldl_snoc. Qed.
Lemma total_snoc t f : total (t ++ [f]) = total t + payload_len f.
Proof. rewrite total_app. simpl. lia. Qed.

Section books_spec.
Context {TK : Tokio} {TKL : TokioLaws TK} {HI : HashIter} {HIL : HashIterLaws HI} (lim : Limits).
Implicit Types (s : ConnectionShared) (st : StreamState) (w : World) (rc : Receipt).

(** ** The invariants *)

Record out_book g s : Prop := {
  ob_limits : limits s = lim;
  ob_sent : sent (queues s) = total (g_trace g);
  ob_told : advertised (receive_window s) = conn_told (as_u64 (max_inbound_connection_bytes lim)) (g_trace g);
  ob_stream : forall l id, g_names g !! l = Some id -> out_at s l = stream_told id (as_u64 (max_inbound_stream_bytes lim)) (g_trace g);
  ob_new : forall id, ~ named g id -> stream_told id (as_u64 (max_inbound_stream_bytes lim)) (g_trace g) = as_u64 (max_inbound_stream_bytes lim);
  ob_control : Forall (fun f => plain f = true \/ f = settings_of lim) (control (queues s));
  ob_settings : Forall (fun f => is_settings f = true -> f = settings_of lim) (g_trace g)
}.

Definition in_new : bool * Z * Z * Z * Z := (false, 0, 0, Limits.MIN_FRAME_SIZE, 0).
Definition conn_heard (t : list Frame) := foldl (fun x f => hear_conn f x) in_new t.
Definition hear_of (id : Z) (f : Frame) (y : Z * Z * bool) := if bool_decide (frame_stream f = Some id) then hear_stream f y else y.
Definition stream_heard (id : Z) (t : list Frame) := foldl (fun y f => hear_of id f y) (0, 0, false) t.

Record in_book g s rc : Prop := {
  ib_conn : in_conn s = conn_heard (r_frames rc);
  ib_stream : forall l id, g_names g !! l = Some id ->
    (in_at s l).1.2 = (stream_heard id (r_frames rc)).1.2 /\ (in_at s l).2 = (stream_heard id (r_frames rc)).2 /\
    (in_at s l).1.1 <= (stream_heard id (r_frames rc)).1.1;
  ib_live : forall l id, g_names g !! l = Some id -> streams s !! id = Some l -> in_at s l = stream_heard id (r_frames rc);
  ib_new : forall id, ~ issued s id -> stream_heard id (r_frames rc) = (0, 0, false);
  ib_open : Forall (fun f => is_close f = false) (r_frames rc)
}.

Definition book w rc : Prop := out_book (w_hist w) (w_conn w) /\ (w_reader w = true -> in_book (w_hist w) (w_conn w) rc).

(** ** Steps that leave the books alone *)

(** The names an event gives, to streams that were not named, or whose ids were not
    issued. *)
Definition gives_names (fresh : Z -> Prop) g g' s : Prop :=
  g_trace g' = g_trace g /\ g_names g ⊆ g_names g' /\
  forall l id, g_names g' !! l = Some id -> g_names g !! l = Some id \/ (l = next_loc s /\ fresh id).
Definition newly_named g g' s : Prop := gives_names (fun id => ~ issued s id) g g' s.

Lemma fresh_entry s : fresh_loc s -> heap s !! next_loc s = None.
Proof. intros Hf. destruct (heap s !! next_loc s) eqn:E; [|done]. specialize (Hf (next_loc s) ltac:(by eexists)). lia. Qed.

Lemma unissued_unnamed g s id : names_ok (g_names g) s -> ~ issued s id -> ~ named g id.
Proof. intros Hn Hi [l Hl]. by apply Hi, (nm_issued _ _ Hn l id). Qed.

Lemma unnamed_before g g' id : g_names g ⊆ g_names g' -> ~ named g' id -> ~ named g id.
Proof. intros Hs Hn [l Hl]. apply Hn. exists l. by eapply lookup_weaken. Qed.

Lemma named_weaken g g' s : names_ok (g_names g) s -> newly_named g g' s -> gives_names (fun id => ~ named g id) g g' s.
Proof.
  intros Hn (Ht & Hs & Hnew). split_and!; try done. intros l id [?|[? ?]]%Hnew; [by left|right]. split; [done|by eapply unissued_unnamed].
Qed.

Lemma out_book_move both g g' s s' : names_ok (g_names g) s -> fresh_loc s -> steady both s s' ->
  gives_names (fun id => ~ named g id) g g' s -> out_book g s -> out_book g' s'.
Proof.
  intros Hn Hf Hs (Ht & Hsub & Hnew) [O1 O2 O3 O4 O5 O6 O7]. pose proof (sy_out _ _ _ Hs) as Hout. injection Hout as H1 H2 H3.
  split; rewrite ?Ht, ?H1, ?H2, ?H3; try done.
  - intros l id Hl. rewrite (sy_out_at _ _ _ Hs Hf). destruct (Hnew l id Hl) as [Hl'|[-> Hi]]; [by apply O4|].
    rewrite O5 by done. unfold out_at, stream_credit_given. rewrite fresh_entry by done. simpl. by rewrite O1.
  - intros id Hid. apply O5. by eapply unnamed_before.
  - rewrite Forall_forall in *. intros f [Hc|Hp]%(sy_control _ _ _ Hs); [by apply O6|by left].
Qed.

Lemma in_book_move g g' s s' rc : names_ok (g_names g) s -> fresh_loc s -> steady true s s' -> newly_named g g' s -> in_book g s rc -> in_book g' s' rc.
Proof.
  intros Hn Hf Hs (Ht & Hsub & Hnew) [I1 I2 I3 I4 I5].
  assert (Hx : forall l id, l = next_loc s -> ~ issued s id -> in_at s l = stream_heard id (r_frames rc)).
  { intros l id -> Hi. rewrite I4 by done. unfold in_at. by rewrite fresh_entry. }
  split.
  - by rewrite (sy_in _ _ _ Hs).
  - intros l id Hl. rewrite (sy_in_at _ _ _ Hs) by done. destruct (Hnew l id Hl) as [Hl'|[Hl' Hi]]; [by apply I2|rewrite (Hx l id) by done; auto with lia].
  - intros l id Hl Hst. rewrite (sy_in_at _ _ _ Hs) by done. destruct (Hnew l id Hl) as [Hl'|[Hl' Hi]]; [|by apply Hx].
    apply I3; [done|]. destruct (sy_streams _ _ _ Hs _ _ Hst) as [?|Hge]; [done|].
    assert (Hlt : (l < next_loc s)%nat) by (apply (nm_fresh _ _ Hn); by eexists). lia.
  - intros id Hi. apply I4. intros Hi'. by apply Hi, (sy_issued _ _ _ Hs).
  - done.
Qed.

(** ** A frame is handled *)

Lemma stream_heard_snoc id t f : stream_heard id (t ++ [f]) = hear_of id f (stream_heard id t).
Proof. unfold stream_heard. by rewrite foldl_snoc. Qed.

Lemma hear_of_other id f y : frame_stream f <> Some id -> hear_of id f y = y.
Proof. intros H. unfold hear_of. by rewrite bool_decide_false. Qed.
Lemma hear_of_self id f y : frame_stream f = Some id -> hear_of id f y = hear_stream f y.
Proof. intros H. unfold hear_of. by rewrite bool_decide_true. Qed.

(** Credit for a stream that is gone changes its credit only. *)
Lemma hear_credit id f y : needs_stream f = None -> (hear_of id f y).1.2 = y.1.2 /\ (hear_of id f y).2 = y.2 /\ y.1.1 <= (hear_of id f y).1.1.
Proof.
  intros Hf. unfold hear_of. destruct y as [[a b] c]. case_bool_decide; [|simpl; auto with lia]. destruct f; try done; simpl; (split; [done|split; [done|lia]]).
Qed.

(** The location a frame is about is that of its stream. *)
Lemma heard_at f g s s' l id : names_ok (g_names g) s -> g_names g !! l = Some id -> heard f s s' ->
  in_at s' l = if bool_decide (frame_stream f = Some id /\ streams s !! id = Some l) then hear_stream f (in_at s l) else in_at s l.
Proof.
  intros Hn Hl [_ Hh]. rewrite Hh. erewrite bool_decide_ext; [done|]. destruct (frame_stream f) as [i|]; simpl; [|naive_solver].
  split; [|naive_solver]. intros Hs. pose proof (nm_streams _ _ Hn _ _ Hs). assert (i = id) as -> by congruence. done.
Qed.

Lemma in_book_heard f g s s' rc : names_ok (g_names g) s -> fresh_loc s -> steady false s s' -> heard f s s' ->
  (forall id, needs_stream f = Some id -> is_Some (streams s !! id)) ->
  (forall id, frame_stream f = Some id -> is_Some (streams s !! id) \/ issued s id) -> is_close f = false ->
  in_book g s rc -> in_book g s' (add_frame f rc).
Proof.
  intros Hn Hf Hs Hh Hneed Hiss Hcl [I1 I2 I3 I4 I5].
  assert (Hsub : forall l id, g_names g !! l = Some id -> streams s' !! id = Some l -> streams s !! id = Some l).
  { intros l id Hl Hst. destruct (sy_streams _ _ _ Hs _ _ Hst) as [?|Hge]; [done|].
    assert (Hlt : (l < next_loc s)%nat) by (apply (nm_fresh _ _ Hn); by eexists). lia. }
  split; simpl r_frames.
  - destruct Hh as [Hc _]. rewrite Hc, I1. unfold conn_heard. by rewrite foldl_snoc.
  - intros l id Hl. rewrite (heard_at f g s s' l id Hn Hl Hh), stream_heard_snoc. case_bool_decide as Hx.
    + destruct Hx as [Hfs Hst]. rewrite (I3 l id) by done. rewrite hear_of_self by done. auto with lia.
    + destruct (needs_stream f) as [i|] eqn:En; [|destruct (hear_credit id f (stream_heard id (r_frames rc)) En) as (-> & -> & ?), (I2 l id Hl) as (-> & -> & ?); auto with lia].
      rewrite hear_of_other; [by apply I2|]. intros Hfs. apply Hx. split; [done|].
      assert (i = id) as -> by (destruct f; simplify_eq/=; done). destruct (Hneed id eq_refl) as [l' Hl']. rewrite Hl'. f_equal.
      by eapply (nm_inj _ _ Hn); [apply (nm_streams _ _ Hn)|].
  - intros l id Hl Hst. apply Hsub in Hst; [|done]. rewrite (heard_at f g s s' l id Hn Hl Hh), stream_heard_snoc, (I3 l id) by done.
    case_bool_decide as Hx; [by rewrite hear_of_self by apply Hx|]. rewrite hear_of_other; [done|]. intros ?. by apply Hx.
  - intros id Hi. assert (Hi0 : ~ issued s id) by (intros ?; by apply Hi, (sy_issued _ _ _ Hs)).
    rewrite stream_heard_snoc, hear_of_other; [by apply I4|]. intros Hfs. destruct (Hiss id Hfs) as [[l Hl]|?]; [|done].
    apply Hi0. by apply (nm_issued _ _ Hn l id), (nm_streams _ _ Hn).
  - apply Forall_app. split; [done|]. by constructor.
Qed.

(** A stream the peer opened has a new id. *)
Lemma remote_open_new id s u s' : on_remote_open id s = (Ok u, s') -> ~ issued s id.
Proof.
  intros H. apply bind_inv in H as (pa & s0 & [= <- <-] & H). apply bind_inv in H as (? & s0 & Hb & H).
  unfold bail_if in Hb. destruct (id mod 2 =? local_parity s) eqn:Ep; [done|]. injection Hb as _ <-.
  apply bind_inv in H as (nx & s0 & [= <- <-] & H). apply bind_inv in H as (? & s0 & Hb & _). unfold bail_if in Hb.
  destruct (Z.eqb_spec id (next_remote_stream_id s)) as [Hid|]; [|done]. unfold issued. rewrite Ep. lia.
Qed.

Lemma handle_names f g s s' : handle_frame f s = (Ok true, s') -> names_ok (g_names g) s -> newly_named g (name_frame f s s' g) s.
Proof.
  intros H Hn. destruct f; try (split_and!; simpl; auto; done). apply bind_inv in H as (q & s0 & [= <- <-] & H). apply bind_inv in H as (? & s0 & Hb & H).
  apply bail_same in Hb as ->. apply bind_inv in H as (u & s1 & H & [= <-]). apply remote_open_new in H. simpl. unfold renamed.
  case_decide; [split_and!; auto; done|]. split_and!; [done| |].
  - simpl. apply insert_subseteq. destruct (g_names g !! next_loc s) eqn:E; [|done].
    assert (Hlt : (next_loc s < next_loc s)%nat) by (apply (nm_fresh _ _ Hn); by eexists). lia.
  - simpl. intros l id [[<- <-]|[_ ?]]%lookup_insert_Some; [by right|by left].
Qed.

Lemma in_book_named g g' s s' rc : newly_named g g' s -> in_at s' (next_loc s) = (0, 0, false) ->
  (forall id, ~ issued s id -> stream_heard id (r_frames rc) = (0, 0, false)) -> in_book g s' rc -> in_book g' s' rc.
Proof.
  intros (_ & _ & Hnew) Hat Hun [I1 I2 I3 I4 I5]. split; try done.
  - intros l id Hl. destruct (Hnew l id Hl) as [?|[-> Hi]]; [by apply I2|]. rewrite Hat, Hun by done. auto with lia.
  - intros l id Hl Hst. destruct (Hnew l id Hl) as [?|[-> Hi]]; [by apply I3|]. by rewrite Hat, Hun.
Qed.

(** After CLOSE the reader stops. *)
Lemma handle_open f s s' : handle_frame f s = (Ok true, s') -> is_close f = false.
Proof.
  destruct f; try done. intros H. apply bind_inv in H as (q & s0 & [= <- <-] & H). apply bind_inv in H as (? & s0 & _ & H).
  by apply bind_inv in H as (? & ? & _ & ?).
Qed.

Lemma book_handled f g s0 s' rc : names_ok (g_names g) s0 -> fresh_loc s0 -> Frame.fits f -> handle_frame f s0 = (Ok true, s') ->
  in_book g s0 rc -> in_book (name_frame f s0 s' g) s' (add_frame f rc).
Proof.
  intros Hn Hf Hfit H Hi.
  destruct (handle_heard f s0 s' Hf) as (Hh & Hneed & Hiss); [|done..|].
  { intros id l Hl. apply (nm_dom _ _ Hn). eexists. by apply (nm_streams _ _ Hn). }
  pose proof (steady_handle f _ _ _ H) as Hs. pose proof (in_book_heard f g s0 s' rc Hn Hf Hs Hh Hneed Hiss (handle_open _ _ _ H) Hi) as Hb.
  eapply in_book_named; [by apply handle_names| | |exact Hb].
  - destruct Hh as [_ Hl]. rewrite Hl. unfold in_at. rewrite fresh_entry by done. simpl. rewrite bool_decide_false; [done|].
    intros (id & _ & Hst)%bind_Some. pose proof (nm_streams _ _ Hn _ _ Hst). assert (Hlt : (next_loc s0 < next_loc s0)%nat) by (apply (nm_fresh _ _ Hn); by eexists). lia.
  - intros id Hid. simpl. rewrite stream_heard_snoc, hear_of_other; [by apply Hi|]. intros Hfs. destruct (Hiss id Hfs) as [[l Hl]|?]; [|done].
    apply Hid. by apply (nm_issued _ _ Hn l id), (nm_streams _ _ Hn).
Qed.

(** ** A frame is taken *)

Lemma out_at_alter u l s k : (forall st, heap s !! l = Some st -> out_stream (u st) = out_stream st) ->
  out_at (s <| heap ::= alter u l |>) k = out_at s k.
Proof.
  intros Hu. unfold out_at, stream_credit_given. simpl. destruct (decide (l = k)) as [<-|]; [|by rewrite lookup_alter_ne].
  rewrite lookup_alter_eq. destruct (heap s !! l) eqn:E; [|done]. by apply Hu.
Qed.

(** The writer leaves the reader's books alone. *)
Definition in_same s s' : Prop := in_conn s' = in_conn s /\ streams s' = streams s /\ ids s' = ids s /\ forall l, in_at s' l = in_at s l.

Lemma in_book_same g g' s s' rc : in_same s s' -> g_names g' = g_names g -> in_book g s rc -> in_book g' s' rc.
Proof.
  intros (Hc & Hs & Hi & Hl) Hg [I1 I2 I3 I4 I5]. unfold ids in Hi. injection Hi as Hp Hnl Hnr. split; rewrite ?Hg, ?Hs, ?Hc; try done.
  - intros l id. rewrite Hl. apply I2.
  - intros l id. rewrite Hl. apply I3.
  - intros id. unfold issued. rewrite Hp, Hnl, Hnr. apply I4.
Qed.

Lemma in_at_same u l s k : (forall st, heap s !! l = Some st -> in_stream (u st) = in_stream st) -> in_at (s <| heap ::= alter u l |>) k = in_at s k.
Proof.
  intros Hu. rewrite in_at_alter. case_bool_decide as H; [subst|done]. unfold in_at. destruct (heap s !! k) eqn:E; [|done]. by apply Hu.
Qed.

Lemma core_books s s' : core_eq s s' -> out_conn s = out_conn s' /\ control (queues s) = control (queues s') /\ in_same s' s /\ forall l, out_at s l = out_at s' l.
Proof.
  intros Hc. pose proof (core_eq_queues _ _ Hc) as Hq. pose proof (core_eq_window _ _ Hc) as Hw.
  pose proof (f_equal limits Hc) as Hl. pose proof (f_equal streams Hc) as Hs. pose proof (f_equal local_parity Hc) as Hp.
  pose proof (f_equal next_local_stream_id Hc) as Hnl. pose proof (f_equal next_remote_stream_id Hc) as Hnr.
  pose proof (f_equal heap Hc) as Hh. simpl in *.
  assert (Hst : forall l, core_stream <$> heap s !! l = core_stream <$> heap s' !! l) by (intros l; by rewrite <- !lookup_fmap, Hh).
  unfold in_same, out_conn, in_conn, ids, out_at, in_at, stream_credit_given. rewrite Hq, Hw, Hl, Hs, Hp, Hnl, Hnr. split_and!; try done.
  - intros l. specialize (Hst l). destruct (heap s !! l) as [st|], (heap s' !! l) as [st'|]; try done. simpl in *.
    apply (inj Some) in Hst. unfold in_stream. pose proof (f_equal st_peer_limit Hst). pose proof (f_equal st_window Hst). pose proof (f_equal recv_terminal Hst). simpl in *. congruence.
  - intros l. specialize (Hst l). destruct (heap s !! l) as [st|], (heap s' !! l) as [st'|]; try done. simpl in *.
    apply (inj Some) in Hst. unfold out_stream. pose proof (f_equal st_window Hst). simpl in *. congruence.
Qed.

(** The entries of a frame that was taken. *)
Definition told g f s s' : Prop :=
  out_conn s' = (limits s, sent (queues s) + payload_len f, conn_credit_of f (advertised (receive_window s))) /\
  (forall l id, g_names g !! l = Some id -> out_at s' l = stream_credit_of id f (out_at s l)) /\
  (forall i m, f = MaxStreamData i m -> named g (VarInt.into_inner i)) /\
  (is_settings f = true -> f = settings_of lim) /\
  (forall x, x ∈ control (queues s') -> x ∈ control (queues s)).

Lemma out_book_told g f s s' : told g f s s' -> out_book g s -> out_book (emit f g) s'.
Proof.
  intros (Hc & Hl & Hm & Hset & Hctl) [O1 O2 O3 O4 O5 O6 O7]. injection Hc as H1 H2 H3. split; simpl.
  - congruence.
  - by rewrite H2, O2, total_snoc.
  - by rewrite H3, O3, conn_told_snoc.
  - intros l id Hn. rewrite stream_told_snoc, (Hl l id Hn). f_equal. by apply O4.
  - intros id Hn. rewrite stream_told_snoc, O5 by done. destruct f; try done. simpl. destruct (Z.eqb_spec (VarInt.into_inner stream_id) id) as [<-|]; [|done].
    destruct Hn. by eapply Hm.
  - rewrite Forall_forall in *. auto.
  - apply Forall_app. split; [done|]. by constructor.
Qed.

Lemma told_plain g f s s' : plain f = true \/ f = settings_of lim -> out_conn s' = out_conn s -> (forall l, out_at s' l = out_at s l) ->
  (forall x, x ∈ control (queues s') -> x ∈ control (queues s)) -> told g f s s'.
Proof.
  intros Hf Hc Hl Hctl. injection Hc as H1 H2 H3.
  assert (Hz : payload_len f = 0 /\ (forall n, conn_credit_of f n = n) /\ forall id n, stream_credit_of id f n = n) by (destruct Hf as [Hf| ->]; [by destruct f|done]).
  destruct Hz as (Hz1 & Hz2 & Hz3). unfold told, out_conn. rewrite H1, H2, H3, Hz1, Hz2, Z.add_0_r. split_and!; try done.
  - intros l id _. by rewrite Hz3, Hl.
  - intros i m ->. by destruct Hf.
  - destruct Hf as [Hf| ->]; [|done]. by destruct f.
Qed.

Lemma raised_max (w : ReceiveWindow) : ReceiveWindow.inv w -> Z.max (ReceiveWindow.next_limit w) (advertised w) = advertised (ReceiveWindow.raised w).
Proof. intros [_ _ _ Ha]. simpl. lia. Qed.

Lemma outcome_told g s f s' : send_inv g s -> out_book g s -> outcome s (Ready (Some f)) s' -> told g f s s' /\ in_same s s'.
Proof.
  intros Hi Hb Ho. pose proof (sv_writer _ _ Hi) as Hw. pose proof (sv_names _ _ Hi) as Hn. remember (Ready (Some f)) as p eqn:Hp.
  destruct Ho as [f' rest _ Hc _|_ _ _ Hneed|id l st _ _ _ _ Hwin Hl _ Hneed|pre id post c rest st s' _ _ _ Hsd n Hs' _|turn _|]; simplify_eq.
  - split; [|done]. pose proof (ob_control _ _ Hb) as Hctl. rewrite Hc in Hctl. apply Forall_cons in Hctl as [Hf _].
    apply told_plain; try done. intros x Hx. rewrite Hc. by right.
  - split; [|done]. split_and!; try done. unfold out_conn. simpl. by rewrite Z.add_0_r, raised_max by apply Hw.
  - split.
    2:{ split_and!; try done. intros k. apply (in_at_same raise_window l s). intros st' _. done. }
    pose proof (nm_windows _ _ Hn _ _ Hwin) as Hname. split_and!; try done.
    + unfold out_conn. simpl. by rewrite Z.add_0_r.
    + intros k i Hk. simpl. unfold out_at at 1, stream_credit_given. simpl. destruct (decide (l = k)) as [<-|Hne].
      * assert (i = id) as -> by congruence. rewrite Z.eqb_refl, lookup_alter_eq, Hl. simpl. unfold out_at. rewrite Hl. simpl.
        symmetry. apply raised_max. by apply (wi_heap _ Hw l st).
      * rewrite lookup_alter_ne by done. destruct (Z.eqb_spec id i) as [<-|]; [|done]. destruct Hne. by eapply (nm_inj _ _ Hn).
    + intros i m [= <- _]. by exists l.
  - assert (Hlen : zlen (sent_payload c n) = n) by (apply zlen_take; by apply (send_count_bounds s pre id post c rest st)).
    destruct (core_books _ _ Hs') as (Hc & Hctl & Hin & Hout). split.
    + split_and!; try done.
      * rewrite Hc. unfold out_conn. simpl. rewrite Hlen. f_equal. f_equal. lia.
      * intros l i Hl. rewrite Hout. simpl. unfold sent_state. rewrite out_at_alter; [done|]. by intros.
      * rewrite Hctl. done.
    + destruct Hin as (H1 & H2 & H3 & H4). split_and!; try done. intros l. rewrite H4. unfold sent_state. rewrite in_at_same; [done|]. by intros.
  - split; [|done]. destruct (close_frame (queues s)) as [f'|] eqn:E; [|done]. simplify_eq/=.
    destruct (fit_close_cut s f' Hw E) as (c & r0 & r & _ & -> & _). apply told_plain; try done. by left.
Qed.

(** ** The events *)

Lemma named_same g s : newly_named g g s.
Proof. split_and!; auto. Qed.

Lemma named_same_names g g' s : g_trace g' = g_trace g -> g_names g' = g_names g -> newly_named g g' s.
Proof. intros Ht Hn. split_and!; [done|by rewrite Hn|]. intros l id. rewrite Hn. by left. Qed.

(** A stream the application opened has a new id. *)
Lemma open_new s id l s' : next_local_stream_id s mod 2 = local_parity s -> open_bi_admitted s = (Ok (Ready (id, l)), s') ->
  l = next_loc s /\ ~ issued s id.
Proof.
  intros Hp H. unfold open_bi_admitted in H. apply bind_inv in H as (sem & s1 & [= <- <-] & H).
  destruct (acquire_many 1 (open_streams s)) as [| |p sem]; try done. apply bind_inv in H as (? & s1 & [= _ <-] & H).
  apply bind_inv in H as (? & s1 & Hen & H).
  assert (s1 = s <| open_streams := sem |>) as ->.
  { apply or_drop_ok, bind_inv in Hen as (c & s2 & [= <- <-] & Hen). by apply bail_same in Hen. }
  apply bind_inv in H as (q & s1 & [= <- <-] & H). apply bind_inv in H as (max & s1 & [= <- <-] & H). simpl in H.
  match type of H with (if ?b then _ else _) _ = _ => destruct b end; [by do 2 (apply bind_inv in H as (? & ? & _ & H))|].
  apply bind_inv in H as (n & s1 & Hid & H). apply bind_inv in H as (l0 & s2 & Hn & H). injection Hn as <- <-.
  apply bind_inv in H as (? & s3 & Hs3 & H). unfold or_drop_permit, on_err, lift in Hs3.
  destruct (proto_stream_id n); [injection Hs3 as _ <-|done..]. injection H as <- <- _. simpl.
  unfold or_drop_permit, on_err, take_stream_id in Hid. cbv [mbind M_bind gets modify mret M_ret fail] in Hid. simpl in Hid.
  destruct (next_local_stream_id s <=? VarInt.MAX); [|done]. injection Hid as <- <-. split; [done|].
  unfold issued. rewrite Hp, Z.eqb_refl. lia.
Qed.

Lemma named_opened g s id l s' : names_ok (g_names g) s -> open_bi_admitted s = (Ok (Ready (id, l)), s') -> newly_named g (name l id g) s.
Proof.
  intros Hn H. destruct (open_new s id l s') as [-> Hi]; [apply Hn|done|]. split_and!; [done|simpl|simpl].
  - apply insert_subseteq. destruct (g_names g !! next_loc s) eqn:E; [|done].
    assert (Hlt : (next_loc s < next_loc s)%nat) by (apply (nm_fresh _ _ Hn); by eexists). lia.
  - intros k i [[<- <-]|[_ ?]]%lookup_insert_Some; [by right|by left].
Qed.

Lemma exec_named e w w' : world_inv lim w -> on_wire e = false -> exec e w = Next w' -> newly_named (w_hist w) (w_hist w') (w_conn w).
Proof.
  intros Hw He Hx. pose proof (world_names lim w Hw) as Hn. destruct (opens e) eqn:Eo.
  - destruct e; try done; cbn [exec exec_app] in Hx.
    + unfold with_handle in Hx. destruct (0 <? _); [|done]. apply perform_inv in Hx as (r & s & -> & Hr).
      destruct r as [[[id l]|]|]; [|apply named_same..]. apply bind_inv in Hr as (u & s1 & Hs1 & Hr). assert (s1 = w_conn w) as ->.
      { unfold ensure_open in Hs1. cbv [mbind M_bind gets bail_if] in Hs1. destruct (closed (w_conn w)); [done|by injection Hs1]. }
      simpl. by eapply named_opened.
    + destruct (w_opening w) as [|n]; [done|]. apply perform_inv in Hx as (r & s & -> & Hr).
      destruct r as [[[id l]|]|]; [|apply named_same..]. simpl. by eapply named_opened.
  - assert (Hg : g_names (w_hist w') = g_names (w_hist w)).
    { clear Hw Hn. destruct e; try done; simpl in Hx; unfold with_handle, with_sender, with_receiver, with_send in Hx;
        event_inv Hx; simplify_eq; simpl; rewrite ?record_names; done. }
    apply named_same_names; [|done]. apply (exec_quiet e w w'); [by destruct e|done].
Qed.

Lemma book_quiet e w w' rc : world_inv lim w -> book w rc -> on_wire e = false -> exec e w = Next w' -> book w' (note e w w' rc).
Proof.
  intros Hw [Ho Hi] He Hx. pose proof (books_exec e w He) as Hs. rewrite Hx in Hs. simpl in Hs.
  pose proof (exec_named e w w' Hw He Hx) as Hn. pose proof (world_names lim w Hw) as Hnm. pose proof (world_fresh lim w Hw) as Hf.
  assert (Hr : r_frames (note e w w' rc) = r_frames rc) by (unfold note; destruct e; try done; simpl; destruct (w_reader w'); by rewrite app_nil_r).
  split; [by eapply out_book_move; [..|apply named_weaken|]|]. intros Hrd. apply (exec_reader e w w' Hx) in Hrd.
  destruct (in_book_move _ _ _ _ rc Hnm Hf Hs Hn (Hi Hrd)) as [I1 I2 I3 I4 I5]. by split; rewrite ?Hr.
Qed.

(** *** The writer *)

Lemma book_steady w s' w' rc : world_inv lim w -> book w rc -> steady true (w_conn w) s' -> w_conn w' = s' -> w_hist w' = w_hist w ->
  w_reader w' = w_reader w -> book w' rc.
Proof.
  intros Hw [Ho Hi] Hs Hc Hh Hr. pose proof (world_names lim w Hw) as Hnm. pose proof (world_fresh lim w Hw) as Hf.
  unfold book. rewrite Hc, Hh, Hr. split; [by eapply out_book_move, Ho; [..|apply named_weaken, named_same]|].
  intros Hrd. by eapply in_book_move, Hi; [..|apply named_same|].
Qed.

(** No frame was taken. *)
Lemma outcome_none s p s' : outcome s p s' -> (forall f, p <> Ready (Some f)) -> steady true s s'.
Proof. intros Ho Hp. destruct Ho; try (by edestruct Hp); by apply steady_rest. Qed.

Lemma note_writer ok w w' rc : note (Writer ok) w w' rc = rc.
Proof. by apply note_none. Qed.

Lemma book_writer ok w w' rc : world_inv lim w -> book w rc -> exec (Writer ok) w = Next w' -> book w' (note (Writer ok) w w' rc).
Proof.
  intros Hw Hb Hx. rewrite note_writer. pose proof Hw as [_ [[Hsi _ _] _] _ _ _]. pose proof (sv_writer _ _ Hsi) as Hwi.
  cbn [exec exec_task] in Hx. apply perform_inv in Hx as (r & s' & -> & Hr). destruct (w_writer w) eqn:Ew.
  2-4: eapply (book_steady w s'); [done|done| |unfold writer_turned; by repeat case_match..];
    destruct r as [t|]; [|destruct Hr as [e Hr]]; (eapply (steady_writer ok); [|exact Hr]; done).
  pose proof (wp_next_frame _ Hwi) as Hwp. unfold wp in Hwp. simpl in Hr. unfold mbind, M_bind in Hr.
  destruct (next_frame (w_conn w)) as [[p|e|] s1] eqn:E; [|done..]. destruct r as [t|]; [|by destruct Hr].
  injection Hr as <- <-. unfold writer_turned. rewrite Ew. destruct p as [[f|]|].
  - destruct (outcome_fits _ f s1 Hwi Hwp) as (_ & n & Hn & _). rewrite (encode_wf f n Hn).
    destruct Hb as [Ho Hi]. destruct (outcome_told _ _ _ _ Hsi Ho Hwp) as [Ht Hs].
    split; [by eapply out_book_told|]. simpl. intros Hrd. by eapply in_book_same, Hi.
  - eapply (book_steady w s1); [done|done| |done..]. by eapply outcome_none.
  - eapply (book_steady w s1); [done|done| |done..]. by eapply outcome_none.
Qed.

(** *** The reader *)

Lemma item_names item g s s' : names_ok (g_names g) s -> names_ok (g_names (name_item item s s' g)) s' ->
  gives_names (fun id => ~ named g id) g (name_item item s s' g) s.
Proof.
  intros Hn Hn'. assert (Hsame : gives_names (fun id => ~ named g id) g g s) by (split_and!; auto).
  destruct item as [b| | | |]; try done. simpl in *. destruct (Frame.decode b).1 as [[]| |]; try done. simpl in *. unfold renamed in *.
  case_decide; [done|]. simpl in Hn'. assert (Hx : g_names g !! next_loc s = None).
  { destruct (g_names g !! next_loc s) eqn:E; [|done]. assert (Hlt : (next_loc s < next_loc s)%nat) by (apply (nm_fresh _ _ Hn); by eexists). lia. }
  split_and!; [done|by apply insert_subseteq|]. simpl. intros l id [[<- <-]|[_ ?]]%lookup_insert_Some; [right|by left]. split; [done|].
  intros [l' Hl']. assert (l' = next_loc s); [|congruence]. eapply (nm_inj _ _ Hn'); [rewrite lookup_insert_ne; [exact Hl'|congruence]|by rewrite lookup_insert_eq].
Qed.

Lemma book_reader item w w' rc : world_inv lim w -> book w rc -> exec (Reader item) w = Next w' -> book w' (note (Reader item) w w' rc).
Proof.
  intros Hw [Ho Hi] Hx. pose proof (world_names lim w Hw) as Hnm. pose proof (world_fresh lim w Hw) as Hf.
  pose proof (safe_exec lim (Reader item) w Hw eq_refl) as Hw'. rewrite Hx in Hw'. simpl in Hw'. pose proof (world_names lim w' Hw') as Hnm'.
  cbn [exec exec_task] in Hx. destruct (w_reader w && item_ready item (w_conn w)) eqn:Er; [|done].
  apply andb_true_iff in Er as [Er _]. specialize (Hi Er). rewrite note_frame.
  apply perform_inv in Hx as (r & s' & -> & Hr). unfold book. simpl.
  assert (Hs : steady false (w_conn w) s') by (destruct r; [|destruct Hr as [e Hr]]; by eapply steady_reader).
  assert (Hg : gives_names (fun id => ~ named (w_hist w) id) (w_hist w) (name_item item (w_conn w) s' (w_hist w)) (w_conn w)) by (by apply item_names).
  split; [exact (out_book_move false _ _ _ _ Hnm Hf Hs Hg Ho)|]. destruct r as [b|]; [|done]. simpl. intros ->.
  destruct (reader_ok_run _ _ _ Hr) as (bs & f & c & -> & Hdec & Hrun). simpl. rewrite Hdec.
  destruct (Frame.decode_cases bs) as [(e & rest & Hd)|(f' & Hd & _ & Hfit & _)]; rewrite Hd in Hdec; [done|]. injection Hdec as ->.
  assert (name_frame f (w_conn w) s' (w_hist w) = name_frame f ((w_conn w) <| stats := c |>) s' (w_hist w)) as -> by (by destruct f).
  eapply (book_handled f (w_hist w) ((w_conn w) <| stats := c |>) s' rc); try done; [destruct Hnm; by split|].
  by eapply in_book_same, Hi.
Qed.

(** A name stays. *)
Lemma exec_names e w w' : world_inv lim w -> typed e = true -> exec e w = Next w' -> g_names (w_hist w) ⊆ g_names (w_hist w').
Proof.
  intros Hw Ht Hx. destruct (on_wire e) eqn:Ew; [|by apply (exec_named e w w')].
  pose proof (safe_exec lim e w Hw Ht) as Hw'. rewrite Hx in Hw'. destruct e as [| | | | | | | | | | | | | | | | | | | |item|ok| | | | |]; try done; cbn [exec exec_task] in Hx.
  - destruct (_ && _); [|done]. apply perform_inv in Hx as (r & s' & -> & _). apply (item_names item (w_hist w) (w_conn w) s'); [by apply (world_names lim)|exact (world_names lim _ Hw')].
  - apply perform_inv in Hx as (r & s' & -> & _). unfold writer_turned. by repeat case_match.
Qed.

(** ** Every execution *)

Lemma varint_expected n v : (expect (ok (VarInt.from_u64 n)) : Result Error VarInt) = Ok v -> v = mkVarInt n.
Proof. unfold VarInt.from_u64. destruct (VarInt.MAX <? n); [done|]. by intros [= <-]. Qed.

Lemma book_new is_client keepalive s : connection_new lim is_client = Ok s -> book (world_new keepalive s) (mkReceipt [] ∅).
Proof.
  intros Hn. unfold connection_new in Hn. apply bind_ok_iff in Hn as (? & _ & Hn).
  apply bind_ok_iff in Hn as (a & ->%varint_expected & Hn). apply bind_ok_iff in Hn as (b & ->%varint_expected & Hn).
  apply bind_ok_iff in Hn as (c & ->%varint_expected & Hn). injection Hn as <-.
  split; [split|split]; simpl; try done. constructor; [by right|done].
Qed.

Lemma history_book w rc : history lim w rc -> book w rc.
Proof.
  induction 1 as [is_client keepalive s Hu Hn|w e w' rc Hh IH Ht He]; [by eapply book_new|].
  assert (Hw : world_inv lim w) by (by apply runs_inv, (history_runs _ _ rc)).
  destruct (on_wire e) eqn:Ew; [|by eapply book_quiet]. destruct e; try done; [by apply book_reader|by apply book_writer].
Qed.

End books_spec.
