(* ===== verification/Pair.v ===== *)
(** A client and a server joined by a transport that keeps the order of the frames: what
    one application reads of a stream is what the other one wrote to it. *)

From S2P Require Import Prelude Hoare Buf Varint Utf8 Frames Errors Limits Flow Tokio.
From S2P Require Import ConnState Inbound InboundSpec Writer WriterSpec Scheduler Connection Streams Tasks.
From S2P Require Import ReceiveSpec ReadSpec ReceiveSystem ConnectionSpec Ledger SendSpec SendInv SendOps Halves.
From S2P Require Import SendPeer Duplex DuplexOps SendDuplex System SystemInv SystemSpec Fade Delivery DeliveryReader Receive Events.

#[local] Open Scope Z_scope.

Section pair.
Context {TK : Tokio} {HI : HashIter}.

(** ** Two ends *)

(** A connection with its history, and the number of frames of the other end that the
    transport has brought. *)
Record End := mkEnd { e_world : World; e_receipt : Receipt; e_taken : nat }.
Record Pair := mkPair { client : End; server : End }.
Inductive Side := Client | Server.

Definition other (x : Side) : Side := match x with Client => Server | Server => Client end.
Definition end_at (p : Pair) (x : Side) : End := match x with Client => client p | Server => server p end.
Definition put (x : Side) (n : End) (p : Pair) : Pair :=
  match x with Client => mkPair n (server p) | Server => mkPair (client p) n end.

(** What the codec of the receiving end makes of a frame: an item, or an error when the
    frame is longer than the limit that [spawn_connection_tasks] gave it. *)
Definition arriving (max_frame_size : Z) (f : Frame) : ReaderItem :=
  match encode_frame f with
  | Some b => if zlen b <=? max_frame_size then RFrame b else RDecodeError
  | None => RDecodeError
  end.

(** Something happens at one end, which is not a frame from nowhere, or the next frame
    of the other end's sink arrives. *)
Inductive PairEvent := At (x : Side) (e : Event) | Arrive (x : Side).

Definition own (e : Event) : bool := match e with Reader (RFrame _) => false | _ => true end.

Definition happens (e : Event) (taken : nat) (n : End) : option End :=
  match exec e (e_world n) with
  | Next w' => Some (mkEnd w' (note e (e_world n) w' (e_receipt n)) taken)
  | _ => None
  end.

Definition exec_pair (pe : PairEvent) (p : Pair) : option Pair :=
  match pe with
  | At x e =>
      let n := end_at p x in
      if own e && typed e then n' ← happens e (e_taken n) n; Some (put x n' p) else None
  | Arrive x =>
      let n := end_at p x in
      f ← w_wire (e_world (end_at p (other x))) !! e_taken n;
      n' ← happens (Reader (arriving (max_frame_size (limits (w_conn (e_world n)))) f)) (S (e_taken n)) n;
      Some (put x n' p)
  end.

Definition end_new (keepalive : bool) (s : ConnectionShared) : End := mkEnd (world_new keepalive s) (mkReceipt [] ∅) 0.

(** The executions of two connections over one transport. *)
Inductive joined (limc lims : Limits) : Pair -> Prop :=
| joined_new kc ks sc ss : Limits.unsigned limc -> Limits.unsigned lims ->
    connection_new limc true = Ok sc -> connection_new lims false = Ok ss ->
    joined limc lims (mkPair (end_new kc sc) (end_new ks ss))
| joined_event p pe p' : joined limc lims p -> exec_pair pe p = Some p' -> joined limc lims p'.

Fixpoint exec_pairs (es : list PairEvent) (p : Pair) : option Pair :=
  match es with
  | [] => Some p
  | e :: es => p' ← exec_pair e p; exec_pairs es p'
  end.

Lemma joined_all limc lims es p p' : joined limc lims p -> exec_pairs es p = Some p' -> joined limc lims p'.
Proof.
  revert p. induction es as [|e es IH]; intros p Hj; simpl; [by intros [= <-]|].
  intros (p1 & Hp & Hes)%bind_Some. eapply IH; [by eapply joined_event|done].
Qed.

End pair.

Section sent.
Context {TK : Tokio} {TKL : TokioLaws TK} {HI : HashIter} {HIL : HashIterLaws HI}.

Lemma arriving_frame n f g : sendable_frame f -> frame_of (Reader (arriving n f)) = Some g -> g = f.
Proof.
  intros [Hw Hf]. destruct (Frame.frame_encode_written f ([] : bytes) Hf) as (o & He & Hwr). unfold arriving, encode_frame. rewrite He.
  assert (o = Frame.enc f) as -> by exact Hwr. destruct (_ <=? n); [|done]. simpl. rewrite Frame.frame_decode_enc by done. by intros [= ->].
Qed.

(** ** The frames received are those sent *)

(** The reader goes on only after a frame. *)
Lemma reader_goes_on item w w' : exec (Reader item) w = Next w' -> w_reader w' = true -> exists f, frame_of (Reader item) = Some f.
Proof.
  simpl. destruct (_ && _); [|done]. intros (r & s & -> & H)%perform_inv. simpl. destruct r as [[]|]; try done. intros _.
  apply bind_inv in H as (b & s1 & H & Hb). destruct b; [|by apply bind_inv in Hb as (? & ? & _ & ?)].
  destruct item as [bs| | | |]; [|try done..].
  - apply reader_frame_run in H as (s0 & _ & _ & _ & _ & H). destruct (Frame.decode bs).1 as [f|e|]; [by exists f|by destruct H..].
  - by apply bind_inv in H as (? & ? & _ & ?).
Qed.

(** The frames that one end handled are those the transport brought, as long as its
    reader runs, and a first part of them later. *)
Record linked (from to : End) : Prop := {
  lk_taken : (e_taken to <= length (w_wire (e_world from)))%nat;
  lk_prefix : r_frames (e_receipt to) `prefix_of` take (e_taken to) (w_wire (e_world from));
  lk_exact : w_reader (e_world to) = true -> r_frames (e_receipt to) = take (e_taken to) (w_wire (e_world from))
}.

Lemma linked_sender from from' to : w_wire (e_world from) `prefix_of` w_wire (e_world from') -> linked from to -> linked from' to.
Proof.
  intros [k Hk] [Ht Hp He]. split; rewrite Hk, ?length_app, ?take_app_le by done; [lia|done..].
Qed.

Lemma linked_own from to e to' : own e = true -> happens e (e_taken to) to = Some to' -> linked from to -> linked from to'.
Proof.
  unfold happens. intros Ho H [Ht Hp He]. destruct (exec e (e_world to)) as [| |w'] eqn:E; [done..|]. injection H as <-.
  assert (Hf : frame_of e = None) by (by destruct e as [| | | | | | | | | | | | | | | | | | | |[]| | | | | |]). split; simpl; rewrite ?Hf; simpl; [done|..].
  - by destruct (w_reader w'); rewrite app_nil_r.
  - intros Hw. rewrite Hw, app_nil_r. apply He. by eapply exec_reader.
Qed.

Lemma linked_arrive lim from to n f to' : runs lim (e_world from) -> w_wire (e_world from) !! e_taken to = Some f ->
  happens (Reader (arriving n f)) (S (e_taken to)) to = Some to' -> linked from to -> linked from to'.
Proof.
  unfold happens. intros Hr Hf H [Ht Hp He]. destruct (exec _ (e_world to)) as [| |w'] eqn:E; [done..|]. injection H as <-.
  assert (Hw : w_reader (e_world to) = true) by (simpl in E; by destruct (w_reader (e_world to))).
  pose proof (arriving_frame n f) as Ha. specialize (He Hw). pose proof (reader_goes_on _ _ _ E) as Hgo.
  assert (Hs : sendable_frame f) by (by eapply wire_sendable, list_elem_of_lookup_2).
  assert (Hx : w_reader w' = true -> r_frames (e_receipt to) ++ option_list (frame_of (Reader (arriving n f)))
    = take (S (e_taken to)) (w_wire (e_world from))).
  { intros Hw'. destruct (Hgo Hw') as (g & Hg). rewrite Hg. rewrite (Ha g Hs Hg). by rewrite He, (take_S_r _ _ _ Hf). }
  split; cbn [e_taken e_receipt e_world note r_frames].
  - apply lookup_lt_Some in Hf. lia.
  - destruct (w_reader w'); [by rewrite Hx|]. rewrite app_nil_r, He, (take_S_r _ _ _ Hf). by apply prefix_app_r.
  - intros Hw'. rewrite Hw'. by apply Hx.
Qed.

(** Both ends are executions of a connection, linked both ways. *)
Record pair_ok limc lims (p : Pair) : Prop := {
  pr_client : history limc (e_world (client p)) (e_receipt (client p));
  pr_server : history lims (e_world (server p)) (e_receipt (server p));
  pr_up : linked (client p) (server p);
  pr_down : linked (server p) (client p)
}.

Lemma happens_history lim e k n n' : typed e = true -> happens e k n = Some n' -> history lim (e_world n) (e_receipt n) ->
  history lim (e_world n') (e_receipt n') /\ w_wire (e_world n) `prefix_of` w_wire (e_world n').
Proof.
  unfold happens. intros Ht H Hh. destruct (exec e (e_world n)) as [| |w'] eqn:E; [done..|]. injection H as <-.
  split; [by apply (history_event lim _ e)|by eapply exec_wire].
Qed.

Lemma pair_step limc lims p pe p' : pair_ok limc lims p -> exec_pair pe p = Some p' -> pair_ok limc lims p'.
Proof.
  intros [Hc Hs Hu Hd] H. destruct pe as [x e|x]; simpl in H.
  - destruct (own e && typed e) eqn:E; [|done]. apply andb_true_iff in E as [Eo Et]. apply bind_Some in H as (n' & Hn & [= <-]).
    destruct x; simpl in *.
    + destruct (happens_history _ _ _ _ _ Et Hn Hc). split; simpl; [done..|by eapply linked_sender|by eapply linked_own].
    + destruct (happens_history _ _ _ _ _ Et Hn Hs). split; simpl; [done..|by eapply linked_own|by eapply linked_sender].
  - apply bind_Some in H as (f & Hf & H). apply bind_Some in H as (n' & Hn & [= <-]). destruct x; simpl in *.
    + apply (happens_history limc) in Hn as Hn'; [|done..]. destruct Hn'. split; simpl; [done..|by eapply linked_sender|].
      eapply linked_arrive; [by eapply history_runs|done..].
    + apply (happens_history lims) in Hn as Hn'; [|done..]. destruct Hn'. split; simpl; [done..| |by eapply linked_sender].
      eapply linked_arrive; [by eapply history_runs|done..].
Qed.

Lemma joined_ok limc lims p : joined limc lims p -> pair_ok limc lims p.
Proof.
  induction 1 as [kc ks sc ss ? ? Hc Hs|p pe p' _ IH H]; [|by eapply pair_step].
  split; simpl; [by eapply history_new..|split; simpl; [lia|done..]|split; simpl; [lia|done..]].
Qed.

(** ** The streams *)

Lemma received_sent lim from to id : runs lim (e_world from) -> linked from to ->
  data (e_receipt to) id `prefix_of` accepted (w_hist (e_world from)) id /\
  (finished (e_receipt to) id = true -> data (e_receipt to) id = accepted (w_hist (e_world from)) id).
Proof.
  intros Hr [_ Hp _]. destruct (wire_integrity lim _ Hr) as (_ & Ho & Hid). destruct (Hid id) as [Hpre Hall].
  assert (Hw : r_frames (e_receipt to) `prefix_of` w_wire (e_world from)) by (etransitivity; [exact Hp|apply prefix_take]).
  unfold data, finished. split; [etransitivity; [by apply sent_data_prefix|done]|]. intros Hf.
  rewrite (sent_data_fin id _ _ Hw Ho Hf). apply Hall. destruct Hw as [k ->]. by rewrite existsb_app, Hf.
Qed.

(** [read_chunk] reports the end of a stream that was not reset. *)
Lemma read_end_run h s s' st : heap s !! rs_state h = Some st -> recv_read_chunk h s = (Ok (Ready None), s') ->
  content st = [] /\ over st = true /\ reset_error (inbound st) = None.
Proof.
  intros Hl H. apply bind_inv in H as (u & s1 & Hsel & H).
  assert (Hs1 : exists m, heap s1 !! rs_state h = Some (st <| recv_mode := m |>)).
  { unfold select_recv_mode, mbind, M_bind, get_state, lift in Hsel. rewrite Hl in Hsel. destruct (select_mode _ _); try done.
    unfold upd_state, modify in Hsel. injection Hsel as _ <-. simpl. rewrite lookup_alter_eq, Hl. by eexists. }
  destruct Hs1 as [m Hl1]. apply bind_inv in H as (p & s2 & Hrd & H). unfold read_chunk, mbind, M_bind, get_state in Hrd. rewrite Hl1 in Hrd.
  simpl in Hrd. destruct (reset_error (inbound st)); [done|]. unfold content. destruct (chunks (inbound st)) as [|c cs].
  - unfold over. destruct (fin_received (inbound st) || recv_terminal st); [done|]. destruct (connection_closed _); [done|]. by injection Hrd as <- _.
  - injection Hrd as <- _. by apply bind_inv in H as (? & ? & _ & ?).
Qed.

(** Then all that was received was read. *)
Lemma read_end_all lim w rc h s' : history lim w rc -> h ∈ w_receivers w -> recv_read_chunk h (w_conn w) = (Ok (Ready None), s') ->
  finished rc (rs_stream_id h) = true /\ got rc (rs_state h) = data rc (rs_stream_id h).
Proof.
  intros Hh Hx Hread. pose proof (dv_slots _ _ _ _ (history_delivery _ _ _ Hh)) as Hs. rewrite Forall_forall in Hs.
  destruct (Hs (handled h)) as [_ (st & Hl & [_ Fe _ Fo _ _] & Hm)].
  { unfold slots, slots_of. apply elem_of_app. right. by apply (list_elem_of_fmap_2 handled). }
  unfold slot_loc in *. simpl in *. destruct (read_end_run _ _ _ _ Hl Hread) as (Hc & Ho & Hn). split; [by apply Fo|].
  rewrite <- (Fe Hn), Hc, app_nil_r. destruct (chunk_bytes (hand h)) eqn:E; [by rewrite app_nil_r|].
  by destruct (recv_read_mode _ _ _ _ _ Hl Hread); apply Hm.
Qed.

(** What the end [to] read of the streams, against what the end [from] wrote. *)
Definition read_is_written (from to : End) : Prop :=
  let w := e_world to in
  (forall l id, g_names (w_hist w) !! l = Some id -> got (e_receipt to) l `prefix_of` accepted (w_hist (e_world from)) id) /\
  forall h, h ∈ w_receivers w -> exists st, heap (w_conn w) !! rs_state h = Some st /\
    let id := rs_stream_id h in
    let seen := got (e_receipt to) (rs_state h) ++ unread h st in
    seen `prefix_of` accepted (w_hist (e_world from)) id /\
    (reset_error (inbound st) = None -> w_reader w = true -> seen = sent_data id (take (e_taken to) (w_wire (e_world from)))) /\
    (reset_error (inbound st) = None -> over st = true -> seen = accepted (w_hist (e_world from)) id) /\
    (forall s', recv_read_chunk h (w_conn w) = (Ok (Ready None), s') ->
      got (e_receipt to) (rs_state h) = accepted (w_hist (e_world from)) id).

Lemma linked_streams limf limt from to : runs limf (e_world from) -> history limt (e_world to) (e_receipt to) -> linked from to ->
  read_is_written from to.
Proof.
  intros Hr Hh Hk. pose proof (history_delivery _ _ _ Hh) as [_ Hs Hrd _ _]. split.
  - intros l id Hl. etransitivity; [by apply Hrd|by eapply received_sent].
  - intros h Hx. rewrite Forall_forall in Hs. destruct (Hs (handled h)) as [_ (st & Hl & Hf & Hm)].
    { unfold slots, slots_of. apply elem_of_app. right. by apply (list_elem_of_fmap_2 handled). }
    unfold slot_loc in *. simpl in *. exists st. destruct (received_sent limf from to (rs_stream_id h) Hr Hk) as [Hp He].
    destruct Hf as [Fp Fe _ Fo _ _]. rewrite <- app_assoc in Fp, Fe. fold (unread h st) in Fp, Fe. split; [done|].
    assert (Hover : reset_error (inbound st) = None -> over st = true ->
      got (e_receipt to) (rs_state h) ++ unread h st = accepted (w_hist (e_world from)) (rs_stream_id h)).
    { intros Hn Ho. rewrite (Fe Hn). by apply He, Fo. }
    split_and!; [by etransitivity| |done|].
    + intros Hn Hw. rewrite (Fe Hn). unfold data. by rewrite (lk_exact _ _ Hk Hw).
    + intros s' Hread. destruct (read_end_all _ _ _ _ _ Hh Hx Hread) as [Hfin ->]. by apply He.
Qed.

(** C3: a client and a server run over one transport that keeps the order of the frames,
    and the applications, the tasks and the transport act in any order.  At either end,
    the bytes read of a stream are a first part of those that the other end's sends were
    told were accepted, in their order and once; so are they with the bytes that wait to
    be read.  Of a stream that was not reset, those two together are the bytes of every
    frame that arrived while the reader runs, and once the stream is over they are all
    that the other end accepted: when [read_chunk] reports the end of a stream, every byte
    written to it was read. *)
Theorem end_to_end limc lims p x : joined limc lims p -> read_is_written (end_at p (other x)) (end_at p x).
Proof.
  intros [Hc Hs Hu Hd]%joined_ok. destruct x; simpl.
  - by apply (linked_streams lims limc); [eapply history_runs|..].
  - by apply (linked_streams limc lims); [eapply history_runs|..].
Qed.

End sent.

(** ** A run *)

#[local] Existing Instance counting.
#[local] Existing Instance counting_laws.
#[local] Existing Instance hash_list.
#[local] Existing Instance hash_list_laws.

(** SETTINGS are exchanged; the client opens a stream, writes three bytes and finishes it;
    the frames arrive, and the server accepts the stream and reads it. *)
Definition demo_start : Pair :=
  mkPair (end_new false (get_ok (connection_new demo_limits true) eq_refl))
    (end_new false (get_ok (connection_new demo_limits false) eq_refl)).
Definition flush (x : Side) : list PairEvent := [At x (Writer true); At x (Writer true); Arrive (other x)].
Definition demo_schedule : list PairEvent :=
  flush Client ++ flush Server ++ [At Client Open; At Client (WriteChunk 0 [x61; x62; x63]); At Client (Finish 0)] ++
  flush Client ++ flush Client ++ flush Client ++ [At Server Accept; At Server (ReadChunk 0)].
Definition pair_after (es : list PairEvent) (p : Pair) : Pair := default p (exec_pairs es p).
Definition demo_pair : Pair := pair_after demo_schedule demo_start.

Lemma joined_after limc lims es p : joined limc lims p -> bool_decide (is_Some (exec_pairs es p)) = true ->
  joined limc lims (pair_after es p).
Proof.
  intros Hj [p' Hp]%bool_decide_eq_true. apply (joined_all _ _ es p); [done|]. unfold pair_after. by rewrite Hp.
Qed.

Lemma demo_start_joined : joined demo_limits demo_limits demo_start.
Proof. apply joined_new; [apply demo_unsigned..|vm_compute; reflexivity|vm_compute; reflexivity]. Qed.

Lemma demo_joined : joined demo_limits demo_limits demo_pair.
Proof. apply joined_after; [apply demo_start_joined|vm_compute; reflexivity]. Qed.

Definition first_end (n : End) : option bool :=
  h ← w_receivers (e_world n) !! 0%nat;
  match recv_read_chunk h (w_conn (e_world n)) with (Ok (Ready None), _) => Some true | _ => Some false end.

(** The run gets to the end of the stream. *)
Example demo_read : map_to_list (r_read (e_receipt (server demo_pair))) = [(0%nat, [x61; x62; x63])] /\
  first_end (server demo_pair) = Some true /\ e_taken (server demo_pair) = 4%nat.
Proof. vm_compute. repeat split; reflexivity. Qed.

Lemma end_to_end_witness : read_is_written (end_at demo_pair (other Server)) (end_at demo_pair Server).
Proof. exact (end_to_end demo_limits demo_limits demo_pair Server demo_joined). Defined.
