(* ===== verification/Credit.v ===== *)
(** Credit between two ends: what one end sends is within what the other one gave, so no
    data frame is ever refused for lack of credit, and credit that is used up comes back
    once the data is read. *)

From S2P Require Import Prelude Hoare Buf Varint Utf8 Frames Errors Limits Flow Tokio.
From S2P Require Import ConnState Inbound InboundSpec Writer WriterSpec Scheduler Connection Streams Tasks.
From S2P Require Import ReceiveSpec ReadSpec ReceiveSystem ConnectionSpec Ledger SendSpec SendInv SendOps Halves.
From S2P Require Import SendPeer Duplex DuplexOps SendDuplex System SystemInv SystemSpec Shutdown Fade Delivery DeliveryReader.
From S2P Require Import Receive Events Books BooksSpec Pair.

#[local] Open Scope Z_scope.

(** ** What the receiver of a sequence of frames knows *)

Lemma total_prefix t u : t `prefix_of` u -> total t <= total u.
Proof. intros [k ->]. rewrite total_app. pose proof (total_nonneg k). lia. Qed.

Lemma conn_told_app n t u : conn_told n (t ++ u) = conn_told (conn_told n t) u.
Proof. apply foldl_app. Qed.
Lemma stream_told_app id n t u : stream_told id n (t ++ u) = stream_told id (stream_told id n t) u.
Proof. apply foldl_app. Qed.
Lemma conn_told_ge n t : n <= conn_told n t.
Proof. revert n. induction t as [|f t IH]; intros n; simpl; [done|]. etransitivity; [|apply IH]. destruct f; simpl; lia. Qed.
Lemma stream_told_ge id n t : n <= stream_told id n t.
Proof.
  revert n. induction t as [|f t IH]; intros n; simpl; [done|]. etransitivity; [|apply IH]. destruct f; simpl; try lia. destruct (_ =? _); lia.
Qed.
Lemma conn_told_prefix n t u : t `prefix_of` u -> conn_told n t <= conn_told n u.
Proof. intros [k ->]. rewrite conn_told_app. apply conn_told_ge. Qed.
Lemma stream_told_prefix id n t u : t `prefix_of` u -> stream_told id n t <= stream_told id n u.
Proof. intros [k ->]. rewrite stream_told_app. apply stream_told_ge. Qed.

(** Credit for a stream and the credit that every stream starts with. *)
Lemma stream_told_max id n m t : Z.max n (stream_told id m t) = stream_told id (Z.max n m) t.
Proof.
  induction t as [|f t IH] using rev_ind; [done|]. rewrite !stream_told_snoc, <- IH. destruct f; simpl; try done. destruct (_ =? _); lia.
Qed.

Lemma conn_heard_snoc t f : conn_heard (t ++ [f]) = hear_conn f (conn_heard t).
Proof. unfold conn_heard. by rewrite foldl_snoc. Qed.

(** The fields of what was heard. *)
Definition heard_settings (t : list Frame) : bool := (conn_heard t).1.1.1.1.
Definition heard_limit (t : list Frame) : Z := (conn_heard t).1.1.1.2.
Definition heard_initial (t : list Frame) : Z := (conn_heard t).1.1.2.
Definition heard_max_frame (t : list Frame) : Z := (conn_heard t).1.2.
Definition heard_total (t : list Frame) : Z := (conn_heard t).2.

Lemma heard_total_eq t : heard_total t = total t.
Proof.
  unfold heard_total. induction t as [|f t IH] using rev_ind; [done|]. rewrite conn_heard_snoc, total_snoc, <- IH.
  destruct (conn_heard t) as [[[[a b] c] d] e], f; simpl; lia.
Qed.

Lemma stream_heard_eq id t : stream_heard id t = (stream_told id 0 t, zlen (sent_data id t), existsb (is_end id) t).
Proof.
  induction t as [|f t IH] using rev_ind; [done|]. rewrite stream_heard_snoc, IH, stream_told_snoc, sent_data_app, existsb_app, zlen_app.
  unfold hear_of, sent_data, is_end, is_fin, is_reset, VarInt.into_inner in *. simpl. rewrite app_nil_r, orb_false_r.
  destruct f; simpl; rewrite ?orb_false_r, ?Z.add_0_r; repeat case_bool_decide; simplify_eq; simpl; rewrite ?Z.eqb_refl, ?orb_false_r, ?orb_true_r, ?Z.add_0_r; try done.
  rewrite (proj2 (Z.eqb_neq _ _)); [done|congruence].
Qed.

(** The frames of an end with the limits [lim] only promise what the limits allow. *)
Definition promises (lim : Limits) (t : list Frame) : Prop := Forall (fun f => is_settings f = true -> f = settings_of lim) t.

Lemma promises_prefix lim t u : t `prefix_of` u -> promises lim u -> promises lim t.
Proof. intros [k ->] [? _]%Forall_app. done. Qed.

Lemma heard_limit_le lim t : promises lim t -> heard_limit t <= conn_told (as_u64 (max_inbound_connection_bytes lim)) t.
Proof.
  unfold heard_limit. intros Hp. assert (H0 : 0 <= as_u64 (max_inbound_connection_bytes lim)) by apply (Z.mod_pos_bound _ (2 ^ 64) eq_refl).
  induction t as [|f t IH] using rev_ind; [simpl; lia|]. apply Forall_app in Hp as [Ht Hf]. apply Forall_cons in Hf as [Hf _].
  specialize (IH Ht). rewrite conn_heard_snoc, conn_told_snoc. destruct (conn_heard t) as [[[[a b] c] d] e]. destruct f; simpl in *; try lia.
  pose proof (conn_told_ge (as_u64 (max_inbound_connection_bytes lim)) t). injection (Hf eq_refl) as -> _ _. simpl. lia.
Qed.

Lemma heard_initial_le lim t : promises lim t -> heard_initial t <= as_u64 (max_inbound_stream_bytes lim).
Proof.
  unfold heard_initial. intros Hp. assert (H0 : 0 <= as_u64 (max_inbound_stream_bytes lim)) by apply (Z.mod_pos_bound _ (2 ^ 64) eq_refl).
  induction t as [|f t IH] using rev_ind; [simpl; lia|]. apply Forall_app in Hp as [Ht Hf]. apply Forall_cons in Hf as [Hf _].
  specialize (IH Ht). rewrite conn_heard_snoc. destruct (conn_heard t) as [[[[a b] c] d] e]. destruct f; simpl in *; try lia.
  injection (Hf eq_refl) as _ -> _. simpl. lia.
Qed.

Lemma heard_max_frame_le lim t : promises lim t -> Limits.MIN_FRAME_SIZE <= as_u64 (max_frame_size lim) -> heard_max_frame t <= as_u64 (max_frame_size lim).
Proof.
  unfold heard_max_frame. intros Hp H0.
  induction t as [|f t IH] using rev_ind; [simpl; lia|]. apply Forall_app in Hp as [Ht Hf]. apply Forall_cons in Hf as [Hf _].
  specialize (IH Ht). rewrite conn_heard_snoc. destruct (conn_heard t) as [[[[a b] c] d] e]. destruct f; simpl in *; try lia.
  injection (Hf eq_refl) as _ _ ->. simpl. lia.
Qed.

(** ** Data is paid for *)

Section credit.
Context {TK : Tokio} {TKL : TokioLaws TK} {HI : HashIter} {HIL : HashIterLaws HI}.
Implicit Types (s : ConnectionShared) (w : World) (rc : Receipt).

Definition trace_of (n : End) : list Frame := g_trace (w_hist (e_world n)).

(** The data that [from] took for sending is within the credit that [to] gave. *)
Record paid (limt : Limits) (from to : End) : Prop := {
  pd_conn : total (trace_of from) <= conn_told (as_u64 (max_inbound_connection_bytes limt)) (trace_of to);
  pd_stream : forall id, zlen (sent_data id (trace_of from)) <= stream_told id (as_u64 (max_inbound_stream_bytes limt)) (trace_of to);
  pd_len : forall i fin p, Stream i fin p ∈ trace_of from ->
    exists n, Frame.encoded_len (Stream i fin p) = Ok n /\ n <= as_u64 (max_frame_size limt)
}.

Lemma paid_given limt from to to' : trace_of to `prefix_of` trace_of to' -> paid limt from to -> paid limt from to'.
Proof.
  intros Ht [Hc Hs Hl]. split; [|intros id|done].
  - etransitivity; [exact Hc|by apply conn_told_prefix].
  - etransitivity; [apply Hs|by apply stream_told_prefix].
Qed.

(** The frames that an end handled were taken by the other end. *)
Lemma linked_trace limf from to : runs limf (e_world from) -> linked from to -> r_frames (e_receipt to) `prefix_of` trace_of from.
Proof.
  intros Hr [_ Hp _]. etransitivity; [exact Hp|]. etransitivity; [apply prefix_take|]. by eapply wire_prefix, runs_inv.
Qed.

Lemma world_send_inv lim w : world_inv lim w -> send_inv (w_hist w) (w_conn w).
Proof. by intros [_ [[Hi _ _] _] _ _ _]. Qed.

Lemma valid_u64 (lim : Limits) : Limits.Valid MAX_PERMITS lim -> as_u64 (max_frame_size lim) = max_frame_size lim /\
  as_u64 (max_inbound_connection_bytes lim) = max_inbound_connection_bytes lim /\ as_u64 (max_inbound_stream_bytes lim) = max_inbound_stream_bytes lim.
Proof.
  intros []. assert (Limits.MIN_FRAME_SIZE = 25) by done. unfold u32_max in *. split_and!; apply ReceiveWindow.as_u64_small; unfold u64_max; lia.
Qed.

(** As long as the reader runs, what an end knows of its credit was given by the other. *)
Lemma credit_known limf limt from to : history limf (e_world from) (e_receipt from) -> history limt (e_world to) (e_receipt to) ->
  linked to from -> w_reader (e_world from) = true ->
  let q := queues (w_conn (e_world from)) in
  peer_limit q <= conn_told (as_u64 (max_inbound_connection_bytes limt)) (trace_of to) /\
  peer_initial_stream_limit q <= as_u64 (max_inbound_stream_bytes limt) /\
  peer_max_frame q <= as_u64 (max_frame_size limt) /\
  forall l id st, g_names (w_hist (e_world from)) !! l = Some id -> heap (w_conn (e_world from)) !! l = Some st ->
    st_peer_limit st <= stream_told id 0 (trace_of to).
Proof.
  intros Hf Ht Hl Hrd q. destruct (history_book _ _ _ Hf) as [_ Hin]. destruct (Hin Hrd) as [I1 I2 _ _].
  pose proof (history_runs _ _ _ Ht) as Hrt. pose proof (linked_trace limt to from Hrt Hl) as Hp.
  destruct (history_book _ _ _ Ht) as [[_ _ _ _ _ _ Hset] _].
  pose proof (promises_prefix _ _ _ Hp Hset) as Hpr. pose proof (runs_inv _ _ Hrt) as [Hv _ _ _ _].
  pose proof (heard_limit_le _ _ Hpr) as H1. pose proof (heard_initial_le _ _ Hpr) as H2. pose proof (heard_max_frame_le _ _ Hpr) as H3.
  unfold heard_limit, heard_initial, heard_max_frame in *. rewrite <- I1 in H1, H2, H3. simpl in *. split_and!.
  - etransitivity; [exact H1|by apply conn_told_prefix].
  - exact H2.
  - apply H3. destruct (valid_u64 _ Hv) as (-> & _ & _). apply Hv.
  - intros l id st Hn Hst. destruct (I2 l id Hn) as (_ & _ & Hle). rewrite stream_heard_eq, (in_at_lookup _ _ _ Hst) in Hle. simpl in Hle.
    etransitivity; [exact Hle|by apply stream_told_prefix].
Qed.

(** The data an end took is within the credit that it knows. *)
Lemma paid_known limf limt from to : history limf (e_world from) (e_receipt from) -> history limt (e_world to) (e_receipt to) ->
  linked to from -> w_reader (e_world from) = true ->
  total (trace_of from) <= conn_told (as_u64 (max_inbound_connection_bytes limt)) (trace_of to) /\
  forall id, zlen (sent_data id (trace_of from)) <= stream_told id (as_u64 (max_inbound_stream_bytes limt)) (trace_of to).
Proof.
  intros Hf Ht Hl Hrd. destruct (credit_known limf limt from to Hf Ht Hl Hrd) as (Hlim & Hinit & _ & Hst).
  destruct (history_book _ _ _ Hf) as [[_ Hsent _ _ _ _ _] _]. pose proof (world_send_inv _ _ (runs_inv _ _ (history_runs _ _ _ Hf))) as Hi.
  pose proof (sv_writer _ _ Hi) as Hw. split.
  - unfold trace_of at 1. rewrite <- Hsent. pose proof (wi_credit _ Hw). lia.
  - intros id. assert (H0 : 0 <= stream_told id (as_u64 (max_inbound_stream_bytes limt)) (trace_of to)).
    { etransitivity; [|apply stream_told_ge]. apply (Z.mod_pos_bound _ (2 ^ 64) eq_refl). }
    destruct (existsb (is_about id) (trace_of from)) eqn:E; [|rewrite (sent_data_none _ _ E); done].
    apply existsb_exists in E as (f & Hin%list_elem_of_In & Hab). pose proof (sv_trace _ _ Hi) as Htr. rewrite Forall_forall in Htr.
    destruct (named_state _ _ id Hi (Htr f Hin id Hab)) as (l & st & Hn & Hst' & Hss). unfold trace_of at 1. rewrite <- (ss_total _ _ _ _ Hss).
    pose proof (so_sent _ _ (wi_heap _ Hw _ _ Hst')) as Hso. specialize (Hst l id st Hn Hst').
    assert (Hm : stream_told id 0 (trace_of to) <= stream_told id (as_u64 (max_inbound_stream_bytes limt)) (trace_of to)).
    { pose proof (stream_told_max id (as_u64 (max_inbound_stream_bytes limt)) 0 (trace_of to)) as Hm.
      pose proof (Z.mod_pos_bound (max_inbound_stream_bytes limt) (2 ^ 64) eq_refl). unfold as_u64 in *. rewrite (Z.max_l _ 0) in Hm by lia. lia. }
    pose proof (stream_told_ge id (as_u64 (max_inbound_stream_bytes limt)) (trace_of to)). lia.
Qed.

(** The frame that an event took, if any. *)
Lemma exec_takes lim e w w' : world_inv lim w -> exec e w = Next w' -> g_trace (w_hist w') = g_trace (w_hist w) \/
  exists f, g_trace (w_hist w') = g_trace (w_hist w) ++ [f] /\ outcome (w_conn w) (Ready (Some f)) (w_conn w') /\ w_reader w' = w_reader w.
Proof.
  intros Hw Hx. destruct (is_writer e) eqn:E; [|left; by apply (exec_quiet e w w')]. destruct e; try done. cbn [exec exec_task] in Hx.
  pose proof (sv_writer _ _ (world_send_inv _ _ Hw)) as Hwi. apply perform_inv in Hx as (r & s & -> & Hr). unfold writer_turned.
  destruct r as [t|]; [|by left]. destruct (w_writer w) eqn:Ew; try (left; repeat case_match; done).
  destruct t as [|f b| |]; try (by left). right. exists f. split; [done|]. split; [|done]. simpl.
  apply bind_inv in Hr as (p & s1 & Hp & Hr). pose proof (wp_run _ _ _ _ _ _ Hp (wp_next_frame _ Hwi)) as Ho. simpl in Ho.
  injection Hr as Hr <-. destruct p as [[f'|]|]; try done. by destruct (encode_frame f'); simplify_eq.
Qed.

Lemma takes_prefix lim e w w' : world_inv lim w -> exec e w = Next w' -> g_trace (w_hist w) `prefix_of` g_trace (w_hist w').
Proof. intros Hw Hx. destruct (exec_takes lim e w w' Hw Hx) as [->|(f & -> & _)]; [done|by apply prefix_app_r]. Qed.

Lemma paid_same limt from from' to : trace_of from' = trace_of from -> paid limt from to -> paid limt from' to.
Proof. intros Ht [? ? ?]. by split; rewrite ?Ht. Qed.

(** Other frames carry no data. *)
Lemma paid_other limt from from' to f : trace_of from' = trace_of from ++ [f] -> (forall i fin p, f <> Stream i fin p) ->
  paid limt from to -> paid limt from' to.
Proof.
  intros Ht Hf [Hc Hs Hl]. split; rewrite Ht.
  - rewrite total_snoc. destruct f; simpl; try lia. by edestruct Hf.
  - intros id. rewrite sent_data_app. assert (sent_data id [f] = []) as -> by (destruct f; try done; by edestruct Hf). by rewrite app_nil_r.
  - intros i fin p [?|Hin]%elem_of_app; [by apply Hl|]. apply list_elem_of_singleton in Hin. by edestruct Hf.
Qed.

(** Data is taken only while the connection is up. *)
Lemma data_running lim w i fin p s' : runs lim w -> outcome (w_conn w) (Ready (Some (Stream i fin p))) s' -> w_reader w = true.
Proof.
  intros Hr Ho. destruct (w_reader w) eqn:E; [done|]. destruct (runs_ends _ _ Hr) as [Hd Hrd _]. destruct (Hd (Hrd E)) as [_ _ Hab].
  pose proof (world_send_inv _ _ (runs_inv _ _ Hr)) as Hi. destruct (sv_abort _ _ Hi Hab) as [_ Hc].
  remember (Ready (Some (Stream i fin p))) as x eqn:Hx. destruct Ho as [? ? Ha|Ha|? ? ? Ha|? ? ? ? ? ? ? Ha|turn _|]; simplify_eq; try congruence.
  destruct (close_frame (queues (w_conn w))) as [f|] eqn:Ef; [|done]. simplify_eq/=.
  destruct (fit_close_cut _ f (sv_writer _ _ Hi) Ef) as (? & ? & ? & _ & Hfit & _). congruence.
Qed.

Lemma paid_step limf limt from from' to e k : history limf (e_world from) (e_receipt from) -> history limf (e_world from') (e_receipt from') ->
  history limt (e_world to) (e_receipt to) -> linked to from -> linked to from' -> happens e k from = Some from' ->
  paid limt from to -> paid limt from' to.
Proof.
  intros Hf Hf' Ht Hl Hl' Hx Hp. pose proof (history_runs _ _ _ Hf) as Hr. pose proof (runs_inv _ _ Hr) as Hw.
  assert (Hex : exec e (e_world from) = Next (e_world from')) by (unfold happens in Hx; by destruct (exec e (e_world from)); simplify_eq/=).
  destruct (exec_takes limf e _ _ Hw Hex) as [Hsame|(f & Hadd & Ho & Hrd)]; [by eapply paid_same|].
  destruct f as [i fin b| | | | | | | |]; try (by eapply paid_other).
  pose proof (data_running _ _ _ _ _ _ Hr Ho) as Hrun. rewrite Hrun in Hrd.
  destruct (paid_known limf limt from' to Hf' Ht Hl' Hrd) as [Hc Hs]. split; [done..|].
  intros i' fin' b'. unfold trace_of. rewrite Hadd. intros [Hin|Hin]%elem_of_app; [by apply (pd_len _ _ _ Hp)|].
  apply list_elem_of_singleton in Hin as ->. pose proof (sv_writer _ _ (world_send_inv _ _ Hw)) as Hwi.
  destruct (outcome_fits _ _ _ Hwi Ho) as (_ & n & Hn & Hle). exists n. split; [done|].
  destruct (credit_known limf limt from to Hf Ht Hl Hrun) as (_ & _ & Hmax & _). lia.
Qed.

(** ** Both directions *)

Record pair_paid limc lims (p : Pair) : Prop := {
  pp_up : paid lims (client p) (server p);
  pp_down : paid limc (server p) (client p)
}.

Lemma paid_new limt from to : trace_of from = [] -> paid limt from to.
Proof.
  intros Ht. split; rewrite Ht; simpl.
  - etransitivity; [|apply conn_told_ge]. apply (Z.mod_pos_bound _ (2 ^ 64) eq_refl).
  - intros id. etransitivity; [|apply stream_told_ge]. apply (Z.mod_pos_bound _ (2 ^ 64) eq_refl).
  - intros i fin p H. by apply elem_of_nil in H.
Qed.

Lemma happens_trace lim e k n n' : world_inv lim (e_world n) -> happens e k n = Some n' -> trace_of n `prefix_of` trace_of n'.
Proof.
  intros Hw Hx. unfold happens in Hx. destruct (exec e (e_world n)) as [| |w'] eqn:E; simplify_eq/=. by eapply takes_prefix.
Qed.

(** What happens at one end. *)
Lemma exec_pair_inv pe p p' : exec_pair pe p = Some p' ->
  exists x e k n', happens e k (end_at p x) = Some n' /\ p' = put x n' p.
Proof.
  destruct pe as [x e|x]; simpl.
  - destruct (own e && typed e); [|done]. intros (n' & Hn & [= <-])%bind_Some. by exists x, e, (e_taken (end_at p x)), n'.
  - intros (f & _ & (n' & Hn & [= <-])%bind_Some)%bind_Some. by eexists x, _, _, n'.
Qed.

Lemma joined_paid limc lims p : joined limc lims p -> pair_paid limc lims p.
Proof.
  induction 1 as [kc ks sc ss ? ? Hc Hs|p pe p' Hj IH Hx]; [split; by apply paid_new|].
  pose proof (joined_ok _ _ _ Hj) as [Hc Hs Hu Hd]. pose proof (joined_ok _ _ _ (joined_event _ _ _ _ _ Hj Hx)) as [Hc' Hs' Hu' Hd'].
  destruct IH as [Pu Pd]. apply exec_pair_inv in Hx as (x & e & k & n' & Hn & ->). destruct x; simpl in *.
  - split; simpl; [by apply (paid_step limc lims (client p) n' (server p) e k)|]. eapply paid_given, Pd. eapply happens_trace, Hn. by eapply runs_inv, history_runs.
  - split; simpl; [|by apply (paid_step lims limc (server p) n' (client p) e k)]. eapply paid_given, Pu. eapply happens_trace, Hn. by eapply runs_inv, history_runs.
Qed.

(** The two ends as one of them sees them. *)
Record facing (limf limt : Limits) (from to : End) : Prop := {
  fc_from : history limf (e_world from) (e_receipt from);
  fc_to : history limt (e_world to) (e_receipt to);
  fc_out : linked from to;
  fc_back : linked to from;
  fc_paid : paid limt from to;
  fc_paid_back : paid limf to from
}.
Definition limits_at (limc lims : Limits) (x : Side) : Limits := match x with Client => limc | Server => lims end.

Lemma joined_facing limc lims p x : joined limc lims p ->
  facing (limits_at limc lims (other x)) (limits_at limc lims x) (end_at p (other x)) (end_at p x).
Proof. intros Hj. destruct (joined_ok _ _ _ Hj), (joined_paid _ _ _ Hj). by destruct x; split. Qed.

(** ** No data is refused *)

Lemma heard_settings_in t : heard_settings t = existsb is_settings t.
Proof.
  unfold heard_settings. induction t as [|f t IH] using rev_ind; [done|]. rewrite conn_heard_snoc, existsb_app, <- IH.
  destruct (conn_heard t) as [[[[a b] c] d] e], f; simpl; by rewrite ?orb_false_r, ?orb_true_r.
Qed.

(** A running reader that is offered a frame other than SETTINGS or CLOSE had SETTINGS. *)
Lemma settings_known limf limt from to f : runs limf (e_world from) -> history limt (e_world to) (e_receipt to) -> linked from to ->
  w_reader (e_world to) = true -> w_wire (e_world from) !! e_taken to = Some f -> is_settings f || is_close f = false ->
  peer_settings (queues (w_conn (e_world to))) = true.
Proof.
  intros Hr Ht Hl Hrd Hf Hno. destruct (history_book _ _ _ Ht) as [_ Hin]. destruct (Hin Hrd) as [I1 _ _ _ I5].
  pose proof (heard_settings_in (r_frames (e_receipt to))) as Hs. unfold heard_settings in Hs. rewrite <- I1 in Hs. simpl in Hs. rewrite Hs.
  rewrite (lk_exact _ _ Hl Hrd) in *. destruct (wire_integrity _ _ Hr) as (Hfirst & _). destruct (w_wire (e_world from)) as [|f0 t]; [done|].
  destruct Hfirst as [H0 _]. destruct (e_taken to) as [|k]; simpl in *; [congruence|]. apply Forall_cons in I5 as [Hc _].
  rewrite Hc, orb_false_r in H0. by rewrite H0.
Qed.

(** A stream is not over while frames for it come. *)
Lemma not_over limf from to f id : runs limf (e_world from) -> linked from to -> w_reader (e_world to) = true ->
  w_wire (e_world from) !! e_taken to = Some f -> is_about id f = true -> existsb (is_end id) (r_frames (e_receipt to)) = false.
Proof.
  intros Hr Hl Hrd Hf Hab. rewrite (lk_exact _ _ Hl Hrd). destruct (existsb _ _) eqn:E; [|done].
  apply existsb_exists in E as (g & Hg%list_elem_of_In & He). apply list_elem_of_split in Hg as (pre & post & Hsplit).
  destruct (wire_integrity _ _ Hr) as (_ & Ho & _). specialize (Ho pre g (post ++ drop (e_taken to) (w_wire (e_world from))) id).
  rewrite (app_comm_cons post), app_assoc, <- Hsplit, take_drop in Ho. specialize (Ho eq_refl He).
  apply Forall_app in Ho as [_ Ho]. rewrite Forall_forall in Ho. rewrite Ho in Hab; [done|]. apply list_elem_of_lookup. exists 0%nat.
  by rewrite lookup_drop, Nat.add_0_r.
Qed.

(** The frame that arrives next and those handled are within what was taken. *)
Lemma next_within limf from to f : runs limf (e_world from) -> linked from to -> w_reader (e_world to) = true ->
  w_wire (e_world from) !! e_taken to = Some f -> r_frames (e_receipt to) ++ [f] `prefix_of` trace_of from.
Proof.
  intros Hr Hl Hrd Hf. rewrite (lk_exact _ _ Hl Hrd), <- (take_S_r _ _ _ Hf). etransitivity; [apply prefix_take|by eapply wire_prefix, runs_inv].
Qed.

Lemma data_within limf limt from to i fin b l st : runs limf (e_world from) -> history limt (e_world to) (e_receipt to) -> linked from to ->
  paid limt from to -> w_reader (e_world to) = true -> w_wire (e_world from) !! e_taken to = Some (Stream i fin b) ->
  let s := w_conn (e_world to) in
  streams s !! VarInt.into_inner i = Some l -> heap s !! l = Some st ->
  recv_terminal st = false /\ zlen b <= ReceiveWindow.credit (receive_window s) /\ zlen b <= ReceiveWindow.credit (st_window st).
Proof.
  intros Hr Ht Hl [Pc Ps _] Hrd Hf s Hs Hst. destruct (history_book _ _ _ Ht) as [[_ _ O3 O4 _ _ _] Hin]. destruct (Hin Hrd) as [I1 _ I3 _ _].
  pose proof (next_within _ _ _ _ Hr Hl Hrd Hf) as Hp. pose proof (world_names _ _ (runs_inv _ _ (history_runs _ _ _ Ht))) as Hn.
  pose proof (nm_streams _ _ Hn _ _ Hs) as Hname. specialize (I3 _ _ Hname Hs). specialize (O4 _ _ Hname). fold s in I1, I3, O3, O4.
  unfold out_at in O4. rewrite Hst in O4. rewrite (in_at_lookup _ _ _ Hst), stream_heard_eq in I3. unfold in_stream, out_stream in *. simpl in O4.
  injection I3 as _ Hrecv Hterm. split_and!.
  - rewrite Hterm. eapply not_over; try done. simpl. by apply bool_decide_true.
  - pose proof (heard_total_eq (r_frames (e_receipt to))) as Htot. unfold heard_total in Htot. rewrite <- I1 in Htot. simpl in Htot.
    apply total_prefix in Hp. rewrite total_snoc in Hp. simpl in Hp. unfold ReceiveWindow.credit. unfold trace_of in *. lia.
  - specialize (Ps (VarInt.into_inner i)). unfold ReceiveWindow.credit. rewrite Hrecv, O4.
    apply (sent_data_prefix (VarInt.into_inner i)) in Hp as [k Hk]. apply (f_equal zlen) in Hk.
    rewrite sent_data_app, !zlen_app in Hk. unfold sent_data at 3 in Hk. simpl in Hk. rewrite bool_decide_true, app_nil_r in Hk by done.
    pose proof (zlen_nonneg k). unfold trace_of in *. lia.
Qed.

Lemma data_handled limf limt from to i fin b l : runs limf (e_world from) -> history limt (e_world to) (e_receipt to) -> linked from to ->
  paid limt from to -> w_reader (e_world to) = true -> w_wire (e_world from) !! e_taken to = Some (Stream i fin b) ->
  let s := w_conn (e_world to) in
  streams s !! VarInt.into_inner i = Some l -> forall c, exists s', handle_frame (Stream i fin b) (s <| stats := c |>) = (Ok true, s').
Proof.
  intros Hr Ht Hl Hp Hrd Hf s Hs c. pose proof (runs_inv _ _ (history_runs _ _ _ Ht)) as Hw. pose proof (world_names _ _ Hw) as Hn.
  destruct (proj2 (nm_dom _ _ Hn l)) as [st Hst]; [eexists; by apply (nm_streams _ _ Hn)|].
  destruct (data_within _ _ _ _ _ _ _ _ _ Hr Ht Hl Hp Hrd Hf Hs Hst) as (Hterm & Hcc & Hcs).
  pose proof (settings_known _ _ _ _ _ Hr Ht Hl Hrd Hf eq_refl) as Hset. fold s in Hset, Hst, Hcc.
  assert (Hlen : zlen b <= u64_max).
  { destruct (wire_sendable _ _ _ Hr (list_elem_of_lookup_2 _ _ _ Hf)) as [_ Hfit]. simpl in Hfit. rewrite VarInt.MAX_eq in Hfit. unfold u64_max. lia. }
  pose proof Hw as [_ [_ Hph] _ _ _]. destruct (phase_found _ _ _ _ _ Hph Hs) as [_ Hrs].
  assert (Hac : acct idle (s <| stats := c |>) (hands (w_receivers (e_world to)))) by (destruct (ri_acct _ _ _ _ _ Hrs); by split).
  assert (Hrv : receiving (s <| stats := c |>) st) by (destruct (inv_receiving _ _ _ _ _ Hrs Hst); by split).
  pose proof (wp_stream_frame (VarInt.into_inner i) l st (s <| stats := c |>) _ b fin Hac Hs Hst Hrv Hlen) as Hwp.
  unfold handle_frame, get_queues, gets, mbind, M_bind, bail_if. change (queues (s <| stats := c |>)) with (queues s). rewrite Hset. cbn [is_settings negb andb].
  unfold mret, M_ret, wp in *. destruct (on_remote_stream_frame _ _ _ (s <| stats := c |>)) as [[u|e|] s'] eqn:E; [by exists s'| |done].
  exfalso. clearbody s. inversion Hwp; simplify_eq; simpl in *; [congruence|lia..].
Qed.

Lemma data_item limf limt from to i fin b : runs limf (e_world from) -> history limt (e_world to) (e_receipt to) ->
  paid limt from to -> Stream i fin b ∈ w_wire (e_world from) ->
  arriving (max_frame_size (limits (w_conn (e_world to)))) (Stream i fin b) = RFrame (Frame.enc (Stream i fin b)).
Proof.
  intros Hr Ht [_ _ Hlen] Hf. destruct (wire_sendable _ _ _ Hr Hf) as [Hwf Hfit]. destruct (history_book _ _ _ Ht) as [[-> _ _ _ _ _ _] _].
  destruct (Hlen i fin b) as (n & Hn & Hle). { destruct (wire_prefix _ _ (runs_inv _ _ Hr)) as [k Hk]. unfold trace_of. rewrite Hk. set_solver. }
  unfold arriving. rewrite (encode_wf _ _ Hn). rewrite (Frame.encoded_len_enc _ Hwf Hfit) in Hn. injection Hn as <-.
  destruct (valid_u64 limt) as (Heq & _ & _); [apply (runs_inv _ _ (history_runs _ _ _ Ht))|]. rewrite Heq in Hle. by rewrite (proj2 (Z.leb_le _ _)).
Qed.

Lemma data_goes_on n f s r s' : arriving n f = RFrame (Frame.enc f) -> sendable_frame f ->
  (forall c, exists s', handle_frame f (s <| stats := c |>) = (Ok true, s')) -> reader_step (arriving n f) s = (r, s') -> r = Ok true.
Proof.
  intros -> [Hw Hf] Hh H. destruct (record_received (zlen (Frame.enc f)) s) as [u s0] eqn:E0. injection E0 as <- Hs0.
  destruct (Hh (stats s0)) as [s1 Hs1]. assert (Heq : s <| stats := stats s0 |> = s0) by (by rewrite <- Hs0). rewrite Heq in Hs1.
  assert (Hin : handle_incoming_frame (Frame.enc f) s0 = (Ok true, s1)) by (unfold handle_incoming_frame; by rewrite Frame.frame_decode_enc).
  assert (Hitem : reader_item (RFrame (Frame.enc f)) s = (Ok true, s1)).
  { etransitivity; [refine (bind_ok (record_received (zlen (Frame.enc f))) _ s tt s0 _); by rewrite <- Hs0|]. unfold catch. by rewrite Hin. }
  unfold reader_step in H. rewrite (bind_ok _ _ _ _ _ Hitem) in H. by injection H as <- _.
Qed.

(** C5: two ends that run this code never refuse each other's data.  Whatever happened
    before, when a frame arrives that carries data of a stream which the receiving end
    has, it is within the size that the codec takes, within the credit that was given for
    the connection and for the stream, and not after the end of the stream: the reader
    handles it and goes on. *)
Theorem data_never_refused limc lims p x i fin b l p' : joined limc lims p ->
  w_wire (e_world (end_at p (other x))) !! e_taken (end_at p x) = Some (Stream i fin b) ->
  streams (w_conn (e_world (end_at p x))) !! VarInt.into_inner i = Some l ->
  exec_pair (Arrive x) p = Some p' -> w_reader (e_world (end_at p' x)) = true.
Proof.
  intros Hj Hf Hs Hx. pose proof (list_elem_of_lookup_2 _ _ _ Hf) as Hin. simpl in Hx. rewrite Hf in Hx. simpl in Hx.
  apply bind_Some in Hx as (n' & Hn & [= <-]). unfold happens in Hn. destruct (exec _ (e_world (end_at p x))) as [| |w'] eqn:E; [done..|].
  injection Hn as <-. assert (end_at (put x (mkEnd w' _ _) p) x = mkEnd w' _ _) as -> by (by destruct x). simpl.
  cbn [exec exec_task] in E. destruct (_ && _) eqn:Er; [|done]. apply andb_true_iff in Er as [Er _]. apply perform_inv in E as (r & s' & -> & Hr).
  destruct (joined_facing _ _ _ x Hj) as [Hfr Ht Hl _ Hp _]. pose proof (history_runs _ _ _ Hfr) as Hrf.
  assert (Hstep : forall r s', reader_step (arriving (max_frame_size (limits (w_conn (e_world (end_at p x))))) (Stream i fin b)) (w_conn (e_world (end_at p x))) = (r, s') -> r = Ok true).
  { intros r' s1. apply data_goes_on; [by eapply data_item|by eapply wire_sendable|]. by eapply data_handled. }
  simpl. destruct r as [a|]; [by apply Hstep in Hr as [= ->]|]. destruct Hr as [e Hr]. by apply Hstep in Hr.
Qed.

End credit.

(** ** A run *)

#[local] Existing Instance counting.
#[local] Existing Instance counting_laws.
#[local] Existing Instance hash_list.
#[local] Existing Instance hash_list_laws.

(** The server takes two bytes of a stream at a time; the client writes three. *)
Definition narrow_limits : Limits := demo_limits <| max_inbound_stream_bytes := 2 |>.
Definition narrow_start : Pair :=
  mkPair (end_new false (get_ok (connection_new demo_limits true) eq_refl))
    (end_new false (get_ok (connection_new narrow_limits false) eq_refl)).
Definition narrow_sent : list PairEvent :=
  flush Client ++ flush Server ++ [At Client Open; At Client (WriteChunk 0 [x61; x62; x63])] ++ flush Client ++
  [At Client (Writer true); At Client (Writer true)].

Lemma narrow_start_joined : joined demo_limits narrow_limits narrow_start.
Proof. apply joined_new; [apply demo_unsigned| |vm_compute; reflexivity..]. repeat split; vm_compute; congruence. Qed.

Definition narrow_before : Pair := pair_after narrow_sent narrow_start.
Definition narrow_after : Pair := pair_after [Arrive Server] narrow_before.
Lemma narrow_joined : joined demo_limits narrow_limits narrow_before.
Proof. apply joined_after; [apply narrow_start_joined|vm_compute; reflexivity]. Qed.
Lemma narrow_next : w_wire (e_world (end_at narrow_before (other Server))) !! e_taken (end_at narrow_before Server) =
  Some (Stream (mkVarInt 0) false [x61; x62]).
Proof. vm_compute. reflexivity. Qed.
Lemma narrow_found : streams (w_conn (e_world (end_at narrow_before Server))) !! VarInt.into_inner (mkVarInt 0) = Some 0%nat.
Proof. vm_compute. reflexivity. Qed.
Lemma narrow_step : exec_pair (Arrive Server) narrow_before = Some narrow_after.
Proof. vm_compute. reflexivity. Qed.

Lemma data_never_refused_witness : w_reader (e_world (end_at narrow_after Server)) = true.
Proof.
  exact (data_never_refused demo_limits narrow_limits narrow_before Server _ _ _ _ narrow_after narrow_joined narrow_next narrow_found narrow_step).
Defined.
