(* ===== verification/Registry.v ===== *)
(** The streams a connection has: a stream stays in the map, and its receive window on the
    list of the writer, until both of its sides are over or the connection is closed. *)

From S2P Require Import Prelude Hoare Buf Varint Utf8 Frames Errors Limits Flow Tokio.
From S2P Require Import ConnState Inbound InboundSpec Writer WriterSpec Scheduler Connection Streams Tasks.
From S2P Require Import ReceiveSpec ReadSpec ReceiveSystem ConnectionSpec Ledger SendSpec SendInv SendOps Halves.
From S2P Require Import SendPeer Duplex DuplexOps SendDuplex System SystemInv SystemSpec Shutdown Fade Delivery DeliveryReader Events Books.

#[local] Open Scope Z_scope.

Section registry.
Context {TK : Tokio} {TKL : TokioLaws TK} {HI : HashIter} {HIL : HashIterLaws HI}.
Implicit Types (s : ConnectionShared) (st : StreamState) (w : World).

(** ** Operations *)

Definition retired s (l : loc) : Prop := exists st, heap s !! l = Some st /\ send_complete st = true /\ recv_terminal st = true.
(** The writer looks after the window of every stream of the map. *)
Definition agree s : Prop := forall id l, streams s !! id = Some l -> receive_windows (queues s) !! id = Some l.

(** With [full], no stream is lost. *)
Record retains (full : bool) s s' : Prop := {
  rt_fresh : fresh_loc s -> fresh_loc s';
  rt_next : (next_loc s <= next_loc s')%nat;
  rt_started : cleanup_started s = true -> cleanup_started s' = true;
  rt_flags : fresh_loc s -> forall l st, heap s !! l = Some st -> exists st', heap s' !! l = Some st' /\
    (send_complete st = true -> send_complete st' = true) /\ (recv_terminal st = true -> recv_terminal st' = true);
  rt_streams : full = true -> cleanup_started s' = false -> fresh_loc s -> forall id l, streams s !! id = Some l ->
    is_Some (heap s !! l) -> streams s' !! id = Some l \/ retired s' l;
  rt_new : full = true -> cleanup_started s' = false -> fresh_loc s -> forall l, heap s !! l = None -> is_Some (heap s' !! l) ->
    (exists id, streams s' !! id = Some l) \/ retired s' l;
  rt_agree : full = true -> cleanup_started s' = false -> agree s -> agree s'
}.

Lemma retired_later full s s' l : retains full s s' -> fresh_loc s -> retired s l -> retired s' l.
Proof.
  intros Hr Hf (st & Hst & Hc & Ht). destruct (rt_flags _ _ _ Hr Hf l st Hst) as (st' & Hst' & H1 & H2). exists st'. auto.
Qed.

#[export] Instance retains_preorder full : PreOrder (retains full).
Proof.
  split.
  - intros s. split; auto.
    + intros _ l st Hl. by exists st.
    + intros _ _ _ l Hl [st Hst]. congruence.
  - intros x y z Hxy Hyz. pose proof Hxy as [F N C G S W A]. pose proof Hyz as [F' N' C' G' S' W' A'].
    assert (Hc : cleanup_started z = false -> cleanup_started y = false) by (intros Hz; destruct (cleanup_started y); [by rewrite C' in Hz|done]).
    split; try lia; auto.
    + intros Hx l st Hl. destruct (G Hx l st Hl) as (st1 & Hl1 & ? & ?). destruct (G' (F Hx) l st1 Hl1) as (st2 & Hl2 & ? & ?). exists st2. auto.
    + intros Hb Hz Hx id l Hl [st Hst]. destruct (S Hb (Hc Hz) Hx id l Hl) as [Hy|Hy]; [by eexists| |right; eapply retired_later; eauto].
      destruct (G Hx l st Hst) as (st1 & Hl1 & _). apply (S' Hb Hz (F Hx)); [done|by eexists].
    + intros Hb Hz Hx l Hl Hl'. destruct (heap y !! l) as [st1|] eqn:E; [|by apply (W' Hb Hz (F Hx))].
      destruct (W Hb (Hc Hz) Hx l Hl) as [[id Hid]|Hy]; [by eexists| |right; eapply retired_later; eauto].
      destruct (S' Hb Hz (F Hx) id l Hid) as [?|?]; [by eexists|left; by exists id|by right].
Qed.

(** A change of other fields. *)
Definition kept s := (next_loc s, heap s, cleanup_started s, streams s, receive_windows (queues s)).

Lemma retains_kept full s s' : kept s' = kept s -> retains full s s'.
Proof.
  intros H. injection H as Hn Hh Hc Hs Hw. split; unfold fresh_loc, agree, retired; rewrite ?Hn, ?Hh, ?Hc, ?Hs, ?Hw; auto.
  - intros _ l st Hl. by exists st.
  - intros _ _ _ l Hl [st Hst]. congruence.
Qed.

Lemma retains_alter full l u s : (forall st, heap s !! l = Some st -> (send_complete st = true -> send_complete (u st) = true) /\ (recv_terminal st = true -> recv_terminal (u st) = true)) ->
  retains full s (s <| heap ::= alter u l |>).
Proof.
  intros Hu. split; simpl; auto.
  - intros Hf k Hk. apply Hf. simpl in Hk. by apply lookup_alter_is_Some in Hk.
  - intros _ k st Hk. destruct (decide (l = k)) as [<-|Hne]; [rewrite lookup_alter_eq, Hk; by eexists; split; [|apply Hu]|].
    exists st. by rewrite lookup_alter_ne.
  - intros _ _ _ k Hk Hk'. apply lookup_alter_is_Some in Hk' as [? ?]. congruence.
Qed.

Lemma retains_modify full u : (forall s, kept (u s) = kept s) -> respects (retains full) (modify u : Conn unit).
Proof. intros Hu. apply respects_modify. intros s. by apply retains_kept. Qed.
Lemma retains_upd full l u : (forall st, (send_complete st = true -> send_complete (u st) = true) /\ (recv_terminal st = true -> recv_terminal (u st) = true)) ->
  respects (retains full) (upd_state l u).
Proof. intros Hu. apply respects_modify. intros s. by apply retains_alter. Qed.
Lemma retains_run {A} full (m : Conn A) : (forall s, kept (m s).2 = kept s) -> respects (retains full) m.
Proof. intros Hm s r s' Hrun. apply retains_kept. specialize (Hm s). by rewrite Hrun in Hm. Qed.

(** Without [full], the map may lose streams. *)
Lemma retains_maps u : (forall s, (next_loc (u s), heap (u s), cleanup_started (u s)) = (next_loc s, heap s, cleanup_started s)) ->
  respects (retains false) (modify u : Conn unit).
Proof.
  intros Hu. apply respects_modify. intros s. specialize (Hu s). injection Hu as Hn Hh Hc.
  split; unfold fresh_loc; rewrite ?Hn, ?Hh, ?Hc; auto; try done. intros _ l st Hl. by exists st.
Qed.

(** Once the connection is closed there is nothing to keep. *)
Lemma retains_closed s s' : retains false s s' -> cleanup_started s' = true -> retains true s s'.
Proof. intros [F N C G _ _ _] Hc. split; auto; intros; congruence. Qed.

#[local] Hint Extern 2 (respects (retains _) (modify _)) => by apply retains_modify : half.
#[local] Hint Extern 2 (respects (retains _) (upd_queues _)) => by apply retains_modify : half.
#[local] Hint Extern 2 (respects (retains _) (notify _)) => by apply retains_modify : half.
#[local] Hint Extern 2 (respects (retains _) get_queues) => apply respects_gets; typeclasses eauto : half.
#[local] Hint Extern 2 (respects (retains _) (upd_state _ _)) => apply retains_upd; intros ?; by split : half.
#[local] Hint Extern 2 (respects (retains _) (upd_inbound _ _)) => apply retains_upd; intros ?; by split : half.
#[local] Hint Extern 3 (respects (retains false) (modify _)) => by apply retains_maps : half.
#[local] Hint Extern 3 (respects (retains false) (upd_queues _)) => by apply retains_maps : half.

Lemma retains_conn_receive full n : respects (retains full) (conn_window_receive n).
Proof. apply retains_run. intros s. unfold conn_window_receive. by repeat case_match. Qed.
Lemma retains_conn_consume full n : respects (retains full) (conn_window_consume n).
Proof. apply retains_run. intros s. unfold conn_window_consume. by repeat case_match. Qed.
Lemma retains_take_conn full n : respects (retains full) (take_conn_permit n).
Proof. apply retains_run. intros s. unfold take_conn_permit. by repeat case_match. Qed.
Lemma retains_conn_update full : respects (retains full) conn_window_update.
Proof. apply retains_run. intros s. unfold conn_window_update. by repeat case_match. Qed.
Lemma retains_acquire_stream full n l get u : (forall sem st, send_complete (u sem st) = send_complete st /\ recv_terminal (u sem st) = recv_terminal st) ->
  respects (retains full) (acquire_from n get (fun sem s => s <| heap ::= alter (u sem) l |>)).
Proof.
  intros Hu s r s'. unfold acquire_from. repeat case_match; intros [= _ <-]; try done. apply retains_alter. intros st _.
  match goal with |- context [u ?x st] => destruct (Hu x st) as [-> ->] end. done.
Qed.
Lemma retains_acquire full n get put : (forall sem s, kept (put sem s) = kept s) -> respects (retains full) (acquire_from n get put).
Proof. intros Hp. apply retains_run. intros s. unfold acquire_from. repeat case_match; simpl; auto. Qed.
#[local] Hint Resolve retains_conn_receive retains_conn_consume retains_take_conn retains_conn_update : half.
#[local] Hint Extern 2 (respects (retains _) (acquire_from _ _ _)) => by apply retains_acquire : half.
#[local] Hint Extern 3 (respects (retains _) (acquire_from _ _ _)) => by apply retains_acquire_stream : half.

(** Unfolding an operation and taking it apart. *)
#[local] Ltac retain_all :=
  repeat (respect; try match goal with
    | |- respects _ ?m => let rec head x := lazymatch x with ?f _ => head f | _ => x end in
        let h := head m in unfold h
    end).

Lemma retains_chunk_drop full c : respects (retains full) (chunk_drop c).
Proof. retain_all. Qed.
#[local] Hint Resolve retains_chunk_drop : half.
Lemma retains_drop_chunks full cs : respects (retains full) (drop_chunks cs).
Proof. induction cs; simpl; retain_all. Qed.
Lemma retains_drop_outbounds full cs : respects (retains full) (drop_outbounds cs).
Proof. induction cs; simpl; retain_all. Qed.
Lemma retains_mark_streams full ls : respects (retains full) (mark_streams_closed ls).
Proof. induction ls as [|[id l] ls IH]; simpl; retain_all. Qed.
#[local] Hint Resolve retains_drop_chunks retains_drop_outbounds retains_mark_streams : half.

(** *** Closing *)

Lemma retains_start : respects (retains false) (modify (fun s => s <| cleanup_started := true |>) : Conn unit).
Proof. apply respects_modify. intros s. split; simpl; auto; try done. intros _ l st Hl. by exists st. Qed.
#[local] Hint Resolve retains_start : half.

Lemma retains_mark_closed full : respects (retains full) mark_closed.
Proof.
  assert (Hm : respects (retains false) mark_closed) by retain_all. destruct full; [|done]. intros s r s' Hrun.
  pose proof (wp_mark_down s (fun _ _ => False)) as Hw. unfold wp in Hw. rewrite Hrun in Hw. destruct r; [|done..].
  apply retains_closed; [by eapply Hm|apply Hw].
Qed.
Lemma retains_initiate_close full code reason : respects (retains full) (initiate_close code reason).
Proof. retain_all. Qed.
#[local] Hint Resolve retains_mark_closed retains_initiate_close : half.
Lemma retains_send_chunk full x : respects (retains full) (send_stream_chunk x).
Proof. retain_all. Qed.
#[local] Hint Resolve retains_send_chunk : half.

(** *** Retiring *)

Lemma retains_delete id l s : streams s !! id = Some l -> retired s l ->
  retains true s (s <| streams ::= delete id |> <| queues ::= (fun q => q <| receive_windows ::= delete id |>) |>).
Proof.
  intros Hid Hr. split; simpl; auto.
  - intros _ k st Hk. by exists st.
  - intros _ _ _ id' k Hk _. destruct (decide (id' = id)) as [->|Hne]; [right; assert (k = l) as -> by congruence; exact Hr|].
    left. by rewrite lookup_delete_ne.
  - intros _ _ _ k Hk [st Hst]. congruence.
  - intros _ _ Ha i k. simpl. intros [Hne Hk]%lookup_delete_Some. rewrite lookup_delete_ne by done. by apply Ha.
Qed.

Lemma retains_retire full id : respects (retains full) (try_retire_stream id).
Proof.
  assert (Hf : respects (retains false) (try_retire_stream id)) by retain_all. destruct full; [|exact Hf]. clear Hf.
  intros s r s' H. unfold try_retire_stream in H. unfold mbind at 1, M_bind at 1, gets at 1 in H. destruct (streams s !! id) as [l|] eqn:Hid; [|by injection H as _ <-].
  destruct (heap s !! l) as [st|] eqn:Hst; [|unfold mbind, M_bind, get_state in H; rewrite Hst in H; by injection H as _ <-].
  assert (Hg : get_state l s = (Ok st, s)) by (unfold get_state; by rewrite Hst). rewrite (bind_ok _ _ _ _ _ Hg) in H.
  unfold when in H. destruct (send_complete st && recv_terminal st) eqn:Hc; [|by injection H as _ <-]. apply andb_true_iff in Hc as [Hc Ht].
  assert (Hrel : respects (retains true) (release_open_permit l)) by retain_all.
  destruct (release_open_permit l s) as [[u|e|] s1] eqn:E1; unfold mbind at 1, M_bind at 1 in H; rewrite E1 in H; [|injection H as _ <-; by eapply Hrel..].
  specialize (Hrel _ _ _ E1). transitivity s1; [exact Hrel|]. unfold mbind at 1, M_bind at 1, gets at 1 in H.
  destruct (heap s1 !! l) as [st1|] eqn:Hst1; [|unfold mbind, M_bind, get_state in H; rewrite Hst1 in H; by injection H as _ <-].
  assert (Hg1 : get_state l s1 = (Ok st1, s1)) by (unfold get_state; by rewrite Hst1). rewrite (bind_ok _ _ _ _ _ Hg1) in H.
  destruct (bool_decide (streams s1 !! id = Some l) && send_terminal st1 && recv_terminal st1) eqn:Hd; [|by injection H as _ <-].
  injection H as _ <-. apply andb_true_iff in Hd as [[Hs1%bool_decide_eq_true _]%andb_true_iff Ht1].
  apply (retains_delete id l s1 Hs1). exists st1. split_and!; try done.
  assert (Hsc : heap s1 !! l = Some (st <| open_permit := None |>)).
  { unfold release_open_permit in E1. rewrite (bind_ok _ _ _ _ _ Hg) in E1. unfold when_some, mbind, M_bind, modify, upd_state in E1.
    destruct (open_permit st); injection E1 as _ <-; simpl; by rewrite lookup_alter_eq, Hst. }
  rewrite Hst1 in Hsc. by injection Hsc as ->.
Qed.
#[local] Hint Resolve retains_retire : half.

(** *** Opening *)

Lemma retains_insert s s' st id : heap s' = <[next_loc s := st]> (heap s) -> next_loc s' = S (next_loc s) -> cleanup_started s' = cleanup_started s ->
  streams s' = <[id := next_loc s]> (streams s) -> receive_windows (queues s') = <[id := next_loc s]> (receive_windows (queues s)) ->
  streams s !! id = None -> retains true s s'.
Proof.
  intros Hh Hn Hc Hs Hw Hid. split; try lia; rewrite ?Hc; auto.
  - intros Hf l. rewrite Hh, Hn. destruct (decide (l = next_loc s)) as [->|]; [lia|]. rewrite lookup_insert_ne by done. intros H'. specialize (Hf l H'). lia.
  - intros Hf l st0 Hl. exists st0. rewrite Hh, lookup_insert_ne; [done|]. specialize (Hf l ltac:(by eexists)). lia.
  - intros _ _ _ i l Hl _. left. rewrite Hs, lookup_insert_ne by congruence. done.
  - intros _ _ _ l Hl. rewrite Hh. destruct (decide (l = next_loc s)) as [->|]; [|rewrite lookup_insert_ne by done; intros [? ?]; congruence].
    intros _. left. exists id. rewrite Hs. apply lookup_insert_eq.
  - intros _ _ Ha i l. rewrite Hs, Hw. intros [[<- <-]|[Hne Hl]]%lookup_insert_Some; [apply lookup_insert_eq|]. rewrite lookup_insert_ne by done. by apply Ha.
Qed.

Lemma retains_new_stream p : respects (retains false) (new_stream p).
Proof.
  intros s r s' [= _ <-]. split; simpl; auto; try done.
  - intros Hf l. simpl. destruct (decide (l = next_loc s)) as [->|]; [lia|]. rewrite lookup_insert_ne by done. intros H'. specialize (Hf l H'). lia.
  - intros Hf l st Hl. exists st. rewrite lookup_insert_ne; [done|]. specialize (Hf l ltac:(by eexists)). lia.
Qed.
#[local] Hint Resolve retains_new_stream : half.

Lemma retains_open s r s' : streams s !! next_local_stream_id s = None -> open_bi_admitted s = (r, s') -> retains true s s'.
Proof.
  intros Hid. unfold open_bi_admitted. unfold mbind at 1, M_bind at 1, gets at 1. destruct (acquire_many 1 (open_streams s)) as [| |p sem]; [by intros [= _ <-]..|].
  rewrite (bind_ok _ _ s tt (s <| open_streams := sem |>)) by done. set (s1 := s <| open_streams := sem |>).
  assert (H1 : retains true s s1) by (by apply retains_kept). unfold mbind at 1, M_bind at 1. destruct (or_drop_permit p ensure_open s1) as [ro so] eqn:Eo.
  assert (Ho : respects (retains true) (or_drop_permit p ensure_open)) by retain_all. specialize (Ho _ _ _ Eo).
  destruct ro as [u|e|]; [|intros [= _ <-]; by transitivity s1..].
  assert (so = s1) as -> by (apply or_drop_ok, bind_inv in Eo as (c & s2 & [= <- <-] & Eo); by apply bail_same in Eo).
  unfold mbind at 1, M_bind at 1, get_queues at 1, gets at 1. unfold mbind at 1, M_bind at 1, gets at 1. cbv zeta beta.
  destruct (closing (queues s1) || (writer_max_control_frames s1 <=? zlen (control (queues s1)))).
  { intros H. transitivity s1; [done|]. match type of H with ?m s1 = _ => assert (Hm : respects (retains true) m) by retain_all end. by eapply Hm. }
  intros H. transitivity s1; [done|]. change (streams s1 !! next_local_stream_id s1 = None) in Hid. clearbody s1. clear H1 Ho Eo.
  unfold mbind at 1, M_bind at 1, or_drop_permit at 1, on_err at 1, take_stream_id in H. cbv [mbind M_bind gets modify mret M_ret fail drop_open_permit] in H.
  destruct (Z.leb_spec (next_local_stream_id s1) VarInt.MAX) as [Hle|Hgt]; [|injection H as _ <-; by apply retains_kept].
  unfold new_stream, or_drop_permit, on_err, lift, proto_stream_id, VarInt.from_u64 in H. rewrite (proj2 (Z.ltb_ge _ _)) in H by done.
  simpl in H. injection H as _ <-. eapply (retains_insert s1 _ _ (next_local_stream_id s1)); simpl; try done. by rewrite alter_insert_eq.
Qed.

Lemma retains_remote_open id s u s' : on_remote_open id s = (Ok u, s') -> retains true s s'.
Proof.
  unfold on_remote_open.
  cbv [mbind M_bind gets bail_if lift modify or_drop_permit on_err drop_open_permit new_stream upd_queues notify fail mret M_ret].
  intros H. repeat case_match; simplify_eq. eapply (retains_insert _ _ _ id); try reflexivity.
  match goal with E : bool_decide (is_Some _) = false |- _ => apply bool_decide_eq_false in E; simpl in E end. by apply eq_None_not_Some.
Qed.
Lemma retains_remote_open_any id : respects (retains false) (on_remote_open id).
Proof. retain_all. Qed.
#[local] Hint Resolve retains_remote_open_any : half.

(** *** The tasks *)

Lemma retains_handle f s s' : handle_frame f s = (Ok true, s') -> retains true s s'.
Proof.
  destruct f; try (match goal with |- handle_frame ?f _ = _ -> _ => assert (Hm : respects (retains true) (handle_frame f)) by retain_all; by apply Hm end).
  intros H. apply bind_inv in H as (q & s0 & [= <- <-] & H). apply bind_inv in H as (? & s0 & Hb & H). apply bail_same in Hb as ->.
  apply bind_inv in H as (? & s1 & H & [= <-]). by eapply retains_remote_open.
Qed.
Lemma retains_handle_any f : respects (retains false) (handle_frame f).
Proof. destruct f; retain_all. Qed.
#[local] Hint Resolve retains_handle_any : half.

Lemma retains_reader item : respects (retains false) (reader_step item).
Proof.
  unfold reader_step. apply respects_bind; [typeclasses eauto| |intros ?; retain_all]. destruct item; simpl; [|retain_all..].
  apply respects_bind; [typeclasses eauto|retain_all|intros _]. apply respects_catch; [typeclasses eauto|retain_all|intros ?; retain_all].
Qed.

Lemma retains_find_update full ls : respects (retains full) (find_stream_update ls).
Proof. induction ls as [|[id l] ls IH]; simpl; retain_all. Qed.
Lemma retains_put_back full id cs n : respects (retains full) (put_back id cs n).
Proof. unfold put_back. respect; apply retains_modify; intros s; by repeat case_match. Qed.
#[local] Hint Resolve retains_put_back : half.
Lemma retains_data_loop full n a b c d : respects (retains full) (data_loop n a b c d).
Proof. induction n as [|n IH]; simpl; retain_all. Qed.
#[local] Hint Resolve retains_find_update retains_data_loop : half.
Lemma retains_next_frame full : respects (retains full) next_frame.
Proof.
  unfold next_frame. generalize 2%nat. intros n. induction n as [|n IH]; simpl; [by intros s r s' [= _ <-]|]. retain_all.
Qed.
#[local] Hint Resolve retains_next_frame : half.
Lemma retains_read_fuel full fuel h n : respects (retains full) (poll_read_fuel fuel h n).
Proof. revert h. induction fuel as [|fuel IH]; intros h; simpl; [by intros s r s' [= _ <-]|]. retain_all; apply IH. Qed.
Lemma retains_cleanup full ls : respects (retains full) (cleanup_streams ls).
Proof. induction ls as [|[id l] ls IH]; simpl; retain_all. Qed.
#[local] Hint Resolve retains_read_fuel retains_cleanup : half.

Definition keeps_streams w (x : Step) : Prop :=
  match x with Next w' => retains true (w_conn w) (w_conn w') | _ => True end.

Lemma streams_perform {A} (m : Conn A) w k : respects (retains true) m -> (forall r x, w_conn (k r x) = w_conn x) -> keeps_streams w (perform m w k).
Proof.
  intros Hm Hk. unfold perform. destruct (m (w_conn w)) as [[a|er|] s'] eqn:E; simpl; rewrite ?Hk; try done; by eapply Hm.
Qed.

Definition plain_event (e : Event) : bool := match e with Open | OpenResume | Reader _ => false | _ => true end.

Lemma streams_exec e w : plain_event e = true -> keeps_streams w (exec e w).
Proof.
  intros Hn. destruct e; try done; cbn [exec exec_app exec_stream exec_task]; unfold with_handle, with_sender, with_receiver, with_send;
    repeat case_match; try done; try (by apply retains_kept); apply streams_perform; try (intros ? ?; unfold writer_turned; repeat case_match; done); retain_all.
Qed.

(** ** Every execution *)

Definition registry s : Prop := cleanup_started s = false ->
  (forall l, is_Some (heap s !! l) -> (exists id, streams s !! id = Some l) \/ retired s l) /\ agree s.

Lemma registry_retains s s' : fresh_loc s -> retains true s s' -> registry s -> registry s'.
Proof.
  intros Hf Hr Hreg Hc. pose proof Hr as [_ _ C G S W A].
  assert (Hc0 : cleanup_started s = false) by (destruct (cleanup_started s); [by rewrite C in Hc|done]). destruct (Hreg Hc0) as [Hs Ha].
  split; [|by apply A]. intros l Hl. destruct (heap s !! l) as [st|] eqn:E; [|by apply W].
  destruct (Hs l) as [[id Hid]|Hret]; [by eexists| |right; by eapply retired_later].
  destruct (S eq_refl Hc Hf id l Hid) as [?|?]; [by eexists|left; by exists id|by right].
Qed.

Lemma no_next_local lim w : world_inv lim w -> streams (w_conn w) !! next_local_stream_id (w_conn w) = None.
Proof.
  intros Hn%world_names. destruct (streams (w_conn w) !! next_local_stream_id (w_conn w)) as [l|] eqn:E; [|done].
  pose proof (nm_issued _ _ Hn _ _ (nm_streams _ _ Hn _ _ E)) as Hi. rewrite (proj2 (nm_local _ _ Hn)), Z.eqb_refl in Hi. lia.
Qed.

Lemma registry_event lim e w w' : world_inv lim w -> exec e w = Next w' -> registry (w_conn w) -> registry (w_conn w').
Proof.
  intros Hw Hx Hr. pose proof (world_fresh lim w Hw) as Hf. destruct (plain_event e) eqn:Ep.
  { pose proof (streams_exec e w Ep) as Hk. rewrite Hx in Hk. by eapply registry_retains. }
  destruct e; try done; cbn [exec exec_app exec_task] in Hx.
  - unfold with_handle in Hx. destruct (0 <? _); [|done]. apply perform_inv in Hx as (r & s & -> & Hrun).
    assert (Hret : retains true (w_conn w) s).
    { assert (Hy : exists y, open_bi (w_conn w) = (y, s)) by (destruct r; [|destruct Hrun]; eauto). destruct Hy as [y Hy].
      unfold open_bi in Hy. unfold mbind at 1, M_bind at 1 in Hy. destruct (ensure_open (w_conn w)) as [ro so] eqn:Eo.
      assert (so = w_conn w) as -> by (unfold ensure_open in Eo; cbv [mbind M_bind gets bail_if] in Eo; by destruct (closed (w_conn w)); injection Eo).
      destruct ro; [|by injection Hy as _ <-..]. eapply retains_open, Hy. by eapply no_next_local. }
    replace (w_conn _) with s by (by repeat case_match). by eapply registry_retains.
  - destruct (w_opening w) as [|n]; [done|]. apply perform_inv in Hx as (r & s & -> & Hrun).
    assert (Hret : retains true (w_conn w) s) by (destruct r; [|destruct Hrun as [e Hrun]]; (eapply retains_open, Hrun; by eapply no_next_local)).
    replace (w_conn _) with s by (by repeat case_match). by eapply registry_retains.
  - destruct (_ && _); [|done]. apply perform_inv in Hx as (r & s & -> & Hrun). simpl. destruct r as [[|]|].
    + apply reader_ok_run in Hrun as (b & f & c & _ & _ & Hrun). eapply registry_retains; [exact Hf| |exact Hr].
      etransitivity; [|by eapply retains_handle]. by apply retains_kept.
    + intros Hc. apply reader_ends in Hrun. congruence.
    + destruct Hrun as [e Hrun]. pose proof Hw as [Hv Hd _ _ _].
      pose proof (wp_reader_step lim Hv _ _ _ _ item Hd (world_on_heap lim w Hw)) as Hwp. unfold wp in Hwp. by rewrite Hrun in Hwp.
Qed.

Lemma runs_registry lim w : runs lim w -> registry (w_conn w).
Proof.
  induction 1 as [is_client keepalive s _ Hn|w e w' Hr IH Ht He]; [|by eapply registry_event; [apply runs_inv|..]].
  unfold connection_new in Hn. do 4 (apply bind_ok_iff in Hn as (? & _ & Hn)). injection Hn as <-. intros _. split; [|done].
  intros l [st Hst]. done.
Qed.

End registry.
