(* ===== verification/Progress.v ===== *)
(** Two ends cannot deadlock: when nothing is on its way and the receiving application has
    read everything, the sending end has nothing queued for the streams that are read. *)

From S2P Require Import Prelude Hoare Buf Varint Utf8 Frames Errors Limits Flow Tokio.
From S2P Require Import ConnState Inbound InboundSpec Writer WriterSpec Scheduler Connection Streams Tasks.
From S2P Require Import ReceiveSpec ReadSpec ReceiveSystem Receive ConnectionSpec Ledger SendSpec SendInv SendOps Halves.
From S2P Require Import SendPeer Duplex DuplexOps SendDuplex System SystemInv SystemSpec Shutdown Fade Delivery DeliveryReader.
From S2P Require Import Events Books BooksSpec Pair Credit Registry.

#[local] Open Scope Z_scope.

(** ** What the frames said, exactly *)

Lemma heard_after_settings lim t : Forall (fun f => is_settings f = false) t ->
  heard_limit (settings_of lim :: t) = conn_told (as_u64 (max_inbound_connection_bytes lim)) (settings_of lim :: t) /\
  heard_initial (settings_of lim :: t) = as_u64 (max_inbound_stream_bytes lim).
Proof.
  unfold heard_limit, heard_initial. induction t as [|f t IH] using rev_ind; [done|]. intros [Ht Hf]%Forall_app. apply Forall_cons in Hf as [Hf _].
  destruct (IH Ht) as [H1 H2]. rewrite app_comm_cons, conn_heard_snoc, conn_told_snoc, <- H1.
  destruct (conn_heard (settings_of lim :: t)) as [[[[a b] c] d] e]. simpl in *. by destruct f.
Qed.

Section progress.
Context {TK : Tokio} {TKL : TokioLaws TK} {HI : HashIter} {HIL : HashIterLaws HI}.
Implicit Types (s : ConnectionShared) (st : StreamState) (w : World) (n : End).

(** ** At rest *)

(** The tasks run, and the writer has nothing it may send. *)
Definition at_rest n : Prop :=
  w_reader (e_world n) = true /\ w_writer (e_world n) = WriterIdle /\ exists s', next_frame (w_conn (e_world n)) = (Ok Pending, s').
(** Every frame of [from] arrived. *)
Definition arrived from to : Prop := e_taken to = length (w_wire (e_world from)).
(** Every byte received was read. *)
Definition all_read n : Prop :=
  (forall l st, heap (w_conn (e_world n)) !! l = Some st -> content st = []) /\ hands (w_receivers (e_world n)) = [].

(** What a writer that waits tells. *)
Record rests (lim : Limits) n : Prop := {
  rs_control : no_control (w_conn (e_world n));
  rs_data : no_data (w_conn (e_world n));
  rs_abort : abortive (queues (w_conn (e_world n))) = false;
  rs_started : cleanup_started (w_conn (e_world n)) = false;
  rs_trace : trace_of n = w_wire (e_world n)
}.

Lemma at_rest_rests lim n : runs lim (e_world n) -> at_rest n -> rests lim n.
Proof.
  intros Hr (_ & Hw & s' & Hrun). pose proof (runs_inv _ _ Hr) as Hi. pose proof (sv_writer _ _ (world_send_inv _ _ Hi)) as Hwi.
  pose proof (wp_run _ _ _ _ _ _ Hrun (wp_next_frame _ Hwi)) as Ho. simpl in Ho. remember Pending as p eqn:Hp.
  destruct Ho as [| | | | |Hnc Hnd Hab _]; try done. split; try done.
  - destruct (cleanup_started _) eqn:E; [|done]. destruct (runs_ends _ _ Hr) as [Hd _ _]. destruct (Hd E). congruence.
  - pose proof Hi as [_ _ _ _ Hwire]. unfold wire_ok in Hwire. rewrite Hw in Hwire. done.
Qed.

(** Everything that one end took, the other end handled. *)
Lemma arrived_frames limf from to : rests limf from -> linked from to -> w_reader (e_world to) = true -> arrived from to ->
  r_frames (e_receipt to) = trace_of from.
Proof. intros Hf Hl Hrd Ha. rewrite (lk_exact _ _ Hl Hrd), (rs_trace _ _ Hf), Ha. apply firstn_all. Qed.

(** The sending end knows the SETTINGS of the other, and its credit exactly. *)
Lemma credit_exact limf limt from to : history limf (e_world from) (e_receipt from) -> history limt (e_world to) (e_receipt to) ->
  rests limt to -> w_reader (e_world from) = true -> r_frames (e_receipt from) = trace_of to ->
  let q := queues (w_conn (e_world from)) in
  peer_settings q = true /\ peer_limit q = advertised (receive_window (w_conn (e_world to))) /\
  peer_initial_stream_limit q = as_u64 (max_inbound_stream_bytes limt).
Proof.
  intros Hf Ht Hres Hrd Hr q. destruct (history_book _ _ _ Hf) as [_ Hin]. destruct (Hin Hrd) as [I1 _ _ _ I5].
  destruct (history_book _ _ _ Ht) as [[_ _ O3 _ _ _ O7] _]. pose proof (world_send_inv _ _ (runs_inv _ _ (history_runs _ _ _ Ht))) as Hi.
  pose proof (sv_settings _ _ Hi) as Hset. pose proof (sv_first _ _ Hi) as Hfirst. rewrite Hr in I1, I5. unfold trace_of in I1, I5.
  destruct (g_trace (w_hist (e_world to))) as [|f0 t] eqn:Etr.
  { destruct (Hset (rs_abort _ _ Hres)) as (f & c & Hc & _). by rewrite (nc_control _ (rs_control _ _ Hres)) in Hc. }
  destruct Hfirst as [H0 Hrest]. apply Forall_cons in I5 as [Hcl _]. rewrite Hcl, orb_false_r in H0. apply Forall_cons in O7 as [Hs _].
  rewrite (Hs H0) in *. destruct (heard_after_settings limt t Hrest) as [Hl Hini]. unfold heard_limit, heard_initial in *.
  pose proof (heard_settings_in (settings_of limt :: t)) as Hsi. unfold heard_settings in Hsi.
  rewrite <- I1 in Hl, Hini, Hsi. unfold in_conn in Hl, Hini, Hsi. cbn [fst snd] in Hl, Hini, Hsi. fold q in Hl, Hini, Hsi.
  split_and!; [by rewrite Hsi|by rewrite O3|done].
Qed.

(** A stream with queued data is in the map of its end. *)
Lemma queued_registered lim n id c rest : runs lim (e_world n) -> cleanup_started (w_conn (e_world n)) = false ->
  let s := w_conn (e_world n) in
  by_stream (queues s) !! id = Some (c :: rest) -> exists st, heap s !! oc_state c = Some st /\
    g_names (w_hist (e_world n)) !! oc_state c = Some id /\ streams s !! id = Some (oc_state c) /\ stream_sends (w_hist (e_world n)) (queues s) id st.
Proof.
  intros Hr Hc s Hq. pose proof (runs_inv _ _ Hr) as Hw. pose proof (world_names _ _ Hw) as Hn. pose proof (world_send_inv _ _ Hw) as Hi.
  pose proof (nm_chunks _ _ Hn _ _ Hq) as Hname. apply Forall_cons in Hname as [Hname _].
  destruct (proj2 (nm_dom _ _ Hn (oc_state c))) as [st Hst]; [by eexists|]. exists st. pose proof (sv_streams _ _ Hi _ _ _ Hname Hst) as Hss.
  split_and!; try done. destruct (runs_registry _ _ Hr Hc) as [Hreg _]. destruct (Hreg (oc_state c)) as [[id' Hid]|(st' & Hst' & Hcm & _)]; [by eexists| |].
  - pose proof (nm_streams _ _ Hn _ _ Hid). assert (id' = id) as -> by congruence. done.
  - assert (st' = st) as -> by congruence. pose proof (ss_completed _ _ _ _ Hss Hcm) as Hov. destruct (ss_over _ _ _ _ Hss Hov) as [_ Hnone].
    fold s in Hnone. congruence.
Qed.

(** A stream whose end was taken has nothing queued. *)
Lemma ended_empty g q id st : stream_sends g q id st -> existsb (is_end id) (g_trace g) = true -> by_stream q !! id = None.
Proof.
  intros Hss He. apply (ss_over _ _ _ _ Hss). rewrite is_end_split in He. apply orb_true_iff in He as [He|He].
  - rewrite (ss_fin_sent _ _ _ _ Hss) in He. by rewrite He.
  - rewrite (ss_reset_sent _ _ _ _ Hss He). apply orb_true_r.
Qed.

(** The windows of an end whose application read everything: a credit that is used up is
    due to be raised. *)
Lemma read_windows lim n id l : runs lim (e_world n) -> all_read n -> streams (w_conn (e_world n)) !! id = Some l ->
  let s := w_conn (e_world n) in
  let due v := advertised v = received v -> advertised v < VarInt.MAX -> ReceiveWindow.needs_update v = true in
  due (receive_window s) /\
  forall k st, heap s !! k = Some st -> recv_discarded st = false -> due (st_window st).
Proof.
  intros Hr [Hc Hh] Hs s due. pose proof (runs_inv _ _ Hr) as [_ [_ Hph] _ _ _]. destruct (phase_found _ _ _ _ _ Hph Hs) as [_ Hrs].
  pose proof (ri_acct _ _ _ _ _ Hrs) as [Hw _ Hsa _ _ _ _]. destruct (recv_books _ _ _ Hrs) as (Hb & _ & _ & Hst). rewrite Hh in *.
  assert (Hdue : forall v, ReceiveWindow.inv v -> ReceiveWindow.buffered v = 0 -> due v).
  { intros v Hv Hz He Hm. apply ReceiveWindow.update_due; try done. unfold ReceiveWindow.credit. lia. }
  split.
  - apply Hdue; [done|]. fold s in Hb. rewrite Hb, msum_zero; [done|]. intros k st Hk. by rewrite (Hc k st Hk).
  - intros k st Hk Hd. destruct (Hst k st Hk) as (Hm & _). apply Hdue; [apply (Hsa k st Hk)|]. rewrite (Hm Hd), (Hc k st Hk). done.
Qed.

(** ** Both ends *)

(** What the two ends of one stream agree on when everything arrived. *)
Lemma stream_exact limf limt from to id k l : history limf (e_world from) (e_receipt from) -> history limt (e_world to) (e_receipt to) ->
  rests limt to -> w_reader (e_world from) = true -> w_reader (e_world to) = true ->
  r_frames (e_receipt from) = trace_of to -> r_frames (e_receipt to) = trace_of from ->
  let sf := w_conn (e_world from) in let st := w_conn (e_world to) in
  forall x y, heap sf !! k = Some x -> streams sf !! id = Some k -> g_names (w_hist (e_world from)) !! k = Some id ->
  stream_sends (w_hist (e_world from)) (queues sf) id x -> heap st !! l = Some y -> g_names (w_hist (e_world to)) !! l = Some id ->
  stream_credit (queues sf) x = advertised (st_window y) - received (st_window y) /\
  recv_terminal y = existsb (is_end id) (trace_of from).
Proof.
  intros Hf Ht Hres Hrf Hrt Ef Et sf st x y Hx Hs Hnx Hss Hy Hny.
  destruct (credit_exact _ _ _ _ Hf Ht Hres Hrf Ef) as (_ & _ & Hini). destruct (history_book _ _ _ Hf) as [_ Hinf]. destruct (history_book _ _ _ Ht) as [Hot Hint].
  pose proof (ib_live _ _ _ (Hinf Hrf) _ _ Hnx Hs) as Hlive. pose proof (ib_stream _ _ _ (Hint Hrt) _ _ Hny) as (Hrec & Hter & _).
  pose proof (ob_stream _ _ _ Hot _ _ Hny) as Hadv. rewrite Ef, stream_heard_eq in Hlive. rewrite Et, stream_heard_eq in Hrec, Hter.
  unfold in_at, out_at in *. fold sf in Hlive. fold st in Hrec, Hter, Hadv. rewrite Hx in Hlive. rewrite Hy in Hrec, Hter, Hadv. simpl in Hlive, Hrec, Hter, Hadv.
  unfold in_stream, out_stream in *. split; [|done]. unfold stream_credit. fold sf in Hini. rewrite Hini, Hadv, Hrec, (ss_total _ _ _ _ Hss).
  assert (Hl : st_peer_limit x = stream_told id 0 (trace_of to)) by congruence. rewrite Hl, Z.max_comm, stream_told_max, Z.max_l; [done|].
  apply (Z.mod_pos_bound _ (2 ^ 64) eq_refl).
Qed.

(** C4: two ends cannot deadlock.  When both writers wait, every frame that was written has
    arrived, and the application of one end has read all it was given, then the other end
    has nothing queued for any stream that can be read: what credit was used up was given
    back and told, so that a write cannot be held up for ever.  Only the largest credit
    the protocol can tell, reached after 2^62 - 1 bytes, ends that. *)
Theorem no_deadlock limc lims p x id l b st : joined limc lims p ->
  at_rest (end_at p x) -> at_rest (end_at p (other x)) ->
  arrived (end_at p x) (end_at p (other x)) -> arrived (end_at p (other x)) (end_at p x) ->
  all_read (end_at p x) ->
  let s := w_conn (e_world (end_at p x)) in
  (id, l, b) ∈ slots (e_world (end_at p x)) -> heap s !! l = Some st ->
  advertised (receive_window s) < VarInt.MAX -> advertised (st_window st) < VarInt.MAX ->
  by_stream (queues (w_conn (e_world (end_at p (other x))))) !! id = None.
Proof.
  intros Hj Hx Ho Hax Hao Hread s Hslot Hst Hm Hms. destruct (joined_facing _ _ _ x Hj) as [Hf Ht Hout Hback _ _].
  pose proof (history_runs _ _ _ Hf) as Hrf. pose proof (history_runs _ _ _ Ht) as Hrt. pose proof (at_rest_rests _ _ Hrf Ho) as Hrsf. pose proof (at_rest_rests _ _ Hrt Hx) as Hrst.
  destruct Hx as [Hxr _], Ho as [Hor _]. pose proof (arrived_frames _ _ _ Hrsf Hout Hxr Hao) as Et. pose proof (arrived_frames _ _ _ Hrst Hback Hor Hax) as Ef.
  pose proof (dv_slots _ _ _ _ (history_delivery _ _ _ Ht)) as Hsl. rewrite Forall_forall in Hsl. destruct (Hsl _ Hslot) as (Hn & st0 & Hl0 & Hfw & _).
  unfold slot_loc in Hn, Hl0. simpl in Hn, Hl0. assert (st0 = st) as -> by (unfold s in *; congruence).
  destruct (by_stream _ !! id) as [q|] eqn:Eq; [exfalso|done]. pose proof (world_send_inv _ _ (runs_inv _ _ Hrf)) as Hi. pose proof (sv_writer _ _ Hi) as Hwi.
  destruct q as [|c rest]; [by destruct (wi_queues _ Hwi _ _ Eq)|]. destruct (queued_registered _ _ _ _ _ Hrf (rs_started _ _ Hrsf) Eq) as (y & Hy & Hny & Hsy & Hss).
  destruct (credit_exact _ _ _ _ Hf Ht Hrst Hor Ef) as (Hset & Hpl & _).
  destruct (stream_exact _ _ _ _ _ _ _ Hf Ht Hrst Hor Hxr Ef Et _ _ Hy Hsy Hny Hss Hl0 Hn) as [Hcr Hter].
  assert (Hterm : recv_terminal st = false).
  { rewrite Hter. apply not_true_is_false. intros He. pose proof (ended_empty _ _ _ _ Hss He). congruence. }
  destruct (runs_registry _ _ Hrt (rs_started _ _ Hrst)) as [Hreg Hag].
  assert (Hmap : streams s !! id = Some l).
  { destruct (Hreg l) as [[id' Hid]|(st' & Hst' & _ & Ht')]; [by eexists| |congruence].
    pose proof (nm_streams _ _ (world_names _ _ (runs_inv _ _ Hrt)) _ _ Hid). unfold s. congruence. }
  destruct (read_windows _ _ _ _ Hrt Hread Hmap) as [Hd1 Hd2]. destruct (rs_control _ _ Hrst) as [_ Hw1 Hw2].
  destruct (blocked_credit _ _ _ _ _ Hwi (rs_data _ _ Hrsf) Eq Hy) as [?|[_ [Hz|Hz]]]; [congruence| |].
  - destruct (history_book _ _ _ Hf) as [Hof _]. destruct (history_book _ _ _ Ht) as [_ Hint]. pose proof (ib_conn _ _ _ (Hint Hxr)) as Hic.
    pose proof (ob_sent _ _ _ Hof) as Hse. unfold conn_credit in Hz. rewrite Hpl, Hse in Hz. apply (f_equal snd) in Hic. rewrite Et in Hic.
    fold (heard_total (trace_of (end_at p (other x)))) in Hic. rewrite heard_total_eq in Hic. simpl in Hic. unfold trace_of in Hic.
    rewrite Hd1 in Hw1; [done| |done]. unfold s. lia.
  - assert (Hrecv : WriterSpec.receiving st = true) by (unfold WriterSpec.receiving; by rewrite Hterm, (fw_discarded _ _ _ _ Hfw)).
    pose proof (Hw2 id l st (Hag _ _ Hmap) Hst Hrecv) as Hnu. rewrite (Hd2 _ _ Hst (fw_discarded _ _ _ _ Hfw)) in Hnu; [done|lia|done].
Qed.

End progress.

(** ** A run *)

#[local] Existing Instance counting.
#[local] Existing Instance counting_laws.
#[local] Existing Instance hash_list.
#[local] Existing Instance hash_list_laws.

(** The first two bytes arrive and are read, the credit is raised, the third follows and is
    read too; the writers then have nothing left. *)
Definition narrow_rest : list PairEvent :=
  [At Server Accept; At Server (ReadChunk 0)] ++ flush Server ++ flush Client ++ [At Server (ReadChunk 0)] ++ flush Server ++
  [At Client (Writer true); At Server (Writer true)].
Definition narrow_done : Pair := pair_after narrow_rest narrow_after.

Lemma narrow_done_joined : joined demo_limits narrow_limits narrow_done.
Proof.
  apply joined_after; [|vm_compute; reflexivity]. apply (joined_event _ _ narrow_before (Arrive Server)); [apply narrow_joined|apply narrow_step].
Qed.

Lemma narrow_at_rest x : at_rest (end_at narrow_done x).
Proof. destruct x; (split; [|split; [|eexists]]; vm_compute; reflexivity). Qed.

Lemma narrow_arrived x : arrived (end_at narrow_done x) (end_at narrow_done (other x)).
Proof. destruct x; vm_compute; reflexivity. Qed.

Lemma narrow_read : all_read (end_at narrow_done Server).
Proof.
  split; [|vm_compute; reflexivity].
  assert (H : map_Forall (fun _ st => content st = []) (heap (w_conn (e_world (end_at narrow_done Server))))); [|exact H].
  apply (bool_decide_eq_true_1 _). vm_compute. reflexivity.
Qed.

(** The credit that was given, and the frames it let through. *)
Example narrow_frames :
  map (fun f => match f with MaxStreamData i m => (inner i, inner m) | _ => (0, 0) end) (w_wire (e_world (server narrow_done))) = [(0, 0); (0, 4); (0, 5)] /\
  sent_data 0 (w_wire (e_world (client narrow_done))) = [x61; x62; x63] /\ length (w_wire (e_world (client narrow_done))) = 4%nat.
Proof. vm_compute. repeat split; reflexivity. Qed.

Lemma no_deadlock_witness : by_stream (queues (w_conn (e_world (end_at narrow_done (other Server))))) !! 0 = None.
Proof.
  refine (no_deadlock demo_limits narrow_limits narrow_done Server 0 0%nat [] _ narrow_done_joined (narrow_at_rest Server)
    (narrow_at_rest Client) (narrow_arrived Server) (narrow_arrived Client) narrow_read _ _ _ _).
  - vm_compute. left.
  - vm_compute. reflexivity.
  - vm_compute. reflexivity.
  - vm_compute. reflexivity.
Defined.
