(* ===== verification/Arrivals.v ===== *)
(** The streams that wait to be accepted: nothing was done yet with them. *)

From S2P Require Import Prelude Hoare Buf Varint Utf8 Frames Errors Limits Flow Tokio.
From S2P Require Import ConnState Inbound InboundSpec Writer WriterSpec Scheduler Connection Streams Tasks.
From S2P Require Import ReceiveSpec ReadSpec ReceiveSystem ConnectionSpec Ledger SendSpec SendInv SendOps Halves.
From S2P Require Import SendPeer Duplex DuplexOps SendDuplex System SystemInv SystemSpec Fade Delivery DeliveryReader Receive Events.
From S2P Require Import Books BooksSpec.

#[local] Open Scope Z_scope.

Section touches.
Context {TK : Tokio} {HI : HashIter}.
Implicit Types (w : World).

(** The stream that an event of the application is about. *)
Definition touches (id : Z) (e : Event) w : bool :=
  match e with
  | WriteChunk i _ | Finish i | Reset i _ | PollWrite i _ | PollFlush i | PollShutdown i | DropSender i =>
      from_option (fun h => ss_stream_id h =? id) false (w_senders w !! i)
  | SendResume j | SendCancel j => from_option (fun f => sf_stream_id f =? id) false (w_sends w !! j)
  | ReadChunk k | PollRead k _ | DropReceiver k => from_option (fun h => rs_stream_id h =? id) false (w_receivers w !! k)
  | _ => false
  end.

(** The calls that wait on the stream. *)
Definition calls (id : Z) w : list SendFuture := filter (fun f => sf_stream_id f = id) (w_sends w).

(** Nothing was done yet with the stream [id] at [l]. *)
Record unused_stream (id : Z) (l : loc) w (rc : Receipt) : Prop := {
  un_name : g_names (w_hist w) !! l = Some id;
  un_written : accepted (w_hist w) id = [];
  un_read : got rc l = [];
  un_calls : calls id w = []
}.

(** The streams that wait to be accepted, and have no handle yet. *)
Definition arrivals w (rc : Receipt) : Prop :=
  forall id l, (id, l) ∈ incoming_streams (w_conn w) -> unused_stream id l w rc /\ forall h, h ∈ w_senders w -> ss_stream_id h <> id.

End touches.

Section arrivals.
Context {TK : Tokio} {TKL : TokioLaws TK} {HI : HashIter} {HIL : HashIterLaws HI}.
Implicit Types (w : World) (rc : Receipt).

(** ** Events of others *)

Lemma filter_delete_perm {A} (P : A -> Prop) `{forall a, Decision (P a)} (l : list A) (j : nat) a : l !! j = Some a ->
  filter P l ≡ₚ filter P [a] ++ filter P (delete j l).
Proof. intros Hj. by rewrite <- filter_app, <- (delete_Permutation l j a Hj). Qed.

Lemma filter_delete_other {A} (P : A -> Prop) `{forall a, Decision (P a)} (l : list A) (j : nat) a : l !! j = Some a -> ~ P a -> filter P (delete j l) = filter P l.
Proof.
  revert j. induction l as [|b l IH]; intros [|j]; simpl; try done.
  - intros [= ->] Hn. by rewrite filter_cons_False.
  - intros Hj Hn. change (filter P (b :: delete j l) = filter P (b :: l)). by rewrite !filter_cons, (IH j).
Qed.

Lemma left_stream f p f' : left f p = Some f' -> sf_stream_id f' = sf_stream_id f /\ sf_payload f' = sf_payload f.
Proof. destruct p; [done|]. by intros [= <-]. Qed.

Lemma left_other id f (r : option SendPoll) : sf_stream_id f <> id -> filter (fun f => sf_stream_id f = id) (option_list (r ≫= left f)) = [].
Proof. intros Hn. destruct (r ≫= left f) as [f'|] eqn:E; [|done]. apply bind_Some in E as (p & _ & [Hi _]%left_stream). simpl. rewrite filter_cons_False; [done|congruence]. Qed.

Lemma accepted_item item s s' g id : accepted (name_item item s s' g) id = accepted g id.
Proof.
  destruct item as [b| | | |]; try done. simpl. destruct (Frame.decode b).1 as [[]| |]; try done. simpl. unfold renamed. by case_decide.
Qed.

Lemma foreign_event id e w w' : touches id e w = false -> exec e w = Next w' ->
  accepted (w_hist w') id = accepted (w_hist w) id /\ calls id w' = calls id w.
Proof.
  intros Ht H. destruct (is_writer e) eqn:Ew.
  { destruct e; try done. simpl in H. apply perform_inv in H as (r & s & -> & _). unfold writer_turned. by repeat case_match. }
  destruct e; simpl in H, Ht; unfold with_handle, with_sender, with_receiver, with_send in H;
    event_inv H; simplify_eq; unfold calls; simpl in *; rewrite ?accepted_item; try done;
    apply Z.eqb_neq in Ht;
    rewrite ?accepted_record, ?decide_False, ?app_nil_r, ?filter_app, ?left_other by (done || congruence);
    (split; [done|]); try done; by eapply filter_delete_other.
Qed.

Lemma reader_named lim w rc h : history lim w rc -> h ∈ w_receivers w -> g_names (w_hist w) !! rs_state h = Some (rs_stream_id h).
Proof.
  intros Hh Hx. pose proof (dv_slots _ _ _ _ (history_delivery _ _ _ Hh)) as Hs. rewrite Forall_forall in Hs.
  apply (Hs (handled h)). unfold slots, slots_of. apply elem_of_app. right. by apply (list_elem_of_fmap_2 handled).
Qed.

(** What an event reads is of the stream it touches. *)
Lemma foreign_read lim id l e w w' rc : history lim w rc -> (forall id', g_names (w_hist w) !! l = Some id' -> id' = id) -> touches id e w = false ->
  got (note e w w' rc) l = got rc l.
Proof.
  intros Hh Hn Ht. unfold note. destruct (read_of e w) as [[l' b]|] eqn:E; [|done]. unfold got. simpl. rewrite lookup_insert_ne; [done|]. intros ->.
  destruct e as [| | | | | | | | | | | | | | | | |k|k room|k| | | | | | |]; try done; simpl in E, Ht;
    apply bind_Some in E as (h & Hk & E); rewrite Hk in Ht; simpl in Ht; apply Z.eqb_neq in Ht;
    pose proof (reader_named lim w rc h Hh (list_elem_of_lookup_2 _ _ _ Hk)); (assert (rs_state h = l) by (by repeat case_match; simplify_eq)); subst; by apply Ht, Hn.
Qed.

(** ** The streams that wait *)

Definition is_reader (e : Event) : bool := match e with Reader _ => true | _ => false end.

Lemma frame_incoming f s r s' x : handle_frame f s = (r, s') -> x ∈ incoming_streams s' -> x ∈ incoming_streams s \/ (next_loc s <= x.2)%nat.
Proof.
  intros Hrun Hx. assert (Hf : (exists id, f = OpenStream id) \/ forall id, f <> OpenStream id) by (destruct f; eauto; by right).
  destruct Hf as [[id ->]|Hf]; [|left; eapply elem_of_sublist; [exact Hx|apply (fades_handle_any f Hf _ _ _ Hrun)]].
  unfold handle_frame in Hrun. rewrite (bind_ok get_queues _ s (queues s) s eq_refl) in Hrun. cbv beta in Hrun.
  destruct (negb (is_settings (OpenStream id)) && negb (peer_settings (queues s))).
  { cbv [mbind M_bind bail_if fail] in Hrun. injection Hrun as _ <-. by left. }
  match type of Hrun with (?m ≫= _) s = _ => rewrite (bind_ok m _ s tt s eq_refl) in Hrun end. cbv beta in Hrun.
  unfold mbind, M_bind in Hrun. destruct (on_remote_open (VarInt.into_inner id) s) as [r1 s1] eqn:E.
  assert (s' = s1) as -> by (destruct r1; by injection Hrun). destruct (remote_open_run _ _ _ _ E) as [->|(st & _ & _ & _ & [Hi|Hi])]; [by left|by rewrite Hi in Hx; left|].
  rewrite Hi in Hx. apply elem_of_app in Hx as [?|Hx]; [by left|]. apply list_elem_of_singleton in Hx as ->. by right.
Qed.

Lemma reader_incoming item s b s' x : reader_step item s = (Ok b, s') -> x ∈ incoming_streams s' -> x ∈ incoming_streams s \/ (next_loc s <= x.2)%nat.
Proof.
  intros Hrun Hx. apply bind_inv in Hrun as (b1 & s1 & Hitem & Hrun). apply bind_inv in Hrun as (u & s2 & Hm & Hret). injection Hret as -> ->.
  assert (Hs1 : fades (fun _ => strict) s1 s').
  { revert Hm. apply (respects_when (fades (fun _ => strict))). apply fades_mark_closed. }
  apply (fun H => elem_of_sublist _ _ _ H (fs_incoming _ _ _ Hs1)) in Hx. destruct item as [bs| | | |]; try (injection Hitem as _ <-; by left).
  2:{ left. eapply elem_of_sublist; [exact Hx|apply (fades_fail_closed _ _ _ _ _ Hitem)]. }
  destruct (reader_frame_run _ _ _ _ Hitem) as (s0 & Hn0 & _ & Hi0 & _ & Hrest). rewrite <- Hn0, <- Hi0.
  destruct (Frame.decode bs).1 as [f|e|]; [|left; eapply elem_of_sublist; [exact Hx|apply Hrest]..].
  destruct Hrest as (r & s3 & Hh & Hf & _). eapply frame_incoming; [exact Hh|]. eapply elem_of_sublist; [exact Hx|apply Hf].
Qed.

Lemma perform_incoming {A} f (m : Conn A) w k w' x : respects (fades f) m -> (forall r v, w_conn (k r v) = w_conn v) ->
  perform m w k = Next w' -> x ∈ incoming_streams (w_conn w') -> x ∈ incoming_streams (w_conn w).
Proof.
  intros Hm Hk (r & s & -> & Hr)%perform_inv. rewrite Hk. intros Hin. eapply elem_of_sublist; [exact Hin|].
  destruct r; [|destruct Hr as [? Hr]]; apply (Hm _ _ _ Hr).
Qed.

(** Only the reader adds one, at a new location. *)
Lemma exec_incoming lim e w w' x : world_inv lim w -> exec e w = Next w' -> x ∈ incoming_streams (w_conn w') ->
  x ∈ incoming_streams (w_conn w) \/ (is_reader e = true /\ (next_loc (w_conn w) <= x.2)%nat).
Proof.
  intros Hw Hx Hin. destruct (takes e) eqn:Et.
  2:{ left. pose proof (calm_exec e w Et) as Hc. rewrite Hx in Hc. eapply elem_of_sublist; [exact Hin|apply Hc]. }
  destruct e as [| | | | | | | | | | | | | | | | |k|k room|k|item| | | | | |]; try done; cbn [exec exec_app exec_stream exec_task] in Hx;
    unfold with_receiver in Hx; try (destruct (w_receivers w !! k) as [h|]; [|done]).
  - left. unfold with_handle in Hx. destruct (0 <? _); [|done]. apply perform_inv in Hx as (r & s & -> & Hr).
    destruct r as [[[id l]|]|]; [|simpl in Hin; by rewrite (accept_other _ _ _ Hr) in Hin by done|destruct Hr as [er Hr]; simpl in Hin; by rewrite (accept_other _ _ _ Hr) in Hin by done].
    destruct (accept_run _ _ _ Hr) as (rest & Hi & Hi' & _). simpl in Hin. rewrite Hi' in Hin. rewrite Hi. by right.
  - left. eapply (perform_incoming _ _ w _ w' x (fades_recv_read h)); [|exact Hx|exact Hin]; done.
  - left. eapply (perform_incoming _ _ w _ w' x (fades_poll_read h room)); [|exact Hx|exact Hin]; done.
  - left. eapply (perform_incoming _ _ w _ w' x (fades_drop_reader h)); [|exact Hx|exact Hin]; done.
  - destruct (_ && _); [|done]. pose proof Hw as [Hv Hdx _ _ _]. pose proof (wp_reader_step lim Hv _ _ _ _ item Hdx (world_on_heap lim w Hw)) as Hwp.
    apply perform_inv in Hx as (r & s & -> & Hr). unfold wp in Hwp. destruct r as [b|]; [|by destruct Hr as [er Hr]; rewrite Hr in Hwp].
    destruct (reader_incoming _ _ _ _ _ Hr Hin); [by left|by right].
  - left. destruct (w_cleanup w); [|done]. destruct (terminated _); [by injection Hx as <-|]. apply perform_inv in Hx as (r & s & -> & Hr).
    assert (Hf : cleans (w_conn w) s) by (destruct r; [|destruct Hr as [? Hr]]; by eapply cleans_pass). eapply elem_of_sublist; [exact Hin|apply Hf].
Qed.

(** ** The handles *)

(** A poll leaves the stream of its handle. *)
Lemma polled_sender {A} lim w i h (m : Conn (SendStream * A)) w' h' : world_inv lim w -> w_senders w !! i = Some h ->
  (forall hs, duplex lim true (w_hist w) (map send_hold (stored h) ++ hs) (w_receivers w) (w_conn w) -> sender_ok lim (g_names (w_hist w)) h ->
    wp m (w_conn w) (fun r _ => ss_stream_id r.1 = ss_stream_id h) (fun _ _ => False)) ->
  perform m w (handle_polled w i h) = Next w' -> h' ∈ w_senders w' -> exists h0, h0 ∈ w_senders w /\ ss_stream_id h0 = ss_stream_id h'.
Proof.
  intros Hw Hi Hm Hx Hin. pose proof Hw as [_ Hd _ _ _].
  assert (Hwp : wp m (w_conn w) (fun r _ => ss_stream_id r.1 = ss_stream_id h) (fun _ _ => False)).
  { apply (Hm (map send_hold (w_sends w ++ (delete i (w_senders w) ≫= stored)))); [|by eapply sender_inv].
    eapply duplex_perm; [|exact Hd]. rewrite <- map_app. apply Permutation_map. by apply futures_sender. }
  unfold wp, perform in *. destruct (m (w_conn w)) as [[r|er|] s]; [|done..]. injection Hx as <-. simpl in Hin.
  apply list_elem_of_lookup in Hin as [j Hj]. apply list_lookup_insert_Some in Hj as [(-> & <- & _)|[_ Hj]].
  - exists h. split; [by eapply list_elem_of_lookup_2|done].
  - exists h'. split; [by eapply list_elem_of_lookup_2|done].
Qed.

Definition hands_out (e : Event) : bool :=
  match e with Open | OpenResume | Accept | PollWrite _ _ | PollFlush _ | PollShutdown _ | DropSender _ => true | _ => false end.

Lemma senders_same e w w' : hands_out e = false -> exec e w = Next w' -> w_senders w' = w_senders w.
Proof.
  intros He Hx. destruct e; try done; simpl in Hx; unfold with_handle, with_sender, with_receiver, with_send in Hx; event_inv Hx; simplify_eq; try done.
  unfold writer_turned. by repeat case_match.
Qed.

(** A new handle is of a stream that was opened, and had no name, or of one that was accepted. *)
Lemma exec_senders lim e w w' h : world_inv lim w -> exec e w = Next w' -> h ∈ w_senders w' ->
  (exists h0, h0 ∈ w_senders w /\ ss_stream_id h0 = ss_stream_id h) \/ ~ named (w_hist w) (ss_stream_id h) \/
  (e = Accept /\ exists s', accept_bi (w_conn w) = (Ok (Ready (ss_stream_id h, ss_state h)), s')).
Proof.
  intros Hw Hx Hin. assert (Hold : h ∈ w_senders w -> exists h0, h0 ∈ w_senders w /\ ss_stream_id h0 = ss_stream_id h) by eauto.
  destruct (hands_out e) eqn:Ee; [|left; apply Hold; by rewrite <- (senders_same e w w' Ee Hx)]. pose proof (world_names lim w Hw) as Hn.
  assert (Hopen : forall id l s, open_bi_admitted (w_conn w) = (Ok (Ready (id, l)), s) -> ~ named (w_hist w) id).
  { intros id l s Ho. apply (unissued_unnamed _ (w_conn w)); [done|]. eapply open_new; [apply Hn|done]. }
  destruct e as [| | | | | | | | | | | | |i b|i|i|i| | | | | | | | | |]; try done; cbn [exec exec_app exec_stream] in Hx; unfold with_handle, with_sender in Hx;
    try (destruct (w_senders w !! i) as [h0|] eqn:Ei; [|done]).
  - destruct (0 <? _); [|done]. apply perform_inv in Hx as (r & s & -> & Hr). destruct r as [[[id l]|]|]; [|by left; apply Hold..].
    apply bind_inv in Hr as (u & s1 & Hs1 & Hr). assert (s1 = w_conn w) as ->.
    { unfold ensure_open in Hs1. cbv [mbind M_bind gets bail_if] in Hs1. destruct (closed (w_conn w)); [done|by injection Hs1]. }
    simpl in Hin. apply elem_of_cons in Hin as [->|Hin]; [right; left; by eapply Hopen|by left; apply Hold].
  - destruct (w_opening w); [done|]. apply perform_inv in Hx as (r & s & -> & Hr). destruct r as [[[id l]|]|]; [|by left; apply Hold..].
    simpl in Hin. apply elem_of_cons in Hin as [->|Hin]; [right; left; by eapply Hopen|by left; apply Hold].
  - destruct (0 <? _); [|done]. apply perform_inv in Hx as (r & s & -> & Hr). destruct r as [[[id l]|]|]; [|by left; apply Hold..].
    simpl in Hin. apply elem_of_cons in Hin as [->|Hin]; [right; right; eauto|by left; apply Hold].
  - left. eapply (polled_sender lim w i h0); [done|done| |exact Hx|done]. intros hs Hd Hs. eapply wp_mono; [by apply (wp_poll_write lim (wv_valid _ _ Hw) (w_hist w) hs (w_receivers w))|by intros r s' (_ & _ & ?)|done].
  - left. eapply (polled_sender lim w i h0); [done|done| |exact Hx|done]. intros hs Hd Hs. eapply wp_mono; [by apply (wp_poll_flush lim (wv_valid _ _ Hw) (w_hist w) hs (w_receivers w))|by intros r s' ((_ & _ & ?) & _)|done].
  - left. eapply (polled_sender lim w i h0); [done|done| |exact Hx|done]. intros hs Hd Hs. eapply wp_mono; [by apply (wp_poll_shutdown lim (wv_valid _ _ Hw) (w_hist w) hs (w_receivers w))|by intros r s' (_ & _ & ?)|done].
  - left. apply Hold. apply perform_inv in Hx as (r & s & -> & _). simpl in Hin. eapply elem_of_sublist; [exact Hin|apply sublist_delete].
Qed.

(** ** Every execution *)

Lemma waiting_named lim w rc id l : history lim w rc -> (id, l) ∈ incoming_streams (w_conn w) -> g_names (w_hist w) !! l = Some id.
Proof.
  intros Hh Hx. pose proof (dv_slots _ _ _ _ (history_delivery _ _ _ Hh)) as Hs. rewrite Forall_forall in Hs.
  apply (Hs (waiting (id, l))). unfold slots, slots_of. apply elem_of_app. left. by apply (list_elem_of_fmap_2 waiting).
Qed.

(** No handle of the application is of a stream that waits. *)
Lemma waiting_no_reader lim w rc id l h : history lim w rc -> (id, l) ∈ incoming_streams (w_conn w) -> h ∈ w_receivers w -> rs_stream_id h <> id.
Proof.
  intros Hh Hx Hin Hid. pose proof (dv_nodup _ _ _ _ (history_delivery _ _ _ Hh)) as Hnd. unfold slots, slots_of in Hnd.
  rewrite map_app in Hnd. apply NoDup_app in Hnd as (_ & Hnd & _).
  assert (Hl : rs_state h = l).
  { eapply (nm_inj _ _ (world_names _ _ (runs_inv _ _ (history_runs _ _ _ Hh)))); [by eapply reader_named|rewrite Hid; by eapply waiting_named]. }
  apply (Hnd l).
  - apply list_elem_of_fmap. exists (waiting (id, l)). split; [done|by apply (list_elem_of_fmap_2 waiting)].
  - apply list_elem_of_fmap. exists (handled h). split; [done|by apply (list_elem_of_fmap_2 handled)].
Qed.

Lemma untouched_by id e w : (forall h, h ∈ w_senders w -> ss_stream_id h <> id) -> calls id w = [] ->
  (forall h, h ∈ w_receivers w -> rs_stream_id h <> id) -> touches id e w = false.
Proof.
  intros Hs Hc Hr.
  assert (Hf : forall j f, w_sends w !! j = Some f -> sf_stream_id f <> id).
  { intros j f Hj Hid. assert (Hin : f ∈ calls id w); [|by rewrite Hc in Hin; inv Hin]. apply list_elem_of_filter. split; [done|by eapply list_elem_of_lookup_2]. }
  destruct e; try done; simpl; destruct (_ !! _) eqn:E; try done; simpl; apply Z.eqb_neq;
    first [by eapply Hf|eapply Hs|eapply Hr]; by eapply list_elem_of_lookup_2.
Qed.

(** A stream without a name is not used. *)
Lemma unnamed_unused lim w rc id : history lim w rc -> ~ named (w_hist w) id ->
  accepted (w_hist w) id = [] /\ calls id w = [] /\ (forall h, h ∈ w_senders w -> ss_stream_id h <> id) /\ (forall h, h ∈ w_receivers w -> rs_stream_id h <> id).
Proof.
  intros Hh Hn. pose proof (runs_inv _ _ (history_runs _ _ _ Hh)) as Hw. pose proof Hw as [_ [[Hi _ _] _] Hf Hs _]. rewrite Forall_forall in Hf. rewrite Forall_forall in Hs. split_and!.
  - unfold accepted. destruct (g_accepted (w_hist w) !! id) eqn:E; [|done]. destruct Hn. by eapply (sv_accepted _ _ Hi).
  - unfold calls. destruct (filter _ (w_sends w)) as [|f fs] eqn:E; [done|]. assert (Hin : f ∈ filter (fun f => sf_stream_id f = id) (w_sends w)) by (rewrite E; left).
    apply list_elem_of_filter in Hin as [Hid Hin]. destruct Hn. exists (sf_state f). rewrite <- Hid. apply (Hf f Hin).
  - intros h Hin Hid. apply Hn. exists (ss_state h). rewrite <- Hid. apply (Hs h Hin).
  - intros h Hin Hid. apply Hn. exists (rs_state h). rewrite <- Hid. by eapply reader_named.
Qed.

Lemma unused_stays lim e w w' rc id l : history lim w rc -> exec e w = Next w' -> touches id e w = false ->
  accepted (w_hist w) id = [] -> got rc l = [] -> calls id w = [] -> (forall id', g_names (w_hist w) !! l = Some id' -> id' = id) ->
  g_names (w_hist w') !! l = Some id -> unused_stream id l w' (note e w w' rc).
Proof.
  intros Hh Hx Ht Ha Hg Hc Hl Hl'. destruct (foreign_event id e w w' Ht Hx) as [Ha' Hc'].
  split; [done|by rewrite Ha', Ha| |by rewrite Hc', Hc]. by rewrite (foreign_read lim id l e w w' rc).
Qed.

(** The stream that was accepted does not wait any more. *)
Lemma accepted_gone lim w w' rc id l k s' : history lim w rc -> accept_bi (w_conn w) = (Ok (Ready (id, k)), s') -> exec Accept w = Next w' ->
  (id, l) ∈ incoming_streams (w_conn w') -> False.
Proof.
  intros Hh Hacc Hx Hin. destruct (accept_run _ _ _ Hacc) as (rest & Hi & Hi' & _). cbn [exec exec_app] in Hx. unfold with_handle in Hx.
  destruct (0 <? _); [|done]. unfold perform in Hx. rewrite Hacc in Hx. injection Hx as <-. simpl in Hin. rewrite Hi' in Hin.
  assert (Hk : g_names (w_hist w) !! k = Some id) by (eapply waiting_named; [done|rewrite Hi; left]).
  assert (Hl : g_names (w_hist w) !! l = Some id) by (eapply waiting_named; [done|rewrite Hi; by right]).
  assert (k = l) as -> by (by eapply (nm_inj _ _ (world_names _ _ (runs_inv _ _ (history_runs _ _ _ Hh))))).
  pose proof (dv_nodup _ _ _ _ (history_delivery _ _ _ Hh)) as Hnd. unfold slots, slots_of in Hnd. rewrite Hi in Hnd. simpl in Hnd.
  apply NoDup_cons in Hnd as [Hnd _]. apply Hnd. rewrite map_app. apply elem_of_app. left. apply list_elem_of_fmap. exists (waiting (id, l)).
  split; [done|by apply (list_elem_of_fmap_2 waiting)].
Qed.

Lemma arrivals_event lim e w w' rc : history lim w rc -> arrivals w rc -> typed e = true -> exec e w = Next w' -> arrivals w' (note e w w' rc).
Proof.
  intros Hh IH Hty Hx id l Hin'. pose proof (runs_inv _ _ (history_runs _ _ _ Hh)) as Hw. pose proof (history_event _ _ _ _ _ Hh Hty Hx) as Hh'.
  pose proof (waiting_named _ _ _ _ _ Hh' Hin') as Hnew. pose proof (exec_names lim _ _ _ Hw Hty Hx) as Hsub. pose proof (world_names _ _ Hw) as Hn.
  destruct (exec_incoming lim e w w' (id, l) Hw Hx Hin') as [Hin|[Her Hl]].
  - destruct (IH id l Hin) as [[U1 U2 U3 U4] Hs]. pose proof (untouched_by id e w Hs U4 (fun h => waiting_no_reader _ _ _ _ _ h Hh Hin)) as Ht.
    split; [by eapply unused_stays; [..|intros id' ?; congruence|]|]. intros h Hh1.
    destruct (exec_senders lim e w w' h Hw Hx Hh1) as [(h0 & Hh0 & <-)|[Hun|(-> & s' & Hacc)]]; [by apply Hs|intros <-; apply Hun; by eexists|].
    intros <-. exact (accepted_gone _ _ _ _ _ _ _ _ Hh Hacc Hx Hin').
  - assert (Hun : ~ named (w_hist w) id).
    { intros [k Hk]. assert (k = l) as -> by (eapply (nm_inj _ _ (world_names _ _ (runs_inv _ _ (history_runs _ _ _ Hh')))); [by eapply lookup_weaken|done]).
      assert (Hlt : (l < next_loc (w_conn w))%nat) by (apply (nm_fresh _ _ Hn); by eexists). simpl in Hl. lia. }
    assert (Hnone : g_names (w_hist w) !! l = None).
    { destruct (g_names (w_hist w) !! l) as [id'|] eqn:E; [|done]. assert (Hlt : (l < next_loc (w_conn w))%nat) by (apply (nm_fresh _ _ Hn); by eexists). simpl in Hl. lia. }
    destruct (unnamed_unused _ _ _ _ Hh Hun) as (Ha & Hc & Hs & Hr). split.
    + eapply unused_stays; try done; [by apply untouched_by|by apply (dv_unread _ _ _ _ (history_delivery _ _ _ Hh))|intros id' ?; congruence].
    + intros h Hh1. rewrite (senders_same e w w') in Hh1 by (by destruct e). by apply Hs.
Qed.

Lemma history_arrivals lim w rc : history lim w rc -> arrivals w rc.
Proof.
  induction 1 as [is_client keepalive s Hu Hn|w e w' rc Hh IH Ht He]; [|by eapply arrivals_event].
  assert (Hi : incoming_streams s = []).
  { unfold connection_new in Hn. do 4 (apply bind_ok_iff in Hn as (? & _ & Hn)). by injection Hn as <-. }
  intros id l Hin. simpl in Hin. rewrite Hi in Hin. inv Hin.
Qed.

(** A stream that was just accepted is new to the application. *)
Lemma accept_unused lim w w' rc id l s' : history lim w rc -> accept_bi (w_conn w) = (Ok (Ready (id, l)), s') -> exec Accept w = Next w' ->
  unused_stream id l w' (note Accept w w' rc).
Proof.
  intros Hh Hacc Hx. destruct (accept_run _ _ _ Hacc) as (rest & Hi & _). destruct (history_arrivals _ _ _ Hh id l) as [[U1 U2 U3 U4] Hs]; [rewrite Hi; left|].
  eapply unused_stays; try done; [intros id' ?; congruence|].
  eapply lookup_weaken; [exact U1|]. by eapply (exec_names lim Accept); [eapply runs_inv, history_runs|..].
Qed.

End arrivals.
