(* ===== verification/Echo.v ===== *)
(** The echo server of [muxtls/examples/echo_server.rs] on one stream: what the client gets
    back is what it sent. *)

From S2P Require Import Prelude Hoare Buf Varint Utf8 Frames Errors Limits Flow Tokio.
From S2P Require Import ConnState Inbound InboundSpec Writer WriterSpec Scheduler Connection Streams Tasks.
From S2P Require Import ReceiveSpec ReadSpec ReceiveSystem ConnectionSpec Ledger SendSpec SendInv SendOps Halves.
From S2P Require Import SendPeer Duplex DuplexOps SendDuplex System SystemInv SystemSpec Fade Delivery DeliveryReader Receive Events.
From S2P Require Import Books BooksSpec Pair Arrivals.

#[local] Open Scope Z_scope.

Section echo.
Context {TK : Tokio} {HI : HashIter}.
Implicit Types (w : World) (n : End).

(** ** [run_echo] *)

(** The task waits for a chunk; is about to make a call of [write_chunk], or with [None] of
    [finish]; waits for that call; or has returned. *)
Inductive EchoTask := Reading | Calling (chunk : option bytes) | Waiting (chunk : option bytes) | Returned (ok : bool).

Definition after_read (r : Result Error (Poll (option bytes))) : EchoTask :=
  match r with
  | Ok (Ready chunk) => Calling chunk
  | Ok Pending => Reading
  | Err _ | Panic => Returned false
  end.
Definition after_send (chunk : option bytes) (r : Result Error SendPoll) : EchoTask :=
  match r with
  | Ok SDone => match chunk with Some _ => Reading | None => Returned true end
  | Ok (SPending _) => Waiting chunk
  | Err _ | Panic => Returned false
  end.

(** The task after the event [e], when [e] is what the task does next.  When it has
    returned, its handles are dropped. *)
Definition run_echo (id : Z) (t : EchoTask) (e : Event) w : option EchoTask :=
  if touches id e w then
    match t, e with
    | Reading, ReadChunk k => h ← w_receivers w !! k; Some (after_read (recv_read_chunk h (w_conn w)).1)
    | Calling (Some chunk), WriteChunk i b =>
        if bool_decide (b = chunk) then h ← w_senders w !! i; Some (after_send (Some chunk) (write_chunk h chunk (w_conn w)).1)
        else None
    | Calling None, Finish i => h ← w_senders w !! i; Some (after_send None (finish h (w_conn w)).1)
    | Waiting chunk, SendResume j => f ← w_sends w !! j; Some (after_send chunk (send_stream_chunk f (w_conn w)).1)
    | Returned _, (DropSender _ | DropReceiver _) => Some t
    | _, _ => None
    end
  else None.

(** ** The executions in which it runs *)

(** What an event of the pair does to the task on the stream [id] at [x]. *)
Definition echo_task (x : Side) (id : Z) (pe : PairEvent) (p : Pair) (t : EchoTask) : option EchoTask :=
  match x, pe with
  | Client, At Client e | Server, At Server e =>
      let w := e_world (end_at p x) in if touches id e w then run_echo id t e w else Some t
  | _, _ => Some t
  end.

(** Two ends, of which [x] runs the task on the stream [id], which [accept_bi] returned;
    nobody else uses its handles. *)
Inductive echoing (limc lims : Limits) (x : Side) (id : Z) (l : loc) : Pair -> EchoTask -> Prop :=
| echo_spawn p s' p' : joined limc lims p -> accept_bi (w_conn (e_world (end_at p x))) = (Ok (Ready (id, l)), s') ->
    exec_pair (At x Accept) p = Some p' -> echoing limc lims x id l p' Reading
| echo_event p t pe t' p' : echoing limc lims x id l p t -> echo_task x id pe p t = Some t' -> exec_pair pe p = Some p' ->
    echoing limc lims x id l p' t'.

Fixpoint exec_echo (x : Side) (id : Z) (es : list PairEvent) (p : Pair) (t : EchoTask) : option (Pair * EchoTask) :=
  match es with
  | [] => Some (p, t)
  | pe :: es => t' ← echo_task x id pe p t; p' ← exec_pair pe p; exec_echo x id es p' t'
  end.

Lemma echoing_all limc lims x id l es p t p' t' : echoing limc lims x id l p t -> exec_echo x id es p t = Some (p', t') ->
  echoing limc lims x id l p' t'.
Proof.
  revert p t. induction es as [|pe es IH]; intros p t He; simpl; [by intros [= <- <-]|].
  intros (t1 & Ht & H)%bind_Some. apply bind_Some in H as (p1 & Hp & H). eapply IH; [by eapply echo_event|done].
Qed.

Lemma echoing_joined limc lims x id l p t : echoing limc lims x id l p t -> joined limc lims p.
Proof. induction 1; by eapply joined_event. Qed.

(** ** The invariant *)

(** The chunk that was read and not written. *)
Definition pending (t : EchoTask) : bytes := match t with Calling c | Waiting c => default [] c | _ => [] end.
Definition at_end (t : EchoTask) : bool := match t with Calling None | Waiting None | Returned true => true | _ => false end.

(** The whole stream was read. *)
Definition read_all (id : Z) (l : loc) n : Prop := finished (e_receipt n) id = true /\ got (e_receipt n) l = data (e_receipt n) id.

Record echo_ok (id : Z) (l : loc) (t : EchoTask) n : Prop := {
  eo_name : g_names (w_hist (e_world n)) !! l = Some id;
  eo_bytes : accepted (w_hist (e_world n)) id ++ pending t `prefix_of` got (e_receipt n) l;
  eo_exact : t <> Returned false -> accepted (w_hist (e_world n)) id ++ pending t = got (e_receipt n) l;
  eo_calls : map sf_payload (calls id (e_world n)) = match t with Waiting c => [default [] c] | _ => [] end;
  eo_end : at_end t = true -> read_all id l n
}.

End echo.

Section proofs.
Context {TK : Tokio} {TKL : TokioLaws TK} {HI : HashIter} {HIL : HashIterLaws HI}.
Implicit Types (w : World) (n : End).

(** ** Turns of the task *)

Lemma calls_empty id (l : list SendFuture) : map sf_payload (filter (fun f => sf_stream_id f = id) l) = [] -> filter (fun f => sf_stream_id f = id) l = [].
Proof. by destruct (filter _ l). Qed.

(** A call of the task was polled. *)
Definition polled_at (id : Z) (t : EchoTask) (c : option bytes) w (e : Event) f m : Prop :=
  polls w e f m /\ sf_stream_id f = id /\
  match t with
  | Calling c' => c' = c /\ sf_payload f = default [] c /\ forall j, e <> SendResume j
  | Waiting c' => c' = c /\ exists j, e = SendResume j
  | _ => False
  end.

(** The one call that waits is the one that is polled. *)
Lemma only_call id l c n j f : echo_ok id l (Waiting c) n -> w_sends (e_world n) !! j = Some f -> sf_stream_id f = id ->
  sf_payload f = default [] c /\ filter (fun f => sf_stream_id f = id) (delete j (w_sends (e_world n))) = [].
Proof.
  intros Ho Hj Hid. pose proof (eo_calls _ _ _ _ Ho) as Hc. unfold calls in Hc.
  pose proof (filter_delete_perm (fun f => sf_stream_id f = id) _ _ _ Hj) as Hperm. apply (Permutation_map sf_payload) in Hperm.
  rewrite Hc, filter_cons_True in Hperm by done. simpl in Hperm. apply Permutation_singleton_l in Hperm. injection Hperm as Hf Hr.
  split; [done|]. by apply calls_empty.
Qed.

Lemma polled_payload id l t c n e f m : echo_ok id l t n -> polled_at id t c (e_world n) e f m ->
  sf_payload f = default [] c /\ pending t = default [] c /\ at_end t = at_end (Waiting c).
Proof.
  intros Ho (Hp & Hid & Ht). destruct t as [|c'|c'|]; try done.
  - destruct Ht as (-> & ? & _). by destruct c.
  - destruct Ht as (-> & j & ->). assert (Hj : w_sends (e_world n) !! j = Some f) by (by inversion Hp).
    destruct (only_call _ _ _ _ _ _ Ho Hj Hid). by destruct c.
Qed.

Lemma polled_calls id l t c n e f m w' : echo_ok id l t n -> polled_at id t c (e_world n) e f m -> exec e (e_world n) = Next w' ->
  calls id w' = option_list (ok (m (w_conn (e_world n))).1 ≫= left f).
Proof.
  intros Ho (Hp & Hid & Ht) Hx.
  assert (Hsame : filter (fun f => sf_stream_id f = id) (option_list (ok (m (w_conn (e_world n))).1 ≫= left f)) = option_list (ok (m (w_conn (e_world n))).1 ≫= left f)).
  { destruct (ok _ ≫= left f) as [f'|] eqn:E; [|done]. apply bind_Some in E as (p & _ & [Hi _]%left_stream). simpl. by rewrite filter_cons_True by congruence. }
  assert (Hs : exists others, w_sends w' = option_list (ok (m (w_conn (e_world n))).1 ≫= left f) ++ others /\ filter (fun f => sf_stream_id f = id) others = []).
  { inversion Hp as [i h b Hi|i h Hi|j f' Hj]; subst; simpl in Hx; unfold with_sender, with_send in Hx; rewrite ?Hi, ?Hj in Hx;
      apply perform_inv in Hx as (r & s & -> & Hr).
    3: exists (delete j (w_sends (e_world n))). 1,2: exists (w_sends (e_world n)).
    all: split; [by destruct r; [|destruct Hr as [? Hr]]; simpl; rewrite Hr|].
    1,2: destruct t; try done; [apply calls_empty; exact (eo_calls _ _ _ _ Ho)|by destruct Ht as (_ & j & ?)].
    destruct t as [|c'|c'|]; try done; [by destruct Ht as (_ & _ & Ht); destruct (Ht j)|]. by eapply only_call. }
  destruct Hs as (others & Hs & Hnil). unfold calls. by rewrite Hs, filter_app, Hnil, app_nil_r.
Qed.

Lemma echo_sends lim id l t c n e f m k n' : runs lim (e_world n) -> typed e = true -> echo_ok id l t n -> polled_at id t c (e_world n) e f m ->
  happens e k n = Some n' -> echo_ok id l (after_send c (m (w_conn (e_world n))).1) n'.
Proof.
  intros Hr Hty Ho Hp Hx. destruct (polled_payload _ _ _ _ _ _ _ _ Ho Hp) as (Hf & Hpe & Hat). pose proof Hp as (Hpoll & Hid & Ht).
  destruct (send_polled_exact lim _ _ _ _ Hr Hpoll) as (w' & rec & He & Hout & Hacc). specialize (Hacc id). rewrite decide_True in Hacc by done.
  unfold happens in Hx. rewrite He in Hx. injection Hx as <-. pose proof (polled_calls _ _ _ _ _ _ _ _ _ Ho Hp He) as Hc.
  assert (Hnote : note e (e_world n) w' (e_receipt n) = e_receipt n) by (apply note_none; by inversion Hpoll). rewrite Hnote.
  pose proof (exec_names lim _ _ _ (runs_inv _ _ Hr) Hty He) as Hnm. destruct Ho as [Hn Hb Hex _ Hend].
  assert (Hne : t <> Returned false) by (by intros ->). specialize (Hex Hne). rewrite Hpe in Hex.
  destruct (m (w_conn (e_world n))).1 as [[|stage]|er|]; simpl in Hout, Hc; try done.
  - rewrite Hout, Hf in Hacc. split; simpl; [by eapply lookup_weaken|..].
    + rewrite Hacc, Hex. by destruct c; rewrite app_nil_r.
    + intros _. rewrite Hacc, Hex. by destruct c; rewrite app_nil_r.
    + rewrite Hc. by destruct c.
    + intros He'. apply Hend. rewrite Hat. by destruct c.
  - destruct Hout as [-> _]. rewrite app_nil_r in Hacc. split; simpl; rewrite ?Hacc, ?Hc; simpl; [by eapply lookup_weaken|by rewrite Hex|done|by rewrite Hf|].
    intros He'. apply Hend. by rewrite Hat.
  - destruct Hout as [-> _]. rewrite app_nil_r in Hacc. split; simpl; rewrite ?Hacc, ?Hc; try done; [by eapply lookup_weaken|].
    rewrite app_nil_r, <- Hex. by eexists.
Qed.

Lemma echo_reads lim id l n k h j n' : history lim (e_world n) (e_receipt n) -> echo_ok id l Reading n -> w_receivers (e_world n) !! k = Some h ->
  rs_stream_id h = id -> happens (ReadChunk k) j n = Some n' -> echo_ok id l (after_read (recv_read_chunk h (w_conn (e_world n))).1) n'.
Proof.
  intros Hh Ho Hk Hid Hx. pose proof (history_runs _ _ _ Hh) as Hr. pose proof (list_elem_of_lookup_2 _ _ _ Hk) as Hin. pose proof Ho as [Hn Hb Hex Hc Hend].
  pose proof (reader_named _ _ _ _ Hh Hin) as Hnh. assert (rs_state h = l) as Hl.
  { eapply (nm_inj _ _ (world_names _ _ (runs_inv _ _ Hr))); [exact Hnh|by rewrite Hid]. }
  unfold happens in Hx. destruct (exec _ _) as [| |w'] eqn:He; try done. injection Hx as <-.
  specialize (Hex ltac:(done)). simpl in Hex. rewrite app_nil_r in Hex. simpl in He. unfold with_receiver in He. rewrite Hk in He.
  apply perform_inv in He as (r & s & -> & Hrun).
  assert (Hread : read_of (ReadChunk k) (e_world n) = match r with Some (Ready (Some b)) => Some (l, b) | _ => None end).
  { simpl. rewrite Hk, <- Hl. simpl. by destruct r as [[[]|]|]; [..|destruct Hrun as [er Hrun]]; rewrite Hrun. }
  destruct r as [[[b|]|]|]; [rewrite (note_read _ _ _ _ l b) by done|rewrite note_none by done..].
  - rewrite Hrun. split; simpl; by rewrite ?got_grown, ?Hex.
  - destruct (read_end_all _ _ _ _ _ Hh Hin Hrun) as [Hfin Hall]. rewrite Hid, Hl in *. rewrite Hrun.
    split; simpl; by rewrite ?app_nil_r, ?Hex.
  - rewrite Hrun. split; simpl; by rewrite ?app_nil_r, ?Hex.
  - destruct Hrun as [er ->]. split; simpl; by rewrite ?app_nil_r, ?Hex.
Qed.

(** ** Every execution *)

(** After the end of a stream nothing of it follows. *)
Lemma read_all_stays limf from id l n n' : runs limf (e_world from) -> linked from n' ->
  r_frames (e_receipt n) `prefix_of` r_frames (e_receipt n') -> got (e_receipt n') l = got (e_receipt n) l -> read_all id l n -> read_all id l n'.
Proof.
  intros Hr Hk Hp Hg [Hf Ha]. destruct (wire_integrity limf _ Hr) as (_ & Ho & _).
  assert (Hw : r_frames (e_receipt n') `prefix_of` w_wire (e_world from)) by (etransitivity; [apply Hk|apply prefix_take]).
  split; [destruct Hp as [k Hp]; unfold finished in *; by rewrite Hp, existsb_app, Hf|].
  rewrite Hg, Ha. unfold data. apply sent_data_fin; [done|by eapply ordered_prefix|done].
Qed.

(** The task stands still. *)
Lemma echo_still limf lim from id l t n n' e k : runs limf (e_world from) -> linked from n' -> history lim (e_world n) (e_receipt n) ->
  typed e = true -> happens e k n = Some n' ->
  (forall w', exec e (e_world n) = Next w' ->
    accepted (w_hist w') id = accepted (w_hist (e_world n)) id /\ calls id w' = calls id (e_world n)) ->
  got (e_receipt n') l = got (e_receipt n) l -> echo_ok id l t n -> echo_ok id l t n'.
Proof.
  intros Hrf Hk Hh Hty Hx Hsame Hg [Hn Hb Hex Hc Hend]. pose proof (runs_inv _ _ (history_runs _ _ _ Hh)) as Hw.
  unfold happens in Hx. destruct (exec e (e_world n)) as [| |w'] eqn:He; try done. injection Hx as <-.
  destruct (Hsame w' eq_refl) as [Ha Hcl]. pose proof (exec_names lim _ _ _ Hw Hty He) as Hnm. simpl in Hg.
  split; simpl; rewrite ?Ha, ?Hcl, ?Hg; try done; [by eapply lookup_weaken|]. intros Hat.
  eapply (read_all_stays limf from _ _ n); [done|exact Hk| |done|by apply Hend]. unfold note. simpl. by apply prefix_app_r.
Qed.

Lemma echo_foreign limf lim from id l t n n' e k : runs limf (e_world from) -> linked from n' -> history lim (e_world n) (e_receipt n) ->
  typed e = true -> happens e k n = Some n' -> touches id e (e_world n) = false -> echo_ok id l t n -> echo_ok id l t n'.
Proof.
  intros Hrf Hk Hh Hty Hx Ht Ho. eapply (echo_still limf lim from); try done; [by intros w'; apply foreign_event|].
  unfold happens in Hx. destruct (exec e (e_world n)) as [| |w'] eqn:He; try done. injection Hx as <-. eapply foreign_read; [done| |done]. intros id' Hid'. pose proof (eo_name _ _ _ _ Ho). congruence.
Qed.

(** The handles are dropped. *)
Lemma echo_drops limf lim from id l t n n' e k : runs limf (e_world from) -> linked from n' -> history lim (e_world n) (e_receipt n) ->
  match e with DropSender _ | DropReceiver _ => True | _ => False end -> happens e k n = Some n' -> echo_ok id l t n -> echo_ok id l t n'.
Proof.
  intros Hrf Hk Hh He Hx Ho. eapply (echo_still limf lim from _ _ _ n _ e); try done; [by destruct e| |].
  - intros w' Hw. destruct e; try done; simpl in Hw; unfold with_sender, with_receiver in Hw; case_match; try done; by apply perform_inv in Hw as (? & ? & -> & _).
  - unfold happens in Hx. destruct (exec e (e_world n)) as [| |w']; try done. injection Hx as <-. simpl. by rewrite note_none by (by destruct e).
Qed.

Lemma end_put x n p : end_at (put x n p) x = n.
Proof. by destruct x. Qed.

Lemma joined_side limc lims p x : joined limc lims p -> exists limf limt, runs limf (e_world (end_at p (other x))) /\
  history limt (e_world (end_at p x)) (e_receipt (end_at p x)) /\ linked (end_at p (other x)) (end_at p x).
Proof. intros [Hc Hs Hu Hd]%joined_ok. destruct x; simpl; eexists _, _; (split_and!; [by eapply history_runs|done..]). Qed.

(** What an event of the pair is at one end. *)
Lemma pair_event_at pe p p' x : exec_pair pe p = Some p' -> end_at p' x = end_at p x \/
  exists e k, happens e k (end_at p x) = Some (end_at p' x) /\ typed e = true /\ (pe = At x e \/ exists item, e = Reader item).
Proof.
  intros H. destruct pe as [y e|y]; simpl in H.
  - destruct (own e && typed e) eqn:E; [|done]. apply andb_true_iff in E as [_ Et]. apply bind_Some in H as (n' & Hn & [= <-]).
    destruct x, y; try (by left); right; exists e; eauto.
  - apply bind_Some in H as (f & _ & H). apply bind_Some in H as (n' & Hn & [= <-]). destruct x, y; try (by left); right; eauto 10.
Qed.

Lemma echo_task_at x id pe p t t' : echo_task x id pe p t = Some t' ->
  (t' = t /\ forall e, pe = At x e -> touches id e (e_world (end_at p x)) = false) \/
  exists e, pe = At x e /\ run_echo id t e (e_world (end_at p x)) = Some t'.
Proof.
  unfold echo_task. destruct x, pe as [[] e|]; try (intros [= <-]; left; split; [done|congruence]);
    (destruct (touches id e _) eqn:E; [intros; right; eauto|intros [= <-]; left; split; [done|congruence]]).
Qed.

(** A turn of the task. *)
Lemma echo_turn lim limf from id l t t' n e k n' : runs limf (e_world from) -> linked from n' -> history lim (e_world n) (e_receipt n) -> typed e = true ->
  echo_ok id l t n -> run_echo id t e (e_world n) = Some t' -> happens e k n = Some n' -> echo_ok id l t' n'.
Proof.
  intros Hr Hk Hh Hty Ho Hrun Hn. unfold run_echo in Hrun. destruct (touches id e _) eqn:Et; [|done]. pose proof (history_runs _ _ _ Hh) as Hrt.
  destruct t as [|[b|]|c|ok], e; try done; try (injection Hrun as <-; eapply (echo_drops limf lim _ id l _ _ _ _ _ Hr Hk Hh); [|exact Hn|exact Ho]; exact I);
    try (case_bool_decide; [|done]); apply bind_Some in Hrun as (h & Hi & [= <-]); simpl in Et; rewrite Hi in Et; simpl in Et; apply Z.eqb_eq in Et.
  + by eapply echo_reads.
  + subst. eapply echo_sends; try done. split_and!; [by constructor|done..].
  + eapply echo_sends; try done. split_and!; [by constructor|done..].
  + eapply echo_sends; try done. split_and!; [by constructor|done|done|by eexists].
Qed.

Lemma echoing_ok limc lims x id l p t : echoing limc lims x id l p t -> echo_ok id l t (end_at p x).
Proof.
  induction 1 as [p s' p' Hj Hacc Hx|p t pe t' p' Hec IH Ht Hx].
  { destruct (joined_side _ _ _ x Hj) as (_ & lt & _ & Hh & _). simpl in Hx. apply bind_Some in Hx as (n' & Hn & [= <-]).
    unfold happens in Hn. destruct (exec Accept _) as [| |w'] eqn:E; try done. injection Hn as <-.
    rewrite end_put.
    destruct (accept_unused _ _ _ _ _ _ _ Hh Hacc E) as [Un Ua Ug Uc]. by split; simpl; rewrite ?Ua, ?Ug, ?Uc. }
  pose proof (echoing_joined _ _ _ _ _ _ _ Hec) as Hj. destruct (joined_side _ _ _ x Hj) as (_ & lt & _ & Hh & _).
  destruct (joined_side _ _ _ x (joined_event _ _ _ _ _ Hj Hx)) as (lf & _ & Hr & _ & Hk).
  apply echo_task_at in Ht as [[-> Ht]|(e & -> & Hrun)].
  - destruct (pair_event_at _ _ _ x Hx) as [->|(e & k & He & Hty & Hpe)]; [done|].
    eapply (echo_foreign lf lt); try done. destruct Hpe as [->|[item ->]]; [by apply Ht|done].
  - simpl in Hx. destruct (own e && typed e) eqn:E; [|done]. apply andb_true_iff in E as [_ Hty]. apply bind_Some in Hx as (n' & Hn & [= <-]).
    rewrite end_put in *. by eapply echo_turn.
Qed.

(** C6: the echo server echoes.  A task runs [run_echo] on a stream that one end accepted,
    while everything else at both ends, and the transport, does what it likes.  What the
    task wrote is a first part of what it read, and that of what the other end sent; so
    what the other end reads of the stream is a first part of what it sent.  When the task
    has returned without an error it wrote all that the other end sent, and when the other
    end then reads to the end of the stream, it has got back exactly what it sent. *)
Theorem echo_exact limc lims x id l p t : echoing limc lims x id l p t ->
  let here := end_at p x in let there := end_at p (other x) in
  let sent := accepted (w_hist (e_world there)) id in
  accepted (w_hist (e_world here)) id `prefix_of` got (e_receipt here) l /\ got (e_receipt here) l `prefix_of` sent /\
  (t = Returned true -> accepted (w_hist (e_world here)) id = sent) /\
  forall h, h ∈ w_receivers (e_world there) -> rs_stream_id h = id ->
    got (e_receipt there) (rs_state h) `prefix_of` sent /\
    (t = Returned true -> forall s', recv_read_chunk h (w_conn (e_world there)) = (Ok (Ready None), s') -> got (e_receipt there) (rs_state h) = sent).
Proof.
  intros He. cbv zeta. pose proof (echoing_joined _ _ _ _ _ _ _ He) as Hj. destruct (echoing_ok _ _ _ _ _ _ _ He) as [Hn Hb Hex _ Hend].
  destruct (joined_side _ _ _ x Hj) as (lf & lt & Hr & Hh & Hk). destruct (received_sent _ _ _ id Hr Hk) as [Hp Hall].
  pose proof (dv_read _ _ _ _ (history_delivery _ _ _ Hh) _ _ Hn) as Hrd.
  assert (Hpre : accepted (w_hist (e_world (end_at p x))) id `prefix_of` got (e_receipt (end_at p x)) l) by (etransitivity; [|exact Hb]; by eexists).
  assert (Hdone : t = Returned true -> accepted (w_hist (e_world (end_at p x))) id = accepted (w_hist (e_world (end_at p (other x)))) id).
  { intros ->. destruct (Hend eq_refl) as [Hf Hg]. specialize (Hex ltac:(done)). simpl in Hex. rewrite app_nil_r in Hex. rewrite Hex, Hg. by apply Hall. }
  split_and!; [done|by etransitivity|done|]. intros h Hin Hid.
  destruct (joined_side _ _ _ (other x) Hj) as (lf' & lt' & Hr' & Hh' & Hk'). assert (other (other x) = x) as Hxx by (by destruct x). rewrite Hxx in *.
  destruct (linked_streams _ _ _ _ Hr' Hh' Hk') as [_ Hst]. destruct (Hst h Hin) as (st & _ & Hseen & _ & _ & Hread). rewrite Hid in *. split.
  - etransitivity; [|etransitivity; [exact Hpre|by etransitivity]]. etransitivity; [|exact Hseen]. by eexists.
  - intros Hret s' Hs'. by rewrite (Hread s' Hs'), Hdone.
Qed.

End proofs.

(** ** A run *)

#[local] Existing Instance counting.
#[local] Existing Instance counting_laws.
#[local] Existing Instance hash_list.
#[local] Existing Instance hash_list_laws.

(** The client writes three bytes and finishes; the server accepts the stream, the task
    echoes it, and the client reads what comes back. *)
Definition echo_sent : list PairEvent :=
  flush Client ++ flush Server ++ [At Client Open; At Client (WriteChunk 0 [x61; x62; x63]); At Client (Finish 0)] ++
  flush Client ++ flush Client ++ flush Client.
Definition echo_back : list PairEvent :=
  [At Server (ReadChunk 0); At Server (WriteChunk 0 [x61; x62; x63]); At Server (ReadChunk 0); At Server (Finish 0)] ++
  flush Server ++ flush Server ++ [At Client (ReadChunk 0)].
Definition echo_arrived : Pair := pair_after echo_sent demo_start.
Definition echo_start : Pair := pair_after [At Server Accept] echo_arrived.
Definition echo_end : Pair := (default (echo_start, Reading) (exec_echo Server 0 echo_back echo_start Reading)).1.

Lemma echo_end_echoing : echoing demo_limits demo_limits Server 0 0%nat echo_end (Returned true).
Proof.
  apply (echoing_all _ _ _ _ _ echo_back echo_start Reading); [|vm_compute; reflexivity].
  eapply (echo_spawn _ _ _ _ _ echo_arrived); [apply joined_after; [apply demo_start_joined|]|..]; vm_compute; reflexivity.
Qed.

(** The client got back what it sent, and reads the end. *)
Example echo_read : got (e_receipt (client echo_end)) 0%nat = [x61; x62; x63] /\ first_end (client echo_end) = Some true.
Proof. vm_compute. split; reflexivity. Qed.

Lemma echo_exact_witness : accepted (w_hist (e_world (end_at echo_end Server))) 0 = accepted (w_hist (e_world (end_at echo_end (other Server)))) 0.
Proof.
  destruct (echo_exact demo_limits demo_limits Server 0 0%nat echo_end (Returned true) echo_end_echoing) as (_ & _ & H & _). exact (H eq_refl).
Defined.
