(* ===== verification/Endpoint.v ===== *)
(** [muxtls/src/endpoint.rs]: establishing connections.  The network, the TLS handshake
    and the clock are the class [Net]; its functions are what the calls of one attempt
    return. *)

From S2P Require Import Prelude Errors Config Limits Tokio ConnState.

#[local] Open Scope string_scope.
#[local] Open Scope list_scope.
#[local] Open Scope Z_scope.

Class Net (RU : Rustls) := {
  SocketAddr : Type;
  TcpListener : Type;
  TcpStream : Type;
  TlsStream : Type;
  (** [TcpListener::bind], [local_addr], [accept] and [TcpStream::connect], [set_nodelay] *)
  listener_bind : SocketAddr -> Result string TcpListener;
  listener_local_addr : TcpListener -> Result string SocketAddr;
  listener_accept : TcpListener -> Result string (TcpStream * SocketAddr);
  tcp_connect : SocketAddr -> Result string TcpStream;
  set_nodelay : TcpStream -> bool -> Result string unit;
  (** the handshakes of [TlsConnector] and [TlsAcceptor] *)
  tls_connect : RustlsClientConfig -> ServerName -> TcpStream -> Result string TlsStream;
  tls_accept : RustlsServerConfig -> TcpStream -> Result string TlsStream;
  (** what a completed handshake reports *)
  alpn_protocol : TlsStream -> option bytes;
  peer_certificates : TlsStream -> option (list CertificateDer);
  (** whether [tokio::time::timeout] elapses *)
  elapsed : Z -> bool;
  (** [Instant::now], at the n-th reading, and [Instant::checked_add] *)
  instant_now : nat -> Z;
  instant_checked_add : Z -> Z -> option Z
}.

Section endpoint.
Context {TK : Tokio} {RU : Rustls} {NT : Net RU}.

(** ** Connections *)

(** [struct PeerIdentity] *)
Record PeerIdentity := mkPeerIdentity { certificates : list CertificateDer }.

(** What [spawn_connection_tasks] gives the tasks: the transport, the frame limit of its
    codec and the timers. *)
Record ConnectionTasks := mkConnectionTasks {
  transport : TlsStream;
  codec_max_frame_length : Z;
  task_keepalive_interval : option Z;
  task_idle_timeout : option Z
}.

(** [struct Connection] with its tasks.  The identity of the peer is a field of the shared
    state that is never written. *)
Record Connection := mkConnection {
  shared : ConnectionShared;
  peer_identity : option PeerIdentity;
  tasks : ConnectionTasks
}.

Definition spawn_connection_tasks (stream : TlsStream) (max_frame_size : Z)
    (keepalive_interval idle_timeout : option Z) : ConnectionTasks :=
  mkConnectionTasks stream max_frame_size keepalive_interval idle_timeout.

(** [Connection::new] *)
Definition connection_start (stream : TlsStream) (limits : Limits) (is_client : bool)
    (peer_certs : option (list CertificateDer)) (keepalive_interval idle_timeout : option Z) :
    Result Error Connection :=
  s ← connection_new limits is_client;
  Ok (mkConnection s (mkPeerIdentity <$> peer_certs)
        (spawn_connection_tasks stream (max_frame_size limits) keepalive_interval idle_timeout)).

(** ** Endpoints *)

(** [enum EndpointInner] *)
Inductive EndpointInner :=
| Client (config : ClientConfig)
| Server (listener : TcpListener) (config : ServerConfig).

(** [struct Endpoint]; durations in nanoseconds. *)
Record Endpoint := mkEndpoint {
  ep_inner : EndpointInner;
  ep_limits : Limits;
  handshake_timeout : Z;
  keepalive_interval : option Z;
  idle_timeout : option Z
}.

#[global] Instance eta_Endpoint : Settable Endpoint := fun x =>
  mkEndpoint (ep_inner x) (ep_limits x) (handshake_timeout x) (keepalive_interval x) (idle_timeout x).

Definition DEFAULT_HANDSHAKE_TIMEOUT : Z := from_secs 10.

(** [Endpoint::client] and [Endpoint::server] *)
Definition client (config : ClientConfig) : Endpoint :=
  mkEndpoint (Client config) Limits.default DEFAULT_HANDSHAKE_TIMEOUT None None.
Definition server (addr : SocketAddr) (config : ServerConfig) : Result Error Endpoint :=
  listener ← map_err Io (listener_bind addr);
  Ok (mkEndpoint (Server listener config) Limits.default DEFAULT_HANDSHAKE_TIMEOUT None None).

Definition with_limits (l : Limits) (self : Endpoint) : Endpoint := self <| ep_limits := l |>.
Definition with_handshake_timeout (timeout : Z) (self : Endpoint) : Endpoint :=
  self <| handshake_timeout := timeout |>.
Definition with_keepalive_interval (interval : Z) (self : Endpoint) : Endpoint :=
  self <| keepalive_interval := Some interval |>.
Definition with_idle_timeout (timeout : Z) (self : Endpoint) : Endpoint :=
  self <| idle_timeout := Some timeout |>.

Definition local_addr (self : Endpoint) : Result Error SocketAddr :=
  match ep_inner self with
  | Server listener _ => map_err Io (listener_local_addr listener)
  | Client _ => Err (EndpointRole "local_addr is only available on server endpoints")
  end.

(** The loop over the named durations; entry [k] reads the clock for the k-th time. *)
Fixpoint check_durations (k : nat) (l : list (string * option Z)) : Result Error unit :=
  match l with
  | [] => Ok tt
  | (name, value) :: l =>
      match value with
      | Some v =>
          if (v =? 0) || negb (bool_decide (is_Some (instant_checked_add (instant_now k) v)))
          then Err (Config (name +:+ " must be positive and representable by the monotonic clock"))
          else check_durations (S k) l
      | None => check_durations (S k) l
      end
  end.

Definition validate_connection_policy (self : Endpoint) : Result Error unit :=
  check_durations 0 [("handshake timeout", Some (handshake_timeout self));
                     ("keepalive interval", keepalive_interval self);
                     ("idle timeout", idle_timeout self)].

Definition alpn_error : Error := TlsHandshake "peer did not negotiate the required muxtls/1 ALPN".

(** [tls.get_ref().1.alpn_protocol() != Some(ALPN_PROTOCOL)] *)
Definition check_alpn (tls : TlsStream) : Result Error unit :=
  if bool_decide (alpn_protocol tls = Some ALPN_PROTOCOL) then Ok tt else Err alpn_error.

(** [tokio::time::timeout(duration, future).await.map_err(|_| error)?] *)
Definition timeout {A} (duration : Z) (error : Error) (future : Result Error A) : Result Error A :=
  if elapsed duration then Err error else future.

(** The future of [Connecting]: what polling it to the end returns. *)
Record Connecting := mkConnecting { connecting : Result Error Connection }.

(** [Endpoint::connect] *)
Definition connect (self : Endpoint) (addr : SocketAddr) (name : string) : Result Error Connecting :=
  match ep_inner self with
  | Server _ _ => Err (EndpointRole "connect is only available on client endpoints")
  | Client config =>
      let l := ep_limits self in
      _ ← Limits.validate MAX_PERMITS l;
      _ ← validate_connection_policy self;
      Ok (mkConnecting (
        tls ← timeout (handshake_timeout self) (Timeout "connection establishment") (
          tcp ← map_err Io (tcp_connect addr);
          _ ← map_err Io (set_nodelay tcp true);
          name ← server_name name;
          map_err TlsHandshake (tls_connect (client_inner config) name tcp));
        _ ← check_alpn tls;
        connection_start tls l true (peer_certificates tls) (keepalive_interval self)
          (idle_timeout self)))
  end.

(** [Endpoint::accept] *)
Definition accept (self : Endpoint) : Result Error Connection :=
  match ep_inner self with
  | Client _ => Err (EndpointRole "accept is only available on server endpoints")
  | Server listener config =>
      _ ← Limits.validate MAX_PERMITS (ep_limits self);
      _ ← validate_connection_policy self;
      tcp ← map_err Io (listener_accept listener);
      let '(tcp, peer) := tcp in
      _ ← map_err Io (set_nodelay tcp true);
      tls ← timeout (handshake_timeout self) (Timeout "TLS handshake")
        (map_err TlsHandshake (tls_accept (server_inner config) tcp));
      _ ← check_alpn tls;
      connection_start tls (ep_limits self) false (peer_certificates tls)
        (keepalive_interval self) (idle_timeout self)
  end.

End endpoint.
