(* ===== verification/EndpointSpec.v ===== *)
(** What an endpoint establishes: exactly the checked connections, each of them the start
    of an execution of [System]. *)

From S2P Require Import Prelude Varint Errors Config Limits Tokio ConnState Receive Writer Tasks Streams.
From S2P Require Import SendInv System Endpoint.

#[local] Open Scope string_scope.
#[local] Open Scope list_scope.
#[local] Open Scope Z_scope.

Section spec.
Context {TK : Tokio} {HI : HashIter} {RU : Rustls} {NT : Net RU}.

(** A duration the monotonic clock can add, at the k-th reading. *)
Definition usable (k : nat) (d : option Z) : Prop :=
  match d with None => True | Some v => v <> 0 /\ is_Some (instant_checked_add (instant_now k) v) end.

(** The policy of an endpoint that may connect or accept. *)
Record policy_ok (self : Endpoint) : Prop := {
  po_limits : Limits.validate MAX_PERMITS (ep_limits self) = Ok tt;
  po_handshake : usable 0 (Some (handshake_timeout self));
  po_keepalive : usable 1 (keepalive_interval self);
  po_idle : usable 2 (idle_timeout self)
}.

Lemma check_durations_ok k l : check_durations k l = Ok tt <->
  forall i name d, l !! i = Some (name, d) -> usable (k + i) d.
Proof.
  revert k. induction l as [|[name d] l IH]; intros k; simpl; [split; [by intros _ i n d Hi|done]|].
  assert (Hrest : (forall i n d', l !! i = Some (n, d') -> usable (S k + i) d') /\ usable k d <->
    forall i n d', ((name, d) :: l) !! i = Some (n, d') -> usable (k + i) d').
  { split.
    - intros [Hl Hd] [|i] n d' Hi; simpl in Hi; [simplify_eq; by rewrite Nat.add_0_r|]. rewrite Nat.add_succ_r. by eapply Hl.
    - intros H. split; [intros i n d' Hi; specialize (H (S i) n d' Hi); by rewrite Nat.add_succ_r in H|].
      specialize (H 0%nat name d eq_refl). by rewrite Nat.add_0_r in H. }
  rewrite <- Hrest. destruct d as [v|]; simpl; [|by rewrite IH; naive_solver].
  destruct (Z.eqb_spec v 0) as [->|Hv]; simpl; [naive_solver|].
  case_bool_decide as Hs; simpl; [rewrite IH; naive_solver|naive_solver].
Qed.

Lemma policy_iff self : policy_ok self <->
  Limits.validate MAX_PERMITS (ep_limits self) = Ok tt /\ validate_connection_policy self = Ok tt.
Proof.
  unfold validate_connection_policy. rewrite check_durations_ok. split.
  - intros []. split; [done|]. intros [|[|[|i]]] name d Hi; simplify_eq/=; done.
  - intros [Hl Hp]. split; [done|..]; [by eapply (Hp 0%nat)|by eapply (Hp 1%nat)|by eapply (Hp 2%nat)].
Qed.

(** A connection over a completed handshake. *)
Record established (self : Endpoint) (is_client : bool) (tls : TlsStream) (c : Connection) : Prop := {
  es_alpn : alpn_protocol tls = Some ALPN_PROTOCOL;
  es_shared : connection_new (ep_limits self) is_client = Ok (shared c);
  es_identity : peer_identity c = mkPeerIdentity <$> peer_certificates tls;
  es_tasks : tasks c = mkConnectionTasks tls (max_frame_size (ep_limits self)) (keepalive_interval self) (idle_timeout self)
}.

Lemma start_iff self is_client tls c :
  (_ ← check_alpn tls; connection_start tls (ep_limits self) is_client (peer_certificates tls)
     (keepalive_interval self) (idle_timeout self)) = Ok c <-> established self is_client tls c.
Proof.
  rewrite bind_ok_iff. unfold check_alpn, connection_start, spawn_connection_tasks. split.
  - intros ([] & Ha & Hs). case_bool_decide as Hal; [|done]. apply bind_ok_iff in Hs as (s & Hn & [= <-]). by split.
  - intros [Ha Hs Hi Ht]. exists tt. rewrite bool_decide_true by done. split; [done|]. rewrite Hs. simpl.
    destruct c; simpl in *. by subst.
Qed.

Lemma timeout_ok {A} d e (r : Result Error A) a : timeout d e r = Ok a <-> elapsed d = false /\ r = Ok a.
Proof. unfold timeout. destruct (elapsed d); naive_solver. Qed.

(** How a client and a server come to a TLS stream. *)
Definition dialled (self : Endpoint) (addr : SocketAddr) (name : string) (tls : TlsStream) : Prop :=
  exists config tcp n, ep_inner self = Client config /\ elapsed (handshake_timeout self) = false /\
    tcp_connect addr = Ok tcp /\ set_nodelay tcp true = Ok tt /\ server_name name = Ok n /\
    tls_connect (client_inner config) n tcp = Ok tls.
Definition answered (self : Endpoint) (tls : TlsStream) : Prop :=
  exists listener config tcp peer, ep_inner self = Server listener config /\ elapsed (handshake_timeout self) = false /\
    listener_accept listener = Ok (tcp, peer) /\ set_nodelay tcp true = Ok tt /\
    tls_accept (server_inner config) tcp = Ok tls.

Lemma connect_iff self addr name c :
  (exists k, connect self addr name = Ok k /\ connecting k = Ok c) <->
  policy_ok self /\ exists tls, dialled self addr name tls /\ established self true tls c.
Proof.
  rewrite policy_iff. unfold connect, dialled. destruct (ep_inner self) as [config|]; [|naive_solver]. split.
  - intros (k & Hk & Hc). apply bind_ok_iff in Hk as ([] & Hl & Hk). apply bind_ok_iff in Hk as ([] & Hp & [= <-]).
    simpl in Hc. apply bind_ok_iff in Hc as (tls & Ht & Hc). apply timeout_ok in Ht as [He Ht].
    apply bind_ok_iff in Ht as (tcp & Htcp%map_err_ok & Ht). apply bind_ok_iff in Ht as ([] & Hnd%map_err_ok & Ht).
    apply bind_ok_iff in Ht as (n & Hn & Ht%map_err_ok). split; [done|]. exists tls. split; [by exists config, tcp, n|].
    by apply start_iff.
  - intros ([Hl Hp] & tls & (config' & tcp & n & [= <-] & He & Htcp & Hnd & Hn & Ht) & Hc). rewrite Hl, Hp. eexists. split; [reflexivity|].
    simpl. unfold timeout. rewrite He, Htcp. simpl. rewrite Hnd. simpl. rewrite Hn. simpl. rewrite Ht. simpl. by apply start_iff.
Qed.

Lemma accept_iff self c :
  accept self = Ok c <-> policy_ok self /\ exists tls, answered self tls /\ established self false tls c.
Proof.
  rewrite policy_iff. unfold accept, answered. destruct (ep_inner self) as [|listener config]; [naive_solver|]. split.
  - intros Hk. apply bind_ok_iff in Hk as ([] & Hl & Hk). apply bind_ok_iff in Hk as ([] & Hp & Hk).
    apply bind_ok_iff in Hk as ([tcp peer] & Htcp%map_err_ok & Hk). apply bind_ok_iff in Hk as ([] & Hnd%map_err_ok & Hk).
    apply bind_ok_iff in Hk as (tls & Ht & Hc). apply timeout_ok in Ht as [He Ht%map_err_ok].
    split; [done|]. exists tls. split; [by exists listener, config, tcp, peer|]. by apply start_iff.
  - intros ([Hl Hp] & tls & (l' & config' & tcp & peer & [= <- <-] & He & Htcp & Hnd & Ht) & Hc). rewrite Hl, Hp, Htcp. simpl.
    rewrite Hnd. simpl. unfold timeout. rewrite He, Ht. simpl. by apply start_iff.
Qed.

(** The limits an endpoint accepted make a connection: none of the conversions fails. *)
Lemma connection_new_ok l is_client : Limits.unsigned l -> Limits.validate MAX_PERMITS l = Ok tt ->
  exists s, connection_new l is_client = Ok s.
Proof.
  intros Hu Hv. destruct (Limits.validate_valid _ _ Hu Hv). destruct Hu as (? & ? & ? & ? & ? & ? & ? & ? & ?).
  assert (Hc : forall n, 0 <= n <= u32_max -> (expect (ok (VarInt.from_u64 (as_u64 n))) : Result Error VarInt) = Ok (mkVarInt n)).
  { intros n Hn. unfold u32_max in Hn. unfold as_u64. rewrite Z.mod_small by lia.
    rewrite VarInt.from_u64_ok by (rewrite VarInt.MAX_eq; lia). done. }
  unfold connection_new. rewrite Hv. cbn [mbind Result_bind]. rewrite !Hc by lia. cbn [mbind Result_bind]. by eexists.
Qed.

Lemma established_some self is_client tls : Limits.unsigned (ep_limits self) -> policy_ok self ->
  alpn_protocol tls = Some ALPN_PROTOCOL -> exists c, established self is_client tls c.
Proof.
  intros Hu [Hl _ _ _] Ha. destruct (connection_new_ok _ is_client Hu Hl) as [s Hs].
  by exists (mkConnection s (mkPeerIdentity <$> peer_certificates tls)
    (mkConnectionTasks tls (max_frame_size (ep_limits self)) (keepalive_interval self) (idle_timeout self))).
Qed.

(** C17: an endpoint hands out a connection exactly when its role fits, its limits are
    valid, its timeouts are positive and representable by the clock, and the transport
    and the TLS handshake completed in time with the protocol [muxtls/1] agreed; once
    they have, nothing makes it fail.  The connection carries the endpoint's limits and
    timers and the certificates of the peer, and it starts an execution of [System]. *)
Theorem endpoint_exact self addr name : Limits.unsigned (ep_limits self) ->
  (forall c, (exists k, connect self addr name = Ok k /\ connecting k = Ok c) <->
     policy_ok self /\ exists tls, dialled self addr name tls /\ established self true tls c) /\
  (forall c, accept self = Ok c <->
     policy_ok self /\ exists tls, answered self tls /\ established self false tls c) /\
  (forall is_client tls, policy_ok self -> alpn_protocol tls = Some ALPN_PROTOCOL ->
     exists c, established self is_client tls c) /\
  (forall is_client tls c, established self is_client tls c ->
     runs (ep_limits self) (world_new (bool_decide (is_Some (keepalive_interval self))) (shared c))).
Proof.
  intros Hu. split_and!; [intros c; apply connect_iff|intros c; apply accept_iff|intros; by apply established_some|].
  intros is_client tls c []. by eapply runs_new.
Qed.

End spec.

(** ** A concrete network *)

#[local] Existing Instance counting.
#[local] Existing Instance hash_list.

(** A transport is the offered protocols of its peer; the clock stands still. *)
#[global] Instance toy_net : Net toy_rustls := {|
  SocketAddr := nat;
  TcpListener := nat;
  TcpStream := nat;
  TlsStream := option bytes;
  listener_bind a := Ok a;
  listener_local_addr a := Ok a;
  listener_accept a := Ok (a, 9%nat);
  tcp_connect a := if decide (a = 0%nat) then Err "refused" else Ok a;
  set_nodelay _ _ := Ok tt;
  tls_connect _ _ a := Ok (if decide (a = 443%nat) then Some ALPN_PROTOCOL else None);
  tls_accept _ a := Ok (if decide (a = 443%nat) then Some ALPN_PROTOCOL else None);
  alpn_protocol tls := tls;
  peer_certificates _ := Some [5%nat];
  elapsed d := d <? 1000;
  instant_now _ := 0;
  instant_checked_add a b := if a + b <=? u64_max then Some (a + b) else None
|}.

Definition toy_client : Endpoint (NT := toy_net) :=
  client (get_ok (with_custom_roots (RU := toy_rustls) [1%nat]) eq_refl).

Lemma endpoint_exact_witness : exists k c,
  connect toy_client 443%nat "localhost" = Ok k /\ connecting k = Ok c /\
  runs Limits.default (world_new false (shared c)).
Proof.
  assert (Hu : Limits.unsigned (ep_limits toy_client)) by (unfold Limits.unsigned; simpl; unfold from_secs; lia).
  destruct (endpoint_exact toy_client 443%nat "localhost" Hu) as (Hc & _ & He & Hr).
  assert (Hp : policy_ok toy_client) by (split; [by vm_compute|split; [done|by eexists]|done..]).
  destruct (He true (Some ALPN_PROTOCOL) Hp eq_refl) as [c Hest].
  destruct (proj2 (Hc c)) as (k & Hk & Hkc).
  { split; [done|]. exists (Some ALPN_PROTOCOL). split; [|done].
    by exists (get_ok (with_custom_roots (RU := toy_rustls) [1%nat]) eq_refl), 443%nat, "localhost". }
  exists k, c. split; [done|]. split; [done|]. exact (Hr _ _ _ Hest).
Defined.

Example connect_wrong_alpn :
  connecting <$> ok (connect toy_client 80%nat "localhost") = Some (Err alpn_error).
Proof. reflexivity. Qed.

Example accept_on_client :
  accept toy_client = Err (EndpointRole "accept is only available on server endpoints").
Proof. reflexivity. Qed.

Example connect_zero_timeout :
  connect (with_idle_timeout 0 toy_client) 443%nat "localhost"
  = Err (Config "idle timeout must be positive and representable by the monotonic clock").
Proof. reflexivity. Qed.
