(* ===== verification/Conformance.v ===== *)
(** The conformance vectors of version one, [muxtls-proto/tests/conformance_vectors.rs] with
    [test-vectors/v1.json]: the codec of [Varint] and [Frames] agrees with every one. *)

From S2P Require Import Prelude Buf Varint Utf8 Frames Errors ConnState Connection Fuzz.

#[local] Open Scope Z_scope.

(** ** The file of vectors *)

Inductive ExpectedFrame :=
| EStream (stream_id : Z) (fin : bool) (payload : string)
| EResetStream (stream_id error_code : Z)
| EOpenStream (stream_id : Z)
| ESettings (max_data max_stream_data max_frame_size : Z)
| EMaxData (maximum : Z)
| EMaxStreamData (stream_id maximum : Z)
| EStopSending (stream_id : Z)
| EPing
| EConnectionClose (error_code : Z) (reason : string).

Record VarIntVector := mkVarIntVector { vv_name : string; vv_value : Z; vv_encoded : string }.
Record FrameVector := mkFrameVector { fv_name : string; fv_encoded : string; fv_length_prefixed : string; fv_frame : ExpectedFrame }.
Record InvalidVector := mkInvalidVector { iv_name : string; iv_encoded : string; iv_error : string }.
Record Vectors := mkVectors {
  schema_version : Z;
  protocol : string;
  varints : list VarIntVector;
  frames : list FrameVector;
  invalid_varints : list InvalidVector;
  invalid_frames : list InvalidVector
}.

(** ** The test *)

Definition hex_digit (b : Byte.byte) : option Z :=
  let c := b2z b in
  if (48 <=? c) && (c <=? 57) then Some (c - 48)
  else if (97 <=? c) && (c <=? 102) then Some (c - 87)
  else if (65 <=? c) && (c <=? 70) then Some (c - 55)
  else None.

(** [u8::from_str_radix(pair, 16)], which takes a leading plus. *)
Definition from_hex (a b : Byte.byte) : option Z :=
  if b2z a =? 43 then hex_digit b
  else x ← hex_digit a; y ← hex_digit b; Some (16 * x + y).

Fixpoint hex_pairs (s : bytes) : Result Error bytes :=
  match s with
  | a :: b :: s => x ← expect (from_hex a b); rest ← hex_pairs s; Ok (z2b x :: rest)
  | _ => Ok []
  end.
Definition decode_hex (encoded : string) : Result Error bytes :=
  _ ← assert_true (Nat.even (String.length encoded));
  hex_pairs (utf8 encoded).

Definition expected_frame (frame : ExpectedFrame) : Result Error Frame :=
  match frame with
  | EStream stream_id fin payload => id ← varint stream_id; p ← decode_hex payload; Ok (Stream id fin p)
  | EResetStream stream_id error_code =>
      id ← varint stream_id; c ← expect_ok (ErrorCode.from_u64 error_code); Ok (ResetStream id c)
  | EOpenStream stream_id => id ← varint stream_id; Ok (OpenStream id)
  | ESettings max_data max_stream_data max_frame_size =>
      a ← varint max_data; b ← varint max_stream_data; c ← varint max_frame_size; Ok (Settings a b c)
  | EMaxData maximum => m ← varint maximum; Ok (MaxData m)
  | EMaxStreamData stream_id maximum => id ← varint stream_id; m ← varint maximum; Ok (MaxStreamData id m)
  | EStopSending stream_id => id ← varint stream_id; Ok (StopSending id)
  | EPing => Ok Ping
  | EConnectionClose error_code reason =>
      c ← expect_ok (ErrorCode.from_u64 error_code); Ok (ConnectionClose c (utf8 reason))
  end.

Definition varint_error_name (error : VarIntError) : string :=
  match error with VarIntUnexpectedEof => "unexpected_eof" | ValueTooLarge _ => "value_too_large" end.
Definition frame_error_name (error : ProtoError) : string :=
  match error with
  | ProtoVarInt VarIntUnexpectedEof => "varint_unexpected_eof"
  | ProtoVarInt (ValueTooLarge _) => "varint_value_too_large"
  | UnexpectedEof => "unexpected_eof"
  | UnknownFrameType _ => "unknown_frame_type"
  | UnsupportedFlags _ _ => "unsupported_flags"
  | InvalidUtf8 => "invalid_utf8"
  | TrailingBytes _ => "trailing_bytes"
  | LengthOverflow _ => "length_overflow"
  end.

Definition check_varint (v : VarIntVector) : Result Error unit :=
  expected ← decode_hex (vv_encoded v);
  value ← varint (vv_value v);
  _ ← assert_true (bool_decide (VarInt.encode value ([] : bytes) = expected));
  let '(r, input) := VarInt.decode expected in
  decoded ← expect_ok r;
  _ ← assert_true (bool_decide (decoded = value));
  assert_true (negb (has_remaining input)).

(** [u32::from_be_bytes] *)
Definition from_be_bytes (l : bytes) : Z := foldl (fun z b => 256 * z + b2z b) 0 l.

Definition check_frame (v : FrameVector) : Result Error unit :=
  expected ← expected_frame (fv_frame v);
  encoded ← decode_hex (fv_encoded v);
  let '(r, output) := Frame.encode expected ([] : bytes) in
  _ ← expect_ok r;
  _ ← assert_true (bool_decide (output = encoded));
  n ← expect_ok (Frame.encoded_len expected);
  _ ← assert_true (n =? zlen encoded);
  decoded ← expect_ok (Frame.decode encoded).1;
  _ ← assert_true (bool_decide (decoded = expected));
  length_prefixed ← decode_hex (fv_length_prefixed v);
  _ ← assert_true (4 <=? zlen length_prefixed);
  let declared := from_be_bytes (take 4 length_prefixed) in
  _ ← assert_true (declared =? zlen encoded);
  assert_true (bool_decide (drop 4 length_prefixed = encoded)).

Definition check_invalid {A E} (decode : bytes -> Result E A * bytes) (name : E -> string) (v : InvalidVector) : Result Error unit :=
  input ← decode_hex (iv_encoded v);
  match (decode input).1 with
  | Err error => assert_true (bool_decide (name error = iv_error v))
  | _ => Panic
  end.

Fixpoint each {A} (f : A -> Result Error unit) (l : list A) : Result Error unit :=
  match l with [] => Ok tt | a :: l => _ ← f a; each f l end.

Definition check_vectors (vectors : Vectors) : Result Error unit :=
  _ ← assert_true (schema_version vectors =? 1);
  _ ← each check_varint (varints vectors);
  _ ← each check_frame (frames vectors);
  _ ← each (check_invalid VarInt.decode varint_error_name) (invalid_varints vectors);
  each (check_invalid Frame.decode frame_error_name) (invalid_frames vectors).

Definition version_one_conformance_vectors_match_codec (vectors : Vectors) : Result Error unit :=
  _ ← assert_true (bool_decide (protocol vectors = "muxtls/1"));
  check_vectors vectors.

(** ** [v1.json] *)

Definition v1_varints : list VarIntVector :=
  [mkVarIntVector "zero" 0 "00";
   mkVarIntVector "one_byte_max" 63 "3f";
   mkVarIntVector "two_byte_min" 64 "4040";
   mkVarIntVector "two_byte_max" 16383 "7fff";
   mkVarIntVector "four_byte_min" 16384 "80004000";
   mkVarIntVector "four_byte_max" 1073741823 "bfffffff";
   mkVarIntVector "eight_byte_min" 1073741824 "c000000040000000";
   mkVarIntVector "maximum" 4611686018427387903 "ffffffffffffffff"].
Definition v1_frames : list FrameVector :=
  [mkFrameVector "ping" "02" "0000000102" EPing;
   mkFrameVector "open_client_stream_zero" "0400" "000000020400" (EOpenStream 0);
   mkFrameVector "open_server_stream_one" "0401" "000000020401" (EOpenStream 1);
   mkFrameVector "open_final_odd_stream" "04ffffffffffffffff" "0000000904ffffffffffffffff" (EOpenStream 4611686018427387903);
   mkFrameVector "stream_hello" "0000000568656c6c6f" "000000090000000568656c6c6f" (EStream 0 false "68656c6c6f");
   mkFrameVector "stream_empty_fin" "00010100" "0000000400010100" (EStream 1 true EmptyString);
   mkFrameVector "reset_stream" "0140402a" "000000040140402a" (EResetStream 64 42);
   mkFrameVector "graceful_connection_close" "030004646f6e65" "00000007030004646f6e65" (EConnectionClose 0 "done");
   mkFrameVector "settings_zero_credit" "0500004040" "000000050500004040" (ESettings 0 0 64);
   mkFrameVector "max_data_maximum" "06ffffffffffffffff" "0000000906ffffffffffffffff" (EMaxData 4611686018427387903);
   mkFrameVector "max_stream_data" "07004040" "0000000407004040" (EMaxStreamData 0 64);
   mkFrameVector "stop_sending" "0801" "000000020801" (EStopSending 1)].
Definition v1_invalid_varints : list InvalidVector :=
  [mkInvalidVector "empty" EmptyString "unexpected_eof";
   mkInvalidVector "truncated_two_byte" "40" "unexpected_eof";
   mkInvalidVector "truncated_four_byte" "800000" "unexpected_eof";
   mkInvalidVector "truncated_eight_byte" "c0000000000000" "unexpected_eof"].
Definition v1_invalid_frames : list InvalidVector :=
  [mkInvalidVector "empty" EmptyString "unexpected_eof";
   mkInvalidVector "unknown_type" "ff" "unknown_frame_type";
   mkInvalidVector "ping_with_trailing_byte" "02ff" "trailing_bytes";
   mkInvalidVector "reserved_stream_flag" "00000200" "unsupported_flags";
   mkInvalidVector "truncated_stream_payload" "0000000501" "unexpected_eof";
   mkInvalidVector "invalid_close_utf8" "030001ff" "invalid_utf8";
   mkInvalidVector "truncated_open_stream_id" "0440" "varint_unexpected_eof";
   mkInvalidVector "truncated_settings" "050000" "varint_unexpected_eof";
   mkInvalidVector "trailing_credit" "060000" "trailing_bytes";
   mkInvalidVector "truncated_stream_credit" "0700" "varint_unexpected_eof"].
Definition v1 : Vectors := mkVectors 1 "muxtls/1" v1_varints v1_frames v1_invalid_varints v1_invalid_frames.

(** The test passes. *)
Example v1_passes : version_one_conformance_vectors_match_codec v1 = Ok tt.
Proof. vm_compute. reflexivity. Qed.
