(* ===== verification/Findings.v ===== *)
(** Runs of the whole model, from a new connection, in which the code departs from
    [muxtls-proto/PROTOCOL.md] or [muxtls-proto/FLOW_CONTROL.md]. *)

From S2P Require Import Prelude Hoare Buf Varint Utf8 Frames Errors Limits Flow.
From S2P Require Import Tokio ConnState Inbound InboundSpec Writer Connection Streams Tasks ConnectionSpec.
From S2P Require Import ReadSpec ReceiveSystem Receive.

#[local] Open Scope string_scope.
#[local] Open Scope list_scope.
#[local] Open Scope Z_scope.

Section dropped_close.
Context {TK : Tokio} {HI : HashIter}.
Implicit Types s : ConnectionShared.


End dropped_close.

#[local] Existing Instance counting.
#[local] Existing Instance hash_list.


(** The writer task takes a frame and the sink accepts it. *)
Definition write_one (t : WriterTask) : Conn (option Frame * WriterTask) :=
  t ← writer_turn true t;
  match t with
  | WriterSending f _ => t ← writer_turn true t; mret (Some f, t)
  | _ => mret (None, t)
  end.

(** The peer's SETTINGS, as received. *)
Definition peer_settings_item : ReaderItem :=
  RFrame (Frame.enc (Settings (mkVarInt 1000) (mkVarInt 1000) (mkVarInt 1000))).

Definition hi : bytes := utf8 "hi".

(** A client sends SETTINGS; while the sink is busy with it, the peer's SETTINGS
    arrive, a keepalive tick fires, and the application opens a stream and writes to
    it.  Then the writer takes three more frames. *)
Definition overtaking : Conn (list (option Frame)) :=
  a ← write_one WriterIdle;
  _ ← reader_step peer_settings_item;
  _ ← keepalive_tick;
  opened ← open_bi;
  match opened with
  | Pending => panic
  | Ready (id, l) =>
      _ ← write_chunk (mkSendStream id l None None false) hi;
      b ← write_one a.2;
      c ← write_one b.2;
      d ← write_one c.2;
      mret (map fst [a; b; c; d])
  end.

Definition run_new {A} (is_client : bool) (m : Conn A) : Result Error A :=
  s ← connection_new Limits.default is_client; (m s).1.


(** A client queues data, closes gracefully, and then the peer's frame [f] arrives;
    what the reader did, and what the writer sends after it. *)
Definition closing_run (f : Frame) : Conn (bool * list (option Frame)) :=
  a ← write_one WriterIdle;
  _ ← reader_step peer_settings_item;
  opened ← open_bi;
  match opened with
  | Pending => panic
  | Ready (id, l) =>
      b ← write_one a.2;
      _ ← write_chunk (mkSendStream id l None None false) hi;
      _ ← close (utf8 "bye");
      continue ← reader_step (RFrame (Frame.enc f));
      c ← write_one b.2;
      d ← write_one c.2;
      mret (continue, map fst [a; b; c; d])
  end.

(** ** Pages *)

(** [n] bytes arrive for the stream that the peer opened. *)
Definition zeros (n : Z) : bytes := replicate (Z.to_nat n) x00.
Definition arrive (n : Z) (s : ConnectionShared) : ConnectionShared :=
  (on_remote_stream_frame 1 (zeros n) false s).2.

Lemma arrive_reachable n s : reachable Limits.default s [] ->
  is_ok (on_remote_stream_frame 1 (zeros n) false s).1 = true -> zlen (zeros n) <= u64_max ->
  reachable Limits.default (arrive n s) [].
Proof.
  intros Hr Hok Hn. eapply reach_step; [exact Hr|]. apply (step_data 1 (zeros n) false); [done|].
  unfold arrive. by destruct (on_remote_stream_frame 1 (zeros n) false s) as [[[]| |] s'].
Qed.

Lemma demo1_reachable : reachable Limits.default demo1 [].
Proof.
  apply (reach_step _ fresh []).
  - apply (reach_new _ true); [apply default_unsigned|by vm_compute].
  - by apply (step_open 1); [rewrite VarInt.MAX_eq|vm_compute].
Qed.

Definition queue_of (s : ConnectionShared) : list InboundChunk :=
  match heap s !! 0%nat with Some st => chunks (inbound st) | None => [] end.


(** A payload of half a page that arrives behind an unfinished page with room for
    it is copied into that page: it does not keep a buffer of its own. *)
Theorem half_page_copied :
  let s := arrive 8192 (arrive 1 demo1) in
  reachable Limits.default s [] /\ page_size Limits.default = 2 * 8192 /\
  map (fun c => (is_page c, len c)) (queue_of s) = [(true, 8193)].
Proof.
  split; [|by vm_compute].
  do 2 (apply arrive_reachable; [|by vm_compute|by vm_compute]). apply demo1_reachable.
Qed.
